(* ===== verification/_CoqProject ===== *)
-Q . S2P
Prelude.v
Numbers.v
JsText.v
NumberText.v
Utf8.v
Collections.v
Json.v
Dates.v
Varint.v
Ip.v
Base32.v
Messages.v
Sha2.v
Framing.v
Handshake.v
Dns.v
Peers.v
Advance.v
StoreTypes.v
CrawlSpec.v
Geo.v
Snapshot.v
Worker.v
KvText.v
Passes.v
Faucet.v
FaucetRuns.v
FaucetFile.v
RateLimit.v
Uint256.v
Chain.v
Pow.v
Invalidation.v
Headers.v
Ancestry.v
InvalidateBlock.v
HeadersSync.v
HeadersMessages.v
