(* ===== verification/Prelude.v ===== *)
(** * Elektron Net: verification of the node map worker, of the faucet, and of
      the headers of the node

    ** The program

    Two JavaScript services of the repository are modelled, and the part of the
    C++ node that decides about block headers.

    The node map worker (src/contrib/websitetools/nodemaps/worker/src) crawls
    the peer-to-peer network and publishes a snapshot of it.  A scheduled pass
    resolves seed hosts over DNS (dns.js), speaks the wire protocol with a few
    peers (protocol.js, crawl.js), keeps what it learns in a key-value store,
    geolocates the peers (geo.js), and builds the snapshot (snapshot.js) that
    requests are answered with (index.js).

    The faucet (src/contrib/faucet/server.js) pays small amounts to addresses
    that claim them, with a cooldown per address and per IP and a daily limit.

    The node (src/src), a fork of Bitcoin Core, keeps an index of block headers.
    A header that a peer sends is checked (validation.cpp) against the target that
    the rules of the network require after its parent (pow.cpp), which is computed
    with 256-bit numbers (arith_uint256.cpp) from ancestors that are found over a
    skip list (chain.cpp), and is added to the index (node/blockstorage.cpp).
    Headers of unknown work are first synchronised in two phases
    (headerssync.cpp), as the handler of headers messages decides
    (net_processing.cpp).  A miner keeps the time and the target of its template up
    to date (node/miner.cpp).

    ** The files

    - Prelude: buffers, exceptions, reads of a DataView, conversion of integers
      to doubles, shared tactics and lemmas.
    - Numbers: IEEE doubles with their rounding, arithmetic and comparisons.
    - JsText: strings of UTF-16 units; split, join, trim, parseInt,
      parseFloat, Number, toString, TextEncoder and TextDecoder.  NumberText:
      the decimal text of a double.  Utf8: what TextEncoder writes, TextDecoder
      reads back, and what is read of a text that was cut short.
    - Collections: Array.prototype.sort, Set, and objects as dictionaries.
    - Json: JSON.stringify and JSON.parse.  Dates: toISOString and Date.parse.
    - Varint, Ip, Base32, Messages, Framing: protocol.js, function by function.
      Sha2: the digest SHA-256 of the platform, for the examples.
    - Handshake: withTimeout and crawlPeerOnce of crawl.js.
    - Dns: dns.js.  Peers: the stored records and inferNetwork.
    - Advance: advanceCrawl of crawl.js.  StoreTypes: the type of the records it
      stores.  CrawlSpec: a specification of it on finite maps, and refinement.
    - Geo, Snapshot, Worker: geo.js, snapshot.js and index.js.  Worker composes
      all the parts above into the pass, one step for each operation on the
      key-value store, and the two handlers.
    - KvText: the pass and the requests on the texts of the key-value store.
    - Passes: any number of passes of the worker side by side on one store.
    - Faucet: server.js.  FaucetRuns: its claims under way, side by side.
      FaucetFile: its file as bytes.  RateLimit: the middleware and the store of
      express-rate-limit, with the options of server.js.
    - Uint256: arith_uint256.h and arith_uint256.cpp.
    - Chain: primitives/block.h, the entries of the block index and their skip
      list (chain.h, chain.cpp), AddToBlockIndex of node/blockstorage.cpp.
    - Pow: pow.cpp, the parameters of the main network (kernel/chainparams.cpp),
      the subsidy (GetBlockSubsidy of validation.cpp) and consensus/amount.h.
    - Invalidation: the marks of failed blocks and the best header
      (InvalidBlockFound, InvalidChainFound, RecalculateBestHeader of
      validation.cpp), and reconsiderblock of rpc/blockchain.cpp.
    - Headers: CheckBlockHeader, ContextualCheckBlockHeader and AcceptBlockHeader
      of validation.cpp, the transition systems made of it and of the operations of
      Invalidation, and UpdateTime of node/miner.cpp.
    - Ancestry: LocatorEntries, LastCommonAncestor, GetBlockProofEquivalentTime
      and the active chain (CChain) of chain.cpp.
    - InvalidateBlock: the turns of the command invalidateblock (validation.cpp).
    - HeadersSync: headerssync.cpp, and the checks of net_processing.cpp before it.
    - HeadersMessages: ProcessHeadersMessage of net_processing.cpp, which composes
      the two files above and Headers, and a node with its peers.

    ** How the code is modelled

    A Uint8Array is a list of bytes, a string a list of UTF-16 units, a number
    that is always an integer a Z.  Where a 64-bit value is turned into a
    Number it is rounded ([to_double]).  All settings, of the worker and of the
    faucet, and its amounts are IEEE doubles ([jsnum]), NaN and the infinities
    included; a loop whose bound is infinite gives [Diverges] unless something
    in it throws before, and so does an await that never settles.  Code that can throw returns a [res].  Mutated objects
    are state that is passed on; records reached through several references (the entries
    of the store that the filter of advanceCrawl repairs) are updated in the
    store itself.

    What comes from outside is an argument: the digest SHA-256 (the class
    [Sha256], a function with results of 32 bytes), the resolver, the
    geolocation services, the wallet, random bytes, the answers of the key-value
    store and of the disk, and every reading of the clock.  The socket of a peer
    is a promise of the connection and a script of the reads, the writes and the
    closing; a promise is fulfilled or rejected after some time, or never.

    Values are stored as they are in Worker and Faucet; KvText and FaucetFile
    tell which texts and bytes stand for them, and run the same code on those.
    Reads of the key-value store find, in Passes, any value ever written.

    Code that runs side by side is a transition system whose steps are the
    pieces between two awaits: the pass of the worker ([Worker.pass_step] in
    [Passes.sys_step]) and the claim handler ([Faucet.claim_check] and
    [Faucet.claim_finish] in [FaucetRuns.step]).

    In the node an arith_uint256 is its list of eight 32-bit digits, with the
    carries and wrap-arounds of the code; [Uint256.repr] tells the number it
    stands for.  A uint256 is its bytes.  The block index is a finite map from
    hashes, and a pointer to an entry is its key; a null pointer that is followed,
    and an assertion that fails, are exceptions.  A loop over the whole index takes
    the order of the entries as an argument, as an unordered map has none.  Timestamps and targets are
    32-bit numbers; heights are integers without a bound.  SHA-256 is the same
    interface as in the worker, so the theorems hold for any digest of 32 bytes,
    and the examples use real blocks: [Pow.main_genesis] is the genesis block of
    the main network, and the blocks of Headers meet their targets.

    Loops that are not structural take fuel: the length of the buffer or of
    the payload, plus one where needed.  Every turn of these loops consumes at
    least four bytes (framing), 30 bytes (addr) or nine bytes (addrv2), and the
    theorems show results for all inputs, so the fuel is never exhausted.  The
    fuel of JSON.parse is twice the length of the text, which is enough for any
    text ([Json.parse_value_fuel]).  The walks over the block index take the height
    of the entry they start from, which every turn lowers.

    ** What the theorems show

    - Framing: messages survive packing and extraction behind garbage; how the
      stream is cut into chunks does not matter; only checksummed frames are
      delivered; the buffer stays bounded.
    - Codecs: round trips of varints, IP texts, version and addr messages; the
      parsers of peer input never throw and are bounded by the input; base32 is
      RFC 4648's.
    - Handshake: messages are sent in the order of the protocol whatever the
      peer does; a result is what the messages tell that arrived until the loop
      stopped, and a peer that answers in time has a result.
    - Discovery: a run refines its specification on maps; keys stay unique,
      depths within bounds, stale peers go, recent peers and roots stay, the
      crawl budget goes to the right peers.
    - Deployment: in every reachable state, with passes that overlap, store
      operations that fail and reads that find old values, the stored peers and
      every snapshot served are well typed; passes end; the handlers are
      executions of the step system; a pass that fails has written a prefix of
      its results; of two passes that read the same peers the last one wins.
    - Texts: what is stored is read back, numbers, strings and dates included; a
      pass on texts is a pass on values; a visitor is served a text of the
      stored snapshot.
    - Snapshot and geolocation: nodes, countries and counts agree with the
      store; cached results and lookups are as specified and bounded.
    - Worker: stored data only change in authorised passes; a visitor sees the
      snapshot of the last pass; settings that are no numbers turn parts of the
      worker off.
    - Faucet: payments are guarded; with at most K claims under way at a time a
      cooldown has at most K claims of an address or an IP and a day a bounded
      number, and these bounds are reached; payments that are not recorded
      repeat; settings that are no numbers, and a header of the client, turn
      checks off.  What is saved is loaded, and a file cut at any byte is not
      taken for claims, so that the faucet on bytes implements the one on
      claims.
    - Rate limiter: it decides as if it never forgot an address, when the clock
      does not move on within a request, and no more than twice the limit pass in a stretch as long as its window.
    - Arithmetic of the node: the digits compute what 256-bit numbers compute; the
      compact format loses less than one part in 2^15 and is stable.
    - Block index: the skip list finds the ancestors that pprev finds; the last
      common ancestor is the highest one; locators are short and reach the root;
      the active chain holds the ancestors of its tip.
    - Difficulty: which target the code requires on every branch, and that the
      check of a synchronising node permits it unless the product overflows.  On
      the main network it does overflow: after a block at the limit the next
      period is at least 236 times harder, which explains the target of height
      10080, and some required targets are not permitted.
    - Issuance: what is issued in total, which is more than MAX_MONEY.
    - Headers: what every entry of a reachable index satisfies; that marks of
      failed blocks reach all descendants, and that the best header is not marked
      and has most work of those that are not (invalidateblock apart); that acceptance is decided by the rules and nothing
      else; that the clock bounds the length of a chain; that a template stays
      valid when its time is updated.
    - Synchronisation: released headers are backed by work and commitments, memory
      is bounded, and a peer that serves its chain twice is synchronised with.
    - Messages: with any number of peers, a header enters the index only if the
      minimum chain work was shown for its chain, or the peer is exempt, or the
      end of its message is known; no message makes the handler fail.

    ** Limits

    The step systems count time by a clock that does not run backwards; ticks
    of the rate limiter are at least a window apart.  Requests to the resolver and
    to the geolocation services and operations of the key-value store, which the
    worker awaits without a timeout, settle at some time.  K is
    any number of claims; the number N of payouts that reach the daily limit is
    a hypothesis that evaluation decides ([FaucetRuns.limit_at]), 10000 for the
    default settings.

    The texts modelled are those of values of the shape the worker and the
    faucet write; a text with a value of another shape (peers that are no
    object, a claim without an address) is outside of [KvText.stand] and
    [FaucetFile.file_of].  Dates are those from 1970 to 9999.  The theorems on
    the cooldown are about whole hours, up to 10^9.

    Not modelled: the inherited properties of Object.prototype as dictionary
    keys; log output; the headers and validations of the rate limiter; the HTTP
    framework, the HTTP client and the reader of .env files of the faucet, which
    are libraries.  The flattened copy of the worker (dashboard-bundle.js) is
    generated from the sources modelled here, function by function the same, so
    a model of it would repeat this one.

    Not modelled of the node: everything about blocks beyond their headers (the
    transactions, scripts, coins, attestation and pruning), the databases, and of
    the network code all but headers messages, since it is threads, input and
    output.  Of the deployments only the buried ones that header checks ask for are
    modelled, of the status of an entry only whether it failed, and the clock is in
    whole seconds.  The index is built from the genesis block, not loaded from a
    disk.  What is shown of the entries holds whatever is marked as failed and
    whichever entry is the best header ([Headers.reachable]); what is shown of the
    marks and the best header is about the operations of [Headers.maintained].  The
    command invalidateblock is not one of them: it gives up the lock between two
    blocks, and a header that arrives then can have more work than the best header
    afterwards ([InvalidateBlock.invalidate_forgets_header]).  The user interface, the web pages and the other bundled
    libraries are outside of this development. *)

From Stdlib Require Export ZArith Lia.
From Stdlib Require Strings.Byte.
From coqutil Require Export Byte Word.LittleEndianList.
From stdpp Require Export base tactics numbers option sets list.

Global Open Scope Z_scope.

(** ** Byte buffers

    A [Uint8Array] is a list of bytes.  Offsets and lengths are JavaScript
    numbers, modelled as [Z]; [len] is the [length] property. *)

Abbreviation bytes := (list Init.Byte.byte).

Global Instance byte_eq_dec : EqDecision Init.Byte.byte := Byte.byte_eq_dec.

Definition len {A} (l : list A) : Z := Z.of_nat (length l).

(** [Uint8Array.prototype.slice(a, b)] for non-negative arguments: the indices
    are clamped to the length of the array. *)
Definition slice {A} (l : list A) (a b : Z) : list A :=
  take (Z.to_nat (b - a)) (drop (Z.to_nat a) l).

(** [slice(a)]: up to the end of the array. *)
Definition slice_from {A} (l : list A) (a : Z) : list A := drop (Z.to_nat a) l.

(** ** Exceptions

    Code that may throw returns a [res]: the value or the exception. *)

Inductive exn :=
  | RangeError   (** an access outside of a [DataView] *)
  | InvalidIPv6  (** [throw new Error("invalid IPv6 address: ...")] *)
  | InvalidIPv4  (** [throw new Error("invalid IPv4 address: ...")] *)
  | FetchError   (** a rejected [fetch()] or an undecodable response body *)
  | WriteError   (** a rejected [writer.write()] *)
  | RpcError     (** a rejected or refused JSON-RPC call *)
  | ConnectError (** [connect()], or the import of it, throws *)
  | KvError      (** a rejected operation of the key-value store *)
  | Diverges     (** not an exception: a loop or an awaited promise that never ends, and that nothing catches *)
  | TypeError    (** a property access on [undefined] *)
  | UintError    (** [throw uint_error("Division by zero")] of the node *)
  | AssertFailed (** an [assert] of the node that does not hold *)
  | NullPointer  (** a null pointer of the node that is followed *)
  | OutOfFuel.   (** not an exception of the program: a loop bound of the model was too small *)

Inductive res (A : Type) :=
  | Ok (a : A)
  | Throw (e : exn).
Arguments Ok {A} a.
Arguments Throw {A} e.

Global Instance res_ret : MRet res := fun A a => Ok a.
Global Instance res_bind : MBind res := fun A B k m =>
  match m with Ok a => k a | Throw e => Throw e end.

(** ([injection] would also reduce the values.) *)
Lemma Ok_inj {A} (a b : A) : Ok a = Ok b -> a = b.
Proof. congruence. Qed.

(** ** DataView reads

    A read that leaves the buffer throws a [RangeError]. *)

Definition view_read (n : nat) (buf : bytes) (offset : Z) : res bytes :=
  if (0 <=? offset) && (offset + Z.of_nat n <=? len buf)
  then Ok (take n (drop (Z.to_nat offset) buf))
  else Throw RangeError.

(** [getUint8/16/32(offset, true)] and [getBigUint64(offset, true)]. *)
Definition getUintLE (n : nat) (buf : bytes) (offset : Z) : res Z :=
  bs ← view_read n buf offset; Ok (le_combine bs).

(** [getUint16(offset, false)]. *)
Definition getUintBE (n : nat) (buf : bytes) (offset : Z) : res Z :=
  bs ← view_read n buf offset; Ok (le_combine (rev bs)).

(** [setUint16(0, v, false)] on a fresh buffer of [n] bytes. *)
Definition be_split (n : nat) (v : Z) : bytes := rev (le_split n v).

(** ** Numbers

    A JavaScript number that is a non-negative integer is that integer up to
    [2^53]; above, [Number(bigint)] and additions round to the nearest integer
    with a 53-bit significand, ties to even. *)

Definition to_double (n : Z) : Z :=
  if n <? 2 ^ 53 then n
  else
    let e := Z.log2 n - 52 in
    let q := n / 2 ^ e in
    let r := n mod 2 ^ e in
    let q' := if r <? 2 ^ (e - 1) then q
              else if 2 ^ (e - 1) <? r then q + 1
              else if Z.even q then q else q + 1 in
    q' * 2 ^ e.

(** The sum of two non-negative integral numbers. *)
Definition num_add (a b : Z) : Z := to_double (a + b).

(** ** Generic lemmas *)

Create HintDb js.
Create Rewrite HintDb js.

Lemma len_nonneg {A} (l : list A) : 0 <= len l.
Proof. unfold len. lia. Qed.

Lemma len_app {A} (l1 l2 : list A) : len (l1 ++ l2) = len l1 + len l2.
Proof. unfold len. rewrite length_app. lia. Qed.

Lemma len_cons {A} (x : A) l : len (x :: l) = 1 + len l.
Proof. unfold len. simpl. lia. Qed.

Lemma len_nil {A} : len (@nil A) = 0.
Proof. reflexivity. Qed.

Lemma len_snoc {A} (l : list A) x : len (l ++ [x]) = len l + 1.
Proof. by rewrite len_app, len_cons, len_nil. Qed.

#[export] Hint Rewrite @len_app @len_cons @len_nil : js.

(** Decide the boolean comparisons of the goal and of the hypotheses. *)
Ltac zbool :=
  repeat match goal with
  | H : (_ && _) = true |- _ => apply andb_prop in H; destruct H
  | H : (_ <=? _) = true |- _ => apply Z.leb_le in H
  | H : (_ <=? _) = false |- _ => apply Z.leb_gt in H
  | H : (_ <? _) = true |- _ => apply Z.ltb_lt in H
  | H : (_ <? _) = false |- _ => apply Z.ltb_ge in H
  | H : (_ =? _) = true |- _ => apply Z.eqb_eq in H
  | H : (_ =? _) = false |- _ => apply Z.eqb_neq in H
  end.

(** Case analysis on the first integer comparison of the goal. *)
Ltac zcase :=
  match goal with
  | |- context [?a <? ?b] => destruct (a <? b) eqn:?
  | |- context [?a <=? ?b] => destruct (a <=? b) eqn:?
  | |- context [?a =? ?b] => destruct (a =? b) eqn:?
  end; zbool; try lia.

(** Run a bind whose first computation has been rewritten to its result. *)
Ltac rbind := cbn [mbind res_bind].

(** Evaluate the comparisons of numerals. *)
Ltac zconst :=
  repeat match goal with
  | |- context [?a <? ?b] =>
    let v := eval vm_compute in (a <? b) in
    lazymatch v with true => idtac | false => idtac end; change (a <? b) with v
  | |- context [?a <=? ?b] =>
    let v := eval vm_compute in (a <=? b) in
    lazymatch v with true => idtac | false => idtac end; change (a <=? b) with v
  | |- context [?a =? ?b] =>
    let v := eval vm_compute in (a =? b) in
    lazymatch v with true => idtac | false => idtac end; change (a =? b) with v
  end; cbv iota.

(** *** Slices and views *)

Lemma view_read_ok n buf offset :
  0 <= offset -> offset + Z.of_nat n <= len buf ->
  view_read n buf offset = Ok (take n (drop (Z.to_nat offset) buf)).
Proof. intros. unfold view_read. rewrite (proj2 (Z.leb_le _ _)), (proj2 (Z.leb_le _ _)); auto. Qed.

(** A read inside of the middle part of a buffer. *)
Lemma view_read_mid n (pre mid post : bytes) offset :
  offset = len pre -> length mid = n ->
  view_read n (pre ++ mid ++ post) offset = Ok mid.
Proof.
  intros -> Hn. rewrite view_read_ok.
  - unfold len. rewrite Nat2Z.id, drop_app_length. f_equal. by rewrite <- Hn, take_app_length.
  - apply len_nonneg.
  - rewrite !len_app. unfold len. lia.
Qed.

Lemma getUintLE_mid n (pre mid post : bytes) offset :
  offset = len pre -> length mid = n ->
  getUintLE n (pre ++ mid ++ post) offset = Ok (le_combine mid).
Proof. intros. unfold getUintLE. by erewrite view_read_mid. Qed.

Lemma getUintBE_mid n (pre mid post : bytes) offset :
  offset = len pre -> length mid = n ->
  getUintBE n (pre ++ mid ++ post) offset = Ok (le_combine (rev mid)).
Proof. intros. unfold getUintBE. by erewrite view_read_mid. Qed.

Lemma getUintLE_total n buf offset :
  0 <= offset -> offset + Z.of_nat n <= len buf ->
  exists v, getUintLE n buf offset = Ok v /\ 0 <= v < 2 ^ (8 * Z.of_nat n).
Proof.
  intros H1 H2. unfold getUintLE. rewrite view_read_ok by done. simpl. eexists. split; [done|].
  match goal with |- context [le_combine ?l] => pose proof (le_combine_bound l) as Hb end.
  rewrite length_take, length_drop in Hb. unfold len in H2.
  by rewrite Nat.min_l in Hb by lia.
Qed.

Lemma getUintBE_total n buf offset :
  0 <= offset -> offset + Z.of_nat n <= len buf ->
  exists v, getUintBE n buf offset = Ok v /\ 0 <= v < 2 ^ (8 * Z.of_nat n).
Proof.
  intros H1 H2. unfold getUintBE. rewrite view_read_ok by done. simpl. eexists. split; [done|].
  match goal with |- context [le_combine ?l] => pose proof (le_combine_bound l) as Hb end.
  rewrite length_rev, length_take, length_drop in Hb. unfold len in H2.
  by rewrite Nat.min_l in Hb by lia.
Qed.

Lemma slice_mid {A} (pre mid post : list A) a b :
  a = len pre -> b = a + len mid -> slice (pre ++ mid ++ post) a b = mid.
Proof.
  intros -> ->. unfold slice, len.
  rewrite Nat2Z.id, drop_app_length.
  replace (Z.to_nat _) with (length mid) by lia. apply take_app_length.
Qed.

Lemma len_slice {A} (l : list A) a b :
  0 <= a -> a <= b -> b <= len l -> len (slice l a b) = b - a.
Proof. unfold len, slice. intros. rewrite length_take, length_drop. lia. Qed.

Lemma le_combine_split_small n v :
  0 <= v < 2 ^ (Z.of_nat n * 8) -> le_combine (le_split n v) = v.
Proof. intros. rewrite le_combine_split. by apply Z.mod_small. Qed.

Lemma be_split_combine n l : length l = n -> be_split n (le_combine (rev l)) = l.
Proof.
  intros <-. unfold be_split. rewrite <- length_rev. by rewrite split_le_combine, rev_involutive.
Qed.

Lemma length_be_split n v : length (be_split n v) = n.
Proof. unfold be_split. by rewrite length_rev, length_le_split. Qed.

Lemma combine_be_split n v :
  0 <= v < 2 ^ (Z.of_nat n * 8) -> le_combine (rev (be_split n v)) = v.
Proof. intros. unfold be_split. rewrite rev_involutive. by apply le_combine_split_small. Qed.

(** *** Rounding to doubles *)

Lemma to_double_small n : n < 2 ^ 53 -> to_double n = n.
Proof. intros. unfold to_double. by rewrite (proj2 (Z.ltb_lt _ _)). Qed.

Lemma to_double_large n : 2 ^ 53 <= n -> 2 ^ 53 <= to_double n.
Proof.
  intros H. unfold to_double. rewrite (proj2 (Z.ltb_ge _ _)) by done.
  assert (53 <= Z.log2 n) as Hl by (change 53 with (Z.log2 (2 ^ 53)); by apply Z.log2_le_mono).
  set (e := Z.log2 n - 52). cbv zeta.
  assert (2 ^ 52 <= n / 2 ^ e) as Hq.
  { apply Z.div_le_lower_bound; [apply Z.pow_pos_nonneg; lia|].
    rewrite <- Z.pow_add_r by lia. replace (e + 52) with (Z.log2 n) by lia.
    apply Z.log2_spec. lia. }
  assert (2 ^ 1 <= 2 ^ e) as He by (apply Z.pow_le_mono_r; lia).
  transitivity (2 ^ 52 * 2 ^ e).
  { change (2 ^ 53) with (2 ^ 52 * 2 ^ 1). lia. }
  apply Z.mul_le_mono_nonneg_r; [lia|].
  repeat case_match; lia.
Qed.

Lemma to_double_le n m : n <= to_double m -> n < 2 ^ 53 -> m < 2 ^ 53 -> n <= m.
Proof. intros H1 _ H2. by rewrite to_double_small in H1. Qed.

Lemma to_double_nonneg n : 0 <= n -> 0 <= to_double n.
Proof.
  intros. destruct (Z.lt_ge_cases n (2 ^ 53)); [by rewrite to_double_small|].
  pose proof (to_double_large n). lia.
Qed.

(** A sum that compares below an array length is exact. *)
Lemma num_add_bounded a b n : num_add a b <= n -> n < 2 ^ 53 -> num_add a b = a + b /\ a + b <= n.
Proof.
  unfold num_add. intros H1 H2.
  destruct (Z.lt_ge_cases (a + b) (2 ^ 53)) as [Hs|Hs].
  - rewrite to_double_small in * by done. lia.
  - apply to_double_large in Hs. lia.
Qed.

(** ** Counting *)

Definition hits {A} (P : A -> bool) (l : list A) : nat := length (List.filter P l).

Lemma hits_app {A} (P : A -> bool) l1 l2 : hits P (l1 ++ l2) = (hits P l1 + hits P l2)%nat.
Proof. unfold hits. by rewrite List.filter_app, length_app. Qed.

Lemma hits_le {A} (P : A -> bool) l : (hits P l <= length l)%nat.
Proof. apply List.filter_length_le. Qed.

Lemma hits_mono {A} (P Q : A -> bool) l :
  (forall x, x ∈ l -> P x = true -> Q x = true) -> (hits P l <= hits Q l)%nat.
Proof.
  unfold hits. induction l as [|x l IH]; intros H; cbn; [lia|].
  pose proof (IH ltac:(intros y Hy; apply H; by right)) as IH'.
  destruct (P x) eqn:E; [rewrite (H x) by (done || left)|destruct (Q x)]; cbn; lia.
Qed.

Lemma hits_cons {A} (P : A -> bool) x l : hits P (x :: l) = ((if P x then 1 else 0) + hits P l)%nat.
Proof. unfold hits. cbn. by destruct (P x). Qed.

Lemma hits_one {A} (P : A -> bool) x : hits P [x] = if P x then 1%nat else 0%nat.
Proof. unfold hits. cbn. by destruct (P x). Qed.

(** The first hit. *)
Lemma hits_first {A} (P : A -> bool) l :
  hits P l = 0%nat \/ exists l1 x l2, l = l1 ++ x :: l2 /\ P x = true /\ hits P l = S (hits P l2).
Proof.
  induction l as [|x l IH]; [by left|]. rewrite hits_cons. destruct (P x) eqn:E.
  - right. by exists [], x, l.
  - destruct IH as [->|(l1 & y & l2 & -> & Hy & ->)]; [by left|]. right. by exists (x :: l1), y, l2.
Qed.

Lemma filter_none {A} (P : A -> bool) l : (forall x, x ∈ l -> P x = false) -> List.filter P l = [].
Proof.
  induction l as [|x l IH]; intros H; cbn; [done|]. rewrite (H x) by left. apply IH. intros. apply H. by right.
Qed.
