(* ===== verification/Numbers.v ===== *)
(** * JavaScript numbers

    IEEE 754 doubles with their rounding, as far as the sources calculate with
    numbers that need not be integers: the settings, which are [Number] of
    environment variables, and what is computed from them. *)

From S2P Require Import Prelude.

(** A number: [Dyadic m e] is the double [m * 2^e]; the sign of zero is not
    observed by the code. *)
Inductive jsnum :=
  | NaN
  | Infty (neg : bool)
  | Dyadic (m e : Z).

(** ** Rounding *)

(** Round a positive quotient to the nearest integer, ties to even. *)
Definition round_half_even (n d : Z) : Z :=
  let q := n / d in
  let r := n mod d in
  if 2 * r <? d then q else if d <? 2 * r then q + 1 else if Z.even q then q else q + 1.

(** The exponent of the leading bit of [n / d]. *)
Definition ratio_log2 (n d : Z) : Z :=
  let l := Z.log2 n - Z.log2 d in
  if d * 2 ^ Z.max l 0 <=? n * 2 ^ Z.max (- l) 0 then l else l - 1.

(** The double nearest to [n / d], for [0 <= n] and [0 < d]: 53 bits, fewer
    below 2^-1022, and infinity beyond the largest double. *)
Definition round_ratio (n d : Z) : jsnum :=
  if n =? 0 then Dyadic 0 0
  else
    let k := Z.max (-1074) (ratio_log2 n d - 52) in
    let q := round_half_even (n * 2 ^ Z.max (- k) 0) (d * 2 ^ Z.max k 0) in
    if (971 <? k) || ((k =? 971) && (2 ^ 53 <=? q)) then Infty false
    else if 2 ^ 53 <=? q then Dyadic (2 ^ 52) (k + 1) else Dyadic q k.

Definition num_opp (x : jsnum) : jsnum :=
  match x with NaN => NaN | Infty b => Infty (negb b) | Dyadic m e => Dyadic (- m) e end.

(** The double nearest to [n / d], for [0 < d]. *)
Definition round_signed (n d : Z) : jsnum :=
  if n <? 0 then num_opp (round_ratio (- n) d) else round_ratio n d.

(** The double nearest to [m * 10^e] and to an integer. *)
Definition round_decimal (m e : Z) : jsnum := round_ratio (m * 10 ^ Z.max e 0) (10 ^ Z.max (- e) 0).
Definition num (z : Z) : jsnum := round_signed z 1.

(** ** Arithmetic *)

Definition round_dyadic (m e : Z) : jsnum := round_signed (m * 2 ^ Z.max e 0) (2 ^ Z.max (- e) 0).

Definition js_add (x y : jsnum) : jsnum :=
  match x, y with
  | NaN, _ | _, NaN => NaN
  | Infty a, Infty b => if Bool.eqb a b then Infty a else NaN
  | Infty a, Dyadic _ _ => Infty a
  | Dyadic _ _, Infty b => Infty b
  | Dyadic m1 e1, Dyadic m2 e2 =>
    let e := Z.min e1 e2 in round_dyadic (m1 * 2 ^ (e1 - e) + m2 * 2 ^ (e2 - e)) e
  end.

Definition js_sub (x y : jsnum) : jsnum := js_add x (num_opp y).

Definition js_mul (x y : jsnum) : jsnum :=
  match x, y with
  | NaN, _ | _, NaN => NaN
  | Infty a, Infty b => Infty (xorb a b)
  | Infty a, Dyadic m _ | Dyadic m _, Infty a => if m =? 0 then NaN else Infty (xorb a (m <? 0))
  | Dyadic m1 e1, Dyadic m2 e2 => round_dyadic (m1 * m2) (e1 + e2)
  end.

(** [x / y] for a positive finite [y]. *)
Definition js_div_pos (x : jsnum) (y : Z) : jsnum :=
  match x with
  | NaN => NaN
  | Infty a => Infty a
  | Dyadic m e => round_signed (m * 2 ^ Z.max e 0) (y * 2 ^ Z.max (- e) 0)
  end.

(** ** Comparison *)

Definition js_ltb (x y : jsnum) : bool :=
  match x, y with
  | NaN, _ | _, NaN => false
  | Infty a, Infty b => a && negb b
  | Infty a, Dyadic _ _ => a
  | Dyadic _ _, Infty b => negb b
  | Dyadic m1 e1, Dyadic m2 e2 =>
    let e := Z.min e1 e2 in m1 * 2 ^ (e1 - e) <? m2 * 2 ^ (e2 - e)
  end.

Definition js_leb (x y : jsnum) : bool :=
  match x, y with
  | NaN, _ | _, NaN => false
  | _, _ => negb (js_ltb y x)
  end.

(** [Math.max(x, y)] *)
Definition js_max (x y : jsnum) : jsnum :=
  match x, y with
  | NaN, _ | _, NaN => NaN
  | _, _ => if js_ltb x y then y else x
  end.

(** ** Numbers as counts *)

(** The integer part, towards zero. *)
Definition dyadic_trunc (m e : Z) : Z := if 0 <=? e then m * 2 ^ e else Z.quot m (2 ^ (- e)).

(** The least integer that is not less. *)
Definition dyadic_ceil (m e : Z) : Z := if 0 <=? e then m * 2 ^ e else - ((- m) / 2 ^ (- e)).

(** How often the loop [for (let i = 0; i < x; i++)] is run; [None]: it does not
    end, as [i] stays at 2^53, the first integer whose successor is not a
    double. *)
Definition loop_count (x : jsnum) : option nat :=
  match x with
  | NaN | Infty true => Some O
  | Infty false => None
  | Dyadic m e => if 2 ^ 53 <? dyadic_ceil m e then None else Some (Z.to_nat (dyadic_ceil m e))
  end.

(** [Math.ceil(x)] *)
Definition js_ceil (x : jsnum) : jsnum :=
  match x with Dyadic m e => num (dyadic_ceil m e) | _ => x end.

(** [l.slice(0, x)]: a negative end counts from the end of the array. *)
Definition slice_num {A} (l : list A) (x : jsnum) : list A :=
  match x with
  | NaN | Infty true => []
  | Infty false => l
  | Dyadic m e =>
    let n := dyadic_trunc m e in take (Z.to_nat (if n <? 0 then len l + n else n)) l
  end.

(** [ToUint16] of a DataView's [setUint16], before the reduction modulo 2^16. *)
Definition to_int (x : jsnum) : Z :=
  match x with NaN | Infty _ => 0 | Dyadic m e => dyadic_trunc m e end.

(** The integer a number is, if [Number.isInteger] holds of it. *)
Definition integer_of (x : jsnum) : option Z :=
  match x with
  | Dyadic m e =>
    if 0 <=? e then Some (m * 2 ^ e)
    else if m mod 2 ^ (- e) =? 0 then Some (m / 2 ^ (- e)) else None
  | _ => None
  end.

(** ** Lemmas: powers of two of either sign *)

(** [2^k] is [pw k / pw (- k)]. *)
Definition pw (k : Z) : Z := 2 ^ Z.max k 0.

Lemma pw_pos k : 0 < pw k.
Proof. apply Z.pow_pos_nonneg; lia. Qed.

Lemma pw_shift k c : 0 <= c -> pw (k + c) * pw (- k) = 2 ^ c * (pw k * pw (- (k + c))).
Proof.
  intros Hc. unfold pw. rewrite <- !Z.pow_add_r by lia. f_equal. lia.
Qed.

(** [2^c <= x / 2^k], for [x = n / d], does not depend on how it is scaled. *)
Lemma scale_le n d k c :
  0 <= c -> 2 ^ c * (d * pw k) <= n * pw (- k) <-> d * pw (k + c) <= n * pw (- (k + c)).
Proof.
  intros Hc. pose proof (pw_shift k c Hc) as E. pose proof (pw_pos (- k)). pose proof (pw_pos (- (k + c))).
  rewrite (Z.mul_le_mono_pos_r _ (n * pw (- k)) (pw (- (k + c)))) by done.
  rewrite (Z.mul_le_mono_pos_r (d * pw (k + c)) _ (pw (- k))) by done.
  replace (2 ^ c * (d * pw k) * pw (- (k + c))) with (d * (2 ^ c * (pw k * pw (- (k + c))))) by ring.
  rewrite <- E. replace (d * (pw (k + c) * pw (- k))) with (d * pw (k + c) * pw (- k)) by ring.
  by replace (n * pw (- k) * pw (- (k + c))) with (n * pw (- (k + c)) * pw (- k)) by ring.
Qed.

(** ** Lemmas: rounding *)

Lemma round_half_even_near n d x : 0 < d -> 2 * Z.abs (n - x * d) < d -> round_half_even n d = x.
Proof.
  intros Hd Hx. unfold round_half_even. pose proof (Z.div_mod n d ltac:(lia)) as E.
  pose proof (Z.mod_pos_bound n d Hd) as Hr. set (q := n / d) in *. set (r := n mod d) in *.
  assert (x = q \/ x = q + 1) as [->| ->] by nia.
  - rewrite (proj2 (Z.ltb_lt _ _)) by nia. done.
  - rewrite (proj2 (Z.ltb_ge _ _)), (proj2 (Z.ltb_lt _ _)) by nia. done.
Qed.

Lemma ratio_log2_spec n d :
  0 < n -> 0 < d ->
  let l := ratio_log2 n d in d * pw l <= n * pw (- l) /\ n * pw (- (l + 1)) < d * pw (l + 1).
Proof.
  intros Hn Hd. unfold ratio_log2. set (l := Z.log2 n - Z.log2 d).
  pose proof (Z.log2_spec n Hn) as [Hn1 Hn2]. pose proof (Z.log2_spec d Hd) as [Hd1 Hd2].
  pose proof (Z.log2_nonneg n). pose proof (Z.log2_nonneg d).
  rewrite Z.pow_succ_r in Hn2, Hd2 by done.
  change (2 ^ Z.max l 0) with (pw l). change (2 ^ Z.max (- l) 0) with (pw (- l)).
  assert (2 ^ Z.log2 n * pw (- l) = 2 ^ Z.log2 d * pw l) as E.
  { unfold pw, l. rewrite <- !Z.pow_add_r by lia. f_equal. lia. }
  pose proof (pw_pos l). pose proof (pw_pos (- l)).
  assert (n * pw (- (l + 1)) < d * pw (l + 1)) as Hup.
  { apply Z.lt_nge. intros Hc. apply (scale_le n d l 1) in Hc; [|lia]. nia. }
  destruct (d * pw l <=? n * pw (- l)) eqn:Ec; zbool; [done|].
  replace (l - 1 + 1) with l by lia. split; [|done].
  pose proof (scale_le n d (l - 1) 1 ltac:(lia)) as Hs. replace (l - 1 + 1) with l in Hs by lia.
  apply Z.le_ngt. intros Hc.
  assert (2 ^ Z.log2 n * pw (- (l - 1)) = 2 ^ 1 * (2 ^ Z.log2 d * pw (l - 1))) as E'.
  { unfold pw, l. rewrite <- !Z.pow_add_r by lia. f_equal. lia. }
  change (2 ^ 1) with 2 in E'.
  pose proof (pw_pos (l - 1)). pose proof (pw_pos (- (l - 1))). nia.
Qed.

Lemma ratio_log2_unique n d l :
  0 < n -> 0 < d -> d * pw l <= n * pw (- l) -> n * pw (- (l + 1)) < d * pw (l + 1) -> ratio_log2 n d = l.
Proof.
  intros Hn Hd H1 H2. destruct (ratio_log2_spec n d Hn Hd) as [H3 H4]. set (l' := ratio_log2 n d) in *.
  assert (forall a b, a + 1 <= b -> d * pw b <= n * pw (- b) -> n * pw (- (a + 1)) < d * pw (a + 1) -> False) as Hc.
  { intros a b Hab Hb Ha. replace b with (a + 1 + (b - a - 1)) in Hb by lia.
    apply scale_le in Hb; [|lia]. pose proof (Z.pow_pos_nonneg 2 (b - a - 1) ltac:(lia) ltac:(lia)).
    pose proof (pw_pos (a + 1)). nia. }
  destruct (Z.lt_trichotomy l' l) as [Hl|[Hl|Hl]]; [exfalso; apply (Hc l' l); (done || lia)|done|].
  exfalso. apply (Hc l l'); (done || lia).
Qed.

(** A positive double in the form [round_ratio] gives it. *)
Definition is_double (q k : Z) : Prop :=
  0 < q < 2 ^ 53 /\ -1074 <= k <= 971 /\ (2 ^ 52 <= q \/ k = -1074).

(** Just below a power of two the quotient is rounded on the finer grid, up to
    the power. *)
Lemma round_below_power n d k :
  0 < n -> 0 < d -> 4 * Z.abs (n * pw (- k) - 2 ^ 52 * (d * pw k)) < d * pw k ->
  round_half_even (n * pw (- (k - 1))) (d * pw (k - 1)) = 2 ^ 53.
Proof.
  intros Hn Hd Hc. pose proof (pw_shift (k - 1) 1 ltac:(lia)) as Ep. replace (k - 1 + 1) with k in Ep by lia.
  change (2 ^ 1) with 2 in Ep. pose proof (pw_pos (k - 1)). pose proof (pw_pos (- (k - 1))).
  pose proof (pw_pos k). pose proof (pw_pos (- k)). apply round_half_even_near; [nia|].
  set (A := n * pw (- k)) in *. set (B := d * pw k) in *.
  assert (2 * (d * pw (k - 1)) * A = B * (n * pw (- (k - 1)))) as E1 by (unfold A, B; nia).
  set (A' := n * pw (- (k - 1))) in *. set (B' := d * pw (k - 1)) in *.
  assert (0 < B') by (unfold B'; nia). assert (0 < B) by (unfold B; nia).
  change (2 ^ 53) with 9007199254740992. change (2 ^ 52) with 4503599627370496 in Hc.
  assert (B * (A' - 9007199254740992 * B') = 2 * B' * (A - 4503599627370496 * B)) as E3 by lia.
  assert (B * Z.abs (A' - 9007199254740992 * B') = 2 * B' * Z.abs (A - 4503599627370496 * B)) as E4.
  { rewrite <- (Z.abs_eq B), <- Z.abs_mul, E3, !Z.abs_mul by lia. rewrite (Z.abs_eq B'); lia. }
  nia.
Qed.

(** A quotient that differs from a double by less than its 2^54th part is
    rounded to it. *)
Lemma round_close n d q k :
  0 < n -> 0 < d -> is_double q k ->
  2 ^ 54 * Z.abs (n * pw (- k) - q * (d * pw k)) < q * (d * pw k) -> round_ratio n d = Dyadic q k.
Proof.
  intros Hn Hd ([Hq1 Hq2] & [Hk1 Hk2] & Hq) Hc. unfold round_ratio. rewrite (proj2 (Z.eqb_neq n 0)) by lia.
  set (B := d * pw k) in *. set (A := n * pw (- k)) in *.
  assert (0 < B) as HB by (pose proof (pw_pos k); unfold B; nia).
  change (2 ^ 53) with 9007199254740992 in *. change (2 ^ 52) with 4503599627370496 in *.
  change (2 ^ 54) with 18014398509481984 in *.
  assert (A < 9007199254740992 * B) as Hup by nia.
  assert (n * pw (- (k + 53)) < d * pw (k + 53)) as Hup'.
  { apply Z.lt_nge. intros H. apply (scale_le n d k 53) in H; [|lia]. fold A B in H. lia. }
  assert (round_half_even A B = q) as Er by (apply round_half_even_near; [done|nia]).
  destruct (Z.le_gt_cases (4503599627370496 * B) A) as [Hlo|Hlo].
  - assert (ratio_log2 n d = k + 52) as ->.
    { apply ratio_log2_unique; [done..| |by replace (k + 52 + 1) with (k + 53) by lia].
      apply (scale_le n d k 52); [lia|exact Hlo]. }
    replace (Z.max (-1074) (k + 52 - 52)) with k by lia. fold (pw k) (pw (- k)). fold A B. rewrite Er.
    rewrite (proj2 (Z.ltb_ge 971 k)), (proj2 (Z.leb_gt _ q)) by lia. by rewrite andb_false_r.
  - destruct (ratio_log2_spec n d Hn Hd) as [Hl1 Hl2]. set (l := ratio_log2 n d) in *.
    assert (l < k + 52) as Hl.
    { apply Z.lt_nge. intros H. replace l with (k + 52 + (l - k - 52)) in Hl1 by lia.
      apply scale_le in Hl1; [|lia]. pose proof (scale_le n d k 52 ltac:(lia)) as Hs. fold A B in Hs.
      change (2 ^ 52) with 4503599627370496 in Hs.
      pose proof (Z.pow_pos_nonneg 2 (l - k - 52) ltac:(lia) ltac:(lia)). pose proof (pw_pos (k + 52)).
      assert (d * pw (k + 52) <= n * pw (- (k + 52))) as H3 by nia. apply Hs in H3. lia. }
    destruct (decide (k = -1074)) as [->|Hne].
    + replace (Z.max (-1074) (l - 52)) with (-1074) by lia. fold (pw (-1074)) (pw (- -1074)). fold A B. rewrite Er.
      rewrite (proj2 (Z.leb_gt _ q)) by lia. done.
    + assert (q = 4503599627370496) as -> by nia.
      assert (l = k + 51) as El.
      { assert (ratio_log2 n d = k + 51); [|done]. apply ratio_log2_unique; [done..| |].
        - apply (scale_le n d k 51); [lia|]. fold A B. change (2 ^ 51) with 2251799813685248. nia.
        - apply Z.lt_nge. intros H. replace (k + 51 + 1) with (k + 52) in H by lia.
          apply (scale_le n d k 52) in H; [|lia]. fold A B in H. change (2 ^ 52) with 4503599627370496 in H. lia. }
      rewrite El. replace (Z.max (-1074) (k + 51 - 52)) with (k - 1) by lia. fold (pw (k - 1)) (pw (- (k - 1))).
      rewrite (round_below_power n d k) by (done || (fold A B; lia)).
      rewrite (proj2 (Z.ltb_ge 971 (k - 1))), (proj2 (Z.eqb_neq (k - 1) 971)) by lia. cbn.
      by replace (k - 1 + 1) with k by lia.
Qed.

(** ** Lemmas: integers *)

Definition safe (z : Z) : Prop := Z.abs z < 2 ^ 53.

Lemma int_is_double z : 0 < z < 2 ^ 53 -> is_double (z * 2 ^ (52 - Z.log2 z)) (Z.log2 z - 52).
Proof.
  intros [Hz1 Hz2]. pose proof (Z.log2_spec z Hz1) as [H1 H2]. pose proof (Z.log2_nonneg z) as H3.
  assert (Z.log2 z <= 52) as H4 by (apply Z.lt_succ_r, Z.log2_lt_pow2; done).
  assert (2 ^ Z.log2 z * 2 ^ (52 - Z.log2 z) = 2 ^ 52) as E by (rewrite <- Z.pow_add_r by lia; f_equal; lia).
  assert (2 ^ Z.succ (Z.log2 z) * 2 ^ (52 - Z.log2 z) = 2 ^ 53) as E' by (rewrite <- Z.pow_add_r by lia; f_equal; lia).
  pose proof (Z.pow_pos_nonneg 2 (52 - Z.log2 z) ltac:(lia) ltac:(lia)).
  split; [nia|]. split; [lia|]. left. nia.
Qed.

Lemma round_int z c :
  0 < z < 2 ^ 53 -> 0 < c -> round_ratio (z * c) c = Dyadic (z * 2 ^ (52 - Z.log2 z)) (Z.log2 z - 52).
Proof.
  intros Hz Hc. assert (Z.log2 z <= 52) as H4 by (apply Z.lt_succ_r, Z.log2_lt_pow2; lia).
  apply round_close; [nia|done|by apply int_is_double|].
  unfold pw. rewrite (Z.max_l (- (Z.log2 z - 52))), (Z.max_r (Z.log2 z - 52)) by lia.
  replace (- (Z.log2 z - 52)) with (52 - Z.log2 z) by lia.
  pose proof (Z.pow_pos_nonneg 2 (52 - Z.log2 z) ltac:(lia) ltac:(lia)).
  replace (z * c * 2 ^ (52 - Z.log2 z) - z * 2 ^ (52 - Z.log2 z) * (c * 2 ^ 0)) with 0 by lia. nia.
Qed.

Lemma round_signed_int z c : safe z -> 0 < c -> round_signed (z * c) c = num z.
Proof.
  unfold safe. intros Hz Hc. unfold num, round_signed.
  destruct (Z.lt_trichotomy z 0) as [H|[->|H]]; [|done|].
  - rewrite !(proj2 (Z.ltb_lt _ _)) by nia. f_equal. replace (- (z * c)) with (- z * c) by lia.
    rewrite round_int by lia. rewrite <- (round_int (- z) 1) by lia. by rewrite Z.mul_1_r.
  - rewrite !(proj2 (Z.ltb_ge _ _)) by nia. rewrite round_int by lia. rewrite <- (round_int z 1) by lia.
    by rewrite Z.mul_1_r.
Qed.

(** How a safe integer is represented. *)
Lemma num_rep z : safe z -> exists e, e <= 0 /\ num z = Dyadic (z * 2 ^ (- e)) e.
Proof.
  unfold safe. intros Hz. destruct (Z.lt_trichotomy z 0) as [H|[->|H]].
  - exists (Z.log2 (- z) - 52). split; [apply Z.le_sub_0, Z.lt_succ_r, Z.log2_lt_pow2; lia|].
    unfold num, round_signed. rewrite (proj2 (Z.ltb_lt _ _)) by done.
    rewrite <- (Z.mul_1_r (- z)) at 1. rewrite round_int by lia. cbn [num_opp]. f_equal.
    replace (- (Z.log2 (- z) - 52)) with (52 - Z.log2 (- z)) by lia. lia.
  - by exists 0.
  - exists (Z.log2 z - 52). split; [apply Z.le_sub_0, Z.lt_succ_r, Z.log2_lt_pow2; lia|].
    unfold num, round_signed. rewrite (proj2 (Z.ltb_ge _ _)) by lia.
    rewrite <- (Z.mul_1_r z) at 1. rewrite round_int by lia. f_equal.
    by replace (- (Z.log2 z - 52)) with (52 - Z.log2 z) by lia.
Qed.

Lemma round_dyadic_int z e : safe z -> e <= 0 -> round_dyadic (z * 2 ^ (- e)) e = num z.
Proof.
  intros Hz He. unfold round_dyadic. rewrite (Z.max_r e), (Z.max_l (- e)), Z.mul_1_r by lia.
  apply round_signed_int; [done|]. apply Z.pow_pos_nonneg; lia.
Qed.

Lemma pow_split e e' : e' <= e -> e <= 0 -> 2 ^ (- e') = 2 ^ (- e) * 2 ^ (e - e').
Proof. intros. rewrite <- Z.pow_add_r by lia. f_equal. lia. Qed.

(** The two operands on a common scale. *)
Lemma common_scale a b e1 e2 :
  e1 <= 0 -> e2 <= 0 -> let e := Z.min e1 e2 in
  a * 2 ^ (- e1) * 2 ^ (e1 - e) = a * 2 ^ (- e) /\ b * 2 ^ (- e2) * 2 ^ (e2 - e) = b * 2 ^ (- e) /\ e <= 0.
Proof. intros H1 H2 e. rewrite (pow_split e1 e), (pow_split e2 e) at 1 by lia. split_and!; [lia..|lia]. Qed.

Lemma js_add_int a b : safe a -> safe b -> safe (a + b) -> js_add (num a) (num b) = num (a + b).
Proof.
  intros Ha Hb Hab. destruct (num_rep a Ha) as (e1 & H1 & ->), (num_rep b Hb) as (e2 & H2 & ->). cbn [js_add].
  destruct (common_scale a b e1 e2 H1 H2) as (-> & -> & He).
  rewrite <- Z.mul_add_distr_r. by apply round_dyadic_int.
Qed.

Lemma num_opp_int a : safe a -> num_opp (num a) = num (- a).
Proof.
  intros Ha. unfold num, round_signed. destruct (Z.lt_trichotomy a 0) as [H|[->|H]]; [|done|].
  - rewrite (proj2 (Z.ltb_lt a 0)), (proj2 (Z.ltb_ge (- a) 0)) by lia.
    destruct (round_ratio (- a) 1) as [|n|m e]; cbn; [done|by destruct n|by rewrite Z.opp_involutive].
  - rewrite (proj2 (Z.ltb_ge a 0)), (proj2 (Z.ltb_lt (- a) 0)) by lia. by rewrite Z.opp_involutive.
Qed.

Lemma js_sub_int a b : safe a -> safe b -> safe (a - b) -> js_sub (num a) (num b) = num (a - b).
Proof.
  intros Ha Hb Hab. unfold js_sub. rewrite num_opp_int by done. rewrite js_add_int; [done..| |done].
  unfold safe in *. lia.
Qed.

Lemma js_mul_int a b : safe a -> safe b -> safe (a * b) -> js_mul (num a) (num b) = num (a * b).
Proof.
  intros Ha Hb Hab. destruct (num_rep a Ha) as (e1 & H1 & ->), (num_rep b Hb) as (e2 & H2 & ->). cbn [js_mul].
  replace (a * 2 ^ (- e1) * (b * 2 ^ (- e2))) with (a * b * 2 ^ (- (e1 + e2))); [apply round_dyadic_int; [done|lia]|].
  replace (- (e1 + e2)) with (- e1 + - e2) by lia. rewrite Z.pow_add_r by lia. lia.
Qed.

Lemma js_ltb_int a b : safe a -> safe b -> js_ltb (num a) (num b) = (a <? b).
Proof.
  intros Ha Hb. destruct (num_rep a Ha) as (e1 & H1 & ->), (num_rep b Hb) as (e2 & H2 & ->). cbn [js_ltb].
  destruct (common_scale a b e1 e2 H1 H2) as (-> & -> & He).
  pose proof (Z.pow_pos_nonneg 2 (- Z.min e1 e2) ltac:(lia) ltac:(lia)).
  destruct (a <? b) eqn:E; zbool; [apply Z.ltb_lt|apply Z.ltb_ge]; nia.
Qed.

Lemma js_leb_int a b : safe a -> safe b -> js_leb (num a) (num b) = (a <=? b).
Proof.
  intros Ha Hb. rewrite Z.leb_antisym, <- js_ltb_int by done. unfold js_leb.
  destruct (num_rep a Ha) as (e1 & _ & ->), (num_rep b Hb) as (e2 & _ & ->). done.
Qed.

Lemma dyadic_trunc_nonneg m e : 0 <= m -> 0 <= dyadic_trunc m e.
Proof.
  intros Hm. unfold dyadic_trunc. destruct (0 <=? e) eqn:E; zbool; [pose proof (Z.pow_nonneg 2 e); nia|].
  apply Z.quot_pos; [done|]. apply Z.pow_pos_nonneg; lia.
Qed.

Lemma dyadic_trunc_opp m e : dyadic_trunc (- m) e = - dyadic_trunc m e.
Proof.
  unfold dyadic_trunc. destruct (0 <=? e) eqn:E; zbool; [lia|]. apply Z.quot_opp_l.
  pose proof (Z.pow_pos_nonneg 2 (- e)). lia.
Qed.

Lemma dyadic_trunc_nonpos m e : m <= 0 -> dyadic_trunc m e <= 0.
Proof. intros Hm. pose proof (dyadic_trunc_nonneg (- m) e ltac:(lia)) as H. rewrite dyadic_trunc_opp in H. lia. Qed.

Lemma to_int_int z : safe z -> to_int (num z) = z.
Proof.
  intros Hz. destruct (num_rep z Hz) as (e & He & ->). cbn [to_int]. unfold dyadic_trunc.
  destruct (0 <=? e) eqn:E; zbool; [by assert (e = 0) as -> by lia; rewrite !Z.mul_1_r|].
  apply Z.quot_mul. pose proof (Z.pow_pos_nonneg 2 (- e)). lia.
Qed.

Lemma dyadic_ceil_int z e : e <= 0 -> dyadic_ceil (z * 2 ^ (- e)) e = z.
Proof.
  intros He. unfold dyadic_ceil. destruct (0 <=? e) eqn:E; zbool; [by assert (e = 0) as -> by lia; rewrite !Z.mul_1_r|].
  pose proof (Z.pow_pos_nonneg 2 (- e) ltac:(lia) ltac:(lia)).
  rewrite <- Z.mul_opp_l, Z.div_mul by lia. lia.
Qed.

Lemma loop_count_int z : safe z -> loop_count (num z) = Some (Z.to_nat z).
Proof.
  intros Hz. destruct (num_rep z Hz) as (e & He & ->). cbn [loop_count]. rewrite dyadic_ceil_int by done.
  rewrite (proj2 (Z.ltb_ge _ _)); [done|]. unfold safe in Hz. lia.
Qed.

Lemma slice_num_int {A} (l : list A) z : safe z -> 0 <= z -> slice_num l (num z) = take (Z.to_nat z) l.
Proof.
  intros Hz Hp. pose proof (to_int_int z Hz) as E. destruct (num_rep z Hz) as (e & _ & Er). rewrite Er in *.
  cbn [to_int slice_num] in *. rewrite E. by rewrite (proj2 (Z.ltb_ge z 0)).
Qed.

(** ** Lemmas: rounding is monotone *)

Lemma round_half_even_le n d x : 0 < d -> n <= x * d -> round_half_even n d <= x.
Proof.
  intros Hd Hx. unfold round_half_even. pose proof (Z.div_mod n d ltac:(lia)) as E.
  pose proof (Z.mod_pos_bound n d Hd) as Hr. set (q := n / d) in *. set (r := n mod d) in *.
  destruct (2 * r <? d) eqn:E1; zbool; [nia|]. assert (q < x) by nia. repeat case_match; lia.
Qed.

Lemma round_half_even_nonneg n d : 0 < d -> 0 <= n -> 0 <= round_half_even n d.
Proof.
  intros Hd Hn. unfold round_half_even. pose proof (Z.div_pos n d Hn Hd). repeat case_match; lia.
Qed.

Lemma round_ratio_sign n d :
  0 <= n -> 0 < d -> round_ratio n d = Infty false \/ exists m e, 0 <= m /\ round_ratio n d = Dyadic m e.
Proof.
  intros Hn Hd. unfold round_ratio. destruct (n =? 0) eqn:E; zbool; [right; by exists 0, 0|].
  destruct (_ || _); [by left|]. right. destruct (_ <=? _); [by exists (2 ^ 52); eexists|]. eexists _, _. split; [|done].
  apply round_half_even_nonneg; [pose proof (pw_pos (Z.max (-1074) (ratio_log2 n d - 52)))
    |pose proof (pw_pos (- Z.max (-1074) (ratio_log2 n d - 52)))]; unfold pw in *; nia.
Qed.

(** A quotient that is not above a double is not rounded above it. *)
Lemma round_ratio_le n d q k :
  0 <= n -> 0 < d -> is_double q k -> n * pw (- k) <= q * (d * pw k) ->
  js_ltb (Dyadic q k) (round_ratio n d) = false.
Proof.
  intros Hn Hd ([Hq1 Hq2] & [Hk1 Hk2] & _) Hc. unfold round_ratio. destruct (n =? 0) eqn:E0; zbool.
  { cbn [js_ltb]. apply Z.ltb_ge. pose proof (Z.pow_nonneg 2 (k - Z.min k 0)). nia. }
  destruct (ratio_log2_spec n d ltac:(lia) Hd) as [Hl _]. set (l := ratio_log2 n d) in *.
  change (2 ^ 53) with 9007199254740992 in *.
  assert (l <= k + 52) as Hlk.
  { apply Z.le_ngt. intros H. replace l with (k + 53 + (l - k - 53)) in Hl by lia.
    apply scale_le in Hl; [|lia]. pose proof (Z.pow_pos_nonneg 2 (l - k - 53) ltac:(lia) ltac:(lia)).
    pose proof (pw_pos (k + 53)). pose proof (pw_pos k).
    assert (2 ^ 53 * (d * pw k) <= n * pw (- k)) as H3 by (apply scale_le; [lia|nia]).
    change (2 ^ 53) with 9007199254740992 in H3. nia. }
  set (kk := Z.max (-1074) (l - 52)). assert (kk <= k) as Hkk by lia.
  fold (pw kk) (pw (- kk)). set (q' := round_half_even _ _).
  pose proof (Z.pow_pos_nonneg 2 (k - kk) ltac:(lia) ltac:(lia)) as Hp.
  assert (q' <= q * 2 ^ (k - kk)) as Hq'.
  { pose proof (pw_pos kk). pose proof (pw_pos (- kk)). pose proof (pw_pos k). pose proof (pw_pos (- k)).
    apply round_half_even_le; [nia|]. pose proof (pw_shift kk (k - kk) ltac:(lia)) as Es.
    replace (kk + (k - kk)) with k in Es by lia.
    apply (Z.mul_le_mono_pos_r _ _ (pw (- k))); [done|].
    replace (q * 2 ^ (k - kk) * (d * pw kk) * pw (- k)) with (q * d * (2 ^ (k - kk) * (pw kk * pw (- k)))) by ring.
    rewrite <- Es. nia. }
  assert (kk = k -> q' < 9007199254740992) as Heq.
  { intros ->. rewrite Z.sub_diag in Hq'. lia. }
  destruct ((971 <? kk) || _) eqn:Eo.
  { apply orb_true_iff in Eo as [H|[H1 H2]%andb_true_iff]; zbool; lia. }
  destruct (_ <=? q') eqn:Eq; cbn [js_ltb]; apply Z.ltb_ge; zbool.
  - replace (k - kk) with (Z.succ (k - (kk + 1))) in Hq' by lia. rewrite Z.pow_succ_r in Hq' by lia.
    rewrite (Z.min_r k), Z.sub_diag by lia. lia.
  - rewrite (Z.min_r k), Z.sub_diag by lia. lia.
Qed.

Lemma round_signed_le n d q k :
  0 < d -> is_double q k -> n * pw (- k) <= q * (d * pw k) -> js_ltb (Dyadic q k) (round_signed n d) = false.
Proof.
  intros Hd Hq Hc. unfold round_signed. destruct (n <? 0) eqn:E; zbool; [|by apply round_ratio_le].
  destruct (round_ratio_sign (- n) d) as [->|(m & e & Hm & ->)]; [lia|done|done|].
  cbn. apply Z.ltb_ge. destruct Hq as [[Hq _] _].
  pose proof (Z.pow_nonneg 2 (k - Z.min k e)). pose proof (Z.pow_nonneg 2 (e - Z.min k e)). nia.
Qed.

(** Nonnegative or NaN. *)
Definition not_negative (x : jsnum) : Prop := js_ltb x (num 0) = false.

Lemma not_negative_dyadic m e : not_negative (Dyadic m e) <-> 0 <= m.
Proof.
  unfold not_negative. cbn [num js_ltb]. change (num 0) with (Dyadic 0 0). cbn [js_ltb]. rewrite Z.ltb_ge.
  pose proof (Z.pow_pos_nonneg 2 (e - Z.min e 0) ltac:(lia) ltac:(lia)). nia.
Qed.

Lemma round_signed_not_negative n d : 0 <= n -> 0 < d -> not_negative (round_signed n d).
Proof.
  intros Hn Hd. unfold round_signed. rewrite (proj2 (Z.ltb_ge n 0)) by done.
  destruct (round_ratio_sign n d Hn Hd) as [->|(m & e & Hm & ->)]; [done|by apply not_negative_dyadic].
Qed.

Lemma js_mul_not_negative x b : 0 <= b -> not_negative x -> not_negative (js_mul x (num b)).
Proof.
  intros Hb Hx. unfold num, round_signed. rewrite (proj2 (Z.ltb_ge b 0)) by done.
  destruct (round_ratio_sign b 1 Hb) as [->|(m & e & Hm & ->)]; [done|..];
    destruct x as [|[]|m1 e1]; try done; cbn [js_mul].
  - apply not_negative_dyadic in Hx. destruct (m1 =? 0); [done|]. by rewrite (proj2 (Z.ltb_ge m1 0)).
  - destruct (m =? 0); [done|]. by rewrite (proj2 (Z.ltb_ge m 0)).
  - apply not_negative_dyadic in Hx. apply round_signed_not_negative.
    + pose proof (Z.pow_nonneg 2 (Z.max (e1 + e) 0)). nia.
    + apply pw_pos.
Qed.

(** Subtracting what is not negative does not increase a number. *)
Lemma js_sub_le a y : 0 <= a -> safe a -> not_negative y -> js_ltb (num a) (js_sub (num a) y) = false.
Proof.
  intros Ha Hs Hy. unfold safe in Hs. destruct (decide (a = 0)) as [->|Hne].
  - change (num 0) with (Dyadic 0 0). destruct y as [|[]|m e]; try done.
    apply not_negative_dyadic in Hy. unfold js_sub. cbn [num_opp js_add].
    replace (0 * _ + - m * _) with (- (m * 2 ^ (e - Z.min 0 e))) by lia.
    pose proof (Z.pow_nonneg 2 (e - Z.min 0 e)). generalize (Z.min 0 e). intros e0.
    unfold round_dyadic, round_signed. destruct (_ <? 0) eqn:E; zbool.
    + set (n := - (- _ * _)). assert (0 <= n) as Hn by (unfold n; lia).
      destruct (round_ratio_sign n (2 ^ Z.max (- e0) 0) Hn (pw_pos _)) as [->|(m' & e' & Hm & ->)]; [done|].
      cbn. apply Z.ltb_ge. pose proof (Z.pow_nonneg 2 (e' - Z.min 0 e')). nia.
    + pose proof (Z.pow_nonneg 2 (Z.max e0 0)). replace (- _ * _) with 0 by nia. done.
  - assert (0 < a < 2 ^ 53) as Ha' by lia. pose proof (int_is_double a Ha') as Hd.
    assert (num a = Dyadic (a * 2 ^ (52 - Z.log2 a)) (Z.log2 a - 52)) as ->.
    { unfold num, round_signed. rewrite (proj2 (Z.ltb_ge a 0)) by lia. rewrite <- (Z.mul_1_r a) at 1.
      by apply round_int. }
    revert Hd. generalize (a * 2 ^ (52 - Z.log2 a)) (Z.log2 a - 52). intros q k Hd.
    destruct y as [|[]|m e]; try done. apply not_negative_dyadic in Hy. unfold js_sub. cbn [num_opp js_add].
    set (e0 := Z.min k e). unfold round_dyadic. apply round_signed_le; [apply pw_pos|done|].
    fold (pw e0) (pw (- e0)). pose proof (pw_shift e0 (k - e0) ltac:(lia)) as Es.
    replace (e0 + (k - e0)) with k in Es by lia.
    replace (q * (pw (- e0) * pw k)) with (q * (2 ^ (k - e0) * (pw e0 * pw (- k)))) by (rewrite <- Es; ring).
    pose proof (Z.pow_nonneg 2 (e - e0)). pose proof (pw_pos e0). pose proof (pw_pos (- k)).
    replace (q * (2 ^ (k - e0) * (pw e0 * pw (- k)))) with (q * 2 ^ (k - e0) * (pw e0 * pw (- k))) by ring.
    rewrite <- Z.mul_assoc. apply Z.mul_le_mono_nonneg_r; nia.
Qed.

Lemma js_max_int a b : safe a -> safe b -> js_max (num a) (num b) = num (Z.max a b).
Proof.
  intros Ha Hb. pose proof (js_ltb_int a b Ha Hb) as E. unfold js_max.
  destruct (num_rep a Ha) as (e1 & _ & E1), (num_rep b Hb) as (e2 & _ & E2).
  rewrite E1, E2 in *. rewrite E. destruct (a <? b) eqn:El; zbool; [rewrite Z.max_r, E2|rewrite Z.max_l, E1]; (done || lia).
Qed.

(** A slice is a prefix. *)
Lemma slice_num_take {A} (l : list A) x : slice_num l x = take (length (slice_num l x)) l.
Proof.
  unfold slice_num. destruct x as [|[]|m e]; [done|done|by rewrite firstn_all|].
  cbv zeta. rewrite length_take. generalize (Z.to_nat (if dyadic_trunc m e <? 0 then len l + dyadic_trunc m e else dyadic_trunc m e)).
  intros n. destruct (Nat.le_ge_cases n (length l)); [by rewrite Nat.min_l|].
  rewrite Nat.min_r by done. by rewrite !take_ge.
Qed.

Lemma slice_num_elem {A} (l : list A) x y : y ∈ slice_num l x -> y ∈ l.
Proof. rewrite slice_num_take. rewrite <- (take_drop (length (slice_num l x)) l) at 3. set_solver. Qed.

(** ** Lemmas: the order *)

(** Any common scale will do. *)
Lemma js_ltb_scale m1 e1 m2 e2 e :
  e <= e1 -> e <= e2 -> js_ltb (Dyadic m1 e1) (Dyadic m2 e2) = (m1 * 2 ^ (e1 - e) <? m2 * 2 ^ (e2 - e)).
Proof.
  intros H1 H2. cbn [js_ltb]. set (e0 := Z.min e1 e2).
  assert (2 ^ (e1 - e) = 2 ^ (e1 - e0) * 2 ^ (e0 - e)) as -> by (rewrite <- Z.pow_add_r by lia; f_equal; lia).
  assert (2 ^ (e2 - e) = 2 ^ (e2 - e0) * 2 ^ (e0 - e)) as -> by (rewrite <- Z.pow_add_r by lia; f_equal; lia).
  pose proof (Z.pow_pos_nonneg 2 (e0 - e) ltac:(lia) ltac:(lia)).
  destruct (_ <? m2 * 2 ^ (e2 - e0)) eqn:E; zbool; symmetry; [apply Z.ltb_lt|apply Z.ltb_ge]; nia.
Qed.

Lemma js_leb_not_lt x y : js_leb x y = true -> js_ltb y x = false.
Proof. destruct x, y; cbn [js_leb]; (done || apply negb_true_iff). Qed.

(** The three numbers on one scale. *)
Ltac scales :=
  repeat match goal with
  | H : js_leb (Dyadic ?m1 ?e1) (Dyadic ?m2 ?e2) = true |- _ => apply js_leb_not_lt in H
  | |- js_leb (Dyadic ?m1 ?e1) (Dyadic ?m2 ?e2) = true => apply negb_true_iff
  end.

Lemma js_ltb_nan x : js_ltb x NaN = false.
Proof. by destruct x as [|[]|]. Qed.

Lemma js_sub_nan x y : js_sub x (js_mul NaN y) = NaN.
Proof. by destruct x. Qed.

Lemma js_leb_ltb_trans x y z : js_leb x y = true -> js_ltb y z = true -> js_ltb x z = true.
Proof.
  destruct x as [|[]|m1 e1], y as [|[]|m2 e2], z as [|[]|m3 e3]; try done. intros H1 H2. scales.
  set (e := Z.min e1 (Z.min e2 e3)). rewrite (js_ltb_scale _ _ _ _ e) in H1 by lia.
  rewrite (js_ltb_scale _ _ _ _ e) in H2 by lia. rewrite (js_ltb_scale _ _ _ _ e) by lia. zbool. apply Z.ltb_lt. lia.
Qed.

Lemma js_ltb_leb_trans x y z : js_ltb x y = true -> js_leb y z = true -> js_ltb x z = true.
Proof.
  destruct x as [|[]|m1 e1], y as [|[]|m2 e2], z as [|[]|m3 e3]; try done. intros H1 H2. scales.
  set (e := Z.min e1 (Z.min e2 e3)). rewrite (js_ltb_scale _ _ _ _ e) in H1 by lia.
  rewrite (js_ltb_scale _ _ _ _ e) in H2 by lia. rewrite (js_ltb_scale _ _ _ _ e) by lia. zbool. apply Z.ltb_lt. lia.
Qed.

Lemma js_leb_trans x y z : js_leb x y = true -> js_leb y z = true -> js_leb x z = true.
Proof.
  destruct x as [|[]|m1 e1], y as [|[]|m2 e2], z as [|[]|m3 e3]; try done. intros H1 H2. scales.
  set (e := Z.min e1 (Z.min e2 e3)). rewrite (js_ltb_scale _ _ _ _ e) in H1 by lia.
  rewrite (js_ltb_scale _ _ _ _ e) in H2 by lia. rewrite (js_ltb_scale _ _ _ _ e) by lia. zbool. apply Z.ltb_ge. lia.
Qed.

Lemma js_leb_opp x y : js_leb x y = true -> js_leb (num_opp y) (num_opp x) = true.
Proof.
  destruct x as [|[]|m1 e1], y as [|[]|m2 e2]; try done. cbn [num_opp]. intros H. scales.
  rewrite (js_ltb_scale _ _ _ _ (Z.min e1 e2)) in H by lia.
  rewrite (js_ltb_scale _ _ _ _ (Z.min e1 e2)) by lia. zbool. apply Z.ltb_ge. lia.
Qed.

(** The grid a quotient is rounded on, and its multiple. *)
Definition grid (n d : Z) : Z := Z.max (-1074) (ratio_log2 n d - 52).
Definition mantissa (n d : Z) : Z := round_half_even (n * pw (- grid n d)) (d * pw (grid n d)).

Definition pack (q k : Z) : jsnum :=
  if (971 <? k) || ((k =? 971) && (2 ^ 53 <=? q)) then Infty false
  else if 2 ^ 53 <=? q then Dyadic (2 ^ 52) (k + 1) else Dyadic q k.

Lemma pack_mono q1 k1 q2 k2 :
  q1 <= 2 ^ 53 -> q2 <= 2 ^ 53 -> k1 <= k2 -> q1 <= q2 * 2 ^ (k2 - k1) ->
  js_leb (pack q1 k1) (pack q2 k2) = true.
Proof.
  intros H1 H2 Hk Hq. unfold pack. change (2 ^ 53) with 9007199254740992 in *.
  change (2 ^ 52) with 4503599627370496.
  destruct ((971 <? k2) || _) eqn:E2; [by repeat case_match|].
  apply orb_false_iff in E2 as [E2 E2']. zbool.
  destruct ((971 <? k1) || _) eqn:E1.
  { exfalso. apply orb_true_iff in E1 as [E1|[E1 E1']%andb_true_iff]; zbool; [lia|].
    assert (k2 = k1) as -> by lia. rewrite Z.sub_diag, Z.mul_1_r in Hq. rewrite E1 in E2'.
    apply andb_false_iff in E2' as [E2'|E2']; zbool; lia. }
  pose proof (Z.pow_pos_nonneg 2 (k2 - k1) ltac:(lia) ltac:(lia)).
  assert (2 ^ (k1 + 1 - k1) = 2) as P1 by (by replace (k1 + 1 - k1) with 1 by lia).
  assert (2 ^ (k2 + 1 - k1) = 2 * 2 ^ (k2 - k1)) as P2.
  { replace (k2 + 1 - k1) with (Z.succ (k2 - k1)) by lia. apply Z.pow_succ_r. lia. }
  destruct (9007199254740992 <=? q1) eqn:F1, (9007199254740992 <=? q2) eqn:F2; zbool; apply negb_true_iff;
    rewrite (js_ltb_scale _ _ _ _ k1) by lia; apply Z.ltb_ge; rewrite ?P1, ?P2, ?Z.sub_diag, ?Z.pow_0_r; nia.
Qed.

Lemma round_ratio_pack n d : n <> 0 -> round_ratio n d = pack (mantissa n d) (grid n d).
Proof. intros Hn. unfold round_ratio. by rewrite (proj2 (Z.eqb_neq n 0)). Qed.

Lemma round_half_even_ge n d x : 0 < d -> x * d <= n -> x <= round_half_even n d.
Proof.
  intros Hd Hx. unfold round_half_even. pose proof (Z.div_le_lower_bound n d x ltac:(lia) ltac:(lia)).
  repeat case_match; lia.
Qed.

Lemma round_half_even_mono n1 n2 d : 0 < d -> n1 <= n2 -> round_half_even n1 d <= round_half_even n2 d.
Proof.
  intros Hd Hn. unfold round_half_even.
  pose proof (Z.div_mod n1 d ltac:(lia)) as E1. pose proof (Z.mod_pos_bound n1 d Hd) as R1.
  pose proof (Z.div_mod n2 d ltac:(lia)) as E2. pose proof (Z.mod_pos_bound n2 d Hd) as R2.
  set (q1 := n1 / d) in *. set (r1 := n1 mod d) in *. set (q2 := n2 / d) in *. set (r2 := n2 mod d) in *.
  assert (q1 < q2 \/ (q1 = q2 /\ r1 <= r2)) as [H|[-> H]] by nia.
  - repeat case_match; lia.
  - destruct (2 * r1 <? d) eqn:A1, (2 * r2 <? d) eqn:A2, (d <? 2 * r1) eqn:B1, (d <? 2 * r2) eqn:B2, (Z.even q2);
      zbool; lia.
Qed.

Lemma ratio_log2_mono n1 n2 d : 0 < n1 <= n2 -> 0 < d -> ratio_log2 n1 d <= ratio_log2 n2 d.
Proof.
  intros Hn Hd. destruct (ratio_log2_spec n1 d ltac:(lia) Hd) as [A1 _], (ratio_log2_spec n2 d ltac:(lia) Hd) as [_ B2].
  set (l1 := ratio_log2 n1 d) in *. set (l2 := ratio_log2 n2 d) in *. apply Z.le_ngt. intros H.
  replace l1 with (l2 + 1 + (l1 - l2 - 1)) in A1 by lia. apply scale_le in A1; [|lia].
  pose proof (Z.pow_pos_nonneg 2 (l1 - l2 - 1) ltac:(lia) ltac:(lia)).
  pose proof (pw_pos (l2 + 1)). pose proof (pw_pos (- (l2 + 1))). nia.
Qed.

(** [n / d < 2^(k + c)] on the grid [2^k]. *)
Lemma mantissa_le n d c :
  0 < n -> 0 < d -> 0 <= c -> ratio_log2 n d < grid n d + c -> mantissa n d <= 2 ^ c.
Proof.
  intros Hn Hd Hc Hl. unfold mantissa. set (k := grid n d) in *. pose proof (pw_pos k).
  apply round_half_even_le; [nia|]. apply Z.lt_le_incl, Z.lt_nge. intros H1.
  apply scale_le in H1; [|done]. destruct (ratio_log2_spec n d Hn Hd) as [_ H2].
  set (l := ratio_log2 n d) in *. replace (k + c) with (l + 1 + (k + c - l - 1)) in H1 by lia.
  apply scale_le in H1; [|lia]. pose proof (Z.pow_pos_nonneg 2 (k + c - l - 1) ltac:(lia) ltac:(lia)).
  pose proof (pw_pos (l + 1)). nia.
Qed.

Lemma mantissa_ge n d : 0 < n -> 0 < d -> -1074 < grid n d -> 2 ^ 52 <= mantissa n d.
Proof.
  intros Hn Hd Hk. unfold mantissa. assert (ratio_log2 n d = grid n d + 52) as El by (unfold grid in *; lia).
  set (k := grid n d) in *. pose proof (pw_pos k). apply round_half_even_ge; [nia|].
  apply scale_le; [lia|]. rewrite <- El. apply ratio_log2_spec; done.
Qed.

Lemma round_ratio_mono n1 n2 d :
  0 <= n1 <= n2 -> 0 < d -> js_leb (round_ratio n1 d) (round_ratio n2 d) = true.
Proof.
  intros Hn Hd. destruct (decide (n1 = 0)) as [->|H1].
  { change (round_ratio 0 d) with (Dyadic 0 0). destruct (round_ratio_sign n2 d ltac:(lia) Hd) as [->|(m & e & Hm & ->)]; [done|].
    apply negb_true_iff, not_negative_dyadic, Hm. }
  rewrite !round_ratio_pack by lia. pose proof (ratio_log2_mono n1 n2 d ltac:(lia) Hd) as Hl.
  assert (grid n1 d <= grid n2 d) as Hk by (unfold grid; lia).
  apply pack_mono; [apply mantissa_le; unfold grid; lia|apply mantissa_le; unfold grid; lia|done|].
  destruct (decide (grid n1 d = grid n2 d)) as [E|E].
  - rewrite <- E, Z.sub_diag, Z.mul_1_r. unfold mantissa. rewrite <- E.
    pose proof (pw_pos (grid n1 d)). pose proof (pw_pos (- grid n1 d)). apply round_half_even_mono; nia.
  - pose proof (mantissa_ge n2 d ltac:(lia) Hd ltac:(unfold grid in *; lia)) as H2.
    transitivity (2 ^ (grid n2 d - grid n1 d + 52)).
    + apply mantissa_le; [lia..|]. unfold grid in *. lia.
    + rewrite Z.pow_add_r by lia. pose proof (Z.pow_pos_nonneg 2 (grid n2 d - grid n1 d) ltac:(lia) ltac:(lia)). nia.
Qed.

Lemma round_signed_mono n1 n2 d : n1 <= n2 -> 0 < d -> js_leb (round_signed n1 d) (round_signed n2 d) = true.
Proof.
  intros Hn Hd. unfold round_signed. destruct (n1 <? 0) eqn:E1, (n2 <? 0) eqn:E2; zbool.
  - apply js_leb_opp, round_ratio_mono; lia.
  - apply (js_leb_trans _ (num_opp (round_ratio 0 d))); [apply js_leb_opp, round_ratio_mono; lia|].
    change (num_opp (round_ratio 0 d)) with (round_ratio 0 d). apply round_ratio_mono; lia.
  - lia.
  - apply round_ratio_mono; lia.
Qed.

Lemma num_mono a b : a <= b -> js_leb (num a) (num b) = true.
Proof. intros. by apply round_signed_mono. Qed.

(** Comparison of any integer with a safe one. *)
Lemma js_ltb_num a c : Z.abs c < 2 ^ 53 - 1 -> js_ltb (num a) (num c) = (a <? c).
Proof.
  intros Hc. destruct (a <? c) eqn:E; zbool.
  - apply (js_leb_ltb_trans _ (num (c - 1))); [apply num_mono; lia|].
    rewrite js_ltb_int by (unfold safe; lia). apply Z.ltb_lt. lia.
  - by apply js_leb_not_lt, num_mono.
Qed.

(** ** Lemmas: the ceiling of a quotient *)

(** A fraction with a power of two below it is a double. *)
Lemma round_frac a s c :
  0 < a < 2 ^ 53 -> 0 <= s <= 1000 -> 0 < c ->
  round_ratio (a * c) (2 ^ s * c) = Dyadic (a * 2 ^ (52 - Z.log2 a)) (Z.log2 a - 52 - s).
Proof.
  intros Ha Hs Hc. assert (Z.log2 a <= 52) as H4 by (apply Z.lt_succ_r, Z.log2_lt_pow2; lia).
  pose proof (Z.log2_nonneg a). pose proof (Z.pow_pos_nonneg 2 s ltac:(lia) ltac:(lia)).
  destruct (int_is_double a Ha) as (H1 & _ & [H2|H2]); [|lia].
  apply round_close; [nia|nia|split; [done|]; split; [lia|by left]|].
  unfold pw. rewrite (Z.max_l (- (Z.log2 a - 52 - s))), (Z.max_r (Z.log2 a - 52 - s)) by lia.
  replace (- (Z.log2 a - 52 - s)) with (52 - Z.log2 a + s) by lia. rewrite Z.pow_add_r by lia.
  replace (a * c * (2 ^ (52 - Z.log2 a) * 2 ^ s) - a * 2 ^ (52 - Z.log2 a) * (2 ^ s * c * 2 ^ 0)) with 0 by lia. nia.
Qed.

Lemma ratio_log2_scale n d c : 0 < n -> 0 < d -> 0 < c -> ratio_log2 (n * c) (d * c) = ratio_log2 n d.
Proof.
  intros Hn Hd Hc. destruct (ratio_log2_spec n d Hn Hd) as [H1 H2]. apply ratio_log2_unique; nia.
Qed.

Lemma round_ratio_scale n d c : 0 <= n -> 0 < d -> 0 < c -> round_ratio (n * c) (d * c) = round_ratio n d.
Proof.
  intros Hn Hd Hc. destruct (decide (n = 0)) as [->|Hne]; [done|]. rewrite !round_ratio_pack by nia.
  assert (grid (n * c) (d * c) = grid n d) as E by (unfold grid; by rewrite ratio_log2_scale by lia).
  rewrite E. f_equal. unfold mantissa. rewrite E. set (k := grid n d). pose proof (pw_pos k).
  replace (n * c * pw (- k)) with (n * pw (- k) * c) by lia. replace (d * c * pw k) with (d * pw k * c) by lia.
  unfold round_half_even. rewrite Z.div_mul_cancel_r, Z.mul_mod_distr_r by nia.
  set (r := (n * pw (- k)) mod (d * pw k)). set (D := d * pw k).
  assert ((2 * (r * c) <? D * c) = (2 * r <? D)) as ->
    by (destruct (2 * r <? D) eqn:F; zbool; [apply Z.ltb_lt|apply Z.ltb_ge]; nia).
  assert ((D * c <? 2 * (r * c)) = (D <? 2 * r)) as ->
    by (destruct (D <? 2 * r) eqn:F; zbool; [apply Z.ltb_lt|apply Z.ltb_ge]; nia). done.
Qed.

Lemma dyadic_ceil_unique q k m :
  safe m -> safe (m - 1) -> js_leb (Dyadic q k) (num m) = true -> js_ltb (num (m - 1)) (Dyadic q k) = true ->
  dyadic_ceil q k = m.
Proof.
  intros Hm Hm' H1 H2. destruct (num_rep m Hm) as (e1 & He1 & E1), (num_rep (m - 1) Hm') as (e2 & He2 & E2).
  rewrite E1 in H1. rewrite E2 in H2. apply js_leb_not_lt in H1. set (e := Z.min (Z.min e1 e2) k).
  rewrite (js_ltb_scale _ _ _ _ e) in H1 by lia. rewrite (js_ltb_scale _ _ _ _ e) in H2 by lia. zbool.
  assert (forall x e', e' <= 0 -> e <= e' -> x * 2 ^ (- e') * 2 ^ (e' - e) = x * 2 ^ (- e)) as Hx.
  { intros x e' ? ?. rewrite <- Z.mul_assoc, <- Z.pow_add_r by lia. do 2 f_equal. lia. }
  rewrite Hx in H1 by lia. rewrite Hx in H2 by lia. unfold dyadic_ceil.
  pose proof (Z.pow_pos_nonneg 2 (- e) ltac:(lia) ltac:(lia)). destruct (0 <=? k) eqn:Ek; zbool.
  - replace (k - e) with (k + - e) in * by lia. rewrite Z.pow_add_r in * by lia. nia.
  - replace (- e) with (- k + (k - e)) in * by lia. rewrite Z.pow_add_r in * by lia.
    pose proof (Z.pow_pos_nonneg 2 (k - e) ltac:(lia) ltac:(lia)). pose proof (Z.pow_pos_nonneg 2 (- k) ltac:(lia) ltac:(lia)).
    assert (- q / 2 ^ (- k) = - m); [|lia]. symmetry. apply (Z.div_unique _ _ _ (m * 2 ^ (- k) - q)); nia.
Qed.

(** The division of a positive integer below 2^53, of which the ceiling is
    taken, is not affected by the rounding. *)
Lemma ceil_div d y m :
  0 < d < 2 ^ 53 -> 0 < y <= 2 ^ 16 -> 0 < m < 2 ^ 37 -> (m - 1) * y < d <= m * y ->
  js_ceil (js_div_pos (num d) y) = num m.
Proof.
  intros Hd Hy Hm Hdm. assert (safe d) as Hs by (unfold safe; lia).
  assert (js_div_pos (num d) y = round_ratio d y) as ->.
  { destruct (num_rep d Hs) as (e & He & ->). cbn [js_div_pos]. rewrite (Z.max_r e), (Z.max_l (- e)), Z.mul_1_r by lia.
    pose proof (Z.pow_pos_nonneg 2 (- e) ltac:(lia) ltac:(lia)). unfold round_signed.
    rewrite (proj2 (Z.ltb_ge _ _)) by nia. apply round_ratio_scale; lia. }
  assert (js_leb (round_ratio d y) (num m) = true) as Hup.
  { rewrite <- (round_signed_int m y) by (unfold safe; lia). unfold round_signed.
    rewrite (proj2 (Z.ltb_ge _ _)) by nia. apply round_ratio_mono; lia. }
  set (a := (m - 1) * 2 ^ 16 + 1).
  assert (0 < a < 2 ^ 53) as Ha by (unfold a; change (2 ^ 37) with (137438953472) in Hm; change (2 ^ 16) with 65536;
    change (2 ^ 53) with 9007199254740992; lia).
  assert (js_leb (round_ratio (a * y) (2 ^ 16 * y)) (round_ratio d y) = true) as Hlo.
  { rewrite <- (round_ratio_scale d y (2 ^ 16)), (Z.mul_comm y) by lia. apply round_ratio_mono; [|lia]. unfold a. nia. }
  assert (js_ltb (num (m - 1)) (round_ratio d y) = true) as Hlow.
  { eapply js_ltb_leb_trans; [|exact Hlo]. rewrite round_frac by lia.
    destruct (num_rep (m - 1)) as (e & He & ->); [unfold safe; lia|].
    assert (Z.log2 a <= 52) as Hl by (apply Z.lt_succ_r, Z.log2_lt_pow2; lia). set (l := Z.log2 a) in *.
    set (e0 := Z.min e (l - 52 - 16)). rewrite (js_ltb_scale _ _ _ _ e0) by lia. apply Z.ltb_lt.
    rewrite <- !Z.mul_assoc, <- !Z.pow_add_r by lia. replace (- e + (e - e0)) with (16 + (-16 - e0)) by lia.
    replace (52 - l + (l - 52 - 16 - e0)) with (- 16 - e0) by lia. rewrite Z.pow_add_r by lia.
    pose proof (Z.pow_pos_nonneg 2 (-16 - e0) ltac:(lia) ltac:(lia)). unfold a. nia. }
  destruct (round_ratio_sign d y) as [E|(q & k & _ & E)]; [lia..| |]; rewrite E in *.
  - by destruct (num_rep m) as (e & _ & E'); [unfold safe; lia|rewrite E' in Hup].
  - cbn [js_ceil]. f_equal. apply dyadic_ceil_unique; unfold safe; (done || lia).
Qed.

#[global] Arguments num : simpl never.
#[global] Arguments js_add : simpl never.
#[global] Arguments js_sub : simpl never.
#[global] Arguments js_mul : simpl never.
#[global] Arguments js_ltb : simpl never.
#[global] Arguments js_leb : simpl never.
#[global] Arguments js_max : simpl never.
#[global] Arguments js_div_pos : simpl never.
#[global] Arguments loop_count : simpl never.
#[global] Arguments slice_num : simpl never.
