(* ===== verification/JsText.v ===== *)
(** * JavaScript strings, number texts and UTF-8

    What the services use of the language's standard library on text: strings
    as sequences of UTF-16 code units, [split], [join], [includes], [trim],
    [parseInt], [parseFloat], [Number(string)], [toString(radix)], [TextEncoder] and
    [TextDecoder].  Every function is executable; the lemmas are the
    inverse laws the codecs rely on. *)

From Stdlib Require Import String Ascii.
From S2P Require Import Prelude Numbers.

Abbreviation jsstr := (list Z).

(** The JavaScript string of an ASCII literal. *)
Definition jss (s : string) : jsstr :=
  List.map (fun c => Z.of_N (N_of_ascii c)) (list_ascii_of_string s).

(** ** Searching, splitting, joining *)

Fixpoint is_prefix (p s : jsstr) : bool :=
  match p, s with
  | [], _ => true
  | _, [] => false
  | a :: p', b :: s' => (a =? b) && is_prefix p' s'
  end.

(** [s.includes(sub)] *)
Fixpoint includes (sub s : jsstr) : bool :=
  is_prefix sub s || match s with [] => false | _ :: s' => includes sub s' end.

(** [s.split(sep)] for a non-empty separator: the matches are taken from the
    left and do not overlap; [skip] units of the separator are still to drop. *)
Fixpoint split_go (sep : jsstr) (skip : nat) (cur : jsstr) (s : jsstr) : list jsstr :=
  match s with
  | [] => [rev cur]
  | c :: s' =>
    match skip with
    | S k => split_go sep k cur s'
    | O => if is_prefix sep s
           then rev cur :: split_go sep (Nat.pred (length sep)) [] s'
           else split_go sep O (c :: cur) s'
    end
  end.

Definition js_split (s sep : jsstr) : list jsstr := split_go sep O [] s.

(** [parts.join(sep)] *)
Fixpoint js_join (parts : list jsstr) (sep : jsstr) : jsstr :=
  match parts with
  | [] => []
  | [p] => p
  | p :: ps => p ++ sep ++ js_join ps sep
  end.

(** A string that is present and not empty, as in [s || fallback]. *)
Definition truthy (s : option jsstr) : option jsstr :=
  match s with Some (c :: s') => Some (c :: s') | _ => None end.

(** ** White space *)

Definition is_ws (c : Z) : bool :=
  ((9 <=? c) && (c <=? 13)) || (c =? 32) || (c =? 160) || (c =? 0x1680)
  || ((0x2000 <=? c) && (c <=? 0x200a)) || (c =? 0x2028) || (c =? 0x2029)
  || (c =? 0x202f) || (c =? 0x205f) || (c =? 0x3000) || (c =? 0xfeff).

Fixpoint trim_start (s : jsstr) : jsstr :=
  match s with
  | c :: s' => if is_ws c then trim_start s' else s
  | [] => []
  end.

(** [s.trim()] *)
Definition trim (s : jsstr) : jsstr := rev (trim_start (rev (trim_start s))).

(** ** Digits *)

(** The value of a digit or letter in bases up to 36. *)
Definition digit_val (c : Z) : option Z :=
  if (48 <=? c) && (c <=? 57) then Some (c - 48)
  else if (97 <=? c) && (c <=? 122) then Some (c - 87)
  else if (65 <=? c) && (c <=? 90) then Some (c - 55)
  else None.

Definition digit_char (d : Z) : Z := if d <? 10 then 48 + d else 87 + d.

(** The longest prefix of digits of base [r], and what follows it. *)
Fixpoint span_digits (r : Z) (s : jsstr) : list Z * jsstr :=
  match s with
  | c :: s' =>
    match digit_val c with
    | Some d => if d <? r then let '(ds, t) := span_digits r s' in (d :: ds, t) else ([], s)
    | None => ([], s)
    end
  | [] => ([], [])
  end.

Definition digits_value (r : Z) (ds : list Z) : Z := fold_left (fun v d => v * r + d) ds 0.

(** [n.toString(r)] for a non-negative integer: [log2 n + 1] steps are enough
    in every base [r >= 2]. *)
Fixpoint digits_go (fuel : nat) (r n : Z) (acc : jsstr) : jsstr :=
  match fuel with
  | O => acc
  | S f => let acc' := digit_char (n mod r) :: acc in
           if n / r =? 0 then acc' else digits_go f r (n / r) acc'
  end.

Definition to_string (r n : Z) : jsstr := digits_go (S (Z.to_nat (Z.log2 n))) r n [].

(** [s.padStart(n, '0')] *)
Definition pad_start (n : nat) (s : jsstr) : jsstr := replicate (n - length s) 48 ++ s.

(** [parseInt(s, 16)]; [None] is [NaN]. *)
Definition parse_int16 (s : jsstr) : option Z :=
  let s := trim_start s in
  let '(neg, s) := match s with
                   | 45 :: s' => (true, s')
                   | 43 :: s' => (false, s')
                   | _ => (false, s)
                   end in
  let s := match s with
           | 48 :: 120 :: s' => s'
           | 48 :: 88 :: s' => s'
           | _ => s
           end in
  match span_digits 16 s with
  | ([], _) => None
  | (ds, _) => let v := digits_value 16 ds in Some (if neg : bool then - v else v)
  end.

(** [parseInt(s, 10)], before it is rounded to a double; [None] is [NaN]. *)
Definition parse_int10 (s : jsstr) : option Z :=
  let '(neg, s) := match trim_start s with
                   | 45 :: s' => (true, s')
                   | 43 :: s' => (false, s')
                   | s' => (false, s')
                   end in
  match span_digits 10 s with
  | ([], _) => None
  | (ds, _) => let v := digits_value 10 ds in Some (if neg : bool then - v else v)
  end.

(** ** [Number(string)] *)

(** The unsigned decimal literals: digits, an optional fraction, an optional
    exponent; all of the string. *)
Definition parse_exponent (s : jsstr) : option Z :=
  match s with
  | [] => Some 0
  | c :: s' =>
    if (c =? 101) || (c =? 69) then
      let '(neg, t) := match s' with
                       | 45 :: t => (true, t)
                       | 43 :: t => (false, t)
                       | _ => (false, s')
                       end in
      match span_digits 10 t with
      | (d :: ds, []) => let v := digits_value 10 (d :: ds) in Some (if neg : bool then - v else v)
      | _ => None
      end
    else None
  end.

Definition parse_decimal (s : jsstr) : jsnum :=
  let '(ip, s1) := span_digits 10 s in
  let '(fp, s2) := match s1 with 46 :: t => span_digits 10 t | _ => ([], s1) end in
  match ip ++ fp, parse_exponent s2 with
  | (_ :: _) as ds, Some e => round_decimal (digits_value 10 ds) (e - Z.of_nat (length fp))
  | _, _ => NaN
  end.

Definition parse_radix (r : Z) (s : jsstr) : jsnum :=
  match span_digits r s with
  | (d :: ds, []) => round_decimal (digits_value r (d :: ds)) 0
  | _ => NaN
  end.

(** [Number(s)] *)
Definition number_of_string (s : jsstr) : jsnum :=
  match trim s with
  | [] => Dyadic 0 0
  | 48 :: 120 :: t | 48 :: 88 :: t => parse_radix 16 t
  | 48 :: 111 :: t | 48 :: 79 :: t => parse_radix 8 t
  | 48 :: 98 :: t | 48 :: 66 :: t => parse_radix 2 t
  | t =>
    let '(neg, u) := match t with
                     | 45 :: u => (true, u)
                     | 43 :: u => (false, u)
                     | _ => (false, t)
                     end in
    let x := if bool_decide (u = jss "Infinity") then Infty false else parse_decimal u in
    if neg : bool then num_opp x else x
  end.

(** The exponent at the start of what follows the digits, if there is one. *)
Definition exponent_prefix (s : jsstr) : Z :=
  match s with
  | [] => 0
  | c :: s' =>
    if (c =? 101) || (c =? 69) then
      let '(neg, t) := match s' with
                       | 45 :: t => (true, t)
                       | 43 :: t => (false, t)
                       | _ => (false, s')
                       end in
      let v := digits_value 10 (span_digits 10 t).1 in
      if neg : bool then - v else v
    else 0
  end.

(** [parseFloat(s)]: the longest decimal literal the string starts with. *)
Definition parse_float (s : jsstr) : jsnum :=
  let '(neg, u) := match trim_start s with
                   | 45 :: u => (true, u)
                   | 43 :: u => (false, u)
                   | u => (false, u)
                   end in
  let x :=
    if bool_decide (take 8 u = jss "Infinity") then Infty false
    else
      let '(ip, s1) := span_digits 10 u in
      let '(fp, s2) := match s1 with 46 :: t => span_digits 10 t | _ => ([], s1) end in
      match ip ++ fp with
      | [] => NaN
      | ds => round_decimal (digits_value 10 ds) (exponent_prefix s2 - Z.of_nat (length fp))
      end in
  if neg : bool then num_opp x else x.

(** ** UTF-8 *)

(** [TextEncoder.encode]: the code points of the string, lone surrogates
    replaced by U+FFFD, in UTF-8. *)
Fixpoint code_points (s : jsstr) : list Z :=
  match s with
  | [] => []
  | c :: s' =>
    if (0xd800 <=? c) && (c <=? 0xdbff) then
      match s' with
      | d :: s'' =>
        if (0xdc00 <=? d) && (d <=? 0xdfff)
        then (0x10000 + (c - 0xd800) * 0x400 + (d - 0xdc00)) :: code_points s''
        else 0xfffd :: code_points s'
      | [] => [0xfffd]
      end
    else if (0xdc00 <=? c) && (c <=? 0xdfff) then 0xfffd :: code_points s'
    else c :: code_points s'
  end.

Definition utf8_of_code_point (c : Z) : bytes :=
  if c <? 0x80 then [byte.of_Z c]
  else if c <? 0x800 then [byte.of_Z (0xc0 + c / 64); byte.of_Z (0x80 + c mod 64)]
  else if c <? 0x10000 then
    [byte.of_Z (0xe0 + c / 4096); byte.of_Z (0x80 + c / 64 mod 64); byte.of_Z (0x80 + c mod 64)]
  else
    [byte.of_Z (0xf0 + c / 262144); byte.of_Z (0x80 + c / 4096 mod 64);
     byte.of_Z (0x80 + c / 64 mod 64); byte.of_Z (0x80 + c mod 64)].

Definition text_encode (s : jsstr) : bytes := concat (List.map utf8_of_code_point (code_points s)).

(** The UTF-8 decoder: how many continuation bytes are still needed, the code
    point so far, and the range the next continuation byte must be in. *)
Record dec_state := DecState { needed : nat; cp : Z; lower : Z; upper : Z }.

Definition dec_start : dec_state := DecState 0 0 0x80 0xbf.

(** A byte at the start of a code point. *)
Definition dec_first (b : Z) : list Z * dec_state :=
  if b <? 0x80 then ([b], dec_start)
  else if (0xc2 <=? b) && (b <=? 0xdf) then ([], DecState 1 (b - 0xc0) 0x80 0xbf)
  else if (0xe0 <=? b) && (b <=? 0xef) then
    ([], DecState 2 (b - 0xe0) (if b =? 0xe0 then 0xa0 else 0x80) (if b =? 0xed then 0x9f else 0xbf))
  else if (0xf0 <=? b) && (b <=? 0xf4) then
    ([], DecState 3 (b - 0xf0) (if b =? 0xf0 then 0x90 else 0x80) (if b =? 0xf4 then 0x8f else 0xbf))
  else ([0xfffd], dec_start).

(** One byte: an unexpected byte ends the current sequence with U+FFFD and is
    then decoded as a first byte. *)
Definition dec_byte (st : dec_state) (b : Z) : list Z * dec_state :=
  match needed st with
  | O => dec_first b
  | S k =>
    if (lower st <=? b) && (b <=? upper st) then
      let c := cp st * 64 + (b - 0x80) in
      match k with
      | O => ([c], dec_start)
      | _ => ([], DecState k c 0x80 0xbf)
      end
    else let '(out, st') := dec_first b in (0xfffd :: out, st')
  end.

Fixpoint utf8_decode_go (st : dec_state) (bs : bytes) : list Z :=
  match bs with
  | [] => match needed st with O => [] | _ => [0xfffd] end
  | b :: bs' => let '(out, st') := dec_byte st (byte.unsigned b) in out ++ utf8_decode_go st' bs'
  end.

(** The UTF-16 code units of a code point. *)
Definition utf16_of_code_point (c : Z) : jsstr :=
  if c <? 0x10000 then [c]
  else [0xd800 + (c - 0x10000) / 0x400; 0xdc00 + (c - 0x10000) mod 0x400].

(** [new TextDecoder().decode(bs)]: a leading byte order mark is dropped. *)
Definition text_decode (bs : bytes) : jsstr :=
  let cps := utf8_decode_go dec_start bs in
  let cps := match cps with 0xfeff :: t => t | _ => cps end in
  concat (List.map utf16_of_code_point cps).

(** [fs.readFileSync(file, 'utf8')]: a byte order mark is kept. *)
Definition utf8_to_string (bs : bytes) : jsstr := concat (List.map utf16_of_code_point (utf8_decode_go dec_start bs)).

Example text_decode_euro :
  text_decode (text_encode [0x20ac; 0x41; 0xd83d; 0xde00]) = [0x20ac; 0x41; 0xd83d; 0xde00].
Proof. reflexivity. Qed.

(** ** Lemmas: splitting inverts joining *)

Lemma is_prefix_single c x s : is_prefix [c] (x :: s) = (c =? x).
Proof. simpl. apply andb_true_r. Qed.

(** A text without the separator ends one part. *)
Lemma split_go_last c p cur :
  c ∉ p -> split_go [c] 0 cur p = [rev cur ++ p].
Proof.
  revert cur. induction p as [|x p IH]; intros cur Hp; simpl; [by rewrite app_nil_r|].
  apply not_elem_of_cons in Hp as [Hx Hp].
  rewrite (proj2 (Z.eqb_neq c x)) by done. simpl.
  rewrite IH by done. simpl. by rewrite <- app_assoc.
Qed.

Lemma split_go_part c p cur s :
  c ∉ p -> split_go [c] 0 cur (p ++ c :: s) = (rev cur ++ p) :: split_go [c] 0 [] s.
Proof.
  revert cur. induction p as [|x p IH]; intros cur Hp; simpl.
  - by rewrite Z.eqb_refl, app_nil_r.
  - apply not_elem_of_cons in Hp as [Hx Hp].
    rewrite (proj2 (Z.eqb_neq c x)) by done. simpl.
    rewrite IH by done. simpl. by rewrite <- app_assoc.
Qed.

Lemma split_join c parts :
  parts <> [] -> Forall (fun p => c ∉ p) parts ->
  js_split (js_join parts [c]) [c] = parts.
Proof.
  unfold js_split. induction parts as [|p parts IH]; intros Hne Hp; [done|].
  apply Forall_cons_1 in Hp as [Hp Hps].
  destruct parts as [|q parts]; [by apply split_go_last|].
  change (js_join (p :: q :: parts) [c]) with (p ++ c :: js_join (q :: parts) [c]).
  rewrite split_go_part by done. by rewrite IH.
Qed.

Lemma includes_single c s : includes [c] s = true <-> c ∈ s.
Proof.
  induction s as [|x s IH]; [simpl; set_solver|].
  cbn [includes]. rewrite is_prefix_single, orb_true_iff, IH, Z.eqb_eq. set_solver.
Qed.

Lemma includes_single_false c s : includes [c] s = false <-> c ∉ s.
Proof. rewrite <- not_true_iff_false. by rewrite includes_single. Qed.

Lemma js_join_not_in c sep parts :
  Forall (fun p => c ∉ p) parts -> c ∉ sep -> c ∉ js_join parts sep.
Proof.
  intros Hp Hs. induction Hp as [|p parts Hp Hps IH]; simpl; [set_solver|].
  destruct parts; set_solver.
Qed.

(** *** The [::] separator *)

Definition dcolon : jsstr := [58; 58].

(** A part of an address: not empty, without a colon. *)
Definition group_text (p : jsstr) : Prop := p <> [] /\ 58 ∉ p.

Lemma includes_dcolon_cons x s :
  x <> 58 -> includes dcolon (x :: s) = includes dcolon s.
Proof.
  intros Hx.
  change (((58 =? x) && is_prefix [58] s || includes dcolon s) = includes dcolon s).
  by rewrite (proj2 (Z.eqb_neq 58 x)) by lia.
Qed.

Lemma includes_dcolon_app p s :
  58 ∉ p -> includes dcolon (p ++ s) = includes dcolon s.
Proof.
  induction p as [|x p IH]; intros Hp; [done|].
  apply not_elem_of_cons in Hp as [Hx Hp].
  simpl app. rewrite includes_dcolon_cons by done. auto.
Qed.

Lemma includes_dcolon_sep x s :
  x <> 58 -> includes dcolon (58 :: x :: s) = includes dcolon (x :: s).
Proof.
  intros Hx. change (includes dcolon (58 :: x :: s))
    with (is_prefix dcolon (58 :: x :: s) || includes dcolon (x :: s)).
  replace (is_prefix dcolon (58 :: x :: s)) with false; [done|].
  change (false = (58 =? x) && true). by rewrite (proj2 (Z.eqb_neq 58 x)) by lia.
Qed.

Lemma group_head p s : group_text p -> exists x t, p ++ s = x :: t /\ x <> 58.
Proof.
  intros [Hne Hp]. destruct p as [|x p]; [done|]. exists x, (p ++ s). split; [done|].
  apply not_elem_of_cons in Hp as [? _]. lia.
Qed.

(** Joined groups hold no [::], also with a single colon put after them. *)
Lemma join_no_dcolon parts tl :
  tl = [] \/ tl = [58] -> Forall group_text parts ->
  includes dcolon (js_join parts [58] ++ tl) = false.
Proof.
  intros Htl. induction parts as [|p parts IH]; intros Hp.
  - by destruct Htl as [-> | ->].
  - apply Forall_cons_1 in Hp as [Hp Hps]. destruct parts as [|q parts].
    + simpl. rewrite includes_dcolon_app by apply Hp. by destruct Htl as [-> | ->].
    + change (js_join (p :: q :: parts) [58]) with (p ++ 58 :: js_join (q :: parts) [58]).
      rewrite <- app_assoc, includes_dcolon_app by apply Hp.
      specialize (IH Hps).
      assert (exists x t, js_join (q :: parts) [58] ++ tl = x :: t /\ x <> 58) as (x & t & E & Hx).
      { apply Forall_cons_1 in Hps as [Hq _]. simpl. destruct parts.
        - by apply group_head.
        - rewrite <- app_assoc. by apply group_head. }
      rewrite <- app_comm_cons, E. rewrite E in IH. by rewrite includes_dcolon_sep.
Qed.

Lemma split_go_no_dcolon s cur :
  includes dcolon s = false -> split_go dcolon 0 cur s = [rev cur ++ s].
Proof.
  revert cur. induction s as [|x s IH]; intros cur H; [by rewrite app_nil_r|].
  change (includes dcolon (x :: s)) with (is_prefix dcolon (x :: s) || includes dcolon s) in H.
  apply orb_false_iff in H as [H1 H2].
  cbn [split_go]. rewrite H1, IH by done. simpl. by rewrite <- app_assoc.
Qed.

Lemma split_go_dcolon a b cur :
  includes dcolon (a ++ [58]) = false ->
  split_go dcolon 0 cur (a ++ 58 :: 58 :: b) = (rev cur ++ a) :: split_go dcolon 0 [] b.
Proof.
  revert cur. induction a as [|x a IH]; intros cur H; [by rewrite app_nil_r|].
  simpl app in *.
  change (includes dcolon (x :: a ++ [58]))
    with (is_prefix dcolon (x :: a ++ [58]) || includes dcolon (a ++ [58])) in H.
  apply orb_false_iff in H as [H1 H2].
  assert (is_prefix dcolon (x :: a ++ 58 :: 58 :: b) = false) as Hpre.
  { revert H1. destruct a as [|y a]; simpl; by destruct (58 =? x). }
  cbn [split_go]. rewrite Hpre, IH by done. simpl. by rewrite <- app_assoc.
Qed.

Lemma includes_dcolon_mid a b : includes dcolon (a ++ 58 :: 58 :: b) = true.
Proof.
  induction a as [|x a IH]; [done|].
  simpl app. cbn [includes]. rewrite IH. by rewrite orb_true_r.
Qed.

Lemma js_split_dcolon a b :
  includes dcolon (a ++ [58]) = false -> includes dcolon b = false ->
  js_split (a ++ dcolon ++ b) dcolon = [a; b].
Proof.
  intros Ha Hb. unfold js_split. simpl app. rewrite split_go_dcolon by done.
  by rewrite split_go_no_dcolon.
Qed.

(** *** Number texts *)

Lemma digits_value_snoc r ds d : digits_value r (ds ++ [d]) = digits_value r ds * r + d.
Proof. unfold digits_value. by rewrite fold_left_app. Qed.

Definition digit_in (r d : Z) : Prop := 0 <= d < r.

(** The digits written are the digits of the number in its base. *)
Lemma digits_go_spec fuel r n acc :
  2 <= r -> 0 <= n < 2 ^ Z.of_nat fuel -> (0 < fuel)%nat ->
  exists ds, digits_go fuel r n acc = List.map digit_char ds ++ acc
    /\ digits_value r ds = n /\ Forall (digit_in r) ds /\ ds <> [].
Proof.
  intros Hr. revert n acc. induction fuel as [|f IH]; intros n acc Hn Hf; [lia|].
  cbn [digits_go].
  pose proof (Z.mod_pos_bound n r ltac:(lia)) as Hm.
  pose proof (Z.div_mod n r ltac:(lia)) as Hd.
  destruct (n / r =? 0) eqn:E; zbool.
  - exists [n mod r]. split; [done|]. split; [unfold digits_value; simpl; lia|].
    split; [|done]. by apply Forall_singleton.
  - assert (0 <= n / r < 2 ^ Z.of_nat f) as Hq.
    { split; [apply Z.div_pos; lia|]. apply Z.div_lt_upper_bound; [lia|].
      rewrite Nat2Z.inj_succ, Z.pow_succ_r in Hn by lia.
      pose proof (Z.pow_pos_nonneg 2 (Z.of_nat f)). nia. }
    assert (0 < f)%nat as Hf' by (destruct f; [simpl in Hq; lia|lia]).
    destruct (IH (n / r) (digit_char (n mod r) :: acc) Hq Hf') as (ds & E1 & E2 & E3 & E4).
    exists (ds ++ [n mod r]). rewrite E1, List.map_app, <- app_assoc. split; [done|].
    rewrite digits_value_snoc, E2. split; [lia|].
    split; [|by destruct ds]. apply Forall_app. split; [done|]. by apply Forall_singleton.
Qed.

Lemma to_string_spec r n :
  2 <= r -> 0 <= n ->
  exists ds, to_string r n = List.map digit_char ds
    /\ digits_value r ds = n /\ Forall (digit_in r) ds /\ ds <> [].
Proof.
  intros Hr Hn. unfold to_string.
  assert (0 <= n < 2 ^ Z.of_nat (S (Z.to_nat (Z.log2 n)))) as Hb.
  { split; [done|]. rewrite Nat2Z.inj_succ, Z2Nat.id by apply Z.log2_nonneg.
    destruct (Z.eq_dec n 0) as [->|]; [done|]. apply Z.log2_spec. lia. }
  destruct (digits_go_spec _ r n [] Hr Hb ltac:(lia)) as (ds & E & H).
  exists ds. by rewrite E, app_nil_r.
Qed.

Lemma digit_char_range d : 0 <= d < 36 -> 48 <= digit_char d <= 57 \/ 97 <= digit_char d <= 122.
Proof. intros. unfold digit_char. zcase. Qed.

Lemma digit_val_char d : 0 <= d < 36 -> digit_val (digit_char d) = Some d.
Proof.
  intros Hd. unfold digit_val, digit_char.
  destruct (d <? 10) eqn:E; zbool.
  - rewrite (proj2 (Z.leb_le 48 _)), (proj2 (Z.leb_le _ 57)) by lia. simpl. f_equal. lia.
  - rewrite (proj2 (Z.leb_gt _ 57)) by lia. rewrite andb_false_r.
    rewrite (proj2 (Z.leb_le 97 _)), (proj2 (Z.leb_le _ 122)) by lia. simpl. f_equal. lia.
Qed.

Lemma span_digits_map r ds :
  r <= 36 -> Forall (digit_in r) ds -> span_digits r (List.map digit_char ds) = (ds, []).
Proof.
  intros Hr. induction 1 as [|d ds Hd _ IH]; [done|]. unfold digit_in in Hd. simpl.
  rewrite digit_val_char by lia. rewrite (proj2 (Z.ltb_lt d r)) by lia. by rewrite IH.
Qed.

Lemma map_digit_char_sep r ds c :
  r <= 36 -> Forall (digit_in r) ds -> c < 48 \/ 57 < c < 97 -> c ∉ List.map digit_char ds.
Proof.
  intros Hr Hds Hc Hin. apply list_elem_of_In, in_map_iff in Hin as (d & <- & Hd).
  rewrite Forall_forall in Hds. specialize (Hds d ltac:(by apply list_elem_of_In)).
  unfold digit_in in Hds.
  pose proof (digit_char_range d ltac:(lia)). lia.
Qed.

(** A digit is neither white space nor a sign. *)
Lemma trim_start_digit d s : 0 <= d < 36 -> trim_start (digit_char d :: s) = digit_char d :: s.
Proof.
  intros Hd. cbn [trim_start]. pose proof (digit_char_range d Hd).
  replace (is_ws (digit_char d)) with false; [done|].
  symmetry. unfold is_ws. repeat (apply orb_false_iff; split); lia.
Qed.

(** [parseInt(g.toString(16), 16) = g] for a non-negative integer. *)
Lemma hex_roundtrip v :
  0 <= v ->
  parse_int16 (to_string 16 v) = Some v /\ group_text (to_string 16 v) /\ 46 ∉ to_string 16 v.
Proof.
  intros Hv. destruct (to_string_spec 16 v ltac:(lia) Hv) as (ds & -> & Hval & Hds & Hne).
  assert (forall c, c < 48 \/ 57 < c < 97 -> c ∉ List.map digit_char ds) as Hsep
    by (intros; eapply map_digit_char_sep; [|done|done]; lia).
  split; [|split; [split; [by destruct ds|]|]]; [|apply Hsep; lia..].
  destruct ds as [|d ds]; [done|]. unfold parse_int16.
  pose proof Hds as Hds'. apply Forall_cons_1 in Hds' as [Hd Hds']. unfold digit_in in Hd.
  pose proof (digit_char_range d ltac:(lia)) as Hc.
  simpl List.map. rewrite trim_start_digit by lia.
  replace (match digit_char d :: List.map digit_char ds with
           | 45 :: s' => (true, s') | 43 :: s' => (false, s')
           | _ => (false, digit_char d :: List.map digit_char ds) end)
    with (false, digit_char d :: List.map digit_char ds) by (repeat case_match; try done; lia).
  assert (match digit_char d :: List.map digit_char ds with
          | 48 :: 120 :: s' => s' | 48 :: 88 :: s' => s'
          | _ => digit_char d :: List.map digit_char ds end
          = List.map digit_char (d :: ds)) as ->.
  { destruct ds as [|e ds]; simpl; [repeat case_match; done|].
    apply Forall_cons_1 in Hds' as [He _]. unfold digit_in in He.
    assert (digit_char e <> 120 /\ digit_char e <> 88) as [He1 He2]
      by (unfold digit_char; zcase).
    repeat case_match; try done; lia. }
  rewrite span_digits_map by (done || lia). by rewrite Hval.
Qed.

(** The decimal texts of the byte values are read back by [Number]. *)
Definition octet_ok (v : Z) : bool :=
  match integer_of (number_of_string (to_string 10 v)) with Some w => v =? w | None => false end.

Lemma octets_ok : forallb octet_ok (seqZ 0 256) = true.
Proof. vm_compute. reflexivity. Qed.

Lemma octet_roundtrip v :
  0 <= v < 256 ->
  integer_of (number_of_string (to_string 10 v)) = Some v
  /\ (58 ∉ to_string 10 v) /\ (46 ∉ to_string 10 v).
Proof.
  intros Hv. split.
  - pose proof octets_ok as H. rewrite forallb_forall in H.
    specialize (H v ltac:(apply list_elem_of_In, elem_of_seqZ; lia)). unfold octet_ok in H.
    case_match; [|done]. f_equal. zbool. done.
  - destruct (to_string_spec 10 v ltac:(lia) ltac:(lia)) as (ds & -> & _ & Hds & _).
    split; (eapply map_digit_char_sep; [|done|]; lia).
Qed.

(** *** ASCII texts *)

Definition ascii_text (s : jsstr) : Prop := Forall (fun c => 0 <= c < 128) s.

Lemma text_encode_ascii s : ascii_text s -> text_encode s = List.map byte.of_Z s.
Proof.
  unfold text_encode. induction 1 as [|c s Hc _ IH]; [done|]. cbn [code_points].
  rewrite (proj2 (Z.leb_gt 0xd800 c)), (proj2 (Z.leb_gt 0xdc00 c)) by lia. simpl. rewrite IH.
  unfold utf8_of_code_point. by rewrite (proj2 (Z.ltb_lt c 0x80)) by lia.
Qed.

Lemma utf8_decode_ascii s :
  ascii_text s -> utf8_decode_go dec_start (List.map byte.of_Z s) = s.
Proof.
  induction 1 as [|c s Hc _ IH]; [done|].
  cbn [List.map utf8_decode_go dec_byte needed dec_start].
  rewrite byte.unsigned_of_Z. unfold byte.wrap. rewrite Z.mod_small by lia.
  unfold dec_first. rewrite (proj2 (Z.ltb_lt c 0x80)) by lia. simpl. f_equal. exact IH.
Qed.

Lemma utf16_ascii s : ascii_text s -> concat (List.map utf16_of_code_point s) = s.
Proof.
  induction 1 as [|c s Hc _ IH]; [done|]. simpl. unfold utf16_of_code_point at 1.
  rewrite (proj2 (Z.ltb_lt c 0x10000)) by lia. simpl. by rewrite IH.
Qed.

Lemma text_decode_ascii s : ascii_text s -> text_decode (List.map byte.of_Z s) = s.
Proof.
  intros H. unfold text_decode. rewrite utf8_decode_ascii by done.
  assert (match s with 0xfeff :: t => t | _ => s end = s) as ->.
  { destruct H as [|c s Hc H]; [done|]. repeat case_match; try done; lia. }
  by apply utf16_ascii.
Qed.
