(* ===== verification/NumberText.v ===== *)
(** * The text of a number

    [Number::toString]: the shortest decimal digits that read back as the number,
    laid out as the language prescribes.  [JSON.stringify] writes numbers this
    way. *)

From Stdlib Require Import String.
From S2P Require Import Prelude Numbers JsText.

Module NumberText.

Global Instance jsnum_eq_dec : EqDecision jsnum.
Proof. solve_decision. Defined.

(** ** Digits *)

(** How many decimal digits a positive integer has. *)
Definition dec_len (z : Z) : Z := len (to_string 10 z).

(** The [e] with [10^(e - 1) <= n / d < 10^e]. *)
Definition dec_exp (n d : Z) : Z := if d <=? n then dec_len (n / d) else 1 - dec_len ((d - 1) / n).

(** [10^p] is [tp p / tp (- p)]. *)
Definition tp (p : Z) : Z := 10 ^ Z.max p 0.

(** [n / d * 10^p] as a quotient. *)
Definition scaled (n d p : Z) : Z * Z := (n * tp p, d * tp (- p)).

Definition reads_back (x : jsnum) (s p : Z) : bool := bool_decide (round_decimal s p = x).

(** The digits [s] with [s * 10^-p] nearest to [x = n / d] that read back as [x]. *)
Definition digits_at (x : jsnum) (n d p : Z) : option Z :=
  let '(a, b) := scaled n d p in
  let f := a / b in
  match reads_back x f (- p), reads_back x (f + 1) (- p) with
  | true, true => Some (if 2 * (a mod b) <=? b then f else f + 1)
  | true, false => Some f
  | false, true => Some (f + 1)
  | false, false => None
  end.

(** With [k], [k + 1], ... digits; [s = 10^k] is the single digit 1. *)
Fixpoint shortest_from (fuel : nat) (x : jsnum) (n d e k : Z) : Z * Z :=
  match digits_at x n d (k - e) with
  | Some s => if s =? 10 ^ k then (1, e) else (s, e - k)
  | None =>
    match fuel with
    | O => (0, 0)
    | S fuel' => shortest_from fuel' x n d e (k + 1)
    end
  end.

(** [s] and [p] with [s * 10^p] the shortest text of the positive double
    [m * 2^e]; 17 digits are always enough. *)
Definition shortest (m e : Z) : Z * Z :=
  let n := m * pw e in
  let d := pw (- e) in
  shortest_from 16 (Dyadic m e) n d (dec_exp n d) 1.

(** ** Layout *)

Definition zeros (n : Z) : jsstr := replicate (Z.to_nat n) 48.

Definition exponent_text (e : Z) : jsstr :=
  101 :: (if e <? 0 then 45 :: to_string 10 (- e) else 43 :: to_string 10 e).

(** The text of [s * 10^p]. *)
Definition layout (s p : Z) : jsstr :=
  let digits := to_string 10 s in
  let k := len digits in
  let n := p + k in
  if (k <=? n) && (n <=? 21) then digits ++ zeros (n - k)
  else if (0 <? n) && (n <=? 21) then take (Z.to_nat n) digits ++ 46 :: drop (Z.to_nat n) digits
  else if (-6 <? n) && (n <=? 0) then jss "0." ++ zeros (- n) ++ digits
  else
    match digits with
    | [c] => c :: exponent_text (n - 1)
    | c :: cs => c :: 46 :: cs ++ exponent_text (n - 1)
    | [] => []
    end.

Definition positive_text (m e : Z) : jsstr := let '(s, p) := shortest m e in layout s p.

(** [String(x)] *)
Definition number_text (x : jsnum) : jsstr :=
  match x with
  | NaN => jss "NaN"
  | Infty neg => if neg then jss "-Infinity" else jss "Infinity"
  | Dyadic m e =>
    if m =? 0 then jss "0" else if m <? 0 then 45 :: positive_text (- m) e else positive_text m e
  end.

Example number_text_examples :
  number_text (num 1700000000) = jss "1700000000" /\ number_text (round_decimal 1 (-1)) = jss "0.1"
  /\ number_text (round_signed (-1) 3) = jss "-0.3333333333333333" /\ number_text (round_decimal 1 23) = jss "1e+23"
  /\ number_text (Dyadic 1 (-1074)) = jss "5e-324" /\ number_text (round_decimal 5252 (-2)) = jss "52.52"
  /\ number_text (round_decimal 123 (-9)) = jss "1.23e-7" /\ number_text (num 0) = jss "0"
  /\ number_text (num (2 ^ 64)) = jss "18446744073709552000".
Proof. vm_compute. tauto. Qed.

(** ** Lemmas: decimal digits *)

Lemma digits_go_head fuel r n acc :
  2 <= r -> 0 < n < 2 ^ Z.of_nat fuel -> exists c t, digits_go fuel r n acc = c :: t /\ c <> 48.
Proof.
  intros Hr. revert n acc. induction fuel as [|f IH]; intros n acc Hn; [cbn in Hn; lia|]. cbn [digits_go].
  pose proof (Z.mod_pos_bound n r ltac:(lia)) as Hm. pose proof (Z.div_mod n r ltac:(lia)) as Hd.
  destruct (n / r =? 0) eqn:E; zbool.
  - eexists _, _. split; [done|]. unfold digit_char. zcase.
  - apply IH. pose proof (Z.div_pos n r ltac:(lia) ltac:(lia)). split; [lia|].
    apply Z.div_lt_upper_bound; [lia|]. rewrite Nat2Z.inj_succ, Z.pow_succ_r in Hn by lia.
    pose proof (Z.pow_pos_nonneg 2 (Z.of_nat f)). nia.
Qed.

(** The digits of a positive integer; the first one is not 0. *)
Lemma numeral_spec r n :
  2 <= r -> 0 < n -> exists d ds, to_string r n = List.map digit_char (d :: ds) /\ 0 < d < r
    /\ digits_value r (d :: ds) = n /\ Forall (digit_in r) (d :: ds).
Proof.
  intros Hr Hn. destruct (to_string_spec r n Hr ltac:(lia)) as ([|d ds] & E & Ev & Hd & Hne); [done|].
  pose proof Hd as [Hd1 _]%Forall_cons_1. unfold digit_in in Hd1.
  enough (d <> 0) by (exists d, ds; split_and!; (done || lia)).
  destruct (digits_go_head (S (Z.to_nat (Z.log2 n))) r n [] Hr) as (c & t & Ec & Hc).
  { split; [done|]. rewrite Nat2Z.inj_succ, Z2Nat.id by apply Z.log2_nonneg. by apply Z.log2_spec. }
  unfold to_string in E. rewrite Ec in E. cbn in E. simplify_eq. by intros ->.
Qed.

Lemma decimal_spec n :
  0 < n -> exists d ds, to_string 10 n = List.map digit_char (d :: ds) /\ 0 < d < 10
    /\ digits_value 10 (d :: ds) = n /\ Forall (digit_in 10) (d :: ds).
Proof. by apply numeral_spec. Qed.

Lemma digits_value_app r ds1 ds2 : digits_value r (ds1 ++ ds2) = digits_value r ds1 * r ^ len ds2 + digits_value r ds2.
Proof.
  induction ds2 as [|d ds IH] using rev_ind; [rewrite app_nil_r, len_nil, Z.pow_0_r; change (digits_value r []) with 0; lia|].
  rewrite app_assoc, !digits_value_snoc, IH, len_app. change (len [d]) with 1.
  rewrite Z.pow_add_r by (done || apply len_nonneg). lia.
Qed.

Lemma digits_value_cons r d ds : digits_value r (d :: ds) = d * r ^ len ds + digits_value r ds.
Proof. apply (digits_value_app r [d] ds). Qed.

Lemma zeros_value r n : digits_value r (replicate n 0) = 0.
Proof. induction n as [|n IH]; [done|]. cbn [replicate]. rewrite digits_value_cons, IH. lia. Qed.

Lemma digits_value_bound r ds : 2 <= r -> Forall (digit_in r) ds -> 0 <= digits_value r ds < r ^ len ds.
Proof.
  intros Hr. induction 1 as [|d ds Hd _ IH]; [done|]. rewrite digits_value_cons, len_cons, Z.pow_add_r by (done || apply len_nonneg).
  unfold digit_in in Hd. nia.
Qed.

(** A number with leading zeros. *)
Lemma padded_digits r w n : 2 <= r -> (0 < w)%nat -> 0 <= n < r ^ Z.of_nat w ->
  exists ds, pad_start w (to_string r n) = List.map digit_char ds
    /\ digits_value r ds = n /\ Forall (digit_in r) ds /\ length ds = w.
Proof.
  intros Hr Hw Hn.
  assert (exists ds, to_string r n = List.map digit_char ds /\ digits_value r ds = n /\ Forall (digit_in r) ds
            /\ (length ds <= w)%nat) as (ds & E & Ev & Hds & Hl).
  { destruct (decide (n = 0)) as [->|Hne].
    { exists [0]. assert (Forall (digit_in r) [0]) by (apply Forall_singleton; unfold digit_in; lia). by split_and!. }
    destruct (numeral_spec r n Hr ltac:(lia)) as (d & ds & E & Hd & Ev & Hds). exists (d :: ds). split_and!; [done..|].
    rewrite digits_value_cons in Ev. apply Forall_cons_1 in Hds as [_ Hds].
    pose proof (digits_value_bound r ds Hr Hds). cbn. apply Nat.le_succ_l, Nat.nle_gt. intros Hl.
    assert (r ^ Z.of_nat w <= r ^ len ds) by (apply Z.pow_le_mono_r; unfold len; lia). nia. }
  exists (replicate (w - length ds) 0 ++ ds). split_and!.
  - unfold pad_start. rewrite E, List.length_map, List.map_app. f_equal.
    induction (w - length ds)%nat as [|k IH]; cbn; [done|by rewrite IH].
  - rewrite digits_value_app, zeros_value, Ev. lia.
  - apply Forall_app. split; [|done]. apply Forall_replicate. unfold digit_in. lia.
  - rewrite length_app, length_replicate. lia.
Qed.

Lemma dec_len_spec z : 0 < z -> 1 <= dec_len z /\ 10 ^ (dec_len z - 1) <= z < 10 ^ dec_len z.
Proof.
  intros Hz. destruct (decimal_spec z Hz) as (d & ds & E & Hd & Ev & Hds). unfold dec_len. rewrite E.
  assert (len (List.map digit_char (d :: ds)) = 1 + len ds) as -> by (unfold len; rewrite List.length_map; cbn; lia).
  pose proof (len_nonneg ds). split; [lia|]. replace (1 + len ds - 1) with (len ds) by lia.
  pose proof (digits_value_bound 10 _ ltac:(lia) Hds) as Hb. rewrite len_cons in Hb. rewrite digits_value_cons in *.
  apply Forall_cons_1 in Hds as [_ Hds]. pose proof (digits_value_bound 10 _ ltac:(lia) Hds). nia.
Qed.

Lemma tp_pos k : 0 < tp k.
Proof. apply Z.pow_pos_nonneg; lia. Qed.

Lemma tp_shift k c : 0 <= c -> tp (k + c) * tp (- k) = 10 ^ c * (tp k * tp (- (k + c))).
Proof. intros Hc. unfold tp. rewrite <- !Z.pow_add_r by lia. f_equal. lia. Qed.

Lemma dec_exp_spec n d :
  0 < n -> 0 < d -> let e := dec_exp n d in d * tp (e - 1) <= n * tp (1 - e) /\ n * tp (- e) < d * tp e.
Proof.
  intros Hn Hd. unfold dec_exp. destruct (d <=? n) eqn:E; zbool.
  - assert (0 < n / d) as Hq by (apply Z.div_str_pos; lia).
    destruct (dec_len_spec _ Hq) as (H1 & H2 & H3). set (e := dec_len (n / d)) in *. cbn zeta.
    unfold tp. rewrite (Z.max_l (e - 1)), (Z.max_r (1 - e)), (Z.max_r (- e)), (Z.max_l e) by lia.
    pose proof (Z.div_mod n d ltac:(lia)). pose proof (Z.mod_pos_bound n d Hd). nia.
  - assert (0 < (d - 1) / n) as Hq by (apply Z.div_str_pos; lia).
    destruct (dec_len_spec _ Hq) as (H1 & H2 & H3). set (j := dec_len ((d - 1) / n)) in *. cbn zeta.
    replace (1 - (1 - j)) with j by lia. replace (1 - j - 1) with (- j) by lia. replace (- (1 - j)) with (j - 1) by lia.
    unfold tp. rewrite (Z.max_r (- j)), (Z.max_l j), (Z.max_l (j - 1)), (Z.max_r (1 - j)) by lia.
    pose proof (Z.div_mod (d - 1) n ltac:(lia)). pose proof (Z.mod_pos_bound (d - 1) n Hn). nia.
Qed.

(** ** Lemmas: 17 digits are enough *)

(** Digits within half a unit, of at least 17 places, read back. *)
Lemma close_reads_back m e p s :
  is_double m e -> let '(a, b) := scaled (m * pw e) (pw (- e)) p in
  10 ^ 16 * b <= a -> 2 * Z.abs (s * b - a) <= b -> round_decimal s (- p) = Dyadic m e.
Proof.
  intros Hd. unfold scaled. intros Ha Hs. pose proof (tp_pos p). pose proof (tp_pos (- p)).
  pose proof (pw_pos e). pose proof (pw_pos (- e)). pose proof Hd as [[Hm _] _].
  unfold round_decimal. rewrite Z.opp_involutive. fold (tp (- p)) (tp p).
  assert (0 < s) as Hs0 by (change (10 ^ 16) with 10000000000000000 in Ha; nia).
  apply round_close; [nia|done|done|]. change (2 ^ 54) with 18014398509481984. change (10 ^ 16) with 10000000000000000 in Ha.
  set (b := pw (- e) * tp (- p)) in *. set (a := m * pw e * tp p) in *.
  replace (s * tp (- p) * pw (- e)) with (s * b) by (unfold b; lia).
  replace (m * (tp p * pw e)) with a by (unfold a; lia). assert (0 < b) by (unfold b; nia). lia.
Qed.

Lemma digits_at_17 m e :
  is_double m e -> let n := m * pw e in let d := pw (- e) in
  digits_at (Dyadic m e) n d (17 - dec_exp n d) <> None.
Proof.
  intros Hd n d. pose proof Hd as [[Hm _] _]. pose proof (pw_pos e). assert (0 < n) as Hn by (unfold n; nia).
  assert (0 < d) as Hd' by apply pw_pos. destruct (dec_exp_spec n d Hn Hd') as [He _].
  set (E := dec_exp n d) in *. set (p := 17 - E).
  assert (10 ^ 16 * (d * tp (- p)) <= n * tp p) as Hlow.
  { pose proof (tp_shift (E - 17) 16 ltac:(lia)) as Es. replace (E - 17 + 16) with (E - 1) in Es by lia.
    replace (- (E - 17)) with p in Es by lia. replace (- (E - 1)) with (1 - E) in Es by lia.
    replace (E - 17) with (- p) in Es by lia. pose proof (tp_pos (1 - E)). pose proof (tp_pos p).
    apply (Z.mul_le_mono_pos_r _ _ (tp (1 - E))); [done|].
    replace (10 ^ 16 * (d * tp (- p)) * tp (1 - E)) with (d * (10 ^ 16 * (tp (- p) * tp (1 - E)))) by ring.
    rewrite <- Es. nia. }
  unfold digits_at. pose proof (close_reads_back m e p) as Hc. unfold scaled in *. fold n d in Hc.
  set (a := n * tp p) in *. set (b := d * tp (- p)) in *.
  assert (0 < b) as Hb by (unfold b; pose proof (tp_pos (- p)); nia).
  pose proof (Z.div_mod a b ltac:(lia)) as Ea. pose proof (Z.mod_pos_bound a b Hb) as Hr.
  set (f := a / b) in *. destruct (Z.le_gt_cases (2 * (a mod b)) b) as [Hlo|Hhi].
  - assert (reads_back (Dyadic m e) f (- p) = true) as ->.
    { apply bool_decide_eq_true_2, Hc; [done|done|]. nia. }
    by destruct (reads_back _ _ _).
  - assert (reads_back (Dyadic m e) (f + 1) (- p) = true) as ->.
    { apply bool_decide_eq_true_2, Hc; [done|done|]. nia. }
    by destruct (reads_back _ _ _).
Qed.

Lemma round_decimal_shift s p j : 0 <= s -> 0 <= j -> round_decimal (s * 10 ^ j) p = round_decimal s (p + j).
Proof.
  intros Hs Hj. unfold round_decimal. fold (tp p) (tp (- p)) (tp (p + j)) (tp (- (p + j))).
  pose proof (tp_shift p j Hj) as E. pose proof (tp_pos p). pose proof (tp_pos (- p)).
  pose proof (tp_pos (p + j)). pose proof (tp_pos (- (p + j))). pose proof (Z.pow_pos_nonneg 10 j ltac:(lia) Hj).
  rewrite <- (round_ratio_scale (s * 10 ^ j * tp p) (tp (- p)) (tp (- (p + j)))) by nia.
  rewrite <- (round_ratio_scale (s * tp (p + j)) (tp (- (p + j))) (tp (- p))) by nia. f_equal; [|lia].
  replace (s * 10 ^ j * tp p * tp (- (p + j))) with (s * (10 ^ j * (tp p * tp (- (p + j))))) by ring.
  rewrite <- E. ring.
Qed.

Lemma digits_at_reads_back x n d p s : digits_at x n d p = Some s -> round_decimal s (- p) = x.
Proof.
  unfold digits_at, reads_back. destruct (scaled n d p) as [a b]. intros H.
  repeat case_bool_decide; simplify_eq; try done. by case_match.
Qed.

Lemma digits_at_pos x n d p s : 0 < n -> 0 < d -> digits_at x n d p = Some s -> 0 <= s.
Proof.
  intros Hn Hd. unfold digits_at, scaled. pose proof (tp_pos p). pose proof (tp_pos (- p)).
  pose proof (Z.div_pos (n * tp p) (d * tp (- p)) ltac:(nia) ltac:(nia)). repeat case_match; intros; simplify_eq; lia.
Qed.

Lemma shortest_from_spec x n d e fuel : forall k,
  0 < n -> 0 < d -> 0 <= k -> digits_at x n d (k + Z.of_nat fuel - e) <> None ->
  let '(s, p) := shortest_from fuel x n d e k in 0 <= s /\ round_decimal s p = x.
Proof.
  induction fuel as [|fuel IH]; intros k Hn Hd Hk H17; cbn [shortest_from];
    destruct (digits_at x n d (k - e)) as [s|] eqn:Es.
  1,3: pose proof (digits_at_reads_back _ _ _ _ _ Es) as Hr; pose proof (digits_at_pos _ _ _ _ _ Hn Hd Es) as Hp;
    replace (- (k - e)) with (e - k) in Hr by lia; destruct (s =? 10 ^ k) eqn:E; zbool; [|done];
    split; [lia|]; rewrite <- Hr, E, <- (Z.mul_1_l (10 ^ k)), round_decimal_shift by lia; f_equal; lia.
  - rewrite Z.add_0_r in H17. congruence.
  - apply IH; [done|done|lia|]. by replace (k + 1 + Z.of_nat fuel) with (k + Z.of_nat (S fuel)) by lia.
Qed.

Lemma shortest_spec m e :
  is_double m e -> let '(s, p) := shortest m e in 0 < s /\ round_decimal s p = Dyadic m e.
Proof.
  intros Hd. unfold shortest. pose proof (digits_at_17 m e Hd) as H. pose proof Hd as [[Hm _] _]. cbv zeta in H.
  pose proof (pw_pos e). pose proof (pw_pos (- e)).
  pose proof (shortest_from_spec (Dyadic m e) (m * pw e) (pw (- e)) (dec_exp (m * pw e) (pw (- e))) 16 1
                ltac:(nia) ltac:(lia) ltac:(lia)) as Hs.
  change (1 + Z.of_nat 16) with 17 in Hs. specialize (Hs H). destruct (shortest_from _ _ _ _ _ _) as [s p].
  destruct Hs as [Hs Hr]. split; [|done]. destruct (decide (s = 0)) as [->|]; [|lia].
  change (round_decimal 0 p) with (Dyadic 0 0) in Hr. by simplify_eq.
Qed.

End NumberText.
