(* ===== verification/Utf8.v ===== *)
(** * UTF-8 and UTF-16

    [TextDecoder] inverts [TextEncoder] on every well-formed string without a
    leading byte order mark. *)

From S2P Require Import Prelude JsText.

Module Utf8.

(** The code points that are not surrogates. *)
Definition scalar (c : Z) : Prop := 0 <= c < 0xd800 \/ 0xe000 <= c < 0x110000.

(** Well-formed UTF-16: surrogates only come in pairs. *)
Inductive utf16_ok : jsstr -> Prop :=
  | utf16_nil : utf16_ok []
  | utf16_bmp c s : scalar c -> c < 0x10000 -> utf16_ok s -> utf16_ok (c :: s)
  | utf16_pair h l s :
      0xd800 <= h < 0xdc00 -> 0xdc00 <= l < 0xe000 -> utf16_ok s -> utf16_ok (h :: l :: s).

(** ** Code points and code units *)

Lemma code_points_ok s :
  utf16_ok s ->
  Forall scalar (code_points s) /\ concat (List.map utf16_of_code_point (code_points s)) = s.
Proof.
  induction 1 as [|c s Hc Hb _ [IH1 IH2]|h l s Hh Hl _ [IH1 IH2]]; [done|..].
  - assert (code_points (c :: s) = c :: code_points s) as ->.
    { cbn [code_points]. unfold scalar in Hc.
      destruct ((0xd800 <=? c) && (c <=? 0xdbff)) eqn:E1; [lia|].
      destruct ((0xdc00 <=? c) && (c <=? 0xdfff)) eqn:E2; [lia|done]. }
    split; [by constructor|]. cbn [List.map concat]. unfold utf16_of_code_point at 1.
    rewrite (proj2 (Z.ltb_lt _ _)) by done. cbn. by rewrite IH2.
  - set (c := 0x10000 + (h - 0xd800) * 0x400 + (l - 0xdc00)).
    assert (code_points (h :: l :: s) = c :: code_points s) as ->.
    { cbn [code_points]. rewrite !(proj2 (Z.leb_le _ _)) by lia. done. }
    split; [constructor; [unfold scalar, c; lia|done]|]. cbn [List.map concat].
    unfold utf16_of_code_point at 1. rewrite (proj2 (Z.ltb_ge _ _)) by (unfold c; lia).
    assert (c - 0x10000 = (h - 0xd800) * 0x400 + (l - 0xdc00)) as -> by (unfold c; lia).
    assert (((h - 0xd800) * 0x400 + (l - 0xdc00)) / 0x400 = h - 0xd800) as ->
      by (rewrite Z.div_add_l, Z.div_small; lia).
    assert (((h - 0xd800) * 0x400 + (l - 0xdc00)) mod 0x400 = l - 0xdc00) as ->
      by (rewrite Z.add_comm, Z.mod_add, Z.mod_small; lia).
    cbn [app]. rewrite IH2. f_equal; [lia|f_equal; lia].
Qed.

Lemma code_points_bom s :
  utf16_ok s -> head s <> Some 0xfeff -> head (code_points s) <> Some 0xfeff.
Proof.
  intros H Hb E. apply Hb. destruct H as [|c s Hc Hlt _|h l s Hh Hl _]; [done|..]; cbn [code_points] in E.
  - unfold scalar in Hc. repeat case_match; cbn in E; simplify_eq; try done; lia.
  - rewrite !(proj2 (Z.leb_le _ _)) in E by lia. cbn [andb head] in E. simplify_eq. lia.
Qed.

(** ** Bytes and code points *)

Lemma unsigned_of_Z x : 0 <= x < 256 -> byte.unsigned (byte.of_Z x) = x.
Proof. intros. rewrite byte.unsigned_of_Z. unfold byte.wrap. by apply Z.mod_small. Qed.

(** A lead byte, and a continuation byte in its range. *)
Lemma decode_lead b k c lo hi bs :
  0 <= b < 256 -> dec_first b = ([], DecState k c lo hi) ->
  utf8_decode_go dec_start (byte.of_Z b :: bs) = utf8_decode_go (DecState k c lo hi) bs.
Proof.
  intros Hb E. cbn [utf8_decode_go dec_byte dec_start needed]. by rewrite unsigned_of_Z, E.
Qed.

Lemma decode_next b k c lo hi bs :
  0 <= b < 256 -> lo <= b <= hi ->
  utf8_decode_go (DecState (S (S k)) c lo hi) (byte.of_Z b :: bs)
  = utf8_decode_go (DecState (S k) (c * 64 + (b - 0x80)) 0x80 0xbf) bs.
Proof.
  intros Hb Hr. cbn [utf8_decode_go]. rewrite unsigned_of_Z by done. unfold dec_byte. cbn [needed lower upper cp].
  by rewrite !(proj2 (Z.leb_le _ _)) by lia.
Qed.

Lemma decode_last b c lo hi bs :
  0 <= b < 256 -> lo <= b <= hi ->
  utf8_decode_go (DecState 1 c lo hi) (byte.of_Z b :: bs)
  = (c * 64 + (b - 0x80)) :: utf8_decode_go dec_start bs.
Proof.
  intros Hb Hr. cbn [utf8_decode_go]. rewrite unsigned_of_Z by done. unfold dec_byte. cbn [needed lower upper cp].
  by rewrite !(proj2 (Z.leb_le _ _)) by lia.
Qed.

Lemma decode_code_point c bs :
  scalar c -> utf8_decode_go dec_start (utf8_of_code_point c ++ bs) = c :: utf8_decode_go dec_start bs.
Proof.
  intros Hc. unfold scalar in Hc. unfold utf8_of_code_point.
  pose proof (Z.div_mod c 64 ltac:(lia)). pose proof (Z.mod_pos_bound c 64 ltac:(lia)).
  destruct (c <? 0x80) eqn:E1; zbool; [|destruct (c <? 0x800) eqn:E2; zbool;
    [|destruct (c <? 0x10000) eqn:E3; zbool]]; cbn [app].
  - cbn [utf8_decode_go dec_byte dec_start needed]. rewrite unsigned_of_Z by lia. unfold dec_first.
    by rewrite (proj2 (Z.ltb_lt _ _)) by lia.
  - assert (2 <= c / 64 < 32) by lia.
    rewrite (decode_lead _ 1 (c / 64) 0x80 0xbf) by
      (lia || (unfold dec_first; rewrite (proj2 (Z.ltb_ge _ _)), !(proj2 (Z.leb_le _ _)) by lia;
               cbn [andb]; do 3 f_equal; lia)).
    rewrite decode_last by lia. f_equal. lia.
  - pose proof (Z.div_div c 64 64 ltac:(lia) ltac:(lia)) as Hdd. change (64 * 64) with 4096 in Hdd.
    pose proof (Z.div_mod (c / 64) 64 ltac:(lia)). pose proof (Z.mod_pos_bound (c / 64) 64 ltac:(lia)).
    set (q := c / 64) in *. set (m := q mod 64) in *. set (p := c / 4096) in *. rewrite Hdd in *.
    assert (0 <= p < 16) by lia.
    rewrite (decode_lead _ 2 p (if p =? 0 then 0xa0 else 0x80) (if p =? 13 then 0x9f else 0xbf)); [|lia|].
    2: { unfold dec_first. rewrite (proj2 (Z.ltb_ge _ _)) by lia.
         rewrite (proj2 (Z.leb_gt (0xe0 + p) 0xdf)), andb_false_r, !(proj2 (Z.leb_le _ _)) by lia. cbn [andb].
         replace (0xe0 + p =? 0xe0) with (p =? 0) by lia. replace (0xe0 + p =? 0xed) with (p =? 13) by lia.
         do 2 f_equal. lia. }
    rewrite decode_next, decode_last; [f_equal; lia|lia|lia|lia|].
    destruct (p =? 0) eqn:Ep, (p =? 13) eqn:Eq; zbool; lia.
  - pose proof (Z.div_div c 64 64 ltac:(lia) ltac:(lia)) as Hdd. change (64 * 64) with 4096 in Hdd.
    pose proof (Z.div_div c 4096 64 ltac:(lia) ltac:(lia)) as Hdd2. change (4096 * 64) with 262144 in Hdd2.
    pose proof (Z.div_mod (c / 64) 64 ltac:(lia)). pose proof (Z.mod_pos_bound (c / 64) 64 ltac:(lia)).
    pose proof (Z.div_mod (c / 4096) 64 ltac:(lia)). pose proof (Z.mod_pos_bound (c / 4096) 64 ltac:(lia)).
    rewrite Hdd in *. rewrite Hdd2 in *.
    set (q := c / 64) in *. set (p := c / 4096) in *. set (o := c / 262144) in *.
    assert (0 <= o < 5) by lia.
    rewrite (decode_lead _ 3 o (if o =? 0 then 0x90 else 0x80) (if o =? 4 then 0x8f else 0xbf)); [|lia|].
    2: { unfold dec_first. rewrite (proj2 (Z.ltb_ge _ _)) by lia.
         rewrite (proj2 (Z.leb_gt (0xf0 + o) 0xdf)), (proj2 (Z.leb_gt (0xf0 + o) 0xef)), !andb_false_r,
           !(proj2 (Z.leb_le _ _)) by lia. cbn [andb].
         replace (0xf0 + o =? 0xf0) with (o =? 0) by lia. replace (0xf0 + o =? 0xf4) with (o =? 4) by lia.
         do 2 f_equal. lia. }
    rewrite !decode_next, decode_last; [f_equal; lia|lia..|].
    destruct (o =? 0) eqn:Ep, (o =? 4) eqn:Eq; zbool; lia.
Qed.

Lemma decode_code_points cps :
  Forall scalar cps -> utf8_decode_go dec_start (concat (List.map utf8_of_code_point cps)) = cps.
Proof.
  induction 1 as [|c cps Hc _ IH]; [done|]. cbn [List.map concat]. by rewrite decode_code_point, IH.
Qed.

Lemma text_roundtrip s :
  utf16_ok s -> head s <> Some 0xfeff -> text_decode (text_encode s) = s.
Proof.
  intros Hs Hb. destruct (code_points_ok s Hs) as [Hc Hj]. pose proof (code_points_bom s Hs Hb) as Hh.
  unfold text_decode, text_encode. rewrite (decode_code_points _ Hc).
  destruct (code_points s) as [|c cps] eqn:E; [done|].
  destruct (decide (c = 0xfeff)) as [->|Hn]; [done|].
  assert (match c :: cps with 0xfeff :: t => t | _ => c :: cps end = c :: cps) as ->; [|done].
  repeat case_match; simplify_eq; done.
Qed.

(** ** Texts that were cut short *)

(** The code points complete after some bytes, and the state. *)
Fixpoint run (st : dec_state) (bs : bytes) : list Z * dec_state :=
  match bs with
  | [] => ([], st)
  | b :: bs' =>
    let '(out, st') := dec_byte st (byte.unsigned b) in
    let '(out', st'') := run st' bs' in (out ++ out', st'')
  end.

Lemma decode_run a : forall st b, utf8_decode_go st (a ++ b) = (run st a).1 ++ utf8_decode_go (run st a).2 b.
Proof.
  induction a as [|x a IH]; intros st b; [done|]. cbn [app utf8_decode_go run].
  destruct (dec_byte st (byte.unsigned x)) as [out st']. rewrite IH.
  destruct (run st' a) as [out' st'']. cbn. by rewrite app_assoc.
Qed.

Lemma dec_first_waits b : (dec_first b).1 = [] -> needed (dec_first b).2 <> O.
Proof. unfold dec_first. repeat case_match; done. Qed.

Lemma decode_nonempty bs : forall st, bs <> [] \/ needed st <> O -> utf8_decode_go st bs <> [].
Proof.
  induction bs as [|b bs IH]; intros st H; cbn [utf8_decode_go].
  - destruct H as [H|H]; [done|]. by destruct (needed st).
  - destruct (dec_byte st (byte.unsigned b)) as [out st'] eqn:E. intros [-> Hn]%app_nil.
    revert Hn. apply IH. right. unfold dec_byte in E. pose proof (dec_first_waits (byte.unsigned b)) as Hf.
    destruct (needed st) as [|k]; [rewrite E in Hf; by apply Hf|].
    destruct (_ && _); [destruct k; by simplify_eq|]. destruct (dec_first (byte.unsigned b)). by simplify_eq.
Qed.

(** Some of the bytes of a code point, but not all. *)
Lemma decode_partial c a b :
  scalar c -> utf8_of_code_point c = a ++ b -> a <> [] -> b <> [] -> utf8_decode_go dec_start a = [0xfffd].
Proof.
  intros Hc E Ha Hb. pose proof (decode_code_point c [] Hc) as H. rewrite app_nil_r, E, decode_run in H. cbn in H.
  pose proof (decode_nonempty b (run dec_start a).2 (or_introl Hb)) as Hn.
  assert ((run dec_start a).1 = []) as E1.
  { destruct (run dec_start a).1 as [|x l]; [done|]. destruct (utf8_decode_go _ b); [done|]. by destruct l. }
  pose proof (decode_nonempty a dec_start (or_introl Ha)) as Hne. revert Hne.
  assert (utf8_decode_go dec_start a = utf8_decode_go (run dec_start a).2 []) as ->.
  { rewrite <- (app_nil_r a) at 1. by rewrite decode_run, E1. }
  cbn. by destruct (needed (run dec_start a).2).
Qed.

Lemma utf8_nonempty c : utf8_of_code_point c <> [].
Proof. unfold utf8_of_code_point. repeat case_match; done. Qed.

Lemma decode_cut cps : Forall scalar cps -> forall n,
  (n < length (concat (List.map utf8_of_code_point cps)))%nat ->
  exists k, (k < length cps)%nat
    /\ (utf8_decode_go dec_start (take n (concat (List.map utf8_of_code_point cps))) = take k cps
        \/ utf8_decode_go dec_start (take n (concat (List.map utf8_of_code_point cps))) = take k cps ++ [0xfffd]).
Proof.
  induction 1 as [|c cps Hc _ IH]; intros n Hn; [cbn in Hn; lia|]. cbn [List.map concat] in *.
  set (u := utf8_of_code_point c) in *. rewrite length_app in Hn. rewrite take_app.
  destruct (decide (n < length u)%nat) as [Hlt|Hge].
  - replace (n - length u)%nat with O by lia. rewrite take_0, app_nil_r. exists O. split; [cbn; lia|]. destruct n as [|n]; [by left|right].
    apply (decode_partial c _ (drop (S n) u) Hc).
    + by rewrite take_drop.
    + intros E. apply (f_equal length) in E. rewrite length_take in E. cbn [length] in E. lia.
    + intros E. apply (f_equal length) in E. rewrite length_drop in E. cbn [length] in E. lia.
  - rewrite (take_ge u) by lia. destruct (IH (n - length u)%nat ltac:(lia)) as (k & Hk & Hd).
    exists (S k). split; [cbn; lia|]. unfold u. rewrite decode_code_point by done. cbn [take app]. fold u.
    destruct Hd as [->| ->]; [by left|by right].
Qed.

(** A text whose bytes are cut short is read as a proper beginning of it,
    possibly with a replacement character. *)
Lemma read_cut s n :
  utf16_ok s -> (n < length (text_encode s))%nat ->
  exists p t, s = p ++ t /\ t <> []
    /\ (utf8_to_string (take n (text_encode s)) = p \/ utf8_to_string (take n (text_encode s)) = p ++ [0xfffd]).
Proof.
  intros Hs Hn. destruct (code_points_ok s Hs) as [Hc Hj]. unfold text_encode in *.
  destruct (decode_cut _ Hc n Hn) as (k & Hk & Hd). set (cps := code_points s) in *.
  exists (concat (List.map utf16_of_code_point (take k cps))), (concat (List.map utf16_of_code_point (drop k cps))).
  split; [by rewrite <- concat_app, <- List.map_app, take_drop|]. split.
  - destruct (drop k cps) as [|c l] eqn:E; [apply (f_equal length) in E; rewrite length_drop in E; cbn in E; lia|].
    cbn. unfold utf16_of_code_point at 1. by destruct (c <? _).
  - unfold utf8_to_string. destruct Hd as [->| ->]; [by left|right]. by rewrite List.map_app, concat_app.
Qed.

Lemma read_whole s : utf16_ok s -> utf8_to_string (text_encode s) = s.
Proof.
  intros Hs. destruct (code_points_ok s Hs) as [Hc Hj]. unfold utf8_to_string, text_encode. by rewrite decode_code_points.
Qed.

End Utf8.
