(* ===== verification/Collections.v ===== *)
(** * JavaScript collections

    [Array.prototype.sort], [Set] and objects used as dictionaries, as the
    worker and the faucet use them, with their laws. *)

From Stdlib Require Import String Sorting.Sorted.
From S2P Require Import Prelude JsText.

(** ** [Array.prototype.sort] with a comparator

    The language requires a stable sort.  A stable order for a consistent
    comparator is unique, so insertion sort gives the array the engine gives. *)
Module Sort.
Section WithComparator.
Context {A : Type} (cmp : A -> A -> Z).

Fixpoint insert (x : A) (l : list A) : list A :=
  match l with
  | [] => [x]
  | y :: l' => if cmp x y <=? 0 then x :: l else y :: insert x l'
  end.

Definition js_sort (l : list A) : list A := foldr insert [] l.

Definition before (x y : A) : Prop := cmp x y <= 0.

Lemma insert_perm x l : insert x l ≡ₚ x :: l.
Proof.
  induction l as [|y l IH]; simpl; [done|]. destruct (cmp x y <=? 0); [done|].
  rewrite IH. by apply perm_swap.
Qed.

Lemma sort_perm l : js_sort l ≡ₚ l.
Proof. induction l as [|x l IH]; simpl; [done|]. by rewrite insert_perm, IH. Qed.

Lemma sort_elem_of x l : x ∈ js_sort l <-> x ∈ l.
Proof. by rewrite sort_perm. Qed.

(** A class of pairwise equal elements keeps its order. *)
Lemma insert_filter (P : A -> bool) x l :
  (forall a b, P a = true -> P b = true -> cmp a b <= 0) ->
  List.filter P (insert x l) = List.filter P (x :: l).
Proof.
  intros HP. induction l as [|y l IH]; [done|]. cbn [insert].
  destruct (cmp x y <=? 0) eqn:E; [done|]. zbool. cbn [List.filter] in *. rewrite IH.
  destruct (P x) eqn:Ex, (P y) eqn:Ey; try done. specialize (HP x y Ex Ey). lia.
Qed.

Lemma sort_stable (P : A -> bool) l :
  (forall a b, P a = true -> P b = true -> cmp a b <= 0) ->
  List.filter P (js_sort l) = List.filter P l.
Proof.
  intros HP. induction l as [|x l IH]; [done|]. cbn [js_sort foldr].
  rewrite insert_filter by done. cbn [List.filter]. fold (js_sort l). by rewrite IH.
Qed.

(** The comparator need only be consistent on the elements at hand. *)
Section Sorted.
Variable D : A -> Prop.
Hypothesis cmp_total : forall x y, D x -> D y -> cmp x y <= 0 \/ cmp y x <= 0.
Hypothesis cmp_trans : forall x y z, D x -> D y -> D z -> cmp x y <= 0 -> cmp y z <= 0 -> cmp x z <= 0.

Lemma insert_sorted x l : D x -> Forall D l -> StronglySorted before l -> StronglySorted before (insert x l).
Proof.
  intros Hx Hd. induction 1 as [|y l Hl IH Hy]; simpl; [by repeat constructor|].
  apply Forall_cons_1 in Hd as [Hdy Hd].
  destruct (cmp x y <=? 0) eqn:E; zbool.
  - constructor; [by constructor|]. constructor; [done|].
    rewrite Forall_forall in Hy, Hd |- *. intros z Hz. unfold before. apply (cmp_trans x y z); auto.
    by apply Hy.
  - constructor; [by apply IH|]. apply Forall_forall. intros z Hz'. rewrite insert_perm in Hz'.
    apply elem_of_cons in Hz' as [->|Hz']; [destruct (cmp_total x y); [done..|lia|done]|].
    by apply (proj1 (Forall_forall _ _) Hy).
Qed.

Lemma sort_sorted l : Forall D l -> StronglySorted before (js_sort l).
Proof.
  induction 1 as [|x l Hx Hl IH]; simpl; [constructor|]. apply insert_sorted; [done| |done].
  fold (js_sort l). by rewrite sort_perm.
Qed.

End Sorted.

(** A prefix of the sorted array is before all that is left out. *)
Lemma sorted_prefix l : StronglySorted before l ->
  forall n x y, x ∈ take n l -> y ∈ drop n l -> cmp x y <= 0.
Proof.
  induction 1 as [|z l Hl IH Hz]; intros n x y Hx Hy; [rewrite take_nil in Hx; by apply elem_of_nil in Hx|].
  destruct n as [|n]; [by apply elem_of_nil in Hx|]. cbn [take drop] in *.
  apply elem_of_cons in Hx as [->|Hx]; [|by eapply IH].
  apply (proj1 (Forall_forall _ _) Hz). rewrite <- (take_drop n l). set_solver.
Qed.

End WithComparator.
End Sort.

(** ** Sets

    A [Set] in the order of insertion. *)
Module JsSet.
Definition add (s : list jsstr) (x : jsstr) : list jsstr :=
  if bool_decide (x ∈ s) then s else s ++ [x].

Definition add_all (s l : list jsstr) : list jsstr := foldl add s l.

Lemma add_elem_of s x y : y ∈ add s x <-> y ∈ s \/ y = x.
Proof. unfold add. case_bool_decide; set_solver. Qed.

Lemma add_NoDup s x : NoDup s -> NoDup (add s x).
Proof.
  intros Hs. unfold add. case_bool_decide; [done|]. apply NoDup_app. split; [done|].
  split; [set_solver|apply NoDup_singleton].
Qed.

Lemma add_all_elem_of l : forall s y, y ∈ add_all s l <-> y ∈ s \/ y ∈ l.
Proof.
  induction l as [|x l IH]; intros s y; cbn; [set_solver|]. rewrite IH, add_elem_of. set_solver.
Qed.

Lemma add_all_NoDup l : forall s, NoDup s -> NoDup (add_all s l).
Proof. induction l as [|x l IH]; intros s Hs; cbn; [done|]. by apply IH, add_NoDup. Qed.
End JsSet.

(** ** Objects used as dictionaries

    Own enumerable properties in the order [Object.entries] lists them: array
    indices first, in ascending order, then the other keys as inserted. *)
Module Obj.
Abbreviation obj V := (list (jsstr * V)).

Section WithValue.
Context {V : Type}.

(** The canonical array indices. *)
Definition array_index (k : jsstr) : option Z :=
  match span_digits 10 k with
  | (d :: ds, []) =>
    let v := digits_value 10 (d :: ds) in
    if (v <? 2 ^ 32 - 1) && bool_decide (to_string 10 v = k) then Some v else None
  | _ => None
  end.

Fixpoint get (o : obj V) (k : jsstr) : option V :=
  match o with
  | [] => None
  | (k', v) :: o' => if bool_decide (k = k') then Some v else get o' k
  end.

Definition keys (o : obj V) : list jsstr := List.map fst o.
Definition values (o : obj V) : list V := List.map snd o.

Definition replace (o : obj V) (k : jsstr) (v : V) : obj V :=
  List.map (fun kv => if bool_decide (kv.1 = k) then (k, v) else kv) o.

Fixpoint place (o : obj V) (i : Z) (k : jsstr) (v : V) : obj V :=
  match o with
  | [] => [(k, v)]
  | (k', v') :: o' =>
    match array_index k' with
    | Some j => if j <? i then (k', v') :: place o' i k v else (k, v) :: o
    | None => (k, v) :: o
    end
  end.

(** [o[k] = v] *)
Definition set (o : obj V) (k : jsstr) (v : V) : obj V :=
  match get o k with
  | Some _ => replace o k v
  | None =>
    match array_index k with
    | Some i => place o i k v
    | None => o ++ [(k, v)]
    end
  end.

(** [delete o[k]] *)
Definition remove (o : obj V) (k : jsstr) : obj V :=
  List.filter (fun kv => negb (bool_decide (kv.1 = k))) o.

(** [{ ...o1, ...o2 }] *)
Definition assign (o1 o2 : obj V) : obj V := foldl (fun o kv => set o kv.1 kv.2) o1 o2.

(** ** Laws *)

Definition wf (o : obj V) : Prop := NoDup (keys o).

Lemma get_None o k : get o k = None <-> k ∉ keys o.
Proof.
  induction o as [|[k' v] o IH]; cbn; [set_solver|].
  rewrite not_elem_of_cons, <- IH. case_bool_decide; naive_solver.
Qed.

Lemma get_In o k v : wf o -> get o k = Some v <-> (k, v) ∈ o.
Proof.
  unfold wf. induction o as [|[k' v'] o IH]; cbn; intros Hw; [set_solver|].
  apply NoDup_cons in Hw as [Hk Hw]. rewrite elem_of_cons. case_bool_decide as E.
  - subst k'. split; [naive_solver|]. intros [?|Hin]; [naive_solver|].
    destruct Hk. change k with ((k, v).1). by apply (list_elem_of_fmap_2 fst).
  - rewrite (IH Hw). naive_solver.
Qed.

Lemma get_elem o k v : get o k = Some v -> (k, v) ∈ o.
Proof.
  induction o as [|[k' v'] o IH]; cbn; [done|]. case_bool_decide; set_solver.
Qed.

Lemma keys_replace o k v : keys (replace o k v) = keys o.
Proof.
  unfold keys, replace. rewrite List.map_map. apply List.map_ext. intros [k' v']. cbn.
  by case_bool_decide; subst.
Qed.

Lemma get_replace o k v k' :
  get (replace o k v) k' = if bool_decide (k' = k) then (fun _ => v) <$> get o k else get o k'.
Proof.
  induction o as [|[k0 v0] o IH]; cbn; [by case_bool_decide|]. fold (replace o k v).
  destruct (decide (k0 = k)) as [->|N].
  - rewrite (bool_decide_eq_true_2 (k = k)) by done. cbn. case_bool_decide as E; subst; [done|].
    by rewrite IH.
  - rewrite (bool_decide_eq_false_2 (k0 = k)) by done. cbn.
    rewrite (bool_decide_eq_false_2 (k = k0)) by done. case_bool_decide as E; subst.
    + by rewrite bool_decide_eq_false_2.
    + by rewrite IH.
Qed.

Lemma place_perm o i k v : place o i k v ≡ₚ (k, v) :: o.
Proof.
  induction o as [|[k' v'] o IH]; cbn; [done|]. destruct (array_index k') as [j|]; [|done].
  destruct (j <? i); [|done]. rewrite IH. apply perm_swap.
Qed.

Lemma set_new_perm o k v : get o k = None -> set o k v ≡ₚ (k, v) :: o.
Proof.
  intros E. unfold set. rewrite E. destruct (array_index k); [apply place_perm|].
  by rewrite (comm app).
Qed.

Lemma set_wf o k v : wf o -> wf (set o k v).
Proof.
  intros Hw. unfold wf. destruct (get o k) as [v'|] eqn:E.
  - unfold set. by rewrite E, keys_replace.
  - assert (keys (set o k v) ≡ₚ k :: keys o) as -> by (unfold keys; by rewrite (set_new_perm _ _ _ E)).
    apply NoDup_cons. split; [by apply get_None|done].
Qed.

Lemma keys_set o k v k' : k' ∈ keys (set o k v) <-> k' = k \/ k' ∈ keys o.
Proof.
  destruct (get o k) as [v'|] eqn:E.
  - unfold set. rewrite E, keys_replace. split; [auto|]. intros [->|?]; [|done].
    destruct (decide (k ∈ keys o)) as [|N]; [done|]. apply get_None in N. congruence.
  - assert (keys (set o k v) ≡ₚ k :: keys o) as -> by (unfold keys; by rewrite (set_new_perm _ _ _ E)).
    by rewrite elem_of_cons.
Qed.

Lemma get_app o1 o2 k : get (o1 ++ o2) k = match get o1 k with Some v => Some v | None => get o2 k end.
Proof. induction o1 as [|[k' v'] o1 IH]; cbn; [done|]. by case_bool_decide. Qed.

Lemma get_place o i k v k' :
  get o k = None -> get (place o i k v) k' = if bool_decide (k' = k) then Some v else get o k'.
Proof.
  induction o as [|[k0 v0] o IH]; cbn; intros E; [by case_bool_decide|].
  destruct (array_index k0) as [j|]; [|done]. destruct (j <? i); [|done]. cbn.
  destruct (decide (k = k0)) as [->|N]; [by rewrite bool_decide_eq_true_2 in E|].
  rewrite (bool_decide_eq_false_2 (k = k0)) in E by done. rewrite (IH E).
  destruct (decide (k' = k0)) as [->|N0]; [rewrite !bool_decide_eq_true_2, ?bool_decide_eq_false_2 by done|];
  [done|by rewrite !(bool_decide_eq_false_2 (k' = k0))].
Qed.

Lemma get_set o k v k' : get (set o k v) k' = if bool_decide (k' = k) then Some v else get o k'.
Proof.
  unfold set. destruct (get o k) as [v0|] eqn:E.
  - rewrite get_replace, E. done.
  - destruct (array_index k); [by apply get_place|]. rewrite get_app. cbn.
    destruct (decide (k' = k)) as [->|N]; [by rewrite E, !bool_decide_eq_true_2|].
    rewrite !bool_decide_eq_false_2 by done. by destruct (get o k').
Qed.

Lemma get_set_eq o k v : get (set o k v) k = Some v.
Proof. by rewrite get_set, bool_decide_eq_true_2. Qed.

Lemma get_set_ne o k v k' : k' <> k -> get (set o k v) k' = get o k'.
Proof. intros. by rewrite get_set, bool_decide_eq_false_2. Qed.

Lemma get_remove o k k' : get (remove o k) k' = if bool_decide (k' = k) then None else get o k'.
Proof.
  induction o as [|[k0 v0] o IH]; cbn; [by case_bool_decide|]. fold (remove o k).
  repeat case_bool_decide; subst; cbn; rewrite ?IH; repeat case_bool_decide; by subst.
Qed.

Lemma remove_wf o k : wf o -> wf (remove o k).
Proof.
  unfold wf, keys, remove. induction o as [|[k0 v0] o IH]; cbn; intros Hw; [done|].
  apply NoDup_cons in Hw as [Hk Hw]. case_bool_decide; cbn; [auto|]. apply NoDup_cons. split; [|auto].
  intros Hin. apply Hk. apply list_elem_of_fmap in Hin as ([k1 v1] & -> & Hin).
  apply list_elem_of_fmap. exists (k1, v1). split; [done|].
  apply list_elem_of_In. apply list_elem_of_In in Hin. apply List.filter_In in Hin. by destruct Hin.
Qed.

Lemma assign_wf o2 : forall o1, wf o1 -> wf (assign o1 o2).
Proof. induction o2 as [|[k v] o2 IH]; intros o1 H; cbn; [done|]. by apply IH, set_wf. Qed.

(** Later properties win. *)
Lemma get_assign o2 k : forall o1, wf o2 ->
  get (assign o1 o2) k = match get o2 k with Some v => Some v | None => get o1 k end.
Proof.
  induction o2 as [|[k0 v0] o2 IH]; intros o1 Hw; cbn; [done|].
  apply NoDup_cons in Hw as [Hk Hw]. rewrite IH by done. rewrite get_set. case_bool_decide; subst; [|done].
  assert (get o2 k0 = None) as -> by (by apply get_None). done.
Qed.

(** ** The order of the properties *)

Definition key_before (k k' : jsstr) : Prop :=
  match array_index k, array_index k' with
  | Some i, Some j => i < j
  | None, Some _ => False
  | _, None => True
  end.

(** As [Object.entries] can list an object. *)
Definition canonical (o : obj V) : Prop := wf o /\ StronglySorted key_before (keys o).

Lemma key_before_trans k1 k2 k3 : key_before k1 k2 -> key_before k2 k3 -> key_before k1 k3.
Proof. unfold key_before. destruct (array_index k1), (array_index k2), (array_index k3); (done || lia). Qed.

Lemma array_index_inj k k' i : array_index k = Some i -> array_index k' = Some i -> k = k'.
Proof.
  unfold array_index. intros H H'. destruct (span_digits 10 k) as [[|d ds] []]; try done.
  destruct (span_digits 10 k') as [[|d' ds'] []]; try done. revert H H'.
  destruct (_ && _) eqn:E; [|done]. destruct (_ && bool_decide (_ = k')) eqn:E'; [|done]. intros. simplify_eq.
  apply andb_true_iff in E as [_ E], E' as [_ E']. apply bool_decide_eq_true_1 in E, E'. congruence.
Qed.

Lemma place_sorted o i k v :
  array_index k = Some i -> k ∉ keys o -> StronglySorted key_before (keys o) ->
  StronglySorted key_before (keys (place o i k v)).
Proof.
  intros Ei. induction o as [|[k' v'] o IH]; intros Hk Hs; [by repeat constructor|]. cbn [place keys List.map fst] in *.
  apply not_elem_of_cons in Hk as [Hne Hk]. inversion Hs as [|? ? Hs' Hf]; subst.
  assert (key_before k k' -> StronglySorted key_before (k :: k' :: List.map fst o)) as Hfirst.
  { intros Hb. constructor; [done|]. constructor; [done|]. eapply Forall_impl; [exact Hf|].
    intros k2 H2. by eapply key_before_trans. }
  destruct (array_index k') as [j|] eqn:Ej.
  - destruct (j <? i) eqn:El; zbool.
    + constructor; [by apply IH|]. change (List.map fst (place o i k v)) with (keys (place o i k v)).
      assert (keys (place o i k v) ≡ₚ k :: keys o) as -> by (unfold keys; by rewrite place_perm).
      constructor; [|done]. change (key_before k' k). unfold key_before. by rewrite Ej, Ei.
    + apply Hfirst. unfold key_before. rewrite Ei, Ej. destruct (decide (i = j)) as [->|]; [|lia].
      destruct Hne. by eapply array_index_inj.
  - apply Hfirst. unfold key_before. by rewrite Ei, Ej.
Qed.

Lemma sorted_snoc l k : StronglySorted key_before l -> Forall (fun k' => key_before k' k) l ->
  StronglySorted key_before (l ++ [k]).
Proof.
  induction 1 as [|k' l _ IH Hf]; intros Hk; [by repeat constructor|]. apply Forall_cons_1 in Hk as [H1 H2].
  constructor; [by apply IH|]. apply Forall_app. split; [done|by repeat constructor].
Qed.

Lemma set_canonical o k v : canonical o -> canonical (set o k v).
Proof.
  intros [Hw Hs]. split; [by apply set_wf|]. unfold set. destruct (get o k) as [v'|] eqn:E; [by rewrite keys_replace|].
  apply get_None in E. destruct (array_index k) as [i|] eqn:Ei; [by apply place_sorted|].
  unfold keys. rewrite List.map_app. apply sorted_snoc; [done|]. apply Forall_forall. intros k' _.
  change (key_before k' k). unfold key_before. rewrite Ei. by destruct (array_index k').
Qed.

Lemma filter_keys_sorted (P : jsstr * V -> bool) o :
  StronglySorted key_before (keys o) -> StronglySorted key_before (keys (List.filter P o)).
Proof.
  unfold keys. induction o as [|kv o IH]; cbn; intros Hs; [done|]. inversion Hs as [|? ? Hs' Hf]; subst.
  destruct (P kv); [|by apply IH]. cbn. constructor; [by apply IH|]. rewrite Forall_forall in *.
  intros k (kv' & -> & Hin)%list_elem_of_fmap. apply Hf, list_elem_of_fmap. exists kv'. split; [done|].
  apply list_elem_of_In in Hin. apply List.filter_In in Hin as [Hin _]. by apply list_elem_of_In.
Qed.

Lemma remove_canonical o k : canonical o -> canonical (remove o k).
Proof. intros [Hw Hs]. split; [by apply remove_wf|by apply filter_keys_sorted]. Qed.

(** Reading the properties in their order gives the object back. *)
Lemma place_last o i k v :
  Forall (fun k' => key_before k' k) (keys o) -> array_index k = Some i -> place o i k v = o ++ [(k, v)].
Proof.
  intros Hf Ei. induction o as [|[k' v'] o IH]; [done|]. cbn [place app keys List.map fst] in Hf |- *. apply Forall_cons_1 in Hf as [Hk Hf].
  unfold key_before in Hk. rewrite Ei in Hk. destruct (array_index k') as [j|]; [|done].
  rewrite (proj2 (Z.ltb_lt j i)) by done. by rewrite IH.
Qed.

Lemma assign_app o2 : forall o1, canonical (o1 ++ o2) -> assign o1 o2 = o1 ++ o2.
Proof.
  induction o2 as [|[k v] o2 IH]; intros o1 Hc; cbn [assign foldl]; [by rewrite app_nil_r|].
  pose proof Hc as [Hw Hs]. unfold wf, keys in *. rewrite List.map_app in Hw, Hs. cbn in Hw, Hs.
  assert (k ∉ keys o1) as Hk.
  { apply NoDup_app in Hw as (_ & Hd & _). intros Hin. apply (Hd k Hin). left. }
  assert (Forall (fun k' => key_before k' k) (keys o1)) as Hf.
  { clear -Hs. change (List.map fst o1) with (keys o1) in Hs. induction (keys o1) as [|k' l IH]; [constructor|].
    inversion Hs as [|? ? Hs' Hf]; subst. apply Forall_app in Hf as [_ [Hf _]%Forall_cons_1]. constructor; [done|by apply IH]. }
  assert (set o1 k v = o1 ++ [(k, v)]) as E.
  { unfold set. rewrite (proj2 (get_None o1 k) Hk). destruct (array_index k) as [i|] eqn:Ei; [by apply place_last|done]. }
  change (assign (set o1 k v) o2 = o1 ++ (k, v) :: o2). rewrite E.
  change ((k, v) :: o2) with ([(k, v)] ++ o2) in Hc |- *. rewrite app_assoc in Hc |- *. by apply IH.
Qed.

Lemma assign_canonical o : canonical o -> assign [] o = o.
Proof. apply (assign_app o []). Qed.

Lemma assign_keeps_canonical o2 : forall o1, canonical o1 -> canonical (assign o1 o2).
Proof. induction o2 as [|[k v] o2 IH]; intros o1 H; cbn; [done|]. by apply IH, set_canonical. Qed.

Lemma nil_canonical : canonical [].
Proof. split; constructor. Qed.

End WithValue.
End Obj.
