(* ===== verification/Json.v ===== *)
(** * JSON texts

    [JSON.stringify], without and with an indentation, and [JSON.parse]: what the
    worker does to the values it keeps in the key-value store, and the faucet to
    its file.  Parsing inverts printing, and a text that was cut short is not
    parsed. *)

From Stdlib Require Import String Sorting.Sorted.
From S2P Require Import Prelude Numbers JsText NumberText Utf8 Collections.
Import NumberText Utf8.

Module Json.

Local Unset Elimination Schemes.

Inductive json :=
  | JNull
  | JBool (b : bool)
  | JNum (x : jsnum)
  | JStr (s : jsstr)
  | JArr (l : list json)
  | JObj (o : list (jsstr * json)).

Local Set Elimination Schemes.

Section Induction.
Context (P : json -> Prop) (Hnull : P JNull) (Hbool : forall b, P (JBool b)) (Hnum : forall x, P (JNum x))
  (Hstr : forall s, P (JStr s)) (Harr : forall l, Forall P l -> P (JArr l))
  (Hobj : forall o, Forall (fun kx => P kx.2) o -> P (JObj o)).

Fixpoint json_ind (v : json) : P v :=
  match v with
  | JNull => Hnull
  | JBool b => Hbool b
  | JNum x => Hnum x
  | JStr s => Hstr s
  | JArr l =>
    Harr l ((fix go l : Forall P l :=
               match l with [] => Forall_nil_2 P | x :: l' => Forall_cons_2 P x l' (json_ind x) (go l') end) l)
  | JObj o =>
    Hobj o ((fix go (o : list (jsstr * json)) : Forall (fun kx => P kx.2) o :=
               match o with
               | [] => Forall_nil_2 _
               | kx :: o' => Forall_cons_2 _ kx o' (json_ind kx.2) (go o')
               end) o)
  end.

End Induction.

(** ** [JSON.stringify(v, null, gap)] *)

(** The escape with a backslash, u and four hexadecimal digits. *)
Definition u_escape (c : Z) : jsstr := 92 :: 117 :: pad_start 4 (to_string 16 c).

Definition quote_unit (c : Z) : jsstr :=
  if c =? 8 then jss "\b" else if c =? 9 then jss "\t" else if c =? 10 then jss "\n"
  else if c =? 12 then jss "\f" else if c =? 13 then jss "\r"
  else if (c =? 34) || (c =? 92) then [92; c]
  else if c <? 32 then u_escape c else [c].

Definition is_lead (c : Z) : bool := (0xd800 <=? c) && (c <=? 0xdbff).
Definition is_trail (c : Z) : bool := (0xdc00 <=? c) && (c <=? 0xdfff).

(** Surrogates that are not paired are escaped. *)
Fixpoint quote_units (s : jsstr) : jsstr :=
  match s with
  | [] => []
  | c :: s' =>
    if is_lead c then
      match s' with
      | d :: s'' => if is_trail d then c :: d :: quote_units s'' else u_escape c ++ quote_units s'
      | [] => u_escape c
      end
    else if is_trail c then u_escape c ++ quote_units s'
    else quote_unit c ++ quote_units s'
  end.

Definition quote (s : jsstr) : jsstr := 34 :: quote_units s ++ [34].

(** What is written before each part, and before the closing bracket. *)
Definition line (gap indent : jsstr) : jsstr := match gap with [] => [] | _ => 10 :: indent end.

Definition brackets (opening closing : Z) (gap indent : jsstr) (parts : list jsstr) : jsstr :=
  match parts with
  | [] => [opening; closing]
  | _ =>
    let sep := line gap (indent ++ gap) in
    opening :: sep ++ js_join parts (44 :: sep) ++ line gap indent ++ [closing]
  end.

Definition colon (gap : jsstr) : jsstr := match gap with [] => [58] | _ => [58; 32] end.

Fixpoint serialize (gap indent : jsstr) (v : json) : jsstr :=
  match v with
  | JNull => jss "null"
  | JBool b => if b then jss "true" else jss "false"
  | JNum x => match x with NaN | Infty _ => jss "null" | Dyadic _ _ => number_text x end
  | JStr s => quote s
  | JArr l => brackets 91 93 gap indent (List.map (serialize gap (indent ++ gap)) l)
  | JObj o =>
    brackets 123 125 gap indent
      (List.map (fun '(k, x) => quote k ++ colon gap ++ serialize gap (indent ++ gap) x) o)
  end.

Definition stringify (gap : jsstr) (v : json) : jsstr := serialize gap [] v.

(** ** [JSON.parse] *)

Definition json_ws (c : Z) : bool := (c =? 9) || (c =? 10) || (c =? 13) || (c =? 32).

Fixpoint skip_ws (s : jsstr) : jsstr :=
  match s with
  | c :: s' => if json_ws c then skip_ws s' else s
  | [] => []
  end.

(** A character after a backslash. *)
Definition unescape (c : Z) : option Z :=
  if (c =? 34) || (c =? 92) || (c =? 47) then Some c
  else if c =? 98 then Some 8 else if c =? 102 then Some 12 else if c =? 110 then Some 10
  else if c =? 114 then Some 13 else if c =? 116 then Some 9 else None.

Definition hex4 (a b c d : Z) : option Z :=
  match span_digits 16 [a; b; c; d] with
  | (ds, []) => Some (digits_value 16 ds)
  | _ => None
  end.

(** The rest of a string literal, after its first quotation mark. *)
Fixpoint parse_units (s : jsstr) : option (jsstr * jsstr) :=
  match s with
  | [] => None
  | c :: r =>
    if c =? 34 then Some ([], r)
    else if c =? 92 then
      match r with
      | [] => None
      | e :: r1 =>
        if e =? 117 then
          match r1 with
          | h1 :: h2 :: h3 :: h4 :: r2 =>
            u ← hex4 h1 h2 h3 h4; '(us, rest) ← parse_units r2; Some (u :: us, rest)
          | _ => None
          end
        else u ← unescape e; '(us, rest) ← parse_units r1; Some (u :: us, rest)
      end
    else if c <? 32 then None
    else '(us, rest) ← parse_units r; Some (c :: us, rest)
  end.

(** A number: the integer part has no needless zero; a fraction and an exponent
    have digits. *)
Definition parse_integer (s : jsstr) : option (list Z * jsstr) :=
  match s with
  | [] => None
  | c :: t =>
    if c =? 48 then Some ([0], t)
    else match span_digits 10 s with ([], _) => None | (ds, r) => Some (ds, r) end
  end.

Definition parse_fraction (s : jsstr) : option (list Z * jsstr) :=
  match s with
  | [] => Some ([], s)
  | c :: t =>
    if c =? 46 then match span_digits 10 t with ([], _) => None | (ds, r) => Some (ds, r) end
    else Some ([], s)
  end.

(** A minus sign, and a sign of either kind. *)
Definition minus (s : jsstr) : bool * jsstr :=
  match s with [] => (false, s) | c :: t => if c =? 45 then (true, t) else (false, s) end.

Definition sign (s : jsstr) : bool * jsstr :=
  match s with
  | [] => (false, s)
  | c :: t => if c =? 45 then (true, t) else if c =? 43 then (false, t) else (false, s)
  end.

Definition parse_exp (s : jsstr) : option (Z * jsstr) :=
  match s with
  | c :: t =>
    if (c =? 101) || (c =? 69) then
      let '(neg, u) := sign t in
      match span_digits 10 u with
      | ([], _) => None
      | (ds, r) => Some (if neg : bool then - digits_value 10 ds else digits_value 10 ds, r)
      end
    else Some (0, s)
  | [] => Some (0, s)
  end.

Definition parse_number (s : jsstr) : option (jsnum * jsstr) :=
  let '(neg, t) := minus s in
  '(ip, t1) ← parse_integer t;
  '(fp, t2) ← parse_fraction t1;
  '(e, t3) ← parse_exp t2;
  let x := round_decimal (digits_value 10 (ip ++ fp)) (e - len fp) in
  Some (if neg : bool then num_opp x else x, t3).

(** A literal name. *)
Definition parse_name (name s : jsstr) (v : json) : option (json * jsstr) :=
  if is_prefix name s then Some (v, drop (length name) s) else None.

Definition parse_atom (s : jsstr) : option (json * jsstr) :=
  match s with
  | [] => None
  | c :: r =>
    if c =? 34 then '(us, rest) ← parse_units r; Some (JStr us, rest)
    else if c =? 110 then parse_name (jss "null") s JNull
    else if c =? 116 then parse_name (jss "true") s (JBool true)
    else if c =? 102 then parse_name (jss "false") s (JBool false)
    else '(x, rest) ← parse_number s; Some (JNum x, rest)
  end.

(** The next character that is not white space. *)
Definition next (s : jsstr) : option (Z * jsstr) :=
  match skip_ws s with [] => None | c :: r => Some (c, r) end.

(** A later member of an object replaces an earlier one of the same name. *)
Fixpoint parse_value (fuel : nat) (s : jsstr) : option (json * jsstr) :=
  match fuel with
  | O => None
  | S f =>
    match skip_ws s with
    | [] => None
    | c :: r =>
      if c =? 91 then
        '(c1, r1) ← next r;
        if c1 =? 93 then Some (JArr [], r1) else '(l, rest) ← parse_elements f r; Some (JArr l, rest)
      else if c =? 123 then
        '(c1, r1) ← next r;
        if c1 =? 125 then Some (JObj [], r1)
        else '(o, rest) ← parse_members f r; Some (JObj (Obj.assign [] o), rest)
      else parse_atom (c :: r)
    end
  end
with parse_elements (fuel : nat) (s : jsstr) : option (list json * jsstr) :=
  match fuel with
  | O => None
  | S f =>
    '(v, r) ← parse_value f s;
    '(c, r1) ← next r;
    if c =? 44 then '(l, rest) ← parse_elements f r1; Some (v :: l, rest)
    else if c =? 93 then Some ([v], r1) else None
  end
with parse_members (fuel : nat) (s : jsstr) : option (list (jsstr * json) * jsstr) :=
  match fuel with
  | O => None
  | S f =>
    '(c0, r0) ← next s;
    if c0 =? 34 then
      '(k, r1) ← parse_units r0;
      '(c1, r2) ← next r1;
      if c1 =? 58 then
        '(v, r) ← parse_value f r2;
        '(c, r3) ← next r;
        if c =? 44 then '(o, rest) ← parse_members f r3; Some ((k, v) :: o, rest)
        else if c =? 125 then Some ([(k, v)], r3) else None
      else None
    else None
  end.

(** Two steps for each character are enough. *)
Definition fuel_for (s : jsstr) : nat := S (S (2 * length s)).

Definition json_parse (s : jsstr) : option json :=
  '(v, r) ← parse_value (fuel_for s) s;
  match skip_ws r with [] => Some v | _ => None end.

Example json_examples :
  let v := JObj [(jss "a", JArr [JNum (num 1); JNull; JBool true]); (jss "b c", JStr [34; 10; 0xd83d; 0xde00; 0xd800]);
                 (jss "e", JObj []); (jss "lat", JNum (round_decimal (5252) (-2)))] in
  json_parse (stringify [] v) = Some v /\ json_parse (stringify (jss "  ") v) = Some v
  /\ json_parse (take 50 (stringify [] v)) = None
  /\ json_parse (jss "01") = None /\ json_parse (jss " [1.5e1 , -0] ") = Some (JArr [JNum (num 15); JNum (num 0)]).
Proof. split_and!; vm_compute; reflexivity. Qed.

Ltac obind := cbn [mbind option_bind].

(** ** Lemmas: numbers *)

(** A finite double, as arithmetic gives it. *)
Definition finite_double (x : jsnum) : Prop :=
  x = Dyadic 0 0 \/ exists m e, is_double m e /\ (x = Dyadic m e \/ x = Dyadic (- m) e).

Lemma num_exact z : safe z -> finite_double (num z) /\ integer_of (num z) = Some z.
Proof.
  intros Hz.
  assert (forall a, 0 < a < 2 ^ 53 -> exists m e, num a = Dyadic m e /\ is_double m e /\ integer_of (Dyadic m e) = Some a
            /\ integer_of (Dyadic (- m) e) = Some (- a)) as Hp.
  { intros a Ha. eexists _, _. assert (Z.log2 a <= 52) as Hl by (apply Z.lt_succ_r, Z.log2_lt_pow2; lia).
    pose proof (round_int a 1 Ha ltac:(lia)) as E. rewrite Z.mul_1_r in E.
    assert (num a = round_ratio a 1) as -> by (unfold num, round_signed; by rewrite (proj2 (Z.ltb_ge a 0)) by lia).
    split; [exact E|]. split; [by apply int_is_double|]. unfold integer_of.
    replace (- (Z.log2 a - 52)) with (52 - Z.log2 a) by lia.
    pose proof (Z.pow_pos_nonneg 2 (52 - Z.log2 a) ltac:(lia) ltac:(lia)) as Hpow.
    destruct (0 <=? Z.log2 a - 52) eqn:Ee; zbool.
    - replace (Z.log2 a - 52) with 0 by lia. replace (52 - Z.log2 a) with 0 by lia. rewrite !Z.pow_0_r. split; f_equal; lia.
    - rewrite <- Z.mul_opp_l, !Z.mod_mul, !Z.div_mul by lia. done. }
  unfold safe in Hz. destruct (Z.lt_trichotomy z 0) as [H|[->|H]].
  - destruct (Hp (- z) ltac:(lia)) as (m & e & E & Hd & _ & Hi).
    assert (num z = Dyadic (- m) e) as ->.
    { unfold num, round_signed in *. rewrite (proj2 (Z.ltb_lt z 0)) by lia. rewrite (proj2 (Z.ltb_ge (- z) 0)) in E by lia. by rewrite E. }
    split; [right; eauto|]. by rewrite Hi, Z.opp_involutive.
  - split; [by left|done].
  - destruct (Hp z ltac:(lia)) as (m & e & -> & Hd & Hi & _). split; [right; eauto|done].
Qed.

(** The text does not go on with a part of a number. *)
Definition stops (s : jsstr) : Prop :=
  match s with [] => True | c :: _ => ~ 48 <= c <= 57 /\ c <> 46 /\ c <> 101 /\ c <> 69 end.

Definition no_digit (s : jsstr) : Prop := match s with [] => True | c :: _ => ~ 48 <= c <= 57 end.

Lemma stops_no_digit s : stops s -> no_digit s.
Proof. destruct s; [done|]. by intros [? _]. Qed.

Lemma span_no_digit s : no_digit s -> span_digits 10 s = ([], s).
Proof.
  destruct s as [|c s]; [done|]. cbn [no_digit span_digits]. intros Hc. unfold digit_val.
  destruct ((48 <=? c) && (c <=? 57)) eqn:E1; [lia|].
  destruct ((97 <=? c) && (c <=? 122)) eqn:E2; [by rewrite (proj2 (Z.ltb_ge (c - 87) 10)) by lia|].
  destruct ((65 <=? c) && (c <=? 90)) eqn:E3; [by rewrite (proj2 (Z.ltb_ge (c - 55) 10)) by lia|done].
Qed.

Definition decimals : list Z -> Prop := Forall (digit_in 10).

Lemma span_decimals ds rest :
  decimals ds -> no_digit rest -> span_digits 10 (List.map digit_char ds ++ rest) = (ds, rest).
Proof.
  intros Hd Hr. induction Hd as [|d ds Hd _ IH]; [by apply span_no_digit|]. unfold digit_in in Hd.
  cbn [List.map app span_digits]. rewrite digit_val_char, (proj2 (Z.ltb_lt d 10)) by lia. by rewrite IH.
Qed.

Lemma decimal_char d : 0 <= d < 10 -> digit_char d = 48 + d.
Proof. intros. unfold digit_char. by rewrite (proj2 (Z.ltb_lt d 10)) by lia. Qed.

Lemma parse_integer_digits d ds rest :
  0 < d < 10 -> decimals ds -> no_digit rest ->
  parse_integer (List.map digit_char (d :: ds) ++ rest) = Some (d :: ds, rest).
Proof.
  intros Hd Hds Hr. pose proof (span_decimals (d :: ds) rest) as E. cbn [List.map app parse_integer] in *.
  rewrite E by (done || (constructor; [unfold digit_in; lia|done])).
  by rewrite decimal_char, (proj2 (Z.eqb_neq _ _)) by lia.
Qed.

Lemma parse_fraction_none rest : stops rest -> parse_fraction rest = Some ([], rest).
Proof. destruct rest as [|c rest]; [done|]. intros (_ & H & _). cbn. by rewrite (proj2 (Z.eqb_neq _ _)). Qed.

Lemma parse_fraction_digits ds rest :
  ds <> [] -> decimals ds -> no_digit rest -> parse_fraction (46 :: List.map digit_char ds ++ rest) = Some (ds, rest).
Proof. intros Hne Hd Hr. cbn. rewrite span_decimals by done. by destruct ds. Qed.

Lemma parse_exp_none rest : stops rest -> parse_exp rest = Some (0, rest).
Proof. destruct rest as [|c rest]; [done|]. intros (_ & _ & H1 & H2). cbn. by rewrite !(proj2 (Z.eqb_neq _ _)). Qed.

Lemma parse_exp_text e rest : stops rest -> parse_exp (exponent_text e ++ rest) = Some (e, rest).
Proof.
  intros Hr%stops_no_digit. unfold exponent_text.
  assert (forall z, 0 <= z -> exists ds, to_string 10 z = List.map digit_char ds /\ digits_value 10 ds = z
            /\ decimals ds /\ ds <> []) as Hz by (intros; apply to_string_spec; lia).
  destruct (e <? 0) eqn:E; zbool.
  - destruct (Hz (- e)) as ([|d ds] & -> & Ev & Hd & Hne); [lia|done|]. cbn [app parse_exp Z.eqb orb].
    cbn [sign Z.eqb Pos.eqb]. rewrite (span_decimals (d :: ds)) by done. rewrite Ev. do 2 f_equal. lia.
  - destruct (Hz e) as ([|d ds] & -> & Ev & Hd & Hne); [lia|done|]. cbn [app parse_exp Z.eqb orb].
    cbn [sign Z.eqb Pos.eqb]. rewrite (span_decimals (d :: ds)) by done. by rewrite Ev.
Qed.

Lemma zeros_digits n : zeros n = List.map digit_char (replicate (Z.to_nat n) 0).
Proof. unfold zeros. induction (Z.to_nat n) as [|k IH]; cbn; [done|]. by rewrite IH. Qed.

Lemma decimals_zeros n : decimals (replicate n 0).
Proof. by apply Forall_replicate. Qed.

Lemma len_replicate {A} n (x : A) : len (replicate n x) = Z.of_nat n.
Proof. unfold len. by rewrite length_replicate. Qed.

(** How the parts of a number are put together. *)
Definition parts_read (t rest : jsstr) (x : jsnum) : Prop :=
  exists ip t1 fp t2 e, parse_integer t = Some (ip, t1) /\ parse_fraction t1 = Some (fp, t2)
    /\ parse_exp t2 = Some (e, rest) /\ round_decimal (digits_value 10 (ip ++ fp)) (e - len fp) = x.

Lemma exponent_no_digit e rest : no_digit (exponent_text e ++ rest).
Proof. cbn. lia. Qed.

Lemma len_map_digits ds : len (List.map digit_char ds) = len ds.
Proof. unfold len. by rewrite List.length_map. Qed.

Lemma layout_read s p rest : 0 < s -> stops rest -> parts_read (layout s p ++ rest) rest (round_decimal s p).
Proof.
  intros Hs Hr. destruct (decimal_spec s Hs) as (d & ds & E & Hd & Ev & Hds). unfold layout. rewrite E, len_map_digits.
  pose proof Hds as [_ Hds']%Forall_cons_1. pose proof (len_nonneg ds) as Hl. rewrite len_cons. set (n := p + (1 + len ds)).
  pose proof (stops_no_digit _ Hr) as Hr'.
  destruct ((1 + len ds <=? n) && (n <=? 21)) eqn:C1; [|destruct ((0 <? n) && (n <=? 21)) eqn:C2;
    [|destruct ((-6 <? n) && (n <=? 0)) eqn:C3]].
  - zbool. rewrite zeros_digits, <- List.map_app. cbn [app]. eexists _, _, _, _, _. split_and!.
    + apply parse_integer_digits; [done| |done]. apply Forall_app. split; [done|apply decimals_zeros].
    + by apply parse_fraction_none.
    + by apply parse_exp_none.
    + rewrite app_nil_r. change (d :: ds ++ ?l) with ((d :: ds) ++ l).
      rewrite digits_value_app, Ev, zeros_value, Z.add_0_r. change (len (@nil Z)) with 0.
      rewrite len_replicate, Z2Nat.id, round_decimal_shift by lia. f_equal. lia.
  - assert (0 < n < 1 + len ds) as Hn by (apply andb_false_iff in C1; zbool; destruct C1; zbool; lia).
    rewrite List.firstn_map, List.skipn_map. destruct (Z.to_nat n) as [|j] eqn:Ej; [lia|].
    cbn [take drop]. rewrite <- app_assoc. cbn [app]. eexists _, _, _, _, _. split_and!.
    + apply parse_integer_digits; [done|by apply Forall_take|]. cbn. lia.
    + apply parse_fraction_digits; [|by apply Forall_drop|done]. intros H. apply (f_equal length) in H.
      rewrite length_drop in H. unfold len in Hn. cbn in H. lia.
    + by apply parse_exp_none.
    + cbn [app]. rewrite take_drop, Ev. f_equal. unfold len in *. rewrite length_drop. lia.
  - assert (n <= 0) as Hn by (zbool; lia). rewrite zeros_digits, <- List.map_app, <- app_assoc.
    change (jss "0.") with [48; 46]. cbn [app]. eexists _, _, _, _, _. split_and!.
    + reflexivity.
    + apply parse_fraction_digits; [by destruct (replicate _ _)|apply Forall_app; split; [apply decimals_zeros|done]|done].
    + by apply parse_exp_none.
    + rewrite !digits_value_app, zeros_value, Ev. change (digits_value 10 [0]) with 0. f_equal.
      rewrite len_app, len_cons, len_replicate. lia.
  - destruct ds as [|d2 ds].
    + cbn [List.map]. change (digit_char d :: exponent_text (n - 1)) with (List.map digit_char [d] ++ exponent_text (n - 1)).
      rewrite <- app_assoc. eexists _, _, _, _, _. split_and!.
      * apply parse_integer_digits; [done|constructor|apply exponent_no_digit].
      * reflexivity.
      * by apply parse_exp_text.
      * cbn [app]. rewrite Ev. f_equal. unfold n. rewrite !len_nil. lia.
    + cbn [List.map]. change (digit_char d2 :: List.map digit_char ds) with (List.map digit_char (d2 :: ds)).
      cbn [app]. rewrite <- app_assoc.
      match goal with |- parts_read (digit_char d :: ?t) _ _ => change (digit_char d :: t) with (List.map digit_char [d] ++ t) end.
      eexists _, _, _, _, _. split_and!.
      * apply parse_integer_digits; [done|constructor|]. cbn. lia.
      * apply parse_fraction_digits; [done|done|apply exponent_no_digit].
      * by apply parse_exp_text.
      * cbn [app]. rewrite Ev. f_equal. unfold n. lia.
Qed.

Lemma layout_head s p rest : 0 < s -> exists c t, layout s p ++ rest = c :: t /\ 48 <= c <= 57.
Proof.
  intros Hs. destruct (decimal_spec s Hs) as (d & ds & E & Hd & _ & _). unfold layout. rewrite E.
  pose proof (decimal_char d ltac:(lia)) as Hc. cbn [List.map]. set (n := p + len _).
  destruct (_ && (n <=? 21)); [eexists _, _; split; [reflexivity|lia]|].
  destruct ((0 <? n) && (n <=? 21)) eqn:C2.
  { destruct (Z.to_nat n) as [|j] eqn:Ej; [zbool; lia|]. eexists _, _. split; [reflexivity|lia]. }
  destruct (_ && (n <=? 0)); [by eexists _, _|].
  destruct (List.map digit_char ds); eexists _, _; (split; [reflexivity|lia]).
Qed.

Lemma parse_number_text x rest :
  finite_double x -> stops rest -> parse_number (number_text x ++ rest) = Some (x, rest).
Proof.
  intros Hx Hr. destruct Hx as [->|(m & e & Hd & Hx)].
  { change (number_text (Dyadic 0 0) ++ rest) with (48 :: rest). unfold parse_number.
    change (minus (48 :: rest)) with (false, 48 :: rest). obind. change (parse_integer (48 :: rest)) with (Some ([0], rest)).
    obind. rewrite (parse_fraction_none _ Hr). obind. by rewrite (parse_exp_none _ Hr). }
  pose proof (shortest_spec m e Hd) as Hs. pose proof Hd as [[Hm _] _].
  assert (parts_read (positive_text m e ++ rest) rest (Dyadic m e)
          /\ exists c t, positive_text m e ++ rest = c :: t /\ 48 <= c <= 57) as [(ip & t1 & fp & t2 & e' & H1 & H2 & H3 & H4) (c & t & Ec & Hc)].
  { unfold positive_text. destruct (shortest m e) as [s p]. destruct Hs as [Hs <-].
    split; [by apply layout_read|by apply layout_head]. }
  destruct Hx as [-> | ->]; cbn [number_text].
  - rewrite (proj2 (Z.eqb_neq m 0)), (proj2 (Z.ltb_ge m 0)) by lia. unfold parse_number.
    assert (minus (positive_text m e ++ rest) = (false, positive_text m e ++ rest)) as ->.
    { rewrite Ec. cbn. by rewrite (proj2 (Z.eqb_neq c 45)) by lia. }
    rewrite H1. obind. rewrite H2. obind. rewrite H3. obind. by rewrite H4.
  - rewrite (proj2 (Z.eqb_neq (- m) 0)), (proj2 (Z.ltb_lt (- m) 0)), Z.opp_involutive by lia. unfold parse_number.
    cbn [app minus Z.eqb Pos.eqb]. rewrite H1. obind. rewrite H2. obind.
    rewrite H3. obind. by rewrite H4.
Qed.

(** ** Lemmas: strings *)

Definition units : jsstr -> Prop := Forall (fun c => 0 <= c < 65536).

Lemma hex4_escape c :
  0 <= c < 65536 -> exists h1 h2 h3 h4, pad_start 4 (to_string 16 c) = [h1; h2; h3; h4] /\ hex4 h1 h2 h3 h4 = Some c.
Proof.
  intros Hc. destruct (padded_digits 16 4 c ltac:(lia) ltac:(lia) Hc) as (ds & Ep & Hv & Hz & El).
  destruct ds as [|x1 [|x2 [|x3 [|x4 [|x5 xs]]]]]; cbn in El; try lia.
  eexists _, _, _, _. split; [exact Ep|]. unfold hex4.
  pose proof (span_digits_map 16 _ ltac:(lia) Hz) as Es. cbn [List.map] in Es. by rewrite Es, Hv.
Qed.

(** One unit, escaped, is read back. *)
Lemma parse_u_escape c s us rest :
  0 <= c < 65536 -> parse_units s = Some (us, rest) -> parse_units (u_escape c ++ s) = Some (c :: us, rest).
Proof.
  intros Hc Hs. destruct (hex4_escape c Hc) as (h1 & h2 & h3 & h4 & E & Eh). unfold u_escape. rewrite E.
  cbn [app parse_units Z.eqb Pos.eqb]. rewrite Eh. obind. by rewrite Hs.
Qed.

Lemma parse_quote_unit c s us rest :
  0 <= c < 65536 -> parse_units s = Some (us, rest) -> parse_units (quote_unit c ++ s) = Some (c :: us, rest).
Proof.
  intros Hc Hs. unfold quote_unit.
  repeat (destruct (c =? _) eqn:?; zbool; [subst c; cbn; by rewrite Hs|]). cbn [orb].
  destruct (c <? 32) eqn:E; [by apply parse_u_escape|]. cbn [app parse_units].
  rewrite !(proj2 (Z.eqb_neq c _)), E by done. by rewrite Hs.
Qed.

Lemma parse_raw c s us rest :
  32 <= c -> c <> 34 -> c <> 92 -> parse_units s = Some (us, rest) -> parse_units (c :: s) = Some (c :: us, rest).
Proof.
  intros H1 H2 H3 Hs. cbn [parse_units]. rewrite !(proj2 (Z.eqb_neq c _)), (proj2 (Z.ltb_ge c 32)) by done. by rewrite Hs.
Qed.

Lemma parse_quoted s rest : units s -> parse_units (quote_units s ++ 34 :: rest) = Some (s, rest).
Proof.
  intros Hs. remember (length s) as n eqn:En. revert s Hs En.
  induction n as [n IH] using lt_wf_ind. intros [|c s] Hs ->; [done|]. apply Forall_cons_1 in Hs as [Hc Hs].
  assert (parse_units (quote_units s ++ 34 :: rest) = Some (s, rest)) as Hrest by (apply (IH (length s)); [cbn; lia|done|done]).
  cbn [quote_units]. destruct (is_lead c) eqn:El.
  - destruct s as [|d s]; [by apply parse_u_escape|]. destruct (is_trail d) eqn:Et.
    + apply Forall_cons_1 in Hs as [Hd Hs]. unfold is_lead, is_trail in *.
      cbn [app]. apply parse_raw; [lia..|]. apply parse_raw; [lia..|]. apply (IH (length s)); [cbn; lia|done|done].
    + rewrite <- app_assoc. by apply parse_u_escape.
  - destruct (is_trail c); rewrite <- app_assoc; [by apply parse_u_escape|by apply parse_quote_unit].
Qed.

(** ** Lemmas: what is printed is parsed *)

(** A value as the program has it: finite doubles, strings of 16-bit units, and
    properties in their order. *)
Fixpoint json_wf (v : json) : Prop :=
  match v with
  | JNull | JBool _ => True
  | JNum x => finite_double x
  | JStr s => units s
  | JArr l => foldr (fun x P => json_wf x /\ P) True l
  | JObj o => Obj.canonical o /\ foldr (fun '(k, x) P => units k /\ json_wf x /\ P) True o
  end.

Lemma json_wf_elements l : json_wf (JArr l) <-> Forall json_wf l.
Proof. cbn. induction l as [|x l IH]; cbn; [by split|]. by rewrite IH, Forall_cons. Qed.

Lemma json_wf_members o :
  json_wf (JObj o) <-> Obj.canonical o /\ Forall (fun kx => units kx.1 /\ json_wf kx.2) o.
Proof.
  cbn. apply and_iff_compat_l. induction o as [|[k x] o IH]; cbn; [by split|]. rewrite IH, Forall_cons. cbn. tauto.
Qed.

(** A test of well-formedness. *)
Definition units_b (s : jsstr) : bool := forallb (fun c => (0 <=? c) && (c <? 65536)) s.

Definition finite_double_b (x : jsnum) : bool :=
  match x with
  | Dyadic m e =>
    ((m =? 0) && (e =? 0))
    || ((0 <? Z.abs m) && (Z.abs m <? 2 ^ 53) && (-1074 <=? e) && (e <=? 971) && ((2 ^ 52 <=? Z.abs m) || (e =? -1074)))
  | _ => false
  end.

Definition key_before_b (k k' : jsstr) : bool :=
  match Obj.array_index k, Obj.array_index k' with Some i, Some j => i <? j | None, Some _ => false | _, None => true end.

Fixpoint sorted_b (ks : list jsstr) : bool :=
  match ks with [] => true | k :: ks' => forallb (key_before_b k) ks' && sorted_b ks' end.

Fixpoint json_wf_b (v : json) : bool :=
  match v with
  | JNull | JBool _ => true
  | JNum x => finite_double_b x
  | JStr s => units_b s
  | JArr l => forallb json_wf_b l
  | JObj o => bool_decide (NoDup (Obj.keys o)) && sorted_b (Obj.keys o)
              && forallb (fun kx => units_b kx.1 && json_wf_b kx.2) o
  end.

Lemma forallb_Forall {A} (f : A -> bool) (P : A -> Prop) l :
  Forall (fun x => f x = true -> P x) l -> forallb f l = true -> Forall P l.
Proof. induction 1 as [|x l Hx _ IH]; cbn; [constructor|]. intros [H1 H2]%andb_true_iff. constructor; auto. Qed.

Lemma units_b_sound s : units_b s = true -> units s.
Proof. apply forallb_Forall, Forall_forall. intros. lia. Qed.

Lemma finite_double_b_sound x : finite_double_b x = true -> finite_double x.
Proof.
  destruct x as [| |m e]; try done. cbn [finite_double_b]. intros [H|H]%orb_true_iff; [left; f_equal; lia|right].
  exists (Z.abs m), e. split; [unfold is_double; lia|]. destruct (Z.abs_spec m) as [[_ ->]|[_ ->]]; [by left|right; f_equal; lia].
Qed.

Lemma sorted_b_sound ks : sorted_b ks = true -> StronglySorted Obj.key_before ks.
Proof.
  induction ks as [|k ks IH]; cbn; [constructor|]. intros [H1 H2]%andb_true_iff. constructor; [auto|].
  revert H1. apply forallb_Forall, Forall_forall. intros k' _. unfold key_before_b, Obj.key_before.
  destruct (Obj.array_index k), (Obj.array_index k'); (done || lia).
Qed.

Lemma json_wf_b_sound v : json_wf_b v = true -> json_wf v.
Proof.
  induction v as [|b|x|s|l IH|o IH] using json_ind; intros H; try done.
  - by apply finite_double_b_sound.
  - by apply units_b_sound.
  - apply json_wf_elements. by eapply forallb_Forall.
  - cbn [json_wf_b] in H. rewrite !andb_true_iff in H. destruct H as [[H1 H2] H3]. apply json_wf_members.
    split; [split; [by apply bool_decide_eq_true_1 in H1|by apply sorted_b_sound]|].
    revert H3. apply forallb_Forall. eapply Forall_impl; [exact IH|]. cbn. intros kx Hx [Hk Hv]%andb_true_iff.
    split; [by apply units_b_sound|auto].
Qed.

(** Different names, none of them an index. *)
Definition plain (names : list jsstr) : bool :=
  bool_decide (NoDup names)
  && forallb (fun k => units_b k && match Obj.array_index k with None => true | Some _ => false end) names.

Lemma plain_sorted names : plain names = true -> StronglySorted Obj.key_before names /\ Forall units names.
Proof.
  intros [_ H]%andb_true_iff. rewrite forallb_forall in H. induction names as [|k names IH]; [split; constructor|].
  destruct IH as [IH1 IH2]; [intros; apply H; by right|].
  pose proof (H k (or_introl eq_refl)) as [Hu Hi]%andb_true_iff. split; constructor; try done.
  - apply Forall_forall. intros k' Hin%list_elem_of_In. pose proof (H k' (or_intror Hin)) as [_ Hi']%andb_true_iff.
    unfold Obj.key_before. destruct (Obj.array_index k), (Obj.array_index k'); done.
  - by apply units_b_sound.
Qed.

(** An object with such names. *)
Lemma plain_wf o : plain (Obj.keys o) = true -> Forall json_wf (Obj.values o) -> json_wf (JObj o).
Proof.
  intros Hp Hv. pose proof Hp as [Hn _]%andb_true_iff. apply bool_decide_eq_true_1 in Hn.
  destruct (plain_sorted _ Hp) as [Hs Hu]. apply json_wf_members. split; [done|].
  unfold Obj.keys, Obj.values in *. rewrite Forall_map in Hu, Hv. rewrite Forall_forall in *. auto.
Qed.

Definition blank : jsstr -> Prop := Forall (fun c => json_ws c = true).

Lemma blank_line gap indent : blank indent -> blank (line gap indent).
Proof. intros. destruct gap; [constructor|]. by constructor. Qed.

Lemma skip_blank w s : blank w -> skip_ws (w ++ s) = skip_ws s.
Proof. induction 1 as [|c w Hc _ IH]; cbn; [done|]. by rewrite Hc. Qed.

Lemma skip_solid c s : json_ws c = false -> skip_ws (c :: s) = c :: s.
Proof. intros H. cbn. by rewrite H. Qed.

Lemma next_solid c s : json_ws c = false -> next (c :: s) = Some (c, s).
Proof. intros H. unfold next. by rewrite skip_solid. Qed.

Lemma next_blank w s : blank w -> next (w ++ s) = next s.
Proof. intros. unfold next. by rewrite skip_blank. Qed.

Lemma parse_value_blank f w s : blank w -> parse_value f (w ++ s) = parse_value f s.
Proof. intros. destruct f; [done|]. cbn [parse_value]. by rewrite skip_blank. Qed.

Lemma parse_members_blank f w s : blank w -> parse_members f (w ++ s) = parse_members f s.
Proof. intros. destruct f; [done|]. cbn [parse_members]. by rewrite next_blank. Qed.

Lemma stops_blank w c s : blank w -> stops (c :: s) -> stops (w ++ c :: s).
Proof.
  intros Hw Hs. destruct Hw as [|x w Hx _]; [done|]. cbn. unfold json_ws in Hx.
  repeat (apply orb_prop in Hx as [Hx|Hx]); zbool; subst x; lia.
Qed.

Lemma number_head x rest :
  finite_double x -> exists c t, number_text x ++ rest = c :: t /\ (c = 45 \/ 48 <= c <= 57).
Proof.
  intros [->|(m & e & Hd & Hx)]; [by exists 48, rest; split; [|lia]|].
  pose proof (shortest_spec m e Hd) as Hs. pose proof Hd as [[Hm _] _].
  assert (exists c t, positive_text m e ++ rest = c :: t /\ 48 <= c <= 57) as (c & t & Ec & Hc).
  { unfold positive_text. destruct (shortest m e) as [s p]. destruct Hs as [Hs _]. by apply layout_head. }
  destruct Hx as [-> | ->]; cbn [number_text].
  - rewrite (proj2 (Z.eqb_neq m 0)), (proj2 (Z.ltb_ge m 0)) by lia. rewrite Ec. eauto.
  - rewrite (proj2 (Z.eqb_neq (- m) 0)), (proj2 (Z.ltb_lt (- m) 0)) by lia. eexists _, _. split; [reflexivity|by left].
Qed.

(** The first character of a value. *)
Lemma serialize_head gap indent v : json_wf v ->
  exists c t, serialize gap indent v = c :: t /\ json_ws c = false /\ c <> 93 /\ c <> 125 /\ c <> 44.
Proof.
  destruct v as [|b|x|s|l|o]; intros Hv.
  - by eexists _, _.
  - destruct b; by eexists _, _.
  - destruct (number_head x [] Hv) as (c & t & Ec & Hc). rewrite app_nil_r in Ec.
    assert (serialize gap indent (JNum x) = number_text x) as ->.
    { cbn. by destruct Hv as [->|(m & e & _ & [->| ->])]. }
    exists c, t. split; [done|]. split; [|lia]. unfold json_ws. rewrite !(proj2 (Z.eqb_neq c _)) by lia. done.
  - by eexists _, _.
  - cbn. destruct l; by eexists _, _.
  - cbn. destruct o; by eexists _, _.
Qed.

(** From some fuel on, [v] is parsed from its text. *)
Definition parses_back (v : json) : Prop := forall gap indent rest,
  blank gap -> blank indent -> stops rest ->
  exists f0, forall f, (f0 <= f)%nat -> parse_value f (serialize gap indent v ++ rest) = Some (v, rest).

Lemma parse_elements_back gap indent sep close rest l :
  Forall parses_back l -> l <> [] -> blank gap -> blank indent -> blank sep -> blank close ->
  exists f0, forall f, (f0 <= f)%nat ->
    parse_elements f (sep ++ js_join (List.map (serialize gap indent) l) (44 :: sep) ++ close ++ 93 :: rest) = Some (l, rest).
Proof.
  intros Hl. induction Hl as [|v l Hv Hl IH]; intros Hne Hg Hi Hs Hc; [done|]. destruct l as [|v2 l].
  - destruct (Hv gap indent (close ++ 93 :: rest) Hg Hi) as [f0 Hf]; [apply stops_blank; [done|cbn; lia]|].
    exists (S f0). intros [|f] Hle; [lia|]. cbn [parse_elements List.map js_join].
    rewrite parse_value_blank by done. rewrite Hf by lia. obind. rewrite next_blank by done. reflexivity.
  - destruct (IH ltac:(done) Hg Hi Hs Hc) as [f1 Hf1].
    set (tail := sep ++ js_join (List.map (serialize gap indent) (v2 :: l)) (44 :: sep) ++ close ++ 93 :: rest) in *.
    destruct (Hv gap indent (44 :: tail) Hg Hi) as [f0 Hf]; [cbn; lia|].
    exists (S (f0 + f1)). intros [|f] Hle; [lia|]. cbn [parse_elements].
    change (js_join (List.map (serialize gap indent) (v :: v2 :: l)) (44 :: sep))
      with (serialize gap indent v ++ (44 :: sep) ++ js_join (List.map (serialize gap indent) (v2 :: l)) (44 :: sep)).
    rewrite <- !app_assoc. cbn [app]. rewrite parse_value_blank by done. fold tail. rewrite Hf by lia. obind.
    rewrite next_solid by done. obind. change (44 =? 44) with true. cbv iota. rewrite Hf1 by lia. reflexivity.
Qed.

Definition member (gap indent : jsstr) (kx : jsstr * json) : jsstr :=
  let '(k, x) := kx in quote k ++ colon gap ++ serialize gap indent x.

Lemma parse_members_back gap indent sep close rest o :
  Forall (fun kx => parses_back kx.2) o -> Forall (fun kx => units kx.1) o -> o <> [] ->
  blank gap -> blank indent -> blank sep -> blank close ->
  exists f0, forall f, (f0 <= f)%nat ->
    parse_members f (sep ++ js_join (List.map (member gap indent) o) (44 :: sep) ++ close ++ 125 :: rest) = Some (o, rest).
Proof.
  intros Ho Hu. induction Ho as [|[k x] o Hx Ho IH]; intros Hne Hg Hi Hs Hc; [done|].
  apply Forall_cons_1 in Hu as [Hk Hu]. cbn [fst snd] in *.
  assert (forall f tail, parse_members (S f) (sep ++ member gap indent (k, x) ++ tail)
            = ('(v, r) ← parse_value f (serialize gap indent x ++ tail);
               '(c, r3) ← next r;
               if c =? 44 then '(o, rest) ← parse_members f r3; Some ((k, v) :: o, rest)
               else if c =? 125 then Some ([(k, v)], r3) else None)) as Hm.
  { intros f tail. rewrite parse_members_blank by done. cbn [parse_members member]. unfold quote.
    rewrite <- !app_assoc. cbn [app]. rewrite <- ?app_assoc. cbn [app]. rewrite next_solid by done. obind.
    change (34 =? 34) with true. cbv iota. rewrite parse_quoted by done. obind.
    destruct gap as [|g gap]; cbn [colon app]; rewrite next_solid by done; obind;
      change (58 =? 58) with true; cbv iota; [done|].
    change (32 :: serialize (g :: gap) indent x ++ tail) with ([32] ++ serialize (g :: gap) indent x ++ tail).
    by rewrite parse_value_blank by (by repeat constructor). }
  destruct o as [|kx2 o].
  - destruct (Hx gap indent (close ++ 125 :: rest) Hg Hi) as [f0 Hf]; [apply stops_blank; [done|cbn; lia]|].
    exists (S f0). intros [|f] Hle; [lia|]. cbn [List.map js_join].
    rewrite Hm, Hf by lia. obind. rewrite next_blank by done. reflexivity.
  - destruct (IH Hu ltac:(done) Hg Hi Hs Hc) as [f1 Hf1].
    set (tail := sep ++ js_join (List.map (member gap indent) (kx2 :: o)) (44 :: sep) ++ close ++ 125 :: rest) in *.
    destruct (Hx gap indent (44 :: tail) Hg Hi) as [f0 Hf]; [cbn; lia|].
    exists (S (f0 + f1)). intros [|f] Hle; [lia|].
    change (js_join (List.map (member gap indent) ((k, x) :: kx2 :: o)) (44 :: sep))
      with (member gap indent (k, x) ++ (44 :: sep) ++ js_join (List.map (member gap indent) (kx2 :: o)) (44 :: sep)).
    rewrite <- !app_assoc. cbn [app]. fold tail. rewrite Hm, Hf by lia. obind.
    rewrite next_solid by done. obind. change (44 =? 44) with true. cbv iota.
    rewrite Hf1 by lia. reflexivity.
Qed.

(** Atoms are parsed as such. *)
Lemma parse_value_atom f c t :
  json_ws c = false -> c <> 91 -> c <> 123 -> parse_value (S f) (c :: t) = parse_atom (c :: t).
Proof. intros Hw H1 H2. cbn [parse_value]. by rewrite skip_solid, !(proj2 (Z.eqb_neq c _)). Qed.

Lemma brackets_app o c gap indent parts rest :
  parts <> [] -> brackets o c gap indent parts ++ rest
  = o :: line gap (indent ++ gap) ++ js_join parts (44 :: line gap (indent ++ gap)) ++ line gap indent ++ c :: rest.
Proof. intros Hne. destruct parts; [done|]. cbn [brackets app]. f_equal. by rewrite <- !app_assoc. Qed.

Lemma join_head p ps sep : exists t, js_join (p :: ps) sep = p ++ t.
Proof. destruct ps; cbn; [exists []; by rewrite app_nil_r|by eexists]. Qed.

Lemma parse_serialize v : json_wf v -> parses_back v.
Proof.
  induction v as [|b|x|s|l IH|o IH] using json_ind; intros Hv gap indent rest Hg Hi Hr.
  - exists 1%nat. intros [|f] Hf; [lia|]. by apply parse_value_atom.
  - exists 1%nat. intros [|f] Hf; [lia|]. by destruct b; apply parse_value_atom.
  - exists 1%nat. intros [|f] Hf; [lia|]. cbn in Hv. pose proof (parse_number_text x rest Hv Hr) as Hp.
    destruct (number_head x rest Hv) as (c & t & Ec & Hc).
    assert (serialize gap indent (JNum x) = number_text x) as ->.
    { cbn. by destruct Hv as [->|(m & e & _ & [->| ->])]. }
    rewrite Ec in *. rewrite parse_value_atom by (unfold json_ws; destruct Hc; rewrite ?(proj2 (Z.eqb_neq c _)); (done || lia)).
    cbn [parse_atom]. rewrite !(proj2 (Z.eqb_neq c _)) by lia. rewrite Hp. reflexivity.
  - exists 1%nat. intros [|f] Hf; [lia|]. cbn [serialize]. unfold quote. cbn [app]. rewrite <- app_assoc.
    rewrite parse_value_atom by done. cbn [parse_atom app]. change (34 =? 34) with true. cbv iota.
    rewrite parse_quoted by done. reflexivity.
  - destruct l as [|v l]; [exists 1%nat; intros [|f] Hf; [lia|done]|]. apply json_wf_elements in Hv.
    assert (Forall parses_back (v :: l)) as Hb.
    { rewrite Forall_forall in *. intros y Hy. apply IH; [done|]. by apply Hv. }
    assert (blank (indent ++ gap)) as Hig by (by apply Forall_app).
    destruct (parse_elements_back gap (indent ++ gap) (line gap (indent ++ gap)) (line gap indent) rest (v :: l) Hb)
      as [f0 Hf0]; [done|done|done|by apply blank_line|by apply blank_line|].
    exists (S f0). intros [|f] Hf; [lia|]. cbn [serialize]. rewrite brackets_app by done. cbn [parse_value].
    rewrite skip_solid by done. change (91 =? 91) with true. cbv iota.
    apply Forall_cons_1 in Hv as [Hv _]. destruct (serialize_head gap (indent ++ gap) v Hv) as (c & t & Ec & Hw & H93 & _).
    cbn [List.map]. rewrite next_blank by (by apply blank_line). rewrite Hf0 by lia.
    destruct (join_head (serialize gap (indent ++ gap) v) (List.map (serialize gap (indent ++ gap)) l)
                (44 :: line gap (indent ++ gap))) as [t' ->].
    rewrite Ec. cbn [app]. rewrite next_solid by done. obind. by rewrite (proj2 (Z.eqb_neq c 93)).
  - destruct o as [|[k x] o]; [exists 1%nat; intros [|f] Hf; [lia|done]|]. apply json_wf_members in Hv as [Hcan Hv].
    assert (Forall (fun kx => parses_back kx.2) ((k, x) :: o)) as Hb.
    { rewrite Forall_forall in *. intros y Hy. apply IH; [done|]. by apply Hv. }
    assert (Forall (fun kx => units kx.1) ((k, x) :: o)) as Hu.
    { rewrite Forall_forall in *. intros y Hy. by apply Hv. }
    assert (blank (indent ++ gap)) as Hig by (by apply Forall_app).
    destruct (parse_members_back gap (indent ++ gap) (line gap (indent ++ gap)) (line gap indent) rest ((k, x) :: o) Hb)
      as [f0 Hf0]; [done|done|done|done|by apply blank_line|by apply blank_line|].
    exists (S f0). intros [|f] Hf; [lia|]. cbn [serialize]. rewrite brackets_app by done. cbn [parse_value].
    rewrite skip_solid by done. change (123 =? 91) with false. change (123 =? 123) with true. cbv iota.
    change (List.map _ ((k, x) :: o)) with (List.map (member gap (indent ++ gap)) ((k, x) :: o)).
    rewrite Hf0 by lia. rewrite next_blank by (by apply blank_line).
    cbn [List.map]. destruct (join_head (member gap (indent ++ gap) (k, x)) (List.map (member gap (indent ++ gap)) o)
                (44 :: line gap (indent ++ gap))) as [t' ->].
    unfold member, quote. cbn [app]. rewrite next_solid by done. obind. change (34 =? 125) with false. cbv iota.
    by rewrite Obj.assign_canonical.
Qed.

(** ** Lemmas: the fuel is enough *)

(** The rest of a text, after some of it. *)
Definition suffix (r s : jsstr) : Prop := exists q, s = q ++ r.
Definition shorter (r s : jsstr) : Prop := exists c q, s = c :: q ++ r.

Lemma suffix_refl s : suffix s s.
Proof. by exists []. Qed.
Lemma suffix_trans a b c : suffix a b -> suffix b c -> suffix a c.
Proof. intros [q ->] [q' ->]. exists (q' ++ q). by rewrite app_assoc. Qed.
Lemma shorter_suffix a b : shorter a b -> suffix a b.
Proof. intros (c & q & ->). by exists (c :: q). Qed.
Lemma shorter_cons c r : shorter r (c :: r).
Proof. by exists c, []. Qed.
Lemma shorter_l a b c : shorter a b -> suffix b c -> shorter a c.
Proof.
  intros (x & q & ->) [[|y q'] ->]; [by exists x, q|]. exists y, (q' ++ x :: q). by rewrite <- app_assoc.
Qed.
Lemma shorter_r a b c : suffix a b -> shorter b c -> shorter a c.
Proof. intros [q ->] (x & q' & ->). exists x, (q' ++ q). by rewrite app_assoc. Qed.
Lemma shorter_length a b : shorter a b -> (length a < length b)%nat.
Proof. intros (c & q & ->). cbn. rewrite length_app. lia. Qed.

Lemma skip_ws_suffix s : suffix (skip_ws s) s.
Proof.
  induction s as [|c s IH]; cbn; [apply suffix_refl|]. destruct (json_ws c); [|apply suffix_refl].
  eapply suffix_trans; [exact IH|]. by exists [c].
Qed.

Lemma next_shorter s c r : next s = Some (c, r) -> shorter r s.
Proof.
  unfold next. pose proof (skip_ws_suffix s) as H. destruct (skip_ws s) as [|c' r']; [done|]. intros. simplify_eq.
  eapply shorter_l; [apply shorter_cons|exact H].
Qed.

Lemma span_digits_suffix b s : suffix (span_digits b s).2 s.
Proof.
  induction s as [|c s IH]; cbn; [apply suffix_refl|]. destruct (digit_val c) as [d|]; [|apply suffix_refl].
  destruct (d <? b); [|apply suffix_refl]. destruct (span_digits b s) as [ds r]. cbn in *.
  eapply suffix_trans; [exact IH|]. by exists [c].
Qed.

Lemma span_digits_shorter b s d ds r : span_digits b s = (d :: ds, r) -> shorter r s.
Proof.
  destruct s as [|c s]; [done|]. cbn. destruct (digit_val c) as [d'|]; [|done]. destruct (d' <? b); [|done].
  pose proof (span_digits_suffix b s) as H. destruct (span_digits b s) as [ds' r']. intros. simplify_eq. cbn in H.
  eapply shorter_r; [exact H|apply shorter_cons].
Qed.

Lemma parse_units_shorter s : forall us r, parse_units s = Some (us, r) -> shorter r s.
Proof.
  remember (length s) as n eqn:En. revert s En. induction n as [n IH] using lt_wf_ind. intros [|c s] -> us r; [done|].
  assert (forall t us' r', suffix t s -> parse_units t = Some (us', r') -> shorter r' (c :: s)) as Hstep.
  { intros t us' r' [q ->] Ht. apply (IH (length t)) in Ht; [|cbn; rewrite length_app; lia|done].
    eapply shorter_l; [exact Ht|]. by exists (c :: q). }
  cbn [parse_units]. destruct (c =? 34); [intros; simplify_eq; apply shorter_cons|]. destruct (c =? 92).
  - destruct s as [|e s]; [done|]. destruct (e =? 117).
    + destruct s as [|h1 [|h2 [|h3 [|h4 s]]]]; try done. destruct (hex4 _ _ _ _); obind; [|done].
      destruct (parse_units s) as [[us' r']|] eqn:E; obind; [|done]. intros. simplify_eq.
      eapply Hstep; [|exact E]. by exists [e; h1; h2; h3; h4].
    + destruct (unescape e); obind; [|done]. destruct (parse_units s) as [[us' r']|] eqn:E; obind; [|done].
      intros. simplify_eq. eapply Hstep; [|exact E]. by exists [e].
  - destruct (c <? 32); [done|]. destruct (parse_units s) as [[us' r']|] eqn:E; obind; [|done]. intros. simplify_eq.
    eapply Hstep; [apply suffix_refl|exact E].
Qed.

Lemma parse_integer_shorter s ip r : parse_integer s = Some (ip, r) -> shorter r s.
Proof.
  destruct s as [|c s]; [done|]. unfold parse_integer. destruct (c =? 48); [intros; simplify_eq; apply shorter_cons|].
  destruct (span_digits 10 (c :: s)) as [[|d ds] r'] eqn:E; [done|]. intros. simplify_eq. by eapply span_digits_shorter.
Qed.

Lemma parse_fraction_suffix s fp r : parse_fraction s = Some (fp, r) -> suffix r s.
Proof.
  destruct s as [|c s]; [cbn; intros; simplify_eq; apply suffix_refl|]. unfold parse_fraction.
  destruct (c =? 46); [|intros; simplify_eq; apply suffix_refl].
  pose proof (span_digits_suffix 10 s) as H. destruct (span_digits 10 s) as [[|d ds] r']; [done|]. intros. simplify_eq.
  eapply suffix_trans; [exact H|]. by exists [c].
Qed.

Lemma sign_suffix s : suffix (sign s).2 s.
Proof.
  destruct s as [|c s]; cbn; [apply suffix_refl|]. destruct (c =? 45); [by exists [c]|].
  destruct (c =? 43); [by exists [c]|apply suffix_refl].
Qed.

Lemma parse_exp_suffix s e r : parse_exp s = Some (e, r) -> suffix r s.
Proof.
  destruct s as [|c s]; [cbn; intros; simplify_eq; apply suffix_refl|]. unfold parse_exp.
  destruct (_ || _); [|intros; simplify_eq; apply suffix_refl].
  pose proof (sign_suffix s) as H1. destruct (sign s) as [neg u]. cbn in H1.
  pose proof (span_digits_suffix 10 u) as H2. destruct (span_digits 10 u) as [[|d ds] r']; [done|]. intros. simplify_eq.
  eapply suffix_trans; [exact H2|]. eapply suffix_trans; [exact H1|]. by exists [c].
Qed.

Lemma parse_number_shorter s x r : parse_number s = Some (x, r) -> shorter r s.
Proof.
  unfold parse_number. assert (suffix (minus s).2 s) as Hm.
  { destruct s as [|c s]; cbn; [apply suffix_refl|]. destruct (c =? 45); [by exists [c]|apply suffix_refl]. }
  destruct (minus s) as [neg t]. cbn in Hm.
  destruct (parse_integer t) as [[ip t1]|] eqn:E1; obind; [|done].
  destruct (parse_fraction t1) as [[fp t2]|] eqn:E2; obind; [|done].
  destruct (parse_exp t2) as [[e t3]|] eqn:E3; obind; [|done]. intros. simplify_eq.
  apply parse_integer_shorter in E1. apply parse_fraction_suffix in E2. apply parse_exp_suffix in E3.
  eapply shorter_l; [|exact Hm]. eapply shorter_r; [|exact E1]. by eapply suffix_trans.
Qed.

Lemma parse_name_shorter name s v v' r : parse_name name s v = Some (v', r) -> name <> [] -> s <> [] -> shorter r s.
Proof.
  unfold parse_name. destruct (is_prefix name s); [|done]. intros. simplify_eq. destruct name as [|n name]; [done|].
  destruct s as [|c s]; [done|]. cbn. exists c, (take (length name) s). by rewrite take_drop.
Qed.

Lemma parse_atom_shorter s v r : parse_atom s = Some (v, r) -> shorter r s.
Proof.
  destruct s as [|c s]; [done|]. unfold parse_atom. destruct (c =? 34).
  { destruct (parse_units s) as [[us r']|] eqn:E; obind; [|done]. intros. simplify_eq.
    eapply shorter_r; [apply shorter_suffix; by eapply parse_units_shorter|apply shorter_cons]. }
  repeat (destruct (c =? _); [intros H; by eapply parse_name_shorter|]).
  destruct (parse_number (c :: s)) as [[x r']|] eqn:E; obind; [|done]. intros. simplify_eq. by eapply parse_number_shorter.
Qed.

Lemma next_suffix s c r : next s = Some (c, r) -> suffix (c :: r) s.
Proof.
  unfold next. pose proof (skip_ws_suffix s) as H. destruct (skip_ws s) as [|c' r']; [done|]. intros. by simplify_eq.
Qed.

(** A value is not empty; arrays and objects end with their bracket. *)
Lemma parsers_shorter f :
  (forall s v r, parse_value f s = Some (v, r) ->
     shorter r s /\ match v with JObj _ => suffix (125 :: r) s | _ => True end)
  /\ (forall s l r, parse_elements f s = Some (l, r) -> shorter r s)
  /\ (forall s o r, parse_members f s = Some (o, r) -> shorter r s /\ suffix (125 :: r) s).
Proof.
  induction f as [|f (IHv & IHe & IHm)]; [done|]. split_and!.
  - intros s v r. cbn [parse_value]. pose proof (skip_ws_suffix s) as Hs. destruct (skip_ws s) as [|c t] eqn:Et; [done|].
    destruct (c =? 91); [|destruct (c =? 123)].
    + destruct (next t) as [[c1 r1]|] eqn:En; obind; [|done]. pose proof (next_shorter _ _ _ En) as H1.
      destruct (c1 =? 93).
      * intros. simplify_eq. split; [|done]. eapply shorter_l; [|exact Hs].
        eapply shorter_r; [apply shorter_suffix, H1|apply shorter_cons].
      * destruct (parse_elements f t) as [[l r']|] eqn:Ee; obind; [|done]. intros. simplify_eq. split; [|done].
        eapply shorter_l; [|exact Hs]. eapply shorter_r; [apply shorter_suffix, (IHe _ _ _ Ee)|apply shorter_cons].
    + destruct (next t) as [[c1 r1]|] eqn:En; obind; [|done]. pose proof (next_suffix _ _ _ En) as H1.
      assert (suffix t s) as Hts by (eapply suffix_trans; [|exact Hs]; by exists [c]).
      destruct (c1 =? 125) eqn:E1.
      * zbool. subst c1. intros. simplify_eq. split; [|by eapply suffix_trans].
        eapply shorter_l; [apply shorter_cons|]. by eapply suffix_trans.
      * destruct (parse_members f t) as [[o r']|] eqn:Em; obind; [|done]. intros. simplify_eq.
        destruct (IHm _ _ _ Em) as [H2 H3]. split; [by eapply shorter_l|by eapply suffix_trans].
    + intros H. split; [eapply shorter_l; [by eapply parse_atom_shorter|exact Hs]|].
      destruct v; try done. exfalso. revert H. unfold parse_atom, parse_name.
      repeat (destruct (c =? _); [try (destruct (is_prefix _ _); [|done]); try (destruct (parse_units t) as [[? ?]|]; obind); by intros; simplify_eq|]).
      destruct (parse_number (c :: t)) as [[? ?]|]; obind; by intros; simplify_eq.
  - intros s l r. cbn [parse_elements]. destruct (parse_value f s) as [[v r0]|] eqn:Ev; obind; [|done].
    destruct (IHv _ _ _ Ev) as [H0 _]. destruct (next r0) as [[c r1]|] eqn:En; obind; [|done].
    pose proof (next_shorter _ _ _ En) as H1. assert (shorter r1 s) as Hr1 by (eapply shorter_r; [by apply shorter_suffix|done]).
    destruct (c =? 44).
    + destruct (parse_elements f r1) as [[l' r']|] eqn:Ee; obind; [|done]. intros. simplify_eq.
      eapply shorter_r; [apply shorter_suffix, (IHe _ _ _ Ee)|done].
    + destruct (c =? 93); [|done]. intros. by simplify_eq.
  - intros s o r. cbn [parse_members]. destruct (next s) as [[c0 r0]|] eqn:E0; obind; [|done].
    pose proof (next_shorter _ _ _ E0) as H0. destruct (c0 =? 34); [|done].
    destruct (parse_units r0) as [[k r1]|] eqn:Ek; obind; [|done]. apply parse_units_shorter in Ek.
    destruct (next r1) as [[c1 r2]|] eqn:E1; obind; [|done]. apply next_shorter in E1. destruct (c1 =? 58); [|done].
    destruct (parse_value f r2) as [[v r3]|] eqn:Ev; obind; [|done]. destruct (IHv _ _ _ Ev) as [Hv _].
    assert (shorter r3 s) as H3.
    { eapply shorter_r; [|exact H0]. apply shorter_suffix. eapply shorter_r; [|exact Ek]. apply shorter_suffix.
      eapply shorter_r; [|exact E1]. by apply shorter_suffix. }
    destruct (next r3) as [[c r4]|] eqn:En; obind; [|done].
    pose proof (next_shorter _ _ _ En) as H4. pose proof (next_suffix _ _ _ En) as H4'.
    assert (shorter r4 s) as Hr4 by (eapply shorter_r; [by apply shorter_suffix|done]). destruct (c =? 44) eqn:Ec.
    + destruct (parse_members f r4) as [[o' r']|] eqn:Em; obind; [|done]. intros. simplify_eq.
      destruct (IHm _ _ _ Em) as [H5 H6]. split; [eapply shorter_r; [by apply shorter_suffix|done]|].
      eapply suffix_trans; [exact H6|by apply shorter_suffix].
    + destruct (c =? 125) eqn:Ec2; [|done]. zbool. subst c. intros. simplify_eq. split; [done|].
      eapply suffix_trans; [exact H4'|by apply shorter_suffix].
Qed.

(** One step of each parser. *)
Lemma parse_value_S f s : parse_value (S f) s =
  match skip_ws s with
  | [] => None
  | c :: r =>
    if c =? 91 then
      '(c1, r1) ← next r;
      if c1 =? 93 then Some (JArr [], r1) else '(l, rest) ← parse_elements f r; Some (JArr l, rest)
    else if c =? 123 then
      '(c1, r1) ← next r;
      if c1 =? 125 then Some (JObj [], r1)
      else '(o, rest) ← parse_members f r; Some (JObj (Obj.assign [] o), rest)
    else parse_atom (c :: r)
  end.
Proof. reflexivity. Qed.

Lemma parse_elements_S f s : parse_elements (S f) s =
  ('(v, r) ← parse_value f s;
   '(c, r1) ← next r;
   if c =? 44 then '(l, rest) ← parse_elements f r1; Some (v :: l, rest)
   else if c =? 93 then Some ([v], r1) else None).
Proof. reflexivity. Qed.

Lemma parse_members_S f s : parse_members (S f) s =
  ('(c0, r0) ← next s;
   if c0 =? 34 then
     '(k, r1) ← parse_units r0;
     '(c1, r2) ← next r1;
     if c1 =? 58 then
       '(v, r) ← parse_value f r2;
       '(c, r3) ← next r;
       if c =? 44 then '(o, rest) ← parse_members f r3; Some ((k, v) :: o, rest)
       else if c =? 125 then Some ([(k, v)], r3) else None
     else None
   else None).
Proof. reflexivity. Qed.

Lemma parsers_fuel f :
  (forall s, (2 * length s + 1 <= f)%nat -> parse_value (S f) s = parse_value f s)
  /\ (forall s, (2 * length s + 2 <= f)%nat -> parse_elements (S f) s = parse_elements f s)
  /\ (forall s, (2 * length s + 2 <= f)%nat -> parse_members (S f) s = parse_members f s).
Proof.
  induction f as [|f (IHv & IHe & IHm)]; [split_and!; intros; lia|]. split_and!; intros s Hf.
  - rewrite (parse_value_S (S f)), (parse_value_S f). pose proof (skip_ws_suffix s) as [q Hs].
    destruct (skip_ws s) as [|c r]; [done|].
    assert (2 * length r + 2 <= f)%nat as Hr by (rewrite Hs, length_app in Hf; cbn in Hf; lia).
    by rewrite (IHe r Hr), (IHm r Hr).
  - rewrite (parse_elements_S (S f)), (parse_elements_S f), (IHv s) by lia.
    destruct (parse_value f s) as [[v r]|] eqn:Ev; obind; [|done].
    destruct (proj1 (parsers_shorter f) _ _ _ Ev) as [Hr%shorter_length _].
    destruct (next r) as [[c r1]|] eqn:En; obind; [|done]. apply next_shorter, shorter_length in En.
    by rewrite (IHe r1) by lia.
  - rewrite (parse_members_S (S f)), (parse_members_S f).
    destruct (next s) as [[c0 r0]|] eqn:E0; obind; [|done]. apply next_shorter, shorter_length in E0.
    destruct (c0 =? 34); [|done]. destruct (parse_units r0) as [[k r1]|] eqn:Ek; obind; [|done].
    apply parse_units_shorter, shorter_length in Ek. destruct (next r1) as [[c1 r2]|] eqn:E1; obind; [|done].
    apply next_shorter, shorter_length in E1. destruct (c1 =? 58); [|done]. rewrite (IHv r2) by lia.
    destruct (parse_value f r2) as [[v r]|] eqn:Ev; obind; [|done].
    destruct (proj1 (parsers_shorter f) _ _ _ Ev) as [Hr%shorter_length _].
    destruct (next r) as [[c r3]|] eqn:En; obind; [|done]. apply next_shorter, shorter_length in En.
    by rewrite (IHm r3) by lia.
Qed.

Lemma parse_value_fuel s f : (fuel_for s <= f)%nat -> parse_value f s = parse_value (fuel_for s) s.
Proof.
  induction 1 as [|f Hf IH]; [done|]. rewrite <- IH. apply parsers_fuel. unfold fuel_for in Hf. lia.
Qed.

Lemma json_parse_value s v r : parse_value (fuel_for s) s = Some (v, r) -> blank r -> json_parse s = Some v.
Proof.
  intros E Hr. unfold json_parse. rewrite E. obind. rewrite <- (app_nil_r r), skip_blank by done. done.
Qed.

(** ** Lemmas: texts that go on *)

Lemma skip_ws_app s t : skip_ws s <> [] -> skip_ws (s ++ t) = skip_ws s ++ t.
Proof. induction s as [|c s IH]; cbn; [done|]. by destruct (json_ws c). Qed.

Lemma next_app s c r t : next s = Some (c, r) -> next (s ++ t) = Some (c, r ++ t).
Proof.
  unfold next. intros H. rewrite skip_ws_app by (by destruct (skip_ws s)).
  destruct (skip_ws s); [done|]. by simplify_eq.
Qed.

Lemma parse_units_app t s : forall us r, parse_units s = Some (us, r) -> parse_units (s ++ t) = Some (us, r ++ t).
Proof.
  remember (length s) as n eqn:En. revert s En. induction n as [n IH] using lt_wf_ind. intros [|c s] -> us r; [done|].
  assert (forall s' us' r', suffix s' s -> parse_units s' = Some (us', r') -> parse_units (s' ++ t) = Some (us', r' ++ t)) as Hstep.
  { intros s' us' r' [q ->] Ht. eapply (IH (length s')); [cbn; rewrite length_app; lia|done|done]. }
  cbn [parse_units app]. destruct (c =? 34); [intros; by simplify_eq|]. destruct (c =? 92).
  - destruct s as [|e s]; [done|]. cbn [app]. destruct (e =? 117).
    + destruct s as [|h1 [|h2 [|h3 [|h4 s]]]]; try done. cbn [app]. destruct (hex4 _ _ _ _); obind; [|done].
      destruct (parse_units s) as [[us' r']|] eqn:E; obind; [|done]. intros. simplify_eq.
      rewrite (Hstep s us' r); [done| |done]. by exists [e; h1; h2; h3; h4].
    + destruct (unescape e); obind; [|done]. destruct (parse_units s) as [[us' r']|] eqn:E; obind; [|done].
      intros. simplify_eq. rewrite (Hstep s us' r); [done| |done]. by exists [e].
  - destruct (c <? 32); [done|]. destruct (parse_units s) as [[us' r']|] eqn:E; obind; [|done]. intros. simplify_eq.
    rewrite (Hstep s us' r); [done|apply suffix_refl|done].
Qed.

Lemma span_digits_app b s ds r t : span_digits b s = (ds, r) -> r <> [] -> span_digits b (s ++ t) = (ds, r ++ t).
Proof.
  revert ds. induction s as [|c s IH]; intros ds; cbn; [intros; by simplify_eq|].
  destruct (digit_val c) as [d|]; [|intros; by simplify_eq]. destruct (d <? b); [|intros; by simplify_eq].
  destruct (span_digits b s) as [ds' r'] eqn:E. intros. simplify_eq. by rewrite (IH ds').
Qed.

Lemma parse_number_app s x r t : parse_number s = Some (x, r) -> r <> [] -> parse_number (s ++ t) = Some (x, r ++ t).
Proof.
  intros H Hr. destruct s as [|c s]; [done|]. revert H. unfold parse_number.
  assert (minus ((c :: s) ++ t) = ((minus (c :: s)).1, (minus (c :: s)).2 ++ t)) as ->.
  { cbn. by destruct (c =? 45). }
  destruct (minus (c :: s)) as [neg u]. cbn [fst snd].
  destruct (parse_integer u) as [[ip t1]|] eqn:E1; obind; [|done].
  destruct (parse_fraction t1) as [[fp t2]|] eqn:E2; obind; [|done].
  destruct (parse_exp t2) as [[e t3]|] eqn:E3; obind; [|done]. intros. simplify_eq.
  assert (t2 <> []) as H2 by (intros ->; cbn in E3; by simplify_eq).
  assert (t1 <> []) as H1 by (intros ->; cbn in E2; by simplify_eq).
  assert (parse_integer (u ++ t) = Some (ip, t1 ++ t)) as ->.
  { destruct u as [|c' u]; [done|]. unfold parse_integer in *. cbn [app]. destruct (c' =? 48); [by simplify_eq|].
    destruct (span_digits 10 (c' :: u)) as [[|d ds] r'] eqn:E; [done|]. simplify_eq.
    change (c' :: u ++ t) with ((c' :: u) ++ t). by rewrite (span_digits_app _ _ _ _ _ E). }
  obind. assert (parse_fraction (t1 ++ t) = Some (fp, t2 ++ t)) as ->.
  { destruct t1 as [|c' u']; [done|]. unfold parse_fraction in *. cbn [app]. destruct (c' =? 46); [|by simplify_eq].
    destruct (span_digits 10 u') as [[|d ds] r'] eqn:E; [done|]. simplify_eq. by rewrite (span_digits_app _ _ _ _ _ E). }
  obind. assert (parse_exp (t2 ++ t) = Some (e, r ++ t)) as ->; [|done].
  destruct t2 as [|c' u']; [done|]. unfold parse_exp in *. cbn [app]. destruct (_ || _); [|by simplify_eq].
  assert (sign (u' ++ t) = ((sign u').1, (sign u').2 ++ t) \/ u' = []) as [->| ->].
  { destruct u' as [|c2 u2]; [by right|left]. cbn. by destruct (c2 =? 45), (c2 =? 43). }
  - destruct (sign u') as [ng u2]. cbn [fst snd]. destruct (span_digits 10 u2) as [[|d ds] r'] eqn:E; [done|].
    simplify_eq. by rewrite (span_digits_app _ _ _ _ _ E).
  - done.
Qed.

Lemma is_prefix_app p s t : is_prefix p s = true -> is_prefix p (s ++ t) = true /\ drop (length p) (s ++ t) = drop (length p) s ++ t.
Proof.
  revert s. induction p as [|x p IH]; intros s; cbn; [done|]. destruct s as [|y s]; [done|]. cbn.
  intros [E H]%andb_true_iff. rewrite E. cbn. by apply IH.
Qed.

(** Nothing a number could go on with follows, or the value is no number. *)
Definition closed (v : json) (r : jsstr) : Prop := match v with JNum _ => r <> [] | _ => True end.

Lemma parse_atom_app s v r t :
  parse_atom s = Some (v, r) -> closed v r -> parse_atom (s ++ t) = Some (v, r ++ t).
Proof.
  destruct s as [|c s]; [done|]. unfold parse_atom. cbn [app]. destruct (c =? 34).
  { destruct (parse_units s) as [[us r']|] eqn:E; obind; [|done]. intros. simplify_eq. by rewrite (parse_units_app _ _ _ _ E). }
  assert (forall name v0, parse_name name (c :: s) v0 = Some (v, r) -> parse_name name ((c :: s) ++ t) v0 = Some (v, r ++ t)) as Hn.
  { intros name v0. unfold parse_name. destruct (is_prefix name (c :: s)) eqn:E; [|done]. intros. simplify_eq.
    destruct (is_prefix_app _ _ t E) as [-> ->]. done. }
  repeat (destruct (c =? _); [intros H _; by apply Hn|]).
  destruct (parse_number (c :: s)) as [[x r']|] eqn:E; obind; [|done]. intros ? Hc. simplify_eq.
  change (c :: s ++ t) with ((c :: s) ++ t). by rewrite (parse_number_app _ _ _ _ E).
Qed.

Lemma parsers_app t f :
  (forall s v r, parse_value f s = Some (v, r) -> closed v r -> parse_value f (s ++ t) = Some (v, r ++ t))
  /\ (forall s l r, parse_elements f s = Some (l, r) -> parse_elements f (s ++ t) = Some (l, r ++ t))
  /\ (forall s o r, parse_members f s = Some (o, r) -> parse_members f (s ++ t) = Some (o, r ++ t)).
Proof.
  assert (forall v r c r1, next r = Some (c, r1) -> closed v r) as Hclosed.
  { intros v r c r1 H. destruct v; try done. cbn. by intros ->. }
  induction f as [|f (IHv & IHe & IHm)]; [done|]. split_and!.
  - intros s v r. rewrite !parse_value_S. destruct (skip_ws s) as [|c u] eqn:Es; [done|].
    rewrite skip_ws_app, Es by (by rewrite Es). cbn [app]. destruct (c =? 91); [|destruct (c =? 123)].
    + destruct (next u) as [[c1 r1]|] eqn:En; obind; [|done]. rewrite (next_app _ _ _ t En). obind.
      destruct (c1 =? 93); [intros; by simplify_eq|]. destruct (parse_elements f u) as [[l r']|] eqn:Ee; obind; [|done].
      rewrite (IHe _ _ _ Ee). obind. intros. by simplify_eq.
    + destruct (next u) as [[c1 r1]|] eqn:En; obind; [|done]. rewrite (next_app _ _ _ t En). obind.
      destruct (c1 =? 125); [intros; by simplify_eq|]. destruct (parse_members f u) as [[o r']|] eqn:Em; obind; [|done].
      rewrite (IHm _ _ _ Em). obind. intros. by simplify_eq.
    + apply (parse_atom_app (c :: u)).
  - intros s l r. rewrite !parse_elements_S. destruct (parse_value f s) as [[v r0]|] eqn:Ev; obind; [|done].
    destruct (next r0) as [[c r1]|] eqn:En; obind; [|done]. rewrite (IHv _ _ _ Ev (Hclosed _ _ _ _ En)). obind.
    rewrite (next_app _ _ _ t En). obind. destruct (c =? 44).
    + destruct (parse_elements f r1) as [[l' r']|] eqn:Ee; obind; [|done]. rewrite (IHe _ _ _ Ee). obind. intros. by simplify_eq.
    + destruct (c =? 93); [|done]. intros. by simplify_eq.
  - intros s o r. rewrite !parse_members_S. destruct (next s) as [[c0 r0]|] eqn:E0; obind; [|done].
    rewrite (next_app _ _ _ t E0). obind. destruct (c0 =? 34); [|done].
    destruct (parse_units r0) as [[k r1]|] eqn:Ek; obind; [|done]. rewrite (parse_units_app _ _ _ _ Ek). obind.
    destruct (next r1) as [[c1 r2]|] eqn:E1; obind; [|done]. rewrite (next_app _ _ _ t E1). obind.
    destruct (c1 =? 58); [|done]. destruct (parse_value f r2) as [[v r3]|] eqn:Ev; obind; [|done].
    destruct (next r3) as [[c r4]|] eqn:En; obind; [|done]. rewrite (IHv _ _ _ Ev (Hclosed _ _ _ _ En)). obind.
    rewrite (next_app _ _ _ t En). obind. destruct (c =? 44).
    + destruct (parse_members f r4) as [[o' r']|] eqn:Em; obind; [|done]. rewrite (IHm _ _ _ Em). obind. intros. by simplify_eq.
    + destruct (c =? 125); [|done]. intros. by simplify_eq.
Qed.

(** ** Lemmas: printed texts are Unicode *)

Definition ascii : jsstr -> Prop := Forall (fun c => 0 <= c < 128).

Lemma utf16_app a b : utf16_ok a -> utf16_ok b -> utf16_ok (a ++ b).
Proof. induction 1; intros Hb; cbn; [done|by constructor; auto..]. Qed.

Lemma ascii_utf16 s : ascii s -> utf16_ok s.
Proof. induction 1; constructor; try done; unfold scalar; lia. Qed.

Lemma digits_go_ascii fuel r n acc : 2 <= r <= 36 -> ascii acc -> ascii (digits_go fuel r n acc).
Proof.
  intros Hr. revert n acc. induction fuel as [|f IH]; intros n acc Ha; [done|]. cbn [digits_go].
  assert (ascii (digit_char (n mod r) :: acc)).
  { constructor; [|done]. pose proof (Z.mod_pos_bound n r ltac:(lia)). unfold digit_char. destruct (_ <? 10) eqn:E; zbool; lia. }
  destruct (_ =? 0); auto.
Qed.

Lemma to_string_ascii r n : 2 <= r <= 36 -> ascii (to_string r n).
Proof. intros. by apply digits_go_ascii; [|constructor]. Qed.

Lemma zeros_ascii n : ascii (replicate n 48).
Proof. apply Forall_replicate. lia. Qed.

Lemma exponent_ascii e : ascii (exponent_text e).
Proof.
  constructor; [lia|]. destruct (e <? 0); (constructor; [lia|]; apply to_string_ascii; lia).
Qed.

Lemma layout_ascii s p : ascii (layout s p).
Proof.
  pose proof (to_string_ascii 10 s ltac:(lia)) as Hd. unfold layout. set (ds := to_string 10 s) in *.
  destruct (_ && _); [|destruct (_ && _); [|destruct (_ && _)]].
  - apply Forall_app. split; [done|apply zeros_ascii].
  - apply Forall_app. split; [by apply Forall_take|]. constructor; [lia|by apply Forall_drop].
  - apply Forall_app. split; [repeat constructor; lia|]. apply Forall_app. split; [apply zeros_ascii|done].
  - pose proof (exponent_ascii (p + len ds - 1)) as He. destruct ds as [|c [|c2 ds']].
    + done.
    + apply Forall_cons in Hd as [Hc _]. by constructor.
    + apply Forall_cons in Hd as [Hc Hd]. constructor; [done|]. constructor; [lia|]. by apply Forall_app.
Qed.

Lemma number_text_ascii x : ascii (number_text x).
Proof.
  unfold number_text, positive_text. destruct x as [|b|m e].
  - repeat constructor; lia.
  - destruct b; repeat constructor; lia.
  - destruct (m =? 0); [repeat constructor; lia|].
    destruct (m <? 0); [constructor; [lia|]|]; destruct (shortest _ _); apply layout_ascii.
Qed.

Lemma u_escape_ascii c : ascii (u_escape c).
Proof.
  constructor; [lia|]. constructor; [lia|]. apply Forall_app. split; [apply zeros_ascii|apply to_string_ascii; lia].
Qed.

Lemma quote_unit_utf16 c : 0 <= c < 65536 -> is_lead c = false -> is_trail c = false -> utf16_ok (quote_unit c).
Proof.
  intros Hc Hl Ht. unfold quote_unit, is_lead, is_trail in *.
  do 5 (destruct (c =? _); [apply ascii_utf16; repeat constructor; lia|]).
  destruct ((c =? 34) || (c =? 92)) eqn:E; [apply ascii_utf16; repeat constructor; lia|].
  destruct (c <? 32); [apply ascii_utf16, u_escape_ascii|].
  constructor; [unfold scalar; lia|lia|constructor].
Qed.

Lemma quote_units_utf16 s : units s -> utf16_ok (quote_units s).
Proof.
  remember (length s) as n eqn:En. revert s En. induction n as [n IH] using lt_wf_ind. intros [|c s] -> Hs; [constructor|].
  apply Forall_cons in Hs as [Hc Hs]. cbn [quote_units].
  assert (utf16_ok (quote_units s)) as Hrec by (eapply IH; [|reflexivity|done]; cbn; lia).
  assert (utf16_ok (u_escape c)) as Hesc by apply ascii_utf16, u_escape_ascii.
  destruct (is_lead c) eqn:El.
  - destruct s as [|d s]; [done|]. destruct (is_trail d) eqn:Ed; [|by apply utf16_app].
    apply Forall_cons in Hs as [Hd Hs]. unfold is_lead, is_trail in *.
    apply utf16_pair; [lia|lia|]. eapply IH; [|reflexivity|done]. cbn. lia.
  - destruct (is_trail c) eqn:Et; [by apply utf16_app|]. apply utf16_app; [by apply quote_unit_utf16|done].
Qed.

Lemma blank_ascii w : blank w -> ascii w.
Proof. intros H. eapply Forall_impl; [exact H|]. intros c. cbn beta. unfold json_ws. lia. Qed.

Lemma quote_utf16 s : units s -> utf16_ok (quote s).
Proof.
  intros Hs. unfold quote. change (utf16_ok ([34] ++ quote_units s ++ [34])).
  assert (utf16_ok [34]) by (apply ascii_utf16; repeat constructor; lia).
  apply utf16_app; [done|]. apply utf16_app; [by apply quote_units_utf16|done].
Qed.

Lemma join_utf16 ps sep : utf16_ok sep -> Forall utf16_ok ps -> utf16_ok (js_join ps sep).
Proof.
  intros Hsep. induction 1 as [|p [|q ps] Hp Hps IH]; [constructor|done|].
  change (utf16_ok (p ++ sep ++ js_join (q :: ps) sep)). by repeat apply utf16_app.
Qed.

Lemma brackets_utf16 o c gap indent parts :
  0 <= o < 128 -> 0 <= c < 128 -> blank gap -> blank indent -> Forall utf16_ok parts ->
  utf16_ok (brackets o c gap indent parts).
Proof.
  intros Ho Hc Hg Hi Hp. unfold brackets.
  assert (forall x, 0 <= x < 128 -> utf16_ok [x]) as H1 by (intros; apply ascii_utf16, Forall_singleton; lia).
  assert (forall i, blank i -> utf16_ok (line gap i)) as Hline by (intros; by apply ascii_utf16, blank_ascii, blank_line).
  assert (blank (indent ++ gap)) as Hig by (by apply Forall_app).
  destruct parts as [|p ps]; [apply (utf16_app [o] [c]); auto|].
  change (utf16_ok ([o] ++ line gap (indent ++ gap) ++ js_join (p :: ps) ([44] ++ line gap (indent ++ gap)) ++ line gap indent ++ [c])).
  repeat apply utf16_app; auto. apply join_utf16; [|done]. apply utf16_app; [apply H1; lia|auto].
Qed.

Lemma serialize_utf16 gap v : blank gap -> json_wf v -> forall indent, blank indent -> utf16_ok (serialize gap indent v).
Proof.
  intros Hg. induction v as [|b|x|s|l IH|o IH] using json_ind; intros Hv indent Hi; cbn [serialize].
  - apply ascii_utf16. repeat constructor; lia.
  - apply ascii_utf16. destruct b; repeat constructor; lia.
  - apply ascii_utf16. destruct x; [repeat constructor; lia..|apply number_text_ascii].
  - by apply quote_utf16.
  - apply json_wf_elements in Hv. apply brackets_utf16; [lia|lia|done|done|]. apply Forall_map.
    rewrite Forall_forall in *. intros x Hx. apply (IH x Hx); [by apply Hv|by apply Forall_app].
  - apply json_wf_members in Hv as [_ Hv]. apply brackets_utf16; [lia|lia|done|done|]. apply Forall_map.
    rewrite Forall_forall in *. intros [k x] Hx. destruct (Hv _ Hx) as [Hk Hw]. cbn [fst snd] in Hk, Hw |- *.
    apply utf16_app; [by apply quote_utf16|]. apply utf16_app.
    + apply ascii_utf16. destruct gap; repeat constructor; lia.
    + apply (IH _ Hx); [done|by apply Forall_app].
Qed.

Lemma stringify_utf16 gap v : blank gap -> json_wf v -> utf16_ok (stringify gap v).
Proof. intros. apply serialize_utf16; [done|done|constructor]. Qed.

(** ** Theorems *)

Lemma stringify_parse gap v : blank gap -> json_wf v -> parse_value (fuel_for (stringify gap v)) (stringify gap v) = Some (v, []).
Proof.
  intros Hg Hv. destruct (parse_serialize v Hv gap [] [] Hg ltac:(constructor) I) as [f0 Hf]. rewrite app_nil_r in Hf.
  fold (stringify gap v) in Hf. pose (f := (f0 + fuel_for (stringify gap v))%nat).
  rewrite <- (parse_value_fuel _ f) by (unfold f; lia). apply Hf. unfold f. lia.
Qed.

Lemma parse_stringify gap v : blank gap -> json_wf v -> json_parse (stringify gap v) = Some v.
Proof. intros Hg Hv. eapply json_parse_value; [by apply stringify_parse|constructor]. Qed.

(** A text that starts with a brace is that of an object. *)
Lemma parse_object f s v r : parse_value f (123 :: s) = Some (v, r) -> exists o, v = JObj o.
Proof.
  destruct f as [|f]; [done|]. rewrite parse_value_S, skip_solid by done. cbn [Z.eqb Pos.eqb].
  destruct (next s) as [[c r1]|]; obind; [|done]. destruct (c =? 125); [intros; simplify_eq; eauto|].
  destruct (parse_members f s) as [[o r']|]; obind; [|done]. intros. simplify_eq. eauto.
Qed.

Lemma skip_ws_last s c : json_ws c = false -> skip_ws (s ++ [c]) <> [].
Proof. intros Hc. induction s as [|x s IH]; cbn; [by rewrite Hc|]. by destruct (json_ws x). Qed.

(** A beginning of an object's text is not parsed, also with a replacement
    character after it. *)
Lemma parse_cut gap o p t :
  blank gap -> json_wf (JObj o) -> stringify gap (JObj o) = p ++ t -> t <> [] ->
  json_parse p = None /\ json_parse (p ++ [0xfffd]) = None.
Proof.
  intros Hg Hv Es Ht. destruct p as [|c p]; [by split|].
  assert (c = 123) as ->.
  { unfold stringify in Es. cbn [serialize] in Es. unfold brackets in Es. cbn [app] in Es. destruct (List.map _ o); congruence. }
  split; unfold json_parse.
  - destruct (parse_value _ (123 :: p)) as [[v r]|] eqn:E; obind; [|done].
    destruct (parse_object _ _ _ _ E) as [o' ->].
    rewrite <- (parse_value_fuel _ (fuel_for ((123 :: p) ++ t))) in E by (unfold fuel_for; rewrite length_app; lia).
    apply (proj1 (parsers_app t _)) in E; [|done].
    pose proof (stringify_parse gap _ Hg Hv) as H. rewrite Es, E in H. simplify_eq. by destruct r, t.
  - change ((123 :: p) ++ [0xfffd]) with (123 :: p ++ [0xfffd]).
    destruct (parse_value _ _) as [[v r]|] eqn:E; obind; [|done]. pose proof (parse_object _ _ _ _ E) as [o' ->].
    destruct (proj1 (parsers_shorter _) _ _ _ E) as [_ [q Hq]].
    assert (exists r', r = r' ++ [0xfffd]) as [r' ->].
    { destruct r as [|x r' _] using rev_ind.
      - change (123 :: p ++ [0xfffd]) with ((123 :: p) ++ [0xfffd]) in Hq. apply app_inj_2 in Hq as [_ Hq]; done.
      - exists r'. change (123 :: p ++ [0xfffd]) with ((123 :: p) ++ [0xfffd]) in Hq.
        rewrite app_comm_cons, app_assoc in Hq. apply app_inj_2 in Hq as [_ Hq]; [|done]. by simplify_eq. }
    pose proof (skip_ws_last r' 0xfffd eq_refl). by destruct (skip_ws (r' ++ [0xfffd])).
Qed.

End Json.
