(* ===== verification/Dates.v ===== *)
(** * Dates as texts

    [new Date(t).toISOString()], which the snapshot is stamped with, and
    [Date.parse] on the texts it gives.  A time is its number of milliseconds. *)

From Stdlib Require Import String.
From S2P Require Import Prelude Numbers JsText NumberText.
Import NumberText.

Module Dates.

Definition msPerDay : Z := 86400000.

(** The day a year starts on, counted from 1970-01-01. *)
Definition DayFromYear (y : Z) : Z :=
  365 * (y - 1970) + (y - 1969) / 4 - (y - 1901) / 100 + (y - 1601) / 400.

(** The year of a day: an estimate, which is one too high at most. *)
Definition YearFromDay (d : Z) : Z :=
  let y := 1970 + (400 * d + 800) / 146097 in
  if d <? DayFromYear y then y - 1 else y.

Definition inLeapYear (y : Z) : bool := DayFromYear (y + 1) - DayFromYear y =? 366.

(** The day of the year the month [m], counted from 0, starts on; 12 is the
    end of the year. *)
Definition month_start (leap : bool) (m : nat) : Z :=
  nth m [0; 31; 59; 90; 120; 151; 181; 212; 243; 273; 304; 334; 365] 0
  + (if leap && (2 <=? Z.of_nat m) then 1 else 0).

(** The month of a day of the year. *)
Definition month_of (leap : bool) (n : Z) : nat :=
  (length (List.filter (fun m => (month_start leap m <=? n)%Z) (seq 0 12)) - 1)%nat.

Definition padded (w : nat) (n : Z) : jsstr := pad_start w (to_string 10 n).

(** [toISOString], in the years 0 to 9999. *)
Definition toISOString (t : Z) : jsstr :=
  let d := t / msPerDay in
  let r := t mod msPerDay in
  let y := YearFromDay d in
  let n := d - DayFromYear y in
  let m := month_of (inLeapYear y) n in
  padded 4 y ++ jss "-" ++ padded 2 (Z.of_nat m + 1) ++ jss "-" ++ padded 2 (n - month_start (inLeapYear y) m + 1)
  ++ jss "T" ++ padded 2 (r / 3600000) ++ jss ":" ++ padded 2 (r / 60000 mod 60) ++ jss ":"
  ++ padded 2 (r / 1000 mod 60) ++ jss "." ++ padded 3 (r mod 1000) ++ jss "Z".

(** [w] decimal digits, and a character after them. *)
Definition field (w : nat) (c : Z) (s : jsstr) : option (Z * jsstr) :=
  match span_digits 10 s with
  | (ds, x :: rest) => if (Nat.eqb (length ds) w) && (x =? c) then Some (digits_value 10 ds, rest) else None
  | _ => None
  end.

Definition in_range (lo hi n : Z) : bool := (lo <=? n) && (n <=? hi).

(** [Date.parse] on a text of the form YYYY-MM-DDTHH:mm:ss.sssZ; [None] for
    every other text. *)
Definition date_parse (s : jsstr) : option Z :=
  '(y, s) ← field 4 45 s;
  '(mo, s) ← field 2 45 s;
  '(d, s) ← field 2 84 s;
  '(h, s) ← field 2 58 s;
  '(mi, s) ← field 2 58 s;
  '(sec, s) ← field 2 46 s;
  '(ms, s) ← field 3 90 s;
  let leap := inLeapYear y in
  let m := Z.to_nat (mo - 1) in
  match s with
  | [] =>
    if in_range 1 12 mo && in_range 1 (month_start leap (S m) - month_start leap m) d
       && in_range 0 23 h && in_range 0 59 mi && in_range 0 59 sec
    then Some ((DayFromYear y + month_start leap m + d - 1) * msPerDay
               + h * 3600000 + mi * 60000 + sec * 1000 + ms)
    else None
  | _ => None
  end.

Example date_examples :
  toISOString 0 = jss "1970-01-01T00:00:00.000Z" /\ toISOString 1709210096789 = jss "2024-02-29T12:34:56.789Z"
  /\ toISOString 1735689599999 = jss "2024-12-31T23:59:59.999Z" /\ toISOString 951782400000 = jss "2000-02-29T00:00:00.000Z"
  /\ toISOString 4107542400000 = jss "2100-03-01T00:00:00.000Z" /\ toISOString (-1) = jss "1969-12-31T23:59:59.999Z"
  /\ date_parse (jss "2024-02-29T12:34:56.789Z") = Some 1709210096789 /\ date_parse (jss "2023-02-29T12:34:56.789Z") = None.
Proof. split_and!; vm_compute; reflexivity. Qed.

(** ** Lemmas *)

Lemma year_bounds d : 0 <= d -> DayFromYear (YearFromDay d) <= d < DayFromYear (YearFromDay d + 1).
Proof.
  intros Hd. unfold YearFromDay. destruct (d <? DayFromYear _) eqn:E; zbool;
    unfold DayFromYear in *; Z.to_euclidean_division_equations; lia.
Qed.

Lemma year_length y : DayFromYear (y + 1) - DayFromYear y = if inLeapYear y then 366 else 365.
Proof.
  unfold inLeapYear. destruct (_ =? 366) eqn:E; zbool; [done|].
  unfold DayFromYear in *. Z.to_euclidean_division_equations. lia.
Qed.

Definition month_ok (leap : bool) (n : Z) : bool :=
  let m := month_of leap n in
  (Z.of_nat m <=? 11) && (month_start leap m <=? n) && (n <? month_start leap (S m)) && (month_start leap (S m) - month_start leap m <=? 31).

Lemma months_ok (leap : bool) n : 0 <= n < (if leap then 366 else 365) -> month_ok leap n = true.
Proof.
  intros Hn. assert (forall l : bool, forallb (month_ok l) (List.map Z.of_nat (seq 0 (if l then 366%nat else 365%nat))) = true) as H
    by (intros []; vm_compute; reflexivity).
  specialize (H leap). rewrite forallb_forall in H. apply H, in_map_iff. exists (Z.to_nat n).
  split; [lia|]. apply in_seq. destruct leap; lia.
Qed.

Lemma field_padded w c n rest :
  (0 < w)%nat -> 0 <= n < 10 ^ Z.of_nat w -> match digit_val c with Some d => d <? 10 | None => false end = false ->
  field w c (padded w n ++ c :: rest) = Some (n, rest).
Proof.
  intros Hw Hn Hc. destruct (padded_digits 10 w n ltac:(lia) Hw Hn) as (ds & E & Ev & Hds & Hl).
  unfold field, padded. rewrite E.
  assert (span_digits 10 (List.map digit_char ds ++ c :: rest) = (ds, c :: rest)) as ->.
  { clear E Ev Hl. induction Hds as [|d ds Hd _ IH]; cbn [List.map app span_digits]; [by destruct (digit_val c); [rewrite Hc|]|].
    unfold digit_in in Hd. rewrite digit_val_char, (proj2 (Z.ltb_lt d 10)) by lia. by rewrite IH. }
  rewrite Hl, Nat.eqb_refl, Z.eqb_refl, Ev. done.
Qed.

(** From 1970 to the year 9999. *)
Definition dated (t : Z) : Prop := 0 <= t < DayFromYear 10000 * msPerDay.

Lemma date_roundtrip t : dated t -> date_parse (toISOString t) = Some t.
Proof.
  intros [Ht1 Ht2]. unfold toISOString. set (d := t / msPerDay). set (r := t mod msPerDay). set (y := YearFromDay d).
  pose proof (Z.div_mod t msPerDay ltac:(done)) as Et. pose proof (Z.mod_pos_bound t msPerDay ltac:(done)) as Hr.
  fold d in Et. fold r in Et, Hr. unfold msPerDay in Et, Hr.
  assert (0 <= d) as Hd by (apply Z.div_pos; [done|done]).
  pose proof (year_bounds d Hd) as Hy. fold y in Hy. pose proof (year_length y) as Hl.
  assert (1970 <= y <= 9999) as Hyr.
  { assert (d < DayFromYear 10000) by (apply Z.div_lt_upper_bound; [done|lia]).
    unfold DayFromYear in Hy, H. Z.to_euclidean_division_equations. lia. }
  set (leap := inLeapYear y) in *. set (n := d - DayFromYear y).
  pose proof (months_ok leap n ltac:(unfold n; lia)) as Hm. unfold month_ok in Hm. set (m := month_of leap n) in *.
  rewrite !andb_true_iff in Hm. destruct Hm as [[[Hm1 Hm2] Hm3] Hm4]. zbool.
  unfold date_parse. change (jss "-") with [45]. change (jss "T") with [84]. change (jss ":") with [58].
  change (jss ".") with [46]. change (jss "Z") with [90]. cbn [app].
  assert (0 <= r / 3600000 <= 23 /\ 0 <= r / 60000 mod 60 <= 59 /\ 0 <= r / 1000 mod 60 <= 59 /\ 0 <= r mod 1000 <= 999)
    as (R1 & R2 & R3 & R4) by (Z.to_euclidean_division_equations; lia).
  assert (10 ^ Z.of_nat 4 = 10000 /\ 10 ^ Z.of_nat 3 = 1000 /\ 10 ^ Z.of_nat 2 = 100) as (P4 & P3 & P2) by done.
  repeat (rewrite field_padded by (lia || done); cbn [mbind option_bind]).
  fold leap. replace (Z.to_nat (Z.of_nat m + 1 - 1)) with m by lia. unfold in_range.
  rewrite !(proj2 (Z.leb_le _ _)) by lia. cbn [andb]. f_equal.
  assert (r = r / 3600000 * 3600000 + r / 60000 mod 60 * 60000 + r / 1000 mod 60 * 1000 + r mod 1000) as Er
    by (Z.to_euclidean_division_equations; lia).
  unfold msPerDay, n. lia.
Qed.

End Dates.
