(* ===== verification/Varint.v ===== *)
(** * CompactSize integers ([worker/src/protocol.js], lines 41-78) *)

From S2P Require Import Prelude.

Module Varint.

(** [p2pVarint(n)]: [BigInt(n)] on an integer is the integer; a typed array
    store keeps the low bits of the value. *)
Definition p2pVarint (n : Z) : bytes :=
  if n <? 0xfd then [byte.of_Z n]
  else if n <=? 0xffff then Byte.xfd :: le_split 2 n
  else if n <=? 0xffffffff then Byte.xfe :: le_split 4 n
  else Byte.xff :: le_split 8 n.

(** [p2pReadVarint(buf, offset)]: the value and the new offset, [None] when
    more bytes are needed.  The 64-bit form is converted with [Number()]. *)
Definition p2pReadVarint (buf : bytes) (offset : Z) : res (option (Z * Z)) :=
  if len buf <=? offset then Ok None
  else
    first ← getUintLE 1 buf offset;
    if first <? 0xfd then Ok (Some (first, offset + 1))
    else if first =? 0xfd then
      if len buf <? offset + 3 then Ok None
      else v ← getUintLE 2 buf (offset + 1); Ok (Some (v, offset + 3))
    else if first =? 0xfe then
      if len buf <? offset + 5 then Ok None
      else v ← getUintLE 4 buf (offset + 1); Ok (Some (v, offset + 5))
    else
      if len buf <? offset + 9 then Ok None
      else v ← getUintLE 8 buf (offset + 1); Ok (Some (to_double v, offset + 9)).

(** ** Lemmas *)

Lemma len_p2pVarint n :
  len (p2pVarint n) = if n <? 0xfd then 1 else if n <=? 0xffff then 3
                      else if n <=? 0xffffffff then 5 else 9.
Proof. unfold p2pVarint, len. repeat case_match; simpl length; rewrite ?length_le_split; lia. Qed.

Lemma first_byte pre b mid post offset :
  offset = len pre -> getUintLE 1 (pre ++ (b :: mid) ++ post) offset = Ok (byte.unsigned b).
Proof.
  intros. change ((b :: mid) ++ post) with ([b] ++ (mid ++ post)). rewrite getUintLE_mid by done.
  by rewrite le_combine_1.
Qed.

(** A multi-byte form: the tag, then the value in [n] little-endian bytes. *)
Lemma tagged_read pre tag n v post offset :
  offset = len pre -> 0 <= v < 2 ^ (Z.of_nat n * 8) ->
  getUintLE n (pre ++ (tag :: le_split n v) ++ post) (offset + 1) = Ok v.
Proof.
  intros Ho Hv.
  replace (pre ++ (tag :: le_split n v) ++ post) with ((pre ++ [tag]) ++ le_split n v ++ post)
    by by rewrite <- !app_assoc.
  rewrite getUintLE_mid.
  - by rewrite le_combine_split_small.
  - rewrite len_app, len_cons, len_nil. lia.
  - apply length_le_split.
Qed.

(** Reading what was written, inside of a larger buffer. *)
Lemma read_varint_app pre post n :
  0 <= n < 2 ^ 64 ->
  p2pReadVarint (pre ++ p2pVarint n ++ post) (len pre)
  = Ok (Some (to_double n, len pre + len (p2pVarint n))).
Proof.
  intros Hn. pose proof (len_p2pVarint n) as Hl. pose proof (len_nonneg post).
  unfold p2pReadVarint. rewrite !len_app, Hl.
  rewrite (proj2 (Z.leb_gt _ _)) by (repeat case_match; lia).
  unfold p2pVarint in *.
  destruct (n <? 0xfd) eqn:E1; [|destruct (n <=? 0xffff) eqn:E2;
    [|destruct (n <=? 0xffffffff) eqn:E3]]; zbool.
  - rewrite first_byte by done. rbind.
    rewrite byte.unsigned_of_Z. unfold byte.wrap. rewrite Z.mod_small by lia.
    rewrite (proj2 (Z.ltb_lt _ _)), to_double_small by lia. done.
  - rewrite first_byte by done. rbind. change (byte.unsigned Byte.xfd) with 253. zconst.
    rewrite (proj2 (Z.ltb_ge _ _)) by lia.
    rewrite tagged_read by (done || lia). rbind. by rewrite to_double_small by lia.
  - rewrite first_byte by done. rbind. change (byte.unsigned Byte.xfe) with 254. zconst.
    rewrite (proj2 (Z.ltb_ge _ _)) by lia.
    rewrite tagged_read by (done || lia). rbind. by rewrite to_double_small by lia.
  - rewrite first_byte by done. rbind. change (byte.unsigned Byte.xff) with 255. zconst.
    rewrite (proj2 (Z.ltb_ge _ _)) by lia.
    rewrite tagged_read by (done || lia). done.
Qed.

(** Every read stays in the buffer; the new offset is past the old one and
    within the buffer, and the value fits in 64 bits and one rounding. *)
Lemma read_varint_total buf offset :
  0 <= offset ->
  p2pReadVarint buf offset = Ok None
  \/ exists v o, p2pReadVarint buf offset = Ok (Some (v, o))
       /\ 0 <= v /\ offset < o <= len buf.
Proof.
  intros Ho. unfold p2pReadVarint.
  destruct (len buf <=? offset) eqn:E; zbool; [by left|].
  destruct (getUintLE_total 1 buf offset ltac:(lia) ltac:(lia)) as (first & -> & Hf). simpl.
  repeat case_match; zbool; try (by left); right.
  - eexists _, _. split; [done|]. lia.
  - destruct (getUintLE_total 2 buf (offset + 1) ltac:(lia) ltac:(lia)) as (v & -> & ?).
    simpl. eexists _, _. split; [done|]. lia.
  - destruct (getUintLE_total 4 buf (offset + 1) ltac:(lia) ltac:(lia)) as (v & -> & ?).
    simpl. eexists _, _. split; [done|]. lia.
  - destruct (getUintLE_total 8 buf (offset + 1) ltac:(lia) ltac:(lia)) as (v & -> & ?).
    simpl. eexists _, _. split; [done|]. split; [|lia].
    destruct (Z.lt_ge_cases v (2 ^ 53)); [rewrite to_double_small; lia|].
    pose proof (to_double_large v). lia.
Qed.

(** Reading back a written varint gives the number and the offset after it,
    exactly below 2^53 and rounded to a double above; the writer picks the
    shortest of the four forms. *)
Theorem varint_roundtrip (pre post : bytes) (n : Z) :
  0 <= n < 2 ^ 64 ->
  p2pReadVarint (pre ++ p2pVarint n ++ post) (len pre)
  = Ok (Some (to_double n, len pre + len (p2pVarint n)))
  /\ (n < 2 ^ 53 -> to_double n = n)
  /\ len (p2pVarint n) = (if n <? 0xfd then 1 else if n <=? 0xffff then 3
                          else if n <=? 0xffffffff then 5 else 9).
Proof.
  intros Hn. split; [by apply read_varint_app|]. split; [|apply len_p2pVarint].
  intros. apply to_double_small. lia.
Qed.

Lemma varint_roundtrip_witness :
  p2pReadVarint ([Byte.x01] ++ p2pVarint 70000 ++ [Byte.x02]) 1 = Ok (Some (70000, 6)).
Proof. exact (proj1 (varint_roundtrip [Byte.x01] [Byte.x02] 70000 ltac:(lia))). Defined.

End Varint.
