(* ===== verification/Ip.v ===== *)
(** * IP addresses ([worker/src/protocol.js], lines 80-168)

    Parsing and printing of IPv4 and IPv6 texts, and the 16-byte wire form
    (IPv4 addresses in [::ffff:0:0/96]). *)

From Stdlib Require Import String.
From S2P Require Import Prelude Numbers JsText.

Module Ip.

(** The loop of [parseIPv4] over the four parts: [Number(part)] must be an
    integer in [0, 255]. *)
Fixpoint parse_octets (parts : list jsstr) : option bytes :=
  match parts with
  | [] => Some []
  | p :: ps =>
    match integer_of (number_of_string p) with
    | Some n =>
      if (n <? 0) || (255 <? n) then None
      else rest ← parse_octets ps; Some (byte.of_Z n :: rest)
    | None => None
    end
  end.

Definition parseIPv4 (ip : jsstr) : option bytes :=
  let parts := js_split ip (jss ".") in
  if negb (len parts =? 4) then None else parse_octets parts.

Definition formatIPv4 (bs : bytes) : jsstr :=
  js_join (List.map (fun b => to_string 10 (byte.unsigned b)) bs) (jss ".").

(** The loop of [parseIPv6] over the eight groups: [parseInt(group, 16)] must
    be in [0, 0xffff]; it is stored big-endian. *)
Fixpoint parse_groups (groups : list jsstr) : option bytes :=
  match groups with
  | [] => Some []
  | g :: gs =>
    match parse_int16 g with
    | Some v =>
      if (v <? 0) || (0xffff <? v) then None
      else rest ← parse_groups gs; Some (be_split 2 v ++ rest)
    | None => None
    end
  end.

(** [h ? h.split(':') : []] *)
Definition split_groups (h : jsstr) : list jsstr :=
  match h with [] => [] | _ => js_split h (jss ":") end.

Definition parseIPv6 (ip : jsstr) : option bytes :=
  let '(head, tail) :=
    if includes (jss "::") ip then
      match js_split ip (jss "::") with
      | h :: t :: _ => (split_groups h, split_groups t)
      | [h] => (split_groups h, [])
      | [] => ([], [])
      end
    else (js_split ip (jss ":"), []) in
  let missing := 8 - (len head + len tail) in
  if missing <? 0 then None
  else
    let groups := head ++ replicate (Z.to_nat missing) (jss "0") ++ tail in
    if negb (len groups =? 8) then None else parse_groups groups.

(** The search of [formatIPv6] for the longest run of zero groups. *)
Record run_state := RunState { bestStart : Z; bestLen : Z; curStart : Z; curLen : Z }.

Definition run_step (i g : Z) (st : run_state) : run_state :=
  if g =? 0 then
    let cs := if curStart st =? -1 then i else curStart st in
    let cl := curLen st + 1 in
    if bestLen st <? cl then RunState cs cl cs cl
    else RunState (bestStart st) (bestLen st) cs cl
  else RunState (bestStart st) (bestLen st) (-1) 0.

Fixpoint run_loop (i : Z) (groups : list Z) (st : run_state) : run_state :=
  match groups with
  | [] => st
  | g :: gs => run_loop (i + 1) gs (run_step i g st)
  end.

Definition longest_run (groups : list Z) : run_state := run_loop 0 groups (RunState (-1) 0 (-1) 0).

(** [dv.getUint16(i * 2, false)] for [i] from [i] on, [n] times. *)
Fixpoint read_groups (n : nat) (i : Z) (bs : bytes) : res (list Z) :=
  match n with
  | O => Ok []
  | S k => g ← getUintBE 2 bs (i * 2); gs ← read_groups k (i + 1) bs; Ok (g :: gs)
  end.

(** The text of the eight groups. *)
Definition format_groups (groups : list Z) : jsstr :=
  let st := longest_run groups in
  let hex := List.map (to_string 16) in
  if 1 <? bestLen st then
    js_join (hex (slice groups 0 (bestStart st))) (jss ":") ++ jss "::" ++
    js_join (hex (slice_from groups (bestStart st + bestLen st))) (jss ":")
  else js_join (hex groups) (jss ":").

Definition formatIPv6 (bs : bytes) : res jsstr :=
  groups ← read_groups 8 0 bs; Ok (format_groups groups).

(** The prefix of an IPv4-mapped address. *)
Definition mapped : bytes :=
  [Byte.x00; Byte.x00; Byte.x00; Byte.x00; Byte.x00; Byte.x00;
   Byte.x00; Byte.x00; Byte.x00; Byte.x00; Byte.xff; Byte.xff].

Definition p2pEncodeIp (ip : jsstr) : res bytes :=
  if includes (jss ":") ip then
    match parseIPv6 ip with Some v6 => Ok v6 | None => Throw InvalidIPv6 end
  else
    match parseIPv4 ip with Some v4 => Ok (mapped ++ v4) | None => Throw InvalidIPv4 end.

Definition p2pDecodeIp (bytes16 : bytes) : res jsstr :=
  if bool_decide (take 12 bytes16 = mapped) then Ok (formatIPv4 (slice bytes16 12 16))
  else formatIPv6 bytes16.

Example encode_v4 : p2pEncodeIp (jss "203.0.113.9")
  = Ok (mapped ++ [Byte.xcb; Byte.x00; Byte.x71; Byte.x09]).
Proof. vm_compute. reflexivity. Qed.

Example decode_v6 : (b ← p2pEncodeIp (jss "2001:db8:0:0:1::"); p2pDecodeIp b) = Ok (jss "2001:db8:0:0:1::").
Proof. vm_compute. reflexivity. Qed.

(** ** Lemmas: groups *)

Definition group16 (g : Z) : Prop := 0 <= g < 65536.

(** The bytes of a list of groups. *)
Definition groups_bytes (gs : list Z) : bytes := concat (List.map (be_split 2) gs).

Lemma groups_bytes_app gs1 gs2 : groups_bytes (gs1 ++ gs2) = groups_bytes gs1 ++ groups_bytes gs2.
Proof. unfold groups_bytes. by rewrite List.map_app, concat_app. Qed.

Lemma parse_groups_hex gs :
  Forall group16 gs -> parse_groups (List.map (to_string 16) gs) = Some (groups_bytes gs).
Proof.
  induction 1 as [|g gs Hg _ IH]; [done|]. unfold group16 in Hg. simpl.
  destruct (hex_roundtrip g ltac:(lia)) as (-> & _).
  rewrite (proj2 (Z.ltb_ge g 0)), (proj2 (Z.ltb_ge 65535 g)) by lia. simpl. by rewrite IH.
Qed.

Lemma hex_group_texts gs :
  Forall group16 gs -> Forall group_text (List.map (to_string 16) gs).
Proof.
  induction 1 as [|g gs Hg _ IH]; [by constructor|]. unfold group16 in Hg. simpl. constructor; [|done].
  apply hex_roundtrip. lia.
Qed.

Lemma group_texts_no_colon parts : Forall group_text parts -> Forall (fun p => 58 ∉ p) parts.
Proof. intros H. eapply Forall_impl; [exact H|]. by intros p [_ ?]. Qed.

Lemma split_groups_join parts :
  Forall group_text parts -> split_groups (js_join parts (jss ":")) = parts.
Proof.
  intros Hp. destruct parts as [|p parts]; [done|].
  pose proof (split_join 58 (p :: parts) ltac:(done) (group_texts_no_colon _ Hp)) as E.
  apply Forall_cons_1 in Hp as [[Hne _] _].
  unfold split_groups. change (jss ":") with [58].
  destruct (js_join (p :: parts) [58]) eqn:J; [|done].
  destruct p; [done|]. destruct parts; discriminate.
Qed.

Lemma replicate_zero n : replicate n (jss "0") = List.map (to_string 16) (replicate n 0).
Proof. induction n as [|n IH]; [done|]. simpl. by rewrite IH. Qed.

(** [parseIPv6] on the texts of a head and a tail around the missing zeros. *)
Lemma parse_padded hd tl n :
  Forall group16 hd -> Forall group16 tl -> (length hd + n + length tl = 8)%nat ->
  (let missing := 8 - (len (List.map (to_string 16) hd) + len (List.map (to_string 16) tl)) in
   if missing <? 0 then None
   else
    let groups := List.map (to_string 16) hd ++ replicate (Z.to_nat missing) (jss "0")
                  ++ List.map (to_string 16) tl in
    if negb (len groups =? 8) then None else parse_groups groups)
  = Some (groups_bytes (hd ++ replicate n 0 ++ tl)).
Proof.
  intros Hh Ht Hn. unfold len. rewrite !length_map. cbv zeta.
  replace (8 - (Z.of_nat (length hd) + Z.of_nat (length tl))) with (Z.of_nat n) by lia.
  rewrite (proj2 (Z.ltb_ge _ 0)) by lia.
  rewrite Nat2Z.id, replicate_zero, <- !List.map_app, length_map, !length_app, length_replicate.
  rewrite (proj2 (Z.eqb_eq _ 8)) by lia. simpl negb. cbv iota.
  apply parse_groups_hex. rewrite !Forall_app. split; [done|]. split; [|done].
  apply Forall_forall. intros x Hx. apply elem_of_replicate in Hx as [-> _].
  unfold group16. lia.
Qed.

(** A text of at most eight groups and no [::] is padded with zero groups. *)
Lemma parse_uncompressed gs n :
  gs <> [] -> Forall group16 gs -> (length gs + n = 8)%nat ->
  parseIPv6 (js_join (List.map (to_string 16) gs) (jss ":"))
  = Some (groups_bytes (gs ++ replicate n 0)).
Proof.
  intros Hne Hg Hn. pose proof (hex_group_texts gs Hg) as Ht. unfold parseIPv6.
  change (jss "::") with dcolon. change (jss ":") with [58].
  assert (includes dcolon (js_join (List.map (to_string 16) gs) [58]) = false) as ->.
  { rewrite <- (app_nil_r (js_join _ _)). apply join_no_dcolon; auto. }
  rewrite split_join; [|by destruct gs|by apply group_texts_no_colon].
  rewrite <- (app_nil_r (replicate n 0)).
  apply (parse_padded gs [] n); [done|constructor|simpl; lia].
Qed.

Lemma parse_compressed hd tl n :
  Forall group16 hd -> Forall group16 tl -> (length hd + n + length tl = 8)%nat ->
  parseIPv6 (js_join (List.map (to_string 16) hd) (jss ":") ++ jss "::" ++
             js_join (List.map (to_string 16) tl) (jss ":"))
  = Some (groups_bytes (hd ++ replicate n 0 ++ tl)).
Proof.
  intros Hh Ht Hn. unfold parseIPv6. change (jss "::") with dcolon.
  unfold dcolon at 1. simpl app at 1. rewrite includes_dcolon_mid.
  rewrite js_split_dcolon.
  - rewrite !split_groups_join by by apply hex_group_texts. by apply parse_padded.
  - apply join_no_dcolon; [auto|by apply hex_group_texts].
  - rewrite <- (app_nil_r (js_join _ _)). apply join_no_dcolon; [auto|by apply hex_group_texts].
Qed.

(** ** Lemmas: the longest run of zeros *)

(** [gs] is zero from index [a] on for [n] groups. *)
Definition zero_run (gs : list Z) (a n : Z) : Prop :=
  0 <= a /\ 0 <= n /\ a + n <= len gs /\
  forall j, a <= j < a + n -> gs !! Z.to_nat j = Some 0.

(** The state of the search after the groups [pre]. *)
Record run_inv (pre : list Z) (st : run_state) : Prop := RunInv {
  inv_cur : (curStart st = -1 /\ curLen st = 0)
            \/ (0 < curLen st /\ curStart st + curLen st = len pre);
  inv_cur_run : 0 < curLen st -> zero_run pre (curStart st) (curLen st);
  inv_cur_max : forall n, zero_run pre (len pre - n) n -> n <= curLen st;
  inv_best_run : 0 < bestLen st -> zero_run pre (bestStart st) (bestLen st);
  inv_best_nonneg : 0 <= bestLen st;
  inv_best_max : forall a n, zero_run pre a n -> n <= bestLen st;
  inv_cur_best : curLen st <= bestLen st;
  inv_best_first : forall a, 0 < bestLen st -> zero_run pre a (bestLen st) -> bestStart st <= a
}.

Lemma zero_run_snoc pre g a n :
  a + n <= len pre -> zero_run (pre ++ [g]) a n <-> zero_run pre a n.
Proof.
  intros Hb. unfold zero_run. rewrite len_snoc.
  split; intros (H1 & H2 & H3 & H4); (split; [done|split; [done|split; [lia|]]]);
    intros j Hj; specialize (H4 j Hj); unfold len in Hb;
    [rewrite lookup_app_l in H4|rewrite lookup_app_l]; try done; lia.
Qed.

Lemma zero_run_last pre g a n :
  0 < n -> a + n = len pre + 1 ->
  zero_run (pre ++ [g]) a n <-> g = 0 /\ zero_run pre a (n - 1).
Proof.
  intros Hn Hb. unfold zero_run. rewrite len_snoc. split.
  - intros (H1 & H2 & H3 & H4). split.
    + specialize (H4 (len pre) ltac:(lia)). unfold len in H4.
      rewrite Nat2Z.id, lookup_app_r, Nat.sub_diag in H4 by lia. simpl in H4. congruence.
    + split; [done|split; [lia|split; [lia|]]]. intros j Hj.
      specialize (H4 j ltac:(lia)). rewrite lookup_app_l in H4; [done|]. unfold len in *. lia.
  - intros (-> & H1 & H2 & H3 & H4). split; [done|split; [lia|split; [lia|]]]. intros j Hj.
    destruct (Z.eq_dec j (len pre)) as [->|].
    + unfold len. by rewrite Nat2Z.id, lookup_app_r, Nat.sub_diag by lia.
    + rewrite lookup_app_l by (unfold len in *; lia). apply H4. lia.
Qed.

(** A run of [pre ++ [g]] ends before [g] or at it. *)
Lemma zero_run_cases pre g a n :
  0 < n -> zero_run (pre ++ [g]) a n ->
  zero_run pre a n \/ (a + n = len pre + 1 /\ g = 0 /\ zero_run pre a (n - 1)).
Proof.
  intros Hn H. pose proof H as (H1 & H2 & H3 & _). rewrite len_snoc in H3.
  destruct (Z.le_gt_cases (a + n) (len pre)).
  - left. by apply (proj1 (zero_run_snoc pre g a n ltac:(lia))).
  - right. destruct (proj1 (zero_run_last pre g a n Hn ltac:(lia)) H) as [-> ?].
    split_and!; try done; lia.
Qed.

Lemma run_inv_nil : run_inv [] (RunState (-1) 0 (-1) 0).
Proof.
  split; simpl; try lia; intros; unfold zero_run, len in *; simpl in *; lia.
Qed.

(** A non-zero group ends the current run. *)
Lemma run_inv_nonzero pre g st :
  g <> 0 -> run_inv pre st -> run_inv (pre ++ [g]) (RunState (bestStart st) (bestLen st) (-1) 0).
Proof.
  intros Hg []. split; simpl; try lia.
  - intros n Hn. destruct (Z.le_gt_cases n 0); [lia|].
    rewrite len_snoc in Hn. apply zero_run_cases in Hn as [(?&?&?&_)|(?&?&?)]; lia.
  - intros Hb. apply zero_run_snoc; [apply inv_best_run0; done|by apply inv_best_run0].
  - intros a n Hn. destruct (Z.le_gt_cases n 0); [lia|].
    apply zero_run_cases in Hn as [?|(?&?&?)]; [by eapply inv_best_max0|lia|lia].
  - intros a Hb Hr. apply zero_run_cases in Hr as [?|(?&?&?)]; [by apply inv_best_first0|lia|lia].
Qed.

(** A zero group extends the current run, by one, and possibly the best one. *)
Lemma run_inv_zero pre st cs :
  run_inv pre st -> cs = len pre - curLen st ->
  run_inv (pre ++ [0]) (if bestLen st <? curLen st + 1
                        then RunState cs (curLen st + 1) cs (curLen st + 1)
                        else RunState (bestStart st) (bestLen st) cs (curLen st + 1)).
Proof.
  intros [] ->.
  assert (zero_run pre (len pre - curLen st) (curLen st)) as Hcur.
  { destruct inv_cur0 as [[_ ->]|[Hp Hs]].
    - pose proof (len_nonneg pre). unfold zero_run. split_and!; [lia..|]. intros; lia.
    - replace (len pre - curLen st) with (curStart st) by lia. auto. }
  assert (0 <= curLen st) as Hc0 by apply Hcur.
  assert (zero_run (pre ++ [0]) (len pre - curLen st) (curLen st + 1)) as Hnew.
  { apply zero_run_last; [lia..|]. split; [done|].
    by replace (curLen st + 1 - 1) with (curLen st) by lia. }
  assert (forall a n, 0 < n -> zero_run (pre ++ [0]) a n ->
    zero_run pre a n \/ (a + n = len pre + 1 /\ n <= curLen st + 1)) as Hcases.
  { intros a n Hp H. apply zero_run_cases in H as [?|(H1 & _ & H2)]; [by left| |done].
    right. split; [done|]. enough (n - 1 <= curLen st) by lia.
    apply inv_cur_max0. by replace (len pre - (n - 1)) with a by lia. }
  assert (forall n, zero_run (pre ++ [0]) (len (pre ++ [0]) - n) n -> n <= curLen st + 1) as Hmax.
  { intros n H. destruct (Z.le_gt_cases n 0); [lia|]. rewrite len_snoc in H.
    apply Hcases in H as [(?&?&?&_)|]; lia. }
  destruct (bestLen st <? curLen st + 1) eqn:E; zbool; split; simpl; rewrite ?len_snoc; try lia;
    try (right; lia); try done.
  - intros n H. apply Hmax. by rewrite len_snoc.
  - intros a n H. destruct (Z.le_gt_cases n 0); [lia|].
    apply Hcases in H as [H|]; [|lia..]. apply inv_best_max0 in H. lia.
  - intros a _ H. apply Hcases in H as [H|]; [|lia..]. apply inv_best_max0 in H. lia.
  - intros n H. apply Hmax. by rewrite len_snoc.
  - intros Hb. specialize (inv_best_run0 Hb). apply zero_run_snoc; [apply inv_best_run0|done].
  - intros a n H. destruct (Z.le_gt_cases n 0); [lia|].
    apply Hcases in H as [H|]; [by eapply inv_best_max0|lia|lia].
  - intros a Hb H. specialize (inv_best_run0 Hb) as (?&?&?&_).
    apply Hcases in H as [H|]; [by apply inv_best_first0|lia|lia].
Qed.

Lemma run_step_inv pre g st : run_inv pre st -> run_inv (pre ++ [g]) (run_step (len pre) g st).
Proof.
  intros H. unfold run_step. destruct (g =? 0) eqn:E; zbool; [subst g|by apply run_inv_nonzero].
  apply (run_inv_zero _ _ (if curStart st =? -1 then len pre else curStart st)); [done|].
  pose proof (inv_cur _ _ H) as [[-> ->]|[Hp Hs]]; [simpl; lia|].
  destruct (inv_cur_run _ _ H Hp) as (? & _).
  destruct (curStart st =? -1) eqn:?; zbool; lia.
Qed.

Lemma run_loop_inv pre gs st :
  run_inv pre st -> run_inv (pre ++ gs) (run_loop (len pre) gs st).
Proof.
  revert pre st. induction gs as [|g gs IH]; intros pre st H; simpl; [by rewrite app_nil_r|].
  rewrite <- len_snoc with (x := g).
  replace (pre ++ g :: gs) with ((pre ++ [g]) ++ gs) by by rewrite <- app_assoc.
  apply IH. by apply run_step_inv.
Qed.

Lemma longest_run_inv gs : run_inv gs (longest_run gs).
Proof. apply (run_loop_inv []), run_inv_nil. Qed.

(** ** Lemmas: the wire form *)

Lemma read_groups_spec n i bs :
  0 <= i -> (i + Z.of_nat n) * 2 <= len bs ->
  exists gs, read_groups n i bs = Ok gs /\ length gs = n /\ Forall group16 gs
    /\ groups_bytes gs = take (2 * n) (drop (Z.to_nat (i * 2)) bs).
Proof.
  revert i. induction n as [|n IH]; intros i Hi Hb; [by exists []|].
  destruct (IH (i + 1) ltac:(lia) ltac:(lia)) as (gs & E & Hl & Hg & Hbs).
  destruct (getUintBE_total 2 bs (i * 2) ltac:(lia) ltac:(lia)) as (g & Eg & Hr).
  exists (g :: gs). cbn [read_groups]. rewrite Eg. rbind. rewrite E. rbind.
  split; [done|]. split; [by f_equal/=|]. split; [constructor; [unfold group16; lia|done]|].
  unfold getUintBE in Eg. rewrite view_read_ok in Eg by lia. injection Eg as Eg.
  change (groups_bytes (g :: gs)) with (be_split 2 g ++ groups_bytes gs).
  rewrite Hbs, <- Eg, be_split_combine.
  - replace (Z.to_nat ((i + 1) * 2)) with (Z.to_nat (i * 2) + 2)%nat by lia.
    rewrite <- drop_drop. replace (2 * S n)%nat with (2 + 2 * n)%nat by lia.
    by rewrite take_take_drop.
  - rewrite length_take, length_drop. unfold len in Hb. lia.
Qed.

Lemma zero_run_split gs a n :
  zero_run gs a n ->
  gs = take (Z.to_nat a) gs ++ replicate (Z.to_nat n) 0 ++ drop (Z.to_nat (a + n)) gs.
Proof.
  intros (H1 & H2 & H3 & H4). unfold len in H3.
  rewrite <- (take_drop (Z.to_nat a) gs) at 1. f_equal.
  rewrite <- (take_drop (Z.to_nat n) (drop (Z.to_nat a) gs)) at 1.
  rewrite drop_drop. replace (Z.to_nat a + Z.to_nat n)%nat with (Z.to_nat (a + n)) by lia.
  f_equal. symmetry. apply replicate_as_elem_of. split.
  - rewrite length_take, length_drop. lia.
  - intros y Hy. apply list_elem_of_lookup in Hy as [j Hj].
    apply lookup_take_Some in Hj as [Hj Hjn]. rewrite lookup_drop in Hj.
    specialize (H4 (a + Z.of_nat j) ltac:(lia)).
    replace (Z.to_nat (a + Z.of_nat j)) with (Z.to_nat a + j)%nat in H4 by lia. congruence.
Qed.

Lemma parse_format_groups gs :
  length gs = 8%nat -> Forall group16 gs -> parseIPv6 (format_groups gs) = Some (groups_bytes gs).
Proof.
  intros Hl Hg. unfold format_groups. destruct (1 <? bestLen (longest_run gs)) eqn:E; zbool.
  - pose proof (inv_best_run _ _ (longest_run_inv gs) ltac:(lia)) as Hr.
    set (a := bestStart (longest_run gs)) in *. set (n := bestLen (longest_run gs)) in *.
    pose proof Hr as (Ha & Hn & Hb & _). unfold len in Hb.
    unfold slice, slice_from. rewrite drop_0, Z.sub_0_r.
    rewrite (parse_compressed _ _ (Z.to_nat n)).
    + by rewrite <- zero_run_split.
    + by apply Forall_take.
    + by apply Forall_drop.
    + rewrite length_take, length_drop. lia.
  - rewrite (parse_uncompressed gs 0); [|by destruct gs|done|lia]. simpl. by rewrite app_nil_r.
Qed.

Lemma format_groups_colon gs : length gs = 8%nat -> includes (jss ":") (format_groups gs) = true.
Proof.
  intros Hl. change (jss ":") with [58]. apply includes_single. unfold format_groups.
  destruct (1 <? _); [set_solver|]. do 2 (destruct gs as [|? gs]; [done|]). simpl. set_solver.
Qed.

Lemma parse_octets_text bs :
  parse_octets (List.map (fun b => to_string 10 (byte.unsigned b)) bs) = Some bs.
Proof.
  induction bs as [|b bs IH]; [done|]. simpl. pose proof (byte.unsigned_range b).
  destruct (octet_roundtrip (byte.unsigned b) ltac:(lia)) as (-> & _).
  rewrite (proj2 (Z.ltb_ge _ 0)), (proj2 (Z.ltb_ge 255 _)) by lia. simpl. rewrite IH. simpl.
  by rewrite byte.of_Z_unsigned.
Qed.

Lemma octet_texts_sep bs c :
  c = 58 \/ c = 46 ->
  Forall (fun p => c ∉ p) (List.map (fun b => to_string 10 (byte.unsigned b)) bs).
Proof.
  intros Hc. induction bs as [|b bs IH]; simpl; constructor; [|done].
  pose proof (byte.unsigned_range b).
  destruct (octet_roundtrip (byte.unsigned b) ltac:(lia)) as (_ & ? & ?).
  by destruct Hc as [-> | ->].
Qed.

Lemma parse_format_v4 bs : length bs = 4%nat -> parseIPv4 (formatIPv4 bs) = Some bs.
Proof.
  intros Hl. unfold parseIPv4, formatIPv4. change (jss ".") with [46].
  rewrite split_join; [|by destruct bs|by apply octet_texts_sep; right].
  unfold len. rewrite length_map, Hl. apply parse_octets_text.
Qed.

Lemma format_v4_no_colon bs : includes (jss ":") (formatIPv4 bs) = false.
Proof.
  change (jss ":") with [58]. apply includes_single_false, js_join_not_in.
  - by apply octet_texts_sep; left.
  - change (58 ∉ [46]). set_solver.
Qed.

Lemma format_v6_total bs :
  length bs = 16%nat ->
  exists gs, formatIPv6 bs = Ok (format_groups gs) /\ length gs = 8%nat
    /\ Forall group16 gs /\ groups_bytes gs = bs.
Proof.
  intros Hl. destruct (read_groups_spec 8 0 bs ltac:(lia) ltac:(unfold len; lia))
    as (gs & E & H1 & H2 & H3).
  exists gs. unfold formatIPv6. rewrite E. split; [done|]. split; [done|]. split; [done|].
  rewrite H3, drop_0. apply take_ge. lia.
Qed.

Lemma decode_total bs : length bs = 16%nat -> exists s, p2pDecodeIp bs = Ok s.
Proof.
  intros Hl. unfold p2pDecodeIp. case_bool_decide; [by eexists|].
  destruct (format_v6_total bs Hl) as (gs & -> & _). by eexists.
Qed.

Lemma encode_decode (b16 : bytes) :
  length b16 = 16%nat ->
  exists s, p2pDecodeIp b16 = Ok s /\ p2pEncodeIp s = Ok b16.
Proof.
  intros Hl. unfold p2pDecodeIp. case_bool_decide as Hm.
  - eexists. split; [done|]. unfold p2pEncodeIp. rewrite format_v4_no_colon.
    unfold slice. rewrite parse_format_v4 by (rewrite length_take, length_drop; lia).
    rewrite <- Hm, (take_ge (drop _ _)) by (rewrite length_drop; lia).
    change (Z.to_nat 12) with 12%nat. by rewrite take_drop.
  - destruct (format_v6_total b16 Hl) as (gs & -> & H8 & Hg & Hbs).
    eexists. split; [done|]. unfold p2pEncodeIp.
    by rewrite format_groups_colon, parse_format_groups, Hbs.
Qed.

Lemma parse_octets_length parts bs : parse_octets parts = Some bs -> length bs = length parts.
Proof.
  revert bs. induction parts as [|p parts IH]; intros bs H; simpl in H; simplify_eq; [done|].
  repeat case_match; try done. destruct (parse_octets parts); simplify_eq/=. f_equal. auto.
Qed.

Lemma parse_groups_length gs bs : parse_groups gs = Some bs -> length bs = (2 * length gs)%nat.
Proof.
  revert bs. induction gs as [|g gs IH]; intros bs H; cbn [parse_groups] in H; [by simplify_eq|].
  repeat case_match; try done. destruct (parse_groups gs); [|done]. injection H as <-.
  simpl. rewrite (IH _ eq_refl). lia.
Qed.

Lemma encode_length ip b : p2pEncodeIp ip = Ok b -> length b = 16%nat.
Proof.
  unfold p2pEncodeIp. intros H. destruct (includes (jss ":") ip).
  - destruct (parseIPv6 ip) as [v6|] eqn:E; simplify_eq. unfold parseIPv6 in E.
    match type of E with context [match ?x with (_, _) => _ end] => destruct x as [hd tl] end.
    cbv zeta in E. destruct (_ <? 0); [done|].
    destruct (negb _) eqn:E8; [done|]. apply negb_false_iff in E8. zbool.
    apply parse_groups_length in E. unfold len in *. lia.
  - destruct (parseIPv4 ip) as [v4|] eqn:E; simplify_eq. unfold parseIPv4 in E.
    destruct (negb _) eqn:E4; [done|]. apply negb_false_iff in E4. zbool.
    apply parse_octets_length in E. unfold len in E4. simpl. lia.
Qed.
(** C36: the text of any 16-byte wire address (IPv4-mapped or IPv6, with the
    zero run compressed) encodes back to the same 16 bytes. *)
Theorem ip_roundtrip (b16 : bytes) :
  length b16 = 16%nat -> exists s, p2pDecodeIp b16 = Ok s /\ p2pEncodeIp s = Ok b16.
Proof. apply encode_decode. Qed.

Lemma ip_roundtrip_witness :
  exists s, p2pDecodeIp (Byte.x20 :: replicate 15 Byte.x00) = Ok s
    /\ p2pEncodeIp s = Ok (Byte.x20 :: replicate 15 Byte.x00).
Proof. apply (ip_roundtrip (Byte.x20 :: replicate 15 Byte.x00)). reflexivity. Defined.

(** The search of [formatIPv6] finds the first of the longest runs of zero
    groups, and reports length 0 only when no group is zero. *)
Theorem longest_run_first_longest (gs : list Z) :
  (0 < bestLen (longest_run gs) -> zero_run gs (bestStart (longest_run gs)) (bestLen (longest_run gs)))
  /\ (forall a n, zero_run gs a n -> n <= bestLen (longest_run gs))
  /\ (forall a, 0 < bestLen (longest_run gs) -> zero_run gs a (bestLen (longest_run gs)) ->
        bestStart (longest_run gs) <= a).
Proof. destruct (longest_run_inv gs). auto. Qed.

(** A text of fewer than eight groups without a double colon is accepted:
    zero groups are appended to it.  RFC 4291 has no such form. *)
Theorem parseIPv6_pads_short_text (gs : list Z) (n : nat) :
  gs <> [] -> Forall group16 gs -> (length gs + n = 8)%nat ->
  parseIPv6 (js_join (List.map (to_string 16) gs) (jss ":"))
  = Some (groups_bytes (gs ++ replicate n 0)).
Proof. apply parse_uncompressed. Qed.

Lemma parseIPv6_pads_short_text_witness :
  parseIPv6 (jss "1:2:3") = Some (groups_bytes ([1; 2; 3] ++ replicate 5 0)).
Proof.
  apply (parseIPv6_pads_short_text [1; 2; 3] 5); [discriminate| |reflexivity].
  repeat constructor; discriminate.
Defined.

End Ip.
