(* ===== verification/Base32.v ===== *)
(** * Base32 ([worker/src/protocol.js], lines 276-291)

    [base32Encode] keeps its bit buffer in a 32-bit integer that overflows;
    it is proved equal to the RFC 4648 definition on bit strings. *)

From Stdlib Require Import String.
From S2P Require Import Prelude JsText.

Module Base32.

(** The conversions of the bitwise operators. *)
Definition int32 (n : Z) : Z := (n + 2 ^ 31) mod 2 ^ 32 - 2 ^ 31.
Definition uint32 (n : Z) : Z := n mod 2 ^ 32.

(** [a << k], [a | b], [a >>> k] *)
Definition shl (a k : Z) : Z := int32 (Z.shiftl (int32 a) k).
Definition bor (a b : Z) : Z := int32 (Z.lor (int32 a) (int32 b)).
Definition ushr (a k : Z) : Z := Z.shiftr (uint32 a) k.

Definition BASE32_ALPHABET : jsstr := jss "abcdefghijklmnopqrstuvwxyz234567".

(** [BASE32_ALPHABET[i]] *)
Definition alphabet (i : Z) : Z := default 0 (BASE32_ALPHABET !! Z.to_nat i).

(** The inner [while (bits >= 5)] loop: the output and the bits left.  Every
    turn removes 5 bits, so [bits] turns are enough. *)
Fixpoint emit (fuel : nat) (value bits : Z) : jsstr * Z :=
  if 5 <=? bits then
    match fuel with
    | O => ([], bits)
    | S f =>
      let c := alphabet (Z.land (ushr value (bits - 5)) 31) in
      let '(out, bits') := emit f value (bits - 5) in (c :: out, bits')
    end
  else ([], bits).

(** The outer loop, with the final partial group. *)
Fixpoint encode_loop (bs : bytes) (bits value : Z) : jsstr :=
  match bs with
  | [] => if 0 <? bits then [alphabet (Z.land (shl value (5 - bits)) 31)] else []
  | b :: bs' =>
    let value := bor (shl value 8) (byte.unsigned b) in
    let bits := bits + 8 in
    let '(out, bits) := emit (Z.to_nat bits) value bits in
    out ++ encode_loop bs' bits value
  end.

Definition base32Encode (bs : bytes) : jsstr := encode_loop bs 0 0.

(** ** The definition of RFC 4648 *)

(** The bits of a byte, most significant first. *)
Definition byte_bits (b : Init.Byte.byte) : list bool :=
  List.map (fun i => Z.testbit (byte.unsigned b) i) [7; 6; 5; 4; 3; 2; 1; 0].

Definition bits_value (bs : list bool) : Z := fold_left (fun v b => 2 * v + Z.b2z b) bs 0.

(** Groups of five bits, the last one filled with zero bits on the right. *)
Fixpoint quintets (bs : list bool) : list Z :=
  match bs with
  | b4 :: b3 :: b2 :: b1 :: b0 :: rest => bits_value [b4; b3; b2; b1; b0] :: quintets rest
  | [] => []
  | short => [bits_value (take 5 (short ++ [false; false; false; false]))]
  end.

Definition rfc4648_base32 (bs : bytes) : jsstr :=
  List.map alphabet (quintets (concat (List.map byte_bits bs))).

Example base32_foobar : base32Encode (text_encode (jss "foobar")) = jss "mzxw6ytboi".
Proof. vm_compute. reflexivity. Qed.

(** ** Lemmas *)

Lemma bits_value_app xs ys :
  bits_value (xs ++ ys) = bits_value xs * 2 ^ len ys + bits_value ys.
Proof.
  unfold bits_value. rewrite fold_left_app.
  generalize (fold_left (fun v b => 2 * v + Z.b2z b) xs 0). intros v.
  assert (forall u w, fold_left (fun v b => 2 * v + Z.b2z b) ys (u + w)
    = u * 2 ^ len ys + fold_left (fun v b => 2 * v + Z.b2z b) ys w) as H.
  { induction ys as [|y ys IH]; intros u w; [rewrite len_nil; simpl; lia|].
    simpl. replace (2 * (u + w) + Z.b2z y) with (2 * u + (2 * w + Z.b2z y)) by lia.
    rewrite IH, len_cons, Z.pow_add_r, Z.pow_1_r by (pose proof (len_nonneg ys); lia). lia. }
  specialize (H v 0). by rewrite Z.add_0_r in H.
Qed.

Lemma bits_value_range xs : 0 <= bits_value xs < 2 ^ len xs.
Proof.
  induction xs as [|x xs IH] using rev_ind; [done|].
  rewrite bits_value_app, len_app, Z.pow_add_r by (apply len_nonneg || done).
  change (2 ^ len [x]) with 2. destruct x; unfold bits_value at 2 4; simpl; lia.
Qed.

Lemma byte_bits_value b : bits_value (byte_bits b) = byte.unsigned b.
Proof. by destruct b. Qed.

Lemma len_byte_bits b : len (byte_bits b) = 8.
Proof. reflexivity. Qed.

Lemma mod_pow2_mod a m k : 0 <= k <= m -> (a mod 2 ^ m) mod 2 ^ k = a mod 2 ^ k.
Proof.
  intros H. rewrite <- !Z.land_ones by lia. rewrite <- Z.land_assoc, (Z.land_ones (Z.ones m)) by lia.
  f_equal. rewrite <- Z.land_ones by lia. apply Z.bits_inj'. intros i Hi. rewrite Z.land_spec.
  destruct (Z.lt_ge_cases i k).
  - by rewrite !Z.ones_spec_low by lia.
  - rewrite (Z.ones_spec_high k) by lia. by rewrite andb_false_r.
Qed.

Lemma int32_mod a k : 0 <= k <= 32 -> int32 a mod 2 ^ k = a mod 2 ^ k.
Proof.
  intros Hk. unfold int32.
  rewrite Zminus_mod, mod_pow2_mod by lia. rewrite <- Zminus_mod. f_equal. lia.
Qed.

(** The buffer after one more byte agrees, on its low bits, with the number. *)
Lemma push_byte_mod value b k :
  0 <= k <= 32 ->
  bor (shl value 8) (byte.unsigned b) mod 2 ^ k = (value * 256 + byte.unsigned b) mod 2 ^ k.
Proof.
  intros Hk. pose proof (byte.unsigned_range b) as Hb. unfold bor, shl.
  rewrite int32_mod by done.
  set (x := int32 (int32 _)).
  assert (x mod 2 ^ 32 = (value * 256) mod 2 ^ 32) as Hx.
  { unfold x. rewrite !int32_mod, Z.shiftl_mul_pow2 by lia.
    change (2 ^ 8) with 256. rewrite <- Zmult_mod_idemp_l, int32_mod by lia.
    by rewrite Zmult_mod_idemp_l. }
  assert (int32 (byte.unsigned b) = byte.unsigned b) as ->.
  { unfold int32. rewrite Z.mod_small; lia. }
  rewrite <- (mod_pow2_mod _ 32 k), <- (mod_pow2_mod (value * 256 + _) 32 k) by lia. f_equal.
  rewrite <- (Zplus_mod_idemp_l (value * 256)), <- Hx, Zplus_mod_idemp_l.
  f_equal. symmetry. rewrite Z.lor_comm.
  assert (x mod 256 = 0) as H0.
  { change 256 with (2 ^ 8). rewrite <- (mod_pow2_mod x 32 8), Hx, mod_pow2_mod by lia.
    change (2 ^ 8) with 256. apply Z.mod_mul. lia. }
  assert (Z.land (byte.unsigned b) x = 0) as Hl.
  { replace (byte.unsigned b) with (Z.land (byte.unsigned b) (Z.ones 8))
      by (rewrite Z.land_ones by lia; apply Z.mod_small; lia).
    rewrite <- Z.land_assoc, (Z.land_comm _ x), Z.land_ones by lia.
    change (2 ^ 8) with 256. by rewrite H0, Z.land_0_r. }
  by rewrite Z.add_comm, Z.add_nocarry_lxor, Z.lxor_lor.
Qed.

(** Five bits out of the middle of a number. *)
Lemma shift_window a r : 0 <= r -> (a / 2 ^ r) mod 2 ^ 5 = a mod 2 ^ (r + 5) / 2 ^ r.
Proof.
  intros Hr. pose proof (Z.pow_pos_nonneg 2 r ltac:(lia) Hr).
  rewrite Z.pow_add_r, Z.rem_mul_r by lia.
  rewrite Z.add_comm, Z.mul_comm, Z.div_add_l by lia.
  rewrite (Z.div_small (a mod 2 ^ r)) by (apply Z.mod_pos_bound; lia). lia.
Qed.

(** The buffer holds the pending bits [q] in its low bits. *)
Definition holds (value : Z) (q : list bool) : Prop := value mod 2 ^ len q = bits_value q.

Lemma holds_suffix value h r : len (h ++ r) <= 32 -> holds value (h ++ r) -> holds value r.
Proof.
  unfold holds. rewrite len_app. intros Hl H.
  pose proof (len_nonneg h). pose proof (len_nonneg r).
  rewrite <- (mod_pow2_mod value (len h + len r)), H, bits_value_app by lia.
  rewrite Z.add_comm, Z.mod_add by (apply Z.pow_nonzero; lia).
  apply Z.mod_small, bits_value_range.
Qed.

Lemma window_bits value h r :
  length h = 5%nat -> len r <= 27 -> holds value (h ++ r) ->
  Z.land (ushr value (len r)) 31 = bits_value h.
Proof.
  intros Hh Hr H. unfold ushr, uint32. pose proof (len_nonneg r).
  change 31 with (Z.ones 5). rewrite Z.land_ones, Z.shiftr_div_pow2, shift_window by lia.
  rewrite mod_pow2_mod by lia. unfold holds in H. rewrite len_app in H.
  replace (len r + 5) with (len h + len r) by (unfold len; lia). rewrite H, bits_value_app.
  rewrite Z.div_add_l by (apply Z.pow_nonzero; lia).
  rewrite (Z.div_small (bits_value r)) by apply bits_value_range. lia.
Qed.

Lemma quintets_cons h t :
  length h = 5%nat -> quintets (h ++ t) = bits_value h :: quintets t.
Proof. intros Hh. do 6 (destruct h as [|? h]; try done). Qed.

Lemma emit_spec fuel value q :
  (length q <= fuel)%nat -> len q <= 32 -> holds value q ->
  exists out p, emit fuel value (len q) = (List.map alphabet out, len p) /\ len p < 5
    /\ holds value p /\ forall t, quintets (q ++ t) = out ++ quintets (p ++ t).
Proof.
  revert q. induction fuel as [|f IH]; intros q Hf Hq H.
  - destruct q; [|simpl in Hf; lia]. by exists [], [].
  - cbn [emit]. destruct (5 <=? len q) eqn:E; zbool; [|by exists [], q].
    assert (exists h r, q = h ++ r /\ length h = 5%nat) as (h & r & -> & Hh).
    { exists (take 5 q), (drop 5 q). rewrite take_drop, length_take. unfold len in E. split; [done|lia]. }
    assert (len (h ++ r) - 5 = len r) as -> by (rewrite len_app; unfold len; lia).
    rewrite len_app in Hq. rewrite length_app in Hf.
    assert (len h = 5) as Hh' by (unfold len; lia).
    destruct (IH r) as (out & p & -> & Hp & Hv & Ht); [lia|lia|eapply holds_suffix; [|done]; rewrite len_app; lia|].
    rewrite (window_bits _ h) by (done || lia).
    exists (bits_value h :: out), p. split; [done|]. split; [done|]. split; [done|].
    intros t. rewrite <- app_assoc, quintets_cons by done. by rewrite Ht.
Qed.

(** The final partial group. *)
Lemma last_group value p :
  0 < len p < 5 -> holds value p ->
  [alphabet (Z.land (shl value (5 - len p)) 31)] = List.map alphabet (quintets p).
Proof.
  intros Hl H.
  assert (quintets p = [bits_value p * 2 ^ (5 - len p)]) as ->.
  { unfold len in Hl. do 5 (destruct p as [|[] p]; try (simpl in Hl; lia); try reflexivity). }
  simpl. do 2 f_equal. change 31 with (Z.ones 5). rewrite Z.land_ones by lia.
  unfold shl. rewrite int32_mod, Z.shiftl_mul_pow2 by lia.
  rewrite <- Zmult_mod_idemp_l, int32_mod, Zmult_mod_idemp_l by lia.
  unfold holds in H. rewrite <- H.
  replace 5 with (len p + (5 - len p)) at 2 by lia.
  rewrite Z.pow_add_r by lia. apply Z.mul_mod_distr_r; apply Z.pow_nonzero; lia.
Qed.

Lemma encode_loop_spec bs value p :
  len p < 5 -> holds value p ->
  encode_loop bs (len p) value
  = List.map alphabet (quintets (p ++ concat (List.map byte_bits bs))).
Proof.
  revert value p. induction bs as [|b bs IH]; intros value p Hp H; cbn [encode_loop].
  - simpl. rewrite app_nil_r. destruct (0 <? len p) eqn:E; zbool; [by apply last_group|].
    destruct p; [done|]. rewrite len_cons in E. pose proof (len_nonneg p). lia.
  - set (q := p ++ byte_bits b).
    assert (len p + 8 = len q) as -> by (unfold q; rewrite len_app; done).
    assert (len q <= 32) as Hq by (unfold q; rewrite len_app, len_byte_bits; lia).
    destruct (emit_spec (Z.to_nat (len q)) (bor (shl value 8) (byte.unsigned b)) q)
      as (out & p' & -> & Hp' & Hv & Ht); [unfold len; lia|done| |].
    { unfold holds. pose proof (len_nonneg q). rewrite push_byte_mod by lia.
      unfold q. rewrite bits_value_app, byte_bits_value, len_app, len_byte_bits.
      pose proof (len_nonneg p). pose proof (bits_value_range p) as Hbp.
      pose proof (byte.unsigned_range b) as Hb.
      unfold holds in H. rewrite Z.pow_add_r by lia. change (2 ^ 8) with 256 in *.
      rewrite (Z.mul_comm (2 ^ len p)), Z.rem_mul_r by lia.
      rewrite (Z.add_comm (value * 256)), Z.mod_add, Z.div_add by lia.
      rewrite (Z.mod_small (byte.unsigned b)), (Z.div_small (byte.unsigned b)), Z.add_0_l, H by lia.
      lia. }
    rewrite IH by done.
    change (concat (List.map byte_bits (b :: bs)))
      with (byte_bits b ++ concat (List.map byte_bits bs)).
    rewrite app_assoc. fold q.
    by rewrite Ht, List.map_app.
Qed.

(** The streaming encoder, with its 32-bit accumulator that is never
    cleared, gives the unpadded RFC 4648 base32 text: the bits of the input in
    groups of five, the last one filled with zeros. *)
Theorem base32Encode_rfc4648 (bs : bytes) : base32Encode bs = rfc4648_base32 bs.
Proof. apply (encode_loop_spec bs 0 []); done. Qed.

End Base32.
