(* ===== verification/Messages.v ===== *)
(** * Message payloads ([worker/src/protocol.js], lines 170-353)

    The [version], [addr] and [addrv2] payloads.  Offsets are exact integers as
    long as they are sums of small constants; where the code adds a length
    taken from the wire, the sum is the rounded one of JavaScript ([num_add]). *)

From Stdlib Require Import String.
From S2P Require Import Prelude JsText Utf8 Varint Ip Base32.

Import Utf8 Varint Ip Base32.

Module Messages.

Definition P2P_PROTOCOL_VERSION : Z := 70017.

Definition packUint64 (n : Z) : bytes := le_split 8 n.

(** [Number(dv.getBigUint64(offset, true))] *)
Definition readUint64 (buf : bytes) (offset : Z) : res Z :=
  v ← getUintLE 8 buf offset; Ok (to_double v).

(** [p2pEncodeAddr(ip, port, services, time)]; [time] is [null] in "version". *)
Definition p2pEncodeAddr (ip : jsstr) (port services : Z) (time : option Z) : res bytes :=
  let t := match time with Some t => le_split 4 t | None => [] end in
  ip16 ← p2pEncodeIp ip;
  Ok (t ++ packUint64 services ++ ip16 ++ be_split 2 port).

(** [p2pBuildVersionPayload(theirIp, theirPort, userAgent)]; the random nonce
    and [Date.now()] are arguments. *)
Definition p2pBuildVersionPayload (theirIp : jsstr) (theirPort : Z) (userAgent : jsstr)
    (nonce : bytes) (now_ms : Z) : res bytes :=
  let ua := text_encode userAgent in
  let version := le_split 4 P2P_PROTOCOL_VERSION in
  let services := packUint64 0 in
  let timestamp := packUint64 (now_ms / 1000) in
  addrRecv ← p2pEncodeAddr theirIp theirPort 0 None;
  addrFrom ← p2pEncodeAddr (jss "0.0.0.0") 0 0 None;
  let uaLen := p2pVarint (len ua) in
  let startHeight := le_split 4 0 in
  let relay := [Byte.x00] in
  Ok (version ++ services ++ timestamp ++ addrRecv ++ addrFrom ++ nonce ++ uaLen ++ ua
      ++ startHeight ++ relay).

Record VersionInfo := {
  version : Z; services : Z; subver : jsstr; startHeight : Z
}.

(** [if (len >= offset + n) offset += n] *)
Definition skip (n length offset : Z) : Z := if offset + n <=? length then offset + n else offset.

(** The [subver] part of [p2pParseVersionPayload]: the text and the new offset. *)
Definition parse_subver (payload : bytes) (offset : Z) : res (jsstr * Z) :=
  if offset <? len payload then
    vi ← p2pReadVarint payload offset;
    match vi with
    | Some (strLen, newOffset) =>
      let e := num_add newOffset strLen in
      if e <=? len payload then Ok (text_decode (slice payload newOffset e), e)
      else Ok ([], offset)
    | None => Ok ([], offset)
    end
  else Ok ([], offset).

Definition p2pParseVersionPayload (payload : bytes) : res VersionInfo :=
  let l := len payload in
  if l <? 4 then Ok {| version := 0; services := 0; subver := []; startHeight := 0 |}
  else
    version ← getUintLE 4 payload 0;
    services ← (if 4 + 8 <=? l then readUint64 payload 4 else Ok 0);
    (* the timestamp, then addr_recv, addr_from and the nonce when present *)
    let offset := skip 8 l (skip 26 l (skip 26 l 20)) in
    '(subver, offset) ← parse_subver payload offset;
    startHeight ← (if offset + 4 <=? l then getUintLE 4 payload offset else Ok 0);
    Ok {| version := version; services := services; subver := subver; startHeight := startHeight |}.

(** An entry of a legacy [addr] message. *)
Record LegacyAddr := { la_ip : jsstr; la_port : Z; la_time : Z; la_services : Z }.

(** The entry at [offset]: time(4), services(8), ip(16), port(2). *)
Definition parse_addr_entry (payload : bytes) (offset : Z) : res LegacyAddr :=
  time ← getUintLE 4 payload offset;
  services ← readUint64 payload (offset + 4);
  ip ← p2pDecodeIp (slice payload (offset + 12) (offset + 28));
  port ← getUintBE 2 payload (offset + 28);
  Ok {| la_ip := ip; la_port := port; la_time := time; la_services := services |}.

(** The loop [for (let i = 0; i < count; i++)] from index [i]. *)
Fixpoint addr_loop (fuel : nat) (payload : bytes) (count i offset : Z) : res (list LegacyAddr) :=
  if i <? count then
    match fuel with
    | O => Throw OutOfFuel
    | S f =>
      if len payload <? offset + 30 then Ok []
      else
        a ← parse_addr_entry payload offset;
        rest ← addr_loop f payload count (i + 1) (offset + 30);
        Ok (a :: rest)
    end
  else Ok [].

(** Every entry takes 30 bytes, so the length of the payload bounds the turns. *)
Definition p2pParseAddrPayload (payload : bytes) : res (list LegacyAddr) :=
  vi ← p2pReadVarint payload 0;
  match vi with
  | None => Ok []
  | Some (count, offset) => addr_loop (S (length payload)) payload count 0 offset
  end.

(** ** BIP155 [addrv2] *)

Inductive Network := ipv4 | ipv6 | tor | i2p | cjdns.

Global Instance Network_eq_dec : EqDecision Network.
Proof. solve_decision. Defined.

Definition ADDRV2_NETWORK_NAMES (id : Z) : option Network :=
  match id with
  | 1 => Some ipv4 | 2 => Some ipv6 | 3 => Some tor | 4 => Some tor | 5 => Some i2p | 6 => Some cjdns
  | _ => None
  end.

Definition ADDRV2_NETWORK_LENGTHS (id : Z) : option Z :=
  match id with
  | 1 => Some 4 | 2 => Some 16 | 3 => Some 10 | 4 => Some 32 | 5 => Some 32 | 6 => Some 16
  | _ => None
  end.

Definition bytesToHex (bs : bytes) : jsstr :=
  concat (List.map (fun b => pad_start 2 (to_string 16 (byte.unsigned b))) bs).

(** A network-typed address. *)
Record PeerAddr := {
  pa_network : option Network; pa_ip : option jsstr; pa_key : option jsstr;
  pa_port : Z; pa_time : Z; pa_services : Z
}.

(** The [ip] and the [key] of an address of a known network. *)
Definition addr_text (network : Network) (addrBytes : bytes) : res (option jsstr * jsstr) :=
  match network with
  | ipv4 => let ip := formatIPv4 addrBytes in Ok (Some ip, ip)
  | ipv6 | cjdns => ip ← formatIPv6 addrBytes; Ok (Some ip, ip)
  | i2p => Ok (None, base32Encode addrBytes ++ jss ".b32.i2p")
  | tor => Ok (None, bytesToHex addrBytes)
  end.

(** One turn of the loop: the turn ends the loop ([None]), or it moves the
    offset and may yield an address. *)
Definition parse_addrv2_entry (payload : bytes) (offset : Z)
    : res (option (Z * option PeerAddr)) :=
  if len payload <? offset + 4 then Ok None
  else
    time ← getUintLE 4 payload offset;
    svi ← p2pReadVarint payload (offset + 4);
    match svi with
    | None => Ok None
    | Some (services, offset) =>
      if len payload <? offset + 1 then Ok None
      else
        networkId ← getUintLE 1 payload offset;
        lvi ← p2pReadVarint payload (offset + 1);
        match lvi with
        | None => Ok None
        | Some (addrLen, offset) =>
          if len payload <? num_add (num_add offset addrLen) 2 then Ok None
          else
            let addrBytes := slice payload offset (num_add offset addrLen) in
            let offset := num_add offset addrLen in
            port ← getUintBE 2 payload offset;
            match ADDRV2_NETWORK_NAMES networkId with
            | None => Ok (Some (offset + 2, None))
            | Some network =>
              if bool_decide (ADDRV2_NETWORK_LENGTHS networkId = Some addrLen) then
                '(ip, key) ← addr_text network addrBytes;
                Ok (Some (offset + 2, Some {| pa_network := Some network; pa_ip := ip;
                  pa_key := Some key; pa_port := port; pa_time := time; pa_services := services |}))
              else Ok (Some (offset + 2, None))
            end
        end
    end.

Fixpoint addrv2_loop (fuel : nat) (payload : bytes) (count i offset : Z) : res (list PeerAddr) :=
  if i <? count then
    match fuel with
    | O => Throw OutOfFuel
    | S f =>
      e ← parse_addrv2_entry payload offset;
      match e with
      | None => Ok []
      | Some (offset', oa) =>
        rest ← addrv2_loop f payload count (i + 1) offset';
        Ok (option_list oa ++ rest)
      end
    end
  else Ok [].

Definition p2pParseAddrV2Payload (payload : bytes) : res (list PeerAddr) :=
  vi ← p2pReadVarint payload 0;
  match vi with
  | None => Ok []
  | Some (count, offset) => addrv2_loop (S (length payload)) payload count 0 offset
  end.

(** ** Lemmas: the parsers return *)

Lemma readUint64_total buf offset :
  0 <= offset -> offset + 8 <= len buf -> exists v, readUint64 buf offset = Ok v /\ 0 <= v.
Proof.
  intros. destruct (getUintLE_total 8 buf offset) as (v & E & Hv); [lia..|].
  exists (to_double v). unfold readUint64. rewrite E. split; [done|]. apply to_double_nonneg. lia.
Qed.

Lemma skip_ge n l offset : 0 <= n -> offset <= skip n l offset.
Proof. intros. unfold skip. zcase. Qed.

Lemma parse_subver_total payload offset :
  0 <= offset -> exists s o, parse_subver payload offset = Ok (s, o) /\ 0 <= o.
Proof.
  intros Ho. unfold parse_subver. case_match; [|by eexists _, _].
  destruct (read_varint_total payload offset Ho) as [->|(v & o & -> & Hv & H1)]; rbind;
    [by eexists _, _|].
  case_match; [|by eexists _, _]. eexists _, _. split; [done|]. apply to_double_nonneg. lia.
Qed.

Lemma parse_version_total payload : exists v, p2pParseVersionPayload payload = Ok v.
Proof.
  unfold p2pParseVersionPayload. destruct (len payload <? 4) eqn:E; zbool; [by eexists|].
  destruct (getUintLE_total 4 payload 0) as (ver & -> & _); [lia..|]. rbind.
  assert (exists v, (if 4 + 8 <=? len payload then readUint64 payload 4 else Ok 0) = Ok v)
    as (sv & ->).
  { case_match; zbool; [|by eexists]. destruct (readUint64_total payload 4) as (v & -> & _); [lia..|].
    by eexists. }
  rbind.
  destruct (parse_subver_total payload (skip 8 (len payload) (skip 26 (len payload)
    (skip 26 (len payload) 20)))) as (s & o & -> & Ho).
  { etransitivity; [|by apply skip_ge]. etransitivity; [|by apply skip_ge].
    etransitivity; [|by apply skip_ge]. lia. }
  rbind. case_match; zbool; [|by eexists].
  destruct (getUintLE_total 4 payload o) as (h & -> & _); [lia..|]. by eexists.
Qed.

(** A legacy entry has a text the decoder made, and a 16-bit port. *)
Definition legacy_wf (a : LegacyAddr) : Prop :=
  (exists b16, length b16 = 16%nat /\ p2pDecodeIp b16 = Ok (la_ip a)) /\ 0 <= la_port a < 65536.

Lemma parse_addr_entry_total payload offset :
  0 <= offset -> offset + 30 <= len payload ->
  exists a, parse_addr_entry payload offset = Ok a /\ legacy_wf a.
Proof.
  intros H1 H2. unfold parse_addr_entry.
  destruct (getUintLE_total 4 payload offset) as (t & -> & _); [lia..|]. rbind.
  destruct (readUint64_total payload (offset + 4)) as (sv & -> & _); [lia..|]. rbind.
  assert (length (slice payload (offset + 12) (offset + 28)) = 16%nat) as H16.
  { pose proof (len_slice payload (offset + 12) (offset + 28)) as Hl. unfold len in *. lia. }
  destruct (decode_total _ H16) as (ip & E). rewrite E. rbind.
  destruct (getUintBE_total 2 payload (offset + 28)) as (p & -> & Hp); [lia..|]. eexists. split; [done|].
  split; [by eexists|]. cbn. lia.
Qed.

Lemma addr_loop_total fuel payload count i offset :
  0 <= offset -> len payload + 30 < offset + 30 * Z.of_nat fuel -> offset <= len payload ->
  exists l, addr_loop fuel payload count i offset = Ok l
    /\ offset + 30 * len l <= len payload /\ Forall legacy_wf l.
Proof.
  revert i offset. induction fuel as [|f IH]; intros i offset Ho Hf Hb; [lia|]. cbn [addr_loop].
  destruct (i <? count) eqn:Ei; zbool; [|exists []; split_and!; [done|autorewrite with js; lia|constructor]].
  destruct (len payload <? offset + 30) eqn:E; zbool;
    [exists []; split_and!; [done|autorewrite with js; lia|constructor]|].
  destruct (parse_addr_entry_total payload offset Ho E) as (a & -> & Ha). rbind.
  destruct (IH (i + 1) (offset + 30)) as (l & -> & H1 & H2); [lia..|].
  exists (a :: l). rewrite len_cons. split_and!; [done|lia|by constructor].
Qed.

Lemma parse_addr_total payload :
  exists l, p2pParseAddrPayload payload = Ok l /\ 30 * len l <= len payload /\ Forall legacy_wf l.
Proof.
  unfold p2pParseAddrPayload.
  destruct (read_varint_total payload 0 ltac:(lia)) as [->|(v & o & -> & Hv & H1)]; rbind.
  - exists []. pose proof (len_nonneg payload). split_and!; [done|autorewrite with js; lia|constructor].
  - pose proof (len_nonneg payload).
    destruct (addr_loop_total (S (length payload)) payload v 0 o) as (l & -> & Hl & Hw);
      [lia| unfold len in *; lia |lia|].
    exists l. split_and!; [done|lia|done].
Qed.

(** The text of an IPv4 ([colon = false]) or IPv6 address that can be put into
    a version message again. *)
Definition ip_text (colon : bool) (t : jsstr) : Prop :=
  includes (jss ":") t = colon /\ exists b16, p2pEncodeIp t = Ok b16.

(** What the parsers promise of an address: only the networks that have IP
    addresses carry one, which is then the key; every other key is the text of
    the raw address. *)
Definition addr_wf (a : PeerAddr) : Prop :=
  match pa_network a with
  | Some ipv4 => pa_ip a = pa_key a /\ exists t, pa_key a = Some t /\ ip_text false t
  | Some (ipv6 | cjdns) => pa_ip a = pa_key a /\ exists t, pa_key a = Some t /\ ip_text true t
  | Some (tor | i2p) => pa_ip a = None /\ is_Some (pa_key a)
  | None => False
  end /\ 0 <= pa_port a < 65536.

Lemma format_v4_ip_text bs : length bs = 4%nat -> ip_text false (formatIPv4 bs).
Proof.
  intros Hl. split; [apply format_v4_no_colon|]. exists (mapped ++ bs). unfold p2pEncodeIp.
  by rewrite format_v4_no_colon, parse_format_v4.
Qed.

Lemma format_groups_ip_text gs : length gs = 8%nat -> Forall group16 gs -> ip_text true (format_groups gs).
Proof.
  intros Hl Hg. split; [by apply format_groups_colon|]. exists (groups_bytes gs). unfold p2pEncodeIp.
  by rewrite format_groups_colon, parse_format_groups.
Qed.

Lemma addr_text_total id network bs n :
  ADDRV2_NETWORK_NAMES id = Some network -> ADDRV2_NETWORK_LENGTHS id = Some n -> len bs = n ->
  exists ip key, addr_text network bs = Ok (ip, key)
    /\ match network with
       | ipv4 => ip = Some key /\ ip_text false key
       | ipv6 | cjdns => ip = Some key /\ ip_text true key
       | tor | i2p => ip = None
       end.
Proof.
  intros H1 H2 H3. unfold addr_text.
  assert (match network with ipv4 => length bs = 4%nat | ipv6 | cjdns => length bs = 16%nat | _ => True end) as Hn.
  { unfold ADDRV2_NETWORK_NAMES, ADDRV2_NETWORK_LENGTHS, len in *. repeat case_match; simplify_eq; lia. }
  destruct network; try (by eexists _, _).
  - eexists _, _. split; [done|]. split; [done|by apply format_v4_ip_text].
  - destruct (format_v6_total bs Hn) as (gs & -> & H8 & Hg & _). eexists _, _.
    split; [done|]. split; [done|by apply format_groups_ip_text].
  - destruct (format_v6_total bs Hn) as (gs & -> & H8 & Hg & _). eexists _, _.
    split; [done|]. split; [done|by apply format_groups_ip_text].
Qed.

Lemma parse_addrv2_entry_total payload offset :
  0 <= offset -> len payload < 2 ^ 53 ->
  parse_addrv2_entry payload offset = Ok None
  \/ exists o oa, parse_addrv2_entry payload offset = Ok (Some (o, oa))
       /\ offset + 9 <= o <= len payload /\ (forall a, oa = Some a -> addr_wf a).
Proof.
  intros Ho Hlen. unfold parse_addrv2_entry.
  destruct (len payload <? offset + 4) eqn:E1; zbool; [by left|].
  destruct (getUintLE_total 4 payload offset) as (t & -> & _); [lia..|]. rbind.
  destruct (read_varint_total payload (offset + 4) ltac:(lia)) as [->|(sv & o1 & -> & _ & H1)];
    rbind; [by left|].
  destruct (len payload <? o1 + 1) eqn:E2; zbool; [by left|].
  destruct (getUintLE_total 1 payload o1) as (id & -> & _); [lia..|]. rbind.
  destruct (read_varint_total payload (o1 + 1) ltac:(lia)) as [->|(al & o2 & -> & Hal & H2)];
    rbind; [by left|].
  destruct (len payload <? num_add (num_add o2 al) 2) eqn:E3; zbool; [by left|].
  destruct (num_add_bounded _ _ _ E3 Hlen) as [E4 H4].
  destruct (num_add_bounded o2 al (len payload) ltac:(lia) Hlen) as [E5 H5]. rewrite E5 in *.
  destruct (getUintBE_total 2 payload (o2 + al)) as (p & -> & Hp); [lia..|]. rbind.
  right. destruct (ADDRV2_NETWORK_NAMES id) as [network|] eqn:En;
    [|eexists _, _; split; [done|split; [lia|done]]].
  case_bool_decide as El; [|eexists _, _; split; [done|split; [lia|done]]].
  destruct (addr_text_total id network (slice payload o2 (o2 + al)) al) as (ip & key & -> & Hi);
    [done..|rewrite len_slice; lia|]. rbind.
  eexists _, _. split; [done|]. split; [lia|]. intros a [= <-]. split; simpl; [|lia].
  destruct network; [destruct Hi as [-> ?]..|subst ip|subst ip|destruct Hi as [-> ?]]; eauto.
Qed.

Lemma addrv2_loop_total fuel payload count i offset :
  0 <= offset -> len payload < 2 ^ 53 ->
  len payload + 9 < offset + 9 * Z.of_nat fuel -> offset <= len payload ->
  exists l, addrv2_loop fuel payload count i offset = Ok l
    /\ offset + 9 * len l <= len payload /\ Forall addr_wf l.
Proof.
  intros Ho Hlen. revert i offset Ho.
  induction fuel as [|f IH]; intros i offset Ho Hf Hb; [lia|]. cbn [addrv2_loop].
  destruct (i <? count) eqn:Ei; [|exists []; split_and!; [done|autorewrite with js; lia|constructor]].
  destruct (parse_addrv2_entry_total payload offset Ho Hlen) as [->|(o & oa & -> & H1 & H2)]; rbind;
    [exists []; split_and!; [done|autorewrite with js; lia|constructor]|].
  destruct (IH (i + 1) o) as (l & -> & H3 & H4); [lia..|]. rbind.
  exists (option_list oa ++ l). rewrite len_app. split; [done|]. destruct oa as [a|]; simpl.
  - split; [autorewrite with js; lia|]. constructor; [by apply H2|done].
  - split; [autorewrite with js; lia|done].
Qed.

Lemma parse_addrv2_total payload :
  len payload < 2 ^ 53 ->
  exists l, p2pParseAddrV2Payload payload = Ok l /\ 9 * len l <= len payload /\ Forall addr_wf l.
Proof.
  intros Hlen. unfold p2pParseAddrV2Payload. pose proof (len_nonneg payload).
  destruct (read_varint_total payload 0 ltac:(lia)) as [->|(v & o & -> & Hv & H1)]; rbind.
  - exists []. split_and!; [done|autorewrite with js; lia|constructor].
  - destruct (addrv2_loop_total (S (length payload)) payload v 0 o) as (l & -> & Hl & Hw);
      [lia|done|unfold len in *; lia|lia|].
    exists l. split_and!; [done|lia|done].
Qed.

(** ** Lemmas: reading back what was written *)

Lemma encode_addr_spec ip port sv time c :
  p2pEncodeAddr ip port sv time = Ok c ->
  exists ip16, p2pEncodeIp ip = Ok ip16 /\ length ip16 = 16%nat /\
    c = match time with Some t => le_split 4 t | None => [] end
        ++ le_split 8 sv ++ ip16 ++ be_split 2 port.
Proof.
  unfold p2pEncodeAddr. destruct (p2pEncodeIp ip) as [b|] eqn:E; rbind; intros H; [|done].
  apply Ok_inj in H as <-. exists b. split; [done|]. split; [by eapply encode_length|done].
Qed.

(** An entry of an [addr] payload with exactly representable fields. *)
Definition addr_ok (a : LegacyAddr) : Prop :=
  (exists b16, length b16 = 16%nat /\ p2pDecodeIp b16 = Ok (la_ip a))
  /\ 0 <= la_port a < 2 ^ 16 /\ 0 <= la_time a < 2 ^ 32 /\ 0 <= la_services a < 2 ^ 53.

Definition encode_entry (a : LegacyAddr) : res bytes :=
  p2pEncodeAddr (la_ip a) (la_port a) (la_services a) (Some (la_time a)).

Lemma encode_entry_ok a :
  addr_ok a -> exists b16, length b16 = 16%nat /\ p2pDecodeIp b16 = Ok (la_ip a) /\
    encode_entry a = Ok (le_split 4 (la_time a) ++ le_split 8 (la_services a) ++ b16
                         ++ be_split 2 (la_port a)).
Proof.
  intros [(b16 & Hl & Hd) _]. exists b16. split; [done|]. split; [done|].
  destruct (encode_decode b16 Hl) as (s & Hs & He). unfold encode_entry, p2pEncodeAddr.
  rewrite Hd in Hs. injection Hs as <-. by rewrite He.
Qed.

Lemma parse_entry_app a pre post c :
  addr_ok a -> encode_entry a = Ok c ->
  parse_addr_entry (pre ++ c ++ post) (len pre) = Ok a /\ len c = 30.
Proof.
  intros Ha Hc. destruct (encode_entry_ok a Ha) as (b16 & Hl & Hd & He).
  rewrite He in Hc. apply Ok_inj in Hc as <-. destruct Ha as (_ & Hp & Ht & Hs).
  set (f1 := le_split 4 (la_time a)). set (f2 := le_split 8 (la_services a)).
  set (f4 := be_split 2 (la_port a)).
  assert (length f1 = 4%nat) as L1 by apply length_le_split.
  assert (length f2 = 8%nat) as L2 by apply length_le_split.
  assert (length f4 = 2%nat) as L4 by apply length_be_split.
  assert (len (f1 ++ f2 ++ b16 ++ f4) = 30) as L by (rewrite !len_app; unfold len; lia).
  split; [|done]. unfold parse_addr_entry.
  replace (getUintLE 4 _ _) with (@Ok Z (la_time a)).
  2:{ rewrite <- app_assoc, getUintLE_mid by done. unfold f1. by rewrite le_combine_split_small. }
  rbind. unfold readUint64.
  replace (getUintLE 8 _ _) with (@Ok Z (la_services a)).
  2:{ replace (pre ++ (f1 ++ f2 ++ b16 ++ f4) ++ post) with ((pre ++ f1) ++ f2 ++ (b16 ++ f4 ++ post))
        by by rewrite <- !app_assoc.
      rewrite getUintLE_mid by (done || rewrite len_app; unfold len; lia).
      unfold f2. by rewrite le_combine_split_small by lia. }
  rbind. rewrite to_double_small by lia.
  replace (slice _ _ _) with b16.
  2:{ replace (pre ++ (f1 ++ f2 ++ b16 ++ f4) ++ post) with ((pre ++ f1 ++ f2) ++ b16 ++ (f4 ++ post))
        by by rewrite <- !app_assoc.
      rewrite slice_mid; [done|rewrite !len_app; unfold len; lia|unfold len; lia]. }
  rewrite Hd. rbind.
  replace (getUintBE 2 _ _) with (@Ok Z (la_port a)); [by destruct a|].
  replace (pre ++ (f1 ++ f2 ++ b16 ++ f4) ++ post) with ((pre ++ f1 ++ f2 ++ b16) ++ f4 ++ post)
    by by rewrite <- !app_assoc.
  rewrite getUintBE_mid by (done || rewrite !len_app; unfold len; lia).
  unfold f4. by rewrite combine_be_split.
Qed.

(** The payload of an [addr] message: the count, then the entries. *)
Fixpoint encode_entries (l : list LegacyAddr) : res bytes :=
  match l with
  | [] => Ok []
  | a :: l' => c ← encode_entry a; r ← encode_entries l'; Ok (c ++ r)
  end.

Lemma encode_entries_ok l : Forall addr_ok l -> exists c, encode_entries l = Ok c /\ len c = 30 * len l.
Proof.
  induction 1 as [|a l Ha _ (r & IH & Hr)]; [by exists []|].
  destruct (encode_entry_ok a Ha) as (b16 & _ & _ & He).
  eexists. simpl. rewrite He. rbind. rewrite IH. rbind. split; [done|].
  destruct (parse_entry_app a [] [] _ Ha He) as [_ Hl].
  rewrite len_app, Hl, len_cons, Hr. lia.
Qed.

Lemma addr_loop_encode l : forall fuel pre c i,
  Forall addr_ok l -> encode_entries l = Ok c -> (length l < fuel)%nat ->
  addr_loop fuel (pre ++ c) (i + len l) i (len pre) = Ok l.
Proof.
  induction l as [|a l IH]; intros fuel pre c i Hl Hc Hf; (destruct fuel as [|f]; [lia|]);
    cbn [addr_loop].
  - rewrite len_nil. by rewrite (proj2 (Z.ltb_ge i _)) by lia.
  - pose proof (len_nonneg l). apply Forall_cons_1 in Hl as [Ha Hl]. simpl in Hc.
    destruct (encode_entry_ok a Ha) as (b16 & _ & _ & He).
    rewrite He in Hc. cbn [mbind res_bind] in Hc.
    destruct (encode_entries l) as [r|] eqn:Er; [|done]. cbn [mbind res_bind] in Hc.
    apply Ok_inj in Hc as <-. set (c := le_split 4 _ ++ _) in *.
    destruct (parse_entry_app a pre r c Ha He) as [Hp H30].
    rewrite len_cons. rewrite (proj2 (Z.ltb_lt i _)) by lia.
    rewrite (proj2 (Z.ltb_ge _ _)) by (rewrite !len_app; pose proof (len_nonneg r); lia).
    rewrite Hp. rbind.
    replace (len pre + 30) with (len (pre ++ c)) by (rewrite len_app; lia).
    rewrite app_assoc. replace (i + (1 + len l)) with (i + 1 + len l) by lia.
    rewrite IH; [done|done|done|simpl in Hf; lia].
Qed.

Lemma parse_addr_roundtrip l c :
  Forall addr_ok l -> len l < 2 ^ 53 -> encode_entries l = Ok c ->
  p2pParseAddrPayload (p2pVarint (len l) ++ c) = Ok l.
Proof.
  intros Hl H53 Hc. pose proof (len_nonneg l). unfold p2pParseAddrPayload.
  pose proof (read_varint_app [] c (len l) ltac:(lia)) as Hv. simpl app in Hv.
  change (len (@nil Init.Byte.byte)) with 0 in Hv. rewrite Hv. rbind.
  rewrite to_double_small, Z.add_0_l by done.
  apply (addr_loop_encode l _ (p2pVarint (len l)) c 0); [done|done|].
  destruct (encode_entries_ok l Hl) as (c' & Hc' & Hlen). rewrite Hc in Hc'. apply Ok_inj in Hc' as <-.
  rewrite length_app. unfold len in Hlen. lia.
Qed.

(** *** The version payload *)

Lemma build_version_shape ip port ua nonce now payload :
  p2pBuildVersionPayload ip port ua nonce now = Ok payload ->
  exists recv from, length recv = 26%nat /\ length from = 26%nat /\
    payload = (le_split 4 P2P_PROTOCOL_VERSION ++ le_split 8 0 ++ le_split 8 (now / 1000)
               ++ recv ++ from ++ nonce)
              ++ p2pVarint (len (text_encode ua)) ++ text_encode ua ++ le_split 4 0 ++ [Byte.x00].
Proof.
  unfold p2pBuildVersionPayload.
  destruct (p2pEncodeAddr ip port 0 None) as [recv|] eqn:E1; rbind; [|done].
  destruct (p2pEncodeAddr (jss "0.0.0.0") 0 0 None) as [from|] eqn:E2; rbind; [|done].
  intros H. apply Ok_inj in H as <-. exists recv, from.
  apply encode_addr_spec in E1 as (b1 & _ & L1 & ->).
  apply encode_addr_spec in E2 as (b2 & _ & L2 & ->).
  rewrite !length_app, !length_le_split, !length_be_split, L1, L2. split; [done|]. split; [done|].
  unfold packUint64. by rewrite <- !app_assoc.
Qed.

Lemma skip_ok n l offset : offset + n <= l -> skip n l offset = offset + n.
Proof. intros. unfold skip. by rewrite (proj2 (Z.leb_le _ _)). Qed.

Lemma parse_subver_app pre ua post offset :
  offset = len pre -> len (pre ++ p2pVarint (len ua) ++ ua ++ post) < 2 ^ 53 ->
  parse_subver (pre ++ p2pVarint (len ua) ++ ua ++ post) offset
  = Ok (text_decode ua, len (pre ++ p2pVarint (len ua) ++ ua)).
Proof.
  intros -> Hb. pose proof (len_nonneg ua). pose proof (len_nonneg post). pose proof (len_nonneg pre).
  pose proof (len_p2pVarint (len ua)) as Hv.
  assert (0 < len (p2pVarint (len ua))) by (rewrite Hv; repeat case_match; lia).
  rewrite !len_app in Hb. unfold parse_subver.
  rewrite (proj2 (Z.ltb_lt _ _)) by (rewrite !len_app; lia).
  rewrite read_varint_app by lia. rbind. rewrite to_double_small by lia.
  unfold num_add. rewrite to_double_small by lia.
  rewrite (proj2 (Z.leb_le _ _)) by (rewrite !len_app; lia).
  rewrite (app_assoc pre), slice_mid by (rewrite ?len_app; lia).
  do 2 f_equal. rewrite !len_app. lia.
Qed.

Lemma parse_version_roundtrip ip port ua nonce now payload :
  length nonce = 8%nat -> utf16_ok ua -> head ua <> Some 0xfeff -> len (text_encode ua) < 2 ^ 32 ->
  p2pBuildVersionPayload ip port ua nonce now = Ok payload ->
  p2pParseVersionPayload payload
  = Ok {| version := P2P_PROTOCOL_VERSION; services := 0; subver := ua; startHeight := 0 |}.
Proof.
  intros Hn Hua Hbom Hul Hb. apply build_version_shape in Hb as (recv & from & Lr & Lf & ->).
  set (pre := le_split 4 _ ++ _).
  assert (len pre = 80) as Hpre.
  { unfold pre, len. rewrite !length_app, !length_le_split, Lr, Lf, Hn. done. }
  pose proof (len_nonneg (text_encode ua)). pose proof (len_p2pVarint (len (text_encode ua))) as Hv.
  assert (0 < len (p2pVarint (len (text_encode ua))) <= 9) by (rewrite Hv; repeat case_match; lia).
  set (post := le_split 4 0 ++ [Byte.x00]).
  assert (len post = 5) as Hpost by done.
  set (payload := pre ++ _).
  assert (len payload = 85 + len (text_encode ua) + len (p2pVarint (len (text_encode ua)))) as Hl
    by (unfold payload; rewrite !len_app; lia).
  unfold p2pParseVersionPayload.
  rewrite (proj2 (Z.ltb_ge _ _)) by lia.
  replace (getUintLE 4 payload 0) with (@Ok Z P2P_PROTOCOL_VERSION).
  2:{ unfold payload, pre. rewrite <- app_assoc. symmetry. by apply (getUintLE_mid 4 [] (le_split 4 P2P_PROTOCOL_VERSION) _ 0). }
  rbind. rewrite (proj2 (Z.leb_le _ _)) by lia. unfold readUint64.
  replace (getUintLE 8 payload 4) with (@Ok Z 0).
  2:{ unfold payload, pre. rewrite <- !app_assoc. symmetry.
      by apply (getUintLE_mid 8 (le_split 4 P2P_PROTOCOL_VERSION) (le_split 8 0) _ 4). }
  rbind. rewrite (skip_ok 26 _ 20), (skip_ok 26 _ (20 + 26)), (skip_ok 8 _ (20 + 26 + 26)) by lia.
  pose proof (parse_subver_app pre (text_encode ua) post (20 + 26 + 26 + 8) ltac:(lia)
    ltac:(fold payload; lia)) as Hs.
  fold payload in Hs. rewrite Hs. rbind.
  rewrite text_roundtrip by done.
  rewrite (proj2 (Z.leb_le _ (len payload))) by (rewrite !len_app; lia).
  replace (getUintLE 4 payload _) with (@Ok Z 0); [done|].
  unfold payload, post. rewrite !app_assoc, <- (app_assoc _ (le_split 4 0)), <- !app_assoc.
  rewrite (app_assoc pre), (app_assoc (pre ++ _)).
  rewrite getUintLE_mid; [done|by rewrite <- app_assoc|done].
Qed.

(** ** Correctness of the message codecs *)

(** The version message the worker builds parses back to the protocol
    version, no services, its user agent and height 0, for every well-formed
    Unicode user agent (without a leading byte order mark). *)
Theorem version_roundtrip ip port ua nonce now payload :
  length nonce = 8%nat -> utf16_ok ua -> head ua <> Some 0xfeff -> len (text_encode ua) < 2 ^ 32 ->
  p2pBuildVersionPayload ip port ua nonce now = Ok payload ->
  p2pParseVersionPayload payload
  = Ok {| version := P2P_PROTOCOL_VERSION; services := 0; subver := ua; startHeight := 0 |}.
Proof. apply parse_version_roundtrip. Qed.

(** A user agent with a euro sign and a character outside the basic plane. *)
Definition example_ua : jsstr := jss "/demo:" ++ [0x20ac; 0xd83d; 0xde00] ++ jss "/".

Lemma example_ua_ok : utf16_ok example_ua.
Proof.
  let s := eval vm_compute in example_ua in change example_ua with s.
  repeat (apply utf16_bmp; [unfold scalar; lia|lia|]).
  apply utf16_pair; [lia|lia|]. apply utf16_bmp; [unfold scalar; lia|lia|apply utf16_nil].
Qed.

Lemma version_roundtrip_witness : exists payload,
  p2pBuildVersionPayload (jss "1.2.3.4") 8333 example_ua (replicate 8 Byte.x07) 5000 = Ok payload
  /\ p2pParseVersionPayload payload
     = Ok {| version := P2P_PROTOCOL_VERSION; services := 0; subver := example_ua; startHeight := 0 |}.
Proof.
  eexists. split; [vm_compute; reflexivity|].
  eapply (version_roundtrip (jss "1.2.3.4") 8333 example_ua (replicate 8 Byte.x07) 5000);
    [reflexivity|apply example_ua_ok|discriminate|vm_compute; reflexivity|vm_compute; reflexivity].
Defined.

(** The entries encoded with [p2pEncodeAddr] behind their count parse back
    to the same addresses, ports, times and services. *)
Theorem addr_roundtrip (l : list LegacyAddr) (c : bytes) :
  Forall addr_ok l -> len l < 2 ^ 53 -> encode_entries l = Ok c ->
  p2pParseAddrPayload (p2pVarint (len l) ++ c) = Ok l.
Proof. apply parse_addr_roundtrip. Qed.

Definition example_entry : LegacyAddr :=
  {| la_ip := jss "5.6.7.8"; la_port := 8333; la_time := 1000; la_services := 9 |}.

Lemma addr_roundtrip_witness : exists c,
  encode_entries [example_entry] = Ok c
  /\ p2pParseAddrPayload (p2pVarint (len [example_entry]) ++ c) = Ok [example_entry].
Proof.
  eexists. split; [vm_compute; reflexivity|].
  apply (addr_roundtrip [example_entry]); [|reflexivity|vm_compute; reflexivity].
  constructor; [|constructor]. split; [|vm_compute; repeat split; discriminate].
  exists (mapped ++ [Byte.x05; Byte.x06; Byte.x07; Byte.x08]). split; [reflexivity|vm_compute; reflexivity].
Defined.

(** No payload a peer can send makes a parser throw.  The version parser
    always gives a record; an addr or addrv2 message yields at most as many
    entries as its bytes hold, whatever count it announces; ports have 16
    bits; and every addrv2 entry kept is well formed: an address text exactly
    for IPv4, IPv6 and CJDNS, which is its key and encodes again, and a key
    always. *)
Theorem parsers_total (payload : bytes) :
  len payload < 2 ^ 53 ->
  (exists v, p2pParseVersionPayload payload = Ok v)
  /\ (exists l, p2pParseAddrPayload payload = Ok l /\ 30 * len l <= len payload /\ Forall legacy_wf l)
  /\ (exists l, p2pParseAddrV2Payload payload = Ok l /\ 9 * len l <= len payload /\ Forall addr_wf l).
Proof.
  intros H. split_and!; [apply parse_version_total|apply parse_addr_total|by apply parse_addrv2_total].
Qed.

Lemma parsers_total_witness :
  (exists v, p2pParseVersionPayload [Byte.x01; Byte.x00] = Ok v)
  /\ (exists l, p2pParseAddrPayload [Byte.x01; Byte.x00] = Ok l
        /\ 30 * len l <= len [Byte.x01; Byte.x00] /\ Forall legacy_wf l)
  /\ (exists l, p2pParseAddrV2Payload [Byte.x01; Byte.x00] = Ok l
        /\ 9 * len l <= len [Byte.x01; Byte.x00] /\ Forall addr_wf l).
Proof. apply (parsers_total [Byte.x01; Byte.x00]). reflexivity. Defined.

End Messages.
