(* ===== verification/Sha2.v ===== *)
(** * SHA-256

    [crypto.subtle.digest('SHA-256', _)] of the platform, after FIPS 180-4.
    [worker/src/protocol.js] takes the checksums of its messages from it.  The
    components only rely on the length of the digest; this definition lets
    their examples run on the bytes a real node would send. *)

From Stdlib Require Import String.
From S2P Require Import Prelude JsText.

Module Sha2.

(** ** 32-bit words *)

Definition word (x : Z) : Z := Z.land x 0xffffffff.
Definition wadd (x y : Z) : Z := word (x + y).
Definition rotr (n x : Z) : Z := Z.lor (Z.shiftr x n) (word (Z.shiftl x (32 - n))).
Definition wnot (x : Z) : Z := Z.lxor x 0xffffffff.

Definition ch (x y z : Z) : Z := Z.lxor (Z.land x y) (Z.land (wnot x) z).
Definition maj (x y z : Z) : Z := Z.lxor (Z.lxor (Z.land x y) (Z.land x z)) (Z.land y z).
Definition big_sigma0 (x : Z) : Z := Z.lxor (Z.lxor (rotr 2 x) (rotr 13 x)) (rotr 22 x).
Definition big_sigma1 (x : Z) : Z := Z.lxor (Z.lxor (rotr 6 x) (rotr 11 x)) (rotr 25 x).
Definition small_sigma0 (x : Z) : Z := Z.lxor (Z.lxor (rotr 7 x) (rotr 18 x)) (Z.shiftr x 3).
Definition small_sigma1 (x : Z) : Z := Z.lxor (Z.lxor (rotr 17 x) (rotr 19 x)) (Z.shiftr x 10).

(** ** The constants

    The first 32 bits of the fractional parts of the square roots of the first
    eight primes and of the cube roots of the first 64. *)

Definition is_prime (n : Z) : bool :=
  forallb (fun d => negb (n mod d =? 0)) (List.map Z.of_nat (seq 2 (Z.to_nat n - 2))).

Definition primes : list Z := List.filter is_prime (List.map Z.of_nat (seq 2 310)).

(** The integer cube root of [n < 2^108], bit by bit. *)
Fixpoint cube_root_bits (k : nat) (n r : Z) : Z :=
  match k with
  | O => r
  | S k' => let t := r + 2 ^ Z.of_nat k' in cube_root_bits k' n (if t * t * t <=? n then t else r)
  end.

Definition cube_fraction (p : Z) : Z := cube_root_bits 36 (p * 2 ^ 96) 0 mod 2 ^ 32.
Definition square_fraction (p : Z) : Z := Z.sqrt (p * 2 ^ 64) mod 2 ^ 32.

Definition round_constants : list Z := Eval vm_compute in List.map cube_fraction primes.
Definition initial_words : list Z := Eval vm_compute in List.map square_fraction (take 8 primes).

Record state := { s_a : Z; s_b : Z; s_c : Z; s_d : Z; s_e : Z; s_f : Z; s_g : Z; s_h : Z }.

Definition initial_state : state :=
  let h n := nth n initial_words 0 in
  {| s_a := h 0%nat; s_b := h 1%nat; s_c := h 2%nat; s_d := h 3%nat;
     s_e := h 4%nat; s_f := h 5%nat; s_g := h 6%nat; s_h := h 7%nat |}.

(** ** The message schedule and the rounds *)

Definition round (s : state) (k w : Z) : state :=
  let t1 := wadd (s_h s) (wadd (big_sigma1 (s_e s)) (wadd (ch (s_e s) (s_f s) (s_g s)) (wadd k w))) in
  let t2 := wadd (big_sigma0 (s_a s)) (maj (s_a s) (s_b s) (s_c s)) in
  {| s_a := wadd t1 t2; s_b := s_a s; s_c := s_b s; s_d := s_c s;
     s_e := wadd (s_d s) t1; s_f := s_e s; s_g := s_f s; s_h := s_g s |}.

(** The last sixteen words of the schedule, and the one after them. *)
Definition next_word (ws : list Z) : Z :=
  wadd (small_sigma1 (nth 14 ws 0)) (wadd (nth 9 ws 0) (wadd (small_sigma0 (nth 1 ws 0)) (nth 0 ws 0))).

Fixpoint rounds (ks : list Z) (ws : list Z) (s : state) : state :=
  match ks, ws with
  | k :: ks', w :: ws' => rounds ks' (ws' ++ [next_word ws]) (round s k w)
  | _, _ => s
  end.

Definition add_state (x y : state) : state :=
  {| s_a := wadd (s_a x) (s_a y); s_b := wadd (s_b x) (s_b y); s_c := wadd (s_c x) (s_c y);
     s_d := wadd (s_d x) (s_d y); s_e := wadd (s_e x) (s_e y); s_f := wadd (s_f x) (s_f y);
     s_g := wadd (s_g x) (s_g y); s_h := wadd (s_h x) (s_h y) |}.

(** Big-endian words. *)
Fixpoint words (bs : bytes) : list Z :=
  match bs with
  | b0 :: b1 :: b2 :: b3 :: bs' =>
    Z.lor (Z.shiftl (byte.unsigned b0) 24)
      (Z.lor (Z.shiftl (byte.unsigned b1) 16) (Z.lor (Z.shiftl (byte.unsigned b2) 8) (byte.unsigned b3)))
    :: words bs'
  | _ => []
  end.

(** ** Padding and the blocks *)

Definition pad (bs : bytes) : bytes :=
  bs ++ [Byte.x80] ++ replicate (Z.to_nat ((55 - len bs) mod 64)) Byte.x00 ++ be_split 8 (8 * len bs).

Definition compress (s : state) (block : list Z) : state := add_state s (rounds round_constants block s).

(** One step per block; the padded message has [length / 64] of them. *)
Fixpoint blocks (n : nat) (ws : list Z) (s : state) : state :=
  match n with
  | O => s
  | S n' => blocks n' (drop 16 ws) (compress s (take 16 ws))
  end.

Definition sha256_digest (bs : bytes) : bytes :=
  let p := pad bs in
  let s := blocks (length p / 64)%nat (words p) initial_state in
  concat (List.map (be_split 4) [s_a s; s_b s; s_c s; s_d s; s_e s; s_f s; s_g s; s_h s]).

Lemma sha256_digest_length bs : length (sha256_digest bs) = 32%nat.
Proof.
  unfold sha256_digest. cbv zeta. cbn [List.map concat]. unfold be_split.
  by rewrite !length_app, !List.length_rev, !length_le_split.
Qed.

(** The padded message consists of whole blocks. *)
Lemma pad_blocks bs : exists n, length (pad bs) = (64 * n)%nat.
Proof.
  unfold pad, be_split. rewrite !length_app, length_replicate, List.length_rev, length_le_split.
  exists (Z.to_nat ((len bs + 9 + (55 - len bs) mod 64) / 64)). cbn [length].
  pose proof (Z.mod_pos_bound (55 - len bs) 64 ltac:(lia)). unfold len in *.
  pose proof (Z.div_mod (55 - Z.of_nat (length bs)) 64 ltac:(lia)).
  replace (Z.of_nat (length bs) + 9 + (55 - Z.of_nat (length bs)) mod 64)
    with ((1 - (55 - Z.of_nat (length bs)) / 64) * 64) by lia.
  rewrite Z.div_mul by lia. lia.
Qed.

(** ** Test vectors *)

Definition hex (bs : bytes) : jsstr := concat (List.map (fun b => pad_start 2 (to_string 16 (byte.unsigned b))) bs).

Definition ascii_bytes (s : String.string) : bytes := String.list_byte_of_string s.

Example sha256_empty :
  hex (sha256_digest []) = jss "e3b0c44298fc1c149afbf4c8996fb92427ae41e4649b934ca495991b7852b855".
Proof. vm_compute. reflexivity. Qed.

Example sha256_abc :
  hex (sha256_digest (ascii_bytes "abc")) = jss "ba7816bf8f01cfea414140de5dae2223b00361a396177a9cb410ff61f20015ad".
Proof. vm_compute. reflexivity. Qed.

(** Two blocks. *)
Example sha256_two_blocks :
  hex (sha256_digest (ascii_bytes "abcdbcdecdefdefgefghfghighijhijkijkljklmklmnlmnomnopnopq"))
  = jss "248d6a61d20638b8e5c026930c3e6039a33ce45964ff2167f6ecedd419db06c1".
Proof. vm_compute. reflexivity. Qed.

End Sha2.
