(* ===== verification/Framing.v ===== *)
(** * Message framing ([worker/src/protocol.js], lines 9-39 and 374-414)

    Packing a message, and pulling complete messages with a valid checksum out
    of a growing receive buffer.  SHA-256 is Web Crypto's: an interface. *)

From Stdlib Require Import String.
From S2P Require Import Prelude JsText Sha2.

(** [crypto.subtle.digest('SHA-256', _)]: a digest of 32 bytes. *)
Class Sha256 := {
  sha256 : bytes -> bytes;
  sha256_length : forall b, length (sha256 b) = 32%nat
}.

(** The digest of FIPS 180-4, on which the examples are evaluated. *)
Definition platform_sha256 : Sha256 :=
  {| sha256 := Sha2.sha256_digest; sha256_length := Sha2.sha256_digest_length |}.

Module Framing.

Definition P2P_MAGIC : bytes := [Byte.xe1; Byte.xec; Byte.x7a; Byte.x6e].

Record Message := Msg { command : jsstr; payload : bytes }.

(** [concatBytes(chunks)]: the chunks are copied one after the other. *)
Definition concatBytes (chunks : list bytes) : bytes := concat chunks.

(** [indexOfMagic(buf)]: the first position where the four bytes are; [None]
    is [-1]. *)
Fixpoint indexOfMagic (buf : bytes) : option nat :=
  if bool_decide (take 4 buf = P2P_MAGIC) then Some O
  else match buf with
       | [] => None
       | _ :: buf' => S <$> indexOfMagic buf'
       end.

Fixpoint bytesEqual (a b : bytes) : bool :=
  match a, b with
  | [], [] => true
  | x :: a', y :: b' => bool_decide (x = y) && bytesEqual a' b'
  | _, _ => false
  end.

(** [.replace(/\0+$/, '')] *)
Fixpoint drop_nul (s : jsstr) : jsstr :=
  match s with 0 :: s' => drop_nul s' | _ => s end.
Definition strip_nul (s : jsstr) : jsstr := rev (drop_nul (rev s)).

Definition headerLen : Z := 24.
Definition maxLen : Z := 4000000.

(** What one turn of the loop of [p2pTryExtractMessage] does. *)
Inductive turn :=
  | NeedMore (rest : bytes)
  | Resync (buf : bytes)
  | Deliver (m : Message) (rest : bytes).

Section WithSha256.
Context {SHA : Sha256}.

Definition p2pChecksum (payload : bytes) : bytes := slice (sha256 (sha256 payload)) 0 4.

Definition p2pPackMessage (cmd : jsstr) (payload : bytes) : bytes :=
  let cmdBytes := slice (text_encode cmd) 0 12 in
  let cmd12 := cmdBytes ++ replicate (12 - length cmdBytes) Byte.x00 in
  concatBytes [P2P_MAGIC; cmd12; le_split 4 (len payload); p2pChecksum payload; payload].

(** The turn on a buffer that starts with the magic bytes.  The length field is
    [dv.getUint32(16, true)], inside of a buffer of 24 bytes. *)
Definition frame_turn (buf : bytes) : turn :=
  if len buf <? headerLen then NeedMore buf
  else
    let cmd := strip_nul (text_decode (slice buf 4 16)) in
    let msgLen := le_combine (slice buf 16 20) in
    let checksum := slice buf 20 24 in
    if maxLen <? msgLen then Resync (slice_from buf 4)
    else if len buf <? headerLen + msgLen then NeedMore buf
    else
      let payload := slice buf headerLen (headerLen + msgLen) in
      if bytesEqual checksum (p2pChecksum payload)
      then Deliver (Msg cmd payload) (slice_from buf (headerLen + msgLen))
      else Resync (slice_from buf 4).

Definition extract_turn (buf : bytes) : turn :=
  match indexOfMagic buf with
  | None => NeedMore (if 3 <? len buf then slice_from buf (len buf - 3) else buf)
  | Some pos => frame_turn (slice_from buf (Z.of_nat pos))
  end.

(** [p2pTryExtractMessage(buf)]: a turn that goes on drops at least four bytes,
    so the length of the buffer bounds the turns. *)
Fixpoint try_extract (fuel : nat) (buf : bytes) : res (option Message * bytes) :=
  match extract_turn buf with
  | NeedMore rest => Ok (None, rest)
  | Deliver m rest => Ok (Some m, rest)
  | Resync buf' =>
    match fuel with
    | O => Throw OutOfFuel
    | S f => try_extract f buf'
    end
  end.

Definition p2pTryExtractMessage (buf : bytes) : res (option Message * bytes) :=
  try_extract (length buf) buf.

(** The loop of [crawlPeerOnce] that takes every complete message out of the
    buffer ([worker/src/crawl.js], lines 78-96). *)
Fixpoint drain_loop (fuel : nat) (buf : bytes) : res (list Message * bytes) :=
  '(m, rest) ← p2pTryExtractMessage buf;
  match m with
  | None => Ok ([], rest)
  | Some m =>
    match fuel with
    | O => Throw OutOfFuel
    | S f => '(ms, r) ← drain_loop f rest; Ok (m :: ms, r)
    end
  end.

Definition drain (buf : bytes) : res (list Message * bytes) := drain_loop (length buf) buf.

(** ** The loop as a relation *)

Inductive drains : bytes -> list Message -> bytes -> Prop :=
  | drains_need buf rest : extract_turn buf = NeedMore rest -> drains buf [] rest
  | drains_resync buf buf' ms r :
      extract_turn buf = Resync buf' -> drains buf' ms r -> drains buf ms r
  | drains_deliver buf m buf' ms r :
      extract_turn buf = Deliver m buf' -> drains buf' ms r -> drains buf (m :: ms) r.

(** ** Lemmas *)

Lemma bytesEqual_eq a b : bytesEqual a b = true <-> a = b.
Proof.
  revert b. induction a as [|x a IH]; intros [|y b]; simpl; try done.
  rewrite andb_true_iff, IH, bool_decide_eq_true. naive_solver.
Qed.

Lemma bytesEqual_refl a : bytesEqual a a = true.
Proof. by apply bytesEqual_eq. Qed.

Lemma indexOfMagic_Some buf p :
  indexOfMagic buf = Some p <->
  take 4 (drop p buf) = P2P_MAGIC /\ forall q, (q < p)%nat -> take 4 (drop q buf) <> P2P_MAGIC.
Proof.
  revert p. induction buf as [|b buf IH]; intros p.
  - simpl. rewrite drop_nil. split; [done|intros [? _]; done].
  - cbn [indexOfMagic]. case_bool_decide as Hb.
    + split; [intros [= <-]; split; [done|lia]|]. intros [_ Hq].
      destruct p; [done|]. exfalso. by apply (Hq O); [lia|].
    + rewrite fmap_Some. split.
      * intros (p' & E & ->). apply IH in E as [H1 H2]. split; [done|].
        intros [|q] Hq; [done|]. apply H2. lia.
      * intros [H1 H2]. destruct p as [|p]; [done|]. exists p. split; [|done]. apply IH.
        split; [done|]. intros q Hq. apply (H2 (S q)). lia.
Qed.

Lemma indexOfMagic_None buf :
  indexOfMagic buf = None <-> forall q, take 4 (drop q buf) <> P2P_MAGIC.
Proof.
  split.
  - intros H q. revert q. induction buf as [|b buf IH]; intros q; [by rewrite drop_nil|].
    cbn [indexOfMagic] in H. case_bool_decide; [done|]. apply fmap_None in H.
    destruct q; [done|]. by apply IH.
  - intros H. destruct (indexOfMagic buf) as [p|] eqn:E; [|done].
    apply indexOfMagic_Some in E as [E _]. by apply H in E.
Qed.

Lemma window_length q (buf : bytes) : take 4 (drop q buf) = P2P_MAGIC -> (q + 4 <= length buf)%nat.
Proof.
  intros E. apply (f_equal length) in E. rewrite length_take, length_drop in E.
  change (length P2P_MAGIC) with 4%nat in E. lia.
Qed.

Lemma window_app q (buf c : bytes) :
  (q + 4 <= length buf)%nat -> take 4 (drop q (buf ++ c)) = take 4 (drop q buf).
Proof. intros. rewrite drop_app_le, take_app_le by (rewrite ?length_drop; lia). done. Qed.

Lemma indexOfMagic_app_Some buf c p :
  indexOfMagic buf = Some p -> indexOfMagic (buf ++ c) = Some p.
Proof.
  rewrite !indexOfMagic_Some. intros [H1 H2]. pose proof (window_length _ _ H1).
  split; [by rewrite window_app|]. intros q Hq. rewrite window_app by lia. auto.
Qed.

(** Bytes that cannot start the magic may be dropped. *)
Lemma indexOfMagic_drop k buf :
  (k <= length buf)%nat -> (forall q, (q < k)%nat -> take 4 (drop q buf) <> P2P_MAGIC) ->
  indexOfMagic buf = Nat.add k <$> indexOfMagic (drop k buf).
Proof.
  intros Hk Hq. destruct (indexOfMagic (drop k buf)) as [p|] eqn:E; simpl.
  - apply indexOfMagic_Some in E as [E1 E2]. rewrite drop_drop in E1.
    apply indexOfMagic_Some. split; [done|]. intros q Hlt.
    destruct (le_lt_dec k q); [|by apply Hq].
    specialize (E2 (q - k)%nat ltac:(lia)). rewrite drop_drop in E2.
    by replace (k + (q - k))%nat with q in E2 by lia.
  - rewrite indexOfMagic_None in E. apply indexOfMagic_None. intros q.
    destruct (le_lt_dec k q); [|by apply Hq].
    specialize (E (q - k)%nat). rewrite drop_drop in E.
    by replace (k + (q - k))%nat with q in E by lia.
Qed.

(** *** The magic bytes in garbage *)

(** Garbage without the magic, followed by the magic: no border of the four
    bytes makes them start earlier. *)
Lemma indexOfMagic_garbage g c :
  indexOfMagic g = None -> indexOfMagic (g ++ P2P_MAGIC ++ c) = Some (length g).
Proof.
  intros Hg. rewrite indexOfMagic_None in Hg. apply indexOfMagic_Some. split.
  - by rewrite drop_app_length.
  - intros q Hq Hw. destruct (le_lt_dec (q + 4) (length g)) as [Hle|Hgt].
    + rewrite window_app in Hw by done. by apply Hg in Hw.
    + rewrite drop_app_le in Hw by lia.
      assert (exists h, drop q g = h /\ (0 < length h < 4)%nat) as (h & Eh & Hh)
        by (eexists; split; [done|]; rewrite length_drop; lia).
      rewrite Eh in Hw. do 4 (destruct h as [|? h]; [simpl in Hh; try lia; simplify_eq/=|]); simpl in Hh; lia.
Qed.

(** *** One turn on a longer buffer *)

Lemma slice_app_le {A} (l c : list A) a b :
  0 <= a <= b -> b <= len l -> slice (l ++ c) a b = slice l a b.
Proof.
  intros Hab Hb. unfold slice, len in *.
  rewrite drop_app_le, take_app_le by (rewrite ?length_drop; lia). done.
Qed.

Lemma slice_from_app_le {A} (l c : list A) a :
  0 <= a <= len l -> slice_from (l ++ c) a = slice_from l a ++ c.
Proof. intros Ha. unfold slice_from, len in *. by rewrite drop_app_le by lia. Qed.

Lemma length_field_bound (buf : bytes) : 0 <= le_combine (slice buf 16 20) < 2 ^ 32.
Proof.
  pose proof (le_combine_bound (slice buf 16 20)) as [H1 H2]. split; [done|].
  eapply Z.lt_le_trans; [exact H2|]. apply Z.pow_le_mono_r; [lia|].
  unfold slice. rewrite length_take. lia.
Qed.

(** More bytes do not change a turn that delivers or resynchronises. *)
Lemma frame_turn_app buf c :
  match frame_turn buf with
  | NeedMore rest => rest = buf
  | Resync b => frame_turn (buf ++ c) = Resync (b ++ c)
  | Deliver m b => frame_turn (buf ++ c) = Deliver m (b ++ c)
  end.
Proof.
  unfold frame_turn, headerLen, maxLen. pose proof (length_field_bound buf) as Hl.
  pose proof (len_nonneg c).
  destruct (len buf <? 24) eqn:E1; zbool; [done|].
  rewrite len_app, (proj2 (Z.ltb_ge _ 24)) by lia.
  rewrite (slice_app_le buf c 4), (slice_app_le buf c 16), (slice_app_le buf c 20) by lia.
  destruct (4000000 <? _) eqn:E2; zbool.
  { by rewrite slice_from_app_le by lia. }
  destruct (len buf <? _) eqn:E3; zbool; [done|].
  rewrite (proj2 (Z.ltb_ge _ _)) by lia.
  rewrite (slice_app_le buf c) by lia.
  destruct (bytesEqual _ _); rewrite slice_from_app_le by lia; done.
Qed.

Lemma extract_turn_app_resync buf buf' c :
  extract_turn buf = Resync buf' -> extract_turn (buf ++ c) = Resync (buf' ++ c).
Proof.
  unfold extract_turn. destruct (indexOfMagic buf) as [p|] eqn:E; [|done].
  rewrite (indexOfMagic_app_Some _ _ _ E). intros H.
  apply indexOfMagic_Some in E as [E _]. apply window_length in E.
  rewrite slice_from_app_le by (unfold len; lia).
  pose proof (frame_turn_app (slice_from buf (Z.of_nat p)) c) as Ht. by rewrite H in Ht.
Qed.

Lemma extract_turn_app_deliver buf m buf' c :
  extract_turn buf = Deliver m buf' -> extract_turn (buf ++ c) = Deliver m (buf' ++ c).
Proof.
  unfold extract_turn. destruct (indexOfMagic buf) as [p|] eqn:E; [|done].
  rewrite (indexOfMagic_app_Some _ _ _ E). intros H.
  apply indexOfMagic_Some in E as [E _]. apply window_length in E.
  rewrite slice_from_app_le by (unfold len; lia).
  pose proof (frame_turn_app (slice_from buf (Z.of_nat p)) c) as Ht. by rewrite H in Ht.
Qed.

(** What is kept while more bytes are needed is all that matters. *)
Lemma extract_turn_app_need buf rest c :
  extract_turn buf = NeedMore rest -> extract_turn (buf ++ c) = extract_turn (rest ++ c).
Proof.
  unfold extract_turn at 1. destruct (indexOfMagic buf) as [p|] eqn:E; intros H.
  - pose proof (frame_turn_app (slice_from buf (Z.of_nat p)) c) as Ht. rewrite H in Ht. subst rest.
    pose proof E as E'. apply indexOfMagic_Some in E' as [E1 _]. pose proof (window_length _ _ E1).
    unfold extract_turn. rewrite (indexOfMagic_app_Some _ _ _ E), slice_from_app_le by (unfold len; lia).
    replace (indexOfMagic (slice_from buf _ ++ c)) with (Some 0%nat); [done|].
    symmetry. apply indexOfMagic_app_Some, indexOfMagic_Some. unfold slice_from.
    rewrite Nat2Z.id, drop_0. split; [done|lia].
  - destruct (3 <? len buf) eqn:E3; zbool; [|by simplify_eq].
    set (k := (length buf - 3)%nat).
    assert (rest = drop k buf) as ->.
    { simplify_eq. unfold slice_from, k, len in *. f_equal. lia. }
    assert (k <= length buf)%nat as Hk by (unfold k; lia).
    assert (length (drop k buf) = 3%nat) as Hr by (rewrite length_drop; unfold k, len in *; lia).
    rewrite indexOfMagic_None in E. unfold extract_turn.
    rewrite <- drop_app_le by done.
    rewrite (indexOfMagic_drop k (buf ++ c)).
    + destruct (indexOfMagic (drop k (buf ++ c))) as [p|]; simpl.
      * unfold slice_from. rewrite drop_drop, !Nat2Z.id. done.
      * f_equal. unfold slice_from. rewrite drop_drop.
        unfold len in *. rewrite length_drop, length_app.
        rewrite (proj2 (Z.ltb_lt 3 _)) by lia.
        case_match; zbool; f_equal; unfold k in *; lia.
    + rewrite length_app. lia.
    + intros q Hq. rewrite window_app by (unfold k in Hq; lia). apply E.
Qed.

(** *** Draining *)

Lemma drains_same_turn buf buf' ms r :
  extract_turn buf = extract_turn buf' -> drains buf' ms r -> drains buf ms r.
Proof.
  intros E Hd. inversion Hd; subst; rewrite <- E in *; by econstructor.
Qed.

Lemma drains_app b1 ms1 r1 :
  drains b1 ms1 r1 -> forall b2 ms2 r2,
  drains (r1 ++ b2) ms2 r2 -> drains (b1 ++ b2) (ms1 ++ ms2) r2.
Proof.
  induction 1 as [buf rest Ht|buf buf' ms r Ht _ IH|buf m buf' ms r Ht _ IH]; intros b2 ms2 r2 H2.
  - eapply drains_same_turn; [by apply extract_turn_app_need|done].
  - eapply drains_resync; [by apply extract_turn_app_resync|]. by apply IH.
  - simpl. eapply drains_deliver; [by apply extract_turn_app_deliver|]. by apply IH.
Qed.

Lemma drains_fun b ms r : drains b ms r -> forall ms' r', drains b ms' r' -> ms = ms' /\ r = r'.
Proof.
  induction 1 as [? ? Ht|? ? ? ? Ht _ IH|? ? ? ? ? Ht _ IH]; intros ms' r' H';
    inversion H' as [? ? Ht'|? ? ? ? Ht' Hd|? ? ? ? ? Ht' Hd]; subst; rewrite Ht in Ht'; simplify_eq;
    [done|by apply IH|].
  destruct (IH _ _ Hd). by subst.
Qed.

Lemma extract_turn_shrinks buf :
  match extract_turn buf with
  | NeedMore rest => (length rest <= length buf)%nat
  | Resync b => (length b + 4 <= length buf)%nat
  | Deliver _ b => (length b + 24 <= length buf)%nat
  end.
Proof.
  unfold extract_turn. destruct (indexOfMagic buf) as [p|].
  - unfold slice_from at 1. rewrite Nat2Z.id. unfold frame_turn, headerLen.
    pose proof (length_field_bound (drop p buf)). set (b := drop p buf) in *.
    assert (length b <= length buf)%nat by (unfold b; rewrite length_drop; lia).
    destruct (len b <? 24) eqn:E1; zbool; [done|].
    destruct (maxLen <? _); [unfold slice_from, len in *; rewrite length_drop; lia|].
    destruct (len b <? _) eqn:E3; zbool; [done|].
    destruct (bytesEqual _ _); unfold slice_from, len in *; rewrite length_drop; lia.
  - destruct (3 <? len buf); [|lia]. unfold slice_from. rewrite length_drop. lia.
Qed.

Lemma try_extract_spec fuel buf :
  (length buf <= fuel)%nat ->
  exists om rest, try_extract fuel buf = Ok (om, rest) /\
    (length rest + match om with Some _ => 24 | None => 0 end <= length buf)%nat /\
    match om with
    | None => drains buf [] rest
    | Some m => forall ms r, drains rest ms r -> drains buf (m :: ms) r
    end.
Proof.
  revert buf. induction fuel as [|f IH]; intros buf Hf; pose proof (extract_turn_shrinks buf) as Hs;
    cbn [try_extract]; destruct (extract_turn buf) as [rest|b|m b] eqn:E.
  all: try (eexists None, _; split; [done|]; split; [lia|]; by constructor).
  all: try (eexists (Some _), _; split; [done|]; split; [lia|]; intros; by eapply drains_deliver).
  - lia.
  - destruct (IH b) as (om & rest & -> & Hl & Hd); [lia|].
    exists om, rest. split; [done|]. split; [lia|].
    destruct om; [intros ms r Hr|]; (eapply drains_resync; [done|auto]).
Qed.

Lemma drain_loop_spec fuel buf :
  (length buf <= fuel)%nat ->
  exists ms r, drain_loop fuel buf = Ok (ms, r) /\ drains buf ms r.
Proof.
  revert buf. induction fuel as [|f IH]; intros buf Hf; cbn [drain_loop];
    unfold p2pTryExtractMessage;
    destruct (try_extract_spec (length buf) buf) as (om & rest & -> & Hl & Hd); [lia| |lia|]; rbind;
    (destruct om as [m|]; [|by exists [], rest]).
  - lia.
  - destruct (IH rest) as (ms & r & -> & Hr); [lia|]. exists (m :: ms), r. split; [done|]. by apply Hd.
Qed.

Lemma drain_spec buf : exists ms r, drain buf = Ok (ms, r) /\ drains buf ms r.
Proof. by apply drain_loop_spec. Qed.

Lemma drain_drains buf ms r : drain buf = Ok (ms, r) <-> drains buf ms r.
Proof.
  destruct (drain_spec buf) as (ms' & r' & -> & Hd). split.
  - intros E. apply Ok_inj in E. by simplify_eq.
  - intros H. by destruct (drains_fun _ _ _ Hd _ _ H) as [-> ->].
Qed.

(** *** Feeding chunks *)

(** The receive loop of [crawlPeerOnce] on the chunks the socket yields, as far
    as the buffer is concerned ([worker/src/crawl.js], lines 72-96).  It takes all of
    them: that the loop ends when addresses have arrived (line 106) is in the model of
    the handshake. *)
Fixpoint feed (buf : bytes) (chunks : list bytes) : res (list Message * bytes) :=
  match chunks with
  | [] => Ok ([], buf)
  | chunk :: chunks' =>
    '(ms, rest) ← drain (buf ++ chunk);
    '(ms', r) ← feed rest chunks';
    Ok (ms ++ ms', r)
  end.

Lemma drains_nil : drains [] [] [].
Proof. by constructor. Qed.

Lemma feed_drains chunks : forall b0 ms0 r0,
  drains b0 ms0 r0 ->
  exists ms r, feed r0 chunks = Ok (ms, r) /\ drains (b0 ++ concat chunks) (ms0 ++ ms) r.
Proof.
  induction chunks as [|c chunks IH]; intros b0 ms0 r0 H0.
  - exists [], r0. split; [done|]. simpl. by rewrite !app_nil_r.
  - destruct (drain_spec (r0 ++ c)) as (ms1 & r1 & E1 & H1).
    pose proof (drains_app _ _ _ H0 _ _ _ H1) as H01.
    destruct (IH _ _ _ H01) as (ms2 & r2 & E2 & H2).
    exists (ms1 ++ ms2), r2. simpl. rewrite E1. rbind. rewrite E2. split; [done|].
    by rewrite !app_assoc in *.
Qed.

(** *** Packing *)

Definition command_ok (cmd : jsstr) : Prop :=
  ascii_text cmd /\ len cmd <= 12 /\ last cmd <> Some 0.

Lemma drop_nul_replicate k s : drop_nul (replicate k 0 ++ s) = drop_nul s.
Proof. induction k; simpl; auto. Qed.

Lemma strip_nul_padded s k : last s <> Some 0 -> strip_nul (s ++ replicate k 0) = s.
Proof.
  intros Hl. unfold strip_nul. rewrite rev_app_distr.
  assert (rev (replicate k 0) = replicate k 0) as ->
    by (induction k as [|k IH]; [done|]; simpl; rewrite IH; symmetry; apply replicate_S_end).
  rewrite drop_nul_replicate.
  destruct s as [|x s _] using rev_ind; [done|]. rewrite last_snoc in Hl.
  rewrite rev_app_distr. simpl. destruct x; simpl; try (by rewrite rev_involutive). done.
Qed.

Lemma text_decode_padded cmd k :
  ascii_text cmd -> last cmd <> Some 0 ->
  strip_nul (text_decode (List.map byte.of_Z cmd ++ replicate k Byte.x00)) = cmd.
Proof.
  intros Ha Hl.
  replace (replicate k Byte.x00) with (List.map byte.of_Z (replicate k 0))
    by (induction k as [|k IH]; [done|]; simpl; rewrite IH; reflexivity).
  rewrite <- List.map_app, text_decode_ascii; [by apply strip_nul_padded|].
  apply Forall_app. split; [done|]. apply Forall_replicate. lia.
Qed.

(** The 24-byte header and the payload of a packed message. *)
Lemma pack_shape cmd p :
  ascii_text cmd -> len cmd <= 12 ->
  exists cmd12, length cmd12 = 12%nat
    /\ cmd12 = List.map byte.of_Z cmd ++ replicate (12 - length cmd) Byte.x00
    /\ p2pPackMessage cmd p = P2P_MAGIC ++ cmd12 ++ le_split 4 (len p) ++ p2pChecksum p ++ p.
Proof.
  intros Ha Hl. unfold len in Hl. eexists. split; [|split; [done|]].
  - rewrite length_app, length_map, length_replicate. lia.
  - unfold p2pPackMessage, concatBytes. rewrite text_encode_ascii by done. simpl concat.
    rewrite app_nil_r. unfold slice. rewrite drop_0, take_ge by (rewrite length_map; lia).
    by rewrite length_map, <- !app_assoc.
Qed.

Lemma checksum_length p : length (p2pChecksum p) = 4%nat.
Proof. unfold p2pChecksum, slice. rewrite length_take, length_drop, sha256_length. done. Qed.

Lemma frame_turn_pack cmd p rest :
  command_ok cmd -> len p <= maxLen ->
  frame_turn (p2pPackMessage cmd p ++ rest) = Deliver (Msg cmd p) rest.
Proof.
  intros (Ha & Hl & Hlast) Hp. unfold maxLen in Hp.
  destruct (pack_shape cmd p Ha Hl) as (c12 & L12 & E12 & ->).
  pose proof (checksum_length p) as L4. pose proof (len_nonneg p). pose proof (len_nonneg rest).
  set (buf := (P2P_MAGIC ++ _) ++ rest).
  assert (len buf = 24 + len p + len rest) as Hb.
  { unfold buf, len. rewrite !length_app, length_le_split, L12, L4. simpl. lia. }
  assert (slice buf 4 16 = c12) as S1.
  { unfold buf. rewrite <- !app_assoc. apply slice_mid; unfold len; simpl; lia. }
  assert (slice buf 16 20 = le_split 4 (len p)) as S2.
  { unfold buf. rewrite <- !app_assoc, (app_assoc P2P_MAGIC).
    apply slice_mid; unfold len; rewrite ?length_app, ?length_le_split; simpl; lia. }
  assert (slice buf 20 24 = p2pChecksum p) as S3.
  { unfold buf. rewrite <- !app_assoc, (app_assoc P2P_MAGIC), (app_assoc (P2P_MAGIC ++ _)).
    apply slice_mid; unfold len; rewrite ?length_app, ?length_le_split; simpl; lia. }
  assert (buf = (P2P_MAGIC ++ c12 ++ le_split 4 (len p) ++ p2pChecksum p) ++ p ++ rest) as Eb
    by (unfold buf; by rewrite <- !app_assoc).
  set (hdr := P2P_MAGIC ++ c12 ++ le_split 4 (len p) ++ p2pChecksum p) in *.
  assert (len hdr = 24) as Hh.
  { unfold hdr, len. rewrite !length_app, length_le_split, L12, L4. done. }
  unfold frame_turn, headerLen, maxLen.
  rewrite S1, S2, S3, le_combine_split_small by lia.
  rewrite (proj2 (Z.ltb_ge (len buf) _)), (proj2 (Z.ltb_ge 4000000 _)), (proj2 (Z.ltb_ge (len buf) _)) by lia.
  replace (slice buf 24 (24 + len p)) with p by (rewrite Eb, slice_mid; [done|lia|lia]).
  rewrite bytesEqual_refl, E12, text_decode_padded by done. f_equal.
  unfold slice_from. rewrite Eb, app_assoc.
  replace (Z.to_nat (24 + len p)) with (length (hdr ++ p)); [by rewrite drop_app_length|].
  rewrite length_app. unfold len in *. lia.
Qed.

Lemma extract_turn_pack g cmd p rest :
  indexOfMagic g = None -> command_ok cmd -> len p <= maxLen ->
  extract_turn (g ++ p2pPackMessage cmd p ++ rest) = Deliver (Msg cmd p) rest.
Proof.
  intros Hg Hc Hp. pose proof (frame_turn_pack cmd p rest Hc Hp) as Hf. destruct Hc as (Ha & Hl & _).
  destruct (pack_shape cmd p Ha Hl) as (c12 & _ & _ & E). unfold extract_turn.
  replace (indexOfMagic _) with (Some (length g))
    by (rewrite E, <- app_assoc; symmetry; by apply indexOfMagic_garbage).
  unfold slice_from. rewrite Nat2Z.id, drop_app_length. exact Hf.
Qed.

Lemma try_extract_pack g cmd p rest :
  indexOfMagic g = None -> command_ok cmd -> len p <= maxLen ->
  p2pTryExtractMessage (g ++ p2pPackMessage cmd p ++ rest) = Ok (Some (Msg cmd p), rest).
Proof.
  intros Hg Hc Hp. pose proof (extract_turn_pack g cmd p rest Hg Hc Hp) as E.
  unfold p2pTryExtractMessage. destruct (length _); cbn [try_extract]; by rewrite E.
Qed.

(** *** What is delivered *)

(** [f] is the wire form of the message: magic, command field, length, checksum
    and payload. *)
Definition is_frame (f : bytes) (m : Message) : Prop :=
  exists c12, length c12 = 12%nat /\ command m = strip_nul (text_decode c12)
    /\ len (payload m) <= maxLen
    /\ f = P2P_MAGIC ++ c12 ++ le_split 4 (len (payload m)) ++ p2pChecksum (payload m) ++ payload m.

(** A byte stream made of garbage, frames in order, and a remainder. *)
Inductive stream : bytes -> list Message -> bytes -> Prop :=
  | stream_end g r : stream (g ++ r) [] r
  | stream_frame g f m b ms r :
      is_frame f m -> stream b ms r -> stream (g ++ f ++ b) (m :: ms) r.

Lemma stream_garbage g b ms r : stream b ms r -> stream (g ++ b) ms r.
Proof.
  intros H. destruct H; rewrite app_assoc; by constructor.
Qed.

Lemma take_drop_slice {A} (l : list A) a b :
  0 <= a <= b -> drop (Z.to_nat a) l = slice l a b ++ drop (Z.to_nat b) l.
Proof.
  intros H. unfold slice. replace (Z.to_nat b) with (Z.to_nat a + Z.to_nat (b - a))%nat by lia.
  rewrite <- drop_drop. by rewrite take_drop.
Qed.

Lemma frame_turn_deliver buf m b :
  take 4 buf = P2P_MAGIC -> frame_turn buf = Deliver m b -> exists f, buf = f ++ b /\ is_frame f m.
Proof.
  intros Hm. unfold frame_turn, headerLen, maxLen. pose proof (length_field_bound buf) as Hf.
  destruct (len buf <? 24) eqn:E1; [done|]. destruct (4000000 <? _) eqn:E2; [done|].
  destruct (len buf <? 24 + le_combine (slice buf 16 20)) eqn:E3; [done|].
  destruct (bytesEqual _ _) eqn:E4; [|done]. zbool. intros [= <- <-]. apply bytesEqual_eq in E4.
  set (n := le_combine (slice buf 16 20)) in *. set (p := slice buf 24 (24 + n)) in *.
  assert (len p = n) as Hp by (unfold p; rewrite len_slice; lia).
  exists (take 4 buf ++ slice buf 4 16 ++ slice buf 16 20 ++ slice buf 20 24 ++ p). split.
  - rewrite <- !app_assoc. unfold slice_from.
    unfold p. rewrite <- (take_drop_slice buf 24 (24 + n)), <- (take_drop_slice buf 20 24) by lia.
    rewrite <- (take_drop_slice buf 16 20), <- (take_drop_slice buf 4 16) by lia.
    by rewrite (take_drop 4).
  - exists (slice buf 4 16). cbn [command payload]. rewrite Hm, E4, Hp.
    assert (length (slice buf 16 20) = 4%nat) as L4
      by (pose proof (len_slice buf 16 20); unfold len in *; lia).
    split; [pose proof (len_slice buf 4 16); unfold len in *; lia|].
    split; [done|]. split; [unfold maxLen; lia|].
    unfold n. by rewrite (split_le_combine' _ 4 L4).
Qed.

Lemma extract_turn_suffix buf :
  match extract_turn buf with
  | NeedMore b | Resync b => exists g, buf = g ++ b
  | Deliver m b => exists g f, buf = g ++ f ++ b /\ is_frame f m
  end.
Proof.
  unfold extract_turn. destruct (indexOfMagic buf) as [p|] eqn:Ei.
  - apply indexOfMagic_Some in Ei as [Em _]. unfold slice_from. rewrite Nat2Z.id.
    pose proof (frame_turn_app (drop p buf) []) as Ha.
    destruct (frame_turn (drop p buf)) as [b|b|m b] eqn:E.
    + subst b. exists (take p buf). by rewrite take_drop.
    + unfold frame_turn in E. repeat case_match; simplify_eq; unfold slice_from;
        exists (take p buf ++ take (Z.to_nat 4) (drop p buf)); by rewrite <- app_assoc, !take_drop.
    + destruct (frame_turn_deliver _ _ _ Em E) as (f & Ef & Hf).
      exists (take p buf), f. split; [|done]. by rewrite <- Ef, take_drop.
  - case_match; [|by exists []]. exists (take (Z.to_nat (len buf - 3)) buf).
    unfold slice_from. by rewrite take_drop.
Qed.

Lemma drains_stream b ms r : drains b ms r -> stream b ms r.
Proof.
  induction 1 as [buf rest Ht|buf buf' ms r Ht _ IH|buf m buf' ms r Ht _ IH];
    pose proof (extract_turn_suffix buf) as Hs; rewrite Ht in Hs.
  - destruct Hs as (g & ->). constructor.
  - destruct Hs as (g & ->). by apply stream_garbage.
  - destruct Hs as (g & f & -> & Hf). by constructor.
Qed.

Lemma drains_rest_bound b ms r : drains b ms r -> len r < headerLen + maxLen.
Proof.
  induction 1 as [buf rest Ht| |]; [|done..].
  unfold extract_turn, headerLen, maxLen in *. destruct (indexOfMagic buf) as [p|].
  - unfold frame_turn, headerLen, maxLen in Ht. repeat case_match; simplify_eq; zbool; lia.
  - case_match; zbool; simplify_eq; [|lia]. unfold slice_from, len in *. rewrite length_drop. lia.
Qed.

(** ** Correctness of the framing *)

(** C12: how the network cuts the byte stream does not matter: feeding the
    chunks one by one, keeping the rest each time, delivers the messages and
    leaves the rest that the whole stream at once does. *)
Theorem feed_chunking_irrelevant (chunks : list bytes) : feed [] chunks = drain (concat chunks).
Proof.
  destruct (feed_drains chunks [] [] [] drains_nil) as (ms & r & -> & Hd). symmetry.
  by apply drain_drains.
Qed.

(** A packed message is extracted again, command and payload, from behind
    any garbage without the magic bytes, and what follows it is the rest. *)
Theorem pack_extract_roundtrip (garbage rest payload : bytes) (cmd : jsstr) :
  indexOfMagic garbage = None -> command_ok cmd -> len payload <= maxLen ->
  p2pTryExtractMessage (garbage ++ p2pPackMessage cmd payload ++ rest) = Ok (Some (Msg cmd payload), rest).
Proof. apply try_extract_pack. Qed.

(** C37: only checksummed frames are delivered: whatever the buffer, the
    messages taken out of it are frames of it, in order, and the rest is its
    end; the rest is shorter than a header and the largest payload, so that a
    peer cannot make the buffer grow without bound. *)
Theorem drain_sound (buf : bytes) :
  exists ms rest, drain buf = Ok (ms, rest) /\ stream buf ms rest /\ len rest < headerLen + maxLen.
Proof.
  destruct (drain_spec buf) as (ms & r & E & Hd). exists ms, r.
  split_and!; [done|by apply drains_stream|by eapply drains_rest_bound].
Qed.

End WithSha256.

(** The checksum of messages without a payload, such as [verack]. *)
Example empty_checksum : p2pChecksum (SHA := platform_sha256) [] = [Byte.x5d; Byte.xf6; Byte.xe0; Byte.xe2].
Proof. vm_compute. reflexivity. Qed.

Lemma pack_extract_roundtrip_witness :
  p2pTryExtractMessage (SHA := platform_sha256)
    ([Byte.xe1; Byte.x00] ++ p2pPackMessage (SHA := platform_sha256) (jss "ping") [Byte.x01] ++ [Byte.x02])
  = Ok (Some (Msg (jss "ping") [Byte.x01]), [Byte.x02]).
Proof.
  apply (pack_extract_roundtrip (SHA := platform_sha256) [Byte.xe1; Byte.x00] [Byte.x02] [Byte.x01] (jss "ping"));
    [reflexivity| |discriminate].
  repeat constructor; discriminate.
Defined.

End Framing.
