(* ===== verification/Handshake.v ===== *)
(** * The peer handshake ([worker/src/crawl.js], [crawlPeerOnce])

    One connection to a peer: version, sendaddrv2, verack and getaddr are sent,
    and what the peer answers is collected until addresses have arrived or the
    deadline has passed.  The socket and the clock are an explicit script: the
    readings of [Date.now()], the outcome of every read and of every write, and
    of the closing of the socket.  Opening and reading have a timeout; a write or
    the closing may never settle, and then [crawlPeerOnce] does not return. *)

From Stdlib Require Import String.
From S2P Require Import Prelude Numbers JsText Varint Ip Base32 Messages Framing.

Import Varint Ip Messages Framing.

Module Handshake.

(** ** Promises and timeouts *)

(** A promise and the milliseconds after which it settles. *)
Inductive promise (A : Type) :=
  | Fulfills (after : Z) (a : A)
  | Rejects (after : Z)
  | Never.
Arguments Fulfills {A} after a.
Arguments Rejects {A} after.
Arguments Never {A}.

(** [withTimeout(promise, _, _)] with a timer that fires after [ms]
    milliseconds: the race of the promise with the timer.
    [None] is a rejection, by the promise or by the timer.  A promise that is
    settled already wins against every timer; one that settles in the moment
    the timer fires counts as late. *)
Definition withTimeout {A} (p : promise A) (ms : Z) : option A :=
  match p with
  | Fulfills after a => if (after <=? 0) || (after <? ms) then Some a else None
  | Rejects _ | Never => None
  end.

(** The value of [reader.read()]. *)
Inductive read_value :=
  | RChunk (chunk : bytes)  (** [{ done: false, value: chunk }] *)
  | RDone.                  (** [{ done: true }] *)

(** One turn of the loop: [Date.now()] in the loop test, [Date.now()] in the
    computation of [remaining], and the read. *)
Record read_turn := { rt_test : Z; rt_now : Z; rt_read : promise read_value }.

(** [getConnect()] and [connect(..)], which are outside every [try], and
    [socket.opened]. *)
Inductive connect_result :=
  | ConnectThrows                      (** the import or the call throws *)
  | Connects (opened : promise unit).

(** An awaited promise without a timeout. *)
Inductive settlement := Resolves | Refuses | Pends.

#[global] Instance settlement_eq : EqDecision settlement.
Proof. solve_decision. Defined.

Record PeerEnv := {
  pe_connect : connect_result;
  pe_start : Z;                (** [Date.now()] when the deadline is set *)
  pe_version_now : Z;          (** [Date.now()] in [p2pBuildVersionPayload] *)
  pe_nonce : bytes;            (** [crypto.getRandomValues] *)
  pe_writes : nat -> settlement;  (** the n-th [writer.write(..)] *)
  pe_close : settlement;       (** [socket.close()] at the end *)
  pe_timer : jsnum -> Z;       (** after how many milliseconds [setTimeout] fires *)
  pe_reads : list read_turn    (** the reads; after them the peer stays silent *)
}.

(** The local variables of [crawlPeerOnce], and what was passed to the writer. *)
Record State := {
  theirVersion : option VersionInfo;
  sentVerack : bool;
  gotTheirVerack : bool;
  sentGetaddr : bool;
  addresses : list PeerAddr;
  buf : bytes;
  written : list bytes
}.

Definition init_state : State :=
  {| theirVersion := None; sentVerack := false; gotTheirVerack := false; sentGetaddr := false;
     addresses := []; buf := []; written := [] |}.

(** The address objects built from a legacy [addr] entry. *)
Definition legacy_addr (a : LegacyAddr) : PeerAddr :=
  {| pa_network := Some (if includes (jss ":") (la_ip a) then ipv6 else ipv4);
     pa_ip := Some (la_ip a); pa_key := Some (la_ip a);
     pa_port := la_port a; pa_time := la_time a; pa_services := la_services a |}.

(** The dispatch on the command of a message. *)
Definition handle_message (st : State) (m : Message) : res State :=
  if bool_decide (command m = jss "version") then
    v ← p2pParseVersionPayload (payload m);
    Ok {| theirVersion := Some v; sentVerack := sentVerack st; gotTheirVerack := gotTheirVerack st;
          sentGetaddr := sentGetaddr st; addresses := addresses st; buf := buf st;
          written := written st |}
  else if bool_decide (command m = jss "verack") then
    Ok {| theirVersion := theirVersion st; sentVerack := sentVerack st; gotTheirVerack := true;
          sentGetaddr := sentGetaddr st; addresses := addresses st; buf := buf st;
          written := written st |}
  else if bool_decide (command m = jss "addr") then
    l ← p2pParseAddrPayload (payload m);
    Ok {| theirVersion := theirVersion st; sentVerack := sentVerack st;
          gotTheirVerack := gotTheirVerack st; sentGetaddr := sentGetaddr st;
          addresses := addresses st ++ List.map legacy_addr l; buf := buf st;
          written := written st |}
  else if bool_decide (command m = jss "addrv2") then
    l ← p2pParseAddrV2Payload (payload m);
    Ok {| theirVersion := theirVersion st; sentVerack := sentVerack st;
          gotTheirVerack := gotTheirVerack st; sentGetaddr := sentGetaddr st;
          addresses := addresses st ++ l; buf := buf st; written := written st |}
  else Ok st.

Definition set_buf (st : State) (b : bytes) : State :=
  {| theirVersion := theirVersion st; sentVerack := sentVerack st;
     gotTheirVerack := gotTheirVerack st; sentGetaddr := sentGetaddr st;
     addresses := addresses st; buf := b; written := written st |}.

Section WithSha256.
Context {SHA : Sha256}.
Variable env : PeerEnv.

(** How a piece of the [try] block ends: it goes on, the block is left by an
    exception or by [break], or it waits for ever. *)
Inductive flow := Go | Leave | Hang.

(** [await writer.write(bytes)]. *)
Definition write (bs : bytes) (st : State) : State * flow :=
  ({| theirVersion := theirVersion st; sentVerack := sentVerack st;
      gotTheirVerack := gotTheirVerack st; sentGetaddr := sentGetaddr st;
      addresses := addresses st; buf := buf st; written := written st ++ [bs] |},
   match pe_writes env (length (written st)) with Resolves => Go | Refuses => Leave | Pends => Hang end).

(** The inner loop: messages are extracted from the buffer and handled in turn.
    The second component is false when an exception ends it; the variables
    assigned before it keep their values. *)
Fixpoint receive_loop (fuel : nat) (st : State) : State * bool :=
  match fuel with
  | O => (st, false)
  | S fuel' =>
    match p2pTryExtractMessage (buf st) with
    | Throw _ => (st, false)
    | Ok (None, rest) => (set_buf st rest, true)
    | Ok (Some m, rest) =>
      match handle_message (set_buf st rest) m with
      | Throw _ => (set_buf st rest, false)
      | Ok st' => receive_loop fuel' st'
      end
    end
  end.

Definition receive (st : State) (chunk : bytes) : State * bool :=
  let merged := buf st ++ chunk in
  receive_loop (S (length merged)) (set_buf st merged).

(** [verack] and [getaddr] are each sent once. *)
Definition send_verack (st : State) : State * flow :=
  if bool_decide (is_Some (theirVersion st)) && negb (sentVerack st) then
    let '(st', f) := write (p2pPackMessage (jss "verack") []) st in
    match f with
    | Go => ({| theirVersion := theirVersion st'; sentVerack := true;
                gotTheirVerack := gotTheirVerack st'; sentGetaddr := sentGetaddr st';
                addresses := addresses st'; buf := buf st'; written := written st' |}, Go)
    | f => (st', f)
    end
  else (st, Go).

Definition send_getaddr (st : State) : State * flow :=
  if gotTheirVerack st && negb (sentGetaddr st) then
    let '(st', f) := write (p2pPackMessage (jss "getaddr") []) st in
    match f with
    | Go => ({| theirVersion := theirVersion st'; sentVerack := sentVerack st';
                gotTheirVerack := gotTheirVerack st'; sentGetaddr := true;
                addresses := addresses st'; buf := buf st'; written := written st' |}, Go)
    | f => (st', f)
    end
  else (st, Go).

(** The replies, and [if (sentGetaddr && addresses.length > 0) break]. *)
Definition respond (st : State) : State * flow :=
  let '(st, f) := send_verack st in
  match f with
  | Go =>
    let '(st, f) := send_getaddr st in
    match f with
    | Go => (st, if sentGetaddr st && negb (bool_decide (addresses st = [])) then Leave else Go)
    | f => (st, f)
    end
  | f => (st, f)
  end.

(** The loop [while (Date.now() < deadline)]: the local variables after it, and
    whether it ends. *)
Fixpoint read_loop (deadline : jsnum) (reads : list read_turn) (st : State) : State * bool :=
  match reads with
  | [] => (st, true)
  | t :: reads' =>
    if js_ltb (num (rt_test t)) deadline then
      let remaining := js_sub deadline (num (rt_now t)) in
      if js_leb remaining (num 0) then (st, true)
      else
        match withTimeout (rt_read t) (pe_timer env remaining) with
        | None | Some RDone => (st, true)
        | Some (RChunk chunk) =>
          let '(st, ok) := receive st chunk in
          if ok : bool then
            let '(st, f) := respond st in
            match f with Go => read_loop deadline reads' st | Leave => (st, true) | Hang => (st, false) end
          else (st, true)
        end
    else (st, true)
  end.

Definition userAgent : jsstr := jss "/elektron-node-map-worker:1.0/".

(** The body of the [try] block: the local variables after it, and whether it
    ends. *)
Definition handshake (ip : jsstr) (port totalTimeoutMs : jsnum) : State * bool :=
  let deadline := js_add (num (pe_start env)) totalTimeoutMs in
  match p2pBuildVersionPayload ip (to_int port) userAgent (pe_nonce env) (pe_version_now env) with
  | Throw _ => (init_state, true)
  | Ok vp =>
    let '(st, f) := write (p2pPackMessage (jss "version") vp) init_state in
    match f with
    | Go =>
      let '(st, f) := write (p2pPackMessage (jss "sendaddrv2") []) st in
      match f with
      | Go => read_loop deadline (pe_reads env) st
      | Leave => (st, true)
      | Hang => (st, false)
      end
    | Leave => (st, true)
    | Hang => (st, false)
    end
  end.

(** What is reported of a peer. *)
Record CrawlResult := {
  cr_services : Z; cr_subver : jsstr; cr_startHeight : Z; cr_addresses : list PeerAddr
}.

(** The override [opts.fetcher] of the tests. *)
Definition Fetcher := jsstr -> jsnum -> res (option CrawlResult).

Definition crawlPeerOnce (ip : jsstr) (port connectTimeoutMs totalTimeoutMs : jsnum) (fetcher : option Fetcher)
    : res (option CrawlResult) :=
  match fetcher with
  | Some f => f ip port
  | None =>
    match pe_connect env with
    | ConnectThrows => Throw ConnectError
    | Connects opened =>
      match withTimeout opened (pe_timer env connectTimeoutMs) with
      | None => Ok None
      | Some _ =>
        let '(st, ends) := handshake ip port totalTimeoutMs in
        if negb ends || bool_decide (pe_close env = Pends) then Throw Diverges
        else match theirVersion st with
        | None => Ok None
        | Some v => Ok (Some {| cr_services := services v; cr_subver := subver v;
                                cr_startHeight := startHeight v; cr_addresses := addresses st |})
        end
      end
    end
  end.

(** ** What a sequence of messages tells *)

Definition version_of (m : Message) : option VersionInfo :=
  if bool_decide (command m = jss "version") then
    match p2pParseVersionPayload (payload m) with Ok v => Some v | Throw _ => None end
  else None.

Definition addresses_of (m : Message) : list PeerAddr :=
  if bool_decide (command m = jss "addr") then
    match p2pParseAddrPayload (payload m) with Ok l => List.map legacy_addr l | Throw _ => [] end
  else if bool_decide (command m = jss "addrv2") then
    match p2pParseAddrV2Payload (payload m) with Ok l => l | Throw _ => [] end
  else [].

Definition is_verack (m : Message) : bool := bool_decide (command m = jss "verack").

(** The last version message, the verack, and all addresses in order. *)
Definition last_version (ms : list Message) : option VersionInfo :=
  foldl (fun acc m => match version_of m with Some v => Some v | None => acc end) None ms.
Definition any_verack (ms : list Message) : bool := existsb is_verack ms.
Definition all_addresses (ms : list Message) : list PeerAddr := concat (List.map addresses_of ms).

(** The variables hold what the messages in [consumed] tell. *)
Definition knows (st : State) (consumed : bytes) : Prop :=
  exists ms, drains consumed ms (buf st) /\ theirVersion st = last_version ms
    /\ gotTheirVerack st = any_verack ms /\ addresses st = all_addresses ms.

(** The state after one more message. *)
Definition learn (st : State) (m : Message) (rest : bytes) : State :=
  {| theirVersion := match version_of m with Some v => Some v | None => theirVersion st end;
     sentVerack := sentVerack st; gotTheirVerack := gotTheirVerack st || is_verack m;
     sentGetaddr := sentGetaddr st; addresses := addresses st ++ addresses_of m; buf := rest;
     written := written st |}.

Lemma handle_learn st m rest :
  len (payload m) <= maxLen -> handle_message (set_buf st rest) m = Ok (learn st m rest).
Proof.
  intros Hm. unfold handle_message, learn, version_of, is_verack, addresses_of, set_buf, maxLen in *.
  destruct m as [c p]; cbn [command payload] in *.
  destruct (decide (c = jss "version")) as [->|H1];
    [|rewrite (bool_decide_eq_false_2 (c = jss "version")) by done].
  { destruct (parse_version_total p) as [v E]. rewrite !bool_decide_eq_true_2 by done. rewrite E. rbind.
    rewrite !bool_decide_eq_false_2 by done. by rewrite orb_false_r, app_nil_r. }
  destruct (decide (c = jss "verack")) as [->|H2];
    [|rewrite (bool_decide_eq_false_2 (c = jss "verack")) by done].
  { rewrite !bool_decide_eq_true_2 by done. rewrite !bool_decide_eq_false_2 by done.
    by rewrite orb_true_r, app_nil_r. }
  destruct (decide (c = jss "addr")) as [->|H3];
    [|rewrite (bool_decide_eq_false_2 (c = jss "addr")) by done].
  { destruct (parse_addr_total p) as (l & E & _). rewrite !bool_decide_eq_true_2 by done. rewrite E. rbind.
    by rewrite orb_false_r. }
  rewrite orb_false_r.
  destruct (decide (c = jss "addrv2")) as [->|H4];
    [|rewrite (bool_decide_eq_false_2 (c = jss "addrv2")) by done; by rewrite app_nil_r].
  destruct (parse_addrv2_total p) as (l & E & _); [lia|].
  rewrite !bool_decide_eq_true_2 by done. by rewrite E.
Qed.

Lemma drains_payload b ms r : drains b ms r -> Forall (fun m => len (payload m) <= maxLen) ms.
Proof.
  intros H. apply drains_stream in H. induction H as [|g f m b ms r Hf _ IH]; constructor; [|done].
  by destruct Hf as (? & _ & _ & ? & _).
Qed.

(** The inner loop handles the messages of the buffer and keeps the rest. *)
Lemma receive_loop_spec fuel : forall st ms r,
  (length (buf st) < fuel)%nat -> drains (buf st) ms r ->
  receive_loop fuel st = (set_buf (foldl (fun st m => learn st m r) st ms) r, true).
Proof.
  induction fuel as [|f IH]; intros st ms r Hf Hd; [lia|]. cbn [receive_loop].
  unfold p2pTryExtractMessage.
  destruct (try_extract_spec (length (buf st)) (buf st)) as (om & rest & -> & Hl & Hm); [done|].
  destruct om as [m|].
  - destruct (drain_spec rest) as (ms' & r' & _ & Hd').
    destruct (drains_fun _ _ _ Hd _ _ (Hm _ _ Hd')) as [-> ->].
    pose proof (Forall_inv (drains_payload _ _ _ Hd)) as Hp.
    rewrite (handle_learn st m rest Hp).
    rewrite (IH (learn st m rest) ms' r'); [|cbn [buf learn]; lia|done].
    cbn [foldl]. f_equal. clear.
    assert (forall l st1 st2, set_buf st1 r' = set_buf st2 r' ->
      set_buf (foldl (fun st m => learn st m r') st1 l) r'
      = set_buf (foldl (fun st m => learn st m r') st2 l) r') as Hg.
    { induction l as [|x l IHl]; intros st1 st2 E; [done|]. cbn [foldl]. apply IHl.
      unfold set_buf, learn in *. cbn. injection E as E1 E2 E3 E4 E5 E6. by rewrite E1, E2, E3, E4, E5, E6. }
    by apply Hg.
  - destruct (drains_fun _ _ _ Hd _ _ Hm) as [-> ->]. done.
Qed.

Lemma foldl_learn ms : forall st r,
  let st' := foldl (fun st m => learn st m r) st ms in
  theirVersion st' = foldl (fun acc m => match version_of m with Some v => Some v | None => acc end)
                       (theirVersion st) ms
  /\ gotTheirVerack st' = gotTheirVerack st || any_verack ms
  /\ addresses st' = addresses st ++ all_addresses ms
  /\ sentVerack st' = sentVerack st /\ sentGetaddr st' = sentGetaddr st /\ written st' = written st.
Proof.
  induction ms as [|m ms IH]; intros st r; cbn [foldl].
  - unfold any_verack, all_addresses. simpl. by rewrite orb_false_r, app_nil_r.
  - destruct (IH (learn st m r) r) as (E1 & E2 & E3 & E4 & E5 & E6).
    rewrite E1, E2, E3, E4, E5, E6. unfold any_verack, all_addresses. cbn.
    by rewrite <- orb_assoc, <- app_assoc.
Qed.

Lemma last_version_app ms ms' :
  last_version (ms ++ ms')
  = foldl (fun acc m => match version_of m with Some v => Some v | None => acc end)
      (last_version ms) ms'.
Proof. unfold last_version. by rewrite foldl_app. Qed.

Lemma foldl_version_some ms v :
  is_Some (foldl (fun acc m => match version_of m with Some v => Some v | None => acc end) (Some v) ms).
Proof.
  revert v. induction ms as [|m ms IH]; intros v; simpl; [by eexists|]. destruct (version_of m); apply IH.
Qed.

Lemma all_addresses_app ms ms' : all_addresses (ms ++ ms') = all_addresses ms ++ all_addresses ms'.
Proof. unfold all_addresses. by rewrite map_app, concat_app. Qed.

Lemma any_verack_app ms ms' : any_verack (ms ++ ms') = any_verack ms || any_verack ms'.
Proof. apply existsb_app. Qed.

(** A chunk never ends the handshake with an exception. *)
Lemma receive_knows st chunk consumed :
  knows st consumed ->
  exists st', receive st chunk = (st', true) /\ knows st' (consumed ++ chunk)
    /\ sentVerack st' = sentVerack st /\ sentGetaddr st' = sentGetaddr st /\ written st' = written st
    /\ (is_Some (theirVersion st) -> is_Some (theirVersion st'))
    /\ (gotTheirVerack st = true -> gotTheirVerack st' = true).
Proof.
  intros (ms & Hd & Hv & Hg & Ha). unfold receive.
  destruct (drain_spec (buf st ++ chunk)) as (ms' & r & _ & Hd').
  rewrite (receive_loop_spec _ _ ms' r); [|cbn [buf set_buf]; lia|done].
  eexists. split; [done|].
  destruct (foldl_learn ms' (set_buf st (buf st ++ chunk)) r) as (E1 & E2 & E3 & E4 & E5 & E6).
  split.
  { exists (ms ++ ms'). split; [by eapply drains_app|].
    cbn [set_buf theirVersion gotTheirVerack addresses] in *.
    rewrite E1, E2, E3, Hv, Hg, Ha, last_version_app, any_verack_app, all_addresses_app. done. }
  cbn [set_buf theirVersion gotTheirVerack sentVerack sentGetaddr written] in *.
  rewrite E1, E2, E4, E5, E6. split_and!; try done.
  - intros [v ->]. apply foldl_version_some.
  - by intros ->.
Qed.

(** ** What is sent *)

Definition verack_frame : bytes := p2pPackMessage (jss "verack") [].
Definition getaddr_frame : bytes := p2pPackMessage (jss "getaddr") [].

(** The replies that may follow the opening, given whether the peer's version
    and its verack have been received. *)
Inductive replies (version verack : Prop) : list bytes -> Prop :=
  | replies_none : replies version verack []
  | replies_verack : version -> replies version verack [verack_frame]
  | replies_getaddr : verack -> replies version verack [getaddr_frame]
  | replies_both : version -> verack -> replies version verack [verack_frame; getaddr_frame]
  | replies_swapped : version -> verack -> replies version verack [getaddr_frame; verack_frame].

Definition opening (vp : bytes) : list bytes :=
  [p2pPackMessage (jss "version") vp; p2pPackMessage (jss "sendaddrv2") []].

Definition sent_in_order (vp : bytes) (st : State) : Prop :=
  exists rest, written st = opening vp ++ rest
    /\ replies (is_Some (theirVersion st)) (gotTheirVerack st = true) rest.

(** The replies recorded by the two flags. *)
Definition flagged (verack getaddr : bool) (rest : list bytes) : Prop :=
  match verack, getaddr with
  | false, false => rest = []
  | true, false => rest = [verack_frame]
  | false, true => rest = [getaddr_frame]
  | true, true => rest = [verack_frame; getaddr_frame] \/ rest = [getaddr_frame; verack_frame]
  end.

Definition in_loop (vp : bytes) (st : State) : Prop :=
  (exists rest, written st = opening vp ++ rest /\ flagged (sentVerack st) (sentGetaddr st) rest)
  /\ (sentVerack st = true -> is_Some (theirVersion st))
  /\ (sentGetaddr st = true -> gotTheirVerack st = true).

Lemma in_loop_sent vp st : in_loop vp st -> sent_in_order vp st.
Proof.
  intros ((rest & E & Hf) & Hv & Hg). exists rest. split; [done|]. unfold flagged in Hf.
  destruct (sentVerack st), (sentGetaddr st); [destruct Hf as [->| ->]|subst..]; constructor; auto.
Qed.

Definition same_knowledge (st st' : State) : Prop :=
  theirVersion st' = theirVersion st /\ gotTheirVerack st' = gotTheirVerack st
  /\ addresses st' = addresses st /\ buf st' = buf st.

Lemma same_knows st st' consumed : same_knowledge st st' -> knows st consumed -> knows st' consumed.
Proof.
  intros (E1 & E2 & E3 & E4) (ms & ?). exists ms. by rewrite E1, E2, E3, E4.
Qed.

(** A write is the reason that a piece does not go on. *)
Definition write_stops (f : flow) : Prop :=
  match f with
  | Go => True
  | Leave => exists n, pe_writes env n = Refuses
  | Hang => exists n, pe_writes env n = Pends
  end.

Lemma send_verack_spec vp st st' f :
  send_verack st = (st', f) -> in_loop vp st ->
  same_knowledge st st' /\ sent_in_order vp st' /\ (f = Go -> in_loop vp st') /\ write_stops f.
Proof.
  intros E Hi. pose proof (in_loop_sent _ _ Hi) as Hs. unfold send_verack in E.
  destruct (bool_decide (is_Some (theirVersion st))) eqn:Hv; simpl in E; [|by simplify_eq].
  apply bool_decide_eq_true in Hv.
  destruct (sentVerack st) eqn:Ev; simpl in E; [by simplify_eq|].
  destruct Hi as ((rest & Ew & Hf) & Hv' & Hg). rewrite Ev in Hf.
  assert (exists r', written st ++ [verack_frame] = opening vp ++ r' /\ flagged true (sentGetaddr st) r'
    /\ replies (is_Some (theirVersion st)) (gotTheirVerack st = true) r') as (r' & Er & Hf' & Hr).
  { exists (rest ++ [verack_frame]). rewrite Ew, app_assoc. split; [done|].
    destruct (sentGetaddr st) eqn:Eg; simpl in Hf; subst rest; simpl;
      (split; [auto|constructor; auto]). }
  destruct (pe_writes env (length (written st))) eqn:Ep; simpl in E; simplify_eq;
    (split; [done|]; split; [by exists r'|]; split); try done; [|by eexists..].
  intros _. split; [by exists r'|]. done.
Qed.

Lemma send_getaddr_spec vp st st' f :
  send_getaddr st = (st', f) -> in_loop vp st ->
  same_knowledge st st' /\ sent_in_order vp st' /\ (f = Go -> in_loop vp st')
  /\ (f = Go -> sentGetaddr st' = gotTheirVerack st') /\ write_stops f.
Proof.
  intros E Hi. pose proof (in_loop_sent _ _ Hi) as Hs. unfold send_getaddr in E.
  destruct Hi as ((rest & Ew & Hf) & Hv & Hg).
  destruct (gotTheirVerack st) eqn:Et; simpl in E; [destruct (sentGetaddr st) eqn:Eg; simpl in E|].
  - simplify_eq. split_and!; try done; [|congruence]. intros _. split_and!; [exists rest; by rewrite Eg|done..].
  - assert (exists r', written st ++ [getaddr_frame] = opening vp ++ r' /\ flagged (sentVerack st) true r'
      /\ replies (is_Some (theirVersion st)) (gotTheirVerack st = true) r') as (r' & Er & Hf' & Hr).
    { exists (rest ++ [getaddr_frame]). rewrite Ew, app_assoc. split; [done|].
      destruct (sentVerack st) eqn:Ev; simpl in Hf; subst rest; simpl;
        (split; [auto|constructor; auto]). }
    destruct (pe_writes env (length (written st))) eqn:Ep; simpl in E; simplify_eq;
      (split; [done|]; split; [by exists r'|]; split; [|split]); try done; [|by eexists..].
    intros _. split; [by exists r'|]. done.
  - simplify_eq. destruct (sentGetaddr st') eqn:Eg; [by specialize (Hg eq_refl)|].
    split_and!; try done. intros _. split; [exists rest; by rewrite Eg|]. split; [done|congruence].
Qed.

(** The peer has acknowledged the version and sent addresses. *)
Definition has_answered (st : State) : Prop := gotTheirVerack st = true /\ addresses st <> [].

Lemma respond_spec vp st st' f :
  respond st = (st', f) -> in_loop vp st ->
  same_knowledge st st' /\ sent_in_order vp st' /\ (f = Go -> in_loop vp st' /\ ~ has_answered st)
  /\ (f <> Go -> (f = Leave /\ has_answered st) \/ write_stops f).
Proof.
  intros E Hi. unfold respond in E.
  destruct (send_verack st) as [s1 f1] eqn:E1.
  destruct (send_verack_spec vp _ _ _ E1 Hi) as ((K1 & K2 & K3 & K4) & Hs1 & Hi1 & Hw1).
  destruct f1; [|simplify_eq; split_and!; by auto..].
  destruct (send_getaddr s1) as [s2 f2] eqn:E2.
  destruct (send_getaddr_spec vp _ _ _ E2 (Hi1 eq_refl)) as ((L1 & L2 & L3 & L4) & Hs2 & Hi2 & Hg2 & Hw2).
  assert (same_knowledge st s2) by (unfold same_knowledge; by rewrite L1, L2, L3, L4).
  destruct f2; [|simplify_eq; split_and!; by auto..].
  unfold has_answered. rewrite <- K2, <- K3, <- L2, <- L3, <- (Hg2 eq_refl).
  destruct (sentGetaddr s2) eqn:Eg, (bool_decide (addresses s2 = [])) eqn:Ea; simpl in E; simplify_eq;
    try apply bool_decide_eq_true in Ea; try apply bool_decide_eq_false in Ea; split_and!; try done.
  - intros _. split; [auto|]. by intros [_ ?].
  - intros _. by left.
  - intros _. split; [auto|]. by intros [? _].
  - intros _. split; [auto|]. by intros [? _].
Qed.

(** ** What is read *)

(** The chunks that arrive while the loop is open, until the peer closes the
    connection, a read fails or the deadline passes. *)
Fixpoint timely (deadline : jsnum) (reads : list read_turn) : list bytes :=
  match reads with
  | [] => []
  | t :: reads' =>
    if js_ltb (num (rt_test t)) deadline && negb (js_leb (js_sub deadline (num (rt_now t))) (num 0)) then
      match withTimeout (rt_read t) (pe_timer env (js_sub deadline (num (rt_now t)))) with
      | Some (RChunk c) => c :: timely deadline reads'
      | _ => []
      end
    else []
  end.

(** The messages in a sequence of bytes. *)
Definition messages (b : bytes) : list Message :=
  match drain b with Ok (ms, _) => ms | Throw _ => [] end.

(** They contain a verack and addresses. *)
Definition complete (ms : list Message) : Prop := any_verack ms = true /\ all_addresses ms <> [].

Lemma knows_messages st consumed : knows st consumed ->
  theirVersion st = last_version (messages consumed) /\ addresses st = all_addresses (messages consumed)
  /\ (has_answered st <-> complete (messages consumed)).
Proof.
  intros (ms & Hd & Hv & Hg & Ha). unfold messages. rewrite (proj2 (drain_drains _ _ _) Hd).
  split; [done|]. split; [done|]. unfold has_answered, complete. by rewrite Hg, Ha.
Qed.

(** The chunks the peer sends before it closes or a read fails. *)
Fixpoint chunks_of (reads : list read_turn) : list bytes :=
  match reads with
  | {| rt_read := Fulfills _ (RChunk c) |} :: reads' => c :: chunks_of reads'
  | _ => []
  end.

(** After [n] of the chunks the loop has stopped, for a reason, and not before. *)
Definition stops_after (chunks : list bytes) (consumed : bytes) (n : nat) : Prop :=
  (n <= length chunks)%nat
  /\ (forall k, (0 < k < n)%nat -> ~ complete (messages (consumed ++ concat (take k chunks))))
  /\ (n = length chunks \/ complete (messages (consumed ++ concat (take n chunks)))
      \/ exists i, pe_writes env i <> Resolves).

Lemma stops_after_cons c chunks consumed n : ~ complete (messages (consumed ++ c)) ->
  stops_after chunks (consumed ++ c) n -> stops_after (c :: chunks) consumed (S n).
Proof.
  intros Hc (Hn & Hk & Hr). split; [cbn; lia|]. cbn [take concat length]. split.
  - intros [|k] Hk'; [lia|]. cbn [take concat]. rewrite app_assoc.
    destruct k as [|k]; [by rewrite app_nil_r|]. apply Hk. lia.
  - rewrite app_assoc. destruct Hr as [->|Hr]; [by left|by right].
Qed.

Lemma write_stops_some f : f <> Go -> write_stops f -> exists i, pe_writes env i <> Resolves.
Proof. destruct f; [done|..]; intros _ [i Hi]; exists i; by rewrite Hi. Qed.

Lemma read_loop_sound vp deadline reads : forall st consumed,
  in_loop vp st -> knows st consumed ->
  let '(st', ends) := read_loop deadline reads st in
  sent_in_order vp st' /\ (ends = false -> exists i, pe_writes env i = Pends)
  /\ exists n, knows st' (consumed ++ concat (take n (timely deadline reads)))
      /\ stops_after (timely deadline reads) consumed n.
Proof.
  induction reads as [|[tt tn rd] reads IH]; intros st consumed Hi Hk; cbn [read_loop timely rt_test rt_now rt_read].
  - split; [by apply in_loop_sent|]. split; [done|]. exists O. rewrite app_nil_r. split; [done|].
    split; [done|]. split; [lia|by left].
  - assert (sent_in_order vp st /\ (true = false -> exists i, pe_writes env i = Pends)
      /\ exists n, knows st (consumed ++ concat (take n [])) /\ stops_after [] consumed n) as Hend.
    { split; [by apply in_loop_sent|]. split; [done|]. exists O. rewrite app_nil_r. split; [done|].
      split; [done|]. split; [lia|by left]. }
    destruct (js_ltb _ _); [|done]. destruct (js_leb _ _); [done|]. cbn [andb negb].
    destruct (withTimeout rd _) as [[c|]|]; [|done..]. clear Hend.
    destruct (receive_knows st c consumed Hk) as (s1 & -> & Hk1 & F1 & F2 & F3 & M1 & M2).
    assert (in_loop vp s1) as Hi1.
    { destruct Hi as (Hw & Hv & Hg). unfold in_loop. rewrite F1, F2, F3. auto. }
    destruct (knows_messages _ _ Hk1) as (_ & _ & Hans).
    destruct (respond s1) as [s2 f] eqn:E2.
    destruct (respond_spec vp _ _ _ E2 Hi1) as (Hsk & Hs2 & Hi2 & Hstop).
    pose proof (same_knows _ _ _ Hsk Hk1) as Hk2.
    assert (f <> Go -> exists n, knows s2 (consumed ++ concat (take n (c :: timely deadline reads)))
              /\ stops_after (c :: timely deadline reads) consumed n) as Hlast.
    { intros Hf. exists 1%nat. cbn [take concat]. rewrite app_nil_r. split; [done|].
      split; [cbn; lia|]. split; [lia|]. right. cbn [take concat]. rewrite app_nil_r.
      destruct (Hstop Hf) as [[_ Ha]|Hw]; [left; by apply Hans|right; by apply (write_stops_some f)]. }
    destruct f.
    + destruct (Hi2 eq_refl) as [Hin Hna]. specialize (IH s2 (consumed ++ c) Hin Hk2).
      destruct (read_loop deadline reads s2) as [st' ends]. destruct IH as (Hs & He & n & Hn & Hst).
      split; [done|]. split; [done|]. exists (S n). cbn [take concat]. rewrite app_assoc. split; [done|].
      apply stops_after_cons; [|done]. by rewrite <- Hans.
    + split; [done|]. split; [done|]. by apply Hlast.
    + split; [done|]. split; [|by apply Hlast]. intros _. by destruct (Hstop ltac:(done)) as [[? _]|?].
Qed.

Lemma knows_init : knows init_state [].
Proof. exists []. split; [apply drains_nil|done]. Qed.

(** The state in which the loop is entered. *)
Definition opened (vp : bytes) : State :=
  {| theirVersion := None; sentVerack := false; gotTheirVerack := false; sentGetaddr := false;
     addresses := []; buf := []; written := opening vp |}.

Lemma opened_in_loop vp : in_loop vp (opened vp).
Proof. split; [|done]. exists []. by rewrite app_nil_r. Qed.

Lemma opened_knows vp : knows (opened vp) [].
Proof. exact knows_init. Qed.

(** The cases of the body of the [try] block. *)
Lemma handshake_cases ip port total :
  handshake ip port total = (init_state, true)
  \/ exists vp, p2pBuildVersionPayload ip (to_int port) userAgent (pe_nonce env) (pe_version_now env) = Ok vp /\
    ((exists ends, handshake ip port total =
        ({| theirVersion := None; sentVerack := false; gotTheirVerack := false;
            sentGetaddr := false; addresses := []; buf := [];
            written := [p2pPackMessage (jss "version") vp] |}, ends)
        /\ (ends = false -> exists i, pe_writes env i = Pends))
     \/ (exists ends, handshake ip port total = (opened vp, ends)
        /\ (ends = false -> exists i, pe_writes env i = Pends))
     \/ handshake ip port total = read_loop (js_add (num (pe_start env)) total) (pe_reads env) (opened vp)).
Proof.
  unfold handshake. destruct (p2pBuildVersionPayload _ _ _ _ _) as [vp|]; [|by left].
  right. exists vp. split; [done|]. cbn [write init_state written length app].
  destruct (pe_writes env 0) eqn:E0;
    [|left; by exists true|left; exists false; split; [done|by eexists]]. cbn [write written length app].
  destruct (pe_writes env 1) eqn:E1;
    [|right; left; by exists true|right; left; exists false; split; [done|by eexists]]. by right; right.
Qed.

(** A handshake ends unless a write never settles. *)
Lemma handshake_ends ip port total :
  (forall i, pe_writes env i <> Pends) -> (handshake ip port total).2 = true.
Proof.
  intros H.
  assert (forall e, (e = false -> exists i, pe_writes env i = Pends) -> e = true) as He.
  { intros [] Hx; [done|]. destruct (Hx eq_refl) as [i Hi]. by destruct (H i). }
  destruct (handshake_cases ip port total) as [->|(vp & _ & [(e & -> & Hx)|[(e & -> & Hx)| ->]])]; [done|by apply He..|].
  pose proof (read_loop_sound vp (js_add (num (pe_start env)) total) (pe_reads env) _ []
                (opened_in_loop vp) (opened_knows vp)) as Hs.
  destruct (read_loop _ _ _) as [st e]. apply He, Hs.
Qed.

(** ** A peer that answers *)

(** The frames of a sequence of messages, one after the other. *)
Definition frames (ms : list Message) : bytes :=
  concat (List.map (fun m => p2pPackMessage (command m) (payload m)) ms).

Definition sendable (m : Message) : Prop := command_ok (command m) /\ len (payload m) <= maxLen.

(** The read delivers a chunk before the deadline. *)
Definition on_time (deadline : jsnum) (t : read_turn) : Prop :=
  js_ltb (num (rt_test t)) deadline = true
  /\ js_leb (js_sub deadline (num (rt_now t))) (num 0) = false
  /\ exists after c, rt_read t = Fulfills after (RChunk c)
      /\ after < pe_timer env (js_sub deadline (num (rt_now t))).

Lemma drains_frames ms : Forall sendable ms -> drains (frames ms) ms [].
Proof.
  induction 1 as [|[c p] ms [Hc Hp] _ IH]; [apply drains_nil|].
  unfold frames. cbn [List.map concat command payload]. eapply drains_deliver; [|exact IH].
  exact (extract_turn_pack [] c p _ eq_refl Hc Hp).
Qed.

Lemma all_addresses_prefix ms1 ms2 pre a :
  ms1 ++ ms2 = pre ++ [a] -> all_addresses pre = [] -> ms2 <> [] -> all_addresses ms1 = [].
Proof.
  intros E Hp Hn. destruct (exists_last Hn) as (l & x & ->). rewrite app_assoc in E.
  apply app_inj_tail in E as [<- _]. rewrite all_addresses_app in Hp. by apply app_eq_nil in Hp as [? _].
Qed.

Lemma build_version_ok ip port ua nonce now b16 :
  p2pEncodeIp ip = Ok b16 -> exists vp, p2pBuildVersionPayload ip port ua nonce now = Ok vp.
Proof.
  intros E. unfold p2pBuildVersionPayload, p2pEncodeAddr. rewrite E. rbind.
  destruct (p2pEncodeIp (jss "0.0.0.0")) as [z|] eqn:Ez; [|by vm_compute in Ez]. rbind. by eexists.
Qed.

Section Answering.
Context (pre : list Message) (a : Message).
Hypothesis Hsend : Forall sendable (pre ++ [a]).
Hypothesis Hverack : any_verack pre = true.
Hypothesis Hpre : all_addresses pre = [].
Hypothesis Ha : addresses_of a <> [].
Hypothesis Hwrites : forall n, pe_writes env n = Resolves.

Lemma all_addresses_last : all_addresses (pre ++ [a]) = addresses_of a.
Proof. rewrite all_addresses_app, Hpre. unfold all_addresses. simpl. by rewrite app_nil_r. Qed.

Lemma read_loop_complete vp deadline later reads : forall st consumed,
  in_loop vp st -> knows st consumed -> addresses st = [] ->
  Forall (on_time deadline) reads -> consumed ++ concat (chunks_of reads) = frames (pre ++ [a]) ->
  let '(st', ends) := read_loop deadline (reads ++ later) st in
  ends = true /\ theirVersion st' = last_version (pre ++ [a]) /\ addresses st' = addresses_of a.
Proof.
  pose proof (drains_frames _ Hsend) as Hall.
  induction reads as [|[tt tn rd] reads IH]; intros st consumed Hi Hk He Ht Hc.
  { simpl in Hc. rewrite app_nil_r in Hc. subst consumed. destruct Hk as (ms & Hd & _ & _ & Hm).
    destruct (drains_fun _ _ _ Hall _ _ Hd) as [<- _]. rewrite He, all_addresses_last in Hm. by symmetry in Hm. }
  apply Forall_cons_1 in Ht as [(H1 & H2 & after & c & Ec & Hafter) Ht]. cbn [rt_test rt_now rt_read] in H1, H2, Ec, Hafter. subst rd.
  cbn [app read_loop rt_test rt_now rt_read]. rewrite H1, H2.
  cbn [withTimeout]. rewrite (proj2 (Z.ltb_lt _ _) Hafter), orb_true_r.
  destruct (receive_knows st c consumed Hk) as (s1 & -> & Hk1 & F1 & F2 & F3 & M1 & M2).
  assert (in_loop vp s1) as Hi1.
  { destruct Hi as (Hw & Hv & Hg). unfold in_loop. rewrite F1, F2, F3. auto. }
  destruct (respond s1) as [s2 f] eqn:E2.
  destruct (respond_spec vp _ _ _ E2 Hi1) as (Hsk & _ & Hi2 & Hstop).
  assert (f <> Go -> f = Leave /\ has_answered s1) as Hleave.
  { intros Hf. destruct (Hstop Hf) as [?|(i & Hi')%(write_stops_some f Hf)]; [done|]. by rewrite Hwrites in Hi'. }
  pose proof (same_knows _ _ _ Hsk Hk1) as Hk2.
  cbn [chunks_of concat] in Hc. rewrite app_assoc in Hc.
  destruct Hk1 as (ms1 & Hd1 & Hv1 & Hg1 & Ha1). destruct Hsk as (S1 & _ & S3 & _). unfold has_answered in *.
  destruct (drain_spec (buf s1 ++ concat (chunks_of reads))) as (ms2 & r2 & _ & Hd2).
  pose proof (drains_app _ _ _ Hd1 _ _ _ Hd2) as Hd. rewrite Hc in Hd.
  destruct (drains_fun _ _ _ Hall _ _ Hd) as [E _].
  destruct (decide (ms2 = [])) as [->|Hn].
  - rewrite app_nil_r in E. subst ms1. rewrite Hg1, any_verack_app, Hverack, Ha1, all_addresses_last in Hi2.
    destruct f; [by destruct (Hi2 eq_refl) as [_ []]| |by destruct (Hleave ltac:(done)) as [? _]].
    by rewrite S1, S3, Hv1, Ha1, all_addresses_last.
  - pose proof (all_addresses_prefix _ _ _ _ (eq_sym E) Hpre Hn) as He1.
    destruct f; [|destruct (Hleave ltac:(done)) as (_ & _ & Hne); by rewrite Ha1 in Hne..].
    apply (IH s2 (consumed ++ c)); [by apply Hi2|done| |done..]. by rewrite S3, Ha1.
Qed.

End Answering.

(** ** What is reported *)

(** The state behind a result. *)
Lemma crawl_reports ip port connectTimeoutMs totalTimeoutMs r :
  crawlPeerOnce ip port connectTimeoutMs totalTimeoutMs None = Ok (Some r) ->
  let chunks := timely (js_add (num (pe_start env)) totalTimeoutMs) (pe_reads env) in
  exists vp st n, handshake ip port totalTimeoutMs = (st, true) /\ knows st (concat (take n chunks))
    /\ stops_after chunks [] n
    /\ exists v, theirVersion st = Some v
      /\ r = {| cr_services := services v; cr_subver := subver v; cr_startHeight := startHeight v;
                cr_addresses := addresses st |}
      /\ sent_in_order vp st.
Proof.
  unfold crawlPeerOnce. destruct (pe_connect env); [done|]. destruct (withTimeout _ _); [|done]. cbv zeta.
  destruct (handshake_cases ip port totalTimeoutMs) as [->|(vp & Hb & [(e & -> & _)|[(e & -> & _)| ->]])];
    [by destruct (_ || _)..|].
  pose proof (read_loop_sound vp (js_add (num (pe_start env)) totalTimeoutMs) (pe_reads env) _ []
                (opened_in_loop vp) (opened_knows vp)) as Hs.
  destruct (read_loop _ _ _) as [st e]. destruct Hs as (Hs & _ & n & Hk & Hst).
  destruct e; [|done]. destruct (bool_decide _); [done|]. cbn [negb orb].
  destruct (theirVersion st) as [v|] eqn:Ev; [|done]. intros E%Ok_inj. simplify_eq.
  exists vp, st, n. do 3 (split; [done|]). by exists v.
Qed.

Lemma legacy_addr_wf a : legacy_wf a -> addr_wf (legacy_addr a).
Proof.
  intros [(b16 & Hl & Hd) Hp]. destruct (encode_decode b16 Hl) as (t & Ht & He).
  rewrite Hd in Ht. apply Ok_inj in Ht as <-.
  unfold addr_wf, legacy_addr. cbn [pa_network pa_ip pa_key pa_port]. split; [|done].
  destruct (includes (jss ":") (la_ip a)) eqn:E; (split; [done|]); exists (la_ip a); (split; [done|]);
    (split; [done|by exists b16]).
Qed.

Lemma addresses_of_wf m : len (payload m) <= maxLen -> Forall addr_wf (addresses_of m).
Proof.
  intros Hm. unfold addresses_of, maxLen in *. case_bool_decide; [|case_bool_decide; [|constructor]].
  - destruct (parse_addr_total (payload m)) as (l & -> & _ & Hl). apply Forall_fmap.
    eapply Forall_impl; [exact Hl|]. apply legacy_addr_wf.
  - destruct (parse_addrv2_total (payload m) ltac:(lia)) as (l & -> & _ & Hl). done.
Qed.

Lemma crawl_addresses_wf ip port connectTimeoutMs totalTimeoutMs r :
  crawlPeerOnce ip port connectTimeoutMs totalTimeoutMs None = Ok (Some r) -> Forall addr_wf (cr_addresses r).
Proof.
  intros (vp & st & n & _ & (ms & Hd & _ & _ & Ha) & _ & v & _ & -> & _)%crawl_reports. cbn. rewrite Ha.
  apply drains_payload in Hd. unfold all_addresses. clear -Hd.
  induction Hd as [|m ms Hm _ IH]; cbn; [constructor|]. apply Forall_app. split; [by apply addresses_of_wf|done].
Qed.

(** ** Correctness of the handshake *)

(** C16: whatever the peer and the socket do, the worker writes version, then
    sendaddrv2, then at most one verack, only after the peer's version, and at
    most one getaddr, only after the peer's verack, or a prefix of that. *)
Theorem handshake_sends_in_order ip port totalTimeoutMs :
  let st := (handshake ip port totalTimeoutMs).1 in
  written st = []
  \/ exists vp, p2pBuildVersionPayload ip (to_int port) userAgent (pe_nonce env) (pe_version_now env) = Ok vp /\
     (written st = [p2pPackMessage (jss "version") vp] \/ sent_in_order vp st).
Proof.
  destruct (handshake_cases ip port totalTimeoutMs) as [->|(vp & Hb & [(e & -> & _)|[(e & -> & _)| ->]])];
    [by left|right..]; exists vp; (split; [done|]); [by left|right..].
  - apply in_loop_sent, opened_in_loop.
  - pose proof (read_loop_sound vp (js_add (num (pe_start env)) totalTimeoutMs) (pe_reads env) _ []
                  (opened_in_loop vp) (opened_knows vp)) as Hs.
    destruct (read_loop _ _ _). apply Hs.
Qed.

(** C20: a result is the last version, and all addresses in their order, of the
    messages in the bytes that were read.  These are the first chunks that arrive in
    time, up to the first one after which a verack and an address are among the
    messages; if there is none, all chunks that arrive in time, unless a write fails
    before. *)
Theorem crawlPeerOnce_sound ip port connectTimeoutMs totalTimeoutMs r :
  crawlPeerOnce ip port connectTimeoutMs totalTimeoutMs None = Ok (Some r) ->
  let chunks := timely (js_add (num (pe_start env)) totalTimeoutMs) (pe_reads env) in
  let told n := messages (concat (take n chunks)) in
  exists n v, (n <= length chunks)%nat /\ last_version (told n) = Some v
    /\ r = {| cr_services := services v; cr_subver := subver v; cr_startHeight := startHeight v;
              cr_addresses := all_addresses (told n) |}
    /\ (forall k, (k < n)%nat -> ~ complete (told k))
    /\ (n = length chunks \/ complete (told n) \/ exists i, pe_writes env i <> Resolves).
Proof.
  intros (vp & st & n & _ & Hk & (Hn & Hbefore & Hwhy) & v & Hv & -> & _)%crawl_reports chunks told.
  destruct (knows_messages _ _ Hk) as (Ev & Ea & _). exists n, v. split; [done|].
  split; [exact (eq_trans (eq_sym Ev) Hv)|]. split; [by rewrite Ea|]. split; [|done].
  intros [|k] Hlt; [by intros [_ []]|]. apply Hbefore. lia.
Qed.

(** C2: a peer whose frames arrive before the deadline, in chunks of any size,
    is reported: if a version, a verack and then a message with addresses are
    among them, the result is that version and those addresses.  The connection is
    opened in time, all writes resolve, and the closing of the socket settles. *)
Theorem crawlPeerOnce_complete ip port connectTimeoutMs totalTimeoutMs b16 pre a v opening_p reads later :
  p2pEncodeIp ip = Ok b16 -> pe_connect env = Connects opening_p ->
  withTimeout opening_p (pe_timer env connectTimeoutMs) = Some () -> (forall n, pe_writes env n = Resolves) ->
  pe_close env <> Pends -> Forall sendable (pre ++ [a]) -> any_verack pre = true -> all_addresses pre = [] ->
  addresses_of a <> [] -> last_version (pre ++ [a]) = Some v ->
  pe_reads env = reads ++ later -> Forall (on_time (js_add (num (pe_start env)) totalTimeoutMs)) reads ->
  concat (chunks_of reads) = frames (pre ++ [a]) ->
  crawlPeerOnce ip port connectTimeoutMs totalTimeoutMs None
  = Ok (Some {| cr_services := services v; cr_subver := subver v; cr_startHeight := startHeight v;
                cr_addresses := addresses_of a |}).
Proof.
  intros Hip Hc Ho Hw Hcl Hs Hv Hpre Ha Hl Hr Ht Hf. unfold crawlPeerOnce. rewrite Hc, Ho.
  destruct (build_version_ok ip (to_int port) userAgent (pe_nonce env) (pe_version_now env) b16 Hip) as [vp Hb].
  assert (handshake ip port totalTimeoutMs
          = read_loop (js_add (num (pe_start env)) totalTimeoutMs) (reads ++ later) (opened vp)) as ->.
  { unfold handshake. rewrite Hb. cbn [write init_state written length app].
    rewrite !Hw. cbn [write written length app]. by rewrite Hr. }
  pose proof (read_loop_complete pre a Hs Hv Hpre Ha Hw vp (js_add (num (pe_start env)) totalTimeoutMs) later reads
                (opened vp) [] (opened_in_loop vp) (opened_knows vp) eq_refl Ht Hf) as E.
  destruct (read_loop _ _ _) as [st e]. destruct E as (-> & E1 & E2).
  rewrite bool_decide_eq_false_2 by done. cbn [negb orb]. by rewrite E1, E2, Hl.
Qed.

End WithSha256.

(** ** An example peer *)

Definition example_version : bytes :=
  match p2pBuildVersionPayload (jss "1.2.3.4") 8333 (jss "/demo/") (replicate 8 Byte.x07) 5000 with
  | Ok vp => vp | Throw _ => []
  end.
Definition example_addr : bytes :=
  match p2pEncodeAddr (jss "5.6.7.8") 8333 9 (Some 1000) with
  | Ok e => p2pVarint 1 ++ e | Throw _ => []
  end.
Definition example_pre : list Message := [Msg (jss "version") example_version; Msg (jss "verack") []].
Definition example_last : Message := Msg (jss "addr") example_addr.

Definition example_stream : bytes :=
  frames (SHA := platform_sha256) (example_pre ++ [example_last]).

(** The stream in three chunks that cut frames apart. *)
Definition example_reads : list read_turn :=
  List.map (fun c => {| rt_test := 10; rt_now := 10; rt_read := Fulfills 20 (RChunk c) |})
    [take 5 example_stream; take 150 (drop 5 example_stream); drop 155 example_stream].

Definition example_env : PeerEnv :=
  {| pe_connect := Connects (Fulfills 50 ()); pe_start := 0; pe_version_now := 5000;
     pe_nonce := replicate 8 Byte.x07; pe_writes := fun _ => Resolves; pe_close := Resolves; pe_timer := to_int;
     pe_reads := example_reads ++ [] |}.

Definition example_version_info : VersionInfo :=
  match last_version (example_pre ++ [example_last]) with
  | Some v => v | None => {| version := 0; services := 0; subver := []; startHeight := 0 |}
  end.

Definition example_result : CrawlResult :=
  {| cr_services := services example_version_info; cr_subver := subver example_version_info;
     cr_startHeight := startHeight example_version_info; cr_addresses := addresses_of example_last |}.

Lemma crawlPeerOnce_complete_witness :
  cr_subver example_result = jss "/demo/"
  /\ crawlPeerOnce (SHA := platform_sha256) example_env (jss "1.2.3.4") (num 8333) (num 3000) (num 6000) None
     = Ok (Some example_result).
Proof.
  split; [vm_compute; reflexivity|].
  refine (crawlPeerOnce_complete (SHA := platform_sha256) example_env (jss "1.2.3.4") (num 8333) (num 3000) (num 6000) _
            example_pre example_last example_version_info (Fulfills 50 ()) example_reads []
            _ _ _ _ _ _ _ _ _ _ _ _ _).
  - vm_compute; reflexivity.
  - reflexivity.
  - reflexivity.
  - reflexivity.
  - discriminate.
  - repeat constructor; vm_compute; (discriminate || reflexivity).
  - vm_compute; reflexivity.
  - vm_compute; reflexivity.
  - vm_compute; discriminate.
  - vm_compute; reflexivity.
  - reflexivity.
  - repeat constructor; eexists _, _; (split; [reflexivity|vm_compute; reflexivity]).
  - vm_compute; reflexivity.
Defined.

Lemma crawlPeerOnce_sound_witness :
  let told n := messages (SHA := platform_sha256) (concat (take n (timely example_env (num 6000) (pe_reads example_env)))) in
  exists n v, (n <= 3)%nat /\ last_version (told n) = Some v
    /\ example_result = {| cr_services := services v; cr_subver := subver v;
         cr_startHeight := startHeight v; cr_addresses := all_addresses (told n) |}.
Proof.
  destruct (crawlPeerOnce_sound (SHA := platform_sha256) example_env (jss "1.2.3.4") (num 8333) (num 3000) (num 6000)
              example_result ltac:(vm_compute; reflexivity)) as (n & v & H1 & H2 & H3 & _).
  exists n, v. exact (conj H1 (conj H2 H3)).
Defined.

End Handshake.
