(* ===== verification/Dns.v ===== *)
(** * Seed lookups ([worker/src/dns.js])

    DNS over HTTPS.  The resolver is a function of the ordinal of the lookup,
    so that its answers may change over time. *)

From Stdlib Require Import String.
From S2P Require Import Prelude Numbers JsText Collections.

Module Dns.

Inductive QType := QA | QAAAA.

Record DnsAnswer := { type : Z; data : jsstr }.

(** What [fetch] of the resolver's URL gives. *)
Inductive DohResponse :=
  | DohReject                                  (** a rejected fetch, or a body that is no JSON object *)
  | DohNotOk                                   (** [!res.ok] *)
  | DohData (Answer : option (list DnsAnswer)).  (** [None]: [Answer] is no array *)

Definition wantType (q : QType) : Z := match q with QA => 1 | QAAAA => 28 end.

Section WithResolver.
Variable doh : nat -> jsstr -> QType -> DohResponse.

Definition dohLookup (t : nat) (host : jsstr) (q : QType) : res (list jsstr) :=
  match doh t host q with
  | DohReject => Throw FetchError
  | DohNotOk => Ok []
  | DohData Answer =>
    let answers := default [] Answer in
    Ok (List.map data (List.filter (fun a => type a =? wantType q) answers))
  end.

(** [Promise.all] of the two lookups: both are made, one rejection rejects. *)
Definition fetchSeedIpsOnce (t : nat) (host : jsstr) : res (list jsstr) :=
  a ← dohLookup t host QA;
  aaaa ← dohLookup t host QAAAA;
  Ok (JsSet.add_all [] (a ++ aaaa)).

(** The loop over the hosts: the set seen so far, and the next ordinal. *)
Fixpoint lookup_hosts (hosts : list jsstr) (seen : list jsstr) (t : nat) : res (list jsstr * nat) :=
  match hosts with
  | [] => Ok (seen, t)
  | host :: hosts' =>
    ips ← fetchSeedIpsOnce t host;
    lookup_hosts hosts' (JsSet.add_all seen ips) (S t)
  end.

Fixpoint sample_rounds (n : nat) (hosts : list jsstr) (seen : list jsstr) (t : nat)
    : res (list jsstr * nat) :=
  match n with
  | O => Ok (seen, t)
  | S n' =>
    '(seen', t') ← lookup_hosts hosts seen t;
    sample_rounds n' hosts seen' t'
  end.

(** The delay between two rounds has no effect on the result. *)
Definition sampleSeedIps (hosts : list jsstr) (rounds : jsnum) (t : nat) : res (list jsstr * nat) :=
  match loop_count (js_max (num 1) rounds) with
  | Some n => sample_rounds n hosts [] t
  | None => Throw Diverges
  end.

Definition resolveExtraSeedIps (hosts : list jsstr) (t : nat) : res (list jsstr * nat) :=
  lookup_hosts hosts [] t.

(** ** Lemmas *)

(** The resolver gave the address at lookup [t] of [host]. *)
Definition answered (t : nat) (host ip : jsstr) : Prop :=
  exists q ans, doh t host q = DohData (Some ans) /\ {| type := wantType q; data := ip |} ∈ ans.

Definition reachable : Prop := forall t host q, doh t host q <> DohReject.

Lemma dohLookup_spec t host q :
  doh t host q <> DohReject ->
  exists l, dohLookup t host q = Ok l /\
    forall ip, ip ∈ l <-> exists ans, doh t host q = DohData (Some ans)
                            /\ {| type := wantType q; data := ip |} ∈ ans.
Proof.
  intros Hr. unfold dohLookup. destruct (doh t host q) as [| |[ans|]] eqn:E; [done|..];
    eexists; (split; [done|]); intros ip; [set_solver| |set_solver].
  split.
  - intros Hi. exists ans. split; [done|]. apply list_elem_of_fmap in Hi as ([ty d] & -> & Hi).
    apply list_elem_of_In, List.filter_In in Hi as [Hi Et]. cbn in Et. zbool. subst ty.
    by apply list_elem_of_In.
  - intros (ans' & E' & Hi). simplify_eq. apply list_elem_of_fmap. eexists. split; [|].
    2: { apply list_elem_of_In, List.filter_In. split; [by apply list_elem_of_In|]. apply Z.eqb_refl. }
    done.
Qed.

Lemma fetchSeedIpsOnce_spec t host :
  reachable -> exists l, fetchSeedIpsOnce t host = Ok l /\ forall ip, ip ∈ l <-> answered t host ip.
Proof.
  intros Hr. unfold fetchSeedIpsOnce.
  destruct (dohLookup_spec t host QA (Hr _ _ _)) as (l1 & -> & H1). rbind.
  destruct (dohLookup_spec t host QAAAA (Hr _ _ _)) as (l2 & -> & H2). rbind.
  eexists. split; [done|]. intros ip. rewrite JsSet.add_all_elem_of, elem_of_app, H1, H2.
  unfold answered. split.
  - intros [Hn|[(ans & ?)|(ans & ?)]]; [by apply elem_of_nil in Hn|by exists QA, ans|by exists QAAAA, ans].
  - intros ([|] & ans & ?); right; [left|right]; by exists ans.
Qed.

Lemma lookup_hosts_finite hosts : forall seen t, lookup_hosts hosts seen t <> Throw Diverges.
Proof.
  induction hosts as [|host hosts IH]; intros seen t; cbn [lookup_hosts]; [done|].
  unfold fetchSeedIpsOnce, dohLookup. destruct (doh t host QA), (doh t host QAAAA); rbind; (done || apply IH).
Qed.

Lemma sample_rounds_finite n hosts : forall seen t, sample_rounds n hosts seen t <> Throw Diverges.
Proof.
  induction n as [|n IH]; intros seen t; cbn [sample_rounds]; [done|]. pose proof (lookup_hosts_finite hosts seen t).
  destruct (lookup_hosts hosts seen t) as [[l t']|e]; rbind; [apply IH|congruence].
Qed.

Lemma lookup_hosts_spec hosts : reachable -> forall seen t, NoDup seen ->
  exists l, lookup_hosts hosts seen t = Ok (l, (t + length hosts)%nat) /\ NoDup l /\
    forall ip, ip ∈ l <-> ip ∈ seen \/ exists h host, hosts !! h = Some host /\ answered (t + h) host ip.
Proof.
  intros Hr. induction hosts as [|host hosts IH]; intros seen t Hs; cbn [lookup_hosts length].
  - exists seen. rewrite Nat.add_0_r. split_and!; [done..|]. intros ip. split; [auto|].
    intros [?|(h & host & ? & _)]; [done|]. by rewrite lookup_nil in *.
  - destruct (fetchSeedIpsOnce_spec t host Hr) as (ips & -> & Hi). rbind.
    destruct (IH (JsSet.add_all seen ips) (S t)) as (l & -> & Hn & Hl); [by apply JsSet.add_all_NoDup|].
    exists l. split_and!; [by rewrite Nat.add_succ_r|done|]. intros ip.
    rewrite Hl, JsSet.add_all_elem_of, Hi. split.
    + intros [[?|Ha]|(h & hh & E & Ha)]; [by left|right; exists O, host; by rewrite Nat.add_0_r|].
      right. exists (S h), hh. by rewrite Nat.add_succ_r.
    + intros [?|([|h] & hh & E & Ha)]; [by left; left|left; right|right].
      * cbn in E. simplify_eq. by rewrite Nat.add_0_r in Ha.
      * exists h, hh. by rewrite Nat.add_succ_r in Ha.
Qed.

Lemma sample_rounds_spec n hosts : reachable -> forall seen t, NoDup seen ->
  exists l, sample_rounds n hosts seen t = Ok (l, (t + n * length hosts)%nat) /\ NoDup l /\
    forall ip, ip ∈ l <-> ip ∈ seen \/
      exists r h host, (r < n)%nat /\ hosts !! h = Some host /\ answered (t + r * length hosts + h) host ip.
Proof.
  intros Hr. induction n as [|n IH]; intros seen t Hs; cbn [sample_rounds].
  - exists seen. rewrite Nat.mul_0_l, Nat.add_0_r. split_and!; [done..|]. intros ip. split; [auto|].
    intros [?|(r & h & host & ? & _)]; [done|lia].
  - destruct (lookup_hosts_spec hosts Hr seen t Hs) as (l1 & -> & Hn1 & H1). rbind.
    destruct (IH l1 (t + length hosts)%nat Hn1) as (l & -> & Hn & Hl). exists l.
    split_and!; [f_equal; f_equal; lia|done|]. intros ip. rewrite Hl, H1. split.
    + intros [[?|(h & host & E & Ha)]|(r & h & host & Hlt & E & Ha)]; [by left|right..].
      * exists O, h, host. split_and!; [lia|done|]. by rewrite Nat.mul_0_l, Nat.add_0_r.
      * exists (S r), h, host. split_and!; [lia|done|].
        by replace (t + S r * length hosts + h)%nat with (t + length hosts + r * length hosts + h)%nat by lia.
    + intros [?|([|r] & h & host & Hlt & E & Ha)]; [by left; left|left; right|right].
      * exists h, host. by rewrite Nat.mul_0_l, Nat.add_0_r in Ha.
      * exists r, h, host. split_and!; [lia|done|].
        by replace (t + length hosts + r * length hosts + h)%nat with (t + S r * length hosts + h)%nat by lia.
Qed.

(** ** Correctness of the lookups *)

(** When no fetch is rejected, sampling gives, without duplicates, exactly
    the addresses some lookup of some round gave in a record of the right type;
    every host is looked up once per round, in as many rounds as the loop has
    turns. *)
Theorem sampleSeedIps_union hosts rounds n t :
  reachable -> loop_count (js_max (num 1) rounds) = Some n ->
  exists l, sampleSeedIps hosts rounds t = Ok (l, (t + n * length hosts)%nat) /\ NoDup l /\
    forall ip, ip ∈ l <->
      exists r h host, (r < n)%nat /\ hosts !! h = Some host /\ answered (t + r * length hosts + h) host ip.
Proof.
  intros Hr En. destruct (sample_rounds_spec n hosts Hr [] t (NoDup_nil_2)) as (l & E & Hn & Hl).
  exists l. unfold sampleSeedIps. rewrite En. split; [exact E|]. split; [done|]. intros ip. rewrite Hl. set_solver.
Qed.

End WithResolver.

Definition example_doh (t : nat) (host : jsstr) (q : QType) : DohResponse :=
  match q with
  | QA => DohData (Some [{| type := 1; data := jss "1.2.3.4" |}; {| type := 5; data := jss "alias" |}])
  | QAAAA => DohNotOk
  end.

Lemma sampleSeedIps_union_witness :
  exists l, sampleSeedIps example_doh [jss "seed"] (num 2) 0 = Ok (l, (0 + 2 * 1)%nat) /\ NoDup l /\
    forall ip, ip ∈ l <->
      exists r h host, (r < 2)%nat /\ [jss "seed"] !! h = Some host
        /\ answered example_doh (0 + r * 1 + h) host ip.
Proof.
  apply (sampleSeedIps_union example_doh [jss "seed"] (num 2) 2 0);
    [intros t host [|]; discriminate|vm_compute; reflexivity].
Defined.

End Dns.
