(* ===== verification/Peers.v ===== *)
(** * The peer store ([known-peers]) and [inferNetwork]

    The records of the store, as [advanceCrawl] writes them and
    [rebuildSnapshot] reads them.  Every property may be absent: a store
    written before addrv2 support has neither [network] nor [ip]. *)

From Stdlib Require Import String.
From S2P Require Import Prelude JsText Collections Messages.
Import Messages.

Module Peers.

Record Peer := {
  firstSeen : option Z;
  lastSeen : option Z;
  depth : option Z;
  network : option Network;
  ip : option jsstr;
  port : option Z;
  parent : option jsstr;
  lastCrawled : option Z;
  lastCrawlOk : option bool;
  lastCrawlAddrCount : option Z;
  p_services : option Z;
  p_subver : option jsstr;
  p_startHeight : option Z
}.

Definition empty_peer : Peer :=
  {| firstSeen := None; lastSeen := None; depth := None; network := None; ip := None; port := None;
     parent := None; lastCrawled := None; lastCrawlOk := None; lastCrawlAddrCount := None;
     p_services := None; p_subver := None; p_startHeight := None |}.

Abbreviation store := (list (jsstr * Peer)).

(** The assignments to single properties. *)
Definition set_lastSeen (v : Z) (p : Peer) : Peer :=
  {| firstSeen := firstSeen p; lastSeen := Some v; depth := depth p; network := network p; ip := ip p;
     port := port p; parent := parent p; lastCrawled := lastCrawled p; lastCrawlOk := lastCrawlOk p;
     lastCrawlAddrCount := lastCrawlAddrCount p; p_services := p_services p; p_subver := p_subver p;
     p_startHeight := p_startHeight p |}.
Definition set_depth (v : Z) (p : Peer) : Peer :=
  {| firstSeen := firstSeen p; lastSeen := lastSeen p; depth := Some v; network := network p; ip := ip p;
     port := port p; parent := parent p; lastCrawled := lastCrawled p; lastCrawlOk := lastCrawlOk p;
     lastCrawlAddrCount := lastCrawlAddrCount p; p_services := p_services p; p_subver := p_subver p;
     p_startHeight := p_startHeight p |}.
Definition set_network (v : Network) (p : Peer) : Peer :=
  {| firstSeen := firstSeen p; lastSeen := lastSeen p; depth := depth p; network := Some v; ip := ip p;
     port := port p; parent := parent p; lastCrawled := lastCrawled p; lastCrawlOk := lastCrawlOk p;
     lastCrawlAddrCount := lastCrawlAddrCount p; p_services := p_services p; p_subver := p_subver p;
     p_startHeight := p_startHeight p |}.
Definition set_ip (v : jsstr) (p : Peer) : Peer :=
  {| firstSeen := firstSeen p; lastSeen := lastSeen p; depth := depth p; network := network p; ip := Some v;
     port := port p; parent := parent p; lastCrawled := lastCrawled p; lastCrawlOk := lastCrawlOk p;
     lastCrawlAddrCount := lastCrawlAddrCount p; p_services := p_services p; p_subver := p_subver p;
     p_startHeight := p_startHeight p |}.
Definition set_lastCrawled (v : Z) (p : Peer) : Peer :=
  {| firstSeen := firstSeen p; lastSeen := lastSeen p; depth := depth p; network := network p; ip := ip p;
     port := port p; parent := parent p; lastCrawled := Some v; lastCrawlOk := lastCrawlOk p;
     lastCrawlAddrCount := lastCrawlAddrCount p; p_services := p_services p; p_subver := p_subver p;
     p_startHeight := p_startHeight p |}.
Definition set_lastCrawlOk (v : bool) (p : Peer) : Peer :=
  {| firstSeen := firstSeen p; lastSeen := lastSeen p; depth := depth p; network := network p; ip := ip p;
     port := port p; parent := parent p; lastCrawled := lastCrawled p; lastCrawlOk := Some v;
     lastCrawlAddrCount := lastCrawlAddrCount p; p_services := p_services p; p_subver := p_subver p;
     p_startHeight := p_startHeight p |}.

(** [lastCrawlAddrCount], [services], [subver] and [startHeight] of a result. *)
Definition set_result (count services : Z) (subver : jsstr) (startHeight : Z) (p : Peer) : Peer :=
  {| firstSeen := firstSeen p; lastSeen := lastSeen p; depth := depth p; network := network p; ip := ip p;
     port := port p; parent := parent p; lastCrawled := lastCrawled p; lastCrawlOk := lastCrawlOk p;
     lastCrawlAddrCount := Some count; p_services := Some services; p_subver := Some subver;
     p_startHeight := Some startHeight |}.

(** A string property that is absent, [null] or empty is falsy. *)
Definition falsy (s : option jsstr) : bool :=
  match s with Some (_ :: _) => false | _ => true end.

(** [text.includes(':') ? 'ipv6' : 'ipv4'] *)
Definition ip_version (text : jsstr) : Network := if includes (jss ":") text then ipv6 else ipv4.

Definition inferNetwork (key : jsstr) (rec : Peer) : Network :=
  match network rec with
  | Some n => n
  | None => ip_version (default key (ip rec))
  end.

Definition is_ip (n : Network) : bool := match n with ipv4 | ipv6 => true | _ => false end.

End Peers.
