(* ===== verification/Advance.v ===== *)
(** * One discovery run ([advanceCrawl] of [worker/src/crawl.js])

    Roots from the seeds, the choice of the candidates, the crawl of each of
    them, and the removal of stale peers.  The seed lookups are those of
    [Dns]; the crawl of a peer is a parameter, the n-th call of
    [crawlPeerOnce]. *)

From Stdlib Require Import String Sorting.Sorted.
From S2P Require Import Prelude Numbers JsText Collections Messages Framing Handshake Dns Peers.
Import Messages Handshake Peers.

Module Advance.

(** The part of the configuration the run reads. *)
Record CrawlConfig := {
  seedHosts : list jsstr;
  extraSeedHosts : list jsstr;
  dnsRounds : jsnum;
  p2pPort : jsnum;
  maxDepth : jsnum;
  maxPeersPerRun : jsnum;
  totalTimeoutMs : jsnum;
  staleAfterDays : jsnum
}.

(** *** The roots *)

(** The record of a root, new or already known. *)
Definition root_peer (now : Z) (addr : jsstr) (old : option Peer) : Peer :=
  set_lastSeen now
    match old with
    | None => {| firstSeen := Some now; lastSeen := None; depth := Some 0;
                 network := Some (ip_version addr); ip := Some addr; port := None; parent := None;
                 lastCrawled := None; lastCrawlOk := None; lastCrawlAddrCount := None;
                 p_services := None; p_subver := None; p_startHeight := None |}
    | Some rec =>
      let rec := set_depth (Z.min (default 0 (depth rec)) 0) rec in
      let rec := match network rec with
                 | None => set_network (inferNetwork addr rec) rec
                 | Some _ => rec
                 end in
      if falsy (ip rec) then set_ip addr rec else rec
    end.

Definition add_root (now : Z) (st : store) (addr : jsstr) : store :=
  Obj.set st addr (root_peer now addr (Obj.get st addr)).

Definition add_roots (now : Z) (roots : list jsstr) (st : store) : store :=
  foldl (add_root now) st roots.

(** *** The candidates *)

Record Candidate := {
  c_key : jsstr; c_ip : jsstr; c_lastCrawled : Z; c_depth : Z; c_verified : bool; c_network : Network
}.

(** The assignments of the filter callback to the shared record. *)
Definition heal (key : jsstr) (rec : Peer) : Peer :=
  let rec := match network rec with
             | None => set_network (inferNetwork key rec) rec
             | Some _ => rec
             end in
  if falsy (ip rec) && match network rec with Some (ipv4 | ipv6 | cjdns) => true | _ => false end
  then set_ip key rec else rec.

Definition heal_all (st : store) : store := List.map (fun kv => (kv.1, heal kv.1 kv.2)) st.

Definition eligible (cfg : CrawlConfig) (rec : Peer) : bool :=
  match network rec with Some (ipv4 | ipv6) => true | _ => false end
  && js_ltb (num (default 0 (depth rec))) (maxDepth cfg).

Definition candidate (key : jsstr) (rec : Peer) : Candidate :=
  {| c_key := key; c_ip := default key (ip rec); c_lastCrawled := default 0 (lastCrawled rec);
     c_depth := default 0 (depth rec); c_verified := bool_decide (lastCrawlOk rec = Some true);
     c_network := default ipv4 (network rec) |}.

(** The comparator. *)
Definition compare (a b : Candidate) : Z :=
  if negb (Bool.eqb (c_verified a) (c_verified b)) then (if c_verified a then -1 else 1)
  else if negb (bool_decide (c_network a = c_network b))
       then (if bool_decide (c_network a = ipv4) then -1 else 1)
  else c_lastCrawled a - c_lastCrawled b.

(** All eligible peers of a healed store, in the order of the store. *)
Definition eligibles (cfg : CrawlConfig) (st : store) : list Candidate :=
  List.map (fun kv => candidate kv.1 kv.2) (List.filter (fun kv => eligible cfg kv.2) st).

Definition candidates (cfg : CrawlConfig) (st : store) : list Candidate :=
  slice_num (Sort.js_sort compare (eligibles cfg st)) (js_max (num 0) (maxPeersPerRun cfg)).

(** *** The crawl of the candidates *)

(** [store[key].<property> = ...] on a record that must be there. *)
Definition update (st : store) (key : jsstr) (f : Peer -> Peer) : res store :=
  match Obj.get st key with
  | Some rec => Ok (Obj.set st key (f rec))
  | None => Throw TypeError
  end.

(** [addr.key ?? addr.ip].  Only an address of a test fetcher can have neither, and
    then the key of the object is the text of the missing value, here [undefined];
    for a [null] it would be [null].  The addresses of the parsers have a key. *)
Definition addrKey (addr : PeerAddr) : jsstr :=
  match pa_key addr with
  | Some k => k
  | None => default (jss "undefined") (pa_ip addr)
  end.

Definition addrNetwork (addr : PeerAddr) : Network :=
  match pa_network addr with
  | Some n => n
  | None => match pa_ip addr with Some text => ip_version text | None => ipv4 end
  end.

(** The record of an address a peer told of, new or already known. *)
Definition told_peer (now : Z) (key : jsstr) (childDepth : Z) (addr : PeerAddr) (old : option Peer) : Peer :=
  match old with
  | None =>
    {| firstSeen := Some now; lastSeen := Some now; depth := Some childDepth;
       network := Some (addrNetwork addr); ip := pa_ip addr; port := Some (pa_port addr);
       parent := Some key; lastCrawled := None; lastCrawlOk := None;
       lastCrawlAddrCount := None; p_services := None; p_subver := None;
       p_startHeight := None |}
  | Some rec =>
    let rec := set_lastSeen now rec in
    set_depth (Z.min (default childDepth (depth rec)) childDepth) rec
  end.

(** The loop body on one address of the result. *)
Definition learn_addr (now : Z) (key : jsstr) (childDepth : Z) (st : store) (addr : PeerAddr) : store :=
  let k := addrKey addr in
  if bool_decide (k = key) then st
  else Obj.set st k (told_peer now key childDepth addr (Obj.get st k)).

(** The record of a peer that answered. *)
Definition crawled_peer (now : Z) (r : CrawlResult) (rec : Peer) : Peer :=
  set_result (len (cr_addresses r)) (cr_services r) (cr_subver r) (cr_startHeight r)
    (set_lastSeen now (set_lastCrawlOk true rec)).

Section WithWorld.
Variable doh : nat -> jsstr -> Dns.QType -> Dns.DohResponse.
Variable crawl : nat -> jsstr -> jsnum -> res (option CrawlResult).

(** [store[key].port ?? cfg.p2pPort] *)
Definition port_of (cfg : CrawlConfig) (rec : Peer) : jsnum :=
  match port rec with Some p => num p | None => p2pPort cfg end.

(** The loop body on the [n]-th candidate. *)
Definition crawl_candidate (cfg : CrawlConfig) (now : Z) (n : nat) (st : store) (c : Candidate)
    : res store :=
  let key := c_key c in
  match Obj.get st key with
  | None => Throw TypeError
  | Some rec =>
    result ← crawl n (c_ip c) (port_of cfg rec);
    st ← update st key (set_lastCrawled now);
    match result with
    | None => update st key (set_lastCrawlOk false)
    | Some r =>
      st ← update st key (crawled_peer now r);
      Ok (foldl (learn_addr now key (c_depth c + 1)) st (cr_addresses r))
    end
  end.

Fixpoint crawl_all (cfg : CrawlConfig) (now : Z) (n : nat) (st : store) (cs : list Candidate) : res store :=
  match cs with
  | [] => Ok st
  | c :: cs' => st' ← crawl_candidate cfg now n st c; crawl_all cfg now (S n) st' cs'
  end.

(** *** Stale peers *)

Definition prune (cutoff : jsnum) (st : store) : store :=
  foldl (fun acc key =>
    match Obj.get acc key with
    | Some rec => if js_ltb (num (default 0 (lastSeen rec))) cutoff then Obj.remove acc key else acc
    | None => acc
    end) st (Obj.keys st).

(** *** The run *)

Definition find_roots (cfg : CrawlConfig) : res (list jsstr) :=
  '(sampled, t) ← Dns.sampleSeedIps doh (seedHosts cfg) (dnsRounds cfg) 0;
  '(extra, _) ← Dns.resolveExtraSeedIps doh (extraSeedHosts cfg) t;
  Ok (JsSet.add_all [] (sampled ++ extra)).

Definition cutoff_of (cfg : CrawlConfig) (now : Z) : jsnum :=
  js_sub (num now) (js_mul (staleAfterDays cfg) (num 86400)).

Definition advanceCrawl (cfg : CrawlConfig) (now_ms : Z) (st : store) : res store :=
  let now := now_ms / 1000 in
  roots ← find_roots cfg;
  let st := heal_all (add_roots now roots st) in
  st ← crawl_all cfg now 0 st (candidates cfg st);
  Ok (prune (cutoff_of cfg now) st).

(** ** Lemmas: invariants of the store *)

(** The store has one record per key, and each satisfies [P]. *)
Definition peers (P : jsstr -> Peer -> Prop) (st : store) : Prop :=
  Obj.wf st /\ forall k p, Obj.get st k = Some p -> P k p.

(** 0, or one more than a depth below the maximum. *)
Definition depth_in (m : jsnum) (v : Z) : Prop := 0 <= v /\ (v = 0 \/ js_ltb (num (v - 1)) m = true).

Definition depth_ok (m : jsnum) (_ : jsstr) (p : Peer) : Prop :=
  match depth p with Some v => depth_in m v | None => True end.

Lemma depth_in_0 m : depth_in m 0.
Proof. split; [lia|by left]. Qed.

Lemma depth_in_min m a b : depth_in m a -> depth_in m b -> depth_in m (Z.min a b).
Proof. intros Ha Hb. by destruct (Z.min_spec a b) as [[_ ->]|[_ ->]]. Qed.

Lemma peers_set P st k p : peers P st -> P k p -> peers P (Obj.set st k p).
Proof.
  intros [Hw Hp] Hk. split; [by apply Obj.set_wf|]. intros k' p'. rewrite Obj.get_set.
  case_bool_decide; [intros; by simplify_eq|apply Hp].
Qed.

Lemma peers_foldl {B} P (f : store -> B -> store) l :
  (forall st x, peers P st -> peers P (f st x)) -> forall st, peers P st -> peers P (foldl f st l).
Proof. intros Hf. induction l as [|x l IH]; intros st Hst; cbn; [done|]. by apply IH, Hf. Qed.

Lemma get_heal_all st k : Obj.get (heal_all st) k = heal k <$> Obj.get st k.
Proof.
  unfold heal_all. induction st as [|[k' p] st IH]; cbn; [done|].
  case_bool_decide as E; [by subst|apply IH].
Qed.

Lemma keys_heal_all st : Obj.keys (heal_all st) = Obj.keys st.
Proof. unfold Obj.keys, heal_all. rewrite List.map_map. by apply List.map_ext. Qed.

Lemma heal_fields key p :
  depth (heal key p) = depth p /\ lastSeen (heal key p) = lastSeen p
  /\ lastCrawlOk (heal key p) = lastCrawlOk p /\ lastCrawled (heal key p) = lastCrawled p.
Proof. unfold heal. destruct (network p); cbn; case_match; done. Qed.

Lemma peers_update P st key f st' :
  peers P st -> (forall p, P key p -> P key (f p)) -> update st key f = Ok st' -> peers P st'.
Proof.
  intros Hst Hf. unfold update. destruct (Obj.get st key) as [p|] eqn:E; [|done].
  intros H. apply Ok_inj in H as <-. apply peers_set; [done|]. by apply Hf, Hst.
Qed.

(** A predicate on records that every assignment of a run preserves, when the
    addresses peers tell satisfy [Q] and [m] bounds the depths. *)
Record preserved (Q : PeerAddr -> Prop) (now : Z) (m : jsnum) (P : jsstr -> Peer -> Prop) : Prop := {
  pv_depth k p : P k p -> depth_ok m k p;
  pv_root_new a : P a (root_peer now a None);
  pv_root_old a p : P a p -> P a (root_peer now a (Some p));
  pv_heal k p : P k p -> P k (heal k p);
  pv_tried k p : P k p -> P k (set_lastCrawled now p);
  pv_failed k p : P k p -> P k (set_lastCrawlOk false p);
  pv_crawled k p r : P k p -> P k (crawled_peer now r p);
  pv_told_new key cd a : Q a -> depth_in m cd -> addrKey a <> key -> P (addrKey a) (told_peer now key cd a None);
  pv_told_old key cd a k p : depth_in m cd -> P k p -> P k (told_peer now key cd a (Some p))
}.

(** The depth of a candidate is below the maximum. *)
Definition crawlable (m : jsnum) (c : Candidate) : Prop :=
  0 <= c_depth c /\ js_ltb (num (c_depth c)) m = true.

Lemma child_depth m c : crawlable m c -> depth_in m (c_depth c + 1).
Proof. intros [H1 H2]. split; [lia|]. right. by replace (c_depth c + 1 - 1) with (c_depth c) by lia. Qed.

Section Preserved.
Context (Q : PeerAddr -> Prop) (now : Z) (m : jsnum) (P : jsstr -> Peer -> Prop) (Hpv : preserved Q now m P).
Hypothesis Hcrawl : forall n a p r, crawl n a p = Ok (Some r) -> Forall Q (cr_addresses r).

Lemma peers_root st addr : peers P st -> peers P (add_root now st addr).
Proof.
  intros Hst. apply peers_set; [done|]. destruct (Obj.get st addr) as [p|] eqn:E.
  - by apply (pv_root_old _ _ _ _ Hpv), Hst.
  - apply (pv_root_new _ _ _ _ Hpv).
Qed.

Lemma peers_heal_all st : peers P st -> peers P (heal_all st).
Proof.
  intros [Hw Hp]. split; [unfold Obj.wf; by rewrite keys_heal_all|].
  intros k p. rewrite get_heal_all. intros E. apply fmap_Some in E as (q & E & ->).
  by apply (pv_heal _ _ _ _ Hpv), Hp.
Qed.

Lemma peers_learn key cd st addr :
  Q addr -> depth_in m cd -> peers P st -> peers P (learn_addr now key cd st addr).
Proof.
  intros Ha Hc Hst. unfold learn_addr. case_bool_decide; [done|]. apply peers_set; [done|].
  destruct (Obj.get st (addrKey addr)) as [p|] eqn:E.
  - by apply (pv_told_old _ _ _ _ Hpv), Hst.
  - by apply (pv_told_new _ _ _ _ Hpv).
Qed.

Lemma peers_learn_all key cd l : forall st,
  Forall Q l -> depth_in m cd -> peers P st -> peers P (foldl (learn_addr now key cd) st l).
Proof.
  induction l as [|a l IH]; intros st Hl Hc Hst; cbn; [done|].
  apply Forall_cons_1 in Hl as [Ha Hl]. apply IH; [done..|]. by apply peers_learn.
Qed.

Lemma peers_crawl cfg n st c st' :
  crawlable m c -> peers P st -> crawl_candidate cfg now n st c = Ok st' -> peers P st'.
Proof.
  intros Hc Hst. unfold crawl_candidate. destruct (Obj.get st (c_key c)) as [rec|]; [|done].
  destruct (crawl _ _ _) as [r|] eqn:Er; rbind; [|done].
  destruct (update st _ _) as [s1|] eqn:E1; rbind; [|done].
  apply (peers_update P) in E1; [|done|apply (pv_tried _ _ _ _ Hpv)].
  destruct r as [r|].
  - destruct (update s1 _ _) as [s2|] eqn:E2; rbind; [|done].
    apply (peers_update P) in E2; [|done|intros p; apply (pv_crawled _ _ _ _ Hpv)].
    intros H. apply Ok_inj in H as <-. apply peers_learn_all; [by eapply Hcrawl|by apply child_depth|done].
  - intros H. apply (peers_update P) in H; [done|done|apply (pv_failed _ _ _ _ Hpv)].
Qed.

Lemma peers_crawl_all cfg cs : forall n st st',
  Forall (crawlable m) cs -> peers P st ->
  crawl_all cfg now n st cs = Ok st' -> peers P st'.
Proof.
  induction cs as [|c cs IH]; intros n st st' Hc Hst; cbn [crawl_all].
  - intros H. by apply Ok_inj in H as <-.
  - apply Forall_cons_1 in Hc as [Hc Hcs].
    destruct (crawl_candidate cfg now n st c) as [s1|] eqn:E; rbind; [|done].
    apply IH; [done|]. by eapply peers_crawl.
Qed.

End Preserved.

(** Depths stay within bounds. *)
Lemma depth_preserved now m : preserved (fun _ => True) now m (depth_ok m).
Proof.
  split; try done.
  - intros a. apply depth_in_0.
  - intros a p Hp. unfold depth_ok, root_peer, set_lastSeen in *. cbn [depth].
    destruct (network p) eqn:En; cbn; rewrite ?En; cbn; destruct (falsy (ip p)); cbn;
      destruct (depth p) as [v|]; cbn in *; (apply depth_in_0 || by apply depth_in_min, depth_in_0).
  - intros k p Hp. unfold depth_ok. destruct (heal_fields k p) as [-> _]. done.
  - intros key cd a k p Hc Hp. unfold depth_ok in *. cbn. destruct (depth p); cbn; by apply depth_in_min.
Qed.

Lemma no_promise n a p r : crawl n a p = Ok (Some r) -> Forall (fun _ => True) (cr_addresses r).
Proof. intros _. by apply Forall_forall. Qed.

(** ** Lemmas: the candidates *)

Lemma eligibles_elem cfg st c :
  c ∈ eligibles cfg st <-> exists k p, (k, p) ∈ st /\ eligible cfg p = true /\ c = candidate k p.
Proof.
  unfold eligibles. rewrite list_elem_of_fmap. split.
  - intros ([k p] & -> & H). apply list_elem_of_In, List.filter_In in H as [H1 H2].
    exists k, p. by rewrite list_elem_of_In.
  - intros (k & p & H1 & H2 & ->). exists (k, p). split; [done|].
    apply list_elem_of_In, List.filter_In. by rewrite <- list_elem_of_In.
Qed.

Lemma candidates_elem cfg st c : c ∈ candidates cfg st -> c ∈ eligibles cfg st.
Proof.
  intros H%slice_num_elem. by apply (Sort.sort_elem_of compare).
Qed.

Lemma eligible_network cfg p :
  eligible cfg p = true -> (network p = Some ipv4 \/ network p = Some ipv6) 
  /\ js_ltb (num (default 0 (depth p))) (maxDepth cfg) = true.
Proof.
  unfold eligible. rewrite andb_true_iff. intros [H1 H2]. split; [|done].
  destruct (network p) as [[]|]; try done; auto.
Qed.

Lemma candidate_depths cfg st :
  peers (depth_ok (maxDepth cfg)) st ->
  Forall (crawlable (maxDepth cfg)) (candidates cfg st).
Proof.
  intros [Hw Hp]. apply Forall_forall. intros c Hc. apply candidates_elem, eligibles_elem in Hc
    as (k & p & Hin & He & ->). apply eligible_network in He as [_ He].
  apply (Obj.get_In _ _ _ Hw), Hp in Hin. unfold depth_ok in Hin. split; [|done].
  cbn. destruct (depth p); cbn; [apply Hin|done].
Qed.

Lemma compare_cases a b :
  is_ip (c_network a) = true -> is_ip (c_network b) = true ->
  compare a b <= 0 <->
    (c_verified a = true /\ c_verified b = false)
    \/ (c_verified a = c_verified b /\ c_network a = ipv4 /\ c_network b = ipv6)
    \/ (c_verified a = c_verified b /\ c_network a = c_network b /\ c_lastCrawled a <= c_lastCrawled b).
Proof.
  unfold compare. destruct (c_verified a), (c_verified b), (c_network a), (c_network b); try done;
    intros _ _; cbn; naive_solver lia.
Qed.

Lemma candidate_is_ip cfg st c : c ∈ eligibles cfg st -> is_ip (c_network c) = true.
Proof.
  intros (k & p & _ & He & ->)%eligibles_elem. apply eligible_network in He as [[E|E] _]; cbn; by rewrite E.
Qed.

Lemma eligibles_sorted cfg st :
  StronglySorted (Sort.before compare) (Sort.js_sort compare (eligibles cfg st)).
Proof.
  apply (Sort.sort_sorted compare (fun c => is_ip (c_network c) = true)).
  - intros x y Hx Hy. rewrite !compare_cases by done.
    destruct (Z.le_ge_cases (c_lastCrawled x) (c_lastCrawled y));
      destruct (c_verified x), (c_verified y), (c_network x), (c_network y); try done; tauto.
  - intros x y z Hx Hy Hz. rewrite !compare_cases by done.
    pose proof (Z.le_trans (c_lastCrawled x) (c_lastCrawled y) (c_lastCrawled z)).
    destruct (c_verified x), (c_verified y), (c_verified z); try (intuition congruence);
      destruct (c_network x), (c_network y), (c_network z); try done; intuition congruence.
  - apply Forall_forall. intros c Hc. by eapply candidate_is_ip.
Qed.

(** ** Lemmas: stale peers *)

Definition fresh (cutoff : jsnum) (o : option Peer) : option Peer :=
  match o with
  | Some p => if js_ltb (num (default 0 (lastSeen p))) cutoff then None else Some p
  | None => None
  end.

Lemma fresh_idemp cutoff o : fresh cutoff (fresh cutoff o) = fresh cutoff o.
Proof. destruct o as [p|]; cbn; [|done]. destruct (js_ltb _ _) eqn:E; [done|]. cbn. by rewrite E. Qed.

Definition prune_step (cutoff : jsnum) (acc : store) (key : jsstr) : store :=
  match Obj.get acc key with
  | Some rec => if js_ltb (num (default 0 (lastSeen rec))) cutoff then Obj.remove acc key else acc
  | None => acc
  end.

Lemma get_prune_step cutoff st key k :
  Obj.get (prune_step cutoff st key) k
  = if bool_decide (k = key) then fresh cutoff (Obj.get st k) else Obj.get st k.
Proof.
  unfold prune_step. case_bool_decide as E.
  - subst. destruct (Obj.get st key) as [p|] eqn:Eg; cbn; [|done].
    destruct (js_ltb _ _); [|done]. by rewrite Obj.get_remove, bool_decide_eq_true_2.
  - destruct (Obj.get st key); [|done]. destruct (js_ltb _ _); [|done].
    by rewrite Obj.get_remove, bool_decide_eq_false_2.
Qed.

Lemma get_prune_keys cutoff ks k : forall st,
  Obj.get (foldl (prune_step cutoff) st ks) k
  = if bool_decide (k ∈ ks) then fresh cutoff (Obj.get st k) else Obj.get st k.
Proof.
  induction ks as [|key ks IH]; intros st; cbn [foldl]; [done|].
  rewrite IH, get_prune_step. destruct (decide (k = key)) as [->|N].
  - rewrite (bool_decide_eq_true_2 (key = key)), (bool_decide_eq_true_2 (key ∈ key :: ks)) by set_solver.
    rewrite fresh_idemp. by case_bool_decide.
  - rewrite (bool_decide_eq_false_2 (k = key)) by done.
    rewrite (bool_decide_ext (k ∈ key :: ks) (k ∈ ks)) by set_solver. done.
Qed.

Lemma get_prune cutoff st k : Obj.get (prune cutoff st) k = fresh cutoff (Obj.get st k).
Proof.
  unfold prune. fold (prune_step cutoff). rewrite (get_prune_keys cutoff (Obj.keys st) k st).
  case_bool_decide as E; [done|]. apply Obj.get_None in E. by rewrite E.
Qed.

Lemma prune_peers P cutoff st : peers P st -> peers P (prune cutoff st).
Proof.
  intros [Hw Hp]. split.
  - unfold prune. generalize (Obj.keys st). intros ks. revert st Hw Hp.
    induction ks as [|key ks IH]; intros st Hw Hp; cbn; [done|]. apply IH.
    + destruct (Obj.get st key); [|done]. case_match; [by apply Obj.remove_wf|done].
    + intros k p. fold (prune_step cutoff st key). rewrite get_prune_step. case_bool_decide; [|apply Hp].
      destruct (Obj.get st k) as [q|] eqn:E; cbn; [|done]. case_match; [done|]. intros. simplify_eq. by apply Hp.
  - intros k p. rewrite get_prune. destruct (Obj.get st k) as [q|] eqn:E; cbn; [|done].
    case_match; [done|]. intros. simplify_eq. by apply Hp.
Qed.

(** ** Lemmas: no step forgets a peer *)

Definition keeps (now : Z) (p p' : Peer) : Prop :=
  (lastSeen p' = lastSeen p \/ lastSeen p' = Some now) /\ (depth p = Some 0 -> depth p' = Some 0).

Definition evolves (now : Z) (st st' : store) : Prop :=
  forall k p, Obj.get st k = Some p -> exists p', Obj.get st' k = Some p' /\ keeps now p p'.

Lemma keeps_refl now p : keeps now p p.
Proof. split; auto. Qed.

Lemma evolves_refl now st : evolves now st st.
Proof. intros k p E. exists p. split; [done|apply keeps_refl]. Qed.

Lemma evolves_trans now s1 s2 s3 : evolves now s1 s2 -> evolves now s2 s3 -> evolves now s1 s3.
Proof.
  intros H1 H2 k p E. destruct (H1 _ _ E) as (q & E2 & [L1 D1]). destruct (H2 _ _ E2) as (r & E3 & [L2 D2]).
  exists r. split; [done|]. split; [|auto]. destruct L2 as [->|]; auto.
Qed.

Lemma evolves_set now st k p' :
  (forall p, Obj.get st k = Some p -> keeps now p p') -> evolves now st (Obj.set st k p').
Proof.
  intros H k0 p E. rewrite Obj.get_set. case_bool_decide; subst; [by exists p'; auto|].
  exists p. split; [done|apply keeps_refl].
Qed.

Lemma evolves_foldl {B} now (f : store -> B -> store) l :
  (forall st x, evolves now st (f st x)) -> forall st, evolves now st (foldl f st l).
Proof.
  intros Hf. induction l as [|x l IH]; intros st; cbn; [apply evolves_refl|].
  eapply evolves_trans; [apply Hf|apply IH].
Qed.

Lemma root_record now st addr :
  (forall p, Obj.get st addr = Some p -> 0 <= default 0 (depth p)) ->
  exists p, add_root now st addr = Obj.set st addr p /\ lastSeen p = Some now /\ depth p = Some 0.
Proof.
  intros Hd. eexists. split; [reflexivity|]. split; [done|].
  destruct (Obj.get st addr) as [rec|]; [|done]. specialize (Hd rec eq_refl). cbn.
  assert (Z.min (default 0 (depth rec)) 0 = 0) as Hm by lia.
  destruct (network rec) eqn:En; cbn; rewrite ?En; cbn; destruct (falsy (ip rec)); cbn; by rewrite Hm.
Qed.

Lemma evolves_root d now st addr : peers (depth_ok d) st -> evolves now st (add_root now st addr).
Proof.
  intros [_ Hp]. destruct (root_record now st addr) as (p & -> & Hl & Hd).
  { intros p E. apply Hp in E. unfold depth_ok in E. destruct (depth p); cbn; [apply E|done]. }
  apply evolves_set. intros q _. split; [by right|done].
Qed.

Lemma roots_spec d now roots : forall st, peers (depth_ok d) st ->
  evolves now st (add_roots now roots st) /\ peers (depth_ok d) (add_roots now roots st)
  /\ forall r, r ∈ roots -> exists p, Obj.get (add_roots now roots st) r = Some p
       /\ lastSeen p = Some now /\ depth p = Some 0.
Proof.
  induction roots as [|r roots IH]; intros st Hst; unfold add_roots; cbn.
  - split_and!; [apply evolves_refl|done|set_solver].
  - pose proof (peers_root _ now d _ (depth_preserved now d) st r Hst) as H1.
    destruct (IH _ H1) as (Ev & Hp & Hr). split_and!; [|done|].
    + eapply evolves_trans; [by eapply evolves_root|exact Ev].
    + intros r' Hin. apply elem_of_cons in Hin as [->|Hin]; [|by apply Hr].
      destruct (root_record now st r) as (p & E & Hl & H0).
      { intros p E. apply (proj2 Hst) in E. unfold depth_ok in E. destruct (depth p); cbn; [apply E|done]. }
      destruct (Ev r p) as (p' & E' & [L D]); [rewrite E; apply Obj.get_set_eq|].
      exists p'. split; [done|]. split; [destruct L; congruence|auto].
Qed.

Lemma evolves_heal now st : evolves now st (heal_all st).
Proof.
  intros k p E. exists (heal k p). rewrite get_heal_all, E. split; [done|].
  destruct (heal_fields k p) as (D & L & _). split; [by left|by rewrite D].
Qed.

Lemma evolves_learn now key cd st addr : 0 <= cd -> evolves now st (learn_addr now key cd st addr).
Proof.
  intros Hc. unfold learn_addr. case_bool_decide; [apply evolves_refl|].
  destruct (Obj.get st (addrKey addr)) as [rec|] eqn:E; apply evolves_set; [|congruence].
  intros p Ep. simplify_eq. split; [by right|]. cbn. intros ->. cbn. f_equal. lia.
Qed.

Lemma evolves_update now st key f st' :
  (forall p, keeps now p (f p)) -> update st key f = Ok st' -> evolves now st st'.
Proof.
  intros Hf. unfold update. destruct (Obj.get st key) as [p|] eqn:E; [|done].
  intros H. apply Ok_inj in H as <-. apply evolves_set. intros q Eq. rewrite E in Eq. by simplify_eq.
Qed.

Lemma update_ok st key f : is_Some (Obj.get st key) ->
  exists st', update st key f = Ok st' /\ is_Some (Obj.get st' key).
Proof.
  intros [p E]. unfold update. rewrite E. eexists. split; [done|]. rewrite Obj.get_set_eq. by eexists.
Qed.

Lemma evolves_crawl cfg now n st c st' :
  0 <= c_depth c -> crawl_candidate cfg now n st c = Ok st' -> evolves now st st'.
Proof.
  intros Hc. unfold crawl_candidate. destruct (Obj.get st (c_key c)) as [rec|]; [|done].
  destruct (crawl _ _ _) as [r|]; rbind; [|done].
  destruct (update st _ _) as [s1|] eqn:E1; rbind; [|done].
  apply (evolves_update now) in E1; [|intros p; split; [by left|done]].
  destruct r as [r|].
  - destruct (update s1 _ _) as [s2|] eqn:E2; rbind; [|done].
    apply (evolves_update now) in E2; [|intros p; split; [by right|done]].
    intros H. apply Ok_inj in H as <-. eapply evolves_trans; [exact E1|]. eapply evolves_trans; [exact E2|].
    apply evolves_foldl. intros. apply evolves_learn. lia.
  - intros E2. apply (evolves_update now) in E2; [|intros p; split; [by left|done]].
    by eapply evolves_trans.
Qed.

Lemma evolves_crawl_all cfg now cs : forall n st st',
  Forall (crawlable (maxDepth cfg)) cs ->
  crawl_all cfg now n st cs = Ok st' -> evolves now st st'.
Proof.
  induction cs as [|c cs IH]; intros n st st' Hc; cbn [crawl_all].
  - intros H. apply Ok_inj in H as <-. apply evolves_refl.
  - apply Forall_cons_1 in Hc as [Hc Hcs].
    destruct (crawl_candidate cfg now n st c) as [s1|] eqn:E; rbind; [|done]. intros H.
    eapply evolves_trans; [eapply evolves_crawl; [apply Hc|exact E]|by eapply IH].
Qed.

(** The record of a candidate is there when its turn comes. *)
Lemma crawl_all_total cfg now cs : (forall n a p, exists r, crawl n a p = Ok r) -> forall n st,
  Forall (crawlable (maxDepth cfg)) cs ->
  Forall (fun c => is_Some (Obj.get st (c_key c))) cs ->
  exists st', crawl_all cfg now n st cs = Ok st'.
Proof.
  intros Hcr. induction cs as [|c cs IH]; intros n st Hd Hc; cbn [crawl_all]; [by eexists|].
  apply Forall_cons_1 in Hc as [Hc Hcs]. apply Forall_cons_1 in Hd as [Hd Hds].
  assert (exists s1, crawl_candidate cfg now n st c = Ok s1) as [s1 E].
  { unfold crawl_candidate. pose proof Hc as [rec ->]. destruct (Hcr n (c_ip c) (port_of cfg rec)) as [r ->].
    rbind. destruct (update_ok st (c_key c) (set_lastCrawled now) Hc) as (s1 & -> & H1). rbind.
    destruct r as [r|].
    - edestruct (update_ok s1 (c_key c)) as (s2 & -> & _); [done|]. rbind. by eexists.
    - edestruct (update_ok s1 (c_key c)) as (s2 & -> & _); [done|]. by eexists. }
  rewrite E. rbind. apply IH; [done|]. apply evolves_crawl in E; [|apply Hd].
  rewrite Forall_forall in Hcs |- *. intros x Hx. destruct (Hcs x Hx) as [p Ep].
  destruct (E _ _ Ep) as (p' & Ep' & _). by exists p'.
Qed.

(** Only the lookups of the seeds can go on for ever. *)
Lemma crawl_candidate_finite cfg now n st c :
  (forall n a p, crawl n a p <> Throw Diverges) -> crawl_candidate cfg now n st c <> Throw Diverges.
Proof.
  intros Hcr. unfold crawl_candidate, update. destruct (Obj.get st (c_key c)) as [rec|]; [|done].
  specialize (Hcr n (c_ip c) (port_of cfg rec)). destruct (crawl _ _ _) as [[r|]|e]; rbind; [..|congruence];
    rewrite Obj.get_set_eq; by rbind.
Qed.

Lemma crawl_all_finite cfg now cs : (forall n a p, crawl n a p <> Throw Diverges) -> forall n st,
  crawl_all cfg now n st cs <> Throw Diverges.
Proof.
  intros Hcr. induction cs as [|c cs IH]; intros n st; cbn [crawl_all]; [done|].
  pose proof (crawl_candidate_finite cfg now n st c Hcr). destruct (crawl_candidate _ _ _ _ _); rbind; [apply IH|congruence].
Qed.

Lemma advanceCrawl_diverges cfg now_ms st :
  (forall n a p, crawl n a p <> Throw Diverges) -> advanceCrawl cfg now_ms st = Throw Diverges ->
  loop_count (js_max (num 1) (dnsRounds cfg)) = None.
Proof.
  intros Hcr. unfold advanceCrawl, find_roots, Dns.sampleSeedIps, Dns.resolveExtraSeedIps.
  destruct (loop_count _) as [k|]; [|done]. pose proof (Dns.sample_rounds_finite doh k (seedHosts cfg) [] 0).
  destruct (Dns.sample_rounds _ _ _ _ _) as [[l t]|e]; rbind; [|congruence].
  pose proof (Dns.lookup_hosts_finite doh (extraSeedHosts cfg) [] t).
  destruct (Dns.lookup_hosts _ _ _ _) as [[l' t']|e]; rbind; [|congruence].
  match goal with |- context [crawl_all ?cfg ?now ?n ?s ?cs] =>
    pose proof (crawl_all_finite cfg now cs Hcr n s); destruct (crawl_all cfg now n s cs); rbind; congruence
  end.
Qed.

Lemma advanceCrawl_steps cfg now_ms st st' :
  advanceCrawl cfg now_ms st = Ok st' ->
  let now := now_ms / 1000 in
  exists roots s1 s2, find_roots cfg = Ok roots /\ s1 = heal_all (add_roots now roots st)
    /\ crawl_all cfg now 0 s1 (candidates cfg s1) = Ok s2
    /\ st' = prune (cutoff_of cfg now) s2.
Proof.
  unfold advanceCrawl. destruct (find_roots cfg) as [roots|]; rbind; [|done].
  destruct (crawl_all _ _ _ _ _) as [s2|] eqn:E; rbind; [|done].
  intros H. apply Ok_inj in H as <-. by eexists _, _, s2.
Qed.

(** The store after the roots and before the crawl. *)
Lemma seeded_store cfg now roots st :
  peers (depth_ok (maxDepth cfg)) st ->
  let s1 := heal_all (add_roots now roots st) in
  evolves now st s1 /\ peers (depth_ok (maxDepth cfg)) s1
  /\ forall r, r ∈ roots -> exists p, Obj.get s1 r = Some p /\ lastSeen p = Some now /\ depth p = Some 0.
Proof.
  intros Hst. destruct (roots_spec _ now roots st Hst) as (Ev & Hp & Hr). cbv zeta. split_and!.
  - eapply evolves_trans; [exact Ev|apply evolves_heal].
  - by apply (peers_heal_all _ now _ _ (depth_preserved now _)).
  - intros r Hin. destruct (Hr r Hin) as (p & E & L & D). exists (heal r p). rewrite get_heal_all, E.
    destruct (heal_fields r p) as (-> & -> & _). done.
Qed.

(** A whole run preserves what its assignments preserve. *)
Lemma run_preserves Q P cfg now_ms st st' :
  preserved Q (now_ms / 1000) (maxDepth cfg) P ->
  (forall n a p r, crawl n a p = Ok (Some r) -> Forall Q (cr_addresses r)) ->
  peers P st -> advanceCrawl cfg now_ms st = Ok st' -> peers P st'.
Proof.
  intros Hpv Hcr Hst H. apply advanceCrawl_steps in H as (roots & s1 & s2 & _ & -> & Hc & ->).
  assert (peers P (heal_all (add_roots (now_ms / 1000) roots st))) as H1.
  { apply (peers_heal_all _ _ _ _ Hpv), peers_foldl; [|done]. intros. by apply (peers_root _ _ _ _ Hpv). }
  assert (peers (depth_ok (maxDepth cfg)) (heal_all (add_roots (now_ms / 1000) roots st))) as H2.
  { destruct H1 as [Hw Hp]. split; [done|]. intros k p E. by apply (pv_depth _ _ _ _ Hpv), Hp. }
  apply prune_peers.
  exact (peers_crawl_all _ _ _ _ Hpv Hcr _ _ _ _ _ (candidate_depths _ _ H2) H1 Hc).
Qed.

(** Not seen before the cutoff. *)
Definition late_enough (cfg : CrawlConfig) (now : Z) (p : Peer) : Prop :=
  js_ltb (num (default 0 (lastSeen p))) (cutoff_of cfg now) = false.

(** Now is late enough, if the time to keep peers is not negative. *)
Lemma now_late_enough cfg now_ms p :
  0 <= now_ms < 2 ^ 53 -> not_negative (staleAfterDays cfg) -> lastSeen p = Some (now_ms / 1000) ->
  late_enough cfg (now_ms / 1000) p.
Proof.
  intros Hn Hs E. unfold late_enough, cutoff_of. rewrite E. cbn.
  assert (0 <= now_ms / 1000 <= now_ms) by (split; [apply Z.div_pos; lia|apply Z.div_le_upper_bound; lia]).
  apply js_sub_le; [lia|unfold safe; lia|by apply js_mul_not_negative].
Qed.

Lemma keeps_late_enough cfg now_ms p p' :
  0 <= now_ms < 2 ^ 53 -> not_negative (staleAfterDays cfg) -> keeps (now_ms / 1000) p p' ->
  late_enough cfg (now_ms / 1000) p -> late_enough cfg (now_ms / 1000) p'.
Proof.
  intros Hn Hs [[E|E] _] H; [unfold late_enough; by rewrite E|by apply now_late_enough].
Qed.

(** A peer of the store before the crawl is kept if it was seen late enough. *)
Lemma crawled_kept cfg now_ms st st' roots s1 s2 k p :
  0 <= now_ms < 2 ^ 53 -> not_negative (staleAfterDays cfg) -> peers (depth_ok (maxDepth cfg)) st ->
  let now := now_ms / 1000 in
  s1 = heal_all (add_roots now roots st) -> crawl_all cfg now 0 s1 (candidates cfg s1) = Ok s2 ->
  st' = prune (cutoff_of cfg now) s2 ->
  Obj.get s1 k = Some p -> late_enough cfg now p ->
  exists p', Obj.get st' k = Some p' /\ keeps now p p'.
Proof.
  intros Hm Hs Hst now -> Hc -> Hk Hl.
  destruct (seeded_store cfg now roots st Hst) as (_ & Hp & _).
  destruct (evolves_crawl_all _ _ _ _ _ _ (candidate_depths _ _ Hp) Hc k p Hk) as (p' & E & Hkp).
  exists p'. split; [|done]. rewrite get_prune, E. cbn [fresh].
  subst now. by rewrite (keeps_late_enough _ _ _ _ Hm Hs Hkp Hl).
Qed.

Lemma advance_total cfg now_ms st :
  peers (depth_ok (maxDepth cfg)) st -> loop_count (js_max (num 1) (dnsRounds cfg)) <> None ->
  Dns.reachable doh -> (forall n a p, exists r, crawl n a p = Ok r) ->
  exists st', advanceCrawl cfg now_ms st = Ok st'.
Proof.
  intros Hst Hl Hr Hcr. destruct (loop_count _) as [rounds|] eqn:El; [|done]. unfold advanceCrawl, find_roots, Dns.sampleSeedIps, Dns.resolveExtraSeedIps.
  rewrite El. destruct (Dns.sample_rounds_spec doh rounds (seedHosts cfg) Hr [] 0
              NoDup_nil_2) as (l1 & -> & _). rbind.
  destruct (Dns.lookup_hosts_spec doh (extraSeedHosts cfg) Hr []
              (0 + rounds * length (seedHosts cfg)) NoDup_nil_2) as (l2 & -> & _).
  rbind. set (roots := JsSet.add_all [] (l1 ++ l2)).
  destruct (seeded_store cfg (now_ms / 1000) roots st Hst) as (_ & Hp & _).
  destruct (crawl_all_total cfg (now_ms / 1000) _ Hcr 0 (heal_all (add_roots (now_ms / 1000) roots st))
              (candidate_depths _ _ Hp)) as [s2 ->];
    [|rbind; by eexists].
  apply Forall_forall. intros c (k & p & Hin & _ & ->)%candidates_elem%eligibles_elem.
  exists p. by apply (Obj.get_In _ _ _ (proj1 Hp)).
Qed.

(** ** Correctness of the run *)

(** C32: a run keeps the store well formed, whatever numbers the settings are:
    one record per key, every depth 0 or one more than a depth below
    [maxDepth], and no record last seen before the cutoff. *)
Theorem advanceCrawl_invariant cfg now_ms st st' :
  peers (depth_ok (maxDepth cfg)) st -> advanceCrawl cfg now_ms st = Ok st' ->
  peers (fun k p => depth_ok (maxDepth cfg) k p
                    /\ late_enough cfg (now_ms / 1000) p) st'.
Proof.
  intros Hst H. apply advanceCrawl_steps in H as (roots & s1 & s2 & _ & -> & Hc & ->).
  destruct (seeded_store cfg (now_ms / 1000) roots st Hst) as (_ & Hp & _).
  pose proof (peers_crawl_all _ _ _ _ (depth_preserved _ _) no_promise _ _ _ _ _ (candidate_depths _ _ Hp) Hp Hc) as H2.
  split; [by apply (prune_peers (depth_ok (maxDepth cfg)))|]. intros k p. rewrite get_prune.
  destruct (Obj.get s2 k) as [q|] eqn:E; cbn; [|done]. destruct (js_ltb _ _) eqn:El; [done|].
  intros. simplify_eq. split; [by apply H2|done].
Qed.

(** At most [maxPeersPerRun] peers are crawled, all of them IPv4 or IPv6
    peers of the store at a depth below [maxDepth]. *)
Theorem candidates_bounded cfg st :
  (forall n, safe n -> maxPeersPerRun cfg = num n -> len (candidates cfg st) <= Z.max 0 n)
  /\ forall c, c ∈ candidates cfg st -> exists k p, (k, p) ∈ st /\ c = candidate k p
       /\ (network p = Some ipv4 \/ network p = Some ipv6) 
       /\ js_ltb (num (default 0 (depth p))) (maxDepth cfg) = true.
Proof.
  split.
  - intros n Hn E. unfold candidates. rewrite E, js_max_int, slice_num_int by (unfold safe in *; lia).
    unfold len. rewrite length_take. lia.
  - intros c (k & p & Hin & He & ->)%candidates_elem%eligibles_elem. exists k, p.
    apply eligible_network in He. tauto.
Qed.

(** The budget goes to the right peers: a peer left out is not before a
    peer chosen.  So an unverified peer is only crawled when every eligible
    verified peer is, among equally verified peers IPv4 goes before IPv6, and
    among equals the one crawled longest ago is chosen. *)
Theorem candidates_priority cfg st c d n :
  length (candidates cfg st) = n ->
  c ∈ candidates cfg st -> d ∈ drop n (Sort.js_sort compare (eligibles cfg st)) ->
  (c_verified c = true /\ c_verified d = false)
  \/ (c_verified c = c_verified d /\ c_network c = ipv4 /\ c_network d = ipv6)
  \/ (c_verified c = c_verified d /\ c_network c = c_network d /\ c_lastCrawled c <= c_lastCrawled d).
Proof.
  intros <- Hc Hd. assert (d ∈ eligibles cfg st) as Hd'.
  { apply (Sort.sort_elem_of compare). rewrite <- (take_drop (length (candidates cfg st))). set_solver. }
  pose proof (candidate_is_ip _ _ _ (candidates_elem _ _ _ Hc)) as Ic.
  apply (compare_cases c d Ic (candidate_is_ip _ _ _ Hd')).
  eapply (Sort.sorted_prefix compare _ (eligibles_sorted cfg st)); [|exact Hd].
  unfold candidates in Hc |- *. by rewrite slice_num_take in Hc.
Qed.

(** Every seed address is in the store after the run, at depth 0 and as
    just seen. *)
Theorem roots_stored cfg now_ms st st' roots r :
  0 <= now_ms < 2 ^ 53 -> not_negative (staleAfterDays cfg) -> peers (depth_ok (maxDepth cfg)) st ->
  advanceCrawl cfg now_ms st = Ok st' -> find_roots cfg = Ok roots -> r ∈ roots ->
  exists p, Obj.get st' r = Some p /\ depth p = Some 0 /\ lastSeen p = Some (now_ms / 1000).
Proof.
  intros Hm Hs Hst H Hf Hin. apply advanceCrawl_steps in H as (roots' & s1 & s2 & Hf' & E1 & Hc & E2).
  rewrite Hf in Hf'. apply Ok_inj in Hf' as <-.
  destruct (seeded_store cfg (now_ms / 1000) roots st Hst) as (_ & _ & Hr).
  destruct (Hr r Hin) as (p & Ep & L & D). rewrite <- E1 in Ep.
  destruct (crawled_kept cfg now_ms st st' roots s1 s2 r p Hm Hs Hst E1 Hc E2 Ep) as (p' & E' & [L' D']).
  { by apply now_late_enough. }
  exists p'. split; [done|]. split; [auto|]. destruct L'; congruence.
Qed.

(** No peer seen since the cutoff is lost, and a root keeps depth 0. *)
Theorem recent_peers_kept cfg now_ms st st' k p :
  0 <= now_ms < 2 ^ 53 -> not_negative (staleAfterDays cfg) -> peers (depth_ok (maxDepth cfg)) st ->
  advanceCrawl cfg now_ms st = Ok st' -> Obj.get st k = Some p ->
  late_enough cfg (now_ms / 1000) p ->
  exists p', Obj.get st' k = Some p' /\ keeps (now_ms / 1000) p p'.
Proof.
  intros Hm Hs Hst H Ek Hl. apply advanceCrawl_steps in H as (roots & s1 & s2 & _ & E1 & Hc & E2).
  destruct (seeded_store cfg (now_ms / 1000) roots st Hst) as (Ev & _ & _).
  destruct (Ev k p Ek) as (p1 & Ep1 & K1). rewrite <- E1 in Ep1.
  destruct (crawled_kept cfg now_ms st st' roots s1 s2 k p1 Hm Hs Hst E1 Hc E2 Ep1) as (p' & E' & K2).
  { by eapply keeps_late_enough. }
  exists p'. split; [done|]. destruct K1 as [L1 D1], K2 as [L2 D2]. split; [|auto].
  destruct L2 as [->|]; auto.
Qed.

(** A crawl that fails only records the attempt: the peer gets the time
    and the failure, keeps the time it was last seen, and no other record
    changes. *)
Theorem failed_crawl_recorded cfg now n st c rec :
  Obj.get st (c_key c) = Some rec ->
  crawl n (c_ip c) (port_of cfg rec) = Ok None ->
  exists st', crawl_candidate cfg now n st c = Ok st'
    /\ Obj.get st' (c_key c) = Some (set_lastCrawlOk false (set_lastCrawled now rec))
    /\ forall k, k <> c_key c -> Obj.get st' k = Obj.get st k.
Proof.
  intros E Hc. unfold crawl_candidate, update. rewrite E, Hc. rbind.
  rewrite Obj.get_set_eq. eexists. split; [done|]. split; [by rewrite Obj.get_set_eq|].
  intros k Hk. by rewrite !Obj.get_set_ne.
Qed.

End WithWorld.

(** ** An example run *)

Definition example_cfg : CrawlConfig :=
  {| seedHosts := [jss "seed"]; extraSeedHosts := []; dnsRounds := num 1; p2pPort := num 8333;
     maxDepth := num 8; maxPeersPerRun := num 1; totalTimeoutMs := num 6000; staleAfterDays := num 30 |}.

(** A peer stored before addrv2 support, and one not seen for long. *)
Definition example_store : store :=
  [(jss "9.9.9.9", set_lastSeen 9999000 (set_depth 1 empty_peer)); (jss "::1", set_lastSeen 5 empty_peer)].

(** The first peer tells of another one, all others fail. *)
Definition example_crawl (n : nat) (addr : jsstr) (port : jsnum) : res (option CrawlResult) :=
  match n with
  | O => Ok (Some {| cr_services := 9; cr_subver := jss "/demo/"; cr_startHeight := 7;
                     cr_addresses := [{| pa_network := Some tor; pa_ip := None; pa_key := Some (jss "ab");
                                         pa_port := 1; pa_time := 2; pa_services := 3 |}] |})
  | _ => Ok None
  end.

Definition example_run : res store := advanceCrawl Dns.example_doh example_crawl example_cfg 10000000000 example_store.
Definition example_after : store := match example_run with Ok st => st | Throw _ => [] end.

Lemma example_peers : peers (depth_ok (num 8)) example_store.
Proof.
  split; [vm_compute; repeat constructor; set_solver|].
  intros k p H. apply Obj.get_elem in H.
  repeat (apply elem_of_cons in H as [H|H]; [simplify_eq; vm_compute; (done || (split; [discriminate|by right]))|]).
  by apply elem_of_nil in H.
Qed.

Lemma advanceCrawl_invariant_witness :
  Obj.keys example_after = [jss "9.9.9.9"; jss "1.2.3.4"; jss "ab"]
  /\ peers (fun k p => depth_ok (num 8) k p /\ late_enough example_cfg (10000000000 / 1000) p) example_after.
Proof.
  split; [vm_compute; reflexivity|].
  apply (advanceCrawl_invariant Dns.example_doh example_crawl example_cfg 10000000000 example_store example_after);
    [apply example_peers|vm_compute; reflexivity].
Defined.

Lemma roots_stored_witness :
  exists p, Obj.get example_after (jss "1.2.3.4") = Some p /\ depth p = Some 0
    /\ lastSeen p = Some (10000000000 / 1000).
Proof.
  apply (roots_stored Dns.example_doh example_crawl example_cfg 10000000000 example_store example_after
           [jss "1.2.3.4"] (jss "1.2.3.4"));
    [lia|vm_compute; reflexivity|apply example_peers|vm_compute; reflexivity|vm_compute; reflexivity|left].
Defined.

Lemma recent_peers_kept_witness :
  exists p', Obj.get example_after (jss "9.9.9.9") = Some p'
    /\ keeps (10000000000 / 1000) (set_lastSeen 9999000 (set_depth 1 empty_peer)) p'.
Proof.
  apply (recent_peers_kept Dns.example_doh example_crawl example_cfg 10000000000 example_store example_after);
    [lia|vm_compute; reflexivity|apply example_peers|vm_compute; reflexivity|vm_compute; reflexivity
    |vm_compute; reflexivity].
Defined.

Lemma candidates_priority_witness :
  let st := heal_all [(jss "::1", set_depth 0 (set_lastCrawlOk true empty_peer)); (jss "9.9.9.9", empty_peer)] in
  let c := candidate (jss "::1") (set_ip (jss "::1") (set_network ipv6 (set_depth 0 (set_lastCrawlOk true empty_peer)))) in
  let d := candidate (jss "9.9.9.9") (set_ip (jss "9.9.9.9") (set_network ipv4 empty_peer)) in
  (c_verified c = true /\ c_verified d = false)
  \/ (c_verified c = c_verified d /\ c_network c = ipv4 /\ c_network d = ipv6)
  \/ (c_verified c = c_verified d /\ c_network c = c_network d /\ c_lastCrawled c <= c_lastCrawled d).
Proof.
  intros st c d. apply (candidates_priority example_cfg st c d 1); [reflexivity|vm_compute; left|vm_compute; left].
Defined.

Lemma failed_crawl_recorded_witness :
  let st := [(jss "9.9.9.9", empty_peer)] in
  exists st', crawl_candidate example_crawl example_cfg 77 1 st (candidate (jss "9.9.9.9") empty_peer) = Ok st'
    /\ Obj.get st' (jss "9.9.9.9") = Some (set_lastCrawlOk false (set_lastCrawled 77 empty_peer))
    /\ forall k, k <> jss "9.9.9.9" -> Obj.get st' k = Obj.get st k.
Proof.
  apply (failed_crawl_recorded example_crawl example_cfg 77 1 [(jss "9.9.9.9", empty_peer)]
           (candidate (jss "9.9.9.9") empty_peer) empty_peer); reflexivity.
Defined.

End Advance.
