(* ===== verification/StoreTypes.v ===== *)
(** * The type of the stored peers

    What every record in the store looks like once the worker has written it:
    which properties are present, what they contain, and how they fit the key. *)

From Stdlib Require Import String.
From S2P Require Import Prelude Numbers JsText Collections Ip Messages Framing Handshake Dns Peers Advance.
Import Ip Messages Handshake Peers Advance.

Module StoreTypes.

(** [firstSeen], [lastSeen], [depth] and [network] are present; the depth is
    within bounds; a peer of an IP network is stored under its address, whose
    shape is that of its network; a port has 16 bits; no peer is its own
    parent; the address of an IP peer another peer told of can be encoded. *)
Definition typed (d : jsnum) (k : jsstr) (p : Peer) : Prop :=
  is_Some (firstSeen p) /\ is_Some (lastSeen p)
  /\ (exists v, depth p = Some v /\ depth_in d v)
  /\ (exists n, network p = Some n /\
        match n with
        | ipv4 | ipv6 => ip p = Some k /\ ip_version k = n
        | cjdns => ip p = Some k
        | tor | i2p => True
        end
        /\ (is_Some (parent p) -> match n with ipv4 | ipv6 | cjdns => exists b16, p2pEncodeIp k = Ok b16 | _ => True end))
  /\ (forall q, port p = Some q -> 0 <= q < 65536)
  /\ parent p <> Some k.

(** The fields the type speaks of; all of them but [ip] of a Tor or I2P peer
    are kept by an assignment to the other ones. *)
Definition same_type (k : jsstr) (p p' : Peer) : Prop :=
  firstSeen p' = firstSeen p /\ is_Some (lastSeen p') /\ depth p' = depth p /\ network p' = network p
  /\ port p' = port p /\ parent p' = parent p
  /\ (ip p' = ip p \/ ip p' = Some k).

Lemma typed_same d k p p' : same_type k p p' -> typed d k p -> typed d k p'.
Proof.
  intros (E1 & E2 & E3 & E4 & E5 & E6 & E7) (H1 & _ & H3 & (n & En & Hn & Hq) & H5 & H6).
  unfold typed. rewrite E1, E3, E4, E5, E6. split_and!; [done..| |done|done].
  exists n. split_and!; [done| |done].
  destruct n; try done; destruct E7 as [E7|E7]; rewrite E7; tauto.
Qed.

Lemma heal_same d k p : typed d k p -> same_type k p (heal k p).
Proof.
  intros (_ & H2 & _ & (n & En & _) & _). unfold heal. rewrite En. rewrite En.
  destruct (falsy (ip p) && _); (split_and!; [done..|]); [by right|by left].
Qed.

Lemma told_typed now d key cd a :
  addr_wf a -> depth_in d cd -> addrKey a <> key -> typed d (addrKey a) (told_peer now key cd a None).
Proof.
  intros [Hn Hp] Hc Hk. unfold typed. cbn.
  split_and!; [by eexists|by eexists|by exists cd| | |congruence].
  - exists (addrNetwork a). split; [done|]. unfold addrNetwork, addrKey in *.
    destruct (pa_network a) as [[]|]; [| | | | |done];
      try (destruct Hn as (E & t & Et & Hc1 & He); rewrite Et in E |- *; unfold ip_version; rewrite ?Hc1; by eauto);
      done.
  - intros q Hq. by simplify_eq.
Qed.

Lemma typed_preserved now d : preserved addr_wf now d (typed d).
Proof.
  split.
  - intros k p (_ & _ & (v & E & Hv) & _). unfold depth_ok. by rewrite E.
  - intros a. unfold typed, root_peer. cbn. split_and!; try done; try (by eexists); [eexists; split; [done|apply depth_in_0]|].
    exists (ip_version a). split_and!; [done| |intros H; by apply is_Some_None in H].
    unfold ip_version. by destruct (includes _ _).
  - intros a p Hp. destruct Hp as (H1 & H2 & (v & Ev & Hv) & (n & En & Hn & Hq) & H5 & H6).
    unfold typed, root_peer. cbn. rewrite En. cbn.
    assert (Z.min (default 0 (depth p)) 0 = 0) as Hm by (rewrite Ev; cbn; destruct Hv; lia).
    destruct (falsy (ip p)); cbn; rewrite Hm, En; (split_and!; [done|by eexists|exists 0; split; [done|apply depth_in_0]| |done|done]);
      exists n; (split_and!; [done| |done]); destruct n; tauto.
  - intros k p Hp. eapply typed_same; [by eapply heal_same|done].
  - intros k p Hp. eapply typed_same; [|exact Hp]. destruct Hp as (_ & H2 & _). split_and!; try done. by left.
  - intros k p Hp. eapply typed_same; [|exact Hp]. destruct Hp as (_ & H2 & _). split_and!; try done. by left.
  - intros k p r Hp. eapply typed_same; [|exact Hp]. split_and!; try done. by left.
  - intros. by apply told_typed.
  - intros key cd a k p Hc (H1 & H2 & (v & Ev & Hv) & H4). unfold typed. cbn. rewrite Ev. cbn.
    split_and!; [done|by eexists|eexists; split; [done|]; by apply depth_in_min|apply H4..].
Qed.

(** A candidate of a typed store is crawled at the address it is stored under. *)
Lemma typed_candidate d cfg st c :
  peers (typed d) st -> c ∈ candidates cfg st ->
  c_ip c = c_key c /\ ip_version (c_key c) = c_network c.
Proof.
  intros [Hw Hp] Hc. apply candidates_elem, eligibles_elem in Hc as (k & p & Hin & He & ->).
  apply eligible_network in He as [He _].
  apply (Obj.get_In _ _ _ Hw), Hp in Hin as (_ & _ & _ & (n & En & Hn & _) & _).
  unfold candidate. cbn. rewrite En in *. cbn.
  destruct He as [He|He]; simplify_eq; destruct Hn as [-> ->]; done.
Qed.

End StoreTypes.
