(* ===== verification/CrawlSpec.v ===== *)
(** * What a discovery run does to the peers it knows

    [advanceCrawl] of [worker/src/crawl.js] works on an object with ordered
    properties, sorts arrays and deletes while it walks.  Here the known peers
    are a finite map and a run is described without any of that; which of
    several equally good candidates are crawled is left open.  The code refines
    this description. *)

From Stdlib Require Import String Sorting.Sorted.
From stdpp Require Import gmap.
From S2P Require Import Prelude Numbers JsText Collections Messages Framing Handshake Dns Peers Advance.
Import Messages Handshake Peers Advance.

Module CrawlSpec.

(** ** The specification *)

Abbreviation peer_map := (gmap jsstr Peer).

(** The roots are known, and seen now. *)
Definition spec_roots (now : Z) (R : gset jsstr) (m : peer_map) : peer_map :=
  set_to_map (fun a => (a, root_peer now a (m !! a))) R ∪ m.

Definition spec_heal (m : peer_map) : peer_map := map_imap (fun k p => Some (heal k p)) m.

Definition spec_learn (now : Z) (key : jsstr) (childDepth : Z) (m : peer_map) (addr : PeerAddr) : peer_map :=
  if decide (addrKey addr = key) then m
  else <[addrKey addr := told_peer now key childDepth addr (m !! addrKey addr)]> m.

(** A crawl without an answer, and one with the answer [r]. *)
Definition spec_visit (now : Z) (c : Candidate) (result : option CrawlResult) (m : peer_map) : peer_map :=
  match result with
  | None => alter (fun p => set_lastCrawlOk false (set_lastCrawled now p)) (c_key c) m
  | Some r =>
    foldl (spec_learn now (c_key c) (c_depth c + 1))
      (alter (fun p => crawled_peer now r (set_lastCrawled now p)) (c_key c) m) (cr_addresses r)
  end.

Definition spec_prune (cutoff : jsnum) (m : peer_map) : peer_map :=
  filter (fun kp => js_ltb (num (default 0 (lastSeen kp.2))) cutoff = false) m.

(** [a] is crawled before [b], or they are equally good: verified ones first,
    then IPv4, then the one not crawled for longer. *)
Definition before (a b : Candidate) : Prop :=
  (c_verified a = true /\ c_verified b = false)
  \/ (c_verified a = c_verified b /\ c_network a = ipv4 /\ c_network b = ipv6)
  \/ (c_verified a = c_verified b /\ c_network a = c_network b /\ c_lastCrawled a <= c_lastCrawled b).

Definition eligible_peers (cfg : CrawlConfig) (m : peer_map) : peer_map :=
  filter (fun kp => eligible cfg kp.2 = true) m.

(** How many peers a setting allows: none if it is negative or not a number,
    any number if it is infinite, else its integer part. *)
Definition allowed (x : jsnum) (available : nat) : nat :=
  match x with
  | NaN | Infty true => 0
  | Infty false => available
  | Dyadic m e => min (Z.to_nat (dyadic_trunc m e)) available
  end.

(** A choice of candidates: as many eligible peers as allowed, none twice, the
    best ones, in order. *)
Record chosen (cfg : CrawlConfig) (m : peer_map) (cs : list Candidate) : Prop := {
  ch_eligible c : c ∈ cs -> exists p, eligible_peers cfg m !! c_key c = Some p /\ c = candidate (c_key c) p;
  ch_once : NoDup (List.map c_key cs);
  ch_size : length cs = allowed (maxPeersPerRun cfg) (size (eligible_peers cfg m));
  ch_sorted : StronglySorted before cs;
  ch_best c k p : c ∈ cs -> eligible_peers cfg m !! k = Some p -> k ∉ List.map c_key cs -> before c (candidate k p)
}.

Section WithWorld.
Variable doh : nat -> jsstr -> Dns.QType -> Dns.DohResponse.
Variable crawl : nat -> jsstr -> jsnum -> res (option CrawlResult).

(** The candidates are visited one after the other, with the answers of the
    network. *)
Inductive spec_crawls (cfg : CrawlConfig) (now : Z) : nat -> peer_map -> list Candidate -> peer_map -> Prop :=
  | spec_crawls_nil n m : spec_crawls cfg now n m [] m
  | spec_crawls_cons n m c cs p result m' :
      m !! c_key c = Some p -> crawl n (c_ip c) (port_of cfg p) = Ok result ->
      spec_crawls cfg now (S n) (spec_visit now c result m) cs m' ->
      spec_crawls cfg now n m (c :: cs) m'.

Definition spec_run (cfg : CrawlConfig) (now_ms : Z) (m m' : peer_map) : Prop :=
  let now := now_ms / 1000 in
  exists roots cs m2,
    find_roots doh cfg = Ok roots
    /\ let m1 := spec_heal (spec_roots now (list_to_set roots) m) in
       chosen cfg m1 cs /\ spec_crawls cfg now 0 m1 cs m2
       /\ m' = spec_prune (cutoff_of cfg now) m2.

End WithWorld.

(** ** The abstraction *)

Definition abs (st : store) : peer_map := list_to_map st.

Lemma lookup_abs st k : abs st !! k = Obj.get st k.
Proof.
  unfold abs. induction st as [|[k' p] st IH]; [done|]. cbn. rewrite lookup_insert, IH.
  destruct (decide (k' = k)) as [->|N]; [by rewrite bool_decide_eq_true_2|]. by rewrite bool_decide_eq_false_2 by done.
Qed.

Lemma abs_set st k p : abs (Obj.set st k p) = <[k := p]> (abs st).
Proof.
  apply map_eq. intros k'. rewrite lookup_abs, Obj.get_set, lookup_insert, lookup_abs.
  destruct (decide (k = k')) as [->|N]; [by rewrite bool_decide_eq_true_2|]. by rewrite bool_decide_eq_false_2.
Qed.

Lemma abs_heal st : abs (heal_all st) = spec_heal (abs st).
Proof.
  apply map_eq. intros k. unfold spec_heal. rewrite map_lookup_imap, !lookup_abs, get_heal_all.
  by destruct (Obj.get st k).
Qed.

Lemma abs_learn now key d st addr : abs (learn_addr now key d st addr) = spec_learn now key d (abs st) addr.
Proof.
  unfold learn_addr, spec_learn. destruct (decide (addrKey addr = key)) as [E|N].
  - by rewrite bool_decide_eq_true_2.
  - by rewrite bool_decide_eq_false_2, abs_set, lookup_abs.
Qed.

Lemma abs_learn_all now key d l : forall st,
  abs (foldl (learn_addr now key d) st l) = foldl (spec_learn now key d) (abs st) l.
Proof. induction l as [|a l IH]; intros st; cbn; [done|]. by rewrite IH, abs_learn. Qed.

Lemma abs_prune cutoff st : abs (prune cutoff st) = spec_prune cutoff (abs st).
Proof.
  apply map_eq. intros k. unfold spec_prune. rewrite lookup_abs, get_prune, map_lookup_filter, lookup_abs.
  destruct (Obj.get st k) as [p|]; cbn; [|done]. destruct (js_ltb _ _) eqn:E; case_guard; try done; cbn in *; congruence.
Qed.

Lemma abs_update st key f st' :
  update st key f = Ok st' -> exists p, abs st !! key = Some p /\ abs st' = alter f key (abs st).
Proof.
  unfold update. rewrite <- lookup_abs. destruct (abs st !! key) as [p|] eqn:E; [|done].
  intros H. apply Ok_inj in H as <-. exists p. split; [done|]. rewrite abs_set. apply map_eq. intros k.
  destruct (decide (key = k)) as [<-|N]; simplify_map_eq; done.
Qed.

Lemma get_roots now k roots : forall st,
  NoDup roots ->
  Obj.get (add_roots now roots st) k
  = if decide (k ∈ roots) then Some (root_peer now k (Obj.get st k)) else Obj.get st k.
Proof.
  unfold add_roots. induction roots as [|a roots IH]; intros st Hn; cbn [foldl]; [by rewrite decide_False by set_solver|].
  apply NoDup_cons in Hn as [Ha Hn]. rewrite IH by done. unfold add_root. rewrite Obj.get_set.
  destruct (decide (k = a)) as [->|N].
  - rewrite bool_decide_eq_true_2, decide_False, decide_True by (done || left). done.
  - rewrite bool_decide_eq_false_2 by done. apply decide_ext. set_solver.
Qed.

Lemma lookup_spec_roots now R m k :
  spec_roots now R m !! k = if decide (k ∈ R) then Some (root_peer now k (m !! k)) else m !! k.
Proof.
  assert (forall p, (set_to_map (fun a => (a, root_peer now a (m !! a))) R : peer_map) !! k = Some p
            <-> k ∈ R /\ p = root_peer now k (m !! k)) as H.
  { intros p. rewrite lookup_set_to_map by (cbn; congruence). naive_solver. }
  unfold spec_roots. destruct (decide (k ∈ R)) as [Hk|Hk].
  - apply lookup_union_Some_l. by apply H.
  - apply lookup_union_r. apply eq_None_not_Some. intros [p Hp]. apply H in Hp. tauto.
Qed.

Lemma abs_roots now roots st :
  NoDup roots -> abs (add_roots now roots st) = spec_roots now (list_to_set roots) (abs st).
Proof.
  intros Hn. apply map_eq. intros k. rewrite lookup_spec_roots, !lookup_abs, get_roots by done.
  apply decide_ext. by rewrite elem_of_list_to_set.
Qed.

Lemma find_roots_NoDup doh cfg roots : find_roots doh cfg = Ok roots -> NoDup roots.
Proof.
  unfold find_roots. destruct (Dns.sampleSeedIps _ _ _ _) as [[sampled t]|]; rbind; [|done].
  destruct (Dns.resolveExtraSeedIps _ _ _) as [[extra t']|]; rbind; [|done].
  intros H. apply Ok_inj in H as <-. apply JsSet.add_all_NoDup, NoDup_nil_2.
Qed.

(** ** The candidates *)

Lemma wf_filter (P : jsstr * Peer -> bool) (st : store) : Obj.wf st -> Obj.wf (List.filter P st).
Proof.
  unfold Obj.wf, Obj.keys. induction st as [|[k p] st IH]; cbn; [done|].
  intros [Hk Hw]%NoDup_cons. destruct (P (k, p)); [|by apply IH]. cbn. apply NoDup_cons. split; [|by apply IH].
  intros ([k' p'] & -> & Hin)%list_elem_of_fmap. apply Hk. apply list_elem_of_In, List.filter_In in Hin as [Hin _].
  apply list_elem_of_fmap. exists (k', p'). by rewrite list_elem_of_In.
Qed.

Lemma abs_eligible cfg st :
  Obj.wf st -> abs (List.filter (fun kv => eligible cfg kv.2) st) = eligible_peers cfg (abs st).
Proof.
  intros Hw. apply map_eq. intros k. apply option_eq. intros p. unfold eligible_peers.
  rewrite map_lookup_filter_Some, !lookup_abs, !Obj.get_In by (done || by apply wf_filter).
  by rewrite !list_elem_of_In, List.filter_In.
Qed.

Lemma eligibles_keys cfg st :
  List.map c_key (eligibles cfg st) = Obj.keys (List.filter (fun kv => eligible cfg kv.2) st).
Proof. unfold eligibles, Obj.keys. by rewrite List.map_map. Qed.

Lemma eligibles_NoDup cfg st : Obj.wf st -> NoDup (List.map c_key (eligibles cfg st)).
Proof. intros Hw. rewrite eligibles_keys. by apply wf_filter. Qed.

Lemma eligibles_size cfg st : Obj.wf st -> length (eligibles cfg st) = size (eligible_peers cfg (abs st)).
Proof.
  intros Hw. rewrite <- (abs_eligible cfg st Hw). unfold abs. rewrite <- length_map_to_list.
  rewrite map_to_list_to_map by (by apply wf_filter). unfold eligibles. by rewrite List.length_map.
Qed.

Lemma allowed_le x n : (allowed x n <= n)%nat.
Proof. destruct x as [|[]|m e]; cbn; lia. Qed.

Lemma allowed_slice {A} (l : list A) x : slice_num l (js_max (num 0) x) = take (allowed x (length l)) l.
Proof.
  unfold js_max. change (num 0) with (Dyadic 0 0). destruct x as [|[]|m e]; cbn [allowed]; [done|done|by rewrite firstn_all|].
  rewrite <- take_take, (take_ge _ (length l)) by done. unfold js_ltb, slice_num. cbv zeta iota beta.
  pose proof (Z.pow_pos_nonneg 2 (e - Z.min 0 e) ltac:(lia) ltac:(lia)).
  destruct (_ <? m * _) eqn:E; zbool.
  - rewrite (proj2 (Z.ltb_ge _ _)); [done|]. apply dyadic_trunc_nonneg. nia.
  - pose proof (dyadic_trunc_nonpos m e ltac:(nia)). change (dyadic_trunc 0 0) with 0.
    by replace (Z.to_nat (dyadic_trunc m e)) with O by lia.
Qed.

Lemma candidates_take cfg st :
  candidates cfg st
  = take (allowed (maxPeersPerRun cfg) (length (eligibles cfg st))) (Sort.js_sort compare (eligibles cfg st)).
Proof.
  unfold candidates. rewrite allowed_slice.
  by rewrite (Permutation_length (Sort.sort_perm compare (eligibles cfg st))).
Qed.

Lemma sorted_take {A} (R : A -> A -> Prop) l n : StronglySorted R l -> StronglySorted R (take n l).
Proof.
  intros H. revert n. induction H as [|x l _ IH Hx]; intros [|n]; cbn; try constructor; [apply IH|].
  by apply Forall_take.
Qed.

Lemma before_sorted l :
  Forall (fun c => is_ip (c_network c) = true) l -> StronglySorted (Sort.before compare) l -> StronglySorted before l.
Proof.
  induction 2 as [|x l _ IH Hx]; constructor; apply Forall_cons_1 in H as [H1 H2]; [by apply IH|].
  rewrite Forall_forall in *. intros y Hy. apply compare_cases; [done|by apply H2|by apply Hx].
Qed.

Lemma candidates_chosen cfg st : Obj.wf st -> chosen cfg (abs st) (candidates cfg st).
Proof.
  intros Hw. pose proof (Sort.sort_perm compare (eligibles cfg st)) as Hp.
  assert (forall c, c ∈ candidates cfg st -> is_ip (c_network c) = true) as Hi.
  { intros c Hc. by eapply candidate_is_ip, candidates_elem. }
  split.
  - intros c (k & p & Hin & He & ->)%candidates_elem%eligibles_elem. exists p. split; [|done]. unfold eligible_peers.
    apply map_lookup_filter_Some. split; [|done]. rewrite lookup_abs. by apply Obj.get_In.
  - rewrite candidates_take, <- List.firstn_map. eapply sublist_NoDup; [|apply sublist_take].
    rewrite Hp. by apply eligibles_NoDup.
  - rewrite candidates_take, length_take, Hp, eligibles_size by done. apply Nat.min_l, allowed_le.
  - apply before_sorted; [by apply Forall_forall|]. rewrite candidates_take. apply sorted_take, eligibles_sorted.
  - intros c k p Hc Hk Hn. unfold eligible_peers in Hk. apply map_lookup_filter_Some in Hk as [Hk He]. cbn in He.
    assert (candidate k p ∈ eligibles cfg st) as Hel.
    { apply eligibles_elem. exists k, p. rewrite lookup_abs, Obj.get_In in Hk by done. done. }
    apply compare_cases; [by apply Hi|by eapply candidate_is_ip|].
    eapply (Sort.sorted_prefix compare _ (eligibles_sorted cfg st) (allowed (maxPeersPerRun cfg) (length (eligibles cfg st))));
      [by rewrite candidates_take in Hc|].
    rewrite <- Hp, <- (take_drop (allowed (maxPeersPerRun cfg) (length (eligibles cfg st))) (Sort.js_sort _ _)), elem_of_app in Hel.
    destruct Hel as [Hel|Hel]; [|done]. rewrite <- candidates_take in Hel. destruct Hn. apply list_elem_of_fmap.
    by exists (candidate k p).
Qed.

(** ** The crawl *)

Section Refinement.
Variable doh : nat -> jsstr -> Dns.QType -> Dns.DohResponse.
Variable crawl : nat -> jsstr -> jsnum -> res (option CrawlResult).

Lemma alter_twice (f g : Peer -> Peer) (k : jsstr) (m : peer_map) : alter f k (alter g k m) = alter (fun p => f (g p)) k m.
Proof.
  apply map_eq. intros k'. destruct (decide (k = k')) as [<-|N]; simplify_map_eq; [by destruct (m !! k)|done].
Qed.

Lemma abs_candidate cfg now n st c st' :
  crawl_candidate crawl cfg now n st c = Ok st' ->
  exists p result, abs st !! c_key c = Some p /\ crawl n (c_ip c) (port_of cfg p) = Ok result
    /\ abs st' = spec_visit now c result (abs st).
Proof.
  unfold crawl_candidate. rewrite <- lookup_abs. destruct (abs st !! c_key c) as [p|] eqn:Ep; [|done].
  destruct (crawl _ _ _) as [result|] eqn:Er; rbind; [|done].
  destruct (update st _ _) as [st1|] eqn:E1; rbind; [|done]. apply abs_update in E1 as (_ & _ & E1).
  intros H. exists p, result. split; [done|]. split; [done|]. destruct result as [r|]; cbn [spec_visit].
  - destruct (update st1 _ _) as [st2|] eqn:E2; rbind; [|done]. apply abs_update in E2 as (_ & _ & E2).
    apply Ok_inj in H as <-. by rewrite abs_learn_all, E2, E1, alter_twice.
  - apply abs_update in H as (_ & _ & ->). by rewrite E1, alter_twice.
Qed.

Lemma abs_crawl_all cfg now cs : forall n st st',
  crawl_all crawl cfg now n st cs = Ok st' -> spec_crawls crawl cfg now n (abs st) cs (abs st').
Proof.
  induction cs as [|c cs IH]; intros n st st'; cbn [crawl_all].
  - intros H. apply Ok_inj in H as <-. constructor.
  - destruct (crawl_candidate _ _ _ _ _ _) as [st1|] eqn:E; rbind; [|done].
    apply abs_candidate in E as (p & result & Ep & Er & E). intros H%IH. rewrite E in H.
    by eapply spec_crawls_cons.
Qed.

Lemma wf_roots now roots st : Obj.wf st -> Obj.wf (heal_all (add_roots now roots st)).
Proof.
  intros Hw. unfold Obj.wf. rewrite keys_heal_all. unfold add_roots.
  revert st Hw. induction roots as [|a roots IH]; intros st Hw; cbn; [done|]. by apply IH, Obj.set_wf.
Qed.

(** ** Refinement *)

(** C5: a run of [advanceCrawl] that returns is a run of the specification:
    read as finite maps, its store before and its store after are related by
    it, with the roots the seeds resolve to, a choice of the best candidates
    and the answers of the network. *)
Theorem advanceCrawl_refines cfg now_ms st st' :
  Obj.wf st -> advanceCrawl doh crawl cfg now_ms st = Ok st' ->
  spec_run doh crawl cfg now_ms (abs st) (abs st').
Proof.
  intros Hw (roots & s1 & s2 & Hr & -> & Hc & ->)%advanceCrawl_steps.
  assert (abs (heal_all (add_roots (now_ms / 1000) roots st))
          = spec_heal (spec_roots (now_ms / 1000) (list_to_set roots) (abs st))) as E1.
  { by rewrite abs_heal, abs_roots by (by eapply find_roots_NoDup). }
  exists roots, (candidates cfg (heal_all (add_roots (now_ms / 1000) roots st))), (abs s2).
  cbv zeta. rewrite <- E1. split_and!; [done| | |by rewrite abs_prune].
  - by apply candidates_chosen, wf_roots.
  - by apply abs_crawl_all.
Qed.

End Refinement.

(** ** Witness *)

Lemma advanceCrawl_refines_witness :
  Obj.keys example_after = [jss "9.9.9.9"; jss "1.2.3.4"; jss "ab"]
  /\ spec_run Dns.example_doh example_crawl example_cfg 10000000000 (abs example_store) (abs example_after).
Proof.
  split; [vm_compute; reflexivity|].
  apply (advanceCrawl_refines Dns.example_doh example_crawl example_cfg 10000000000 example_store example_after);
    [apply example_peers|vm_compute; reflexivity].
Defined.

End CrawlSpec.
