(* ===== verification/Geo.v ===== *)
(** * Geolocation ([worker/src/geo.js])

    Three services are tried in turn; results are cached.  The services are
    functions of the ordinal of the lookup and of the address; their replies
    have the fields the code reads. *)

From Stdlib Require Import String.
From S2P Require Import Prelude Numbers JsText Collections.

Module Geo.

(** A value that is tested with [typeof v === 'number']. *)
Inductive coord := Number (n : jsnum) | NotNumber.

Record IpApi := {
  i_status : option jsstr; i_country : option jsstr; i_countryCode : option jsstr;
  i_lat : coord; i_lon : coord
}.
Record IpWho := {
  w_success : option bool; w_country : option jsstr; w_country_code : option jsstr;
  w_latitude : coord; w_longitude : coord
}.
Record IpApiCo := {
  a_error : option bool; a_country_name : option jsstr; a_country_code : option jsstr;
  a_latitude : coord; a_longitude : coord
}.

(** What [fetch] and [res.json()] give. *)
Inductive http (R : Type) :=
  | HttpReject               (** the fetch or the decoding is rejected *)
  | HttpStatus (status : Z)  (** [!res.ok] *)
  | HttpJson (body : option R).  (** [None] is the JSON value [null] *)
Arguments HttpReject {R}.
Arguments HttpStatus {R} status.
Arguments HttpJson {R} body.

Definition fetchJson {R} (r : http R) : option R :=
  match r with HttpJson body => body | HttpReject | HttpStatus _ => None end.

Record GeoServices := {
  ip_api : nat -> jsstr -> http IpApi;
  ipwho_is : nat -> jsstr -> http IpWho;
  ipapi_co : nat -> jsstr -> http IpApiCo
}.

Record GeoInfo := { country : option jsstr; countryCode : jsstr; lat : option jsnum; lon : option jsnum }.

(** A cache entry; [at] is absent in entries of other origin. *)
Record GeoEntry := { info : GeoInfo; at_time : option Z }.
Abbreviation cache := (list (jsstr * GeoEntry)).

Definition number_or_null (c : coord) : option jsnum :=
  match c with Number n => Some n | NotNumber => None end.

Definition use_ip_api (i : IpApi) : option GeoInfo :=
  if bool_decide (i_status i = Some (jss "success")) then
    match truthy (i_countryCode i) with
    | Some code => Some {| country := i_country i; countryCode := code;
                           lat := number_or_null (i_lat i); lon := number_or_null (i_lon i) |}
    | None => None
    end
  else None.

Definition use_ipwho_is (w : IpWho) : option GeoInfo :=
  if bool_decide (w_success w = Some true) then
    match truthy (w_country_code w) with
    | Some code => Some {| country := w_country w; countryCode := code;
                           lat := number_or_null (w_latitude w); lon := number_or_null (w_longitude w) |}
    | None => None
    end
  else None.

Definition use_ipapi_co (a : IpApiCo) : option GeoInfo :=
  if negb (default false (a_error a)) then
    match truthy (a_country_code a) with
    | Some code => Some {| country := a_country_name a; countryCode := code;
                           lat := number_or_null (a_latitude a); lon := number_or_null (a_longitude a) |}
    | None => None
    end
  else None.

Section WithServices.
Variable services : GeoServices.

(** The result, and the number of requests made for it. *)
Definition lookupGeoOne (n : nat) (ip : jsstr) : option GeoInfo * Z :=
  match fetchJson (ip_api services n ip) ≫= use_ip_api with
  | Some g => (Some g, 1)
  | None =>
    match fetchJson (ipwho_is services n ip) ≫= use_ipwho_is with
    | Some g => (Some g, 2)
    | None => (fetchJson (ipapi_co services n ip) ≫= use_ipapi_co, 3)
    end
  end.

Definition is_fresh (now : Z) (ttlSeconds : jsnum) (cached : option GeoEntry) : bool :=
  match cached with
  | Some e => js_ltb (num (now - default 0 (at_time e))) ttlSeconds
  | None => false
  end.

(** The first loop: what the cache gives, and what is to be looked up. *)
Definition split_step (geoCache : cache) (now : Z) (ttlSeconds : jsnum) (acc : cache * list jsstr) (ip : jsstr)
    : cache * list jsstr :=
  let '(result, toLookup) := acc in
  match Obj.get geoCache ip with
  | Some cached =>
    if js_ltb (num (now - default 0 (at_time cached))) ttlSeconds
    then (Obj.set result ip cached, toLookup)
    else (result, toLookup ++ [ip])
  | None => (result, toLookup ++ [ip])
  end.

(** The second loop: the result and the number of requests. *)
Fixpoint lookup_loop (now : Z) (n : nat) (ips : list jsstr) (result : cache) : cache * Z :=
  match ips with
  | [] => (result, 0)
  | ip :: ips' =>
    let '(geo, k) := lookupGeoOne n ip in
    let result := match geo with
                  | Some g => Obj.set result ip {| info := g; at_time := Some now |}
                  | None => result
                  end in
    let '(result, k') := lookup_loop now (S n) ips' result in
    (result, k + k')
  end.

Definition resolveGeo (ips : list jsstr) (geoCache : cache) (ttlDays maxLookups : jsnum) (now_ms : Z) : cache * Z :=
  let now := now_ms / 1000 in
  let ttlSeconds := js_mul ttlDays (num 86400) in
  let '(result, toLookup) := foldl (split_step geoCache now ttlSeconds) ([], []) ips in
  lookup_loop now 0 (slice_num toLookup maxLookups) result.

(** ** Lemmas *)

Definition stale (geoCache : cache) (now : Z) (ttl : jsnum) (ip : jsstr) : bool :=
  negb (is_fresh now ttl (Obj.get geoCache ip)).

Lemma split_spec geoCache now ttl ips : forall result toLookup,
  let '(r, t) := foldl (split_step geoCache now ttl) (result, toLookup) ips in
  t = toLookup ++ List.filter (stale geoCache now ttl) ips
  /\ (Obj.wf result -> Obj.wf r)
  /\ forall ip, Obj.get r ip = if bool_decide (ip ∈ ips) && negb (stale geoCache now ttl ip)
                               then Obj.get geoCache ip else Obj.get result ip.
Proof.
  induction ips as [|x ips IH]; intros result toLookup; cbn [foldl].
  - rewrite app_nil_r. split_and!; auto.
  - assert (forall ip, ip <> x -> bool_decide (ip ∈ x :: ips) = bool_decide (ip ∈ ips)) as Hne.
    { intros. apply bool_decide_ext. set_solver. }
    unfold split_step at 2. unfold stale, is_fresh in *.
    destruct (Obj.get geoCache x) as [e|] eqn:E; [destruct (js_ltb _ ttl) eqn:El|].
    + specialize (IH (Obj.set result x e) toLookup).
      destruct (foldl _ _ ips) as [r t]. destruct IH as (-> & Hw & Hg).
      cbn [List.filter]. rewrite E, El. cbn [negb]. split_and!; [done|intros; by apply Hw, Obj.set_wf|].
      intros ip. rewrite Hg, Obj.get_set. destruct (decide (ip = x)) as [->|N].
      * rewrite E, El, (bool_decide_eq_true_2 (x ∈ x :: ips)), (bool_decide_eq_true_2 (x = x)) by set_solver.
        cbn. by destruct (bool_decide _).
      * by rewrite Hne, (bool_decide_eq_false_2 (ip = x)).
    + specialize (IH result (toLookup ++ [x])).
      destruct (foldl _ _ ips) as [r t]. destruct IH as (-> & Hw & Hg).
      cbn [List.filter]. rewrite E, El. cbn [negb]. split_and!; [by rewrite <- app_assoc|done|].
      intros ip. rewrite Hg. destruct (decide (ip = x)) as [->|N]; [|by rewrite Hne].
      rewrite E, El. cbn. by rewrite !andb_false_r.
    + specialize (IH result (toLookup ++ [x])).
      destruct (foldl _ _ ips) as [r t]. destruct IH as (-> & Hw & Hg).
      cbn [List.filter]. rewrite E. cbn [negb]. split_and!; [by rewrite <- app_assoc|done|].
      intros ip. rewrite Hg. destruct (decide (ip = x)) as [->|N]; [|by rewrite Hne].
      rewrite E. cbn. by rewrite !andb_false_r.
Qed.

Lemma lookupGeoOne_requests n ip : 1 <= (lookupGeoOne n ip).2 <= 3.
Proof. unfold lookupGeoOne. repeat case_match; cbn; lia. Qed.

Lemma lookup_loop_spec now ips : forall n result, NoDup ips ->
  let '(r, k) := lookup_loop now n ips result in
  (Obj.wf result -> Obj.wf r) /\ len ips <= k <= 3 * len ips
  /\ forall ip, Obj.get r ip =
       match list_find (eq ip) ips with
       | Some (i, _) => match (lookupGeoOne (n + i) ip).1 with
                        | Some g => Some {| info := g; at_time := Some now |}
                        | None => Obj.get result ip
                        end
       | None => Obj.get result ip
       end.
Proof.
  induction ips as [|x ips IH]; intros n result Hn; cbn [lookup_loop].
  - rewrite len_nil. split_and!; [done|lia..|done].
  - apply NoDup_cons in Hn as [Hx Hn]. pose proof (lookupGeoOne_requests n x) as Hk.
    destruct (lookupGeoOne n x) as [geo k] eqn:Eg. cbn in Hk.
    set (result' := match geo with Some g => _ | None => result end).
    specialize (IH (S n) result' Hn). destruct (lookup_loop now (S n) ips result') as [r k'].
    destruct IH as (Hw & Hb & Hg). rewrite len_cons. split_and!; [|lia..|].
    + intros H. apply Hw. unfold result'. destruct geo; [by apply Obj.set_wf|done].
    + intros ip. rewrite Hg. cbn [list_find]. destruct (decide (ip = x)) as [->|N].
      * rewrite Nat.add_0_r, Eg. cbn [fst].
        assert (list_find (eq x) ips = None) as ->.
        { apply list_find_None, Forall_forall. intros y Hy ->. done. }
        unfold result'. destruct geo; [by rewrite Obj.get_set_eq|done].
      * assert (Obj.get result' ip = Obj.get result ip) as ->.
        { unfold result'. destruct geo; [by rewrite Obj.get_set_ne|done]. }
        destruct (list_find (eq ip) ips) as [[i y]|]; cbn; [|done]. by rewrite Nat.add_succ_r.
Qed.

Lemma lookup_loop_failing now :
  (forall n ip, fetchJson (ip_api services n ip) ≫= use_ip_api = None) ->
  (forall n ip, fetchJson (ipwho_is services n ip) ≫= use_ipwho_is = None) ->
  forall ips n result, (lookup_loop now n ips result).2 = 3 * len ips.
Proof.
  intros H1 H2. induction ips as [|x ips IH]; intros n result; [done|]. cbn [lookup_loop].
  unfold lookupGeoOne. rewrite H1, H2. rewrite len_cons.
  set (result' := match _ with Some g => _ | None => result end).
  specialize (IH (S n) result'). destruct (lookup_loop now (S n) ips result'). cbn in *. lia.
Qed.

(** ** Correctness of the geolocation *)

(** The addresses without a fresh cache entry, in order. *)
Definition to_look_up (ips : list jsstr) (geoCache : cache) (ttlDays : jsnum) (now_ms : Z) : list jsstr :=
  List.filter (stale geoCache (now_ms / 1000) (js_mul ttlDays (num 86400))) ips.

(** For distinct addresses the result has, for each, the cache entry while
    it is fresh; otherwise, for those of the others [maxLookups] allows, the
    answer of the services stamped with the current time; and nothing else.
    At most three requests per lookup are made, and an integer [maxLookups] of
    0 or more is the number of lookups allowed. *)
Theorem resolveGeo_spec ips geoCache ttlDays maxLookups now_ms :
  NoDup ips ->
  let '(r, requests) := resolveGeo ips geoCache ttlDays maxLookups now_ms in
  let looked := slice_num (to_look_up ips geoCache ttlDays now_ms) maxLookups in
  Obj.wf r /\ requests <= 3 * len looked
  /\ (forall n, safe n -> 0 <= n -> maxLookups = num n -> len looked <= n)
  /\ forall ip, Obj.get r ip =
       match list_find (eq ip) looked with
       | Some (i, _) => (fun g => {| info := g; at_time := Some (now_ms / 1000) |})
                        <$> (lookupGeoOne i ip).1
       | None => if bool_decide (ip ∈ ips)
                    && negb (stale geoCache (now_ms / 1000) (js_mul ttlDays (num 86400)) ip)
                 then Obj.get geoCache ip else None
       end.
Proof.
  intros Hn. unfold resolveGeo, to_look_up.
  pose proof (split_spec geoCache (now_ms / 1000) (js_mul ttlDays (num 86400)) ips [] []) as Hs.
  destruct (foldl _ _ ips) as [r0 t]. destruct Hs as (-> & Hw & Hg). cbn [app].
  set (looked := slice_num _ maxLookups).
  assert (NoDup looked) as Hl.
  { unfold looked. apply NoDup_ListNoDup, List.NoDup_filter with (f := stale geoCache (now_ms / 1000) (js_mul ttlDays (num 86400))) in Hn.
    apply NoDup_ListNoDup in Hn. rewrite slice_num_take. eapply sublist_NoDup; [exact Hn|apply sublist_take]. }
  pose proof (lookup_loop_spec (now_ms / 1000) looked 0 r0 Hl) as Hk.
  destruct (lookup_loop _ _ _ _) as [r k]. destruct Hk as (Hw' & Hb & Hr).
  split; [apply Hw', Hw; constructor|]. split; [lia|]. split.
  { intros n Hs Hp ->. unfold looked, len. rewrite slice_num_int, length_take by done. lia. }
  intros ip. rewrite Hr, Hg.
  destruct (list_find (eq ip) looked) as [[i y]|] eqn:Ef; [|done]. cbn [Nat.add].
  destruct (lookupGeoOne i ip).1; [done|].
  apply list_find_Some in Ef as (Ei & <- & _). apply list_elem_of_lookup_2 in Ei.
  assert (ip ∈ List.filter (stale geoCache (now_ms / 1000) (js_mul ttlDays (num 86400))) ips) as Hin.
  { by eapply slice_num_elem. }
  apply list_elem_of_In, List.filter_In in Hin as [_ ->]. by rewrite andb_false_r.
Qed.

(** The bound is reached: while ip-api.com and ipwho.is do not answer
    usably, a call with enough addresses to look up makes exactly three
    requests per lookup. *)
Theorem resolveGeo_worst_case ips geoCache ttlDays n now_ms :
  (forall n ip, fetchJson (ip_api services n ip) ≫= use_ip_api = None) ->
  (forall n ip, fetchJson (ipwho_is services n ip) ≫= use_ipwho_is = None) ->
  safe n -> 0 <= n <= len (to_look_up ips geoCache ttlDays now_ms) ->
  (resolveGeo ips geoCache ttlDays (num n) now_ms).2 = 3 * n.
Proof.
  intros H1 H2 Hs' Hm. unfold resolveGeo, to_look_up in *.
  pose proof (split_spec geoCache (now_ms / 1000) (js_mul ttlDays (num 86400)) ips [] []) as Hs.
  destruct (foldl _ _ ips) as [r0 t]. destruct Hs as (-> & _ & _). cbn [app].
  rewrite slice_num_int by (done || lia).
  rewrite (lookup_loop_failing _ H1 H2). unfold len in *. rewrite length_take. lia.
Qed.

End WithServices.

(** ip-api.com is unreachable, ipwho.is refuses, ipapi.co answers. *)
Definition example_services : GeoServices :=
  {| ip_api := fun _ _ => HttpReject;
     ipwho_is := fun _ _ => HttpStatus 403;
     ipapi_co := fun _ _ => HttpJson (Some
       {| a_error := None; a_country_name := Some (jss "Germany"); a_country_code := Some (jss "DE");
          a_latitude := Number (num 52); a_longitude := NotNumber |}) |}.

Lemma resolveGeo_worst_case_witness :
  (resolveGeo example_services [jss "1.2.3.4"; jss "5.6.7.8"] [] (num 30) (num 2) 5000).2 = 3 * 2.
Proof.
  apply (resolveGeo_worst_case example_services [jss "1.2.3.4"; jss "5.6.7.8"] [] (num 30) 2 5000);
    [reflexivity|reflexivity|unfold safe; lia|vm_compute; split; discriminate].
Defined.

Lemma resolveGeo_spec_witness :
  let '(r, requests) := resolveGeo example_services [jss "1.2.3.4"; jss "5.6.7.8"] [] (num 30) (num 1) 5000 in
  let looked := slice_num (to_look_up [jss "1.2.3.4"; jss "5.6.7.8"] [] (num 30) 5000) (num 1) in
  Obj.wf r /\ requests <= 3 * len looked
  /\ (forall n, safe n -> 0 <= n -> num 1 = num n -> len looked <= n)
  /\ forall ip, Obj.get r ip =
       match list_find (eq ip) looked with
       | Some (i, _) => (fun g => {| info := g; at_time := Some (5000 / 1000) |})
                        <$> (lookupGeoOne example_services i ip).1
       | None => if bool_decide (ip ∈ [jss "1.2.3.4"; jss "5.6.7.8"])
                    && negb (stale [] (5000 / 1000) (js_mul (num 30) (num 86400)) ip)
                 then Obj.get [] ip else None
       end.
Proof.
  apply (resolveGeo_spec example_services [jss "1.2.3.4"; jss "5.6.7.8"] [] (num 30) (num 1) 5000).
  apply (bool_decide_unpack _); vm_compute; exact I.
Defined.

End Geo.
