(* ===== verification/Snapshot.v ===== *)
(** * The public snapshot ([worker/src/snapshot.js])

    The online peers of the store with their countries, and the counts shown
    beside the map. *)

From Stdlib Require Import String Sorting.Sorted.
From S2P Require Import Prelude Numbers JsText Collections Messages Peers Geo.
Import Messages Peers Geo.

Module Snapshot.

Record SnapshotConfig := { geoTtlDays : jsnum; maxGeoLookupsPerRun : jsnum; onlineWindowHours : jsnum }.

Record Node := {
  n_network : Network;
  n_ip : option jsstr;
  n_address : option jsstr;
  n_port : option Z;
  n_firstSeen : option Z;
  n_lastSeen : option Z;
  n_subver : option jsstr;
  n_startHeight : option Z;
  n_depth : option Z;
  n_parent : option jsstr;
  n_country : option jsstr;
  n_countryCode : option jsstr;
  n_lat : option jsnum;
  n_lon : option jsnum
}.

Record CountryCount := { code : jsstr; name : option jsstr; count : Z }.

(** [generatedAt] is kept as the time in milliseconds its text stands for;
    [None] is a text [Date.parse] does not understand. *)
Record SnapshotData := {
  generatedAt : option Z;
  totalKnown : Z;
  onlineCount : Z;
  networkCounts : list (jsstr * Z);
  countries : list CountryCount;
  nodes : list Node
}.

Definition network_name (n : Network) : jsstr :=
  match n with
  | ipv4 => jss "ipv4" | ipv6 => jss "ipv6" | tor => jss "tor" | i2p => jss "i2p" | cjdns => jss "cjdns"
  end.

(** The keys that are geolocated. *)
Definition geoableKeys (st : store) : list jsstr :=
  Obj.keys (List.filter (fun kv => is_ip (inferNetwork kv.1 kv.2)) st).

(** [g], where [g.countryCode] is not empty. *)
Definition located (g : option GeoEntry) : option GeoInfo :=
  match g with
  | Some e => if bool_decide (countryCode (info e) = []) then None else Some (info e)
  | None => None
  end.

Definition make_node (key : jsstr) (rec : Peer) (network : Network) (g : option GeoEntry) : Node :=
  let ip := match ip rec with
            | Some text => Some text
            | None => match network with ipv4 | ipv6 | cjdns => Some key | _ => None end
            end in
  {| n_network := network; n_ip := ip;
     n_address := match network with i2p => Some key | tor => None | _ => ip end;
     n_port := port rec; n_firstSeen := firstSeen rec; n_lastSeen := lastSeen rec;
     n_subver := p_subver rec; n_startHeight := p_startHeight rec; n_depth := depth rec;
     n_parent := parent rec;
     n_country := g ≫= (fun e => country (info e)); n_countryCode := (fun e => countryCode (info e)) <$> g;
     n_lat := g ≫= (fun e => lat (info e)); n_lon := g ≫= (fun e => lon (info e)) |}.

(** [if (!countryCounts[code]) ...; countryCounts[code].count++] *)
Definition count_country (counts : list (jsstr * CountryCount)) (g : GeoInfo)
    : list (jsstr * CountryCount) :=
  let c := match Obj.get counts (countryCode g) with
           | Some c => c
           | None => {| code := countryCode g; name := country g; count := 0 |}
           end in
  Obj.set counts (countryCode g) {| code := code c; name := name c; count := count c + 1 |}.

(** The loop body on one entry of the store. *)
Definition visit (merged : cache) (onlineCutoff : jsnum)
    (acc : list (jsstr * CountryCount) * list Node) (kv : jsstr * Peer)
    : list (jsstr * CountryCount) * list Node :=
  let '(counts, nodes) := acc in
  let '(key, rec) := kv in
  if js_ltb (num (default 0 (lastSeen rec))) onlineCutoff then acc
  else
    let network := inferNetwork key rec in
    let g := if is_ip network then Obj.get merged key else None in
    match located g with
    | None => if is_ip network then acc else (counts, nodes ++ [make_node key rec network g])
    | Some i => (count_country counts i, nodes ++ [make_node key rec network g])
    end.

Definition count_network (counts : list (jsstr * Z)) (n : Node) : list (jsstr * Z) :=
  Obj.set counts (network_name (n_network n)) (default 0 (Obj.get counts (network_name (n_network n))) + 1).

(** The comparator of the countries. *)
Definition by_count (a b : CountryCount) : Z := count b - count a.

(** The part after the geolocation. *)
Definition build (st : store) (merged : cache) (onlineCutoff : jsnum) (generated_ms : Z) : SnapshotData :=
  let '(counts, nodes) := foldl (visit merged onlineCutoff) ([], []) st in
  {| generatedAt := Some generated_ms;
     totalKnown := len (Obj.keys st);
     onlineCount := len nodes;
     networkCounts := foldl count_network [] nodes;
     countries := Sort.js_sort by_count (Obj.values counts);
     nodes := nodes |}.

Definition online_cutoff (cfg : SnapshotConfig) (now : Z) : jsnum :=
  js_sub (num now) (js_mul (onlineWindowHours cfg) (num 3600)).

(** The three readings of the clock are arguments; the number of requests is
    returned beside the result. *)
Definition rebuildSnapshot (services : GeoServices) (st : store) (geoCache : cache) (cfg : SnapshotConfig)
    (now_ms geo_now_ms generated_ms : Z) : SnapshotData * cache * Z :=
  let now := now_ms / 1000 in
  let '(geo, requests) := resolveGeo services (geoableKeys st) geoCache (geoTtlDays cfg)
                            (maxGeoLookupsPerRun cfg) geo_now_ms in
  let merged := Obj.assign (Obj.assign [] geoCache) geo in
  (build st merged (online_cutoff cfg now) generated_ms, merged, requests).

(** ** Lemmas *)

(** The entry of the cache a peer is shown with. *)
Definition geo_of (merged : cache) (kv : jsstr * Peer) : option GeoEntry :=
  if is_ip (inferNetwork kv.1 kv.2) then Obj.get merged kv.1 else None.

(** The peer is online, and located if it has an IP address. *)
Definition listed (merged : cache) (onlineCutoff : jsnum) (kv : jsstr * Peer) : bool :=
  negb (js_ltb (num (default 0 (lastSeen kv.2))) onlineCutoff)
  && (negb (is_ip (inferNetwork kv.1 kv.2)) || bool_decide (is_Some (located (geo_of merged kv)))).

Definition node_of (merged : cache) (kv : jsstr * Peer) : Node :=
  make_node kv.1 kv.2 (inferNetwork kv.1 kv.2) (geo_of merged kv).

Definition in_country (c : jsstr) (n : Node) : bool := bool_decide (n_countryCode n = Some c).

Lemma visit_cases merged cutoff counts ns kv :
  visit merged cutoff (counts, ns) kv
  = if listed merged cutoff kv
    then (match located (geo_of merged kv) with Some i => count_country counts i | None => counts end,
          ns ++ [node_of merged kv])
    else (counts, ns).
Proof.
  destruct kv as [key rec]. unfold visit, listed, node_of, geo_of. cbn [fst snd].
  destruct (js_ltb _ _); cbn [negb andb]; [done|].
  destruct (is_ip (inferNetwork key rec)); cbn [negb orb]; [|done].
  destruct (located _) as [i|]; [by rewrite bool_decide_eq_true_2|].
  rewrite bool_decide_eq_false_2; [done|]. by intros [? ?].
Qed.

Lemma located_code merged kv i :
  located (geo_of merged kv) = Some i -> n_countryCode (node_of merged kv) = Some (countryCode i).
Proof.
  unfold located, node_of, make_node. cbn. destruct (geo_of merged kv) as [e|]; [|done].
  case_bool_decide; [done|]. intros. by simplify_eq.
Qed.

Lemma unlocated_code merged cutoff kv :
  listed merged cutoff kv = true -> located (geo_of merged kv) = None -> n_countryCode (node_of merged kv) = None.
Proof.
  unfold listed. intros [_ H]%andb_true_iff E. rewrite E in H.
  rewrite bool_decide_eq_false_2, orb_false_r in H by (by intros [? ?]).
  unfold node_of, make_node, geo_of. cbn. destruct (is_ip _); done.
Qed.
Definition count_at (counts : list (jsstr * CountryCount)) (c : jsstr) : Z :=
  match Obj.get counts c with Some e => count e | None => 0 end.

(** One entry per code, filed under its code, and counted at least once. *)
Definition counts_ok (counts : list (jsstr * CountryCount)) : Prop :=
  Obj.wf counts /\ forall c e, Obj.get counts c = Some e -> code e = c /\ 0 < count e.

Lemma count_country_ok counts g : counts_ok counts -> counts_ok (count_country counts g).
Proof.
  intros [Hw Hc]. split; [by apply Obj.set_wf|]. intros c e. unfold count_country. rewrite Obj.get_set.
  case_bool_decide; [|apply Hc]. intros. simplify_eq. cbn.
  destruct (Obj.get counts (countryCode g)) as [e|] eqn:E; cbn; [|split; [done|lia]]. apply Hc in E as [? ?]. split; [done|lia].
Qed.

Lemma count_country_at counts g c :
  count_at (count_country counts g) c = count_at counts c + (if bool_decide (c = countryCode g) then 1 else 0).
Proof.
  unfold count_at, count_country. rewrite Obj.get_set. case_bool_decide; subst; cbn.
  - by destruct (Obj.get counts (countryCode g)).
  - lia.
Qed.

Lemma visit_all merged cutoff st : forall counts ns, counts_ok counts ->
  let '(counts', ns') := foldl (visit merged cutoff) (counts, ns) st in
  let shown := List.map (node_of merged) (List.filter (listed merged cutoff) st) in
  ns' = ns ++ shown /\ counts_ok counts'
  /\ forall c, count_at counts' c = count_at counts c + len (List.filter (in_country c) shown).
Proof.
  induction st as [|kv st IH]; intros counts ns Hok; cbn [foldl].
  - cbn [List.filter List.map]. rewrite app_nil_r. split_and!; auto. intros. rewrite len_nil. lia.
  - rewrite visit_cases. cbn [List.filter]. destruct (listed merged cutoff kv) eqn:El; [|by apply IH].
    cbn [List.map List.filter].
    destruct (located (geo_of merged kv)) as [i|] eqn:Ei.
    + specialize (IH (count_country counts i) (ns ++ [node_of merged kv]) (count_country_ok _ _ Hok)).
      destruct (foldl _ _ st) as [counts' ns']. destruct IH as (-> & Hok' & Hc).
      split_and!; [by rewrite <- app_assoc|done|]. intros c. rewrite Hc, count_country_at.
      unfold in_country at 2. rewrite (located_code _ _ _ Ei).
      rewrite (bool_decide_ext (Some (countryCode i) = Some c) (c = countryCode i)) by naive_solver.
      case_bool_decide; rewrite ?len_cons; lia.
    + specialize (IH counts (ns ++ [node_of merged kv]) Hok).
      destruct (foldl _ _ st) as [counts' ns']. destruct IH as (-> & Hok' & Hc).
      split_and!; [by rewrite <- app_assoc|done|]. intros c. rewrite Hc.
      unfold in_country at 2. by rewrite (unlocated_code _ _ _ El Ei).
Qed.

Lemma network_name_inj n n' : network_name n = network_name n' -> n = n'.
Proof. destruct n, n'; vm_compute; congruence. Qed.

Definition has_network (n : Network) (x : Node) : bool := bool_decide (n_network x = n).

Lemma count_networks ns : forall counts n,
  default 0 (Obj.get (foldl count_network counts ns) (network_name n))
  = default 0 (Obj.get counts (network_name n)) + len (List.filter (has_network n) ns).
Proof.
  induction ns as [|x ns IH]; intros counts n; cbn [foldl List.filter]; [unfold len; cbn [length]; lia|].
  rewrite IH. unfold count_network, has_network. rewrite Obj.get_set. case_bool_decide as E.
  - apply network_name_inj in E as <-. rewrite bool_decide_eq_true_2 by done. rewrite len_cons. cbn [from_option]. unfold id. lia.
  - rewrite bool_decide_eq_false_2; [done|]. intros En. apply E. by rewrite En.
Qed.

Lemma build_spec st merged cutoff t :
  let s := build st merged cutoff t in
  nodes s = List.map (node_of merged) (List.filter (listed merged cutoff) st)
  /\ onlineCount s = len (nodes s) /\ totalKnown s = len st
  /\ exists counts, counts_ok counts /\ countries s = Sort.js_sort by_count (Obj.values counts)
     /\ forall c, count_at counts c = len (List.filter (in_country c) (nodes s)).
Proof.
  unfold build. pose proof (visit_all merged cutoff st [] []) as H.
  destruct (foldl _ _ st) as [counts ns]. destruct H as (-> & Hok & Hc).
  { split; [constructor|done]. }
  cbn. split_and!; [done|done|unfold Obj.keys, len; by rewrite List.length_map|].
  exists counts. split_and!; [done|done|]. intros c. rewrite Hc. done.
Qed.

Lemma by_count_sorted l : StronglySorted (fun a b => count b <= count a) (Sort.js_sort by_count l).
Proof.
  assert (StronglySorted (Sort.before by_count) (Sort.js_sort by_count l)) as H.
  { apply (Sort.sort_sorted by_count (fun _ => True)); unfold by_count; [lia..|by apply Forall_forall]. }
  induction H as [|a l' _ IH Ha]; constructor; [done|].
  eapply Forall_impl; [exact Ha|]. unfold Sort.before, by_count. intros. cbn. lia.
Qed.

(** ** Correctness of the snapshot *)

(** The nodes are exactly the online peers of the store, in its order,
    except IPv4 and IPv6 peers without a known country; the totals are the
    numbers of nodes and of known peers, and the network counts are the numbers
    of nodes of each network. *)
Theorem snapshot_nodes services st geoCache cfg now_ms geo_now_ms generated_ms :
  let '(s, merged, _) := rebuildSnapshot services st geoCache cfg now_ms geo_now_ms generated_ms in
  nodes s = List.map (node_of merged)
              (List.filter (listed merged (online_cutoff cfg (now_ms / 1000))) st)
  /\ onlineCount s = len (nodes s) /\ totalKnown s = len st
  /\ forall n, default 0 (Obj.get (networkCounts s) (network_name n)) = len (List.filter (has_network n) (nodes s)).
Proof.
  unfold rebuildSnapshot. destruct (resolveGeo _ _ _ _ _ _) as [geo k].
  destruct (build_spec st (Obj.assign (Obj.assign [] geoCache) geo)
              (online_cutoff cfg (now_ms / 1000)) generated_ms) as (? & ? & ? & _).
  split_and!; try done. intros n. unfold build. destruct (foldl _ _ st) as [counts ns]. cbn. by rewrite count_networks.
Qed.

(** The countries are listed without repetition, by descending count, and
    the count of each is the number of nodes in it; every country of a node is
    listed. *)
Theorem snapshot_countries services st geoCache cfg now_ms geo_now_ms generated_ms :
  let '(s, _, _) := rebuildSnapshot services st geoCache cfg now_ms geo_now_ms generated_ms in
  NoDup (List.map code (countries s))
  /\ StronglySorted (fun a b => count b <= count a) (countries s)
  /\ (forall e, e ∈ countries s -> count e = len (List.filter (in_country (code e)) (nodes s)) /\ 0 < count e)
  /\ (forall n c, n ∈ nodes s -> n_countryCode n = Some c -> c ∈ List.map code (countries s)).
Proof.
  unfold rebuildSnapshot. destruct (resolveGeo _ _ _ _ _ _) as [geo k].
  destruct (build_spec st (Obj.assign (Obj.assign [] geoCache) geo)
              (online_cutoff cfg (now_ms / 1000)) generated_ms)
    as (_ & _ & _ & counts & [Hw Hok] & -> & Hc).
  set (s := build _ _ _ _) in *.
  assert (List.map code (Obj.values counts) = Obj.keys counts) as Hk.
  { unfold Obj.values, Obj.keys. rewrite List.map_map. apply List.map_ext_in. intros [c e] Hin.
    apply list_elem_of_In, (Obj.get_In _ _ _ Hw), Hok in Hin. cbn. tauto. }
  assert (List.map code (Sort.js_sort by_count (Obj.values counts)) ≡ₚ Obj.keys counts) as Hp.
  { by rewrite Sort.sort_perm, Hk. }
  split; [by rewrite Hp|]. split; [|split].
  - apply by_count_sorted.
  - intros e He. apply Sort.sort_elem_of in He. apply list_elem_of_fmap in He as ([c e'] & -> & Hin).
    apply (Obj.get_In _ _ _ Hw) in Hin. pose proof (Hok _ _ Hin) as [E1 E2]. cbn in *.
    rewrite E1, <- Hc. unfold count_at. by rewrite Hin.
  - intros n c Hn Ec. rewrite Hp. destruct (decide (c ∈ Obj.keys counts)) as [|N]; [done|].
    apply Obj.get_None in N. specialize (Hc c). unfold count_at in Hc. rewrite N in Hc.
    assert (n ∈ List.filter (in_country c) (nodes s)) as Hin.
    { apply list_elem_of_In, List.filter_In. split; [by apply list_elem_of_In|]. by apply bool_decide_eq_true_2. }
    destruct (List.filter (in_country c) (nodes s)); [by apply elem_of_nil in Hin|].
    rewrite len_cons in Hc. pose proof (len_nonneg l). lia.
Qed.

End Snapshot.
