(* ===== verification/Worker.v ===== *)
(** * The worker ([worker/src/index.js])

    Configuration, the key-value store, the discovery and snapshot pass, and
    the [fetch] and [scheduled] handlers, composed of all the other parts. *)

From Stdlib Require Import String.
From S2P Require Import Prelude Numbers JsText Collections Ip Messages Framing Handshake Dns Peers Advance StoreTypes.
From S2P Require Import Geo Snapshot.
Import Messages Handshake Peers Advance StoreTypes Geo Snapshot.

Module Worker.

(** ** Configuration *)

(** [raw.split(',').map(trim).filter(Boolean)] *)
Definition csv (value : option jsstr) (fallback : jsstr) : list jsstr :=
  let raw := default fallback value in
  List.filter (fun s => negb (bool_decide (s = []))) (List.map trim (js_split raw (jss ","))).

(** The variables of the environment; all of them are strings. *)
Record Env := {
  SEED_HOST : option jsstr; EXTRA_SEED_HOSTS : option jsstr; DNS_QUERY_ROUNDS : option jsstr;
  DNS_QUERY_DELAY_MS : option jsstr; P2P_PORT : option jsstr; CRAWL_MAX_DEPTH : option jsstr;
  CRAWL_MAX_PEERS_PER_RUN : option jsstr; GEOIP_MAX_LOOKUPS_PER_RUN : option jsstr;
  CRAWL_CONNECT_TIMEOUT_MS : option jsstr; CRAWL_TOTAL_TIMEOUT_MS : option jsstr;
  GEOIP_TTL_DAYS : option jsstr; STALE_AFTER_DAYS : option jsstr; ONLINE_WINDOW_HOURS : option jsstr;
  REFRESH_SECONDS : option jsstr; CORS_ORIGIN : option jsstr; CRON_SECRET : option jsstr
}.

Record Config := {
  crawl_cfg : CrawlConfig;
  snapshot_cfg : SnapshotConfig;
  dnsDelayMs : jsnum;
  connectTimeoutMs : jsnum;
  refreshSeconds : jsnum;
  corsOrigin : jsstr
}.

(** [Number(value ?? fallback)] *)
Definition number_var (value : option jsstr) (fallback : Z) : jsnum :=
  match value with
  | None => num fallback
  | Some s => number_of_string s
  end.

Definition loadConfig (env : Env) : Config :=
  {| crawl_cfg :=
       {| seedHosts := csv (SEED_HOST env) (jss "seeder.eleknet.org,seed0.eleknet.org");
          extraSeedHosts := csv (EXTRA_SEED_HOSTS env) (jss "node1.elektron-net.org,node2.elektron-net.org");
          dnsRounds := number_var (DNS_QUERY_ROUNDS env) 1;
          p2pPort := number_var (P2P_PORT env) 8333;
          maxDepth := number_var (CRAWL_MAX_DEPTH env) 8;
          maxPeersPerRun := number_var (CRAWL_MAX_PEERS_PER_RUN env) 6;
          totalTimeoutMs := number_var (CRAWL_TOTAL_TIMEOUT_MS env) 6000;
          staleAfterDays := number_var (STALE_AFTER_DAYS env) 30 |};
     snapshot_cfg :=
       {| geoTtlDays := number_var (GEOIP_TTL_DAYS env) 30;
          maxGeoLookupsPerRun := number_var (GEOIP_MAX_LOOKUPS_PER_RUN env) 8;
          onlineWindowHours := number_var (ONLINE_WINDOW_HOURS env) 6 |};
     dnsDelayMs := number_var (DNS_QUERY_DELAY_MS env) 0;
     connectTimeoutMs := number_var (CRAWL_CONNECT_TIMEOUT_MS env) 3000;
     refreshSeconds := number_var (REFRESH_SECONDS env) 900;
     corsOrigin := default (jss "*") (CORS_ORIGIN env) |}.

(** ** The key-value store

    A stored JSON text is represented by the value it stands for; the texts are
    those of KvText. *)

Inductive entry (A : Type) :=
  | Absent             (** no such key, or the empty string *)
  | Malformed          (** a text [JSON.parse] rejects *)
  | Stored (a : A).
Arguments Absent {A}.
Arguments Malformed {A}.
Arguments Stored {A} a.

Record KV := { kv_peers : entry store; kv_geo : entry cache; kv_snapshot : entry SnapshotData }.

Definition kvGetJson {A} (e : entry A) (fallback : A) : A :=
  match e with Stored a => a | Absent | Malformed => fallback end.

Definition put_peers (kv : KV) (v : store) : KV :=
  {| kv_peers := Stored v; kv_geo := kv_geo kv; kv_snapshot := kv_snapshot kv |}.
Definition put_geo (kv : KV) (v : cache) : KV :=
  {| kv_peers := kv_peers kv; kv_geo := Stored v; kv_snapshot := kv_snapshot kv |}.
Definition put_snapshot (kv : KV) (v : SnapshotData) : KV :=
  {| kv_peers := kv_peers kv; kv_geo := kv_geo kv; kv_snapshot := Stored v |}.

Definition getSnapshot (kv : KV) : option SnapshotData :=
  match kv_snapshot kv with Stored s => Some s | Absent | Malformed => None end.

(** ** The pass *)

(** The operations of the key-value store in a pass, one for each [await]. *)
Inductive kv_op := GetPeers | PutPeers | GetSnapshot | GetGeo | PutGeo | PutSnapshot.

(** How the store answers; a [put] that is rejected may have been applied.  That
    every operation, and every request to the resolver and to the geolocation
    services, settles at some time is assumed: none of them has a timeout. *)
Inductive kv_answer := Fulfilled | Rejected (applied : bool).

(** All that comes from outside: the resolver, the peers, the geolocation
    services, the readings of the clock, and the answers of the key-value
    store. *)
Record World := {
  w_doh : nat -> jsstr -> Dns.QType -> Dns.DohResponse;
  w_peer : nat -> PeerEnv;
  w_geo : GeoServices;
  w_crawl_ms : Z;      (** in [advanceCrawl] *)
  w_check_ms : Z;      (** in the test of staleness *)
  w_snapshot_ms : Z;   (** in [rebuildSnapshot] *)
  w_resolve_ms : Z;    (** in [resolveGeo] *)
  w_generated_ms : Z;  (** [new Date()] of [generatedAt] *)
  w_kv : kv_op -> kv_answer
}.

(** [!existing || Date.now() / 1000 - Date.parse(existing.generatedAt) / 1000 >= cfg.refreshSeconds] *)
Definition isStale (cfg : Config) (now_ms : Z) (existing : option SnapshotData) : bool :=
  match existing with
  | None => true
  | Some s =>
    match generatedAt s with
    | None => false  (** [NaN >= _] *)
    | Some t =>
      js_leb (refreshSeconds cfg) (js_sub (js_div_pos (num now_ms) 1000) (js_div_pos (num t) 1000))
    end
  end.

Section WithSha256.
Context {SHA : Sha256}.

Definition crawl_peers (w : World) (cfg : Config) (n : nat) (addr : jsstr) (port : jsnum)
    : res (option CrawlResult) :=
  crawlPeerOnce (w_peer w n) addr port (connectTimeoutMs cfg) (totalTimeoutMs (crawl_cfg cfg)) None.

Definition crawl_from (w : World) (cfg : Config) (st : store) : res store :=
  advanceCrawl (w_doh w) (crawl_peers w cfg) (crawl_cfg cfg) (w_crawl_ms w) st.

(** Where a pass stands: the operation it awaits next and the variables that
    are still used. *)
Inductive pass :=
  | AtGetPeers
  | AtCrawl (st : store)
  | AtPutPeers (st : store)
  | AtGetSnapshot (st : store)
  | AtGetGeo (st : store)
  | AtPutGeo (s : SnapshotData) (mergedGeo : cache)
  | AtPutSnapshot (s : SnapshotData)
  | Finished (r : res SnapshotData).

(** [await kv.get(..)] and [await kv.put(..)] in the pass; a rejection ends it. *)
Definition await_get (w : World) (op : kv_op) (kv : KV) (next : pass) : KV * pass :=
  match w_kv w op with
  | Fulfilled => (kv, next)
  | Rejected _ => (kv, Finished (Throw KvError))
  end.

Definition await_put (w : World) (op : kv_op) (kv kv' : KV) (next : pass) : KV * pass :=
  match w_kv w op with
  | Fulfilled => (kv', next)
  | Rejected applied => (if applied then kv' else kv, Finished (Throw KvError))
  end.

Definition rebuilt (w : World) (cfg : Config) (st : store) (geoCache : cache) : SnapshotData * cache :=
  (rebuildSnapshot (w_geo w) st geoCache (snapshot_cfg cfg)
     (w_snapshot_ms w) (w_resolve_ms w) (w_generated_ms w)).1.

(** One step of a pass, from one operation to the next. *)
Definition pass_step (w : World) (cfg : Config) (kv : KV) (p : pass) : KV * pass :=
  match p with
  | AtGetPeers => await_get w GetPeers kv (AtCrawl (kvGetJson (kv_peers kv) []))
  | AtCrawl st =>
    match crawl_from w cfg st with
    | Ok st' => (kv, AtPutPeers st')
    | Throw e => (kv, Finished (Throw e))
    end
  | AtPutPeers st => await_put w PutPeers kv (put_peers kv st) (AtGetSnapshot st)
  | AtGetSnapshot st =>
    await_get w GetSnapshot kv
      match getSnapshot kv with
      | None => AtGetGeo st
      | Some existing =>
        if isStale cfg (w_check_ms w) (Some existing) then AtGetGeo st else Finished (Ok existing)
      end
  | AtGetGeo st =>
    await_get w GetGeo kv
      (let '(s, mergedGeo) := rebuilt w cfg st (kvGetJson (kv_geo kv) []) in AtPutGeo s mergedGeo)
  | AtPutGeo s mergedGeo => await_put w PutGeo kv (put_geo kv mergedGeo) (AtPutSnapshot s)
  | AtPutSnapshot s => await_put w PutSnapshot kv (put_snapshot kv s) (Finished (Ok s))
  | Finished r => (kv, Finished r)
  end.

Fixpoint pass_steps (n : nat) (w : World) (cfg : Config) (kv : KV) (p : pass) : KV * pass :=
  match n with
  | O => (kv, p)
  | S n' => let '(kv, p) := pass_step w cfg kv p in pass_steps n' w cfg kv p
  end.

(** A pass without interruption has seven operations: the store after it, and
    what it returns or throws. *)
Definition runDiscoveryAndSnapshot (w : World) (cfg : Config) (kv : KV) : KV * res SnapshotData :=
  match pass_steps 7 w cfg kv AtGetPeers with
  | (kv, Finished r) => (kv, r)
  | (kv, _) => (kv, Throw OutOfFuel)
  end.

(** ** The handlers *)

Record Request := { method : jsstr; q_cron : option jsstr; q_secret : option jsstr }.

Inductive Body := BNull | BText (s : jsstr) | BError (s : jsstr) | BSnapshot (s : SnapshotData).

Record Response := { status : Z; headers : list (jsstr * jsstr); body : Body }.

Definition corsHeaders (origin : jsstr) : list (jsstr * jsstr) :=
  [(jss "Access-Control-Allow-Origin", origin);
   (jss "Access-Control-Allow-Methods", jss "GET, OPTIONS");
   (jss "Access-Control-Allow-Headers", jss "Content-Type")].

Definition jsonResponse (b : Body) (cfg : Config) (status : Z) : Response :=
  {| status := status;
     headers := (jss "Content-Type", jss "application/json") :: corsHeaders (corsOrigin cfg);
     body := b |}.

Definition asks_for_pass (req : Request) : bool :=
  negb (bool_decide (method req = jss "OPTIONS")) && bool_decide (q_cron req = Some (jss "1")).

Definition forbidden (env : Env) (req : Request) : bool :=
  negb (falsy (CRON_SECRET env)) && negb (bool_decide (q_secret req = CRON_SECRET env)).

(** The rest of [fetch], after the configuration has been read. *)
Definition answer_request (w : World) (env : Env) (cfg : Config) (req : Request) (kv : KV) : KV * res Response :=
  if bool_decide (method req = jss "OPTIONS") then
    (kv, Ok {| status := 200; headers := corsHeaders (corsOrigin cfg); body := BNull |})
  else if bool_decide (q_cron req = Some (jss "1")) then
    if forbidden env req then
      (kv, Ok {| status := 403; headers := []; body := BText (jss "forbidden") |})
    else
      let '(kv', r) := runDiscoveryAndSnapshot w cfg kv in
      (kv', s ← r; Ok (jsonResponse (BSnapshot s) cfg 200))
  else
    match w_kv w GetSnapshot, getSnapshot kv with
    | Rejected _, _ => (kv, Throw KvError)
    | Fulfilled, None => (kv, Ok (jsonResponse (BError (jss "no snapshot available yet -- wait for the first cron run or hit ?cron=1")) cfg 503))
    | Fulfilled, Some s => (kv, Ok (jsonResponse (BSnapshot s) cfg 200))
    end.

(** The handlers. *)
Definition fetch (w : World) (env : Env) (req : Request) (kv : KV) : KV * res Response :=
  answer_request w env (loadConfig env) req kv.

Definition scheduled (w : World) (env : Env) (kv : KV) : KV :=
  (runDiscoveryAndSnapshot w (loadConfig env) kv).1.

(** ** Lemmas *)

Definition crawled (w : World) (cfg : Config) (kv : KV) : res store :=
  crawl_from w cfg (kvGetJson (kv_peers kv) []).

(** What has been written when a pass stands at an operation: the pass began
    with [kv0], and the store is [kv] now. *)
Definition so_far (w : World) (cfg : Config) (kv0 kv : KV) (p : pass) : Prop :=
  match p with
  | AtGetPeers => kv = kv0
  | AtCrawl st => kv = kv0 /\ st = kvGetJson (kv_peers kv0) []
  | AtPutPeers st => kv = kv0 /\ crawled w cfg kv0 = Ok st
  | AtGetSnapshot st => kv = put_peers kv0 st /\ crawled w cfg kv0 = Ok st
  | AtGetGeo st =>
    kv = put_peers kv0 st /\ crawled w cfg kv0 = Ok st
    /\ isStale cfg (w_check_ms w) (getSnapshot kv0) = true
  | AtPutGeo s g =>
    exists st, kv = put_peers kv0 st /\ crawled w cfg kv0 = Ok st
      /\ rebuilt w cfg st (kvGetJson (kv_geo kv0) []) = (s, g)
      /\ isStale cfg (w_check_ms w) (getSnapshot kv0) = true
  | AtPutSnapshot s =>
    exists st g, kv = put_geo (put_peers kv0 st) g /\ crawled w cfg kv0 = Ok st
      /\ rebuilt w cfg st (kvGetJson (kv_geo kv0) []) = (s, g)
      /\ isStale cfg (w_check_ms w) (getSnapshot kv0) = true
  | Finished (Ok s) =>
    exists st, crawled w cfg kv0 = Ok st
      /\ ((kv = put_peers kv0 st /\ getSnapshot kv0 = Some s /\ isStale cfg (w_check_ms w) (Some s) = false)
         \/ exists g, kv = put_snapshot (put_geo (put_peers kv0 st) g) s
              /\ rebuilt w cfg st (kvGetJson (kv_geo kv0) []) = (s, g)
              /\ isStale cfg (w_check_ms w) (getSnapshot kv0) = true)
  | Finished (Throw e) =>
    kv = kv0
    \/ exists st, crawled w cfg kv0 = Ok st
        /\ (kv = put_peers kv0 st
            \/ exists s g, rebuilt w cfg st (kvGetJson (kv_geo kv0) []) = (s, g)
                /\ isStale cfg (w_check_ms w) (getSnapshot kv0) = true
                /\ (kv = put_geo (put_peers kv0 st) g \/ kv = put_snapshot (put_geo (put_peers kv0 st) g) s))
  end.

Lemma so_far_step w cfg kv0 kv p :
  so_far w cfg kv0 kv p -> let '(kv', p') := pass_step w cfg kv p in so_far w cfg kv0 kv' p'.
Proof.
  destruct p as [|st|st|st|st|s g|s|r]; cbn [pass_step]; unfold await_get, await_put.
  - cbn [so_far]. intros ->. destruct (w_kv w _); cbn [so_far]; auto.
  - intros [-> ->]. destruct (crawl_from _ _ _) eqn:E; cbn [so_far]; auto.
  - intros [-> E]. destruct (w_kv w _) as [|[]]; cbn [so_far]; eauto.
  - intros [-> E]. change (getSnapshot (put_peers kv0 st)) with (getSnapshot kv0).
    destruct (w_kv w _) as [|b]; [|cbn [so_far]; eauto].
    destruct (getSnapshot kv0) as [ex|] eqn:Ex; [|cbn [so_far]; by rewrite Ex].
    destruct (isStale _ _ _) eqn:Es; cbn [so_far]; rewrite Ex; [done|]. exists st. auto.
  - intros (-> & E & Es). cbn [put_peers kv_geo].
    destruct (w_kv w _) as [|b]; [|cbn [so_far]; eauto 8].
    destruct (rebuilt _ _ _ _) as [s g] eqn:Er. cbn [so_far]. eauto.
  - intros (st & -> & E & Er & Es). destruct (w_kv w _) as [|[]]; cbn [so_far]; eauto 12.
  - intros (st & g & -> & E & Er & Es). destruct (w_kv w _) as [|[]]; cbn [so_far]; eauto 12.
  - done.
Qed.

Lemma so_far_steps w cfg kv0 n : forall kv p,
  so_far w cfg kv0 kv p -> let '(kv', p') := pass_steps n w cfg kv p in so_far w cfg kv0 kv' p'.
Proof.
  induction n as [|n IH]; intros kv p H; cbn [pass_steps]; [done|].
  apply so_far_step in H. destruct (pass_step w cfg kv p) as [kv' p']. by apply IH.
Qed.

(** The operations that are left. *)
Definition left (p : pass) : nat :=
  match p with
  | AtGetPeers => 7 | AtCrawl _ => 6 | AtPutPeers _ => 5 | AtGetSnapshot _ => 4
  | AtGetGeo _ => 3 | AtPutGeo _ _ => 2 | AtPutSnapshot _ => 1 | Finished _ => 0
  end.

Lemma left_step w cfg kv p : (left (pass_step w cfg kv p).2 <= left p - 1)%nat.
Proof.
  destruct p as [|st|st|st|st|s g|s|r]; cbn [pass_step]; unfold await_get, await_put.
  2: destruct (crawl_from _ _ _).
  5: destruct (getSnapshot kv) as [ex|]; [destruct (isStale _ _ _)|].
  8: destruct (rebuilt _ _ _ _).
  all: try destruct (w_kv w _); cbn; lia.
Qed.

Lemma steps_finish w cfg n : forall kv p,
  (left p <= n)%nat -> exists kv' r, pass_steps n w cfg kv p = (kv', Finished r).
Proof.
  induction n as [|n IH]; intros kv p H; cbn [pass_steps].
  - destruct p; cbn in H; try lia. eauto.
  - pose proof (left_step w cfg kv p). destruct (pass_step w cfg kv p) as [kv' p']. cbn in *. apply IH. lia.
Qed.

Lemma run_steps w cfg kv kv' r :
  runDiscoveryAndSnapshot w cfg kv = (kv', r) <-> pass_steps 7 w cfg kv AtGetPeers = (kv', Finished r).
Proof.
  unfold runDiscoveryAndSnapshot. destruct (steps_finish w cfg 7 kv AtGetPeers ltac:(cbn; lia)) as (kv1 & r1 & ->).
  split; intros; by simplify_eq.
Qed.

Lemma run_so_far w cfg kv kv' r :
  runDiscoveryAndSnapshot w cfg kv = (kv', r) -> so_far w cfg kv kv' (Finished r).
Proof.
  intros E%run_steps. pose proof (so_far_steps w cfg kv 7 kv AtGetPeers eq_refl) as H. by rewrite E in H.
Qed.

(** If the store answers, the pass fails only where the crawl does. *)
Lemma run_fulfilled w cfg kv st :
  (forall op, w_kv w op = Fulfilled) -> crawled w cfg kv = Ok st ->
  exists kv' s, runDiscoveryAndSnapshot w cfg kv = (kv', Ok s).
Proof.
  intros Hw E. unfold runDiscoveryAndSnapshot. cbn [pass_steps pass_step]. unfold await_get, await_put.
  rewrite !Hw. cbn [pass_step]. unfold crawled in E. rewrite E. cbn [pass_step]. unfold await_put, await_get. rewrite Hw.
  cbn [pass_step]. unfold await_get. rewrite Hw. destruct (getSnapshot _) as [ex|]; [destruct (isStale _ _ _)|].
  2: { cbn. eauto. }
  all: cbn [pass_step]; unfold await_get; rewrite Hw; destruct (rebuilt _ _ _ _) as [s g];
    cbn [pass_step]; unfold await_put; rewrite !Hw; cbn [pass_step]; unfold await_put; rewrite !Hw; eauto.
Qed.

Lemma finished_published w cfg kv kv' s :
  runDiscoveryAndSnapshot w cfg kv = (kv', Ok s) ->
  exists st, crawled w cfg kv = Ok st /\ kv_peers kv' = Stored st /\ getSnapshot kv' = Some s.
Proof.
  intros (st & E & [(-> & Hs & _)|(g & -> & _)])%run_so_far; exists st; by split_and!.
Qed.

(** The writes to a peer and the closing of its socket settle. *)
Definition settles (env : PeerEnv) : Prop := (forall n, pe_writes env n <> Pends) /\ pe_close env <> Pends.

Lemma crawlPeerOnce_settles env addr port connect total : settles env ->
  crawlPeerOnce env addr port connect total None = Throw ConnectError /\ pe_connect env = ConnectThrows
  \/ exists r, crawlPeerOnce env addr port connect total None = Ok r.
Proof.
  intros [Hw Hc]. unfold crawlPeerOnce. destruct (pe_connect env) as [|opened]; [by left|right].
  destruct (withTimeout _ _); [|by eexists].
  pose proof (handshake_ends env addr port total Hw) as He.
  destruct (handshake env addr port total) as [st ends]. cbn in He. subst ends.
  rewrite bool_decide_eq_false_2 by done. cbn [negb orb]. destruct (theirVersion st); by eexists.
Qed.

(** ** Correctness of the worker *)

(** A request changes the key-value store only when it asks for a pass
    and, if a secret is configured, presents it. *)
Theorem fetch_authorised w env req kv kv' r :
  fetch w env req kv = (kv', r) -> kv' <> kv ->
  method req <> jss "OPTIONS" /\ q_cron req = Some (jss "1")
  /\ (falsy (CRON_SECRET env) = true \/ q_secret req = CRON_SECRET env).
Proof.
  intros E Hne. unfold fetch in E.
  assert ((answer_request w env (loadConfig env) req kv).1 <> kv) as H by (by rewrite E). clear E Hne. revert H.
  unfold answer_request, forbidden. case_bool_decide; [done|]. case_bool_decide.
  - destruct (falsy (CRON_SECRET env)); cbn; [by auto|]. case_bool_decide; cbn; by auto.
  - destruct (w_kv w _); [|done]. destruct (getSnapshot kv); done.
Qed.

(** After a pass that completes, a visitor is served exactly the snapshot
    the pass returned, with status 200, if the store can be read. *)
Theorem served_after_run w w' env kv kv' s req :
  runDiscoveryAndSnapshot w (loadConfig env) kv = (kv', Ok s) ->
  method req <> jss "OPTIONS" -> q_cron req <> Some (jss "1") -> w_kv w' GetSnapshot = Fulfilled ->
  fetch w' env req kv' = (kv', Ok (jsonResponse (BSnapshot s) (loadConfig env) 200)).
Proof.
  intros (st & _ & _ & Hs)%finished_published Hm Hq Hg. unfold fetch, answer_request. by rewrite !bool_decide_eq_false_2, Hg, Hs.
Qed.

(** A pass completes whenever the number of sampling rounds is finite, the
    depths that are stored are within the maximal depth, no seed lookup is rejected,
    no connection attempt throws, the writes to the peers and the closing of their
    sockets settle, and the store answers; it stores the peers it found and the
    snapshot it returns.  Lookups, geolocation requests and operations of the store
    settle here by assumption: the code waits for them without a timeout. *)
Theorem run_completes w cfg kv :
  loop_count (js_max (num 1) (dnsRounds (crawl_cfg cfg))) <> None ->
  peers (depth_ok (maxDepth (crawl_cfg cfg))) (kvGetJson (kv_peers kv) []) ->
  Dns.reachable (w_doh w) -> (forall n, pe_connect (w_peer w n) <> ConnectThrows) ->
  (forall n, settles (w_peer w n)) -> (forall op, w_kv w op = Fulfilled) ->
  exists kv' s st, runDiscoveryAndSnapshot w cfg kv = (kv', Ok s)
    /\ crawled w cfg kv = Ok st /\ kv_peers kv' = Stored st /\ getSnapshot kv' = Some s.
Proof.
  intros Hl Hkv Hd Hc Hset Hw.
  destruct (advance_total (w_doh w) (crawl_peers w cfg) (crawl_cfg cfg) (w_crawl_ms w)
              (kvGetJson (kv_peers kv) []) Hkv Hl Hd) as [st E].
  { intros n a p. destruct (crawlPeerOnce_settles (w_peer w n) a p (connectTimeoutMs cfg)
      (totalTimeoutMs (crawl_cfg cfg)) (Hset n)) as [[_ ?]|[r Hr]]; [by destruct (Hc n)|by exists r]. }
  destruct (run_fulfilled w cfg kv st Hw E) as (kv' & s & Hr).
  destruct (finished_published _ _ _ _ _ Hr) as (st' & ? & ? & ?). by exists kv', s, st'.
Qed.

(** A pass that fails has written the first of its results and no others:
    nothing, the peers, the peers and the geolocation cache, or (when the last
    [put] is rejected but applied) all three; each one is the complete result
    of the work on what was stored before. *)
Theorem failed_run_prefix w cfg kv kv' e :
  runDiscoveryAndSnapshot w cfg kv = (kv', Throw e) ->
  kv' = kv
  \/ exists st, crawled w cfg kv = Ok st
      /\ (kv' = put_peers kv st
          \/ exists s g, rebuilt w cfg st (kvGetJson (kv_geo kv) []) = (s, g)
              /\ isStale cfg (w_check_ms w) (getSnapshot kv) = true
              /\ (kv' = put_geo (put_peers kv st) g \/ kv' = put_snapshot (put_geo (put_peers kv st) g) s)).
Proof. apply run_so_far. Qed.

End WithSha256.

(** The variable is set, to a text that is no number. *)
Definition unreadable (value : option jsstr) : Prop := exists s, value = Some s /\ number_of_string s = NaN.

Lemma unreadable_var value fallback : unreadable value -> number_var value fallback = NaN.
Proof. by intros (s & -> & H). Qed.

Lemma prune_nan st : prune NaN st = st.
Proof.
  unfold prune. induction (Obj.keys st) as [|k ks IH]; cbn [foldl]; [done|].
  destruct (Obj.get st k); [|done]. by rewrite js_ltb_nan.
Qed.

Lemma candidates_none cfg st : maxDepth cfg = NaN \/ maxPeersPerRun cfg = NaN -> candidates cfg st = [].
Proof.
  unfold candidates. intros [E|E]; [|by rewrite E]. unfold eligibles.
  replace (List.filter (fun kv => eligible cfg kv.2) st) with (@nil (jsstr * Peer)).
  - cbn. by destruct (js_max _ _) as [|[]|m e]; [..|unfold slice_num; rewrite take_nil].
  - induction st as [|kv st IH]; cbn; [done|]. unfold eligible at 1. rewrite E, js_ltb_nan, andb_false_r. done.
Qed.

(** A setting that is no number is not an error; it turns a part of the
    worker off.  Without readable rounds the seeds are not looked up at all,
    although at least one round is meant to be made; without a readable maximal
    depth or budget no peer is crawled; without a readable age no peer is ever
    removed; without a readable window every peer counts as online; without a
    readable refresh time a snapshot is never built again. *)
Theorem unreadable_settings env :
  let cfg := loadConfig env in
  (unreadable (DNS_QUERY_ROUNDS env) -> forall doh hosts t,
     Dns.sampleSeedIps doh hosts (dnsRounds (crawl_cfg cfg)) t = Ok ([], t))
  /\ (unreadable (CRAWL_MAX_DEPTH env) \/ unreadable (CRAWL_MAX_PEERS_PER_RUN env) -> forall st,
     candidates (crawl_cfg cfg) st = [])
  /\ (unreadable (STALE_AFTER_DAYS env) -> forall now st, prune (cutoff_of (crawl_cfg cfg) now) st = st)
  /\ (unreadable (ONLINE_WINDOW_HOURS env) -> forall now p,
     js_ltb (num (default 0 (lastSeen p))) (online_cutoff (snapshot_cfg cfg) now) = false)
  /\ (unreadable (REFRESH_SECONDS env) -> forall now s, isStale cfg now (Some s) = false).
Proof.
  intros cfg. split_and!.
  - intros H doh hosts t. unfold cfg. cbn [loadConfig crawl_cfg dnsRounds]. by rewrite (unreadable_var _ _ H).
  - intros H st. apply candidates_none. destruct H as [H|H]; [left|right]; apply unreadable_var, H.
  - intros H now st. unfold cutoff_of, cfg. cbn [loadConfig crawl_cfg staleAfterDays]. rewrite (unreadable_var _ _ H), js_sub_nan.
    apply prune_nan.
  - intros H now p. unfold online_cutoff, cfg. cbn [loadConfig snapshot_cfg onlineWindowHours].
    rewrite (unreadable_var _ _ H), js_sub_nan. apply js_ltb_nan.
  - intros H now s. unfold isStale, cfg. cbn [loadConfig refreshSeconds]. rewrite (unreadable_var _ _ H).
    by destruct (generatedAt s).
Qed.

(** A list of non-empty host names without commas and outer spaces, joined
    with commas, is read back by [csv]. *)
Theorem csv_roundtrip hosts fallback :
  Forall (fun h => h <> [] /\ (44 ∉ h) /\ trim h = h) hosts ->
  csv (Some (js_join hosts (jss ","))) fallback = hosts.
Proof.
  intros H. unfold csv. cbn [from_option id]. destruct (decide (hosts = [])) as [->|Hne]; [done|].
  assert (Forall (fun p => 44 ∉ p) hosts) as Hc by (eapply Forall_impl; [exact H|]; cbn; tauto).
  rewrite (split_join 44 hosts Hne Hc : js_split (js_join hosts (jss ",")) (jss ",") = hosts).
  clear Hne Hc. induction H as [|h hosts (H1 & _ & H3) _ IH]; [done|]. cbn [List.map List.filter].
  rewrite H3, bool_decide_eq_false_2 by done. cbn [negb]. by rewrite IH.
Qed.

(** ** An example deployment *)

Definition example_environment : Env :=
  {| SEED_HOST := None; EXTRA_SEED_HOSTS := Some []; DNS_QUERY_ROUNDS := None; DNS_QUERY_DELAY_MS := None;
     P2P_PORT := None; CRAWL_MAX_DEPTH := Some (jss "0x4"); CRAWL_MAX_PEERS_PER_RUN := None;
     GEOIP_MAX_LOOKUPS_PER_RUN := None; CRAWL_CONNECT_TIMEOUT_MS := None; CRAWL_TOTAL_TIMEOUT_MS := None;
     GEOIP_TTL_DAYS := None; STALE_AFTER_DAYS := None; ONLINE_WINDOW_HOURS := None;
     REFRESH_SECONDS := None; CORS_ORIGIN := None; CRON_SECRET := Some (jss "s3cret") |}.

Definition example_config : Config := loadConfig example_environment.

Definition example_world : World :=
  {| w_doh := Dns.example_doh; w_peer := fun _ => example_env; w_geo := example_services;
     w_crawl_ms := 1700000000000; w_check_ms := 1700000005000; w_snapshot_ms := 1700000005000;
     w_resolve_ms := 1700000005000; w_generated_ms := 1700000006000;
     w_kv := fun _ => Fulfilled |}.

Definition empty_kv : KV := {| kv_peers := Absent; kv_geo := Absent; kv_snapshot := Absent |}.

Definition example_pass : KV * res SnapshotData :=
  runDiscoveryAndSnapshot (SHA := platform_sha256) example_world example_config empty_kv.

Definition snapshot_or_empty (r : res SnapshotData) : SnapshotData :=
  match r with
  | Ok s => s
  | Throw _ => {| generatedAt := None; totalKnown := 0; onlineCount := 0; networkCounts := [];
                  countries := []; nodes := [] |}
  end.

Definition example_snapshot : SnapshotData := snapshot_or_empty example_pass.2.
Definition cron_request : Request :=
  {| method := jss "GET"; q_cron := Some (jss "1"); q_secret := Some (jss "s3cret") |}.
Definition page_request : Request := {| method := jss "GET"; q_cron := None; q_secret := None |}.

Lemma fetch_authorised_witness :
  method cron_request <> jss "OPTIONS" /\ q_cron cron_request = Some (jss "1")
  /\ (falsy (CRON_SECRET example_environment) = true \/ q_secret cron_request = CRON_SECRET example_environment).
Proof.
  eapply (fetch_authorised (SHA := platform_sha256) example_world example_environment cron_request empty_kv);
    [vm_compute; reflexivity|discriminate].
Defined.

Lemma served_after_run_witness :
  onlineCount example_snapshot = 2
  /\ fetch (SHA := platform_sha256) example_world example_environment page_request example_pass.1
     = (example_pass.1, Ok (jsonResponse (BSnapshot example_snapshot) example_config 200)).
Proof.
  split; [vm_compute; reflexivity|].
  apply (served_after_run (SHA := platform_sha256) example_world example_world example_environment
           empty_kv example_pass.1 example_snapshot page_request);
    [vm_compute; reflexivity|vm_compute; discriminate|discriminate|reflexivity].
Defined.

Lemma run_completes_witness :
  exists kv' s st, runDiscoveryAndSnapshot (SHA := platform_sha256) example_world example_config empty_kv = (kv', Ok s)
    /\ crawled (SHA := platform_sha256) example_world example_config empty_kv = Ok st
    /\ kv_peers kv' = Stored st /\ getSnapshot kv' = Some s.
Proof.
  apply (run_completes (SHA := platform_sha256) example_world example_config empty_kv).
  - vm_compute; discriminate.
  - split; [constructor|discriminate].
  - intros t host [|]; discriminate.
  - intros n; discriminate.
  - intros n; split; [intros i|]; discriminate.
  - intros op; reflexivity.
Defined.

(** The snapshot cannot be written. *)
Definition full_world : World :=
  {| w_doh := Dns.example_doh; w_peer := fun _ => example_env; w_geo := example_services;
     w_crawl_ms := 1700000000000; w_check_ms := 1700000005000; w_snapshot_ms := 1700000005000;
     w_resolve_ms := 1700000005000; w_generated_ms := 1700000006000;
     w_kv := fun op => match op with PutSnapshot => Rejected false | _ => Fulfilled end |}.

Definition full_pass : KV * res SnapshotData :=
  runDiscoveryAndSnapshot (SHA := platform_sha256) full_world example_config empty_kv.

Lemma failed_run_prefix_witness :
  getSnapshot full_pass.1 = None /\ Obj.keys (kvGetJson (kv_peers full_pass.1) []) = [jss "1.2.3.4"; jss "5.6.7.8"]
  /\ (full_pass.1 = empty_kv
      \/ exists st, crawled (SHA := platform_sha256) full_world example_config empty_kv = Ok st
          /\ (full_pass.1 = put_peers empty_kv st
              \/ exists s g, rebuilt full_world example_config st (kvGetJson (kv_geo empty_kv) []) = (s, g)
                  /\ isStale example_config (w_check_ms full_world) (getSnapshot empty_kv) = true
                  /\ (full_pass.1 = put_geo (put_peers empty_kv st) g
                      \/ full_pass.1 = put_snapshot (put_geo (put_peers empty_kv st) g) s))).
Proof.
  split; [vm_compute; reflexivity|]. split; [vm_compute; reflexivity|].
  apply (failed_run_prefix (SHA := platform_sha256) full_world example_config empty_kv full_pass.1 KvError).
  vm_compute; reflexivity.
Defined.

Lemma csv_roundtrip_witness : csv (Some (jss "a.example,b.example")) [] = [jss "a.example"; jss "b.example"].
Proof.
  apply (csv_roundtrip [jss "a.example"; jss "b.example"] []).
  repeat constructor; try discriminate; apply (bool_decide_unpack _); vm_compute; exact I.
Defined.

End Worker.
