(* ===== verification/KvText.v ===== *)
(** * The key-value store as texts ([worker/src/index.js])

    [kvGetJson] and [kvPutJson] on the texts of the key-value store, and a pass
    on such texts.  The values of [Worker] are what the texts stand for: a pass
    on texts is a pass on values, and what is served is the text of the stored
    snapshot. *)

From Stdlib Require Import String.
From S2P Require Import Prelude Numbers JsText NumberText Utf8 Collections Json Dates Messages Sha2 Framing Handshake Dns Peers Advance Geo Snapshot Worker.
Import NumberText Utf8 Json Dates Messages Framing Handshake Peers Advance Geo Snapshot Worker.

Module KvText.

(** ** [kvGetJson] and [kvPutJson] *)

Definition kvGetJson (raw : option jsstr) (fallback : json) : json :=
  match truthy raw with
  | None => fallback
  | Some s => default fallback (json_parse s)
  end.

Definition kvPutJson (v : json) : jsstr := stringify [] v.

(** ** What the JSON values stand for *)

Definition as_int (v : json) : option Z := match v with JNum x => integer_of x | _ => None end.
Definition as_num (v : json) : option jsnum := match v with JNum x => Some x | _ => None end.
Definition as_str (v : json) : option jsstr := match v with JStr s => Some s | _ => None end.
Definition as_bool (v : json) : option bool := match v with JBool b => Some b | _ => None end.
Definition as_date (v : json) : option Z := match v with JStr s => date_parse s | _ => None end.
Definition as_network (v : json) : option Network :=
  match v with
  | JStr s => List.find (fun n => bool_decide (network_name n = s)) [ipv4; ipv6; tor; i2p; cjdns]
  | _ => None
  end.
Definition as_list {A} (d : json -> option A) (v : json) : option (list A) :=
  match v with JArr l => mapM d l | _ => None end.
Definition as_object {A} (d : json -> option A) (v : json) : option (list (jsstr * A)) :=
  match v with JObj o => mapM (fun kx => (fun a => (kx.1, a)) <$> d kx.2) o | _ => None end.

(** A property that may be absent or [null]; and one that may not. *)
Definition opt {A} (d : json -> option A) (v : option json) : option (option A) :=
  match v with None | Some JNull => Some None | Some x => Some <$> d x end.
Definition req {A} (d : json -> option A) (v : option json) : option A := v ≫= d.

Definition prop (v : json) (name : string) : option json :=
  match v with JObj o => Obj.get o (jss name) | _ => None end.

Definition peer_of (v : json) : option Peer :=
  fs ← opt as_int (prop v "firstSeen"); ls ← opt as_int (prop v "lastSeen");
  dp ← opt as_int (prop v "depth"); nw ← opt as_network (prop v "network");
  i ← opt as_str (prop v "ip"); pt ← opt as_int (prop v "port"); pa ← opt as_str (prop v "parent");
  lc ← opt as_int (prop v "lastCrawled"); ok ← opt as_bool (prop v "lastCrawlOk");
  ac ← opt as_int (prop v "lastCrawlAddrCount"); sv ← opt as_int (prop v "services");
  su ← opt as_str (prop v "subver"); sh ← opt as_int (prop v "startHeight");
  Some {| firstSeen := fs; lastSeen := ls; depth := dp; network := nw; ip := i; port := pt; parent := pa;
          lastCrawled := lc; lastCrawlOk := ok; lastCrawlAddrCount := ac; p_services := sv; p_subver := su;
          p_startHeight := sh |}.

Definition store_of : json -> option store := as_object peer_of.

Definition geo_entry_of (v : json) : option GeoEntry :=
  c ← opt as_str (prop v "country"); cc ← req as_str (prop v "countryCode");
  la ← opt as_num (prop v "lat"); lo ← opt as_num (prop v "lon"); t ← opt as_int (prop v "at");
  Some {| info := {| country := c; countryCode := cc; lat := la; lon := lo |}; at_time := t |}.

Definition cache_of : json -> option cache := as_object geo_entry_of.

Definition node_of (v : json) : option Node :=
  nw ← req as_network (prop v "network"); i ← opt as_str (prop v "ip"); ad ← opt as_str (prop v "address");
  pt ← opt as_int (prop v "port"); fs ← opt as_int (prop v "firstSeen"); ls ← opt as_int (prop v "lastSeen");
  su ← opt as_str (prop v "subver"); sh ← opt as_int (prop v "startHeight"); dp ← opt as_int (prop v "depth");
  pa ← opt as_str (prop v "parent"); c ← opt as_str (prop v "country"); cc ← opt as_str (prop v "countryCode");
  la ← opt as_num (prop v "lat"); lo ← opt as_num (prop v "lon");
  Some {| n_network := nw; n_ip := i; n_address := ad; n_port := pt; n_firstSeen := fs; n_lastSeen := ls;
          n_subver := su; n_startHeight := sh; n_depth := dp; n_parent := pa; n_country := c;
          n_countryCode := cc; n_lat := la; n_lon := lo |}.

Definition country_of (v : json) : option CountryCount :=
  c ← req as_str (prop v "code"); n ← opt as_str (prop v "name"); k ← req as_int (prop v "count");
  Some {| code := c; name := n; count := k |}.

Definition snapshot_of (v : json) : option SnapshotData :=
  g ← opt as_date (prop v "generatedAt"); tk ← req as_int (prop v "totalKnown");
  oc ← req as_int (prop v "onlineCount"); nc ← req (as_object as_int) (prop v "networkCounts");
  cs ← req (as_list country_of) (prop v "countries"); ns ← req (as_list node_of) (prop v "nodes");
  Some {| generatedAt := g; totalKnown := tk; onlineCount := oc; networkCounts := nc; countries := cs; nodes := ns |}.

(** ** What the texts stand for *)

(** The texts of one key. *)
Inductive stands {A} (d : json -> option A) : option jsstr -> entry A -> Prop :=
  | stands_absent : stands d None Absent
  | stands_empty : stands d (Some []) Absent
  | stands_malformed s : s <> [] -> json_parse s = None -> stands d (Some s) Malformed
  | stands_stored s v a : json_parse s = Some v -> json_wf v -> d v = Some a -> stands d (Some s) (Stored a).

Record KVText := { t_peers : option jsstr; t_geo : option jsstr; t_snapshot : option jsstr }.

Record stand (t : KVText) (kv : KV) : Prop := {
  sd_peers : stands store_of (t_peers t) (kv_peers kv);
  sd_geo : stands cache_of (t_geo t) (kv_geo kv);
  sd_snapshot : stands snapshot_of (t_snapshot t) (kv_snapshot kv)
}.

(** A text [kvPutJson] may put for a value: the properties are in any order. *)
Definition prints {A} (d : json -> option A) (a : A) (s : jsstr) : Prop :=
  exists v, json_wf v /\ d v = Some a /\ s = kvPutJson v.

(** ** A pass on texts *)

(** [!v] *)
Definition falsy_json (v : json) : bool :=
  match v with
  | JNull | JBool false | JStr [] => true
  | JNum x => match x with NaN => true | Infty _ => false | Dyadic m _ => m =? 0 end
  | _ => false
  end.

Section WithSha256.
Context {SHA : Sha256}.

Definition text_get (w : World) (op : kv_op) (t : KVText) (next : option pass) : option (KVText * pass) :=
  match w_kv w op with
  | Fulfilled => n ← next; Some (t, n)
  | Rejected _ => Some (t, Finished (Throw KvError))
  end.

Definition text_put (w : World) (op : kv_op) (t t' : KVText) (next : pass) : KVText * pass :=
  match w_kv w op with
  | Fulfilled => (t', next)
  | Rejected applied => (if applied then t' else t, Finished (Throw KvError))
  end.

(** One step; [out] is the text it puts, if it puts one.  [None] where a text
    has a value of another shape. *)
Definition text_step (w : World) (cfg : Config) (out : jsstr) (t : KVText) (p : pass) : option (KVText * pass) :=
  match p with
  | AtGetPeers => text_get w GetPeers t (AtCrawl <$> store_of (kvGetJson (t_peers t) (JObj [])))
  | AtCrawl st =>
    Some (t, match crawl_from w cfg st with Ok st' => AtPutPeers st' | Throw e => Finished (Throw e) end)
  | AtPutPeers st =>
    Some (text_put w PutPeers t {| t_peers := Some out; t_geo := t_geo t; t_snapshot := t_snapshot t |} (AtGetSnapshot st))
  | AtGetSnapshot st =>
    text_get w GetSnapshot t
      (let v := kvGetJson (t_snapshot t) JNull in
       if falsy_json v then Some (AtGetGeo st)
       else existing ← snapshot_of v;
            Some (if isStale cfg (w_check_ms w) (Some existing) then AtGetGeo st else Finished (Ok existing)))
  | AtGetGeo st =>
    text_get w GetGeo t
      (geoCache ← cache_of (kvGetJson (t_geo t) (JObj []));
       let '(s, mergedGeo) := rebuilt w cfg st geoCache in Some (AtPutGeo s mergedGeo))
  | AtPutGeo s mergedGeo =>
    Some (text_put w PutGeo t {| t_peers := t_peers t; t_geo := Some out; t_snapshot := t_snapshot t |} (AtPutSnapshot s))
  | AtPutSnapshot s =>
    Some (text_put w PutSnapshot t {| t_peers := t_peers t; t_geo := t_geo t; t_snapshot := Some out |} (Finished (Ok s)))
  | Finished r => Some (t, Finished r)
  end.

(** The text a step puts is one of its value. *)
Definition puts (p : pass) (out : jsstr) : Prop :=
  match p with
  | AtPutPeers st => prints store_of st out
  | AtPutGeo _ mergedGeo => prints cache_of mergedGeo out
  | AtPutSnapshot s => prints snapshot_of s out
  | _ => True
  end.

(** The steps of a pass, with the texts they put. *)
Inductive text_run (w : World) (cfg : Config) : nat -> KVText -> pass -> KVText -> pass -> Prop :=
  | text_run_0 t p : text_run w cfg 0 t p t p
  | text_run_S n t p out t1 p1 t2 p2 :
      puts p out -> text_step w cfg out t p = Some (t1, p1) -> text_run w cfg n t1 p1 t2 p2 ->
      text_run w cfg (S n) t p t2 p2.

End WithSha256.

(** [GET /]: the status and the text of the response. *)
Definition serve (t : KVText) : Z * jsstr :=
  let v := kvGetJson (t_snapshot t) JNull in
  if falsy_json v then
    (503, stringify (jss "  ")
            (JObj [(jss "error", JStr (jss "no snapshot available yet -- wait for the first cron run or hit ?cron=1"))]))
  else (200, stringify (jss "  ") v).

(** ** Lemmas: reading *)

Lemma stands_get {A} (d : json -> option A) t e fb a :
  stands d t e -> d fb = Some a -> d (kvGetJson t fb) = Some (Worker.kvGetJson e a).
Proof.
  intros H Hfb. destruct H as [| |s Hs E|s v b E Hw Hd]; try done; unfold kvGetJson; cbn [truthy].
  - destruct s; [done|]. by rewrite E.
  - destruct s as [|c s]; [done|]. by rewrite E.
Qed.

Lemma snapshot_truthy v s : snapshot_of v = Some s -> falsy_json v = false.
Proof. destruct v as [|[]|x|[]|l|o]; try done. Qed.

Lemma stands_snapshot t e :
  stands snapshot_of t e ->
  let v := kvGetJson t JNull in
  match e with
  | Stored s => falsy_json v = false /\ snapshot_of v = Some s /\ json_wf v
  | _ => falsy_json v = true
  end.
Proof.
  intros H. destruct H as [| |s Hs E|s v b E Hw Hd]; try done; unfold kvGetJson; cbn [truthy].
  - destruct s; [done|]. by rewrite E.
  - destruct s as [|c s]; [done|]. rewrite E. split; [by eapply snapshot_truthy|done].
Qed.

Lemma prints_stands {A} (d : json -> option A) a s : prints d a s -> stands d (Some s) (Stored a).
Proof. intros (v & Hw & Hd & ->). apply (stands_stored _ _ v); [|done..]. by apply parse_stringify; [constructor|]. Qed.

Section WithSha256.
Context {SHA : Sha256}.

(** One step on texts is one step on values. *)
Lemma text_step_refines w cfg out t kv p :
  stand t kv -> puts p out ->
  exists t', text_step w cfg out t p = Some (t', (pass_step w cfg kv p).2) /\ stand t' (pass_step w cfg kv p).1.
Proof.
  intros Hs Hp. pose proof Hs as [H1 H2 H3].
  destruct p as [|st|st|st|st|s g|s|r]; cbn [text_step pass_step]; unfold text_get, text_put, await_get, await_put.
  - rewrite (stands_get _ _ _ (JObj []) [] H1 eq_refl). destruct (w_kv w _); cbn; eauto.
  - destruct (crawl_from _ _ _); cbn; eauto.
  - pose proof (prints_stands _ _ _ Hp). destruct (w_kv w _) as [|[]]; cbn; eexists; (split; [done|]); done.
  - pose proof (stands_snapshot _ _ H3) as Hv. unfold getSnapshot. destruct (w_kv w _) as [|b]; [|cbn; eauto].
    destruct (kv_snapshot kv) as [| |s]; cbn zeta in Hv; [rewrite Hv; cbn; eauto..|].
    destruct Hv as (Ef & Es & _). rewrite Ef, Es. obind. destruct (isStale _ _ _); eauto.
  - rewrite (stands_get _ _ _ (JObj []) [] H2 eq_refl). destruct (w_kv w _); cbn; [|eauto].
    destruct (rebuilt _ _ _ _); cbn; eauto.
  - pose proof (prints_stands _ _ _ Hp). destruct (w_kv w _) as [|[]]; cbn; eexists; (split; [done|]); done.
  - pose proof (prints_stands _ _ _ Hp). destruct (w_kv w _) as [|[]]; cbn; eexists; (split; [done|]); done.
  - cbn. eauto.
Qed.

End WithSha256.

(** ** Lemmas: writing *)

Lemma padded_units w n : units (padded w n).
Proof.
  apply Forall_app. split; [by apply Forall_replicate|].
  eapply Forall_impl; [apply (to_string_ascii 10 n); lia|]. cbn. lia.
Qed.

Lemma iso_units t : units (toISOString t).
Proof.
  unfold toISOString, units. rewrite !Forall_app.
  split_and!; first [apply padded_units|by repeat constructor].
Qed.

(** Every value has a JSON value, and so a text. *)
Class Codec {A} (d : json -> option A) := {
  encode : A -> json;
  storable : A -> Prop;
  encode_wf a : storable a -> json_wf (encode a);
  decode_encode a : storable a -> d (encode a) = Some a;
  encode_not_null a : encode a <> JNull
}.
Arguments encode {A} d {_} a.
Arguments storable {A} d {_} a.

Lemma storable_prints {A} (d : json -> option A) `{!Codec d} a : storable d a -> exists s, prints d a s.
Proof. intros H. exists (kvPutJson (encode d a)), (encode d a). split; [by apply encode_wf|]. split; [by apply decode_encode|done]. Qed.

#[refine, export] Instance int_codec : Codec as_int :=
  {| encode z := JNum (num z); storable z := finite_double (num z) /\ integer_of (num z) = Some z |}.
Proof. all: [> by intros a []|by intros a []|done]. Defined.

#[refine, export] Instance num_codec : Codec as_num := {| encode x := JNum x; storable x := finite_double x |}.
Proof. all: [> done|done|done]. Defined.

#[refine, export] Instance str_codec : Codec as_str := {| encode s := JStr s; storable s := units s |}.
Proof. all: [> done|done|done]. Defined.

#[refine, export] Instance bool_codec : Codec as_bool := {| encode b := JBool b; storable _ := True |}.
Proof. all: [> done|done|done]. Defined.

#[refine, export] Instance date_codec : Codec as_date := {| encode t := JStr (toISOString t); storable t := dated t |}.
Proof. all: [> | |done].
  - intros t _. apply iso_units.
  - apply date_roundtrip.
Defined.

#[refine, export] Instance network_codec : Codec as_network := {| encode n := JStr (network_name n); storable _ := True |}.
Proof. all: [> | |done].
  - by intros [] _; repeat constructor.
  - by intros [] _.
Defined.

Section Containers.
Context {A} (d : json -> option A) `{!Codec d}.

#[refine, export] Instance list_codec : Codec (as_list d) :=
  {| encode l := JArr (List.map (encode d) l); storable l := Forall (storable d) l |}.
Proof. all: [> | |done].
  - intros l Hl. apply json_wf_elements, Forall_map. eapply Forall_impl; [exact Hl|apply encode_wf].
  - cbn. induction 1 as [|a l Ha _ IH]; cbn; [done|]. rewrite decode_encode by done. cbn. by rewrite IH.
Defined.

#[refine, export] Instance object_codec : Codec (as_object d) :=
  {| encode o := JObj (List.map (fun kx => (kx.1, encode d kx.2)) o);
     storable o := Obj.canonical o /\ Forall (fun kx => units kx.1 /\ storable d kx.2) o |}.
Proof. all: [> | |done].
  - intros o [Hc Ho]. apply json_wf_members. split.
    + unfold Obj.canonical, Obj.wf, Obj.keys in *. rewrite List.map_map. exact Hc.
    + apply Forall_map. eapply Forall_impl; [exact Ho|]. intros [k a] [Hk Ha]. split; [done|by apply encode_wf].
  - cbn. intros o [_ Ho]. induction Ho as [|[k a] o [_ Ha] _ IH]; cbn; [done|]. cbn in Ha. rewrite decode_encode by done.
    cbn. cbn in IH. by rewrite IH.
Defined.

(** A property that may be [null]. *)
Definition enc (x : option A) : json := match x with Some a => encode d a | None => JNull end.
Definition opt_storable (x : option A) : Prop := match x with Some a => storable d a | None => True end.

Lemma enc_wf x : opt_storable x -> json_wf (enc x).
Proof. destruct x; [apply encode_wf|done]. Qed.

Lemma opt_enc x : opt_storable x -> opt d (Some (enc x)) = Some x.
Proof.
  destruct x as [a|]; [|done]. intros H. cbn. pose proof (encode_not_null a) as Hn. pose proof (decode_encode a H) as E.
  destruct (encode d a); try done; by rewrite E.
Qed.

Lemma req_enc a : storable d a -> req d (Some (encode d a)) = Some a.
Proof. apply decode_encode. Qed.

End Containers.

(** The properties of a record are those of its JSON value. *)
Ltac record_wf :=
  apply plain_wf; [vm_compute; reflexivity|]; unfold Obj.values; cbn [List.map snd];
  rewrite !Forall_cons, Forall_nil; split_and!; first [done | by apply enc_wf | by apply encode_wf].

Ltac record_decode :=
  repeat match goal with
         | |- context [prop ?v ?n] => let x := eval hnf in (prop v n) in change (prop v n) with x
         end;
  repeat ((rewrite opt_enc by done) || (rewrite req_enc by done); obind).

Definition peer_json (p : Peer) : json :=
  JObj [(jss "firstSeen", enc as_int (firstSeen p)); (jss "lastSeen", enc as_int (lastSeen p));
        (jss "depth", enc as_int (depth p)); (jss "network", enc as_network (network p));
        (jss "ip", enc as_str (ip p)); (jss "port", enc as_int (port p)); (jss "parent", enc as_str (parent p));
        (jss "lastCrawled", enc as_int (lastCrawled p)); (jss "lastCrawlOk", enc as_bool (lastCrawlOk p));
        (jss "lastCrawlAddrCount", enc as_int (lastCrawlAddrCount p)); (jss "services", enc as_int (p_services p));
        (jss "subver", enc as_str (p_subver p)); (jss "startHeight", enc as_int (p_startHeight p))].

Definition peer_storable (p : Peer) : Prop :=
  opt_storable as_int (firstSeen p) /\ opt_storable as_int (lastSeen p) /\ opt_storable as_int (depth p)
  /\ opt_storable as_network (network p) /\ opt_storable as_str (ip p) /\ opt_storable as_int (port p)
  /\ opt_storable as_str (parent p) /\ opt_storable as_int (lastCrawled p) /\ opt_storable as_bool (lastCrawlOk p)
  /\ opt_storable as_int (lastCrawlAddrCount p) /\ opt_storable as_int (p_services p)
  /\ opt_storable as_str (p_subver p) /\ opt_storable as_int (p_startHeight p).

#[refine, export] Instance peer_codec : Codec peer_of := {| encode := peer_json; storable := peer_storable |}.
Proof. all: [> | |done].
  - intros p Hp. unfold peer_storable in Hp. destruct_and! Hp. record_wf.
  - intros p Hp. unfold peer_storable in Hp. destruct_and! Hp. unfold peer_of. record_decode. by destruct p.
Defined.

Definition geo_entry_json (e : GeoEntry) : json :=
  JObj [(jss "country", enc as_str (country (info e))); (jss "countryCode", encode as_str (countryCode (info e)));
        (jss "lat", enc as_num (lat (info e))); (jss "lon", enc as_num (lon (info e))); (jss "at", enc as_int (at_time e))].

Definition geo_entry_storable (e : GeoEntry) : Prop :=
  opt_storable as_str (country (info e)) /\ storable as_str (countryCode (info e))
  /\ opt_storable as_num (lat (info e)) /\ opt_storable as_num (lon (info e)) /\ opt_storable as_int (at_time e).

#[refine, export] Instance geo_entry_codec : Codec geo_entry_of :=
  {| encode := geo_entry_json; storable := geo_entry_storable |}.
Proof. all: [> | |done].
  - intros e He. unfold geo_entry_storable in He. destruct_and! He. record_wf.
  - intros e He. unfold geo_entry_storable in He. destruct_and! He. unfold geo_entry_of. record_decode. by destruct e as [[]].
Defined.

Definition node_json (n : Node) : json :=
  JObj [(jss "network", encode as_network (n_network n)); (jss "ip", enc as_str (n_ip n));
        (jss "address", enc as_str (n_address n)); (jss "port", enc as_int (n_port n));
        (jss "firstSeen", enc as_int (n_firstSeen n)); (jss "lastSeen", enc as_int (n_lastSeen n));
        (jss "subver", enc as_str (n_subver n)); (jss "startHeight", enc as_int (n_startHeight n));
        (jss "depth", enc as_int (n_depth n)); (jss "parent", enc as_str (n_parent n));
        (jss "country", enc as_str (n_country n)); (jss "countryCode", enc as_str (n_countryCode n));
        (jss "lat", enc as_num (n_lat n)); (jss "lon", enc as_num (n_lon n))].

Definition node_storable (n : Node) : Prop :=
  opt_storable as_str (n_ip n) /\ opt_storable as_str (n_address n) /\ opt_storable as_int (n_port n)
  /\ opt_storable as_int (n_firstSeen n) /\ opt_storable as_int (n_lastSeen n) /\ opt_storable as_str (n_subver n)
  /\ opt_storable as_int (n_startHeight n) /\ opt_storable as_int (n_depth n) /\ opt_storable as_str (n_parent n)
  /\ opt_storable as_str (n_country n) /\ opt_storable as_str (n_countryCode n) /\ opt_storable as_num (n_lat n)
  /\ opt_storable as_num (n_lon n).

#[refine, export] Instance node_codec : Codec node_of := {| encode := node_json; storable := node_storable |}.
Proof. all: [> | |done].
  - intros n Hn. unfold node_storable in Hn. destruct_and! Hn. record_wf.
  - intros n Hn. unfold node_storable in Hn. destruct_and! Hn. unfold node_of. record_decode. by destruct n.
Defined.

Definition country_json (c : CountryCount) : json :=
  JObj [(jss "code", encode as_str (code c)); (jss "name", enc as_str (name c)); (jss "count", encode as_int (count c))].

Definition country_storable (c : CountryCount) : Prop :=
  storable as_str (code c) /\ opt_storable as_str (name c) /\ storable as_int (count c).

#[refine, export] Instance country_codec : Codec country_of := {| encode := country_json; storable := country_storable |}.
Proof. all: [> | |done].
  - intros c Hc. unfold country_storable in Hc. destruct Hc as (H1 & H2 & H3). record_wf.
  - intros c Hc. unfold country_storable in Hc. destruct Hc as (H1 & H2 & H3). unfold country_of. record_decode. by destruct c.
Defined.

Definition snapshot_json (s : SnapshotData) : json :=
  JObj [(jss "generatedAt", enc as_date (generatedAt s)); (jss "totalKnown", encode as_int (totalKnown s));
        (jss "onlineCount", encode as_int (onlineCount s)); (jss "networkCounts", encode (as_object as_int) (networkCounts s));
        (jss "countries", encode (as_list country_of) (countries s)); (jss "nodes", encode (as_list node_of) (nodes s))].

Definition snapshot_storable (s : SnapshotData) : Prop :=
  opt_storable as_date (generatedAt s) /\ storable as_int (totalKnown s) /\ storable as_int (onlineCount s)
  /\ storable (as_object as_int) (networkCounts s) /\ storable (as_list country_of) (countries s)
  /\ storable (as_list node_of) (nodes s).

#[refine, export] Instance snapshot_codec : Codec snapshot_of :=
  {| encode := snapshot_json; storable := snapshot_storable |}.
Proof. all: [> | |done].
  - intros s Hs. unfold snapshot_storable in Hs. destruct Hs as (H1 & H2 & H3 & H4 & H5 & H6). record_wf.
  - intros s Hs. unfold snapshot_storable in Hs. destruct Hs as (H1 & H2 & H3 & H4 & H5 & H6). unfold snapshot_of.
    record_decode. by destruct s.
Defined.

#[export] Instance store_codec : Codec store_of := object_codec peer_of.
#[export] Instance cache_codec : Codec cache_of := object_codec geo_entry_of.

(** ** Lemmas: the order of the properties *)

Lemma set_all_canonical {A B} (f : list (jsstr * A) -> B -> list (jsstr * A)) l :
  (forall o x, Obj.canonical o -> Obj.canonical (f o x)) -> forall o, Obj.canonical o -> Obj.canonical (foldl f o l).
Proof. intros Hf. induction l as [|x l IH]; intros o Ho; cbn; [done|]. by apply IH, Hf. Qed.

Lemma heal_canonical st : Obj.canonical st -> Obj.canonical (heal_all st).
Proof. unfold Obj.canonical, Obj.wf. by rewrite keys_heal_all. Qed.

Lemma update_canonical st k f st' : update st k f = Ok st' -> Obj.canonical st -> Obj.canonical st'.
Proof. unfold update. destruct (Obj.get st k); [|done]. intros H Hs. apply Ok_inj in H as <-. by apply Obj.set_canonical. Qed.

Lemma learn_canonical now key d st a : Obj.canonical st -> Obj.canonical (learn_addr now key d st a).
Proof. intros H. unfold learn_addr. case_bool_decide; [done|]. by apply Obj.set_canonical. Qed.

Lemma candidate_canonical crawl cfg now n st c st' :
  crawl_candidate crawl cfg now n st c = Ok st' -> Obj.canonical st -> Obj.canonical st'.
Proof.
  unfold crawl_candidate. destruct (Obj.get st (c_key c)); [|done]. destruct (crawl _ _ _) as [r|]; rbind; [|done].
  destruct (update st _ _) as [s2|] eqn:E2; rbind; [|done]. intros H Hs.
  pose proof (update_canonical _ _ _ _ E2 Hs) as H2. revert H. destruct r as [r|]; [|intros H; by eapply update_canonical].
  destruct (update s2 _ _) as [s3|] eqn:E3; rbind; [|done]. intros H. apply Ok_inj in H as <-.
  apply set_all_canonical; [intros; by apply learn_canonical|by eapply update_canonical].
Qed.

Lemma crawl_canonical crawl cfg now cs : forall n st st',
  crawl_all crawl cfg now n st cs = Ok st' -> Obj.canonical st -> Obj.canonical st'.
Proof.
  induction cs as [|c cs IH]; intros n st st'; cbn [crawl_all]; [intros H; by apply Ok_inj in H as <-|].
  destruct (crawl_candidate crawl cfg now n st c) as [s1|] eqn:E; rbind; [|done]. intros H Hs. apply (IH _ _ _ H).
  by eapply candidate_canonical.
Qed.

Lemma advance_canonical doh crawl cfg now st st' :
  advanceCrawl doh crawl cfg now st = Ok st' -> Obj.canonical st -> Obj.canonical st'.
Proof.
  unfold advanceCrawl. destruct (find_roots _ _) as [roots|]; rbind; [|done].
  destruct (crawl_all _ _ _ _ _ _) as [s1|] eqn:E; rbind; [|done]. intros H Hs. apply Ok_inj in H as <-.
  unfold prune. apply set_all_canonical.
  - intros o k Ho. destruct (Obj.get o k); [|done]. destruct (js_ltb _ _); [by apply Obj.remove_canonical|done].
  - apply (crawl_canonical _ _ _ _ _ _ _ E), heal_canonical. apply set_all_canonical; [|done].
    intros o a Ho. by apply Obj.set_canonical.
Qed.

Lemma rebuilt_canonical w cfg st g :
  Obj.canonical (networkCounts (rebuilt w cfg st g).1) /\ Obj.canonical (rebuilt w cfg st g).2.
Proof.
  unfold rebuilt, rebuildSnapshot. destruct (resolveGeo _ _ _ _ _ _) as [geo k]. cbn [fst snd]. split.
  - unfold build. destruct (foldl _ _ _) as [counts ns]. cbn [networkCounts].
    apply set_all_canonical; [intros; by apply Obj.set_canonical|apply Obj.nil_canonical].
  - apply Obj.assign_keeps_canonical, Obj.assign_keeps_canonical, Obj.nil_canonical.
Qed.

Lemma as_object_keys {A} (d : json -> option A) o a : mapM (fun kx => (fun x => (kx.1, x)) <$> d kx.2) o = Some a -> Obj.keys a = Obj.keys o.
Proof.
  revert a. induction o as [|[k v] o IH]; intros a; cbn; [by intros [= <-]|].
  destruct (d v) as [x|]; cbn; [|done]. destruct (mapM _ o) as [a'|]; cbn; [|done]. intros [= <-]. cbn. f_equal. by apply IH.
Qed.

Lemma as_object_canonical {A} (d : json -> option A) v a : json_wf v -> as_object d v = Some a -> Obj.canonical a.
Proof.
  destruct v as [| | | | |o]; try done. intros [Hc _]%json_wf_members E%as_object_keys.
  unfold Obj.canonical, Obj.wf in *. by rewrite E.
Qed.

(** ** A pass on texts and a pass on values *)

(** The objects a pass holds list their properties as they can be read back. *)
Definition ordered (p : pass) : Prop :=
  match p with
  | AtCrawl st | AtPutPeers st | AtGetSnapshot st | AtGetGeo st => Obj.canonical st
  | AtPutGeo s g => Obj.canonical g /\ Obj.canonical (networkCounts s)
  | AtPutSnapshot s => Obj.canonical (networkCounts s)
  | AtGetPeers | Finished _ => True
  end.

(** Strings have 16-bit units, and numbers are doubles. *)
Definition entries_ok {A} (d : json -> option A) `{!Codec d} (o : list (jsstr * A)) : Prop :=
  Forall (fun kx => units kx.1 /\ storable d kx.2) o.

Definition snapshot_ok (s : SnapshotData) : Prop :=
  opt_storable as_date (generatedAt s) /\ storable as_int (totalKnown s) /\ storable as_int (onlineCount s)
  /\ entries_ok as_int (networkCounts s) /\ storable (as_list country_of) (countries s)
  /\ storable (as_list node_of) (nodes s).

Definition pass_ok (p : pass) : Prop :=
  match p with
  | AtPutPeers st => entries_ok peer_of st
  | AtPutGeo _ g => entries_ok geo_entry_of g
  | AtPutSnapshot s => snapshot_ok s
  | _ => True
  end.

Lemma pass_puts p : ordered p -> pass_ok p -> exists out, puts p out.
Proof.
  destruct p as [|st|st|st|st|s g|s|r]; cbn [ordered pass_ok puts]; intros Ho Hp; try (by exists []).
  - by apply (storable_prints store_of).
  - apply (storable_prints cache_of). by split; [apply Ho|].
  - apply (storable_prints snapshot_of). destruct Hp as (H1 & H2 & H3 & H4 & H5 & H6). by split_and!.
Qed.

Section Runs.
Context {SHA : Sha256}.

Lemma ordered_step w cfg t kv p : stand t kv -> ordered p -> ordered (pass_step w cfg kv p).2.
Proof.
  intros [H1 H2 H3] Hp. destruct p as [|st|st|st|st|s g|s|r]; cbn [pass_step]; unfold await_get, await_put.
  - destruct (w_kv w _); [|done]. cbn. destruct H1 as [| |s Hs E|s v a E Hw Hd]; cbn; try apply Obj.nil_canonical.
    by eapply as_object_canonical.
  - destruct (crawl_from w cfg st) as [st'|] eqn:E; [|done]. cbn. by eapply advance_canonical.
  - by destruct (w_kv w _).
  - destruct (w_kv w _); [|done]. destruct (getSnapshot kv) as [ex|]; [|done]. by destruct (isStale _ _ _).
  - destruct (w_kv w _); [|done]. cbn [snd]. pose proof (rebuilt_canonical w cfg st (Worker.kvGetJson (kv_geo kv) [])) as [Hn Hg].
    by destruct (rebuilt _ _ _ _).
  - destruct (w_kv w _); [apply Hp|done].
  - by destruct (w_kv w _).
  - done.
Qed.

Lemma text_run_refines w cfg n t p t' p' :
  text_run w cfg n t p t' p' -> forall kv, stand t kv -> ordered p ->
  p' = (pass_steps n w cfg kv p).2 /\ stand t' (pass_steps n w cfg kv p).1 /\ ordered p'.
Proof.
  induction 1 as [t p|n t p out t1 p1 t2 p2 Hp E _ IH]; intros kv Hs Ho; [done|].
  destruct (text_step_refines w cfg out t kv p Hs Hp) as (t1' & E' & Hs'). rewrite E in E'. simplify_eq.
  pose proof (ordered_step w cfg t kv p Hs Ho) as Ho'. cbn [pass_steps].
  destruct (pass_step w cfg kv p) as [kv1 p1]. by apply IH.
Qed.

Lemma run_refines w cfg t kv t' p' :
  stand t kv -> text_run w cfg 7 t AtGetPeers t' p' ->
  p' = Finished (runDiscoveryAndSnapshot w cfg kv).2 /\ stand t' (runDiscoveryAndSnapshot w cfg kv).1.
Proof.
  intros Hs H. destruct (text_run_refines _ _ _ _ _ _ _ H kv Hs I) as (-> & Hs' & _).
  destruct (runDiscoveryAndSnapshot w cfg kv) as [kv' r] eqn:E. apply run_steps in E. by rewrite E in *.
Qed.

(** ** Theorems *)

(** C10: a pass on the texts of the key-value store is a pass on the values they
    stand for: it ends with the same result, and leaves texts of the values the
    other one leaves, in whatever order it writes the properties of a record.
    And it is never stuck: each text it wrote before or found is read, and the
    values it writes have a text, since strings are of 16-bit units and numbers
    are doubles. *)
Theorem texts_refine_values w cfg t kv :
  stand t kv ->
  (forall t' p', text_run w cfg 7 t AtGetPeers t' p' ->
     p' = Finished (runDiscoveryAndSnapshot w cfg kv).2 /\ stand t' (runDiscoveryAndSnapshot w cfg kv).1)
  /\ (forall n t1 p1, text_run w cfg n t AtGetPeers t1 p1 -> pass_ok p1 ->
        exists out t2 p2, puts p1 out /\ text_step w cfg out t1 p1 = Some (t2, p2)).
Proof.
  intros Hs. split; [intros; by apply (run_refines w cfg t)|]. intros n t1 p1 H Hp. destruct (text_run_refines _ _ _ _ _ _ _ H kv Hs I) as (_ & Hs' & Ho).
  destruct (pass_puts p1 Ho Hp) as [out Hout].
  destruct (text_step_refines w cfg out t1 _ p1 Hs' Hout) as (t2 & E & _). by eexists out, t2, _.
Qed.

(** [GET /] answers with the status of the model on values, and with a text
    from which the stored snapshot, or the error, is read. *)
Theorem served_text w env req t kv r :
  stand t kv -> method req <> jss "OPTIONS" -> q_cron req <> Some (jss "1") ->
  fetch w env req kv = (kv, Ok r) ->
  (serve t).1 = status r
  /\ match body r with
     | BSnapshot s => exists v, json_parse (serve t).2 = Some v /\ snapshot_of v = Some s
     | BError e => json_parse (serve t).2 = Some (JObj [(jss "error", JStr e)])
     | _ => False
     end.
Proof.
  intros [_ _ H3] Hm Hq. unfold fetch, answer_request, serve. rewrite !bool_decide_eq_false_2 by done.
  pose proof (stands_snapshot _ _ H3) as Hv. cbn zeta in Hv. unfold getSnapshot.
  destruct (w_kv w GetSnapshot); [|done].
  destruct (kv_snapshot kv) as [| |s]; [rewrite Hv..|destruct Hv as (-> & Es & Hw)]; intros [= <-]; (split; [done|]); cbn [body jsonResponse snd].
  - vm_compute; reflexivity.
  - vm_compute; reflexivity.
  - eexists. split; [|done]. by apply parse_stringify; [repeat constructor|].
Qed.

End Runs.

(** C23: a value the worker stores has a text, and from any text [kvPutJson] puts
    for it, [kvGetJson] reads the same value again: peers, the geolocation
    cache, and snapshots with the date they were made. *)
Theorem stored_text_roundtrip st g s :
  storable store_of st -> storable cache_of g -> storable snapshot_of s ->
  (exists x y z, prints store_of st x /\ prints cache_of g y /\ prints snapshot_of s z)
  /\ forall x y z fb, prints store_of st x -> prints cache_of g y -> prints snapshot_of s z ->
       store_of (kvGetJson (Some x) fb) = Some st /\ cache_of (kvGetJson (Some y) fb) = Some g
       /\ snapshot_of (kvGetJson (Some z) fb) = Some s.
Proof.
  intros H1 H2 H3.
  assert (forall A (d : json -> option A) a x fb, prints d a x -> d (kvGetJson (Some x) fb) = Some a) as Hget.
  { intros A d a x fb Hx%prints_stands. inversion Hx as [| | |x' v a' E Hw Hd]; subst. unfold kvGetJson.
    destruct x as [|c x]; [done|]. cbn [truthy]. by rewrite E. }
  split; [|by intros; split_and!; apply Hget].
  destruct (storable_prints store_of st H1) as [x Hx], (storable_prints cache_of g H2) as [y Hy],
    (storable_prints snapshot_of s H3) as [z Hz]. by exists x, y, z.
Qed.

(** ** Witnesses *)

Definition no_texts : KVText := {| t_peers := None; t_geo := None; t_snapshot := None |}.

Lemma no_texts_stand : stand no_texts empty_kv.
Proof. split; constructor. Qed.

(** A pass that writes the properties in the order of the records. *)
Definition printed (p : pass) : jsstr :=
  match p with
  | AtPutPeers st => kvPutJson (encode store_of st)
  | AtPutGeo _ g => kvPutJson (encode cache_of g)
  | AtPutSnapshot s => kvPutJson (encode snapshot_of s)
  | _ => []
  end.

Fixpoint text_steps {SHA : Sha256} (n : nat) (w : World) (cfg : Config) (t : KVText) (p : pass) : option (KVText * pass) :=
  match n with
  | O => Some (t, p)
  | S n' => '(t', p') ← text_step w cfg (printed p) t p; text_steps n' w cfg t' p'
  end.

Example text_pass :
  match text_steps (SHA := platform_sha256) 7 example_world example_config no_texts AtGetPeers with
  | Some (t, Finished (Ok s)) =>
    s = example_snapshot /\ (serve t).1 = 200 /\ (json_parse (serve t).2 ≫= snapshot_of) = Some example_snapshot
    /\ snd <$> text_steps (SHA := platform_sha256) 4 example_world example_config t AtGetPeers = Some (Finished (Ok s))
  | _ => False
  end.
Proof. vm_compute. split_and!; reflexivity. Qed.

Lemma encode_prints {A} (d : json -> option A) `{!Codec d} a :
  json_wf_b (encode d a) = true -> d (encode d a) = Some a -> prints d a (kvPutJson (encode d a)).
Proof. intros H%json_wf_b_sound E. by exists (encode d a). Qed.

(** The texts of that pass are texts of its values. *)
Definition puts_printed (p : pass) : Prop :=
  match p with
  | AtPutPeers st => json_wf_b (encode store_of st) = true /\ store_of (encode store_of st) = Some st
  | AtPutGeo _ g => json_wf_b (encode cache_of g) = true /\ cache_of (encode cache_of g) = Some g
  | AtPutSnapshot s => json_wf_b (encode snapshot_of s) = true /\ snapshot_of (encode snapshot_of s) = Some s
  | _ => True
  end.

Fixpoint all_printed {SHA : Sha256} (n : nat) (w : World) (cfg : Config) (t : KVText) (p : pass) : Prop :=
  match n with
  | O => True
  | S n' => puts_printed p /\ match text_step w cfg (printed p) t p with
                             | Some (t', p') => all_printed n' w cfg t' p'
                             | None => True
                             end
  end.

Lemma text_steps_run {SHA : Sha256} n w cfg : forall t p t' p',
  all_printed n w cfg t p -> text_steps n w cfg t p = Some (t', p') -> text_run w cfg n t p t' p'.
Proof.
  induction n as [|n IH]; intros t p t' p'; cbn [all_printed text_steps]; [intros _ [= <- <-]; constructor|].
  intros [Hp Ha]. destruct (text_step w cfg (printed p) t p) as [[t1 p1]|] eqn:E; obind; [|done]. intros H.
  eapply text_run_S; [|exact E|by apply IH].
  destruct p; cbn [puts puts_printed printed] in *; try done; destruct Hp; by apply encode_prints.
Qed.

Definition example_texts : KVText :=
  match text_steps (SHA := platform_sha256) 7 example_world example_config no_texts AtGetPeers with
  | Some (t, _) => t
  | None => no_texts
  end.

Lemma example_text_run :
  text_run (SHA := platform_sha256) example_world example_config 7 no_texts AtGetPeers example_texts
    (Finished (Ok example_snapshot)).
Proof.
  apply text_steps_run; [|vm_compute; reflexivity]. vm_compute. split_and!; (exact I || reflexivity).
Qed.

Lemma texts_refine_values_witness :
  Finished (Ok example_snapshot) = Finished example_pass.2 /\ stand example_texts example_pass.1.
Proof.
  apply (texts_refine_values (SHA := platform_sha256) example_world example_config no_texts empty_kv no_texts_stand).
  exact example_text_run.
Defined.

Lemma served_text_witness :
  (serve example_texts).1 = 200
  /\ exists v, json_parse (serve example_texts).2 = Some v /\ snapshot_of v = Some example_snapshot.
Proof.
  assert (stand example_texts example_pass.1) as Hs.
  { apply (run_refines (SHA := platform_sha256) _ _ _ _ _ _ no_texts_stand example_text_run). }
  exact (served_text (SHA := platform_sha256) example_world example_environment page_request example_texts example_pass.1
           (jsonResponse (BSnapshot example_snapshot) example_config 200) Hs ltac:(discriminate) ltac:(discriminate)
           ltac:(vm_compute; reflexivity)).
Defined.

Definition small_store : store := [(jss "1.2.3.4", root_peer 1700000000 (jss "1.2.3.4") None)].
Definition small_cache : cache :=
  [(jss "1.2.3.4", {| info := {| country := Some [0xd800; 34]; countryCode := jss "DE"; lat := Some (num 52); lon := None |};
                      at_time := Some 1700000000 |})].
Definition small_snapshot : SnapshotData :=
  {| generatedAt := Some 1700000006000; totalKnown := 1; onlineCount := 0; networkCounts := []; countries := []; nodes := [] |}.

Lemma stored_text_roundtrip_witness :
  (exists x y z, prints store_of small_store x /\ prints cache_of small_cache y /\ prints snapshot_of small_snapshot z)
  /\ forall x y z fb, prints store_of small_store x -> prints cache_of small_cache y -> prints snapshot_of small_snapshot z ->
       store_of (kvGetJson (Some x) fb) = Some small_store /\ cache_of (kvGetJson (Some y) fb) = Some small_cache
       /\ snapshot_of (kvGetJson (Some z) fb) = Some small_snapshot.
Proof.
  assert (forall z, safe z -> storable as_int z) as Hi by (intros z Hz; exact (num_exact z Hz)).
  assert (forall s, units_b s = true -> storable as_str s) as Hstr by exact units_b_sound.
  assert (forall A k (a : A), Obj.canonical [(k, a)]) as Hone.
  { intros A k a. split; [apply NoDup_singleton|by repeat constructor]. }
  apply stored_text_roundtrip.
  - split; [apply Hone|]. apply Forall_singleton. split; [by apply units_b_sound|].
    split_and!; try exact I; try (apply Hi; unfold safe; lia); by apply Hstr.
  - split; [apply Hone|]. apply Forall_singleton. split; [by apply units_b_sound|].
    split_and!; try exact I; try (apply Hi; unfold safe; lia); try (by apply Hstr).
  - refine (conj _ (conj (Hi 1 eq_refl) (conj (Hi 0 eq_refl) (conj _ (conj _ _)))));
      [split; [lia|vm_compute; reflexivity]|split; [apply Obj.nil_canonical|constructor]|constructor..].
Defined.

End KvText.
