(* ===== verification/Passes.v ===== *)
(** * Overlapping passes ([worker/src/index.js])

    A scheduled pass and passes asked for by requests run side by side in one
    deployment: each of them awaits its operations on the key-value store, and
    in between the others go on.  This file runs the steps of [Worker.pass_step]
    in every order and shows what the stored peers and the published snapshot
    are like all the same, and what two passes that overlap do to each other. *)

From Stdlib Require Import String.
From stdpp Require Import relations.
From S2P Require Import Prelude Numbers JsText Collections Ip Messages Framing Handshake Dns Peers Advance StoreTypes.
From S2P Require Import Geo Snapshot Worker.
Import Ip Messages Handshake Peers Advance StoreTypes Geo Snapshot Worker.

Module Passes.

Section WithSha256.
Context {SHA : Sha256}.

(** ** The deployment *)

(** All values a key has had, the last one apart. *)
Record history (A : Type) := { cur : A; old : list A }.
Arguments cur {A} h.
Arguments old {A} h.

Definition push {A} (h : history A) (x : A) : history A := {| cur := x; old := cur h :: old h |}.
Definition seen {A} (h : history A) (x : A) : Prop := x = cur h \/ x ∈ old h.

(** The history of the key-value store. *)
Record Log := {
  peers_log : history (entry store);
  geo_log : history (entry cache);
  snapshot_log : history (entry SnapshotData)
}.

(** What has been written last, and what a read may find: reads of the
    key-value store are eventually consistent, so that any value written
    earlier may be found. *)
Definition current (l : Log) : KV :=
  {| kv_peers := cur (peers_log l); kv_geo := cur (geo_log l); kv_snapshot := cur (snapshot_log l) |}.

Definition sees (l : Log) (v : KV) : Prop :=
  seen (peers_log l) (kv_peers v) /\ seen (geo_log l) (kv_geo v) /\ seen (snapshot_log l) (kv_snapshot v).

Definition writes (p : pass) : bool :=
  match p with AtPutPeers _ | AtPutGeo _ _ | AtPutSnapshot _ => true | _ => false end.

(** The log when a pass at [p] has left [kv]. *)
Definition logged (p : pass) (l : Log) (kv : KV) : Log :=
  match p with
  | AtPutPeers _ =>
    {| peers_log := push (peers_log l) (kv_peers kv); geo_log := geo_log l; snapshot_log := snapshot_log l |}
  | AtPutGeo _ _ =>
    {| peers_log := peers_log l; geo_log := push (geo_log l) (kv_geo kv); snapshot_log := snapshot_log l |}
  | AtPutSnapshot _ =>
    {| peers_log := peers_log l; geo_log := geo_log l; snapshot_log := push (snapshot_log l) (kv_snapshot kv) |}
  | _ => l
  end.

(** The store as a pass at [p] finds it; [strong]: reads find what was written
    last. *)
Definition view (strong : bool) (p : pass) (l : Log) (v : KV) : Prop :=
  if strong || writes p then v = current l else sees l v.

(** The store and the passes begun so far, each in its own world. *)
Record System := { log : Log; running : list (World * pass) }.

Definition begin_pass (w : World) (s : System) : System :=
  {| log := log s; running := running s ++ [(w, AtGetPeers)] |}.

(** A pass begins on a tick of the schedule or with a request that asks for it
    and is not turned away; any pass may then make its next step. *)
Inductive sys_step (strong : bool) (env : Env) (s : System) : System -> Prop :=
  | sys_tick w : sys_step strong env s (begin_pass w s)
  | sys_request w req :
    asks_for_pass req = true -> forbidden env req = false -> sys_step strong env s (begin_pass w s)
  | sys_pass before w p after v kv' p' :
    running s = before ++ (w, p) :: after -> view strong p (log s) v ->
    pass_step w (loadConfig env) v p = (kv', p') ->
    sys_step strong env s {| log := logged p (log s) kv'; running := before ++ (w, p') :: after |}.

Definition reaches (strong : bool) (env : Env) : System -> System -> Prop := rtc (sys_step strong env).

(** A deployment that begins with the store [kv]. *)
Definition log_of (kv : KV) : Log :=
  {| peers_log := {| cur := kv_peers kv; old := [] |}; geo_log := {| cur := kv_geo kv; old := [] |};
     snapshot_log := {| cur := kv_snapshot kv; old := [] |} |}.

Definition started (kv : KV) : System := {| log := log_of kv; running := [] |}.
Definition initial : System := started {| kv_peers := Absent; kv_geo := Absent; kv_snapshot := Absent |}.

(** The bound of the depths of a deployment. *)
Definition max_depth (env : Env) : jsnum := maxDepth (crawl_cfg (loadConfig env)).

(** ** The type of a snapshot *)

Definition node_typed (d : jsnum) (n : Node) : Prop :=
  is_Some (n_firstSeen n) /\ is_Some (n_lastSeen n)
  /\ (exists v, n_depth n = Some v /\ depth_in d v)
  /\ (forall q, n_port n = Some q -> 0 <= q < 65536)
  /\ match n_network n with
     | ipv4 | ipv6 =>
       (exists t, n_ip n = Some t /\ n_parent n <> Some t /\ ip_version t = n_network n)
       /\ exists c, n_countryCode n = Some c /\ c <> []
     | cjdns => is_Some (n_ip n) /\ n_countryCode n = None
     | tor | i2p => n_countryCode n = None
     end.

Definition snapshot_typed (d : jsnum) (s : SnapshotData) : Prop :=
  is_Some (generatedAt s) /\ onlineCount s = len (nodes s) /\ onlineCount s <= totalKnown s
  /\ Forall (node_typed d) (nodes s).

Lemma node_of_typed d merged cutoff kv :
  typed d kv.1 kv.2 -> listed merged cutoff kv = true -> node_typed d (node_of merged kv).
Proof.
  destruct kv as [k p]. cbn [fst snd]. intros (H1 & H2 & H3 & (n & En & Hn & _) & H5 & H6).
  unfold listed, geo_of, node_of, inferNetwork. cbn [fst snd]. rewrite En. intros [_ Hl]%andb_true_iff.
  unfold node_typed, make_node, geo_of, inferNetwork. cbn. rewrite En. split_and!; try done.
  assert (is_ip n = true -> exists c, (fun e => countryCode (info e)) <$> Obj.get merged k = Some c /\ c <> []) as Hc.
  { intros Hi. rewrite Hi in Hl. cbn in Hl. apply bool_decide_eq_true_1 in Hl as [i Hl]. unfold located in Hl.
    destruct (Obj.get merged k) as [e|]; [|done]. case_bool_decide; [done|]. cbn. eauto. }
  destruct n; cbn in *.
  1,2: destruct Hn as [-> Hv]; cbn; split; [exists k; done|by apply Hc].
  - done.
  - done.
  - rewrite Hn. cbn. split; [by eexists|done].
Qed.

Lemma rebuilt_typed d w cfg st geoCache :
  peers (typed d) st -> snapshot_typed d (rebuilt w cfg st geoCache).1.
Proof.
  intros [Hw Hp]. unfold rebuilt, rebuildSnapshot. destruct (resolveGeo _ _ _ _ _ _) as [geo k].
  match goal with |- snapshot_typed d (build st ?m ?c ?t, _, _).1.1 =>
    cbn [fst]; destruct (build_spec st m c t) as (Hn & Ho & Ht & _); assert (is_Some (generatedAt (build st m c t))) as Hg
  end.
  { unfold build. destruct (foldl _ _ st). by eexists. }
  split_and!; [done|done| |].
  - rewrite Ho, Ht, Hn. unfold len. rewrite List.length_map. pose proof (List.filter_length_le
      (listed (Obj.assign (Obj.assign [] geoCache) geo)
         (online_cutoff (snapshot_cfg cfg) (w_snapshot_ms w / 1000))) st). lia.
  - rewrite Hn. apply Forall_forall. intros n ([k' p] & -> & [Hin Hl]%list_elem_of_In%List.filter_In)%list_elem_of_fmap.
    eapply node_of_typed; [|exact Hl]. apply Hp, Obj.get_In; [done|]. cbn. by apply list_elem_of_In.
Qed.

(** ** What every execution keeps *)

(** The stored peers and the published snapshot, and what a pass holds. *)
Definition entry_typed (d : jsnum) (e : entry store) : Prop := peers (typed d) (kvGetJson e []).

Definition published_typed (d : jsnum) (e : entry SnapshotData) : Prop :=
  match e with Stored s => snapshot_typed d s | Absent | Malformed => True end.

Definition kv_typed (d : jsnum) (kv : KV) : Prop :=
  entry_typed d (kv_peers kv) /\ published_typed d (kv_snapshot kv).

Definition pass_typed (d : jsnum) (p : pass) : Prop :=
  match p with
  | AtGetPeers | Finished (Throw _) => True
  | AtCrawl st | AtPutPeers st | AtGetSnapshot st | AtGetGeo st => peers (typed d) st
  | AtPutGeo s _ | AtPutSnapshot s | Finished (Ok s) => snapshot_typed d s
  end.

Definition log_typed (d : jsnum) (l : Log) : Prop :=
  (forall e, seen (peers_log l) e -> entry_typed d e) /\ (forall e, seen (snapshot_log l) e -> published_typed d e).

Definition sys_typed (d : jsnum) (s : System) : Prop :=
  log_typed d (log s) /\ Forall (fun wp => pass_typed d wp.2) (running s).

Lemma getSnapshot_typed d kv s : kv_typed d kv -> getSnapshot kv = Some s -> snapshot_typed d s.
Proof. intros [_ H]. unfold getSnapshot. destruct (kv_snapshot kv); [done..|]. intros. by simplify_eq. Qed.

Lemma crawl_typed w cfg st st' :
  peers (typed (maxDepth (crawl_cfg cfg))) st ->
  crawl_from w cfg st = Ok st' -> peers (typed (maxDepth (crawl_cfg cfg))) st'.
Proof.
  intros Hst E. eapply (run_preserves _ _ addr_wf); [apply typed_preserved| |exact Hst|exact E].
  intros n a p r Hr. by eapply crawl_addresses_wf.
Qed.

Lemma await_put_typed d w op kv kv' p :
  kv_typed d kv -> kv_typed d kv' -> pass_typed d p ->
  let '(kv1, p1) := await_put w op kv kv' p in kv_typed d kv1 /\ pass_typed d p1.
Proof. intros. unfold await_put. by destruct (w_kv w op) as [|[]]. Qed.

Lemma await_get_typed d w op kv p :
  kv_typed d kv -> pass_typed d p ->
  let '(kv1, p1) := await_get w op kv p in kv_typed d kv1 /\ pass_typed d p1.
Proof. intros. unfold await_get. by destruct (w_kv w op). Qed.

Lemma pass_step_typed w cfg kv p :
  let d := maxDepth (crawl_cfg cfg) in
  kv_typed d kv -> pass_typed d p ->
  let '(kv', p') := pass_step w cfg kv p in kv_typed d kv' /\ pass_typed d p'.
Proof.
  intros d Hkv Hp. destruct p as [|st|st|st|st|s g|s|r]; cbn [pass_step].
  - apply await_get_typed; [done|apply Hkv].
  - destruct (crawl_from w cfg st) as [st'|] eqn:E; [|done]. split; [done|]. by eapply crawl_typed.
  - apply await_put_typed; [done|split; [done|apply Hkv]|done].
  - apply await_get_typed; [done|]. destruct (getSnapshot kv) as [ex|] eqn:Ex; [|done].
    destruct (isStale _ _ _); [done|]. by eapply getSnapshot_typed.
  - apply await_get_typed; [done|]. pose proof (rebuilt_typed d w cfg st (kvGetJson (kv_geo kv) []) Hp) as H.
    by destruct (rebuilt _ _ _ _).
  - by apply await_put_typed.
  - apply await_put_typed; [done|split; [apply Hkv|done]|done].
  - done.
Qed.

Lemma pass_steps_typed w cfg n : let d := maxDepth (crawl_cfg cfg) in forall kv p,
  kv_typed d kv -> pass_typed d p ->
  let '(kv', p') := pass_steps n w cfg kv p in kv_typed d kv' /\ pass_typed d p'.
Proof.
  intros d. induction n as [|n IH]; intros kv p Hkv Hp; cbn [pass_steps]; [done|].
  pose proof (pass_step_typed w cfg kv p Hkv Hp) as H. destruct (pass_step w cfg kv p) as [kv1 p1].
  destruct H. by apply IH.
Qed.

Lemma current_sees l : sees l (current l).
Proof. split_and!; by left. Qed.

Lemma view_sees strong p l v : view strong p l v -> sees l v.
Proof. unfold view. destruct (_ || _); [intros ->; apply current_sees|done]. Qed.

Lemma sees_typed d l v : log_typed d l -> sees l v -> kv_typed d v.
Proof. intros [H1 H2] (S1 & _ & S3). split; [by apply H1|by apply H2]. Qed.

Lemma seen_push {A} (h : history A) x y : seen (push h x) y -> y = x \/ seen h y.
Proof. unfold seen. cbn. rewrite elem_of_cons. tauto. Qed.

Lemma logged_typed d p l kv : log_typed d l -> kv_typed d kv -> log_typed d (logged p l kv).
Proof.
  intros [H1 H2] [K1 K2]. destruct p; try done; split; cbn; try done; intros e [->|He]%seen_push; auto.
Qed.

Lemma sys_step_typed strong env s s' :
  sys_step strong env s s' -> sys_typed (max_depth env) s -> sys_typed (max_depth env) s'.
Proof.
  intros Hst [Hl Hr]. destruct Hst as [w|w req _ _|before w p after v kv' p' Er Hv E].
  1,2: split; [done|]; cbn; apply Forall_app; split; [done|]; by repeat constructor.
  rewrite Er in Hr. apply Forall_app in Hr as [Hb [Hp Ha]%Forall_cons_1].
  pose proof (pass_step_typed w (loadConfig env) v p (sees_typed _ _ _ Hl (view_sees _ _ _ _ Hv)) Hp) as H.
  rewrite E in H. destruct H as [H1 H2].
  split; [by apply logged_typed|]. cbn. apply Forall_app. split; [done|]. by constructor.
Qed.

Lemma initial_typed d : sys_typed d initial.
Proof.
  split; [|constructor]. split; intros e [->|He]; cbn in *; try done; try (by apply elem_of_nil in He).
  split; [constructor|done].
Qed.

Lemma reaches_typed strong env s s' :
  reaches strong env s s' -> sys_typed (max_depth env) s -> sys_typed (max_depth env) s'.
Proof. induction 1 as [|s1 s2 s3 H _ IH]; [done|]. intros Ht. by eapply IH, sys_step_typed. Qed.

(** ** A whole handler as steps *)

(** Only a [put] changes the store, and only its own key. *)
Lemma logged_current w cfg p l kv' p' :
  pass_step w cfg (current l) p = (kv', p') -> current (logged p l kv') = kv'.
Proof.
  destruct p as [|st|st|st|st|s g|s|r]; cbn [pass_step]; unfold await_get, await_put.
  2: destruct (crawl_from _ _ _).
  all: try (destruct (w_kv w _) as [|[]]; intros; by simplify_eq).
  all: intros; by simplify_eq.
Qed.

Lemma reaches_steps strong env w before after n : forall l p kv' p',
  pass_steps n w (loadConfig env) (current l) p = (kv', p') ->
  exists l', current l' = kv' /\ (forall v, sees l v -> sees l' v)
    /\ reaches strong env {| log := l; running := before ++ (w, p) :: after |}
                          {| log := l'; running := before ++ (w, p') :: after |}.
Proof.
  induction n as [|n IH]; intros l p kv' p'; cbn [pass_steps].
  - intros. simplify_eq. exists l. split_and!; [done..|apply rtc_refl].
  - destruct (pass_step w (loadConfig env) (current l) p) as [kv1 p1] eqn:E. intros H.
    pose proof (logged_current _ _ _ _ _ _ E) as E1. rewrite <- E1 in H.
    destruct (IH _ _ _ _ H) as (l' & El & Hs & Hr). exists l'. split_and!; [done| |].
    + intros v (S1 & S2 & S3). apply Hs. destruct p; try done; split_and!; cbn; try done;
        match goal with H : seen ?h ?x |- seen (push ?h _) ?x => right; cbn; rewrite elem_of_cons; apply H end.
    + eapply rtc_l; [|exact Hr]. apply (sys_pass strong env {| log := l; running := before ++ (w, p) :: after |} before w p after (current l) kv1 p1);
        [done| |exact E].
      unfold view. destruct (_ || _); [done|apply current_sees].
Qed.

Lemma reaches_run strong env w s kv' r :
  runDiscoveryAndSnapshot w (loadConfig env) (current (log s)) = (kv', r) ->
  exists l', current l' = kv' /\ (forall v, sees (log s) v -> sees l' v)
    /\ reaches strong env (begin_pass w s) {| log := l'; running := running s ++ [(w, Finished r)] |}.
Proof. intros H%run_steps. by eapply reaches_steps. Qed.

(** Where a response with a snapshot comes from. *)
Lemma fetch_snapshot w env req kv kv' resp x :
  fetch w env req kv = (kv', Ok resp) -> body resp = BSnapshot x ->
  getSnapshot kv = Some x \/ runDiscoveryAndSnapshot w (loadConfig env) kv = (kv', Ok x).
Proof.
  unfold fetch, answer_request. intros Hf Hb. revert Hf.
  case_bool_decide; [intros; by simplify_eq|]. case_bool_decide; [destruct (forbidden _ _); [intros; by simplify_eq|]|].
  - destruct (runDiscoveryAndSnapshot _ _ _) as [kv1 [y|e]]; cbn; intros; simplify_eq. cbn in Hb. simplify_eq. by right.
  - destruct (w_kv w _), (getSnapshot kv); intros; simplify_eq; cbn in Hb; simplify_eq. by left.
Qed.

(** A pass on its own steps, each of which finds the store in whatever state. *)
Definition pass_among (w : World) (cfg : Config) (p : pass) (kvs : list KV) : pass :=
  foldl (fun p kv => (pass_step w cfg kv p).2) p kvs.

Lemma pass_among_left w cfg kvs : forall p,
  (left (pass_among w cfg p kvs) <= left p - length kvs)%nat.
Proof.
  induction kvs as [|kv kvs IH]; intros p; cbn; [lia|].
  pose proof (left_step w cfg kv p). specialize (IH (pass_step w cfg kv p).2). unfold pass_among in IH. lia.
Qed.

Lemma pass_step_diverges w cfg kv p :
  (forall n, settles (w_peer w n)) -> p <> Finished (Throw Diverges) -> (pass_step w cfg kv p).2 = Finished (Throw Diverges) ->
  loop_count (js_max (num 1) (dnsRounds (crawl_cfg cfg))) = None.
Proof.
  intros Hset Hp. destruct p as [|st|st|st|st|s g|s|r]; cbn [pass_step]; unfold await_get, await_put.
  2: { destruct (crawl_from w cfg st) as [st'|e] eqn:E; cbn; intros; simplify_eq.
       eapply advanceCrawl_diverges; [|exact E]. intros n a p.
       destruct (crawlPeerOnce_settles (w_peer w n) a p (connectTimeoutMs cfg) (totalTimeoutMs (crawl_cfg cfg)) (Hset n))
         as [[Er _]|[r Er]]; unfold crawl_peers; by rewrite Er. }
  4: destruct (rebuilt _ _ _ _).
  3: destruct (getSnapshot kv) as [ex|]; [destruct (isStale _ _ _)|].
  all: try destruct (w_kv w _) as [|[]]; cbn; intros; by simplify_eq.
Qed.

Lemma pass_among_diverges w cfg kvs : (forall n, settles (w_peer w n)) -> forall p,
  p <> Finished (Throw Diverges) -> pass_among w cfg p kvs = Finished (Throw Diverges) ->
  loop_count (js_max (num 1) (dnsRounds (crawl_cfg cfg))) = None.
Proof.
  intros Hset. induction kvs as [|kv kvs IH]; intros p Hp; [done|]. cbn [pass_among foldl]. intros H.
  destruct (loop_count _) eqn:El; [|done]. rewrite <- El in *. apply (IH (pass_step w cfg kv p).2); [|exact H].
  intros Hd. apply pass_step_diverges in Hd; [congruence|done..].
Qed.

(** ** Correctness *)

(** C6: from an empty key-value store, however many passes overlap, in whatever
    order their steps are taken, whatever the network answers, whichever
    operations of the store are rejected, however old the values are that reads
    find, and whatever numbers the settings are, every peer that is or ever was
    stored is well typed: there is one record per key; its times, its network
    and a depth within bounds are present; an IP peer is filed under its own
    address, which has the form its network says; ports have 16 bits; no peer
    is its own parent; and an IP address a peer told of can be encoded again. *)
Theorem stored_peers_invariant strong env s e :
  reaches strong env initial s -> seen (peers_log (log s)) e -> peers (typed (max_depth env)) (kvGetJson e []).
Proof. intros H. apply (reaches_typed _ _ _ _ H (initial_typed _)). Qed.

(** Whatever it finds in the store, a pass has ended after its first seven
    steps, with a snapshot or with an error; only with infinitely many sampling
    rounds, or with a peer that lets a write or the closing of its socket pend for
    ever, can it be that the crawl never ends. *)
Theorem passes_end w cfg kvs :
  (7 <= length kvs)%nat ->
  exists r, pass_among w cfg AtGetPeers kvs = Finished r
    /\ ((forall n, settles (w_peer w n)) -> r = Throw Diverges ->
        loop_count (js_max (num 1) (dnsRounds (crawl_cfg cfg))) = None).
Proof.
  intros H. pose proof (pass_among_left w cfg kvs AtGetPeers) as Hl. cbn in Hl.
  destruct (pass_among w cfg AtGetPeers kvs) eqn:E; cbn in Hl; try lia. exists r. split; [done|].
  intros Hset ->. apply (pass_among_diverges w cfg kvs Hset AtGetPeers); [discriminate|done].
Qed.

(** A scheduled pass or a request that is handled without interruption and
    finds what was written last is one of these executions: it takes the system
    to the same key-value store, with one more pass that has ended, or leaves it
    as it was. *)
Theorem handlers_refine_steps strong w env s :
  (exists l' o, current l' = scheduled w env (current (log s))
     /\ reaches strong env s {| log := l'; running := running s ++ [(w, Finished o)] |})
  /\ (forall req kv' r, fetch w env req (current (log s)) = (kv', r) ->
     kv' = current (log s)
     \/ exists l' o, current l' = kv'
          /\ reaches strong env s {| log := l'; running := running s ++ [(w, Finished o)] |}).
Proof.
  split; [unfold scheduled|intros req kv' r; unfold fetch, answer_request].
  - destruct (runDiscoveryAndSnapshot w _ _) as [kv1 o] eqn:Er.
    destruct (reaches_run strong env w s _ _ Er) as (l' & El & _ & Hr).
    exists l', o. split; [done|]. eapply rtc_l; [apply sys_tick|exact Hr].
  - case_bool_decide as Em; [intros; simplify_eq; by left|]. case_bool_decide as Eq.
    + destruct (forbidden env req) eqn:Ef; [intros; simplify_eq; by left|].
      destruct (runDiscoveryAndSnapshot w _ _) as [kv1 o] eqn:Er. intros. simplify_eq. right.
      destruct (reaches_run strong env w s _ _ Er) as (l' & El & _ & Hr).
      exists l', o. split; [done|]. eapply rtc_l; [|exact Hr]. apply (sys_request _ _ _ _ req); [|done].
      unfold asks_for_pass. by rewrite bool_decide_eq_false_2, bool_decide_eq_true_2.
    + destruct (w_kv w _), (getSnapshot (current (log s))); intros; simplify_eq; by left.
Qed.

(** C21: every snapshot a request is answered with, in whatever state of the
    deployment and whichever of the values written so far its reads find, is
    well typed: as many nodes as it says are online, no more than it knows;
    times, a depth within bounds and a 16-bit port for every node; an address
    of the right form and a country for every IP node, and no country for the
    others. *)
Theorem served_snapshots_typed strong w env req s v kv' resp x :
  reaches strong env initial s -> sees (log s) v ->
  fetch w env req v = (kv', Ok resp) -> body resp = BSnapshot x -> snapshot_typed (max_depth env) x.
Proof.
  intros Hr Hv Hf Hb. pose proof (reaches_typed _ _ _ _ Hr (initial_typed _)) as [Hl _].
  pose proof (sees_typed _ _ _ Hl Hv) as Hk.
  destruct (fetch_snapshot _ _ _ _ _ _ _ Hf Hb) as [E|E]; [by eapply getSnapshot_typed|].
  apply run_steps in E. pose proof (pass_steps_typed w (loadConfig env) 7 v AtGetPeers Hk I) as H.
  rewrite E in H. apply H.
Qed.

(** When two passes read the same stored peers, the one that writes last
    wins: after the first has ended and published its snapshot, the stored
    peers become those of the second pass, computed without what the first one
    found.  This happens when they overlap, even if reads find what was written
    last; and when the second begins after the first has ended, because its
    read may find an older value. *)
Theorem lost_peers w1 w2 env kv kv1 s1 st2 :
  runDiscoveryAndSnapshot w1 (loadConfig env) kv = (kv1, Ok s1) ->
  crawled w2 (loadConfig env) kv = Ok st2 -> (forall op, w_kv w2 op = Fulfilled) ->
  (exists l, current l = put_peers kv1 st2
     /\ reaches true env (started kv)
          {| log := l; running := [(w1, Finished (Ok s1)); (w2, AtGetSnapshot st2)] |})
  /\ (exists l1 l, current l1 = kv1 /\ current l = put_peers kv1 st2
     /\ reaches false env (started kv) {| log := l1; running := [(w1, Finished (Ok s1))] |}
     /\ reaches false env {| log := l1; running := [(w1, Finished (Ok s1))] |}
          {| log := l; running := [(w1, Finished (Ok s1)); (w2, AtGetSnapshot st2)] |}).
Proof.
  intros E1 E2 Hw. pose proof (proj1 (run_steps _ _ _ _ _) E1) as E1'.
  assert (forall l, pass_steps 2 w2 (loadConfig env) (current l) (AtCrawl (kvGetJson (kv_peers kv) []))
            = (put_peers (current l) st2, AtGetSnapshot st2)) as H2.
  { intros l. cbn [pass_steps pass_step]. unfold crawled in E2. rewrite E2. cbn [pass_step].
    unfold await_put. by rewrite Hw. }
  split.
  - assert (kv = current (log_of kv)) as Ek by (by destruct kv). rewrite Ek in E1'.
    destruct (reaches_steps true env w1 [] [(w2, AtCrawl (kvGetJson (kv_peers kv) []))] 7 (log_of kv) _ _ _ E1')
      as (l1 & <- & _ & R1).
    destruct (reaches_steps true env w2 [(w1, Finished (Ok s1))] [] 2 l1 _ _ _ (H2 l1)) as (l & El & _ & R2).
    exists l. split; [done|]. eapply rtc_l; [apply (sys_tick _ _ _ w1)|]. eapply rtc_l; [apply (sys_tick _ _ _ w2)|].
    eapply rtc_l; [|etransitivity; [exact R1|exact R2]].
    apply (sys_pass true env (begin_pass w2 (begin_pass w1 (started kv))) [(w1, AtGetPeers)] w2 AtGetPeers [] kv kv);
      [done|by destruct kv|].
    cbn. unfold await_get. by rewrite Hw.
  - destruct (reaches_run false env w1 (started kv) kv1 (Ok s1)) as (l1 & <- & Hs & R1); [by destruct kv|].
    destruct (reaches_steps false env w2 [(w1, Finished (Ok s1))] [] 2 l1 _ _ _ (H2 l1)) as (l & El & _ & R2).
    exists l1, l. split_and!; [done|done|eapply rtc_l; [apply (sys_tick _ _ _ w1)|exact R1]|].
    eapply rtc_l; [apply (sys_tick _ _ _ w2)|]. eapply rtc_l; [|exact R2].
    apply (sys_pass false env (begin_pass w2 {| log := l1; running := [(w1, Finished (Ok s1))] |})
             [(w1, Finished (Ok s1))] w2 AtGetPeers [] kv kv); [done| |].
    + apply Hs. split_and!; by left.
    + cbn. unfold await_get. by rewrite Hw.
Qed.

End WithSha256.

(** ** An example deployment *)

(** One pass has been run. *)
Lemma example_reached : exists l,
  current l = example_pass.1
  /\ reaches (SHA := platform_sha256) false example_environment initial
       {| log := l; running := [(example_world, Finished (Ok example_snapshot))] |}.
Proof.
  destruct (reaches_run (SHA := platform_sha256) false example_environment example_world initial example_pass.1
              (Ok example_snapshot)) as (l & El & _ & R); [vm_compute; reflexivity|].
  exists l. split; [done|]. eapply rtc_l; [apply (sys_tick _ _ _ example_world)|exact R].
Qed.

Lemma stored_peers_invariant_witness :
  Obj.keys (kvGetJson (kv_peers example_pass.1) []) = [jss "1.2.3.4"; jss "5.6.7.8"]
  /\ peers (typed (max_depth example_environment)) (kvGetJson (kv_peers example_pass.1) []).
Proof.
  split; [vm_compute; reflexivity|]. destruct example_reached as (l & <- & R).
  apply (stored_peers_invariant (SHA := platform_sha256) false example_environment _ _ R). by left.
Defined.

(** The store changes hands while the pass is under way. *)
Lemma passes_end_witness :
  exists r, pass_among (SHA := platform_sha256) example_world example_config AtGetPeers
              [empty_kv; empty_kv; example_pass.1; empty_kv; example_pass.1; empty_kv; empty_kv] = Finished r
    /\ ((forall n, settles (w_peer example_world n)) -> r = Throw Diverges ->
        loop_count (js_max (num 1) (dnsRounds (crawl_cfg example_config))) = None).
Proof.
  apply (passes_end (SHA := platform_sha256)). cbn; lia.
Defined.

Lemma served_snapshots_typed_witness :
  len (nodes example_snapshot) = 2 /\ snapshot_typed (max_depth example_environment) example_snapshot.
Proof.
  split; [vm_compute; reflexivity|]. destruct example_reached as (l & El & R).
  eapply (served_snapshots_typed (SHA := platform_sha256) false example_world example_environment page_request _
            example_pass.1);
    [exact R|rewrite <- El; apply current_sees|vm_compute; reflexivity|vm_compute; reflexivity].
Defined.

(** The same seeds, but no peer can be connected to. *)
Definition dark_world : World :=
  {| w_doh := Dns.example_doh;
     w_peer := fun _ => {| pe_connect := Connects Never; pe_start := 0; pe_version_now := 5000;
                           pe_nonce := replicate 8 Byte.x07; pe_writes := fun _ => Resolves; pe_close := Resolves; pe_timer := to_int;
                           pe_reads := [] |};
     w_geo := example_services;
     w_crawl_ms := 1700000000000; w_check_ms := 1700000005000; w_snapshot_ms := 1700000005000;
     w_resolve_ms := 1700000005000; w_generated_ms := 1700000006000; w_kv := fun _ => Fulfilled |}.

Definition store_or_empty (r : res store) : store := match r with Ok st => st | Throw _ => [] end.

Definition dark_peers : store :=
  store_or_empty (crawled (SHA := platform_sha256) dark_world example_config empty_kv).

(** The peer the first pass has found is published and no longer stored. *)
Lemma lost_peers_witness :
  Obj.keys (kvGetJson (kv_peers example_pass.1) []) = [jss "1.2.3.4"; jss "5.6.7.8"]
  /\ Obj.keys dark_peers = [jss "1.2.3.4"]
  /\ exists l1 l, current l1 = example_pass.1 /\ current l = put_peers example_pass.1 dark_peers
     /\ reaches (SHA := platform_sha256) false example_environment (started empty_kv)
          {| log := l1; running := [(example_world, Finished (Ok example_snapshot))] |}
     /\ reaches (SHA := platform_sha256) false example_environment
          {| log := l1; running := [(example_world, Finished (Ok example_snapshot))] |}
          {| log := l; running := [(example_world, Finished (Ok example_snapshot)); (dark_world, AtGetSnapshot dark_peers)] |}.
Proof.
  split; [vm_compute; reflexivity|]. split; [vm_compute; reflexivity|].
  apply (lost_peers (SHA := platform_sha256) example_world dark_world example_environment
           empty_kv example_pass.1 example_snapshot dark_peers);
    [vm_compute; reflexivity|vm_compute; reflexivity|intros op; reflexivity].
Defined.

End Passes.
