(* ===== verification/Faucet.v ===== *)
(** * The faucet ([contrib/faucet/server.js])

    Claims are kept in a JSON file.  The claim handler runs in two parts, up to
    the [await] of the wallet call and after it; other requests may run in
    between.  Amounts are doubles. *)

From Stdlib Require Import String Sorting.Sorted.
From stdpp Require Import infinite.
From S2P Require Import Prelude Numbers JsText Collections.

Module Faucet.

(** ** Amounts and settings *)

(** A number written to a JSON text and read back: [null] ([None]) if it is not
    finite. *)
Definition json_number (x : jsnum) : option jsnum :=
  match x with
  | NaN | Infty _ => None
  | Dyadic _ _ => Some x
  end.

Record Settings := { FAUCET_PAYOUT : jsnum; COOLDOWN_HOURS : jsnum; DAILY_LIMIT : jsnum }.

(** The variables of [process.env]. *)
Record FaucetEnv := { env_payout : option jsstr; env_cooldown : option jsstr; env_limit : option jsstr }.

(** [parseInt(s, 10)] *)
Definition parseInt (s : jsstr) : jsnum :=
  match parse_int10 s with Some z => num z | None => NaN end.

Definition loadSettings (env : FaucetEnv) : Settings :=
  {| FAUCET_PAYOUT := parse_float (default (jss "0.1") (truthy (env_payout env)));
     COOLDOWN_HOURS := parseInt (default (jss "24") (truthy (env_cooldown env)));
     DAILY_LIMIT := parse_float (default (jss "1000") (truthy (env_limit env))) |}.

(** ** The claims file *)

Record Claim := { address : jsstr; ip : jsstr; amount : option jsnum; txid : jsstr; claimed_at : Z }.

Inductive file :=
  | Missing
  | Corrupt            (** not a JSON text, or not readable *)
  | NoClaims           (** JSON without a [claims] array *)
  | Db (claims : list Claim).

(** [loadDb().claims], as every user of [loadDb] goes on. *)
Definition load_claims (f : file) : res (list Claim) :=
  match f with
  | Missing | Corrupt => Ok []
  | NoClaims => Throw TypeError
  | Db claims => Ok claims
  end.

(** [found.sort((a, b) => b.claimed_at - a.claimed_at)[0]], [None] when nothing
    was found. *)
Definition latest (found : list Claim) : option Claim :=
  head (Sort.js_sort (fun a b => claimed_at b - claimed_at a) found).

Definition lastClaimByAddress (f : file) (a : jsstr) : res (option Claim) :=
  claims ← load_claims f;
  Ok (latest (List.filter (fun c => bool_decide (address c = a)) claims)).

Definition lastClaimByIp (f : file) (i : jsstr) : res (option Claim) :=
  claims ← load_claims f;
  Ok (latest (List.filter (fun c => bool_decide (ip c = i)) claims)).

Definition dayMs : Z := 24 * 60 * 60 * 1000.

Definition dailyTotal (f : file) (now : Z) : res jsnum :=
  claims ← load_claims f;
  let dayAgo := now - dayMs in
  Ok (foldl (fun sum c => js_add sum (default (num 0) (amount c))) (num 0)
        (List.filter (fun c => dayAgo <? claimed_at c) claims)).

(** What [writeFileSync] does: it may throw before it opens the file, or when
    it has emptied it and written a part. *)
Inductive disk := Written | Unopened | Truncated.

Definition saveDb (d : disk) (f : file) (claims : list Claim) : file * res unit :=
  match d with
  | Written => (Db claims, Ok tt)
  | Unopened => (f, Throw WriteError)
  | Truncated => (Corrupt, Throw WriteError)
  end.

Definition addClaim (d : disk) (f : file) (now : Z) (a i : jsstr) (amt : jsnum) (id : jsstr) : file * res unit :=
  match load_claims f with
  | Throw e => (f, Throw e)
  | Ok claims =>
    saveDb d f (claims ++ [{| address := a; ip := i; amount := json_number amt; txid := id; claimed_at := now |}])
  end.

(** ** Addresses *)

Definition alnum (c : Z) : bool :=
  ((97 <=? c) && (c <=? 122)) || ((65 <=? c) && (c <=? 90)) || ((48 <=? c) && (c <=? 57)).

(** [[a-zA-Z0-9]{25,62}$] *)
Definition alnum_tail (s : jsstr) : bool :=
  forallb alnum s && (25 <=? len s) && (len s <=? 62).

(** [^p[a-zA-Z0-9]{25,62}$] for a literal [p] *)
Fixpoint matches (p : jsstr) (s : jsstr) : bool :=
  match p, s with
  | [], _ => alnum_tail s
  | x :: p', y :: s' => (x =? y) && matches p' s'
  | _ :: _, [] => false
  end.

(** [None] is a value that is no string. *)
Definition isValidAddress (addr : option jsstr) : bool :=
  match addr with
  | None | Some [] => false
  | Some a =>
    matches (jss "1") a || matches (jss "3") a || matches (jss "bc1") a
    || (matches (jss "E") a || matches (jss "e") a)
  end.

(** ** The wallet *)

Inductive rpc_reply :=
  | RpcReject                     (** the request fails *)
  | RpcReply (error : bool) (result : jsstr).

Definition rpcCall (r : rpc_reply) : res jsstr :=
  match r with
  | RpcReject => Throw RpcError
  | RpcReply error result => if error then Throw RpcError else Ok result
  end.

(** ** The claim handler *)

Record ClaimRequest := {
  r_address : option jsstr;
  r_forwarded : option jsstr;     (** the header x-forwarded-for *)
  r_remote : option jsstr         (** [req.socket.remoteAddress] *)
}.

Definition client_ip (r : ClaimRequest) : jsstr :=
  match truthy (r_forwarded r) with
  | Some i => i
  | None => default (jss "unknown") (truthy (r_remote r))
  end.

Inductive response :=
  | InvalidAddress                 (** 400 *)
  | AddressWait (minutes : jsnum)  (** 429 *)
  | IpWait (minutes : jsnum)       (** 429 *)
  | LimitReached                   (** 429 *)
  | Success (id : jsstr) (amt : jsnum)
  | WalletFailed.                  (** 500 *)

Inductive decision := Answer (r : response) | Pay (a i : jsstr).

Definition cooldown_ms (s : Settings) : jsnum :=
  js_mul (js_mul (js_mul (COOLDOWN_HOURS s) (num 60)) (num 60)) (num 1000).

(** [row && now - row.claimed_at < cooldownMs], with the minutes to wait. *)
Definition cooling (s : Settings) (now : Z) (row : option Claim) : option jsnum :=
  match row with
  | Some c =>
    if js_ltb (num (now - claimed_at c)) (cooldown_ms s)
    then Some (js_ceil (js_div_pos (js_sub (js_add (num (claimed_at c)) (cooldown_ms s)) (num now)) (1000 * 60)))
    else None
  | None => None
  end.

(** Up to the [await]; [now] and [now_total] are the two readings of the clock. *)
Definition claim_check (s : Settings) (f : file) (now now_total : Z) (r : ClaimRequest) : res decision :=
  let i := client_ip r in
  match r_address r with
  | Some a =>
    if isValidAddress (Some a) then
      addrRow ← lastClaimByAddress f a;
      match cooling s now addrRow with
      | Some wait => Ok (Answer (AddressWait wait))
      | None =>
        ipRow ← lastClaimByIp f i;
        match cooling s now ipRow with
        | Some wait => Ok (Answer (IpWait wait))
        | None =>
          today ← dailyTotal f now_total;
          if js_leb (DAILY_LIMIT s) today then Ok (Answer LimitReached) else Ok (Pay a i)
        end
      end
    else Ok (Answer InvalidAddress)
  | None => Ok (Answer InvalidAddress)
  end.

(** After the [await], inside the [try]: the file and the response. *)
Definition claim_finish (s : Settings) (d : disk) (f : file) (now : Z) (a i : jsstr) (reply : rpc_reply)
    : file * response :=
  match rpcCall reply with
  | Throw _ => (f, WalletFailed)
  | Ok id =>
    let '(f', saved) := addClaim d f now a i (FAUCET_PAYOUT s) id in
    (f', match saved with Ok _ => Success id (FAUCET_PAYOUT s) | Throw _ => WalletFailed end)
  end.

(** [GET /api/stats]: limit, used, payout and cooldown. *)
Definition stats (s : Settings) (f : file) (now : Z) : res (jsnum * jsnum * jsnum * jsnum) :=
  today ← dailyTotal f now;
  Ok (DAILY_LIMIT s, today, FAUCET_PAYOUT s, COOLDOWN_HOURS s).

(** ** Lemmas *)

Lemma latest_spec found :
  match latest found with
  | None => found = []
  | Some c => c ∈ found /\ forall c', c' ∈ found -> claimed_at c' <= claimed_at c
  end.
Proof.
  unfold latest. set (cmp := fun a b => claimed_at b - claimed_at a).
  pose proof (Sort.sort_perm cmp found) as Hp.
  assert (StronglySorted (Sort.before cmp) (Sort.js_sort cmp found)) as Hs.
  { apply (Sort.sort_sorted cmp (fun _ => True)); unfold cmp; [lia..|by apply Forall_forall]. }
  destruct (Sort.js_sort cmp found) as [|c l]; cbn.
  - by apply Permutation_nil in Hp.
  - inversion Hs as [|? ? _ Hc]; subst. split; [rewrite <- Hp; left|]. intros c' Hin. rewrite <- Hp in Hin.
    apply elem_of_cons in Hin as [->|Hin]; [lia|]. rewrite Forall_forall in Hc. specialize (Hc _ Hin).
    unfold Sort.before, cmp in Hc. lia.
Qed.

(** A cooldown of [h] hours. *)
Definition whole_hours (s : Settings) (h : Z) : Prop := COOLDOWN_HOURS s = num h /\ Z.abs h <= 10 ^ 9.

Definition cooldownMs (h : Z) : Z := h * 60 * 60 * 1000.

Lemma cooldown_ms_int s h : whole_hours s h -> cooldown_ms s = num (cooldownMs h).
Proof.
  intros [E Hh]. unfold cooldown_ms, cooldownMs. rewrite E.
  rewrite (js_mul_int h 60), (js_mul_int (h * 60) 60), (js_mul_int (h * 60 * 60) 1000) by (unfold safe; lia). done.
Qed.

Lemma within_cooldown s h d : whole_hours s h -> js_ltb (num d) (cooldown_ms s) = (d <? cooldownMs h).
Proof.
  intros Hs. rewrite (cooldown_ms_int s h Hs). destruct Hs as [_ Hh]. apply js_ltb_num. unfold cooldownMs. lia.
Qed.

(** No cooldown: every claim found is old enough. *)
Lemma cooling_None s now found h :
  whole_hours s h -> cooling s now (latest found) = None ->
  forall c, c ∈ found -> cooldownMs h <= now - claimed_at c.
Proof.
  intros Eh. unfold cooling. pose proof (latest_spec found) as Hl.
  destruct (latest found) as [c0|]; [|subst; set_solver]. rewrite (within_cooldown s h) by done. destruct Hl as [_ Hl].
  destruct (_ <? _) eqn:E; [done|]. intros _ c Hc. specialize (Hl c Hc). zbool. lia.
Qed.

(** A recent claim: cooldown, with a wait that is just long enough. *)
Lemma cooling_Some s now found h c :
  whole_hours s h -> c ∈ found -> now - claimed_at c < cooldownMs h ->
  exists w, cooling s now (latest found) = Some w.
Proof.
  intros Eh Hc Hn. unfold cooling. pose proof (latest_spec found) as Hl.
  destruct (latest found) as [c0|]; [|subst; by apply elem_of_nil in Hc]. destruct Hl as [_ Hl].
  specialize (Hl c Hc). rewrite (within_cooldown s h), (proj2 (Z.ltb_lt _ _)) by (done || lia). by eexists.
Qed.

Lemma filter_elem {A} (P : A -> bool) l x : x ∈ List.filter P l <-> x ∈ l /\ P x = true.
Proof. by rewrite !list_elem_of_In, List.filter_In. Qed.

(** What holds when a claim goes to the wallet. *)
Lemma check_pay s f now now' r a i :
  claim_check s f now now' r = Ok (Pay a i) ->
  exists claims today, load_claims f = Ok claims /\ r_address r = Some a /\ i = client_ip r
    /\ isValidAddress (Some a) = true
    /\ (forall h c, whole_hours s h -> c ∈ claims -> address c = a \/ ip c = i ->
          cooldownMs h <= now - claimed_at c)
    /\ dailyTotal f now' = Ok today /\ js_leb (DAILY_LIMIT s) today = false.
Proof.
  unfold claim_check. destruct (r_address r) as [a'|] eqn:Ea; [|done].
  destruct (isValidAddress (Some a')) eqn:Ev; [|done]. unfold lastClaimByAddress, lastClaimByIp.
  destruct (load_claims f) as [claims|] eqn:El; rbind; [|done].
  destruct (cooling s now _) eqn:C1; [done|]. destruct (cooling s now (latest (List.filter (fun c => bool_decide (ip c = _)) _))) eqn:C2; [done|].
  destruct (dailyTotal f now') as [today|] eqn:Et; rbind; [|done].
  destruct (js_leb _ _) eqn:Es; [done|]. intros E. apply Ok_inj in E. simplify_eq.
  exists claims, today. split_and!; try done. intros h c Eh Hc [Hx|Hx].
  - apply (cooling_None _ _ _ _ Eh C1), filter_elem. split; [done|by apply bool_decide_eq_true_2].
  - apply (cooling_None _ _ _ _ Eh C2), filter_elem. split; [done|by apply bool_decide_eq_true_2].
Qed.

(** ** Correctness of the faucet *)

(** A claim only goes to the wallet for an address of the accepted shape,
    when no claim of that address or of that IP is within the cooldown, and
    the payments of the last 24 hours are below the limit. *)
Theorem payment_guarded s f now now' r a i :
  claim_check s f now now' r = Ok (Pay a i) ->
  exists claims today, load_claims f = Ok claims /\ r_address r = Some a /\ i = client_ip r
    /\ isValidAddress (Some a) = true
    /\ (forall h c, whole_hours s h -> c ∈ claims -> address c = a \/ ip c = i ->
          cooldownMs h <= now - claimed_at c)
    /\ dailyTotal f now' = Ok today /\ js_leb (DAILY_LIMIT s) today = false.
Proof. apply check_pay. Qed.

(** Once a payment is recorded, a further claim for the address is refused
    until the cooldown is over, from whatever IP it comes. *)
Theorem paid_address_refused s f now a i id f' h t t' r :
  claim_finish s Written f now a i (RpcReply false id) = (f', Success id (FAUCET_PAYOUT s)) ->
  whole_hours s h -> t - now < cooldownMs h ->
  r_address r = Some a -> isValidAddress (Some a) = true ->
  exists w, claim_check s f' t t' r = Ok (Answer (AddressWait w)).
Proof.
  unfold claim_finish, addClaim, saveDb. cbn [rpcCall]. destruct (load_claims f) as [claims|]; [|done].
  intros E Eh Ht Er Hv. apply (f_equal fst) in E. cbn [fst] in E. subst f'.
  unfold claim_check, lastClaimByAddress. rewrite Er, Hv. cbn [load_claims]. rbind.
  match goal with |- context [claims ++ [?x]] => set (c := x) end.
  destruct (cooling_Some s t (List.filter (fun c => bool_decide (address c = a)) (claims ++ [c])) h c Eh)
    as [w ->]; [|exact Ht|by eexists].
  apply filter_elem. split; [apply elem_of_app; right; by left|]. by apply bool_decide_eq_true_2.
Qed.

(** The wait that is reported is the least number of minutes after which
    the address is out of its cooldown; the rounding of the division does not
    change it. *)
Theorem reported_wait_exact s h now c w :
  whole_hours s h -> 0 <= now -> 0 <= claimed_at c <= 4 * 10 ^ 15 -> cooling s now (Some c) = Some w ->
  exists m, w = num m /\ 0 < m /\ cooling s (now + m * 60000) (Some c) = None
    /\ forall m', m' < m -> is_Some (cooling s (now + m' * 60000) (Some c)).
Proof.
  intros Hh Hn Hc. unfold cooling. rewrite (within_cooldown s h) by done. destruct (_ <? _) eqn:E; [|done]. zbool.
  pose proof Hh as [_ Hh']. intros [= <-]. rewrite (cooldown_ms_int s h Hh).
  assert (Z.abs (cooldownMs h) <= 36 * 10 ^ 14) as HC by (unfold cooldownMs; lia).
  set (C := cooldownMs h) in *. set (d := claimed_at c + C - now).
  rewrite js_add_int, js_sub_int by (unfold safe; lia). fold d. change (1000 * 60) with 60000.
  set (m := - (- d / 60000)). assert ((m - 1) * 60000 < d <= m * 60000) as Hm.
  { pose proof (Z.div_mod (- d) 60000 ltac:(lia)). pose proof (Z.mod_pos_bound (- d) 60000 ltac:(lia)). lia. }
  exists m. split; [apply ceil_div; lia|]. split; [lia|].
  rewrite js_ltb_num, (proj2 (Z.ltb_ge _ _)) by lia. split; [done|].
  intros m' Hm'. rewrite js_ltb_num, (proj2 (Z.ltb_lt _ _)) by lia. by eexists.
Qed.

(** No address in the network's own bech32 form, which starts with be1, is
    accepted. *)
Theorem native_segwit_rejected (rest : jsstr) : isValidAddress (Some (jss "be1" ++ rest)) = false.
Proof. reflexivity. Qed.

(** A [COOLDOWN_HOURS] that does not start with a number turns both
    cooldowns off, and a [DAILY_LIMIT] that does not turns the limit off: with
    both, every claim for an address of the accepted shape is paid, whatever
    the file says. *)
Theorem unparsable_settings_pay_all env f claims now now' r a :
  parseInt (default (jss "24") (truthy (env_cooldown env))) = NaN ->
  parse_float (default (jss "1000") (truthy (env_limit env))) = NaN ->
  load_claims f = Ok claims -> r_address r = Some a -> isValidAddress (Some a) = true ->
  claim_check (loadSettings env) f now now' r = Ok (Pay a (client_ip r)).
Proof.
  intros Eh El Ef Er Hv. unfold loadSettings. rewrite Eh, El.
  unfold claim_check, lastClaimByAddress, lastClaimByIp, dailyTotal. rewrite Er, Hv, Ef. rbind.
  unfold cooling, cooldown_ms. cbn [COOLDOWN_HOURS DAILY_LIMIT].
  change (js_mul (js_mul (js_mul NaN (num 60)) (num 60)) (num 1000)) with NaN.
  destruct (latest _), (latest _); by rewrite ?js_ltb_nan.
Qed.

(** The IP cooldown does not bind a client that chooses its own
    x-forwarded-for header: as long as the limit is not reached, an address
    without a claim is paid for some value of the header. *)
Theorem forwarded_header_evades_cooldown s claims now now' a remote today :
  isValidAddress (Some a) = true -> a ∉ List.map address claims ->
  dailyTotal (Db claims) now' = Ok today -> js_leb (DAILY_LIMIT s) today = false ->
  exists header, claim_check s (Db claims) now now'
                   {| r_address := Some a; r_forwarded := Some header; r_remote := remote |} = Ok (Pay a header).
Proof.
  intros Hv Ha Ht Hl. pose (header := fresh ([] :: List.map ip claims)). exists header.
  assert (header ∉ [] :: List.map ip claims) as Hf by apply infinite_is_fresh.
  apply not_elem_of_cons in Hf as [Hne Hi].
  unfold claim_check, lastClaimByAddress, lastClaimByIp. cbn [r_address load_claims]. rewrite Hv. rbind.
  rewrite (filter_none (fun c => bool_decide (address c = a))).
  2: { intros c Hc. apply bool_decide_eq_false_2. intros <-. apply Ha, list_elem_of_fmap. eauto. }
  assert (client_ip {| r_address := Some a; r_forwarded := Some header; r_remote := remote |} = header) as ->.
  { unfold client_ip. cbn. by destruct header. }
  rewrite (filter_none (fun c => bool_decide (ip c = header))).
  2: { intros c Hc. apply bool_decide_eq_false_2. intros E. apply Hi, list_elem_of_fmap. eauto. }
  cbn [latest Sort.js_sort head cooling]. rewrite Ht. rbind. by rewrite Hl.
Qed.

Definition example_settings : Settings :=
  {| FAUCET_PAYOUT := round_decimal 1 (-1); COOLDOWN_HOURS := num 24; DAILY_LIMIT := round_decimal 15 (-2) |}.

Definition address_a : jsstr := jss "EAaaaaaaaaaaaaaaaaaaaaaaaaaaaaaaaa".
Definition address_b : jsstr := jss "EBbbbbbbbbbbbbbbbbbbbbbbbbbbbbbbbb".

Definition request (a i : jsstr) : ClaimRequest :=
  {| r_address := Some a; r_forwarded := None; r_remote := Some i |}.

Definition example_claim : Claim :=
  {| address := address_a; ip := jss "1.1.1.1"; amount := json_number (FAUCET_PAYOUT example_settings);
     txid := jss "t1"; claimed_at := 0 |}.

(** ** Witnesses *)

Lemma payment_guarded_witness :
  exists claims today, load_claims Missing = Ok claims
    /\ r_address (request address_a (jss "1.1.1.1")) = Some address_a
    /\ jss "1.1.1.1" = client_ip (request address_a (jss "1.1.1.1"))
    /\ isValidAddress (Some address_a) = true
    /\ (forall h c, whole_hours example_settings h -> c ∈ claims ->
          address c = address_a \/ ip c = jss "1.1.1.1" -> cooldownMs h <= 7 - claimed_at c)
    /\ dailyTotal Missing 7 = Ok today /\ js_leb (DAILY_LIMIT example_settings) today = false.
Proof.
  apply (payment_guarded example_settings Missing 7 7 (request address_a (jss "1.1.1.1")) address_a (jss "1.1.1.1")).
  vm_compute. reflexivity.
Defined.

Lemma paid_address_refused_witness :
  exists w, claim_check example_settings (Db [example_claim]) 5 5 (request address_a (jss "9.9.9.9")) = Ok (Answer (AddressWait w)).
Proof.
  apply (paid_address_refused example_settings Missing 0 address_a (jss "1.1.1.1") (jss "t1") (Db [example_claim]) 24 5 5
           (request address_a (jss "9.9.9.9"))); [reflexivity|split; [reflexivity|lia]|reflexivity|reflexivity|vm_compute; reflexivity].
Defined.

Lemma reported_wait_exact_witness :
  exists m, num 1440 = num m /\ 0 < m /\ cooling example_settings (30 + m * 60000) (Some example_claim) = None
    /\ forall m', m' < m -> is_Some (cooling example_settings (30 + m' * 60000) (Some example_claim)).
Proof.
  apply (reported_wait_exact example_settings 24 30 example_claim (num 1440));
    [split; [reflexivity|lia]|lia|cbn; lia|vm_compute; reflexivity].
Defined.

Definition unparsable_env : FaucetEnv :=
  {| env_payout := None; env_cooldown := Some (jss "daily"); env_limit := Some (jss "none") |}.

Lemma unparsable_settings_pay_all_witness :
  claim_check (loadSettings unparsable_env) (Db [example_claim]) 5 5
    (request address_a (jss "1.1.1.1"))
  = Ok (Pay address_a (client_ip (request address_a (jss "1.1.1.1")))).
Proof.
  apply (unparsable_settings_pay_all unparsable_env (Db [example_claim]) [example_claim] 5 5 (request address_a (jss "1.1.1.1")) address_a);
    vm_compute; reflexivity.
Defined.

Lemma forwarded_header_evades_cooldown_witness :
  claim_check example_settings (Db [example_claim]) 5 5 (request address_b (jss "1.1.1.1")) = Ok (Answer (IpWait (num 1440)))
  /\ exists header, claim_check example_settings (Db [example_claim]) 5 5
                     {| r_address := Some address_b; r_forwarded := Some header; r_remote := Some (jss "1.1.1.1") |}
                   = Ok (Pay address_b header).
Proof.
  split; [vm_compute; reflexivity|].
  apply (forwarded_header_evades_cooldown example_settings [example_claim] 5 5 address_b (Some (jss "1.1.1.1"))
           (FAUCET_PAYOUT example_settings)).
  - vm_compute. reflexivity.
  - apply (bool_decide_unpack _). vm_compute. exact I.
  - vm_compute. reflexivity.
  - vm_compute. reflexivity.
Defined.

(** The settings of the example file, and what is used without it. *)
Example default_settings :
  loadSettings {| env_payout := Some (jss "0.1"); env_cooldown := Some (jss "24"); env_limit := Some (jss "1000") |}
  = loadSettings {| env_payout := None; env_cooldown := Some []; env_limit := None |}
  /\ loadSettings {| env_payout := None; env_cooldown := None; env_limit := None |}
    = {| FAUCET_PAYOUT := FAUCET_PAYOUT example_settings; COOLDOWN_HOURS := num 24; DAILY_LIMIT := num 1000 |}.
Proof. split; vm_compute; reflexivity. Qed.

End Faucet.
