(* ===== verification/FaucetRuns.v ===== *)
(** * The faucet under way ([contrib/faucet/server.js])

    The claim handler awaits the wallet between its checks and its entry in the
    file; other claims are checked and paid in between, the wallet may pay and
    not answer, the file may not be written, and the process may end.  Here the
    two parts of the handler, [Faucet.claim_check] and [Faucet.claim_finish],
    are the steps of a transition system, with bounds on what it pays. *)

From Stdlib Require Import String.
From S2P Require Import Prelude Numbers JsText Collections Faucet.
Import Faucet.

Module FaucetRuns.

(** ** The server as a transition system *)

(** The file, the claims that wait for the wallet, the clock, and the payments
    the wallet has made: to whom, for which IP, and when. *)
Record Server := {
  db : file; pending : list (jsstr * jsstr); clock : Z; paid : list (jsstr * jsstr * Z)
}.

(** What can be seen of a step: time passes; a claim is checked; the wallet call
    of a claim ends, where [made] tells whether the wallet has paid and [d]
    whether the file could be written; or the process ends, while it writes the
    file ([writing]) or not. *)
Inductive event :=
  | Tick
  | Checked (r : ClaimRequest)
  | Wallet (made : bool) (reply : rpc_reply) (d : disk)
  | Down (writing : bool).

(** An answer with a transaction id means that the wallet has paid, one with an
    error that it has not; without an answer it may have. *)
Definition honest (made : bool) (reply : rpc_reply) : Prop :=
  match reply with
  | RpcReject => True
  | RpcReply error _ => made = negb error
  end.

Definition at_time (t : Z) (w : jsstr * jsstr) : jsstr * jsstr * Z := (w, t).

(** The process ends when a handler throws outside its [try] (an unhandled
    rejection) and when it is stopped; the claims that wait are forgotten, but
    the wallet may still make any of their payments. *)
Inductive step (s : Settings) (sv : Server) : event -> Server -> Prop :=
  | step_tick t : clock sv <= t ->
      step s sv Tick {| db := db sv; pending := pending sv; clock := t; paid := paid sv |}
  | step_answer r x :
      claim_check s (db sv) (clock sv) (clock sv) r = Ok (Answer x) -> step s sv (Checked r) sv
  | step_await r a i :
      claim_check s (db sv) (clock sv) (clock sv) r = Ok (Pay a i) ->
      step s sv (Checked r)
        {| db := db sv; pending := pending sv ++ [(a, i)]; clock := clock sv; paid := paid sv |}
  | step_wallet p1 a i p2 made reply d :
      pending sv = p1 ++ (a, i) :: p2 -> honest made reply ->
      step s sv (Wallet made reply d)
        {| db := (claim_finish s d (db sv) (clock sv) a i reply).1; pending := p1 ++ p2; clock := clock sv;
           paid := paid sv ++ (if made then [(a, i, clock sv)] else []) |}
  | step_unhandled r e l :
      claim_check s (db sv) (clock sv) (clock sv) r = Throw e -> l `sublist_of` pending sv ->
      step s sv (Down false)
        {| db := db sv; pending := []; clock := clock sv; paid := paid sv ++ List.map (at_time (clock sv)) l |}
  | step_down l (writing : bool) :
      l `sublist_of` pending sv ->
      step s sv (Down writing)
        {| db := if writing then Corrupt else db sv; pending := []; clock := clock sv;
           paid := paid sv ++ List.map (at_time (clock sv)) l |}.

(** The file is not destroyed. *)
Definition intact (ev : event) : Prop :=
  match ev with
  | Wallet _ _ d => d <> Truncated
  | Down writing => writing = false
  | _ => True
  end.

(** Every payment is answered for and recorded. *)
Definition reliable (ev : event) : Prop :=
  match ev with
  | Wallet made reply d => d <> Truncated /\ (made = true -> (exists id, rpcCall reply = Ok id) /\ d = Written)
  | Down _ => False
  | _ => True
  end.

(** Executions with events in [P] and at most [K] claims between their check
    and their payment. *)
Inductive run (s : Settings) (P : event -> Prop) (K : nat) (sv : Server) : Server -> Prop :=
  | run_refl : run s P K sv sv
  | run_next sv1 ev sv2 :
      run s P K sv sv1 -> step s sv1 ev sv2 -> P ev -> (length (pending sv2) <= K)%nat -> run s P K sv sv2.

Definition fresh_server : Server := {| db := Missing; pending := []; clock := 0; paid := [] |}.

(** ** Lemmas: claims within a cooldown *)

Definition claimant (c : Claim) : jsstr * jsstr := (address c, ip c).

(** Claims of a person: of an address, or of an IP. *)
Definition by_address (a : jsstr) (w : jsstr * jsstr) : bool := bool_decide (w.1 = a).
Definition by_ip (i : jsstr) (w : jsstr * jsstr) : bool := bool_decide (w.2 = i).

Definition claimed_in (who : jsstr * jsstr -> bool) (lo hi : Z) (c : Claim) : bool :=
  who (claimant c) && (lo <=? claimed_at c) && (claimed_at c <? hi).

Definition claimed_before (who : jsstr * jsstr -> bool) (hi : Z) (c : Claim) : bool :=
  who (claimant c) && (claimed_at c <? hi).
Definition claimed_by (who : jsstr * jsstr -> bool) (c : Claim) : bool := who (claimant c).

(** What is known of a claim [c] of [who] and the claims [l2] recorded after it:
    at most [K] in the cooldown [c] has begun; and while it lasts, those who
    wait for the wallet count as well, since no others can join them. *)
Definition window (K : nat) (C now : Z) (who : jsstr * jsstr -> bool) (pend : list (jsstr * jsstr))
    (c : Claim) (l2 : list Claim) : Prop :=
  (S (hits (claimed_before who (claimed_at c + C)) l2) <= K)%nat
  /\ (now < claimed_at c + C -> (S (hits (claimed_by who) l2 + hits who pend) <= K)%nat).

Definition windows (K : nat) (C now : Z) (who : jsstr * jsstr -> bool) (pend : list (jsstr * jsstr))
    (claims : list Claim) : Prop :=
  forall l1 c l2, claims = l1 ++ c :: l2 -> who (claimant c) = true -> window K C now who pend c l2.

Lemma windows_tick K C now now' who pend claims :
  now <= now' -> windows K C now who pend claims -> windows K C now' who pend claims.
Proof. intros Ht H l1 c l2 E Hc. destruct (H l1 c l2 E Hc) as [H1 H2]. split; [done|]. intros. apply H2. lia. Qed.

Lemma windows_pending K C now who pend pend' claims :
  (hits who pend' <= hits who pend)%nat -> windows K C now who pend claims -> windows K C now who pend' claims.
Proof.
  intros Hp H l1 c l2 E Hc. destruct (H l1 c l2 E Hc) as [H1 H2]. split; [done|]. intros Hn. specialize (H2 Hn). lia.
Qed.

(** A claim joins those who wait. *)
Lemma windows_await K C now who pend claims w :
  (who w = true -> forall c, c ∈ claims -> who (claimant c) = true -> C <= now - claimed_at c) ->
  windows K C now who pend claims -> windows K C now who (pend ++ [w]) claims.
Proof.
  intros Hw H l1 c l2 E Hc. destruct (H l1 c l2 E Hc) as [H1 H2]. split; [done|]. intros Hn.
  rewrite hits_app, hits_cons. destruct (who w) eqn:Ew; [|specialize (H2 Hn); cbn; lia].
  specialize (Hw eq_refl c). rewrite E in Hw. specialize (Hw ltac:(set_solver) Hc). lia.
Qed.

(** A claim is recorded. *)
Lemma windows_record K C now who p1 w p2 claims c0 :
  claimant c0 = w -> claimed_at c0 = now -> (length (p1 ++ w :: p2) <= K)%nat ->
  windows K C now who (p1 ++ w :: p2) claims -> windows K C now who (p1 ++ p2) (claims ++ [c0]).
Proof.
  intros Ew Et Hk H l1 c l2 E Hc. destruct (decide (l2 = [])) as [->|Hne].
  - apply app_inj_tail in E as [-> ->]. pose proof (hits_le who (p1 ++ w :: p2)) as Hl.
    rewrite hits_app, hits_cons in Hl. rewrite Ew in Hc. rewrite Hc in Hl. unfold window. rewrite hits_app.
    cbn [hits List.filter length]. lia.
  - destruct (exists_last Hne) as (l2' & c1 & ->). rewrite app_comm_cons, app_assoc in E.
    apply app_inj_tail in E as [-> <-]. destruct (H l1 c l2' eq_refl Hc) as [H1 H2]. unfold window.
    rewrite hits_app, hits_cons in H2. rewrite !hits_app, !hits_one.
    unfold claimed_before at 2, claimed_by at 2. rewrite Ew, Et.
    destruct (who w) eqn:Ec; cbn [andb]; [|split; [lia|intros Hn; specialize (H2 Hn); lia]].
    destruct (now <? claimed_at c + C) eqn:En; zbool; [specialize (H2 En)|]; split; try lia.
    assert (hits (claimed_before who (claimed_at c + C)) l2'
            <= hits (claimed_by who) l2')%nat as Hm
      by (apply hits_mono; intros x _ Hx; apply andb_true_iff in Hx; tauto). lia.
Qed.

Lemma windows_bound K C now who pend claims t :
  windows K C now who pend claims -> (hits (claimed_in who t (t + C)) claims <= K)%nat.
Proof.
  intros H. destruct (hits_first (claimed_in who t (t + C)) claims) as [->|(l1 & c & l2 & E & Hc & ->)]; [lia|].
  unfold claimed_in in Hc. rewrite !andb_true_iff in Hc. destruct Hc as [[Hc H1] H2]. zbool.
  destruct (H l1 c l2 E Hc) as [Hw _]. etransitivity; [|exact Hw]. apply le_n_S, hits_mono.
  intros x _ Hx. unfold claimed_in in Hx. rewrite !andb_true_iff in Hx. destruct Hx as [[Hx _] H3]. zbool.
  unfold claimed_before. rewrite Hx. cbn. apply Z.ltb_lt. lia.
Qed.

(** ** Lemmas: the claims of a day *)

Definition in_day (now : Z) (c : Claim) : bool := now - dayMs <? claimed_at c.

(** The sum of [n] payouts, added one by one. *)
Fixpoint payouts (s : Settings) (n : nat) : jsnum :=
  match n with
  | O => num 0
  | S n' => js_add (payouts s n') (default (num 0) (json_number (FAUCET_PAYOUT s)))
  end.

Definition uniform (s : Settings) (c : Claim) : Prop := amount c = json_number (FAUCET_PAYOUT s).

Lemma dailyTotal_payouts s f claims now :
  load_claims f = Ok claims -> Forall (uniform s) claims ->
  dailyTotal f now = Ok (payouts s (hits (in_day now) claims)).
Proof.
  intros Ef Hu. unfold dailyTotal. rewrite Ef. rbind. f_equal. fold (in_day now). unfold hits.
  assert (Forall (uniform s) (List.filter (in_day now) claims)) as H.
  { apply Forall_forall. intros c Hc. apply filter_elem in Hc as [Hc _]. rewrite Forall_forall in Hu. auto. }
  clear Hu Ef. induction (List.filter (in_day now) claims) as [|c l IH] using rev_ind; [done|].
  apply Forall_app in H as [H1 H2]. apply Forall_cons_1 in H2 as [H2 _].
  rewrite foldl_app, IH by done. cbn. rewrite H2, length_app. cbn. by rewrite Nat.add_1_r.
Qed.

(** The limit refuses every claim when between [N] and [N + K - 1] claims of
    the day are recorded. *)
Definition limit_at (s : Settings) (N K : nat) : Prop :=
  forall m, (N <= m < N + K)%nat -> js_leb (DAILY_LIMIT s) (payouts s m) = true.

(** ** The invariant *)

Record run_inv (s : Settings) (K : nat) (sv : Server) (claims : list Claim) : Prop := {
  ri_db : load_claims (db sv) = Ok claims;
  ri_pending : (length (pending sv) <= K)%nat;
  ri_uniform : Forall (uniform s) claims;
  ri_windows h a i : whole_hours s h ->
    windows K (cooldownMs h) (clock sv) (by_address a) (pending sv) claims
    /\ windows K (cooldownMs h) (clock sv) (by_ip i) (pending sv) claims;
  ri_day N : limit_at s N K -> (S (hits (in_day (clock sv)) claims + length (pending sv)) <= N + K)%nat
}.

(** What the end of a wallet call does to the recorded claims. *)
Lemma finish_cases s d f now a i reply claims :
  load_claims f = Ok claims -> d <> Truncated ->
  (load_claims (claim_finish s d f now a i reply).1 = Ok claims
   /\ (forall id, rpcCall reply = Ok id -> d <> Written))
  \/ exists c, load_claims (claim_finish s d f now a i reply).1 = Ok (claims ++ [c])
       /\ claimant c = (a, i) /\ claimed_at c = now /\ uniform s c
       /\ exists id, rpcCall reply = Ok id.
Proof.
  intros Ef Hd. unfold claim_finish, addClaim. rewrite Ef. destruct (rpcCall reply) as [id|e]; [|by left].
  destruct d; cbn; [right|by left|done]. eexists. split_and!; [done..|]. by eexists.
Qed.

Lemma run_inv_tick s K sv claims t :
  clock sv <= t -> run_inv s K sv claims ->
  run_inv s K {| db := db sv; pending := pending sv; clock := t; paid := paid sv |} claims.
Proof.
  intros Ht [H1 H2 H3 H4 H5]. split; cbn; try done.
  - intros h a i Eh. destruct (H4 h a i Eh). split; by eapply windows_tick.
  - intros N HN. specialize (H5 N HN).
    assert (hits (in_day t) claims <= hits (in_day (clock sv)) claims)%nat; [|lia].
    apply hits_mono. unfold in_day. intros c _ Hc. zbool. apply Z.ltb_lt. lia.
Qed.

(** Some of those who wait are gone; [P] may have been paid. *)
Lemma run_inv_drop s K sv claims f pend P :
  load_claims f = Ok claims -> pend `sublist_of` pending sv -> run_inv s K sv claims ->
  run_inv s K {| db := f; pending := pend; clock := clock sv; paid := P |} claims.
Proof.
  intros Ef Hp [H1 H2 H3 H4 H5]. pose proof (sublist_length _ _ Hp) as Hl.
  assert (forall who, hits who pend <= hits who (pending sv))%nat as Hw.
  { intros who. clear -Hp. induction Hp; rewrite ?hits_cons; lia. }
  split; cbn; [done|lia|done| |].
  - intros h a i Eh. destruct (H4 h a i Eh). split; (eapply windows_pending; [apply Hw|done]).
  - intros N HN. specialize (H5 N HN). lia.
Qed.

Lemma run_inv_await s K sv claims r a i :
  claim_check s (db sv) (clock sv) (clock sv) r = Ok (Pay a i) -> (length (pending sv ++ [(a, i)]) <= K)%nat ->
  run_inv s K sv claims ->
  run_inv s K {| db := db sv; pending := pending sv ++ [(a, i)]; clock := clock sv; paid := paid sv |} claims.
Proof.
  intros Hc Hk [H1 H2 H3 H4 H5].
  apply check_pay in Hc as (claims' & today & E & _ & _ & _ & Hall & Et & Hl). rewrite H1 in E. apply Ok_inj in E as <-.
  split; cbn; try done.
  - intros h a' i' Eh. destruct (H4 h a' i' Eh) as [Ha Hi]. split; (apply windows_await; [|done]).
    + unfold by_address. cbn. intros Hw c Hin Hx. apply bool_decide_eq_true_1 in Hw as <-.
      apply bool_decide_eq_true_1 in Hx. apply (Hall h c Eh Hin). by left.
    + unfold by_ip. cbn. intros Hw c Hin Hx. apply bool_decide_eq_true_1 in Hw as <-.
      apply bool_decide_eq_true_1 in Hx. apply (Hall h c Eh Hin). by right.
  - intros N HN. specialize (H5 N HN). rewrite (dailyTotal_payouts s _ _ _ H1 H3) in Et. apply Ok_inj in Et as <-.
    destruct (decide (N <= hits (in_day (clock sv)) claims)%nat) as [Hge|Hlt].
    + rewrite (HN (hits (in_day (clock sv)) claims) ltac:(lia)) in Hl. done.
    + lia.
Qed.

Lemma run_inv_wallet s K sv claims p1 a i p2 reply d P :
  pending sv = p1 ++ (a, i) :: p2 -> d <> Truncated -> run_inv s K sv claims ->
  exists claims', run_inv s K {| db := (claim_finish s d (db sv) (clock sv) a i reply).1; pending := p1 ++ p2;
                                 clock := clock sv; paid := P |} claims'.
Proof.
  intros Ep Hd H. destruct (finish_cases s d (db sv) (clock sv) a i reply claims (ri_db _ _ _ _ H) Hd)
    as [[E _]|(c & E & Ec & Et & Hu & _)].
  - exists claims. eapply run_inv_drop; [done| |done]. rewrite Ep. apply sublist_app; [done|by apply sublist_cons].
  - exists (claims ++ [c]). destruct H as [H1 H2 H3 H4 H5]. rewrite Ep in *.
    rewrite length_app in H2, H5. cbn in H2, H5. split; cbn; [done|rewrite length_app; lia| | |].
    + apply Forall_app. split; [done|by repeat constructor].
    + intros h a' i' Eh. destruct (H4 h a' i' Eh).
      split; (eapply windows_record; [exact Ec|done|rewrite length_app; cbn; lia|done]).
    + intros N HN. specialize (H5 N HN). rewrite hits_app, hits_one, length_app. destruct (in_day _ c); lia.
Qed.

Lemma run_inv_step s K sv ev sv' claims :
  run_inv s K sv claims -> step s sv ev sv' -> intact ev -> (length (pending sv') <= K)%nat ->
  exists claims', run_inv s K sv' claims'.
Proof.
  intros H Hst Hev Hk.
  destruct Hst as [t Ht|r x _|r a i Hc|p1 a i p2 made reply d Ep _|r e l _ _|l writing _]; cbn in Hev.
  - exists claims. by apply run_inv_tick.
  - by exists claims.
  - exists claims. by eapply run_inv_await.
  - by eapply run_inv_wallet.
  - exists claims. eapply run_inv_drop; [apply H|apply sublist_nil_l|done].
  - subst. exists claims. eapply run_inv_drop; [apply H|apply sublist_nil_l|done].
Qed.

Lemma run_reaches s K sv :
  (1 <= K)%nat -> run s intact K fresh_server sv -> exists claims, run_inv s K sv claims.
Proof.
  intros HK. induction 1 as [|sv1 ev sv2 _ [claims IH] Hst Hev Hk].
  - exists []. split; cbn; [done|lia|constructor| |lia]. intros h a i _. split; intros l1 c l2 E; by destruct l1.
  - by eapply run_inv_step.
Qed.

(** ** Lemmas: recorded payments *)

Definition payment (c : Claim) : jsstr * jsstr * Z := (claimant c, claimed_at c).

Lemma run_weaken s (P Q : event -> Prop) K sv sv' :
  (forall ev, P ev -> Q ev) -> run s P K sv sv' -> run s Q K sv sv'.
Proof. intros HPQ. induction 1; [constructor|]. eapply run_next; eauto. Qed.

Lemma reliable_intact ev : reliable ev -> intact ev.
Proof. destruct ev; cbn; tauto. Qed.

Lemma reliable_mirror s K sv :
  run s reliable K fresh_server sv ->
  exists claims, load_claims (db sv) = Ok claims /\ List.map payment claims = paid sv.
Proof.
  induction 1 as [|sv1 ev sv2 _ (claims & Ef & Ep) Hst Hev _]; [by exists []|].
  destruct Hst as [t Ht|r x _|r a i Hc|p1 a i p2 made reply d Epd Hh|r e l _ _|l writing _];
    cbn in Hev; try done; try (by exists claims). destruct Hev as [Hd Hm]. cbn [db paid].
  destruct (finish_cases s d (db sv1) (clock sv1) a i reply claims Ef Hd)
    as [[E Hn]|(c & E & Ec & Et & _ & id & Hr)]; rewrite E.
  - exists claims. split; [done|]. destruct made; [|by rewrite app_nil_r].
    destruct (Hm eq_refl) as [[id Hr] ->]. by destruct (Hn id Hr).
  - exists (claims ++ [c]). split; [done|]. rewrite List.map_app, Ep. unfold payment. cbn. rewrite Ec, Et.
    destruct reply as [|[] res]; cbn in Hr, Hh; [done..|]. by subst made.
Qed.

(** ** Correctness of the faucet *)

(** C8: while the file is not destroyed and at most [K] claims at a time are
    between their check and their payment, any stretch of time as long as the
    cooldown has at most [K] recorded claims for an address and at most [K] for
    an IP, whatever else fails; with [K = 1] two of them are always a cooldown
    apart.  When every payment is answered for and recorded, the recorded
    claims are exactly the payments the wallet has made. *)
Theorem claims_within_cooldown s h K sv a i t :
  whole_hours s h -> (1 <= K)%nat -> run s intact K fresh_server sv ->
  exists claims, load_claims (db sv) = Ok claims
    /\ (hits (claimed_in (by_address a) t (t + cooldownMs h)) claims <= K)%nat
    /\ (hits (claimed_in (by_ip i) t (t + cooldownMs h)) claims <= K)%nat
    /\ (run s reliable K fresh_server sv -> List.map payment claims = paid sv).
Proof.
  intros Eh HK Hr. destruct (run_reaches s K sv HK Hr) as [claims H]. exists claims.
  destruct (ri_windows _ _ _ _ H h a i Eh). split_and!; [apply H|by eapply windows_bound..|].
  intros (claims' & Ef & E)%reliable_mirror. rewrite (ri_db _ _ _ _ H) in Ef. by apply Ok_inj in Ef as <-.
Qed.

(** C38: the payments of 24 hours are bounded, but above the limit: if the sum
    of [N] payouts, and of up to [K - 1] more, reaches the limit, then less
    than [N + K] claims of the last 24 hours are recorded or wait for the
    wallet, where at most [K] wait at a time. *)
Theorem claims_of_a_day_bounded s N K sv :
  (1 <= K)%nat -> limit_at s N K -> run s intact K fresh_server sv ->
  exists claims, load_claims (db sv) = Ok claims
    /\ (hits (in_day (clock sv)) claims + length (pending sv) < N + K)%nat.
Proof.
  intros HK HN Hr. destruct (run_reaches s K sv HK Hr) as [claims H]. exists claims. split; [apply H|].
  by apply (ri_day _ _ _ _ H).
Qed.

(** ** Executions that reach the bounds *)

Section Example.
Context (s : Settings) (a : jsstr) (i0 : Z) (i : jsstr).
Hypothesis address_valid : isValidAddress (Some a) = true.
Hypothesis limit_positive : js_leb (DAILY_LIMIT s) (num 0) = false.

Definition claim_request : ClaimRequest :=
  {| r_address := Some a; r_forwarded := Some (i0 :: i); r_remote := None |}.

Lemma check_no_claims f : load_claims f = Ok [] -> claim_check s f 0 0 claim_request = Ok (Pay a (i0 :: i)).
Proof.
  intros Ef. unfold claim_check, lastClaimByAddress, lastClaimByIp, dailyTotal. cbn [r_address claim_request].
  rewrite address_valid, Ef. rbind. cbn. by rewrite limit_positive.
Qed.

Lemma await_all K n :
  (n <= K)%nat ->
  run s reliable K fresh_server {| db := Missing; pending := replicate n (a, i0 :: i); clock := 0; paid := [] |}.
Proof.
  induction n as [|n IH]; intros Hn; [apply run_refl|].
  eapply (run_next _ _ _ _ _ (Checked claim_request)); [apply IH; lia| |exact I|cbn [pending]; by rewrite length_replicate].
  replace (replicate (S n) (a, i0 :: i)) with (replicate n (a, i0 :: i) ++ [(a, i0 :: i)])
    by (symmetry; apply replicate_S_end).
  apply (step_await s {| db := Missing; pending := replicate n (a, i0 :: i); clock := 0; paid := [] |} claim_request).
  by apply check_no_claims.
Qed.

Lemma pay_all K n m f claims sv :
  load_claims f = Ok claims -> (n + m <= K)%nat ->
  run s reliable K sv {| db := f; pending := replicate n (a, i0 :: i); clock := 0; paid := replicate m (a, i0 :: i, 0) |} ->
  exists f', run s reliable K sv {| db := f'; pending := []; clock := 0; paid := replicate (n + m) (a, i0 :: i, 0) |}.
Proof.
  revert m f claims. induction n as [|n IH]; intros m f claims Ef Hn Hr; [by exists f|].
  replace (S n + m)%nat with (n + S m)%nat by lia. pose (reply := RpcReply false (jss "tx")).
  eapply (IH (S m) (claim_finish s Written f 0 a (i0 :: i) reply).1); [|lia|].
  { unfold claim_finish, addClaim. cbn [rpcCall reply]. rewrite Ef. reflexivity. }
  eapply run_next; [exact Hr| | |cbn; rewrite length_replicate; lia].
  - rewrite (replicate_S_end m).
    exact (step_wallet s {| db := f; pending := replicate (S n) (a, i0 :: i); clock := 0;
                            paid := replicate m (a, i0 :: i, 0) |}
             [] a (i0 :: i) (replicate n (a, i0 :: i)) true reply Written eq_refl eq_refl).
  - split; [done|]. intros _. split; [|done]. by exists (jss "tx").
Qed.

(** C39: the bound on the payments of a cooldown is reached: [K] claims for one
    address from one IP that are all checked before the first is paid are all
    paid, at the same time. *)
Theorem concurrent_claims_all_paid K :
  exists sv, run s reliable K fresh_server sv /\ paid sv = replicate K (a, i0 :: i, 0).
Proof.
  destruct (pay_all K K 0 Missing [] fresh_server eq_refl ltac:(lia) (await_all K K ltac:(lia))) as [f H].
  eexists. split; [exact H|]. cbn. by rewrite Nat.add_0_r.
Qed.

(** A payment that cannot be recorded, because the wallet pays without
    answering in time or the file is not written, can be repeated at once and
    any number of times, even one claim at a time; the claims are answered with
    a failure. *)
Theorem unrecorded_payments_repeat reply d n :
  honest true reply -> reply = RpcReject \/ d <> Written ->
  exists sv, run s (fun ev => ev = Checked claim_request \/ ev = Wallet true reply d) 1 fresh_server sv
    /\ paid sv = replicate n (a, i0 :: i, 0) /\ pending sv = [] /\ clock sv = 0 /\ load_claims (db sv) = Ok []
    /\ (claim_finish s d (db sv) 0 a (i0 :: i) reply).2 = WalletFailed.
Proof.
  intros Hh Hd.
  assert (forall f, load_claims f = Ok [] ->
            load_claims (claim_finish s d f 0 a (i0 :: i) reply).1 = Ok []
            /\ (claim_finish s d f 0 a (i0 :: i) reply).2 = WalletFailed) as Hf.
  { intros f Ef. unfold claim_finish, addClaim. rewrite Ef. destruct Hd as [->|Hd]; [done|].
    destruct (rpcCall reply); [|done]. by destruct d. }
  induction n as [|n ([f pend c ps] & Hr & Ep & Epd & Ec & El & _)].
  { exists fresh_server. split_and!; try done; [apply run_refl|by apply Hf]. }
  cbn [paid pending clock db] in Ep, Epd, Ec, El. subst. rewrite replicate_S_end.
  pose (sv1 := {| db := f; pending := [(a, i0 :: i)]; clock := 0; paid := replicate n (a, i0 :: i, 0) |}).
  assert (run s (fun ev => ev = Checked claim_request \/ ev = Wallet true reply d) 1 fresh_server sv1) as Hr1.
  { eapply run_next; [exact Hr| |by left|unfold sv1; cbn; lia].
    apply (step_await s {| db := f; pending := []; clock := 0; paid := replicate n (a, i0 :: i, 0) |} claim_request).
    by apply check_no_claims. }
  eexists. split.
  - eapply run_next; [exact Hr1| |by right|].
    + exact (step_wallet s sv1 [] a (i0 :: i) [] true reply d eq_refl Hh).
    + cbn [pending app length]. lia.
  - cbn [paid pending clock db sv1]. split_and!; try reflexivity; [by apply Hf|by apply Hf, Hf].
Qed.

End Example.

(** ** An example run *)

Definition standard_settings : Settings :=
  loadSettings {| env_payout := None; env_cooldown := None; env_limit := None |}.

Definition one_paid (s : Settings) : Server :=
  {| db := Db [{| address := address_a; ip := jss "1.1.1.1"; amount := json_number (FAUCET_PAYOUT s);
                  txid := jss "t1"; claimed_at := 0 |}];
     pending := []; clock := 0; paid := [(address_a, jss "1.1.1.1", 0)] |}.

(** One claim is checked and paid. *)
Lemma pay_one s sv claims a i t1 :
  load_claims (db sv) = Ok claims -> pending sv = [] ->
  claim_check s (db sv) (clock sv) (clock sv) (request a i) = Ok (Pay a i) ->
  run s reliable 1 fresh_server sv ->
  run s reliable 1 fresh_server
    {| db := Db (claims ++ [{| address := a; ip := i; amount := json_number (FAUCET_PAYOUT s);
                               txid := t1; claimed_at := clock sv |}]);
       pending := []; clock := clock sv; paid := paid sv ++ [(a, i, clock sv)] |}.
Proof.
  intros El Ep Hc Hr.
  pose (sv1 := {| db := db sv; pending := [(a, i)]; clock := clock sv; paid := paid sv |}).
  assert (run s reliable 1 fresh_server sv1) as Hr1.
  { apply (run_next s reliable 1 fresh_server sv (Checked (request a i)) sv1 Hr); [|exact I|unfold sv1; cbn; lia].
    pose proof (step_await s sv (request a i) a i Hc) as H. rewrite Ep in H. exact H. }
  eapply (run_next s reliable 1 fresh_server sv1 (Wallet true (RpcReply false t1) Written) _ Hr1);
    [|split; [done|]; intros _; split; [by exists t1|done]|cbn; lia].
  pose proof (step_wallet s sv1 [] a i [] true (RpcReply false t1) Written eq_refl eq_refl) as H.
  unfold claim_finish, addClaim in H. cbn [rpcCall sv1 db] in H. rewrite El in H. exact H.
Qed.

Lemma one_paid_run s :
  claim_check s Missing 0 0 (request address_a (jss "1.1.1.1")) = Ok (Pay address_a (jss "1.1.1.1")) ->
  run s reliable 1 fresh_server (one_paid s).
Proof. intros Hc. exact (pay_one s fresh_server [] address_a (jss "1.1.1.1") (jss "t1") eq_refl eq_refl Hc (run_refl _ _ _ _)). Qed.

(** The payments of 24 hours can exceed the daily limit, even one claim at
    a time: the limit is compared with what was paid before the claim. *)
Theorem daily_limit_exceeded :
  exists sv total, run example_settings reliable 1 fresh_server sv
    /\ dailyTotal (db sv) (clock sv) = Ok total /\ js_ltb (DAILY_LIMIT example_settings) total = true.
Proof.
  eexists _, _. split; [|split].
  - apply (pay_one example_settings (one_paid example_settings)
             [{| address := address_a; ip := jss "1.1.1.1"; amount := json_number (FAUCET_PAYOUT example_settings);
                 txid := jss "t1"; claimed_at := 0 |}]
             address_b (jss "2.2.2.2") (jss "t2")); [reflexivity|reflexivity|vm_compute; reflexivity|].
    apply one_paid_run. vm_compute. reflexivity.
  - vm_compute. reflexivity.
  - vm_compute. reflexivity.
Qed.

(** ** Witnesses *)

Lemma claims_within_cooldown_witness :
  exists claims, load_claims (db (one_paid standard_settings)) = Ok claims
    /\ (hits (claimed_in (by_address address_a) 0 (0 + cooldownMs 24)) claims <= 1)%nat
    /\ (hits (claimed_in (by_ip (jss "1.1.1.1")) 0 (0 + cooldownMs 24)) claims <= 1)%nat
    /\ (run standard_settings reliable 1 fresh_server (one_paid standard_settings) ->
        List.map payment claims = paid (one_paid standard_settings)).
Proof.
  apply (claims_within_cooldown standard_settings 24 1 (one_paid standard_settings) address_a (jss "1.1.1.1") 0);
    [split; [reflexivity|lia]|lia|].
  apply (run_weaken _ reliable); [exact reliable_intact|apply one_paid_run; vm_compute; reflexivity].
Defined.

(** With the settings of the example file: no more than 10000 payments of 0.1
    in 24 hours, which is the limit of 1000, if claims do not overlap. *)
Lemma claims_of_a_day_bounded_witness :
  exists claims, load_claims (db (one_paid standard_settings)) = Ok claims
    /\ (hits (in_day 0) claims + 0 < 100 * 100 + 1)%nat.
Proof.
  apply (claims_of_a_day_bounded standard_settings (100 * 100) 1 (one_paid standard_settings)); [lia| |].
  - intros m Hm. assert (m = 100 * 100)%nat as -> by lia. vm_compute. reflexivity.
  - apply (run_weaken _ reliable); [exact reliable_intact|apply one_paid_run; vm_compute; reflexivity].
Defined.

Lemma concurrent_claims_all_paid_witness :
  exists sv, run standard_settings reliable 3 fresh_server sv
    /\ paid sv = replicate 3 (address_a, 49 :: jss ".1.1.1", 0).
Proof.
  apply (concurrent_claims_all_paid standard_settings address_a 49 (jss ".1.1.1")); vm_compute; reflexivity.
Defined.

(** The wallet pays and the call is given up after its 30 seconds. *)
Lemma unrecorded_payments_repeat_witness :
  exists sv, run standard_settings
      (fun ev => ev = Checked (claim_request address_a 49 (jss ".1.1.1")) \/ ev = Wallet true RpcReject Written)
      1 fresh_server sv
    /\ paid sv = replicate 3 (address_a, 49 :: jss ".1.1.1", 0) /\ pending sv = [] /\ clock sv = 0
    /\ load_claims (db sv) = Ok []
    /\ (claim_finish standard_settings Written (db sv) 0 address_a (49 :: jss ".1.1.1") RpcReject).2 = WalletFailed.
Proof.
  apply (unrecorded_payments_repeat standard_settings address_a 49 (jss ".1.1.1"));
    [vm_compute; reflexivity|vm_compute; reflexivity|exact I|left; reflexivity].
Defined.


End FaucetRuns.
