(* ===== verification/FaucetFile.v ===== *)
(** * The faucet's file ([claims.json] of [contrib/faucet/server.js])

    [loadDb] and [saveDb] on the bytes of the file: what is saved is loaded
    again, and a file that was written in part is not taken for another one.
    So the faucet on bytes implements the one of [FaucetRuns], whose file is a
    list of claims. *)

From Stdlib Require Import String.
From S2P Require Import Prelude Numbers JsText NumberText Utf8 Collections Json Faucet FaucetRuns.
Import Utf8 Json Faucet FaucetRuns.

Module FaucetFile.

(** ** The file as bytes *)

Definition claim_json (c : Claim) : json :=
  JObj [(jss "address", JStr (address c)); (jss "ip", JStr (ip c));
        (jss "amount", match amount c with Some x => JNum x | None => JNull end);
        (jss "txid", JStr (txid c)); (jss "claimed_at", JNum (num (claimed_at c)))].

Definition db_json (claims : list Claim) : json := JObj [(jss "claims", JArr (List.map claim_json claims))].

(** [JSON.stringify(db, null, 2)] in UTF-8 *)
Definition db_bytes (claims : list Claim) : bytes := text_encode (stringify (jss "  ") (db_json claims)).

(** [None] is no file. *)
Definition loadDb (b : option bytes) : json :=
  match b with
  | None => db_json []
  | Some bs => default (db_json []) (json_parse (utf8_to_string bs))
  end.

(** What [writeFileSync] does: it may throw before it opens the file, or while
    [n] bytes before the last one, and that one, are missing. *)
Inductive write := Whole | NotOpened | Cut (n : nat).

Definition saveDb_bytes (w : write) (b : option bytes) (claims : list Claim) : option bytes * res unit :=
  match w with
  | Whole => (Some (db_bytes claims), Ok tt)
  | NotOpened => (b, Throw WriteError)
  | Cut n => (Some (take (length (db_bytes claims) - S n) (db_bytes claims)), Throw WriteError)
  end.

(** ** What the bytes stand for *)

Definition string_of (v : option json) : option jsstr := match v with Some (JStr s) => Some s | _ => None end.
Definition int_of (v : option json) : option Z := match v with Some (JNum x) => integer_of x | _ => None end.
Definition amount_of (v : option json) : option (option jsnum) :=
  match v with Some (JNum x) => Some (Some x) | Some JNull => Some None | _ => None end.

(** A claim with the properties [addClaim] writes. *)
Definition claim_of (v : json) : option Claim :=
  match v with
  | JObj o =>
    a ← string_of (Obj.get o (jss "address"));
    i ← string_of (Obj.get o (jss "ip"));
    amt ← amount_of (Obj.get o (jss "amount"));
    id ← string_of (Obj.get o (jss "txid"));
    t ← int_of (Obj.get o (jss "claimed_at"));
    Some {| address := a; ip := i; amount := amt; txid := id; claimed_at := t |}
  | _ => None
  end.

(** [db.claims], where it is an array. *)
Definition claims_array (v : json) : option (list json) :=
  match v with
  | JObj o => match Obj.get o (jss "claims") with Some (JArr l) => Some l | _ => None end
  | _ => None
  end.

(** [None] for an array with other elements than claims. *)
Definition file_of (b : option bytes) : option file :=
  match b with
  | None => Some Missing
  | Some bs =>
    match json_parse (utf8_to_string bs) with
    | None => Some Corrupt
    | Some v =>
      match claims_array v with
      | None => Some NoClaims
      | Some l => Db <$> mapM claim_of l
      end
    end
  end.

(** ** The server on bytes *)

Record BServer := {
  b_db : option bytes; b_pending : list (jsstr * jsstr); b_clock : Z; b_paid : list (jsstr * jsstr * Z)
}.

(** Strings have 16-bit units, amounts are doubles, and times are exact. *)
Definition amount_ok (x : option jsnum) : Prop := match x with Some x => finite_double x | None => True end.
Definition claim_ok (c : Claim) : Prop :=
  units (address c) /\ units (ip c) /\ amount_ok (amount c) /\ units (txid c) /\ safe (claimed_at c).
Definition request_ok (r : ClaimRequest) : Prop :=
  units (default [] (r_address r)) /\ units (default [] (r_forwarded r)) /\ units (default [] (r_remote r)).
Definition reply_ok (r : rpc_reply) : Prop := match r with RpcReply _ id => units id | RpcReject => True end.
Definition settings_ok (s : Settings) : Prop := amount_ok (json_number (FAUCET_PAYOUT s)).

Definition disk_of (w : write) : disk :=
  match w with Whole => Written | NotOpened => Unopened | Cut _ => Truncated end.

(** The claim [addClaim] pushes. *)
Definition new_claim (now : Z) (a i : jsstr) (amt : jsnum) (id : jsstr) : Claim :=
  {| address := a; ip := i; amount := json_number amt; txid := id; claimed_at := now |}.

(** [addClaim]; [None] where the file is not one of [file_of]. *)
Definition addClaim_bytes (w : write) (b : option bytes) (now : Z) (a i : jsstr) (amt : jsnum) (id : jsstr)
    : option (option bytes * res unit) :=
  f ← file_of b;
  Some match load_claims f with
       | Throw e => (b, Throw e)
       | Ok claims => saveDb_bytes w b (claims ++ [new_claim now a i amt id])
       end.

Definition claim_finish_bytes (s : Settings) (w : write) (b : option bytes) (now : Z) (a i : jsstr) (reply : rpc_reply)
    : option (option bytes * response) :=
  match rpcCall reply with
  | Throw _ => Some (b, WalletFailed)
  | Ok id =>
    '(b', saved) ← addClaim_bytes w b now a i (FAUCET_PAYOUT s) id;
    Some (b', match saved with Ok _ => Success id (FAUCET_PAYOUT s) | Throw _ => WalletFailed end)
  end.

(** The steps of [FaucetRuns.step], where a write may stop at any byte. *)
Inductive bstep (s : Settings) (bv : BServer) : event -> BServer -> Prop :=
  | bstep_tick t : b_clock bv <= t -> safe t ->
      bstep s bv Tick {| b_db := b_db bv; b_pending := b_pending bv; b_clock := t; b_paid := b_paid bv |}
  | bstep_answer f r x :
      file_of (b_db bv) = Some f -> claim_check s f (b_clock bv) (b_clock bv) r = Ok (Answer x) ->
      bstep s bv (Checked r) bv
  | bstep_await f r a i :
      file_of (b_db bv) = Some f -> request_ok r -> claim_check s f (b_clock bv) (b_clock bv) r = Ok (Pay a i) ->
      bstep s bv (Checked r)
        {| b_db := b_db bv; b_pending := b_pending bv ++ [(a, i)]; b_clock := b_clock bv; b_paid := b_paid bv |}
  | bstep_wallet p1 a i p2 made reply w b' x :
      b_pending bv = p1 ++ (a, i) :: p2 -> honest made reply -> reply_ok reply ->
      claim_finish_bytes s w (b_db bv) (b_clock bv) a i reply = Some (b', x) ->
      bstep s bv (Wallet made reply (disk_of w))
        {| b_db := b'; b_pending := p1 ++ p2; b_clock := b_clock bv;
           b_paid := b_paid bv ++ (if made then [(a, i, b_clock bv)] else []) |}
  | bstep_unhandled f r e l :
      file_of (b_db bv) = Some f -> claim_check s f (b_clock bv) (b_clock bv) r = Throw e ->
      l `sublist_of` b_pending bv ->
      bstep s bv (Down false)
        {| b_db := b_db bv; b_pending := []; b_clock := b_clock bv;
           b_paid := b_paid bv ++ List.map (at_time (b_clock bv)) l |}
  | bstep_down l :
      l `sublist_of` b_pending bv ->
      bstep s bv (Down false)
        {| b_db := b_db bv; b_pending := []; b_clock := b_clock bv;
           b_paid := b_paid bv ++ List.map (at_time (b_clock bv)) l |}
  | bstep_down_writing f claims a i id n l :
      file_of (b_db bv) = Some f -> load_claims f = Ok claims -> (a, i) ∈ l -> units id ->
      l `sublist_of` b_pending bv ->
      bstep s bv (Down true)
        {| b_db := (saveDb_bytes (Cut n) (b_db bv)
                      (claims ++ [new_claim (b_clock bv) a i (FAUCET_PAYOUT s) id])).1;
           b_pending := []; b_clock := b_clock bv;
           b_paid := b_paid bv ++ List.map (at_time (b_clock bv)) l |}.

Inductive brun (s : Settings) (P : event -> Prop) (K : nat) (bv : BServer) : BServer -> Prop :=
  | brun_refl : brun s P K bv bv
  | brun_next bv1 ev bv2 :
      brun s P K bv bv1 -> bstep s bv1 ev bv2 -> P ev -> (length (b_pending bv2) <= K)%nat -> brun s P K bv bv2.

(** A server on bytes and one on claims, in the same state. *)
Record represents (bv : BServer) (sv : Server) : Prop := {
  rp_db : file_of (b_db bv) = Some (db sv);
  rp_pending : b_pending bv = pending sv;
  rp_clock : b_clock bv = clock sv;
  rp_paid : b_paid bv = paid sv;
  rp_claims claims : load_claims (db sv) = Ok claims -> Forall claim_ok claims;
  rp_units : Forall (fun w => units w.1 /\ units w.2) (pending sv);
  rp_safe : safe (clock sv)
}.

(** ** Lemmas *)

Lemma claim_wf c : claim_ok c -> json_wf (claim_json c).
Proof.
  intros (H1 & H2 & H3 & H4 & H5). apply plain_wf; [vm_compute; reflexivity|]. unfold Obj.values. cbn [List.map snd].
  rewrite !Forall_cons, Forall_nil. split_and!; try done; [by destruct (amount c)|by apply num_exact].
Qed.

Lemma db_wf claims : Forall claim_ok claims -> json_wf (db_json claims).
Proof.
  intros H. apply plain_wf; [vm_compute; reflexivity|]. apply Forall_singleton, json_wf_elements, Forall_map.
  eapply Forall_impl; [exact H|apply claim_wf].
Qed.

Lemma claim_of_fields a i m id x :
  claim_of (JObj [(jss "address", JStr a); (jss "ip", JStr i); (jss "amount", m); (jss "txid", JStr id); (jss "claimed_at", JNum x)])
  = (amt ← amount_of (Some m); t ← integer_of x;
     Some {| address := a; ip := i; amount := amt; txid := id; claimed_at := t |}).
Proof. reflexivity. Qed.

Lemma claim_of_json c : claim_ok c -> claim_of (claim_json c) = Some c.
Proof.
  intros (_ & _ & _ & _ & H5). unfold claim_json. rewrite claim_of_fields. destruct (num_exact _ H5) as [_ ->].
  destruct c as [a i [x|] id t]; done.
Qed.

Lemma claims_of_json claims : Forall claim_ok claims -> mapM claim_of (List.map claim_json claims) = Some claims.
Proof.
  induction 1 as [|c claims Hc _ IH]; [done|]. cbn [List.map mapM]. rewrite (claim_of_json c Hc). cbn. cbn in IH. by rewrite IH.
Qed.

Lemma blank_gap : blank (jss "  ").
Proof. repeat constructor. Qed.

Lemma load_saved claims : Forall claim_ok claims -> file_of (Some (db_bytes claims)) = Some (Db claims).
Proof.
  intros H. unfold file_of, db_bytes. pose proof (db_wf claims H) as Hw.
  rewrite read_whole by (by apply stringify_utf16; [apply blank_gap|]).
  rewrite parse_stringify by (done || apply blank_gap).
  assert (claims_array (db_json claims) = Some (List.map claim_json claims)) as -> by reflexivity.
  by rewrite claims_of_json.
Qed.

Lemma load_cut claims n :
  Forall claim_ok claims -> (n < length (db_bytes claims))%nat -> file_of (Some (take n (db_bytes claims))) = Some Corrupt.
Proof.
  intros H Hn. pose proof (db_wf claims H) as Hw.
  destruct (read_cut (stringify (jss "  ") (db_json claims)) n) as (p & t & Es & Ht & Er); [|done|].
  { by apply stringify_utf16; [apply blank_gap|]. }
  destruct (parse_cut _ _ p t blank_gap Hw Es Ht) as [E1 E2].
  unfold file_of, db_bytes. by destruct Er as [->| ->]; rewrite ?E1, ?E2.
Qed.

Lemma bytes_nonempty claims : Forall claim_ok claims -> (0 < length (db_bytes claims))%nat.
Proof.
  intros H%load_saved. destruct (db_bytes claims) as [|b bs]; [|cbn; lia]. by vm_compute in H.
Qed.

(** [saveDb] on bytes and on claims. *)
Lemma saveDb_refines w b f claims :
  file_of b = Some f -> Forall claim_ok claims ->
  file_of (saveDb_bytes w b claims).1 = Some (saveDb (disk_of w) f claims).1
  /\ (saveDb_bytes w b claims).2 = (saveDb (disk_of w) f claims).2.
Proof.
  intros Hf Hc. destruct w as [| |n]; cbn [saveDb_bytes saveDb disk_of fst snd]; (split; [|done]).
  - by apply load_saved.
  - done.
  - apply load_cut; [done|]. pose proof (bytes_nonempty claims Hc). lia.
Qed.

(** [loadDb] gives the claims of the file. *)
Lemma loadDb_claims b f claims :
  file_of b = Some f -> load_claims f = Ok claims ->
  exists l, claims_array (loadDb b) = Some l /\ mapM claim_of l = Some claims.
Proof.
  assert (claims_array (db_json []) = Some []) as H0 by reflexivity.
  destruct b as [bs|]; cbn [file_of loadDb]; [|intros [= <-] [= <-]; by exists []].
  destruct (json_parse _) as [v|]; cbn [from_option id]; [|intros [= <-] [= <-]; by exists []].
  destruct (claims_array v) as [l|]; [|by intros [= <-]].
  destruct (mapM claim_of l) as [cs|] eqn:E; [|done]. intros [= <-] [= <-]. by exists l.
Qed.

Lemma loaded_ok bv sv claims now a i s id :
  represents bv sv -> settings_ok s -> load_claims (db sv) = Ok claims -> units a -> units i -> units id -> safe now ->
  Forall claim_ok (claims ++ [new_claim now a i (FAUCET_PAYOUT s) id]).
Proof. intros Hr Hs Hl **. apply Forall_app. split; [by eapply rp_claims|]. by apply Forall_singleton. Qed.

(** The end of a wallet call. *)
Lemma finish_refines s bv sv w a i reply b' x :
  represents bv sv -> settings_ok s -> reply_ok reply -> units a -> units i ->
  claim_finish_bytes s w (b_db bv) (b_clock bv) a i reply = Some (b', x) ->
  exists f', claim_finish s (disk_of w) (db sv) (clock sv) a i reply = (f', x) /\ file_of b' = Some f'
    /\ forall claims, load_claims f' = Ok claims -> Forall claim_ok claims.
Proof.
  intros Hr Hs Hrep Ha Hi. unfold claim_finish_bytes, claim_finish. pose proof (rp_db _ _ Hr) as Hf.
  destruct (rpcCall reply) as [id|e] eqn:Er; [|intros; simplify_eq; eexists; split_and!; [done..|]; by eapply rp_claims].
  assert (units id) as Hid by (destruct reply as [|[] id']; cbn in Er; try done; by simplify_eq).
  unfold addClaim_bytes, addClaim. rewrite Hf. obind. rewrite (rp_clock _ _ Hr).
  destruct (load_claims (db sv)) as [claims|e] eqn:El; obind.
  2: { intros. simplify_eq. eexists. split_and!; [done..|]. by rewrite El. }
  pose proof (loaded_ok bv sv claims (clock sv) a i s id Hr Hs El Ha Hi Hid (rp_safe _ _ Hr)) as Hok.
  fold (new_claim (clock sv) a i (FAUCET_PAYOUT s) id).
  destruct (saveDb_refines w (b_db bv) (db sv) _ Hf Hok) as [E1 E2].
  assert (forall cs, load_claims (saveDb (disk_of w) (db sv) (claims ++ [new_claim (clock sv) a i (FAUCET_PAYOUT s) id])).1 = Ok cs ->
            Forall claim_ok cs) as Hcs.
  { destruct w; cbn; [intros; by simplify_eq|rewrite El; intros; simplify_eq; by eapply rp_claims|intros; by simplify_eq]. }
  destruct (saveDb_bytes w _ _) as [b1 r1], (saveDb _ _ _) as [f1 r2]. cbn [fst snd] in *. subst r2.
  intros. simplify_eq. by eexists.
Qed.

Lemma request_units r a :
  request_ok r -> r_address r = Some a -> units a /\ units (client_ip r).
Proof.
  intros (H1 & H2 & H3) E. rewrite E in H1. split; [done|]. unfold client_ip, truthy.
  assert (units (jss "unknown")) as Hu by (by repeat constructor).
  destruct (r_forwarded r) as [[|x f]|]; [| exact H2 |]; destruct (r_remote r) as [[|y g]|]; done.
Qed.

Lemma bstep_refines s bv sv ev bv' :
  settings_ok s -> represents bv sv -> bstep s bv ev bv' ->
  exists sv', step s sv ev sv' /\ represents bv' sv'.
Proof.
  intros Hs Hr Hb. pose proof Hr as [Hf Hp Hc Hd Hcl Hu Hsf]. rewrite Forall_forall in Hu.
  destruct Hb as [t Ht Hst|f r x Ef E|f r a i Ef Hq E|p1 a i p2 made reply w b' x Ep Hh Hq E|f r e l Ef E Hl|l Hl
                 |f claims a i id n l Ef El Hin Hid Hl];
    try (rewrite Ef in Hf; simplify_eq); rewrite ?Hp, ?Hc, ?Hd in *.
  - eexists. split; [by apply step_tick|]. split; try done. by apply Forall_forall.
  - exists sv. split; [by eapply step_answer|done].
  - destruct (check_pay _ _ _ _ _ _ _ E) as (_ & _ & _ & Ea & -> & _). destruct (request_units r a Hq Ea).
    eexists. split; [by eapply step_await|]. split; try done; cbn.
    apply Forall_app. split; [by apply Forall_forall|by apply Forall_singleton].
  - assert (units a /\ units i) as [Ha Hi] by (apply (Hu (a, i)); rewrite Ep; set_solver).
    rewrite <- Hc in E. destruct (finish_refines s bv sv w a i reply b' x Hr Hs Hq Ha Hi E) as (f' & E' & Hf' & Hok).
    eexists. split; [by eapply step_wallet|]. rewrite E'. split; try done; cbn.
    apply Forall_forall. intros y Hy. apply Hu. rewrite Ep. set_solver.
  - eexists. split; [by eapply step_unhandled|]. by split.
  - eexists. split; [by apply (step_down _ _ l false)|]. by split.
  - assert (units a /\ units i) as [Ha Hi] by (apply (Hu (a, i)); by eapply elem_of_sublist).
    pose proof (loaded_ok bv sv claims (clock sv) a i s id Hr Hs El Ha Hi Hid Hsf) as Hok.
    eexists. split; [by apply (step_down _ _ l true)|]. split; try done; cbn [b_db b_pending b_clock b_paid db pending clock paid].
    + by apply (saveDb_refines (Cut n) (b_db bv) (db sv)).
    + by intros ? [= <-].
Qed.

(** ** Theorems *)

(** C31: what [saveDb] writes is what [loadDb] reads, for claims with any texts
    and amounts; and a file of which only the first bytes were written, however
    many, is not taken for a list of claims. *)
Theorem claims_file_roundtrip claims n :
  Forall claim_ok claims ->
  file_of (saveDb_bytes Whole None claims).1 = Some (Db claims)
  /\ (exists l, claims_array (loadDb (Some (db_bytes claims))) = Some l /\ mapM claim_of l = Some claims)
  /\ ((n < length (db_bytes claims))%nat ->
      file_of (Some (take n (db_bytes claims))) = Some Corrupt
      /\ loadDb (Some (take n (db_bytes claims))) = db_json []).
Proof.
  intros H. split_and!; [by apply load_saved|by eapply loadDb_claims; [apply load_saved|]|]. intros Hn.
  pose proof (load_cut claims n H Hn) as E. split; [done|]. unfold file_of, loadDb in *.
  destruct (json_parse _) as [v|]; [|done]. destruct (claims_array v); [|done]. by destruct (mapM _ _).
Qed.

(** C17: the faucet on the bytes of its file implements the faucet on claims:
    every execution, with writes that stop at any byte, is an execution of the
    same events there, and ends with bytes that stand for the same file. *)
Theorem bytes_refine_claims s P K bv bv' sv :
  settings_ok s -> represents bv sv -> brun s P K bv bv' ->
  exists sv', run s P K sv sv' /\ represents bv' sv'.
Proof.
  intros Hs Hr Hb. induction Hb as [|bv1 ev bv2 _ (sv1 & Hrun & Hr1) Hstep HP HK]; [exists sv; split; [constructor|done]|].
  destruct (bstep_refines s bv1 sv1 ev bv2 Hs Hr1 Hstep) as (sv2 & Hs2 & Hr2). exists sv2. split; [|done].
  eapply run_next; [done..|]. by rewrite <- (rp_pending _ _ Hr2).
Qed.

(** ** Witnesses *)

Definition odd_claim : Claim :=
  {| address := address_a; ip := [0xd83d; 0xde00; 34; 92; 10; 0xd800]; amount := Some (round_decimal 1 (-1));
     txid := jss "ab12"; claimed_at := 1700000000000 |}.

Lemma payout_double : finite_double (round_decimal 1 (-1)).
Proof.
  right. exists 7205759403792794, (-56). split; [unfold is_double; lia|]. left. vm_compute. reflexivity.
Qed.

Lemma claims_file_roundtrip_witness :
  file_of (saveDb_bytes Whole None [odd_claim]).1 = Some (Db [odd_claim])
  /\ loadDb (Some (take 40 (db_bytes [odd_claim]))) = db_json [].
Proof.
  assert (Forall claim_ok [odd_claim]) as H.
  { apply Forall_singleton. split_and!; [by repeat constructor..|apply payout_double|by repeat constructor|unfold safe; cbn; lia]. }
  destruct (claims_file_roundtrip [odd_claim] 40 H) as (H1 & _ & H3). split; [exact H1|].
  apply H3. apply Nat.ltb_lt. vm_compute. reflexivity.
Defined.

Definition empty_server : BServer := {| b_db := None; b_pending := []; b_clock := 0; b_paid := [] |}.

Definition waiting : BServer :=
  {| b_db := None; b_pending := [] ++ [(address_a, jss "1.1.1.1")]; b_clock := 0; b_paid := [] |}.

(** A claim is paid, and the process ends while it is recorded. *)
Definition interrupted : BServer :=
  {| b_db := (saveDb_bytes (Cut 9) (b_db waiting)
                ([] ++ [new_claim (b_clock waiting) address_a (jss "1.1.1.1") (FAUCET_PAYOUT standard_settings) (jss "t1")])).1;
     b_pending := []; b_clock := b_clock waiting;
     b_paid := b_paid waiting ++ List.map (at_time (b_clock waiting)) [(address_a, jss "1.1.1.1")] |}.

Lemma empty_represents : represents empty_server fresh_server.
Proof. split; try done. by intros ? [= <-]. Qed.

Lemma bytes_refine_claims_witness :
  exists sv, run standard_settings (fun _ => True) 1 fresh_server sv /\ represents interrupted sv.
Proof.
  apply (bytes_refine_claims standard_settings (fun _ => True) 1 empty_server interrupted fresh_server);
    [exact payout_double|exact empty_represents|].
  apply (brun_next _ _ _ _ waiting (Down true)); [apply (brun_next _ _ _ _ empty_server
    (Checked (claim_request address_a 49 (jss ".1.1.1")))); [apply brun_refl| |exact I|cbn; lia]| |exact I|cbn; lia].
  - apply (bstep_await standard_settings empty_server Missing); [reflexivity| |vm_compute; reflexivity].
    split_and!; by repeat constructor.
  - refine (bstep_down_writing standard_settings waiting Missing [] address_a (jss "1.1.1.1") (jss "t1") 9
             [(address_a, jss "1.1.1.1")] _ _ _ _ _); [reflexivity|reflexivity|left|by repeat constructor|reflexivity].
Defined.

End FaucetFile.
