(* ===== verification/RateLimit.v ===== *)
(** * The rate limiter of the faucet ([express-rate-limit], as [server.js] sets it up)

    Every request passes the limiter before its handler.  The limiter counts the
    requests of an address in a [MemoryStore] of two maps, of which it drops one
    at every tick of a timer.  Dropping is invisible: the limiter decides as if
    it never forgot an address.  The requests that pass are bounded for any
    stretch of time. *)

From Stdlib Require Import String.
From stdpp Require Import gmap.
From S2P Require Import Prelude JsText.

Module RateLimit.

(** ** The store *)

Record Client := { totalHits : Z; resetTime : Z }.

Record MemoryStore := { previous : gmap jsstr Client; current : gmap jsstr Client }.

(** [new MemoryStore()] *)
Definition new_store : MemoryStore := {| previous := ∅; current := ∅ |}.

(** The settings of [server.js]: 30 requests in 15 minutes. *)
Record Options := { windowMs : Z; limit : Z }.
Definition server_options : Options := {| windowMs := 15 * 60 * 1000; limit := 30 |}.

Section WithOptions.
Context (o : Options).

Definition resetClient (now : Z) : Client := {| totalHits := 0; resetTime := now + windowMs o |}.

(** [getClient], with the client in [current]. *)
Definition getClient (now : Z) (key : jsstr) (s : MemoryStore) : Client * MemoryStore :=
  match current s !! key with
  | Some c => (c, s)
  | None =>
    match previous s !! key with
    | Some c => (c, {| previous := delete key (previous s); current := <[key := c]> (current s) |})
    | None => (resetClient now, {| previous := previous s; current := <[key := resetClient now]> (current s) |})
    end
  end.

(** [increment]; [created] and [now] are its two readings of the clock.  The
    client is one object, in the map and in the result. *)
Definition increment (created now : Z) (key : jsstr) (s : MemoryStore) : Client * MemoryStore :=
  let '(client, s) := getClient created key s in
  let client := if resetTime client <=? now then resetClient now else client in
  let client := {| totalHits := totalHits client + 1; resetTime := resetTime client |} in
  (client, {| previous := previous s; current := <[key := client]> (current s) |}).

(** [clearExpired], the callback of the timer *)
Definition clearExpired (s : MemoryStore) : MemoryStore := {| previous := current s; current := ∅ |}.

(** ** The middleware *)

(** Whether the request goes on to its handler ([next()]), or is answered with
    status 429. *)
Definition middleware (created now : Z) (key : jsstr) (s : MemoryStore) : bool * MemoryStore :=
  let '(client, s) := increment created now key s in
  (negb (limit o <? totalHits client), s).

(** Requests, with their times and the key [request.ip], and ticks. *)
Inductive event := Request (created now : Z) (key : jsstr) | Tick (now : Z).

(** A request or a tick, with the requests that have passed: their keys and
    times. *)
Definition handle (st : MemoryStore * list (jsstr * Z)) (ev : event) : MemoryStore * list (jsstr * Z) :=
  let '(s, log) := st in
  match ev with
  | Request created now key =>
    let '(passed, s') := middleware created now key s in
    (s', log ++ if passed then [(key, now)] else [])
  | Tick _ => (clearExpired s, log)
  end.

(** What the timer and the clock promise: time does not go back, and a tick
    comes at least [windowMs] after the one before it. *)
Fixpoint timed (now tick : Z) (evs : list event) : Prop :=
  match evs with
  | [] => True
  | Request created t _ :: evs' => now <= created <= t /\ timed t tick evs'
  | Tick t :: evs' => now <= t /\ tick + windowMs o <= t /\ timed t t evs'
  end.

(** ** A limiter that never forgets *)

Definition spec_increment (created now : Z) (key : jsstr) (m : gmap jsstr Client) : Client * gmap jsstr Client :=
  let client := default (resetClient created) (m !! key) in
  let client := if resetTime client <=? now then resetClient now else client in
  let client := {| totalHits := totalHits client + 1; resetTime := resetTime client |} in
  (client, <[key := client]> m).

Definition spec_handle (st : gmap jsstr Client * list (jsstr * Z)) (ev : event) : gmap jsstr Client * list (jsstr * Z) :=
  let '(m, log) := st in
  match ev with
  | Request created now key =>
    let '(client, m') := spec_increment created now key m in
    (m', log ++ if negb (limit o <? totalHits client) then [(key, now)] else [])
  | Tick _ => (m, log)
  end.

(** The clock is read twice in the same millisecond. *)
Definition prompt (ev : event) : Prop :=
  match ev with Request created now _ => created = now | Tick _ => True end.

(** ** Lemmas: the two maps *)

(** Where a client is found. *)
Definition found (s : MemoryStore) (key : jsstr) : option Client :=
  match current s !! key with Some c => Some c | None => previous s !! key end.

(** No window ends later than it may; [now] is the time, [tick] that of the last
    tick. *)
Record timely (now tick : Z) (s : MemoryStore) : Prop := {
  t_current key c : current s !! key = Some c -> resetTime c <= now + windowMs o;
  t_previous key c : previous s !! key = Some c -> resetTime c <= tick + windowMs o;
  t_tick : tick <= now
}.

(** The store holds the clients of [m], but for some whose window is over. *)
Record holds (now tick : Z) (s : MemoryStore) (m : gmap jsstr Client) : Prop := {
  h_timely : timely now tick s;
  h_found key c : found s key = Some c -> m !! key = Some c;
  h_gone key c : found s key = None -> m !! key = Some c -> resetTime c <= now
}.

Lemma timely_found now tick s key c : timely now tick s -> found s key = Some c -> resetTime c <= now + windowMs o.
Proof.
  intros [H1 H2 H3]. unfold found. destruct (current s !! key) as [c'|] eqn:E; intros Hc; simplify_eq; [by eapply H1|].
  specialize (H2 _ _ Hc). lia.
Qed.

Lemma found_getClient now key s :
  (getClient now key s).1 = default (resetClient now) (found s key)
  /\ current (getClient now key s).2 !! key = Some (getClient now key s).1
  /\ (forall key', key' <> key -> found (getClient now key s).2 key' = found s key'
        /\ current (getClient now key s).2 !! key' = current s !! key')
  /\ forall key' c, previous (getClient now key s).2 !! key' = Some c -> previous s !! key' = Some c.
Proof.
  unfold getClient, found. destruct (current s !! key) as [c|] eqn:Ec; [by cbn|].
  destruct (previous s !! key) as [c|] eqn:Ep; cbn; (split; [done|]); (split; [by rewrite lookup_insert_eq|]); split.
  - intros key' Hk. by rewrite lookup_insert_ne, lookup_delete_ne.
  - intros key' c'. by intros [_ H]%lookup_delete_Some.
  - intros key' Hk. by rewrite lookup_insert_ne.
  - done.
Qed.

(** The client a request leaves. *)
Definition hit (now : Z) (c : Client) : Client :=
  let c := if resetTime c <=? now then resetClient now else c in
  {| totalHits := totalHits c + 1; resetTime := resetTime c |}.

Lemma increment_spec created now key s :
  let c := hit now (default (resetClient created) (found s key)) in
  (increment created now key s).1 = c
  /\ found (increment created now key s).2 key = Some c
  /\ (forall key', key' <> key -> found (increment created now key s).2 key' = found s key')
  /\ (forall key' c', current (increment created now key s).2 !! key' = Some c' -> c' = c \/ current s !! key' = Some c')
  /\ forall key' c', previous (increment created now key s).2 !! key' = Some c' -> previous s !! key' = Some c'.
Proof.
  destruct (found_getClient created key s) as (E & Ec & Ho & Hp). unfold increment, hit. rewrite <- E.
  destruct (getClient created key s) as [c0 s0]. cbn [fst snd] in *. clear E.
  set (c := {| totalHits := _; resetTime := _ |}). split_and!; [done|..]; cbn.
  - unfold found. cbn. by rewrite lookup_insert_eq.
  - intros key' Hk. rewrite <- (proj1 (Ho key' Hk)). unfold found. cbn. by rewrite lookup_insert_ne.
  - intros key' c'. destruct (decide (key' = key)) as [->|Hk]; [rewrite lookup_insert_eq; intros [= <-]; by left|].
    rewrite lookup_insert_ne by done. rewrite (proj2 (Ho key' Hk)). by right.
  - intros key' c' H. by apply Hp.
Qed.

Lemma hit_window now c : 0 < windowMs o -> now < resetTime (hit now c).
Proof. intros Hw. unfold hit. destruct (resetTime c <=? now) eqn:E; cbn; zbool; lia. Qed.

Lemma hit_bound now now' c : now' <= now -> resetTime c <= now' + windowMs o -> resetTime (hit now c) <= now + windowMs o.
Proof. intros Hn Hc. unfold hit. destruct (resetTime c <=? now); cbn; lia. Qed.

Lemma timely_request now0 tick s created now key :
  timely now0 tick s -> now0 <= created <= now -> timely now tick (increment created now key s).2.
Proof.
  intros Ht Hn. destruct (increment_spec created now key s) as (_ & _ & _ & E4 & E5). cbn zeta in E4.
  pose proof Ht as [H1 H2 H3]. split; [| |lia].
  - intros key' c' [->|Hin]%E4; [|specialize (H1 _ _ Hin); lia]. destruct (found s key) as [c0|] eqn:Ef.
    + apply (hit_bound now now0 c0); [lia|by eapply timely_found].
    + apply (hit_bound now created (resetClient created)); [lia|cbn; lia].
  - intros key' c' Hin%E5. by eapply H2.
Qed.

Lemma timely_tick now0 tick s now : timely now0 tick s -> now0 <= now -> timely now now (clearExpired s).
Proof.
  intros [H1 _ _] Hn. split; [| |lia]; cbn [clearExpired current previous].
  - intros key c. by rewrite lookup_empty.
  - intros key c Hc. specialize (H1 _ _ Hc). lia.
Qed.

(** What a tick drops is over. *)
Lemma found_tick now0 tick s now key :
  timely now0 tick s -> tick + windowMs o <= now ->
  found (clearExpired s) key = found s key
  \/ found (clearExpired s) key = None /\ exists c, found s key = Some c /\ resetTime c <= now.
Proof.
  intros [_ H2 _] Hn. unfold found, clearExpired. cbn. rewrite lookup_empty.
  destruct (current s !! key); [by left|]. destruct (previous s !! key) as [c|] eqn:E; [|by left].
  right. split; [done|]. exists c. split; [done|]. specialize (H2 _ _ E). lia.
Qed.

Lemma holds_request now0 tick s m now key :
  holds now0 tick s m -> now0 <= now ->
  (increment now now key s).1 = (spec_increment now now key m).1
  /\ holds now tick (increment now now key s).2 (spec_increment now now key m).2.
Proof.
  intros [Ht H1 H2] Hn. destruct (increment_spec now now key s) as (E1 & E2 & E3 & _). cbn zeta in *.
  set (c := hit now (default (resetClient now) (found s key))) in *.
  assert ((spec_increment now now key m).1 = c) as Es.
  { unfold spec_increment, c. cbn [fst]. unfold hit. destruct (found s key) as [c0|] eqn:Ef; [by rewrite (H1 _ _ Ef)|].
    destruct (m !! key) as [c0|] eqn:Em; [|done]. specialize (H2 _ _ Ef Em). cbn.
    rewrite (proj2 (Z.leb_le (resetTime c0) now)) by lia. by destruct (now + windowMs o <=? now). }
  assert ((spec_increment now now key m).2 = <[key := c]> m) as Em by (rewrite <- Es; done).
  rewrite E1, Es, Em. split; [done|]. split; [by apply (timely_request now0)|..].
  - intros key' c'. destruct (decide (key' = key)) as [->|Hk]; [rewrite E2, lookup_insert_eq; congruence|].
    rewrite (E3 _ Hk), lookup_insert_ne by done. apply H1.
  - intros key' c'. destruct (decide (key' = key)) as [->|Hk]; [by rewrite E2|].
    rewrite (E3 _ Hk), lookup_insert_ne by done. intros Hf Hm. specialize (H2 _ _ Hf Hm). lia.
Qed.

Lemma holds_tick now0 tick s m now :
  holds now0 tick s m -> now0 <= now -> tick + windowMs o <= now -> holds now now (clearExpired s) m.
Proof.
  intros [Ht H1 H2] Hn Hw. split; [by apply (timely_tick now0 tick)|..]; intros key c;
    destruct (found_tick now0 tick s now key Ht Hw) as [->|[-> (c' & Ef & Hc')]]; [apply H1|done| |].
  - intros Hf Hm. specialize (H2 _ _ Hf Hm). lia.
  - intros _ Hm. rewrite (H1 _ _ Ef) in Hm. by simplify_eq.
Qed.

(** ** Lemmas: the requests that pass *)

Definition since (key : jsstr) (lo : Z) (p : jsstr * Z) : bool := bool_decide (p.1 = key) && (lo <=? p.2).
Definition between (key : jsstr) (lo hi : Z) (p : jsstr * Z) : bool := since key lo p && (p.2 <? hi).
Definition all_before (key : jsstr) (hi : Z) (log : list (jsstr * Z)) : Prop := forall t, (key, t) ∈ log -> t < hi.

(** The window that began at [start], with [h] requests in it so far. *)
Record window (key : jsstr) (start h : Z) (log : list (jsstr * Z)) : Prop := {
  w_hits : Z.of_nat (hits (since key start) log) <= Z.min h (limit o);
  w_last : Z.of_nat (hits (between key (start - windowMs o) start) log) <= limit o;
  w_before : all_before key (start + windowMs o) log
}.

(** What is known of a key: its window, or that it is over. *)
Definition known (now : Z) (s : MemoryStore) (log : list (jsstr * Z)) (key : jsstr) : Prop :=
  match found s key with
  | Some c => window key (resetTime c - windowMs o) (totalHits c) log
  | None => all_before key now log /\ Z.of_nat (hits (since key (now - windowMs o)) log) <= limit o
  end.

Definition bounded (log : list (jsstr * Z)) : Prop :=
  forall key t, Z.of_nat (hits (between key t (t + windowMs o)) log) <= 2 * limit o.

Lemma since_later key lo lo' log : lo <= lo' -> (hits (since key lo') log <= hits (since key lo) log)%nat.
Proof. intros H. apply hits_mono. unfold since. intros p _. destruct (bool_decide _); cbn; lia. Qed.

Lemma between_since key lo hi lo' log : lo' <= lo -> (hits (between key lo hi) log <= hits (since key lo') log)%nat.
Proof. intros H. apply hits_mono. unfold between, since. intros p _. destruct (bool_decide _); cbn; lia. Qed.

Lemma since_none key lo log : all_before key lo log -> hits (since key lo) log = O.
Proof.
  intros H. unfold hits. rewrite (filter_none _ log); [done|]. intros [k t] Hin. unfold since. cbn.
  case_bool_decide as E; [|done]. subst. specialize (H t Hin). lia.
Qed.

Lemma between_split key lo mid hi log :
  lo <= mid -> (hits (between key lo hi) log <= hits (between key lo mid) log + hits (since key mid) log)%nat.
Proof.
  intros H. induction log as [|p log IH]; [done|]. rewrite !hits_cons. revert IH. unfold between, since.
  destruct (bool_decide (p.1 = key)), (lo <=? p.2) eqn:?, (p.2 <? hi) eqn:?, (p.2 <? mid) eqn:?, (mid <=? p.2) eqn:?;
    cbn; lia.
Qed.

(** A new window. *)
Lemma window_new key start log :
  0 <= limit o -> all_before key start log -> Z.of_nat (hits (since key (start - windowMs o)) log) <= limit o ->
  0 < windowMs o -> window key start 0 log.
Proof.
  intros Hl Hb Hs Hw. split.
  - rewrite since_none by done. lia.
  - pose proof (between_since key (start - windowMs o) start (start - windowMs o) log ltac:(lia)). lia.
  - intros t Hin. specialize (Hb t Hin). lia.
Qed.

(** A request in a window, which passes or not. *)
Lemma window_hit key start h now log (passed : bool) :
  0 <= h -> start <= now < start + windowMs o -> passed = negb (limit o <? h + 1) -> window key start h log -> bounded log ->
  let log' := log ++ if passed then [(key, now)] else [] in window key start (h + 1) log' /\ bounded log'.
Proof.
  intros Hh Hn Ep [H1 H2 H3] Hb. destruct passed; cbn zeta; [|rewrite app_nil_r; split; [split; (done || lia)|done]].
  symmetry in Ep. apply negb_true_iff in Ep. zbool.
  assert (since key start (key, now) = true) as E1 by (unfold since; rewrite bool_decide_eq_true_2 by done; cbn; lia).
  assert (between key (start - windowMs o) start (key, now) = false) as E2
    by (unfold between, since; rewrite bool_decide_eq_true_2 by done; cbn; lia).
  split; [split|].
  - rewrite hits_app, hits_one, E1. lia.
  - rewrite hits_app, hits_one, E2. lia.
  - intros t [Hin|Hin%list_elem_of_singleton]%elem_of_app; [by apply H3|]. simplify_eq. lia.
  - intros key' t. rewrite hits_app, hits_one. destruct (between key' t (t + windowMs o) (key, now)) eqn:E; [|specialize (Hb key' t); lia].
    unfold between, since in E. cbn in E. case_bool_decide; [subst key'|done].
    assert (start - windowMs o <= t) as Ht by lia.
    assert (hits (between key t (t + windowMs o)) log <= hits (between key (start - windowMs o) start) log + hits (since key start) log)%nat.
    { etransitivity; [|apply (between_split key (start - windowMs o) start (t + windowMs o)); lia].
      apply hits_mono. unfold between, since. intros p _. destruct (bool_decide _); cbn; lia. }
    lia.
Qed.

Lemma known_request now0 tick s log created now key :
  0 <= limit o -> 0 < windowMs o -> timely now0 tick s -> now0 <= created <= now ->
  (forall c, found s key = Some c -> 0 <= totalHits c) -> known now0 s log key -> bounded log ->
  let '(passed, s') := middleware created now key s in
  let log' := log ++ if passed then [(key, now)] else [] in known now s' log' key /\ bounded log'.
Proof.
  intros Hl Hw Ht Hn Hh Hk Hb. unfold middleware. destruct (increment_spec created now key s) as (E1 & E2 & _).
  destruct (increment created now key s) as [c s'] eqn:E. cbn [fst snd] in *. cbn zeta in *. unfold known. rewrite E2, <- E1.
  assert (exists start h, totalHits c = h + 1 /\ resetTime c = start + windowMs o /\ 0 <= h
            /\ start <= now < start + windowMs o /\ window key start h log) as (start & h & Eh & Er & H0 & Hs & Hwin).
  { unfold known in Hk. destruct (found s key) as [c0|] eqn:Ef; cbn [from_option id] in E1; subst c; unfold hit.
    - pose proof (timely_found _ _ _ _ _ Ht Ef) as Hr. specialize (Hh _ eq_refl). destruct (resetTime c0 <=? now) eqn:Ee; zbool; cbn.
      + exists now, 0. destruct Hk as [K1 K2 K3]. split_and!; try lia. apply window_new; try done.
        * intros t Hin. specialize (K3 t Hin). lia.
        * pose proof (since_later key (resetTime c0 - windowMs o) (now - windowMs o) log ltac:(lia)). lia.
      + exists (resetTime c0 - windowMs o), (totalHits c0). split_and!; (done || lia).
    - destruct Hk as [K1 K2]. cbn.
      assert (forall start, now0 <= start -> window key start 0 log) as Hnew.
      { intros start Hst. apply window_new; try done.
        - intros t Hin. specialize (K1 t Hin). lia.
        - pose proof (since_later key (now0 - windowMs o) (start - windowMs o) log ltac:(lia)). lia. }
      destruct (created + windowMs o <=? now) eqn:Ee; zbool; cbn; [exists now, 0|exists created, 0];
        (split_and!; try lia; apply Hnew; lia). }
  rewrite Er, Eh. replace (start + windowMs o - windowMs o) with start by lia. by apply window_hit.
Qed.

(** Requests of another key. *)
Lemma hits_other (P : jsstr * Z -> bool) key now log (b : bool) : P (key, now) = false -> hits P (log ++ if b then [(key, now)] else []) = hits P log.
Proof. intros H. destruct b; [|by rewrite app_nil_r]. rewrite hits_app, hits_one, H. lia. Qed.

Lemma all_before_other key key' hi now log (b : bool) :
  key <> key' -> all_before key' hi log -> all_before key' hi (log ++ if b then [(key, now)] else []).
Proof.
  intros Hk H t [Hin|Hin]%elem_of_app; [by apply H|]. destruct b; [apply list_elem_of_singleton in Hin; congruence|].
  by apply elem_of_nil in Hin.
Qed.

Lemma known_later now now' s log key : now <= now' -> known now s log key -> known now' s log key.
Proof.
  intros Hn. unfold known. destruct (found s key); [done|]. intros [H1 H2]. split.
  - intros t Hin. specialize (H1 t Hin). lia.
  - pose proof (since_later key (now - windowMs o) (now' - windowMs o) log ltac:(lia)). lia.
Qed.

Lemma known_other now s s' log key key' t (b : bool) :
  key <> key' -> found s' key' = found s key' -> known now s log key' ->
  known now s' (log ++ if b then [(key, t)] else []) key'.
Proof.
  intros Hk Hf. assert (forall lo, since key' lo (key, t) = false) as Hs
    by (intros; unfold since; by rewrite bool_decide_eq_false_2).
  unfold known. rewrite Hf. destruct (found s key').
  - intros [H1 H2 H3]. split; [| |by apply all_before_other].
    + by rewrite hits_other.
    + rewrite hits_other; [done|]. unfold between. by rewrite Hs.
  - intros [H1 H2]. split; [by apply all_before_other|by rewrite hits_other].
Qed.

Record lim_inv (now tick : Z) (st : MemoryStore * list (jsstr * Z)) : Prop := {
  li_timely : timely now tick st.1;
  li_hits key c : found st.1 key = Some c -> 0 <= totalHits c;
  li_known key : known now st.1 st.2 key;
  li_bounded : bounded st.2
}.

Lemma lim_inv_new : 0 <= limit o -> lim_inv 0 0 (new_store, []).
Proof.
  intros Hl. split; cbn [fst snd].
  - split; [| |lia]; intros key c; cbn; by rewrite lookup_empty.
  - intros key c. unfold found. cbn. by rewrite !lookup_empty.
  - intros key. unfold known, found. cbn. rewrite !lookup_empty. split; [intros t Hin; by apply elem_of_nil in Hin|].
    change (hits _ []) with O. lia.
  - intros key t. change (hits _ []) with O. lia.
Qed.

Lemma lim_inv_request now0 tick st created now key :
  0 <= limit o -> 0 < windowMs o -> lim_inv now0 tick st -> now0 <= created <= now ->
  lim_inv now tick (handle st (Request created now key)).
Proof.
  intros Hl Hw [H1 H2 H3 H4] Hn. destruct st as [s log]. cbn [fst snd handle] in *.
  pose proof (known_request now0 tick s log created now key Hl Hw H1 Hn (H2 key) (H3 key) H4) as Hk.
  destruct (increment_spec created now key s) as (E1 & E2 & E3 & _). pose proof (timely_request now0 tick s created now key H1 Hn) as Ht.
  unfold middleware in *. destruct (increment created now key s) as [c s']. cbn [fst snd] in *. cbn zeta in *.
  destruct Hk as [Hk Hb]. split; cbn [fst snd]; [done| | |done].
  - intros key' c'. destruct (decide (key' = key)) as [->|Hne]; [|rewrite (E3 _ Hne); apply H2].
    rewrite E2. intros [= <-]. unfold hit. destruct (found s key) as [c0|] eqn:Ef; cbn [from_option id].
    + specialize (H2 _ _ Ef). destruct (resetTime c0 <=? now); cbn; lia.
    + cbn. destruct (_ <=? now); cbn; lia.
  - intros key'. destruct (decide (key' = key)) as [->|Hne]; [done|].
    apply (known_other now s); [done|by apply E3|]. apply (known_later now0); [lia|apply H3].
Qed.

Lemma lim_inv_tick now0 tick st now :
  lim_inv now0 tick st -> now0 <= now -> tick + windowMs o <= now -> lim_inv now now (handle st (Tick now)).
Proof.
  intros [H1 H2 H3 H4] Hn Hw. destruct st as [s log]. cbn [fst snd handle] in *.
  split; cbn [fst snd]; [by apply (timely_tick now0 tick)|..|done]; intros key;
    destruct (found_tick now0 tick s now key H1 Hw) as [Ef|[Ef (c & Ec & Hc)]].
  - intros c'. rewrite Ef. apply H2.
  - intros c'. by rewrite Ef.
  - specialize (H3 key). apply (known_later now0 now) in H3; [|done]. unfold known in *. by rewrite Ef.
  - specialize (H3 key). unfold known in *. rewrite Ec in H3. rewrite Ef. destruct H3 as [K1 K2 K3]. split.
    + intros t Hin. specialize (K3 t Hin). lia.
    + pose proof (since_later key (resetTime c - windowMs o) (now - windowMs o) log ltac:(lia)). lia.
Qed.

Lemma lim_inv_run evs : forall now tick st,
  0 <= limit o -> 0 < windowMs o -> timed now tick evs -> lim_inv now tick st -> bounded (foldl handle st evs).2.
Proof.
  induction evs as [|[created t key|t] evs IH]; intros now tick st Hl Hw Ht Hi; cbn [foldl timed] in *; [apply Hi|..].
  - destruct Ht as [Hn Ht]. eapply IH; [done..|]. by eapply lim_inv_request.
  - destruct Ht as (Hn & Hd & Ht). eapply IH; [done..|]. by eapply lim_inv_tick.
Qed.

Lemma holds_run evs : forall now tick s m log,
  timed now tick evs -> Forall prompt evs -> holds now tick s m ->
  (foldl handle (s, log) evs).2 = (foldl spec_handle (m, log) evs).2.
Proof.
  induction evs as [|[created t key|t] evs IH]; intros now tick s m log Ht Hp Hh; cbn [foldl timed] in *; [done|..];
    apply Forall_cons in Hp as [Hp Hps].
  - destruct Ht as [Hn Ht]. cbn in Hp. subst created. destruct (holds_request now tick s m t key Hh ltac:(lia)) as [E Hh'].
    cbn [handle spec_handle]. unfold middleware. destruct (increment t t key s) as [c s'], (spec_increment t t key m) as [c' m'].
    cbn [fst snd] in *. subst c'. by eapply IH.
  - destruct Ht as (Hn & Hd & Ht). cbn [handle spec_handle]. eapply IH; [done..|]. by eapply holds_tick.
Qed.

(** ** Theorems *)

(** C27: dropping one of the two maps at every tick is invisible: the requests
    that pass are those a limiter lets pass that keeps every address for ever,
    as long as ticks are at least a window apart and the two readings of the clock
    that a request makes agree.  ([late_reading] shows that the second condition is
    needed.) *)
Theorem limiter_forgets_nothing evs :
  timed 0 0 evs -> Forall prompt evs ->
  (foldl handle (new_store, []) evs).2 = (foldl spec_handle (∅, []) evs).2.
Proof.
  intros Ht Hp. apply (holds_run evs 0 0); [done..|]. split.
  - split; [| |lia]; intros key c; cbn; by rewrite lookup_empty.
  - intros key c. unfold found. cbn. by rewrite !lookup_empty.
  - intros key c _. by rewrite lookup_empty.
Qed.

(** C28: of the requests of one address, no more than twice the limit pass in any
    stretch of time as long as a window, wherever it begins. *)
Theorem limiter_bound evs key t :
  0 <= limit o -> 0 < windowMs o -> timed 0 0 evs ->
  Z.of_nat (hits (between key t (t + windowMs o)) (foldl handle (new_store, []) evs).2) <= 2 * limit o.
Proof. intros Hl Hw Ht. by apply (lim_inv_run evs 0 0 (new_store, []) Hl Hw Ht), lim_inv_new. Qed.

End WithOptions.

(** ** Witnesses *)

(** An address with 31 requests, of which the last is refused, a tick, and one
    more request when the window is over. *)
Definition example_events : list event :=
  List.map (fun i => Request (1000 + Z.of_nat i) (1000 + Z.of_nat i) (jss "1.1.1.1")) (seq 0 31)
  ++ [Tick 900000; Request 900500 900500 (jss "1.1.1.1"); Request 901000 901000 (jss "1.1.1.1"); Tick 1800000;
      Request 1800001 1800001 (jss "1.1.1.1")].

Lemma limiter_forgets_nothing_witness :
  (foldl (handle server_options) (new_store, []) example_events).2
  = (foldl (spec_handle server_options) (∅, []) example_events).2
  /\ length (foldl (handle server_options) (new_store, []) example_events).2 = 32%nat.
Proof.
  split; [|vm_compute; reflexivity]. apply (limiter_forgets_nothing server_options example_events).
  - cbn; lia.
  - by repeat constructor.
Defined.

Definition small_options : Options := {| windowMs := 10; limit := 2 |}.

(** When the clock moves on between the readings for a client that is new to the
    store, but not to a limiter that keeps every address, the window of the client
    ends a millisecond earlier, and one more request passes. *)
Lemma late_reading :
  let evs := [Request 0 0 (jss "a"); Tick 10; Tick 20; Request 20 21 (jss "a"); Request 22 22 (jss "a");
              Request 30 30 (jss "a")] in
  timed small_options 0 0 evs
  /\ List.map snd (foldl (handle small_options) (new_store, []) evs).2 = [0; 21; 22; 30]
  /\ List.map snd (foldl (spec_handle small_options) (∅, []) evs).2 = [0; 21; 22].
Proof. cbn [timed small_options windowMs]. split; [lia|]. by vm_compute. Qed.

(** The bound is reached, when the clock moves on between its two readings. *)
Definition small_events : list event :=
  [Request 0 1 (jss "a"); Request 9 9 (jss "a"); Request 9 9 (jss "a"); Request 10 10 (jss "a"); Request 10 10 (jss "a"); Tick 12;
   Request 13 13 (jss "a")].

Lemma limiter_bound_witness :
  hits (between (jss "a") 1 11) (foldl (handle small_options) (new_store, []) small_events).2 = 4%nat
  /\ Z.of_nat (hits (between (jss "a") 1 (1 + windowMs small_options))
                 (foldl (handle small_options) (new_store, []) small_events).2) <= 2 * limit small_options.
Proof.
  split; [vm_compute; reflexivity|]. apply (limiter_bound small_options small_events (jss "a") 1); [done|done|cbn; lia].
Defined.

End RateLimit.
