(* ===== verification/Uint256.v ===== *)
(** * arith_uint256: 256-bit unsigned integers of the node

    src/src/arith_uint256.h and src/src/arith_uint256.cpp.  A [base_uint<256>]
    is an array of eight 32-bit digits, the least significant one first, and
    every operation is a loop over the digits; [eval] is the number that the
    digits stand for.  The first group of theorems says that each loop computes
    the operation of integers modulo [2^256], the shift-and-subtract division
    its quotient.  The second group is about the compact format of difficulty
    targets: what [SetCompact] decodes, when it raises its flags, and that
    [GetCompact] rounds down to the nearest value of the format. *)

From S2P Require Import Prelude.

(** ** Machine integers *)

Definition u32 (x : Z) : Z := x mod 2 ^ 32.
Definition u64 (x : Z) : Z := x mod 2 ^ 64.

(** ** base_uint<256> *)

Definition WIDTH : nat := 8.

(** [uint32_t pn[WIDTH]]. *)
Definition base_uint : Type := list Z.

(** [pn[i]]. *)
Definition limb (a : base_uint) (i : nat) : Z := nth i a 0.

(** [pn[i] |= x]. *)
Fixpoint or_at (i : nat) (x : Z) (a : base_uint) : base_uint :=
  match a, i with
  | [], _ => []
  | y :: a', O => Z.lor y x :: a'
  | y :: a', S i' => y :: or_at i' x a'
  end.

(** The constructor [base_uint()]. *)
Definition uint_zero : base_uint := replicate WIDTH 0.

(** The constructor from [uint64_t], and [operator=(uint64_t)]. *)
Definition uint_of (b : Z) : base_uint :=
  u32 b :: u32 (Z.shiftr (u64 b) 32) :: replicate (WIDTH - 2) 0.

(** [operator~]. *)
Definition uint_not (a : base_uint) : base_uint := map (fun x => u32 (Z.lnot x)) a.

(** [operator++]: the carry runs on while a digit becomes zero. *)
Fixpoint uint_inc (a : base_uint) : base_uint :=
  match a with
  | [] => []
  | x :: a' => let x' := u32 (x + 1) in
               if x' =? 0 then x' :: uint_inc a' else x' :: a'
  end.

(** [operator--]. *)
Fixpoint uint_dec (a : base_uint) : base_uint :=
  match a with
  | [] => []
  | x :: a' => let x' := u32 (x - 1) in
               if x' =? 2 ^ 32 - 1 then x' :: uint_dec a' else x' :: a'
  end.

(** The unary [operator-]. *)
Definition uint_neg (a : base_uint) : base_uint := uint_inc (uint_not a).

(** [operator^=], [operator&=] and [operator|=]. *)
Definition uint_xor (a b : base_uint) : base_uint := zip_with Z.lxor a b.
Definition uint_and (a b : base_uint) : base_uint := zip_with Z.land a b.
Definition uint_or (a b : base_uint) : base_uint := zip_with Z.lor a b.

(** The loop of [operator+=]. *)
Fixpoint add_loop (carry : Z) (a b : base_uint) : base_uint :=
  match a, b with
  | x :: a', y :: b' =>
    let n := u64 (carry + x + y) in
    Z.land n 0xffffffff :: add_loop (Z.shiftr n 32) a' b'
  | _, _ => []
  end.

Definition uint_add (a b : base_uint) : base_uint := add_loop 0 a b.

(** [operator-=]. *)
Definition uint_sub (a b : base_uint) : base_uint := uint_add a (uint_neg b).

(** [operator*=(uint32_t)]. *)
Fixpoint mul32_loop (carry b32 : Z) (a : base_uint) : base_uint :=
  match a with
  | [] => []
  | x :: a' =>
    let n := u64 (carry + b32 * x) in
    Z.land n 0xffffffff :: mul32_loop (Z.shiftr n 32) b32 a'
  end.

Definition uint_mul32 (a : base_uint) (b32 : Z) : base_uint := mul32_loop 0 b32 a.

(** The inner loop of [operator*=(const base_uint&)], on the digits of the
    product from [j] on. *)
Fixpoint mul_row (carry x : Z) (p b : base_uint) : base_uint :=
  match p, b with
  | d :: p', y :: b' =>
    let n := u64 (carry + d + x * y) in
    Z.land n 0xffffffff :: mul_row (Z.shiftr n 32) x p' b'
  | _, _ => p
  end.

(** One turn of its outer loop. *)
Definition mul_step (a b p : base_uint) (j : nat) : base_uint :=
  take j p ++ mul_row 0 (limb a j) (drop j p) b.

Definition uint_mul (a b : base_uint) : base_uint :=
  fold_left (mul_step a b) (seq 0 WIDTH) uint_zero.

(** One turn of the loop of [operator<<=]. *)
Definition shl_step (a : base_uint) (k : nat) (shift : Z) (pn : base_uint) (i : nat) : base_uint :=
  let pn := if (i + k + 1 <? WIDTH)%nat && negb (shift =? 0)
            then or_at (i + k + 1) (Z.shiftr (limb a i) (32 - shift)) pn else pn in
  if (i + k <? WIDTH)%nat then or_at (i + k) (u32 (Z.shiftl (limb a i) shift)) pn else pn.

Definition uint_shl (a : base_uint) (shift : Z) : base_uint :=
  fold_left (shl_step a (Z.to_nat (shift / 32)) (shift mod 32)) (seq 0 WIDTH) uint_zero.

(** One turn of the loop of [operator>>=]. *)
Definition shr_step (a : base_uint) (k : nat) (shift : Z) (pn : base_uint) (i : nat) : base_uint :=
  let pn := if (k + 1 <=? i)%nat && negb (shift =? 0)
            then or_at (i - k - 1) (u32 (Z.shiftl (limb a i) (32 - shift))) pn else pn in
  if (k <=? i)%nat then or_at (i - k) (Z.shiftr (limb a i) shift) pn else pn.

Definition uint_shr (a : base_uint) (shift : Z) : base_uint :=
  fold_left (shr_step a (Z.to_nat (shift / 32)) (shift mod 32)) (seq 0 WIDTH) uint_zero.

(** [CompareTo]: the loop from the most significant digit down. *)
Fixpoint cmp_loop (n : nat) (a b : base_uint) : Z :=
  match n with
  | O => 0
  | S i => if limb a i <? limb b i then -1
           else if limb b i <? limb a i then 1
           else cmp_loop i a b
  end.

Definition CompareTo (a b : base_uint) : Z := cmp_loop WIDTH a b.

(** [operator>], [operator<] and [operator>=] by way of [operator<=>]. *)
Definition uint_gt (a b : base_uint) : bool := 0 <? CompareTo a b.
Definition uint_lt (a b : base_uint) : bool := CompareTo a b <? 0.
Definition uint_ge (a b : base_uint) : bool := 0 <=? CompareTo a b.

(** [EqualTo]. *)
Definition EqualTo (a : base_uint) (b : Z) : bool :=
  forallb (fun x => x =? 0) (drop 2 a) &&
  (limb a 1 =? Z.shiftr (u64 b) 32) && (limb a 0 =? Z.land (u64 b) 0xffffffff).

(** The inner loop of [bits]: [for (nbits = 31; nbits > 0; nbits--)]. *)
Fixpoint digit_bits (nbits : nat) (x : Z) : Z :=
  match nbits with
  | O => 1
  | S n => if Z.land x (Z.shiftl 1 (Z.of_nat nbits)) =? 0 then digit_bits n x
           else Z.of_nat nbits + 1
  end.

Fixpoint bits_loop (pos : nat) (a : base_uint) : Z :=
  match pos with
  | O => 0
  | S p => if limb a p =? 0 then bits_loop p a
           else 32 * Z.of_nat p + digit_bits 31 (limb a p)
  end.

Definition uint_bits (a : base_uint) : Z := bits_loop WIDTH a.

(** The loop of [operator/=]: [n] is [shift + 1]. *)
Fixpoint div_loop (n : nat) (q num div : base_uint) : base_uint :=
  match n with
  | O => q
  | S shift =>
    let '(num, q) :=
      if uint_ge num div
      then (uint_sub num div,
            or_at (Nat.div shift 32) (Z.shiftl 1 (Z.of_nat (Nat.modulo shift 32))) q)
      else (num, q) in
    div_loop shift q num (uint_shr div 1)
  end.

Definition uint_div (a b : base_uint) : res base_uint :=
  let num_bits := uint_bits a in
  let div_bits := uint_bits b in
  if div_bits =? 0 then Throw UintError
  else if num_bits <? div_bits then Ok uint_zero
  else let shift := num_bits - div_bits in
       Ok (div_loop (S (Z.to_nat shift)) uint_zero a (uint_shl b shift)).

(** [GetLow64]. *)
Definition GetLow64 (a : base_uint) : Z := Z.lor (limb a 0) (Z.shiftl (limb a 1) 32).

(** ** The compact format *)

(** [arith_uint256::SetCompact]: the number, [*pfNegative] and [*pfOverflow]. *)
Definition SetCompact (nCompact : Z) : base_uint * bool * bool :=
  let nSize := Z.shiftr nCompact 24 in
  let nWord := Z.land nCompact 0x007fffff in
  let '(n, nWord) :=
    if nSize <=? 3
    then let nWord := Z.shiftr nWord (8 * (3 - nSize)) in (uint_of nWord, nWord)
    else (uint_shl (uint_of nWord) (8 * (nSize - 3)), nWord) in
  (n,
   negb (nWord =? 0) && negb (Z.land nCompact 0x00800000 =? 0),
   negb (nWord =? 0) &&
     ((34 <? nSize) || ((0xff <? nWord) && (33 <? nSize)) || ((0xffff <? nWord) && (32 <? nSize)))).

(** [CeilDiv] of util/overflow.h. *)
Definition CeilDiv (dividend divisor : Z) : Z :=
  dividend / divisor + (if dividend mod divisor =? 0 then 0 else 1).

(** [arith_uint256::GetCompact]. *)
Definition GetCompact (fNegative : bool) (a : base_uint) : res Z :=
  let nSize := CeilDiv (uint_bits a) 8 in
  let nCompact :=
    if nSize <=? 3 then u32 (u64 (Z.shiftl (GetLow64 a) (8 * (3 - nSize))))
    else u32 (GetLow64 (uint_shr a (8 * (nSize - 3)))) in
  let '(nCompact, nSize) :=
    if Z.land nCompact 0x00800000 =? 0 then (nCompact, nSize)
    else (Z.shiftr nCompact 8, nSize + 1) in
  if negb (Z.land nCompact (u32 (Z.lnot 0x007fffff)) =? 0) then Throw AssertFailed
  else if negb (nSize <? 256) then Throw AssertFailed
  else
    let nCompact := Z.lor nCompact (Z.shiftl nSize 24) in
    Ok (Z.lor nCompact
          (if fNegative && negb (Z.land nCompact 0x007fffff =? 0) then 0x00800000 else 0)).

(** ** Blobs

    A [uint256] is 32 bytes, the least significant first. *)

(** [UintToArith256]: [ReadLE32] of each group of four bytes. *)
Definition UintToArith256 (a : bytes) : base_uint :=
  map (fun x => le_combine (take 4 (drop (x * 4) a))) (seq 0 WIDTH).

(** [ArithToUint256]: [WriteLE32] of each digit. *)
Definition ArithToUint256 (a : base_uint) : bytes := concat (map (le_split 4) a).

(** ** The number of an array of digits *)

Fixpoint eval (a : base_uint) : Z :=
  match a with [] => 0 | x :: a' => x + 2 ^ 32 * eval a' end.

Definition words (a : base_uint) : Prop := Forall (fun x => 0 <= x < 2 ^ 32) a.

(** An [arith_uint256]: eight digits of 32 bits. *)
Definition uint_wf (a : base_uint) : Prop := length a = WIDTH /\ words a.

(** [2^(32 n)], the modulus of [n] digits. *)
Definition radix (n : nat) : Z := 2 ^ (32 * Z.of_nat n).

Lemma radix_pos n : 0 < radix n.
Proof. unfold radix. apply Z.pow_pos_nonneg; lia. Qed.

Lemma radix_S n : radix (S n) = 2 ^ 32 * radix n.
Proof. unfold radix. rewrite <- Z.pow_add_r by lia. f_equal. lia. Qed.

Lemma radix_WIDTH : radix WIDTH = 2 ^ 256.
Proof. reflexivity. Qed.

Lemma eval_bounds a : words a -> 0 <= eval a < radix (length a).
Proof.
  induction 1 as [|x a Hx _ IH]; [done|]. cbn [eval length]. rewrite radix_S. lia.
Qed.

Lemma eval_app a b : eval (a ++ b) = eval a + radix (length a) * eval b.
Proof.
  induction a as [|x a IH]; cbn [app eval length]; [change (radix 0) with 1; lia|].
  rewrite IH, radix_S. lia.
Qed.

Lemma eval_replicate n : eval (replicate n 0) = 0.
Proof. induction n as [|n IH]; cbn [replicate eval]; lia. Qed.

Lemma words_replicate n : words (replicate n 0).
Proof. apply Forall_replicate. lia. Qed.

Lemma words_app a b : words (a ++ b) <-> words a /\ words b.
Proof. apply Forall_app. Qed.

Lemma limb_bounds a i : words a -> 0 <= limb a i < 2 ^ 32.
Proof.
  intros Ha. unfold limb. destruct (nth_in_or_default i a 0) as [Hin| ->]; [|lia].
  by apply (proj1 (List.Forall_forall _ _) Ha).
Qed.

(** The digits below [S n]: one more digit on top of those below [n]. *)
Lemma eval_take_S a n : (n < length a)%nat ->
  eval (take (S n) a) = eval (take n a) + limb a n * radix n.
Proof.
  intros Hn. destruct (lookup_lt_is_Some_2 a n Hn) as [x Hx].
  rewrite (take_S_r _ _ x Hx), eval_app, length_take, Nat.min_l by lia.
  unfold limb. rewrite (nth_lookup_Some _ _ _ _ Hx). cbn [eval]. lia.
Qed.

Lemma eval_take_bounds a n : words a -> 0 <= eval (take n a) < radix n.
Proof.
  intros Ha. pose proof (eval_bounds (take n a) (Forall_take _ _ _ Ha)) as H.
  rewrite length_take in H. split; [lia|]. apply (Z.lt_le_trans _ _ _ (proj2 H)).
  apply Z.pow_le_mono_r; lia.
Qed.

Lemma uint_wf_bounds a : uint_wf a -> 0 <= eval a < 2 ^ 256.
Proof. intros [Hl Ha]. rewrite <- radix_WIDTH, <- Hl. by apply eval_bounds. Qed.

Lemma eval_take_WIDTH a : uint_wf a -> eval (take WIDTH a) = eval a.
Proof. intros [Hl _]. by rewrite take_ge by lia. Qed.

(** The digits are determined by the number. *)
Lemma eval_inj a b : words a -> words b -> length a = length b -> eval a = eval b -> a = b.
Proof.
  intros Ha. revert b. induction Ha as [|x a Hx Ha IH]; intros [|y b] Hb Hl He;
    try discriminate; [done|].
  apply Forall_cons in Hb as [Hy Hb]. cbn [eval] in He.
  assert (x = y /\ eval a = eval b) as [-> E] by lia. f_equal. apply IH; auto.
Qed.

(** ** Machine integers *)

Lemma u32_bounds x : 0 <= u32 x < 2 ^ 32.
Proof. unfold u32. apply Z.mod_pos_bound. lia. Qed.

Lemma u32_small x : 0 <= x < 2 ^ 32 -> u32 x = x.
Proof. apply Z.mod_small. Qed.

Lemma u64_small x : 0 <= x < 2 ^ 64 -> u64 x = x.
Proof. apply Z.mod_small. Qed.

Lemma land_low32 n : Z.land n 0xffffffff = n mod 2 ^ 32.
Proof. change 0xffffffff with (Z.ones 32). apply Z.land_ones. lia. Qed.

Lemma shiftr_32 n : Z.shiftr n 32 = n / 2 ^ 32.
Proof. apply Z.shiftr_div_pow2. lia. Qed.

(** A digit and a carry: how the loops below work modulo the radix. *)
Lemma digit_carry n e M : 0 < M ->
  (n + 2 ^ 32 * e) mod (2 ^ 32 * M) = n mod 2 ^ 32 + 2 ^ 32 * ((n / 2 ^ 32 + e) mod M).
Proof.
  intros HM. rewrite Z.rem_mul_r by lia. f_equal; [|f_equal].
  - rewrite (Z.mul_comm (2 ^ 32) e). apply Z.mod_add. lia.
  - rewrite (Z.mul_comm (2 ^ 32) e), Z.div_add by lia. done.
Qed.

Lemma mod32_bounds n : 0 <= n mod 2 ^ 32 < 2 ^ 32.
Proof. apply Z.mod_pos_bound. lia. Qed.

#[export] Hint Resolve radix_pos mod32_bounds u32_bounds words_replicate : js.

(** ** Addition, negation and subtraction *)

Lemma add_loop_spec a b c : words a -> words b -> length a = length b -> 0 <= c <= 1 ->
  eval (add_loop c a b) = (c + eval a + eval b) mod radix (length a) /\
  words (add_loop c a b) /\ length (add_loop c a b) = length a.
Proof.
  intros Ha. revert b c. induction Ha as [|x a Hx Ha IH]; intros [|y b] c Hb Hl Hc;
    try discriminate.
  { cbn [add_loop eval length]. change (radix 0) with 1. rewrite Z.mod_1_r. by split; [|split; [constructor|]]. }
  apply Forall_cons in Hb as [Hy Hb]. injection Hl as Hl.
  cbn [add_loop eval length]. rewrite u64_small, land_low32, shiftr_32 by lia.
  destruct (IH b ((c + x + y) / 2 ^ 32) Hb Hl) as (E & W & L).
  { split; [apply Z.div_pos; lia|]. apply Z.lt_succ_r, Z.div_lt_upper_bound; lia. }
  rewrite E, L, radix_S. split; [|split; [|done]].
  - replace (c + (x + 2 ^ 32 * eval a) + (y + 2 ^ 32 * eval b))
      with (c + x + y + 2 ^ 32 * (eval a + eval b)) by lia.
    rewrite digit_carry by apply radix_pos. do 3 f_equal. lia.
  - constructor; auto with js.
Qed.

Lemma uint_not_spec a : words a ->
  eval (uint_not a) = radix (length a) - 1 - eval a /\
  words (uint_not a) /\ length (uint_not a) = length a.
Proof.
  unfold uint_not. induction 1 as [|x a Hx Ha (E & W & L)]; [by split; [|split; [constructor|]]|]. cbn [map eval length].
  rewrite E, L, radix_S. split; [|split; [constructor; auto with js|done]].
  unfold u32, Z.lnot.
  replace (Z.pred (- x)) with (2 ^ 32 - 1 - x + (-1) * 2 ^ 32) by lia.
  rewrite Z.mod_add, Z.mod_small by lia. lia.
Qed.

Lemma uint_inc_spec a : words a ->
  eval (uint_inc a) = (eval a + 1) mod radix (length a) /\
  words (uint_inc a) /\ length (uint_inc a) = length a.
Proof.
  induction 1 as [|x a Hx Ha (E & W & L)]; [by split; [|split; [constructor|]]|]. cbn [uint_inc eval length].
  rewrite radix_S. replace (x + 2 ^ 32 * eval a + 1) with (x + 1 + 2 ^ 32 * eval a) by lia.
  rewrite digit_carry by apply radix_pos. fold (u32 (x + 1)).
  destruct (u32 (x + 1) =? 0) eqn:Hz; zbool; cbn [eval length].
  - assert (x = 2 ^ 32 - 1) as ->.
    { unfold u32 in Hz. destruct (decide (x + 1 < 2 ^ 32)); [|lia].
      rewrite Z.mod_small in Hz; lia. }
    rewrite E, L. replace ((2 ^ 32 - 1 + 1) / 2 ^ 32) with 1 by done.
    split; [by rewrite (Z.add_comm 1)|]. split; [constructor; auto with js|done].
  - assert (x + 1 < 2 ^ 32) as Hlt.
    { destruct (decide (x = 2 ^ 32 - 1)) as [->|]; [done|lia]. }
    rewrite (Z.div_small (x + 1)) by lia. pose proof (eval_bounds a Ha).
    rewrite Z.add_0_l, (Z.mod_small (eval a)) by lia.
    split; [lia|]. split; [constructor; auto with js|done].
Qed.

Lemma uint_neg_spec a : words a ->
  eval (uint_neg a) = (- eval a) mod radix (length a) /\
  words (uint_neg a) /\ length (uint_neg a) = length a.
Proof.
  intros Ha. destruct (uint_not_spec a Ha) as (E & W & L).
  destruct (uint_inc_spec _ W) as (E' & W' & L').
  unfold uint_neg. rewrite E', E, L', L. split; [|done].
  replace (radix (length a) - 1 - eval a + 1) with (- eval a + 1 * radix (length a)) by lia.
  apply Z.mod_add. pose proof (radix_pos (length a)). lia.
Qed.

Lemma uint_dec_spec a : words a ->
  eval (uint_dec a) = (eval a - 1) mod radix (length a) /\
  words (uint_dec a) /\ length (uint_dec a) = length a.
Proof.
  induction 1 as [|x a Hx Ha (E & W & L)]; [by split; [|split; [constructor|]]|]. cbn [uint_dec eval length].
  rewrite radix_S. replace (x + 2 ^ 32 * eval a - 1) with (x - 1 + 2 ^ 32 * eval a) by lia.
  rewrite digit_carry by apply radix_pos. fold (u32 (x - 1)).
  destruct (u32 (x - 1) =? 2 ^ 32 - 1) eqn:Hz; zbool; cbn [eval length].
  - assert (x = 0) as ->.
    { unfold u32 in Hz. destruct (decide (0 <= x - 1)); [|lia].
      rewrite Z.mod_small in Hz; lia. }
    rewrite E, L. replace ((0 - 1) / 2 ^ 32) with (-1) by done.
    split; [by rewrite (Z.add_comm (-1))|]. split; [constructor; auto with js|done].
  - assert (0 <= x - 1) as Hlt.
    { destruct (decide (x = 0)) as [->|]; [done|lia]. }
    rewrite (Z.div_small (x - 1)) by lia. pose proof (eval_bounds a Ha).
    rewrite Z.add_0_l, (Z.mod_small (eval a)) by lia.
    split; [lia|]. split; [constructor; auto with js|done].
Qed.

(** ** The representation relation

    [repr a v]: the digits [a] are an [arith_uint256] of the number [v].  The
    lemmas named [_repr] are the refinement of each operation. *)

Definition repr (a : base_uint) (v : Z) : Prop := uint_wf a /\ eval a = v.

Lemma repr_bounds a v : repr a v -> 0 <= v < 2 ^ 256.
Proof. intros [Ha <-]. by apply uint_wf_bounds. Qed.

Lemma repr_inj a b v : repr a v -> repr b v -> a = b.
Proof. intros [[La Wa] <-] [[Lb Wb] E]. apply eval_inj; congruence. Qed.

Lemma repr_zero : repr uint_zero 0.
Proof. split; [split; [done|apply words_replicate]|apply eval_replicate]. Qed.

Lemma uint_of_repr b : 0 <= b < 2 ^ 64 -> repr (uint_of b) b.
Proof.
  intros Hb. unfold uint_of. rewrite u64_small, shiftr_32 by lia.
  assert (0 <= b / 2 ^ 32 < 2 ^ 32) as Hh.
  { split; [apply Z.div_pos; lia|apply Z.div_lt_upper_bound; lia]. }
  rewrite (u32_small (b / 2 ^ 32)) by done. split.
  - split; [done|]. do 2 (constructor; [auto with js|]). apply words_replicate.
  - cbn [eval]. rewrite eval_replicate. unfold u32. pose proof (Z.div_mod b (2 ^ 32)). lia.
Qed.

Lemma uint_not_repr a v : repr a v -> repr (uint_not a) (2 ^ 256 - 1 - v).
Proof.
  intros [[L W] <-]. destruct (uint_not_spec a W) as (E & W' & L'). rewrite L in E, L'.
  by repeat split.
Qed.

Lemma uint_inc_repr a v : repr a v -> repr (uint_inc a) ((v + 1) mod 2 ^ 256).
Proof.
  intros [[L W] <-]. destruct (uint_inc_spec a W) as (E & W' & L'). rewrite L in E, L'.
  by repeat split.
Qed.

Lemma uint_dec_repr a v : repr a v -> repr (uint_dec a) ((v - 1) mod 2 ^ 256).
Proof.
  intros [[L W] <-]. destruct (uint_dec_spec a W) as (E & W' & L'). rewrite L in E, L'.
  by repeat split.
Qed.

Lemma uint_neg_repr a v : repr a v -> repr (uint_neg a) ((- v) mod 2 ^ 256).
Proof.
  intros [[L W] <-]. destruct (uint_neg_spec a W) as (E & W' & L'). rewrite L in E, L'.
  by repeat split.
Qed.

Lemma uint_add_repr a b v w : repr a v -> repr b w ->
  repr (uint_add a b) ((v + w) mod 2 ^ 256).
Proof.
  intros [[La Wa] <-] [[Lb Wb] <-].
  destruct (add_loop_spec a b 0 Wa Wb ltac:(congruence) ltac:(lia)) as (E & W & L).
  rewrite La in E, L. by repeat split.
Qed.

Lemma uint_sub_repr a b v w : repr a v -> repr b w ->
  repr (uint_sub a b) ((v - w) mod 2 ^ 256).
Proof.
  intros Ha Hb. pose proof (uint_add_repr _ _ _ _ Ha (uint_neg_repr _ _ Hb)) as H.
  rewrite Z.add_mod_idemp_r in H by lia. exact H.
Qed.

(** ** Multiplication *)

Lemma mul32_loop_spec a b c : words a -> 0 <= b < 2 ^ 32 -> 0 <= c < 2 ^ 32 ->
  eval (mul32_loop c b a) = (c + b * eval a) mod radix (length a) /\
  words (mul32_loop c b a) /\ length (mul32_loop c b a) = length a.
Proof.
  intros Ha Hb. revert c. induction Ha as [|x a Hx Ha IH]; intros c Hc.
  { cbn [mul32_loop eval length]. change (radix 0) with 1. rewrite Z.mod_1_r. by split; [|split; [constructor|]]. }
  cbn [mul32_loop eval length].
  assert (0 <= c + b * x < 2 ^ 32 * 2 ^ 32) as Hn by nia.
  rewrite u64_small, land_low32, shiftr_32 by lia.
  destruct (IH ((c + b * x) / 2 ^ 32)) as (E & W & L).
  { split; [apply Z.div_pos; lia|]. apply Z.div_lt_upper_bound; lia. }
  rewrite E, L, radix_S. split; [|split; [constructor; auto with js|done]].
  replace (c + b * (x + 2 ^ 32 * eval a)) with (c + b * x + 2 ^ 32 * (b * eval a)) by lia.
  by rewrite digit_carry by apply radix_pos.
Qed.

Lemma uint_mul32_repr a v b : repr a v -> 0 <= b < 2 ^ 32 ->
  repr (uint_mul32 a b) ((v * b) mod 2 ^ 256).
Proof.
  intros [[La Wa] <-] Hb.
  destruct (mul32_loop_spec a b 0 Wa Hb ltac:(lia)) as (E & W & L).
  rewrite La in E, L. rewrite (Z.mul_comm (eval a)). by repeat split.
Qed.

Lemma mul_row_spec p b c x : words p -> words b -> (length p <= length b)%nat ->
  0 <= x < 2 ^ 32 -> 0 <= c < 2 ^ 32 ->
  eval (mul_row c x p b) = (c + eval p + x * eval b) mod radix (length p) /\
  words (mul_row c x p b) /\ length (mul_row c x p b) = length p.
Proof.
  intros Hp. revert b c. induction Hp as [|d p Hd Hp IH]; intros b c Hb Hl Hx Hc.
  { cbn [mul_row eval length]. change (radix 0) with 1. rewrite Z.mod_1_r. by split; [|split; [constructor|]]. }
  destruct b as [|y b]; [cbn in Hl; lia|].
  apply Forall_cons in Hb as [Hy Hb]. cbn [length] in Hl.
  cbn [mul_row eval length].
  assert (0 <= c + d + x * y < 2 ^ 32 * 2 ^ 32) as Hn by nia.
  rewrite u64_small, land_low32, shiftr_32 by lia.
  destruct (IH b ((c + d + x * y) / 2 ^ 32) Hb ltac:(lia) Hx) as (E & W & L).
  { split; [apply Z.div_pos; lia|]. apply Z.div_lt_upper_bound; lia. }
  rewrite E, L, radix_S. split; [|split; [constructor; auto with js|done]].
  replace (c + (d + 2 ^ 32 * eval p) + x * (y + 2 ^ 32 * eval b))
    with (c + d + x * y + 2 ^ 32 * (eval p + x * eval b)) by lia.
  rewrite digit_carry by apply radix_pos. do 3 f_equal. lia.
Qed.

(** The digits of the product above [j], modulo the digits that are left. *)
Lemma high_part M K p r : 0 < M -> 0 < K -> (p + M * (r mod K)) mod (M * K) = (p + M * r) mod (M * K).
Proof.
  intros HM HK. rewrite (Z.mod_eq r K) by lia.
  replace (p + M * (r - K * (r / K))) with (p + M * r + (- (r / K)) * (M * K)) by lia.
  apply Z.mod_add. lia.
Qed.

Lemma mul_outer a b n : uint_wf a -> uint_wf b -> (n <= WIDTH)%nat ->
  repr (fold_left (mul_step a b) (seq 0 n) uint_zero) ((eval (take n a) * eval b) mod 2 ^ 256).
Proof.
  intros [La Wa] [Lb Wb]. induction n as [|n IH]; intros Hn; [apply repr_zero|].
  rewrite seq_S, fold_left_app. cbn [fold_left].
  specialize (IH ltac:(lia)). rewrite Nat.add_0_l.
  
  generalize dependent (fold_left (mul_step a b) (seq 0 n) uint_zero).
  intros p [[Lp Wp] Ep]. unfold mul_step.
  pose proof (limb_bounds a n Wa) as Hx.
  destruct (mul_row_spec (drop n p) b 0 (limb a n)) as (E & W & L); auto with lia.
  { by apply Forall_drop. } { rewrite length_drop. lia. }
  rewrite length_drop, Lp in E, L.
  assert (length (take n p) = n) as Lt by (rewrite length_take; lia).
  assert (2 ^ 256 = radix n * radix (WIDTH - n)) as HR.
  { rewrite <- radix_WIDTH. unfold radix. rewrite <- Z.pow_add_r by lia. f_equal. lia. }
  split; [split|].
  - rewrite length_app, L, Lt. lia.
  - apply words_app. split; [by apply Forall_take|done].
  - rewrite eval_app, E, Lt, eval_take_S by lia.
    assert (eval p = eval (take n p) + radix n * eval (drop n p)) as Ed.
    { rewrite <- (take_drop n p) at 1. by rewrite eval_app, Lt. }
    rewrite <- (Z.mod_small (eval (take n p) + _) (2 ^ 256)).
    2:{ pose proof (eval_take_bounds p n Wp). rewrite HR.
        pose proof (Z.mod_pos_bound (0 + eval (drop n p) + limb a n * eval b)
                      (radix (WIDTH - n)) (radix_pos _)). nia. }
    rewrite HR, high_part by apply radix_pos. rewrite <- HR.
    replace (eval (take n p) + radix n * (0 + eval (drop n p) + limb a n * eval b))
      with (eval p + limb a n * radix n * eval b) by lia.
    rewrite Ep, Z.add_mod_idemp_l by lia. f_equal. lia.
Qed.

Lemma uint_mul_repr a b v w : repr a v -> repr b w -> repr (uint_mul a b) ((v * w) mod 2 ^ 256).
Proof.
  intros [Ha <-] [Hb <-]. rewrite <- (eval_take_WIDTH a Ha). by apply mul_outer.
Qed.

(** ** Bits of digits *)

Lemma bit_above n x i : 0 <= x < 2 ^ n -> 0 <= n <= i -> Z.testbit x i = false.
Proof. intros Hx Hi. rewrite <- (Z.mod_small x (2 ^ n)) by done. by apply Z.mod_pow2_bits_high. Qed.

Lemma land_low n x y : 0 <= n -> 0 <= x < 2 ^ n -> Z.land x (Z.shiftl y n) = 0.
Proof.
  intros Hn Hx. apply Z.bits_inj'. intros i Hi. rewrite Z.land_spec, Z.bits_0.
  destruct (decide (i < n)) as [Hlt|Hge].
  - rewrite Z.shiftl_spec_low by done. apply andb_false_r.
  - by rewrite (bit_above n x i) by lia.
Qed.

(** A digit below the others: addition is [Z.lor]. *)
Lemma lor_low n x y : 0 <= n -> 0 <= x < 2 ^ n -> Z.lor x (Z.shiftl y n) = x + 2 ^ n * y.
Proof.
  intros Hn Hx. pose proof (Z.add_lor_land x (Z.shiftl y n)) as H.
  rewrite land_low, Z.shiftl_mul_pow2 in * by done. lia.
Qed.

Lemma eval_cons_lor x a : 0 <= x < 2 ^ 32 -> eval (x :: a) = Z.lor x (Z.shiftl (eval a) 32).
Proof. intros Hx. by rewrite lor_low by lia. Qed.

Lemma lor_bounds n x y : 0 <= n -> 0 <= x < 2 ^ n -> 0 <= y < 2 ^ n -> 0 <= Z.lor x y < 2 ^ n.
Proof.
  intros Hn Hx Hy. replace (Z.lor x y) with (Z.lor x y mod 2 ^ n).
  { apply Z.mod_pos_bound, Z.pow_pos_nonneg; lia. }
  apply Z.bits_inj'. intros i Hi. destruct (decide (i < n)).
  - by rewrite Z.mod_pow2_bits_low by lia.
  - by rewrite Z.mod_pow2_bits_high, Z.lor_spec, !(bit_above n) by lia.
Qed.

Lemma or_at_spec i x a : words a -> 0 <= x < 2 ^ 32 -> (i < length a)%nat ->
  eval (or_at i x a) = Z.lor (eval a) (Z.shiftl x (32 * Z.of_nat i)) /\
  words (or_at i x a) /\ length (or_at i x a) = length a.
Proof.
  intros Ha Hx. revert i.
  induction Ha as [|y a Hy Ha IH]; intros i Hi; [cbn in Hi; lia|].
  assert (0 <= Z.lor y x < 2 ^ 32) as Hyx by (apply lor_bounds; lia).
  destruct i as [|i]; cbn [or_at length].
  - rewrite !eval_cons_lor, Z.shiftl_0_r by done. split; [|split; [by constructor|done]].
    rewrite <- !Z.lor_assoc. f_equal. apply Z.lor_comm.
  - destruct (IH i) as (E & W & L); [cbn in Hi; lia|].
    rewrite !eval_cons_lor, E, L by done.
    split; [|split; [by constructor|done]].
    rewrite Z.shiftl_lor, Z.shiftl_shiftl, Z.lor_assoc by lia. do 2 f_equal. lia.
Qed.

Lemma or_at_repr i x a v : repr a v -> 0 <= x < 2 ^ 32 -> (i < WIDTH)%nat ->
  repr (or_at i x a) (Z.lor v (Z.shiftl x (32 * Z.of_nat i))).
Proof.
  intros [[L W] <-] Hx Hi. destruct (or_at_spec i x a W Hx ltac:(lia)) as (E & W' & L').
  split; [split; congruence|done].
Qed.

(** Operations that work bit by bit, on digits and on numbers. *)
Section bitwise.
Context (f : Z -> Z -> Z) (g : bool -> bool -> bool).
Hypothesis f_spec : forall x y n, 0 <= n ->
  Z.testbit (f x y) n = g (Z.testbit x n) (Z.testbit y n).
Hypothesis g_false : g false false = false.

Lemma bitwise_digit x y : 0 <= x < 2 ^ 32 -> 0 <= y < 2 ^ 32 -> 0 <= f x y < 2 ^ 32.
Proof using f_spec g_false.
  intros Hx Hy. replace (f x y) with (f x y mod 2 ^ 32); [apply mod32_bounds|].
  apply Z.bits_inj'. intros n Hn. destruct (decide (n < 32)).
  - by rewrite Z.mod_pow2_bits_low by lia.
  - by rewrite Z.mod_pow2_bits_high, f_spec, !(bit_above 32) by lia.
Qed.

Lemma bitwise_eval a b : words a -> words b -> length a = length b ->
  eval (zip_with f a b) = f (eval a) (eval b) /\ words (zip_with f a b).
Proof using f_spec g_false.
  intros Ha. revert b. induction Ha as [|x a Hx Ha IH]; intros [|y b] Hb Hl; try discriminate.
  { split; [|constructor]. cbn. apply Z.bits_inj'. intros n Hn. by rewrite f_spec, !Z.bits_0. }
  apply Forall_cons in Hb as [Hy Hb]. injection Hl as Hl. destruct (IH b Hb Hl) as [E W].
  pose proof (bitwise_digit x y Hx Hy) as Hd. cbn [zip_with].
  split; [|by constructor]. rewrite !eval_cons_lor, E by done.
  apply Z.bits_inj'. intros n Hn. rewrite f_spec, !Z.lor_spec, !Z.shiftl_spec, f_spec by done.
  destruct (decide (n < 32)).
  - rewrite !(Z.testbit_neg_r _ (n - 32)) by lia. by rewrite !orb_false_r.
  - rewrite f_spec, !(bit_above 32 x), !(bit_above 32 y), g_false by lia. done.
Qed.

Lemma bitwise_repr a b v w : repr a v -> repr b w -> repr (zip_with f a b) (f v w).
Proof using f_spec g_false.
  intros [[La Wa] <-] [[Lb Wb] <-]. destruct (bitwise_eval a b) as [E W]; [done..|congruence|].
  split; [split; [rewrite length_zip_with; lia|done]|done].
Qed.
End bitwise.

Lemma uint_and_repr a b v w : repr a v -> repr b w -> repr (uint_and a b) (Z.land v w).
Proof. apply (bitwise_repr _ andb); [intros; apply Z.land_spec|done]. Qed.

Lemma uint_or_repr a b v w : repr a v -> repr b w -> repr (uint_or a b) (Z.lor v w).
Proof. apply (bitwise_repr _ orb); [intros; apply Z.lor_spec|done]. Qed.

Lemma uint_xor_repr a b v w : repr a v -> repr b w -> repr (uint_xor a b) (Z.lxor v w).
Proof. apply (bitwise_repr _ xorb); [intros; apply Z.lxor_spec|done]. Qed.

(** ** Shifts *)

Lemma land_ones_mod v : Z.land v (Z.ones 256) = v mod 2 ^ 256.
Proof. apply Z.land_ones. lia. Qed.

(** A digit shifted by less than its width: a low and a high digit. *)
Lemma digit_split x s : 0 <= x < 2 ^ 32 -> 0 <= s < 32 ->
  x * 2 ^ s = u32 (Z.shiftl x s) + 2 ^ 32 * Z.shiftr x (32 - s) /\
  0 <= Z.shiftr x (32 - s) < 2 ^ 32.
Proof.
  intros Hx Hs. rewrite Z.shiftl_mul_pow2, Z.shiftr_div_pow2 by lia. unfold u32.
  assert (2 ^ 32 = 2 ^ s * 2 ^ (32 - s)) as HP by (rewrite <- Z.pow_add_r by lia; f_equal; lia).
  assert (0 < 2 ^ s /\ 0 < 2 ^ (32 - s)) as [? ?] by (split; apply Z.pow_pos_nonneg; lia).
  split.
  - rewrite (Z.div_mod (x * 2 ^ s) (2 ^ 32)) at 1 by lia. rewrite HP at 2.
    rewrite (Z.mul_comm (2 ^ s)), Z.div_mul_cancel_r by lia. lia.
  - split; [apply Z.div_pos; lia|]. apply Z.div_lt_upper_bound; nia.
Qed.

(** What a digit adds to the sum, [j] digits up. *)
Lemma shl_digit x s (j : nat) : 0 <= x < 2 ^ 32 -> 0 <= s < 32 ->
  Z.land (Z.shiftl x (32 * Z.of_nat j + s)) (Z.ones 256) =
  Z.lor (if (j + 1 <? WIDTH)%nat && negb (s =? 0)
         then Z.shiftl (Z.shiftr x (32 - s)) (32 * Z.of_nat (j + 1)) else 0)
        (if (j <? WIDTH)%nat then Z.shiftl (u32 (Z.shiftl x s)) (32 * Z.of_nat j) else 0).
Proof.
  intros Hx Hs. destruct (digit_split x s Hx Hs) as [E Hh].
  pose proof (u32_bounds (Z.shiftl x s)) as Hl.
  set (lo := u32 (Z.shiftl x s)) in *. set (hi := Z.shiftr x (32 - s)) in *.
  assert (s = 0 -> hi = 0) as Hz.
  { intros ->. unfold hi. rewrite Z.shiftr_div_pow2, Z.div_small by lia. done. }
  clearbody lo hi. rewrite land_ones_mod, !Z.shiftl_mul_pow2 by lia. fold (radix j).
  rewrite Z.add_comm, Z.pow_add_r, Z.mul_assoc, E by lia. fold (radix j) (radix (j + 1)).
  pose proof (radix_pos j). rewrite Nat.add_1_r, radix_S. unfold WIDTH.
  destruct (Nat.ltb_spec (S j) 8).
  - rewrite (proj2 (Nat.ltb_lt j 8)) by lia.
    assert (radix (S (S j)) <= 2 ^ 256) as HM by (apply Z.pow_le_mono_r; lia).
    rewrite !radix_S in HM. rewrite Z.mod_small by nia.
    replace (if true && negb (s =? 0) then hi * (2 ^ 32 * radix j) else 0)
      with (hi * (2 ^ 32 * radix j)).
    2:{ destruct (Z.eqb_spec s 0); cbn [andb negb]; [|done]. rewrite Hz by done. lia. }
    rewrite Z.lor_comm, <- radix_S. unfold radix at 3. rewrite <- Z.shiftl_mul_pow2 by lia.
    rewrite lor_low by (fold (radix (S j)); rewrite ?radix_S; nia).
    fold (radix (S j)). rewrite radix_S. lia.
  - cbn [andb]. rewrite Z.lor_0_l. destruct (Nat.ltb_spec j 8).
    + replace j with 7%nat in * by lia. change (2 ^ 256) with (2 ^ 32 * radix 7).
      replace ((lo + 2 ^ 32 * hi) * radix 7) with (lo * radix 7 + hi * (2 ^ 32 * radix 7)) by lia.
      rewrite Z.mod_add, Z.mod_small by nia. done.
    + replace (radix j) with (radix (j - 8) * 2 ^ 256).
      2:{ unfold radix. rewrite <- Z.pow_add_r by lia. f_equal. lia. }
      rewrite Z.mul_assoc. apply Z.mod_mul. lia.
Qed.

Lemma eval_take_S_lor a n : words a -> (n < length a)%nat ->
  eval (take (S n) a) = Z.lor (eval (take n a)) (Z.shiftl (limb a n) (32 * Z.of_nat n)).
Proof.
  intros Ha Hn. rewrite eval_take_S, lor_low by (try apply eval_take_bounds; auto with lia).
  unfold radix. lia.
Qed.

(** [pn[i] |= x] under a condition. *)
Lemma or_at_if_repr (c : bool) i x a v : repr a v ->
  (c = true -> 0 <= x < 2 ^ 32 /\ (i < WIDTH)%nat) ->
  repr (if c then or_at i x a else a) (Z.lor v (if c then Z.shiftl x (32 * Z.of_nat i) else 0)).
Proof.
  intros Ha Hc. destruct c; [|by rewrite Z.lor_0_r].
  destruct (Hc eq_refl). by apply or_at_repr.
Qed.

Lemma shl_outer a k s n : uint_wf a -> 0 <= s < 32 -> (n <= WIDTH)%nat ->
  repr (fold_left (shl_step a k s) (seq 0 n) uint_zero)
       (Z.land (Z.shiftl (eval (take n a)) (32 * Z.of_nat k + s)) (Z.ones 256)).
Proof.
  intros [La Wa] Hs. induction n as [|n IH]; intros Hn.
  { cbn [take eval]. rewrite Z.shiftl_0_l. apply repr_zero. }
  rewrite seq_S, fold_left_app. cbn [fold_left]. rewrite Nat.add_0_l. specialize (IH ltac:(lia)).
  generalize dependent (fold_left (shl_step a k s) (seq 0 n) uint_zero). intros p Hp.
  pose proof (limb_bounds a n Wa) as Hx.
  rewrite eval_take_S_lor, Z.shiftl_lor, Z.shiftl_shiftl, Z.land_lor_distr_l by (done || lia).
  replace (32 * Z.of_nat n + (32 * Z.of_nat k + s)) with (32 * Z.of_nat (n + k) + s) by lia.
  rewrite (shl_digit (limb a n)), Z.lor_assoc by done. unfold shl_step.
  apply or_at_if_repr; [apply or_at_if_repr; [done|]|].
  - intros Hc. apply andb_prop in Hc as [Hc _]. apply Nat.ltb_lt in Hc.
    split; [by apply digit_split|done].
  - intros Hc. apply Nat.ltb_lt in Hc. split; [auto with js|done].
Qed.

Lemma uint_shl_repr a v s : repr a v -> 0 <= s -> repr (uint_shl a s) ((v * 2 ^ s) mod 2 ^ 256).
Proof.
  intros [Ha <-] Hs. pose proof (Z.mod_pos_bound s 32 ltac:(lia)).
  pose proof (shl_outer a (Z.to_nat (s / 32)) (s mod 32) WIDTH Ha ltac:(lia) ltac:(lia)) as H'.
  rewrite eval_take_WIDTH, land_ones_mod, Z2Nat.id in H' by (try apply Z.div_pos; done || lia).
  rewrite <- Z.div_mod, Z.shiftl_mul_pow2 in H' by lia. exact H'.
Qed.

(** What a digit leaves after a right shift by [32 k + s]. *)
Lemma shr_digit x s (n k : nat) : 0 <= x < 2 ^ 32 -> 0 <= s < 32 ->
  Z.shiftr (Z.shiftl x (32 * Z.of_nat n)) (32 * Z.of_nat k + s) =
  Z.lor (if (k + 1 <=? n)%nat && negb (s =? 0)
         then Z.shiftl (u32 (Z.shiftl x (32 - s))) (32 * Z.of_nat (n - k - 1)) else 0)
        (if (k <=? n)%nat then Z.shiftl (Z.shiftr x s) (32 * Z.of_nat (n - k)) else 0).
Proof.
  intros Hx Hs. destruct (Nat.leb_spec (k + 1) n); [rewrite (proj2 (Nat.leb_le k n)) by lia|].
  - destruct (Z.eqb_spec s 0) as [->|Hz]; cbn [andb negb].
    { rewrite Z.lor_0_l, Z.shiftr_0_r, Z.shiftr_shiftl_l by lia. f_equal. lia. }
    destruct (digit_split x (32 - s) Hx ltac:(lia)) as [E Hh].
    replace (32 - (32 - s)) with s in * by lia.
    rewrite Z.shiftr_shiftl_l by lia.
    replace (32 * Z.of_nat n - (32 * Z.of_nat k + s))
      with (32 - s + 32 * Z.of_nat (n - k - 1)) by lia.
    rewrite <- Z.shiftl_shiftl by lia. pose proof (u32_bounds (Z.shiftl x (32 - s))) as Hl.
    generalize dependent (u32 (Z.shiftl x (32 - s))). intros lo E Hl.
    rewrite (Z.shiftl_mul_pow2 x), E, <- lor_low, Z.shiftl_lor, Z.shiftl_shiftl by lia.
    do 2 f_equal. lia.
  - cbn [andb]. rewrite Z.lor_0_l. destruct (Nat.leb_spec k n).
    + replace k with n by lia. rewrite Nat.sub_diag, Z.mul_0_r, Z.shiftl_0_r.
      rewrite <- Z.shiftr_shiftr, Z.shiftr_shiftl_l, Z.sub_diag, Z.shiftl_0_r by lia. done.
    + rewrite Z.shiftr_div_pow2, Z.shiftl_mul_pow2 by lia. apply Z.div_small.
      fold (radix n). pose proof (radix_pos n). split; [nia|].
      apply (Z.lt_le_trans _ (radix (S n))); [rewrite radix_S; nia|].
      apply Z.pow_le_mono_r; lia.
Qed.

Lemma shr_outer a k s n : uint_wf a -> 0 <= s < 32 -> (n <= WIDTH)%nat ->
  repr (fold_left (shr_step a k s) (seq 0 n) uint_zero)
       (Z.shiftr (eval (take n a)) (32 * Z.of_nat k + s)).
Proof.
  intros [La Wa] Hs. induction n as [|n IH]; intros Hn.
  { cbn [take eval]. rewrite Z.shiftr_0_l. apply repr_zero. }
  rewrite seq_S, fold_left_app. cbn [fold_left]. rewrite Nat.add_0_l. specialize (IH ltac:(lia)).
  generalize dependent (fold_left (shr_step a k s) (seq 0 n) uint_zero). intros p Hp.
  pose proof (limb_bounds a n Wa) as Hx.
  rewrite eval_take_S_lor, Z.shiftr_lor, shr_digit, Z.lor_assoc by (done || lia).
  unfold shr_step. apply or_at_if_repr; [apply or_at_if_repr; [done|]|].
  - intros _. split; [auto with js|lia].
  - intros _. split; [|lia]. rewrite Z.shiftr_div_pow2 by lia.
    assert (0 < 2 ^ s) by (apply Z.pow_pos_nonneg; lia).
    split; [apply Z.div_pos; lia|]. apply Z.div_lt_upper_bound; nia.
Qed.

Lemma uint_shr_repr a v s : repr a v -> 0 <= s -> repr (uint_shr a s) (v / 2 ^ s).
Proof.
  intros [Ha <-] Hs. pose proof (Z.mod_pos_bound s 32 ltac:(lia)).
  pose proof (shr_outer a (Z.to_nat (s / 32)) (s mod 32) WIDTH Ha ltac:(lia) ltac:(lia)) as H'.
  rewrite eval_take_WIDTH, Z2Nat.id in H' by (try apply Z.div_pos; done || lia).
  rewrite <- Z.div_mod, Z.shiftr_div_pow2 in H' by lia. exact H'.
Qed.

(** ** Comparison and length *)

Lemma cmp_loop_spec n a b : words a -> words b -> (n <= length a)%nat -> (n <= length b)%nat ->
  cmp_loop n a b = Z.sgn (eval (take n a) - eval (take n b)).
Proof.
  intros Ha Hb. induction n as [|n IH]; intros La Lb; [done|]. cbn [cmp_loop].
  rewrite !eval_take_S by lia. pose proof (eval_take_bounds a n Ha).
  pose proof (eval_take_bounds b n Hb). pose proof (radix_pos n).
  destruct (Z.ltb_spec (limb a n) (limb b n)); [symmetry; apply Z.sgn_neg; nia|].
  destruct (Z.ltb_spec (limb b n) (limb a n)); [symmetry; apply Z.sgn_pos; nia|].
  replace (limb b n) with (limb a n) by lia. rewrite IH by lia. f_equal. lia.
Qed.

Lemma CompareTo_repr a b v w : repr a v -> repr b w -> CompareTo a b = Z.sgn (v - w).
Proof.
  intros [Ha <-] [Hb <-]. unfold CompareTo.
  rewrite cmp_loop_spec, !eval_take_WIDTH by (try apply Ha; try apply Hb; try (by destruct Ha, Hb; lia)).
  done.
Qed.

Lemma uint_gt_repr a b v w : repr a v -> repr b w -> uint_gt a b = (w <? v).
Proof.
  intros Ha Hb. unfold uint_gt. rewrite (CompareTo_repr _ _ _ _ Ha Hb).
  destruct (Z.ltb_spec w v); destruct (Z.ltb_spec 0 (Z.sgn (v - w))); lia.
Qed.

Lemma uint_lt_repr a b v w : repr a v -> repr b w -> uint_lt a b = (v <? w).
Proof.
  intros Ha Hb. unfold uint_lt. rewrite (CompareTo_repr _ _ _ _ Ha Hb).
  destruct (Z.ltb_spec v w); destruct (Z.ltb_spec (Z.sgn (v - w)) 0); lia.
Qed.

Lemma uint_ge_repr a b v w : repr a v -> repr b w -> uint_ge a b = (w <=? v).
Proof.
  intros Ha Hb. unfold uint_ge. rewrite (CompareTo_repr _ _ _ _ Ha Hb).
  destruct (Z.leb_spec w v); destruct (Z.leb_spec 0 (Z.sgn (v - w))); lia.
Qed.

Lemma EqualTo_repr a v b : repr a v -> 0 <= b < 2 ^ 64 -> EqualTo a b = (v =? b).
Proof.
  intros [[L W] <-] Hb. unfold EqualTo.
  destruct a as [|x0 [|x1 a]]; [discriminate L..|]. unfold words in W. rewrite !Forall_cons in W.
  destruct W as (H0 & H1 & W). change (drop 2 (x0 :: x1 :: a)) with a. cbn [limb nth eval].
  rewrite u64_small, land_low32, shiftr_32 by done.
  pose proof (eval_bounds a W) as Ha.
  assert (forallb (fun x => x =? 0) a = (eval a =? 0)) as ->.
  { clear - W. induction W as [|x a Hx W IH]; [done|]. cbn [forallb eval]. rewrite IH.
    pose proof (eval_bounds a W).
    destruct (Z.eqb_spec x 0), (Z.eqb_spec (eval a) 0), (Z.eqb_spec (x + 2 ^ 32 * eval a) 0);
      try done; lia. }
  pose proof (Z.div_mod b (2 ^ 32) ltac:(lia)). pose proof (mod32_bounds b).
  assert (0 <= b / 2 ^ 32 < 2 ^ 32).
  { split; [apply Z.div_pos; lia|apply Z.div_lt_upper_bound; lia]. }
  destruct (Z.eqb_spec (eval a) 0), (Z.eqb_spec x1 (b / 2 ^ 32)), (Z.eqb_spec x0 (b mod 2 ^ 32)),
    (Z.eqb_spec (x0 + 2 ^ 32 * (x1 + 2 ^ 32 * eval a)) b); try done; lia.
Qed.

(** The number of significant bits. *)
Definition nbits (v : Z) : Z := if v =? 0 then 0 else Z.log2 v + 1.

Lemma nbits_unique v n : 0 <= n -> 2 ^ n <= v < 2 ^ (n + 1) -> nbits v = n + 1.
Proof.
  intros Hn Hv. unfold nbits. assert (0 < 2 ^ n) by (apply Z.pow_pos_nonneg; lia).
  rewrite (proj2 (Z.eqb_neq v 0)), (Z.log2_unique v n); try done; lia.
Qed.

Lemma nbits_spec v : 0 < v -> 0 <= nbits v - 1 /\ 2 ^ (nbits v - 1) <= v < 2 ^ nbits v.
Proof.
  intros Hv. unfold nbits. rewrite (proj2 (Z.eqb_neq v 0)) by lia.
  rewrite Z.add_simpl_r, Z.add_1_r. split; [apply Z.log2_nonneg|by apply Z.log2_spec].
Qed.

Lemma digit_bits_spec n x : 0 < x < 2 ^ (Z.of_nat n + 1) -> digit_bits n x = nbits x.
Proof.
  induction n as [|n IH]; intros Hx.
  { assert (x = 1) as -> by (change (2 ^ (Z.of_nat 0 + 1)) with 2 in Hx; lia). done. }
  cbn [digit_bits]. rewrite Z.shiftl_1_l.
  destruct (decide (x < 2 ^ (Z.of_nat n + 1))) as [Hlt|Hge].
  - replace (Z.land x (2 ^ Z.of_nat (S n))) with 0; [apply IH; lia|].
    symmetry. apply Z.bits_inj'. intros i Hi. rewrite Z.land_spec, Z.bits_0, Z.pow2_bits_eqb by lia.
    destruct (Z.eqb_spec (Z.of_nat (S n)) i) as [<-|]; [|apply andb_false_r].
    by rewrite (bit_above (Z.of_nat n + 1)) by lia.
  - rewrite (nbits_unique x (Z.of_nat (S n))); [|lia|].
    2:{ replace (Z.of_nat (S n)) with (Z.of_nat n + 1) in * by lia. lia. }
    destruct (Z.eqb_spec (Z.land x (2 ^ Z.of_nat (S n))) 0) as [E|]; [|done].
    exfalso. assert (Z.testbit x (Z.of_nat (S n)) = true) as Hb.
    { apply Z.testbit_true; [lia|].
      replace (x / 2 ^ Z.of_nat (S n)) with 1; [done|].
      apply Z.div_unique with (x - 2 ^ Z.of_nat (S n)); [left|lia].
      rewrite Z.pow_add_r in Hx by lia.
      replace (Z.of_nat (S n)) with (Z.of_nat n + 1) in * by lia. lia. }
    apply (f_equal (fun z => Z.testbit z (Z.of_nat (S n)))) in E.
    rewrite Z.land_spec, Hb, Z.pow2_bits_true, Z.bits_0 in E by lia. discriminate.
Qed.

Lemma nbits_shift x r n : 0 < x -> 0 <= n -> 0 <= r < 2 ^ n -> nbits (r + x * 2 ^ n) = n + nbits x.
Proof.
  intros Hx Hn Hr. destruct (nbits_spec x Hx) as (H0 & Hl & Hu).
  rewrite (nbits_unique _ (n + (nbits x - 1))); [lia|lia|].
  rewrite Z.pow_add_r by lia. split; [nia|].
  replace (n + (nbits x - 1) + 1) with (n + nbits x) by lia. rewrite Z.pow_add_r by lia. nia.
Qed.

Lemma bits_loop_spec n a : words a -> (n <= length a)%nat -> bits_loop n a = nbits (eval (take n a)).
Proof.
  intros Ha. induction n as [|n IH]; intros Hn; [done|]. cbn [bits_loop].
  rewrite eval_take_S by lia. pose proof (limb_bounds a n Ha).
  destruct (Z.eqb_spec (limb a n) 0) as [->|]; [rewrite IH by lia; f_equal; lia|].
  unfold radix. rewrite nbits_shift, digit_bits_spec; try done; try lia.
  by apply eval_take_bounds.
Qed.

Lemma uint_bits_repr a v : repr a v -> uint_bits a = nbits v.
Proof.
  intros [Ha <-]. unfold uint_bits. rewrite bits_loop_spec, eval_take_WIDTH; try done;
    destruct Ha; [done|lia].
Qed.

(** ** Division *)

(** The loop keeps [a = q * b + num] with [q] a multiple of the bits that are
    still to be found. *)
Lemma div_loop_spec n q num d A b m : repr q (m * 2 ^ Z.of_nat n) ->
  (exists r, repr num r /\ A = m * 2 ^ Z.of_nat n * b + r /\ r < b * 2 ^ Z.of_nat n) ->
  ((0 < n)%nat -> repr d (b * 2 ^ (Z.of_nat n - 1))) ->
  (n <= 256)%nat -> 0 < b ->
  repr (div_loop n q num d) (A / b).
Proof.
  revert q num d m. induction n as [|n IH]; intros q num d m Hq (r & Hr & HA & Hlt) Hd Hn Hb.
  { cbn [div_loop]. rewrite Z.mul_1_r in *. pose proof (repr_bounds _ _ Hr).
    replace (A / b) with m; [done|]. apply Z.div_unique with r; [left|]; lia. }
  cbn [div_loop]. specialize (Hd ltac:(lia)).
  replace (Z.of_nat (S n) - 1) with (Z.of_nat n) in Hd by lia.
  assert (2 ^ Z.of_nat (S n) = 2 * 2 ^ Z.of_nat n) as HS by (rewrite <- Z.pow_succ_r by lia; f_equal; lia).
  rewrite HS in *. assert (0 < 2 ^ Z.of_nat n) by (apply Z.pow_pos_nonneg; lia).
  pose proof (repr_bounds _ _ Hr). pose proof (repr_bounds _ _ Hd).
  assert ((0 < n)%nat -> repr (uint_shr d 1) (b * 2 ^ (Z.of_nat n - 1))) as Hd'.
  { intros Hn'. pose proof (uint_shr_repr _ _ 1 Hd ltac:(lia)) as Hrep.
    replace (2 ^ Z.of_nat n) with (2 ^ (Z.of_nat n - 1) * 2 ^ 1) in Hrep
      by (rewrite <- Z.pow_add_r by lia; f_equal; lia).
    by rewrite Z.mul_assoc, Z.div_mul in Hrep. }
  rewrite (uint_ge_repr _ _ _ _ Hr Hd).
  destruct (Z.leb_spec (b * 2 ^ Z.of_nat n) r).
  - apply (IH _ _ _ (2 * m + 1)); [| |done|lia|done].
    + pose proof (or_at_repr (Nat.div n 32) (Z.shiftl 1 (Z.of_nat (Nat.modulo n 32))) _ _ Hq) as Hrep.
      rewrite Z.shiftl_shiftl in Hrep by lia.
      assert (Z.of_nat (n mod 32) + 32 * Z.of_nat (n / 32) = Z.of_nat n) as HE
        by (pose proof (Nat.div_mod_eq n 32); lia).
      rewrite HE, !Z.shiftl_1_l, Z.lor_comm in Hrep. rewrite Z.shiftl_1_l.
      replace (m * (2 * 2 ^ Z.of_nat n)) with (Z.shiftl m (Z.of_nat n + 1)) in Hrep
        by (rewrite Z.shiftl_mul_pow2, Z.pow_add_r by lia; lia).
      rewrite lor_low in Hrep by (rewrite ?Z.pow_add_r by lia; lia).
      replace ((2 * m + 1) * 2 ^ Z.of_nat n) with (2 ^ Z.of_nat n + 2 ^ (Z.of_nat n + 1) * m)
        by (rewrite Z.pow_add_r by lia; lia).
      apply Hrep.
      * pose proof (Nat.mod_upper_bound n 32 ltac:(lia)).
        split; [apply Z.pow_nonneg; lia|apply Z.pow_lt_mono_r; lia].
      * apply Nat.Div0.div_lt_upper_bound. unfold WIDTH. lia.
    + exists (r - b * 2 ^ Z.of_nat n). split; [|lia].
      pose proof (uint_sub_repr _ _ _ _ Hr Hd) as Hrep. rewrite Z.mod_small in Hrep by lia. exact Hrep.
  - apply (IH _ _ _ (2 * m)); [by replace (2 * m * 2 ^ Z.of_nat n) with (m * (2 * 2 ^ Z.of_nat n)) by lia| |done|lia|done].
    exists r. split; [done|lia].
Qed.

Lemma nbits_le_256 v : 0 <= v < 2 ^ 256 -> 0 <= nbits v <= 256.
Proof.
  intros Hv. unfold nbits. destruct (Z.eqb_spec v 0); [lia|].
  pose proof (Z.log2_nonneg v). pose proof (Z.log2_lt_pow2 v 256). lia.
Qed.

Lemma uint_div_repr a b v w : repr a v -> repr b w -> 0 < w ->
  exists q, uint_div a b = Ok q /\ repr q (v / w).
Proof.
  intros Ha Hb Hw. unfold uint_div. rewrite (uint_bits_repr _ _ Ha), (uint_bits_repr _ _ Hb).
  pose proof (repr_bounds _ _ Ha) as Hv. pose proof (repr_bounds _ _ Hb).
  destruct (nbits_spec w Hw) as (Hw0 & Hwl & Hwu). rewrite (proj2 (Z.eqb_neq _ 0)) by lia.
  destruct (Z.ltb_spec (nbits v) (nbits w)) as [Hlt|Hge].
  - eexists. split; [done|]. rewrite Z.div_small; [apply repr_zero|]. split; [lia|].
    destruct (decide (v = 0)) as [->|]; [lia|]. destruct (nbits_spec v ltac:(lia)) as (_ & _ & Hu).
    apply (Z.lt_le_trans _ _ _ Hu). apply (Z.le_trans _ (2 ^ (nbits w - 1))); [|done].
    apply Z.pow_le_mono_r; lia.
  - eexists. split; [done|]. destruct (nbits_le_256 v Hv).
    destruct (decide (v = 0)) as [->|]; [cbn in *; lia|].
    destruct (nbits_spec v ltac:(lia)) as (_ & Hvl & Hvu).
    set (s := nbits v - nbits w) in *.
    assert (2 ^ nbits v = 2 ^ nbits w * 2 ^ s) as HP
      by (rewrite <- Z.pow_add_r by lia; f_equal; lia).
    assert (2 ^ nbits w = 2 * 2 ^ (nbits w - 1)) as HQ
      by (rewrite <- Z.pow_succ_r by lia; f_equal; lia).
    assert (0 < 2 ^ s) by (apply Z.pow_pos_nonneg; lia).
    assert (2 ^ nbits v <= 2 ^ 256) by (apply Z.pow_le_mono_r; lia).
    apply (div_loop_spec _ _ _ _ _ _ 0); [apply repr_zero| | |lia|done].
    + exists v. split; [done|]. split; [lia|].
      rewrite Nat2Z.inj_succ, Z2Nat.id, Z.pow_succ_r by lia. nia.
    + intros _. pose proof (uint_shl_repr _ _ s Hb ltac:(lia)) as Hrep.
      rewrite Z.mod_small in Hrep by nia. rewrite Nat2Z.inj_succ, Z2Nat.id by lia.
      by replace (Z.succ s - 1) with s by lia.
Qed.

Lemma uint_div_zero a b : repr b 0 -> uint_div a b = Throw UintError.
Proof. intros Hb. unfold uint_div. by rewrite (uint_bits_repr _ _ Hb). Qed.

(** ** The compact format *)

(** The number that a compact value stands for, before it is cut to 256 bits. *)
Definition compact_value (c : Z) : Z :=
  let m := c mod 2 ^ 23 in
  let s := c / 2 ^ 24 in
  if s <=? 3 then m / 2 ^ (8 * (3 - s)) else m * 2 ^ (8 * (s - 3)).

(** The size and the mantissa of a number in the format: the size leaves room for
    the sign bit. *)
Definition csize (v : Z) : Z := if v =? 0 then 0 else nbits v / 8 + 1.

Definition cmant (v : Z) : Z :=
  if csize v <=? 3 then v * 2 ^ (8 * (3 - csize v)) else v / 2 ^ (8 * (csize v - 3)).

(** The unit in the last place of the mantissa. *)
Definition cunit (v : Z) : Z := 2 ^ (8 * Z.max 0 (csize v - 3)).

(** Rounding to the format. *)
Definition compact_round (v : Z) : Z := v / cunit v * cunit v.

Lemma land_mask n x k : k = 2 ^ n - 1 -> 0 <= n -> Z.land x k = x mod 2 ^ n.
Proof. intros -> Hn. rewrite <- Z.land_ones, Z.ones_equiv by done. f_equal. Qed.

Lemma land_bit n x : 0 <= n -> (Z.land x (2 ^ n) =? 0) = negb (Z.testbit x n).
Proof.
  intros Hn. destruct (Z.testbit x n) eqn:Hb; cbn [negb].
  - apply Z.eqb_neq. intros E. apply (f_equal (fun z => Z.testbit z n)) in E.
    by rewrite Z.land_spec, Hb, Z.pow2_bits_true, Z.bits_0 in E by done.
  - apply Z.eqb_eq, Z.bits_inj'. intros i Hi. rewrite Z.land_spec, Z.bits_0, Z.pow2_bits_eqb by done.
    destruct (Z.eqb_spec n i) as [<-|]; [by rewrite Hb|apply andb_false_r].
Qed.

Lemma SetCompact_spec c : 0 <= c < 2 ^ 32 ->
  exists n, SetCompact c = (n, negb (compact_value c =? 0) && Z.testbit c 23,
                            2 ^ 256 <=? compact_value c) /\
    repr n (compact_value c mod 2 ^ 256).
Proof.
  intros Hc. unfold SetCompact, compact_value.
  rewrite (land_mask 23 c 0x007fffff), Z.shiftr_div_pow2 by (done || lia).
  change 0x00800000 with (2 ^ 23). rewrite land_bit, negb_involutive by lia.
  assert (0 <= c mod 2 ^ 23 < 2 ^ 23) as Hm by (apply Z.mod_pos_bound; lia).
  assert (0 <= c / 2 ^ 24 < 256) as Hs
    by (split; [apply Z.div_pos; lia|apply Z.div_lt_upper_bound; lia]).
  set (m := c mod 2 ^ 23) in *. set (s := c / 2 ^ 24) in *.
  destruct (Z.leb_spec s 3) as [Hle|Hgt]; 
    (eexists; split; [apply f_equal2; [apply f_equal2; [reflexivity|]|]|]).
  - by rewrite Z.shiftr_div_pow2 by lia.
  - rewrite !Z.shiftr_div_pow2 by lia.
    assert (0 < 2 ^ (8 * (3 - s))) by (apply Z.pow_pos_nonneg; lia).
    assert (m / 2 ^ (8 * (3 - s)) < 2 ^ 256) by (apply Z.div_lt_upper_bound; nia).
    rewrite (proj2 (Z.leb_gt (2 ^ 256) _)) by done.
    rewrite !(proj2 (Z.ltb_ge _ s)) by lia. rewrite !andb_false_r. done.
  - rewrite Z.shiftr_div_pow2 by lia.
    assert (0 < 2 ^ (8 * (3 - s))) by (apply Z.pow_pos_nonneg; lia).
    assert (0 <= m / 2 ^ (8 * (3 - s)) <= m) as Hq.
    { split; [apply Z.div_pos; lia|]. apply Z.div_le_upper_bound; nia. }
    rewrite Z.mod_small by lia. apply uint_of_repr. lia.
  - assert (0 < 2 ^ (8 * (s - 3))) by (apply Z.pow_pos_nonneg; lia).
    f_equal. destruct (Z.eqb_spec m 0), (Z.eqb_spec (m * 2 ^ (8 * (s - 3))) 0); try done; nia.
  - destruct (Z.eqb_spec m 0) as [->|Hz]; [done|]. cbn [negb andb].
    destruct (decide (34 < s)) as [H34|H34].
    { rewrite (proj2 (Z.ltb_lt 34 s)) by done. cbn [orb]. symmetry. apply Z.leb_le.
      assert (2 ^ 256 <= 2 ^ (8 * (s - 3))) by (apply Z.pow_le_mono_r; lia). nia. }
    destruct (decide (s <= 32)) as [H32|H32].
    { rewrite !(proj2 (Z.ltb_ge _ s)) by lia. rewrite !andb_false_r. cbn [orb]. symmetry.
      apply Z.leb_gt. assert (2 ^ (8 * (s - 3)) <= 2 ^ 232) by (apply Z.pow_le_mono_r; lia). nia. }
    assert (s = 33 \/ s = 34) as [->| ->] by lia; cbn [Z.ltb Z.compare Pos.compare Pos.compare_cont];
      rewrite ?andb_false_r, ?andb_true_r, ?orb_false_r; cbn [orb].
    + change (2 ^ (8 * (33 - 3))) with (2 ^ 240).
      destruct (Z.ltb_spec 0xffff m), (Z.leb_spec (2 ^ 256) (m * 2 ^ 240)); try done; lia.
    + change (2 ^ (8 * (34 - 3))) with (2 ^ 248).
      destruct (Z.ltb_spec 0xffff m), (Z.ltb_spec 0xff m), (Z.leb_spec (2 ^ 256) (m * 2 ^ 248));
        cbn [orb]; try done; lia.
  - apply uint_shl_repr; [apply uint_of_repr; lia|lia].
Qed.

Lemma GetLow64_repr a v : repr a v -> GetLow64 a = v mod 2 ^ 64.
Proof.
  intros [[L W] <-]. unfold GetLow64.
  destruct a as [|x0 [|x1 a]]; [discriminate L..|]. unfold words in W. rewrite !Forall_cons in W.
  destruct W as (H0 & H1 & W). cbn [limb nth eval].
  rewrite lor_low by lia.
  replace (x0 + 2 ^ 32 * (x1 + 2 ^ 32 * eval a)) with (x0 + 2 ^ 32 * x1 + eval a * 2 ^ 64) by lia.
  rewrite Z.mod_add, Z.mod_small by lia. done.
Qed.

Lemma nbits_mul v k : 0 < v -> 0 <= k -> nbits (v * 2 ^ k) = nbits v + k.
Proof.
  intros Hv Hk. replace (v * 2 ^ k) with (0 + v * 2 ^ k) by lia.
  rewrite nbits_shift; lia.
Qed.

Lemma nbits_div v k : 0 < v -> 0 <= k < nbits v -> nbits (v / 2 ^ k) = nbits v - k.
Proof.
  intros Hv Hk. destruct (nbits_spec v Hv) as (_ & Hl & _).
  assert (0 < 2 ^ k) by (apply Z.pow_pos_nonneg; lia).
  assert (2 ^ k <= v) as Hle.
  { apply (Z.le_trans _ (2 ^ (nbits v - 1))); [|done]. apply Z.pow_le_mono_r; lia. }
  rewrite (Z.div_mod v (2 ^ k)) at 2 by lia.
  rewrite (Z.add_comm (2 ^ k * _)), (Z.mul_comm (2 ^ k)), nbits_shift; [lia| |lia|].
  - apply Z.div_str_pos. lia.
  - by apply Z.mod_pos_bound.
Qed.

Lemma nbits_le_iff v n : 0 <= v -> 0 <= n -> nbits v <= n <-> v < 2 ^ n.
Proof.
  intros Hv Hn. destruct (decide (v = 0)) as [->|].
  { cbn. split; [intros _; apply Z.pow_pos_nonneg; lia|lia]. }
  destruct (nbits_spec v ltac:(lia)) as (H0 & Hl & Hu). split; intros H.
  - apply (Z.lt_le_trans _ _ _ Hu). apply Z.pow_le_mono_r; lia.
  - destruct (decide (nbits v <= n)); [done|]. exfalso.
    assert (2 ^ n <= 2 ^ (nbits v - 1)) by (apply Z.pow_le_mono_r; lia). lia.
Qed.

Lemma top_bit m n : 0 <= n -> 0 <= m < 2 ^ (n + 1) -> Z.testbit m n = (2 ^ n <=? m).
Proof.
  intros Hn Hm. destruct (Z.leb_spec (2 ^ n) m); [|by apply (bit_above n); lia].
  apply Z.testbit_true; [done|]. replace (m / 2 ^ n) with 1; [done|].
  rewrite Z.pow_add_r in Hm by lia. apply Z.div_unique with (m - 2 ^ n); [left|]; lia.
Qed.

(** The bytes of a positive number. *)
Lemma CeilDiv_8 x : 0 < x -> x <= 8 * CeilDiv x 8 < x + 8.
Proof.
  intros Hx. unfold CeilDiv. pose proof (Z.div_mod x 8 ltac:(lia)).
  pose proof (Z.mod_pos_bound x 8 ltac:(lia)). destruct (Z.eqb_spec (x mod 8) 0); lia.
Qed.

(** The first mantissa that [GetCompact] takes: the three most significant bytes. *)
Definition top_bytes (v n : Z) : Z :=
  if n <=? 3 then v * 2 ^ (8 * (3 - n)) else v / 2 ^ (8 * (n - 3)).

Lemma top_bytes_nbits v n : 0 < v -> 8 * n - 24 < nbits v <= 8 * n ->
  nbits (top_bytes v n) = nbits v - 8 * n + 24 /\ 0 < top_bytes v n < 2 ^ 24.
Proof.
  intros Hv Hn. assert (nbits (top_bytes v n) = nbits v - 8 * n + 24 /\ 0 <= top_bytes v n) as [E Hp].
  { unfold top_bytes. destruct (Z.leb_spec n 3).
    - rewrite nbits_mul by lia. split; [lia|]. apply Z.mul_nonneg_nonneg; [lia|]. apply Z.pow_nonneg. lia.
    - rewrite nbits_div by lia. split; [lia|]. apply Z.div_pos; [lia|apply Z.pow_pos_nonneg; lia]. }
  split; [done|]. split.
  - destruct (decide (top_bytes v n = 0)) as [Hz|]; [rewrite Hz in E; cbn in E; lia|lia].
  - apply nbits_le_iff; lia.
Qed.

(** The mantissa and the size after the sign bit has been made free. *)
Lemma top_bytes_carry v n : 0 < v -> 8 * n - 8 < nbits v <= 8 * n ->
  (2 ^ 23 <= top_bytes v n -> cmant v = top_bytes v n / 2 ^ 8 /\ csize v = n + 1) /\
  (top_bytes v n < 2 ^ 23 -> cmant v = top_bytes v n /\ csize v = n).
Proof.
  intros Hv Hn. destruct (top_bytes_nbits v n Hv ltac:(lia)) as [E Hb].
  pose proof (nbits_le_iff (top_bytes v n) 23 ltac:(lia) ltac:(lia)) as Hi.
  assert (csize v = nbits v / 8 + 1) as Hc by (unfold csize; rewrite (proj2 (Z.eqb_neq v 0)); lia).
  split; intros Ht.
  - assert (nbits v = 8 * n) as En by lia.
    assert (csize v = n + 1) as Hc' by (rewrite Hc, En, (Z.mul_comm 8), Z.div_mul; lia).
    split; [|done]. unfold cmant, top_bytes. rewrite Hc'.
    destruct (Z.leb_spec n 3), (Z.leb_spec (n + 1) 3); try lia.
    + replace (8 * (3 - n)) with (8 * (3 - (n + 1)) + 8) by lia.
      rewrite Z.pow_add_r, Z.mul_assoc, Z.div_mul by lia. done.
    + assert (n = 3) as -> by lia. change (2 ^ (8 * (3 - 3))) with 1.
      change (8 * (3 + 1 - 3)) with 8. by rewrite Z.mul_1_r.
    + rewrite Z.div_div by (try apply Z.pow_nonzero; lia).
      rewrite <- Z.pow_add_r by lia. do 2 f_equal. lia.
  - assert (csize v = n) as Hc'.
    { rewrite Hc. replace (nbits v / 8) with (n - 1); [lia|].
      apply Z.div_unique with (nbits v - 8 * (n - 1)); [left|]; lia. }
    split; [|done]. unfold cmant, top_bytes. by rewrite Hc'.
Qed.

Lemma csize_bounds v : 0 <= v < 2 ^ 256 -> 0 <= csize v <= 33.
Proof.
  intros Hv. unfold csize. destruct (Z.eqb_spec v 0); [lia|]. destruct (nbits_le_256 v Hv).
  split; [assert (0 <= nbits v / 8) by (apply Z.div_pos; lia); lia|].
  assert (nbits v / 8 <= 256 / 8) by (apply Z.div_le_mono; lia). change (256 / 8) with 32 in *. lia.
Qed.

Lemma GetCompact_repr a v : repr a v ->
  GetCompact false a = Ok (cmant v + 2 ^ 24 * csize v) /\ 0 <= cmant v < 2 ^ 23.
Proof.
  intros Ha. pose proof (repr_bounds _ _ Ha) as Hv. pose proof (csize_bounds v Hv) as Hs.
  unfold GetCompact. rewrite (uint_bits_repr _ _ Ha). destruct (decide (v = 0)) as [->|Hz].
  { rewrite (GetLow64_repr _ _ Ha). split; [done|]. cbn. lia. }
  destruct (nbits_spec v ltac:(lia)) as (Hn0 & Hnl & Hnu).
  pose proof (CeilDiv_8 (nbits v) ltac:(lia)) as Hn.
  destruct (nbits_le_256 v Hv) as [_ Hn256]. set (n := CeilDiv (nbits v) 8) in *.
  destruct (top_bytes_nbits v n ltac:(lia) ltac:(lia)) as [Et Hb].
  replace (if n <=? 3 then _ else _) with (top_bytes v n).
  2:{ unfold top_bytes. destruct (Z.leb_spec n 3).
      - rewrite (GetLow64_repr _ _ Ha), Z.shiftl_mul_pow2 by lia.
        assert (v < 2 ^ 24) by (apply nbits_le_iff; lia).
        rewrite Z.mod_small by lia. unfold top_bytes in Hb. rewrite (proj2 (Z.leb_le n 3)) in Hb by lia.
        rewrite u64_small, u32_small by lia. done.
      - rewrite (GetLow64_repr _ _ (uint_shr_repr _ _ (8 * (n - 3)) Ha ltac:(lia))).
        unfold top_bytes in Hb. rewrite (proj2 (Z.leb_gt n 3)) in Hb by lia.
        rewrite (Z.mod_small _ (2 ^ 64)), u32_small by lia. done. }
  change 0x00800000 with (2 ^ 23). rewrite land_bit, top_bit by lia.
  destruct (top_bytes_carry v n ltac:(lia) ltac:(lia)) as [Hc1 Hc2].
  assert (exists m, (if negb (2 ^ 23 <=? top_bytes v n) then (top_bytes v n, n)
                     else (Z.shiftr (top_bytes v n) 8, n + 1)) = (m, csize v) /\
                    m = cmant v /\ 0 <= m < 2 ^ 23) as (m & -> & <- & Hm).
  { destruct (Z.leb_spec (2 ^ 23) (top_bytes v n)) as [Ht|Ht]; cbn [negb].
    - destruct (Hc1 Ht) as [-> ->]. rewrite Z.shiftr_div_pow2 by lia. eexists. split; [done|].
      split; [done|]. split; [apply Z.div_pos; lia|apply Z.div_lt_upper_bound; lia].
    - destruct (Hc2 Ht) as [-> ->]. eexists. split; [done|]. lia. }
  split; [|done]. change (u32 (Z.lnot 0x007fffff)) with (Z.shiftl 511 23).
  rewrite land_low by (done || lia). cbn [negb Z.eqb].
  rewrite (proj2 (Z.ltb_lt _ 256)) by lia. cbn [negb andb]. rewrite Z.lor_0_r, lor_low by lia. done.
Qed.

(** The mantissa has at least 16 significant bits. *)
Lemma cmant_lower v : 0 < v -> 2 ^ 15 <= cmant v /\ csize v = nbits v / 8 + 1.
Proof.
  intros Hv. assert (csize v = nbits v / 8 + 1) as Hc by (unfold csize; rewrite (proj2 (Z.eqb_neq v 0)); lia).
  split; [|done]. pose proof (Z.div_mod (nbits v) 8 ltac:(lia)).
  pose proof (Z.mod_pos_bound (nbits v) 8 ltac:(lia)). destruct (nbits_spec v Hv) as (Hn & _).
  change (cmant v) with (top_bytes v (csize v)).
  destruct (top_bytes_nbits v (csize v) Hv) as [E Hp]; [lia|].
  pose proof (nbits_le_iff (top_bytes v (csize v)) 15 ltac:(lia) ltac:(lia)). lia.
Qed.

Lemma cunit_pos v : 0 < cunit v.
Proof. unfold cunit. apply Z.pow_pos_nonneg; lia. Qed.

Lemma compact_round_le v : compact_round v <= v < compact_round v + cunit v.
Proof.
  unfold compact_round. pose proof (cunit_pos v). pose proof (Z.div_mod v (cunit v) ltac:(lia)).
  pose proof (Z.mod_pos_bound v (cunit v) ltac:(lia)). lia.
Qed.

Lemma compact_value_encode v : 0 <= v < 2 ^ 256 -> 0 <= cmant v < 2 ^ 23 ->
  compact_value (cmant v + 2 ^ 24 * csize v) = compact_round v.
Proof.
  intros Hv Hm. pose proof (csize_bounds v Hv) as Hs. unfold compact_value, compact_round, cunit.
  assert ((cmant v + 2 ^ 24 * csize v) mod 2 ^ 23 = cmant v) as ->.
  { replace (2 ^ 24 * csize v) with (2 * csize v * 2 ^ 23) by lia.
    by rewrite Z.mod_add, Z.mod_small by lia. }
  rewrite (Z.mul_comm (2 ^ 24)), Z.div_add, (Z.div_small (cmant v)), Z.add_0_l by lia.
  unfold cmant. destruct (Z.leb_spec (csize v) 3).
  - rewrite Z.div_mul by (apply Z.pow_nonzero; lia). rewrite Z.max_l by lia.
    change (2 ^ (8 * 0)) with 1. by rewrite Z.div_1_r, Z.mul_1_r.
  - by rewrite Z.max_r by lia.
Qed.

(** What [GetCompact] writes, [SetCompact] reads, without a flag. *)
Lemma compact_decode v : 0 <= v < 2 ^ 256 -> 0 <= cmant v < 2 ^ 23 ->
  exists n, SetCompact (cmant v + 2 ^ 24 * csize v) = (n, false, false) /\ repr n (compact_round v).
Proof.
  intros Hv Hm. pose proof (csize_bounds v Hv) as Hs.
  destruct (SetCompact_spec (cmant v + 2 ^ 24 * csize v)) as (n & E & Hn); [lia|].
  rewrite compact_value_encode in E, Hn by done. pose proof (compact_round_le v).
  assert (0 <= compact_round v).
  { unfold compact_round. pose proof (cunit_pos v). pose proof (Z.div_pos v (cunit v)). nia. }
  rewrite (proj2 (Z.leb_gt (2 ^ 256) _)) in E by lia. rewrite Z.mod_small in Hn by lia.
  exists n. split; [|done]. rewrite E. do 2 f_equal. apply andb_false_iff. right.
  rewrite Z.testbit_false by lia. replace (cmant v + 2 ^ 24 * csize v) with (cmant v + (2 * csize v) * 2 ^ 23) by lia.
  rewrite Z.div_add, Z.div_small, Z.add_0_l, Z.mul_comm, Z.mod_mul by lia. done.
Qed.

(** The size of the rounding error. *)
Lemma compact_round_error v : 0 <= v < 2 ^ 256 -> 2 ^ 15 * (v - compact_round v) <= v.
Proof.
  intros Hv. pose proof (compact_round_le v) as Hr. destruct (decide (v = 0)) as [->|Hz].
  { unfold compact_round. rewrite Z.div_0_l; [lia|]. pose proof (cunit_pos 0). lia. }
  destruct (cmant_lower v ltac:(lia)) as [Hm _]. unfold cmant in Hm. revert Hr.
  unfold compact_round, cunit. destruct (Z.leb_spec (csize v) 3).
  - rewrite Z.max_l by lia. change (2 ^ (8 * 0)) with 1. rewrite Z.div_1_r. lia.
  - rewrite Z.max_r by lia. set (u := 2 ^ (8 * (csize v - 3))) in *. intros Hr.
    assert (0 < u) by (apply Z.pow_pos_nonneg; lia). nia.
Qed.

Lemma nbits_mono v w : 0 <= v <= w -> nbits v <= nbits w.
Proof.
  intros Hv. unfold nbits. destruct (Z.eqb_spec v 0), (Z.eqb_spec w 0); try lia.
  - pose proof (Z.log2_nonneg w). lia.
  - pose proof (Z.log2_le_mono v w). lia.
Qed.

Lemma csize_mono v w : 0 <= v <= w -> csize v <= csize w.
Proof.
  intros Hv. pose proof (nbits_mono v w Hv) as Hn. unfold csize.
  destruct (Z.eqb_spec v 0), (Z.eqb_spec w 0); try lia.
  - destruct (nbits_spec w ltac:(lia)) as (H & _). pose proof (Z.div_pos (nbits w) 8). lia.
  - pose proof (Z.div_le_mono (nbits v) (nbits w) 8). lia.
Qed.

(** Rounding keeps the order of numbers. *)
Lemma compact_round_mono v w : 0 <= v <= w -> compact_round v <= compact_round w.
Proof.
  intros Hv. destruct (decide (csize v = csize w)) as [E|Hne].
  { unfold compact_round, cunit. rewrite E. apply Z.mul_le_mono_nonneg_r; [apply Z.pow_nonneg; lia|].
    apply Z.div_le_mono; [apply Z.pow_pos_nonneg|]; lia. }
  pose proof (csize_mono v w Hv). pose proof (compact_round_le v) as [Hr _].
  apply (Z.le_trans _ v); [done|]. destruct (decide (w = 0)) as [->|]; [by replace v with 0 in Hne by lia|].
  destruct (cmant_lower w ltac:(lia)) as [Hm Hcw].
  destruct (decide (v = 0)) as [->|].
  { unfold compact_round. pose proof (cunit_pos w). pose proof (Z.div_pos w (cunit w)). nia. }
  destruct (cmant_lower v ltac:(lia)) as [_ Hcv]. destruct (nbits_spec v ltac:(lia)) as (Hv0 & _ & Hvu).
  unfold compact_round, cunit. unfold cmant in Hm. destruct (Z.leb_spec (csize w) 3).
  { rewrite Z.max_l by lia. change (2 ^ (8 * 0)) with 1. rewrite Z.div_1_r. lia. }
  rewrite Z.max_r by lia. set (u := 2 ^ (8 * (csize w - 3))) in *.
  assert (0 < u) by (apply Z.pow_pos_nonneg; lia).
  assert (2 ^ nbits v <= 2 ^ 15 * u); [|nia].
  unfold u. rewrite <- Z.pow_add_r by lia. apply Z.pow_le_mono_r; [lia|].
  pose proof (Z.div_mod (nbits v) 8 ltac:(lia)). pose proof (Z.mod_pos_bound (nbits v) 8 ltac:(lia)).
  lia.
Qed.

(** ** Compact values in normal form *)

Definition canonical_compact (c : Z) : bool :=
  let m := c mod 2 ^ 24 in
  let s := c / 2 ^ 24 in
  (c =? 0) ||
  ((2 ^ 15 <=? m) && (m <? 2 ^ 23) && (0 <? s) &&
   (m mod 2 ^ (8 * Z.max 0 (3 - s)) =? 0) && (compact_value c <? 2 ^ 256)).

Lemma canonical_compact_fields c : 0 <= c -> canonical_compact c = true -> c <> 0 ->
  csize (compact_value c) = c / 2 ^ 24 /\ cmant (compact_value c) = c mod 2 ^ 24 /\
  0 < compact_value c < 2 ^ 256 /\ Z.testbit c 23 = false.
Proof.
  intros Hc0 Hc Hz. unfold canonical_compact in Hc. rewrite (proj2 (Z.eqb_neq c 0) Hz) in Hc.
  cbn [orb] in Hc. zbool. set (m := c mod 2 ^ 24) in *. set (s := c / 2 ^ 24) in *.
  assert (c mod 2 ^ 23 = m) as Em.
  { replace c with (m + s * 2 * 2 ^ 23) by (pose proof (Z.div_mod c (2 ^ 24)); lia).
    rewrite Z.mod_add, Z.mod_small by lia. done. }
  assert (Z.testbit c 23 = false) as Hb.
  { rewrite Z.testbit_false by lia. replace c with (m + s * 2 * 2 ^ 23) by (pose proof (Z.div_mod c (2 ^ 24)); lia).
    rewrite Z.div_add, Z.div_small, Z.add_0_l, Z.mod_mul by lia. done. }
  pose proof (nbits_le_iff m 23 ltac:(lia) ltac:(lia)) as H23.
  pose proof (nbits_le_iff m 15 ltac:(lia) ltac:(lia)) as H15.
  assert (compact_value c = if s <=? 3 then m / 2 ^ (8 * (3 - s)) else m * 2 ^ (8 * (s - 3))) as Ev
    by (unfold compact_value; fold s; by rewrite Em).
  set (v := compact_value c) in *.
  assert (nbits v = nbits m + 8 * (s - 3) /\ 0 < v /\ top_bytes v s = m) as (En & Hv & Ht).
  { rewrite Ev. unfold top_bytes. destruct (Z.leb_spec s 3).
    - match goal with H : m mod _ = 0 |- _ => rewrite Z.max_r in H by lia; rename H into Hd end.
      assert (0 < 2 ^ (8 * (3 - s))) by (apply Z.pow_pos_nonneg; lia).
      apply Z.div_exact in Hd; [|lia].
      assert (8 * (3 - s) < nbits m) as Hlt.
      { destruct (decide (nbits m <= 8 * (3 - s))) as [Hle|]; [|lia].
        apply nbits_le_iff in Hle; [|lia..]. rewrite Z.div_small in Hd by lia. lia. }
      rewrite nbits_div by lia. split; [lia|]. split; [nia|lia].
    - rewrite nbits_mul by lia. assert (0 < 2 ^ (8 * (s - 3))) by (apply Z.pow_pos_nonneg; lia).
      split; [lia|]. split; [nia|]. by rewrite Z.div_mul by lia. }
  assert (csize v = s) as Es.
  { destruct (cmant_lower v Hv) as [_ ->]. rewrite En.
    replace (nbits m + 8 * (s - 3)) with (nbits m - 16 + (s - 1) * 8) by lia.
    rewrite Z.div_add, Z.div_small by lia. lia. }
  split; [done|]. split; [|done]. change (cmant v) with (top_bytes v (csize v)). by rewrite Es.
Qed.

(** The values that [GetCompact] returns are in normal form. *)
Lemma encode_canonical v : 0 <= v < 2 ^ 256 -> 0 <= cmant v < 2 ^ 23 ->
  canonical_compact (cmant v + 2 ^ 24 * csize v) = true.
Proof.
  intros Hv Hm. destruct (decide (v = 0)) as [->|Hz]; [done|].
  destruct (cmant_lower v ltac:(lia)) as [Hl _]. pose proof (csize_bounds v Hv) as Hs.
  assert (0 < csize v).
  { unfold csize. rewrite (proj2 (Z.eqb_neq v 0) Hz). destruct (nbits_spec v ltac:(lia)) as (H & _).
    pose proof (Z.div_pos (nbits v) 8). lia. }
  unfold canonical_compact. rewrite compact_value_encode by done.
  pose proof (compact_round_le v).
  rewrite (Z.mul_comm (2 ^ 24)), Z.mod_add, Z.div_add by lia.
  rewrite (Z.mod_small (cmant v) (2 ^ 24)), (Z.div_small (cmant v)), Z.add_0_l by lia.
  apply orb_true_intro. right. rewrite !andb_true_iff, Z.leb_le, !Z.ltb_lt, Z.eqb_eq.
  repeat split; try lia. unfold cmant. destruct (Z.leb_spec (csize v) 3).
  - rewrite Z.max_r by lia. apply Z.mod_mul, Z.pow_nonzero; lia.
  - rewrite Z.max_l by lia. apply Z.mod_1_r.
Qed.

Lemma decode_canonical c : 0 <= c < 2 ^ 32 -> canonical_compact c = true ->
  exists n, SetCompact c = (n, false, false) /\ repr n (compact_value c) /\ GetCompact false n = Ok c.
Proof.
  intros Hc Hcan. destruct (decide (c = 0)) as [->|Hz].
  { exists (uint_of 0). split; [done|]. split; [by apply uint_of_repr|done]. }
  destruct (canonical_compact_fields c ltac:(lia) Hcan Hz) as (Es & Em & Hv & Hb).
  destruct (SetCompact_spec c Hc) as (n & E & Hn).
  rewrite (proj2 (Z.leb_gt (2 ^ 256) _)), Hb, andb_false_r in E by lia.
  rewrite Z.mod_small in Hn by lia. exists n. split; [done|]. split; [done|].
  destruct (GetCompact_repr _ _ Hn) as [-> _]. rewrite Es, Em. f_equal.
  pose proof (Z.div_mod c (2 ^ 24)). lia.
Qed.

Lemma GetCompact_range a v : repr a v ->
  exists c, GetCompact false a = Ok c /\ 0 <= c < 2 ^ 32 /\ canonical_compact c = true /\
    compact_value c = compact_round v.
Proof.
  intros Ha. pose proof (repr_bounds _ _ Ha) as Hv. destruct (GetCompact_repr _ _ Ha) as [E Hm].
  pose proof (csize_bounds v Hv). eexists. split; [exact E|]. split; [lia|].
  split; [by apply encode_canonical|by apply compact_value_encode].
Qed.

(** ** Blobs *)

Lemma le_combine_cons4 b0 b1 b2 b3 (l : bytes) :
  le_combine (b0 :: b1 :: b2 :: b3 :: l) = le_combine [b0; b1; b2; b3] + 2 ^ 32 * le_combine l.
Proof.
  change (b0 :: b1 :: b2 :: b3 :: l) with ([b0; b1; b2; b3] ++ l). rewrite le_combine_app.
  apply lor_low; [lia|]. apply (le_combine_bound [b0; b1; b2; b3]).
Qed.

Lemma blob_digits n (l : bytes) : length l = (n * 4)%nat ->
  eval (map (fun x => le_combine (take 4 (drop (x * 4) l))) (seq 0 n)) = le_combine l /\
  words (map (fun x => le_combine (take 4 (drop (x * 4) l))) (seq 0 n)).
Proof.
  revert l. induction n as [|n IH]; intros l Hl.
  { destruct l; [|discriminate]. split; [done|constructor]. }
  destruct l as [|b0 [|b1 [|b2 [|b3 l]]]]; try (cbn in Hl; lia).
  destruct (IH l) as [E W]; [cbn in Hl; lia|].
  rewrite <- cons_seq. cbn [map]. rewrite <- seq_shift, map_map.
  change (take 4 (drop (0 * 4) (b0 :: b1 :: b2 :: b3 :: l))) with [b0; b1; b2; b3].
  rewrite (map_ext _ (fun x => le_combine (take 4 (drop (x * 4) l)))) by done.
  cbn [eval]. rewrite E. split; [symmetry; apply le_combine_cons4|].
  constructor; [apply (le_combine_bound [b0; b1; b2; b3])|done].
Qed.

Lemma UintToArith256_repr (h : bytes) : length h = 32%nat -> repr (UintToArith256 h) (le_combine h).
Proof.
  intros Hl. destruct (blob_digits WIDTH h Hl) as [E W]. split; [split; [done|exact W]|exact E].
Qed.

Lemma ArithToUint256_combine a : words a -> le_combine (ArithToUint256 a) = eval a.
Proof.
  unfold ArithToUint256. induction 1 as [|x a Hx _ IH]; [done|]. cbn [map concat eval].
  rewrite le_combine_app, le_combine_split, IH, length_le_split.
  change (8 * Z.of_nat 4) with 32. rewrite Z.mod_small, lor_low by lia. done.
Qed.

(** ** Properties *)

(** C9: the loops over the digits compute addition, subtraction, multiplication and
    left shifts modulo [2^256], right shifts, quotients, the order and the
    number of significant bits, for all 256-bit numbers; the division by zero,
    and nothing else, throws. *)
Theorem uint256_arithmetic (a b : base_uint) (v w : Z) : repr a v -> repr b w ->
  repr (uint_add a b) ((v + w) mod 2 ^ 256) /\
  repr (uint_sub a b) ((v - w) mod 2 ^ 256) /\
  repr (uint_mul a b) ((v * w) mod 2 ^ 256) /\
  (forall x, 0 <= x < 2 ^ 32 -> repr (uint_mul32 a x) ((v * x) mod 2 ^ 256)) /\
  (forall s, 0 <= s -> repr (uint_shl a s) ((v * 2 ^ s) mod 2 ^ 256) /\ repr (uint_shr a s) (v / 2 ^ s)) /\
  (if w =? 0 then uint_div a b = Throw UintError else exists q, uint_div a b = Ok q /\ repr q (v / w)) /\
  CompareTo a b = Z.sgn (v - w) /\ uint_bits a = nbits v /\
  UintToArith256 (ArithToUint256 a) = a.
Proof.
  intros Ha Hb. split; [by apply uint_add_repr|]. split; [by apply uint_sub_repr|].
  split; [by apply uint_mul_repr|]. split; [intros; by apply uint_mul32_repr|].
  split; [intros; split; [by apply uint_shl_repr|by apply uint_shr_repr]|].
  split; [|split; [by apply CompareTo_repr|split; [by apply uint_bits_repr|]]].
  - pose proof (repr_bounds _ _ Hb). destruct (Z.eqb_spec w 0) as [->|]; [by apply uint_div_zero|].
    apply uint_div_repr; [done..|lia].
  - apply (repr_inj _ _ v); [|done]. destruct Ha as [[L W] <-]. rewrite <- (ArithToUint256_combine a W).
    apply UintToArith256_repr. unfold ArithToUint256.
    clear W Hb. destruct a as [|? [|? [|? [|? [|? [|? [|? [|? [|? ?]]]]]]]]]; try discriminate L. reflexivity.
Qed.

(** C22: a number that is written in the compact format and read back is rounded
    down, by less than one part in [2^15], without a flag and without a failing
    assertion, and is written the same way again; a compact value in normal form
    is read and written back unchanged. *)
Theorem compact_roundtrip (a : base_uint) (v c : Z) : repr a v -> 0 <= c < 2 ^ 32 ->
  (exists d n r, GetCompact false a = Ok d /\ SetCompact d = (n, false, false) /\ repr n r /\
     r <= v /\ 2 ^ 15 * (v - r) <= v /\ GetCompact false n = Ok d) /\
  (canonical_compact c = true ->
     exists n, SetCompact c = (n, false, false) /\ repr n (compact_value c) /\ GetCompact false n = Ok c).
Proof.
  intros Ha Hc. split; [|by apply decode_canonical]. pose proof (repr_bounds _ _ Ha) as Hv.
  destruct (GetCompact_range a v Ha) as (d & E & Hd & Hcan & Ev).
  destruct (decode_canonical d Hd Hcan) as (n & Es & Hn & Eg). rewrite Ev in Hn.
  exists d, n, (compact_round v). do 3 (split; [done|]). split; [apply compact_round_le|].
  split; [by apply compact_round_error|done].
Qed.

Lemma uint256_arithmetic_witness :
  repr (uint_mul (uint_of 0xffffffffffffffff) (uint_of 10)) ((0xffffffffffffffff * 10) mod 2 ^ 256).
Proof.
  exact (proj1 (proj2 (proj2 (uint256_arithmetic _ _ 0xffffffffffffffff 10
    (uint_of_repr 0xffffffffffffffff ltac:(lia)) (uint_of_repr 10 ltac:(lia)))))).
Defined.

Lemma compact_roundtrip_witness :
  exists d n r, GetCompact false (uint_of 0x123456789) = Ok d /\ SetCompact d = (n, false, false) /\ repr n r /\
    r <= 0x123456789 /\ 2 ^ 15 * (0x123456789 - r) <= 0x123456789 /\ GetCompact false n = Ok d.
Proof.
  exact (proj1 (compact_roundtrip _ 0x123456789 0x1f7fffff (uint_of_repr 0x123456789 ltac:(lia)) ltac:(lia))).
Defined.
