(* ===== verification/Chain.v ===== *)
(** * The block index of the node

    Headers (src/src/primitives/block.h), the entries of the block index and
    their skip list (src/src/chain.h, src/src/chain.cpp), and
    [BlockManager::AddToBlockIndex] (src/src/node/blockstorage.cpp).

    [m_block_index] maps the hash of a header to its entry; a pointer to an
    entry is its key.  Following the skip list is compared with following
    [pprev] step by step ([up]); the work of a target and the median of the
    last eleven timestamps are computed as the code does. *)

From stdpp Require Import gmap sorting.
From S2P Require Import Prelude Uint256 Framing.

(** ** Headers *)

Abbreviation uint256 := bytes.

Record CBlockHeader := Header {
  nVersion : Z;
  hashPrevBlock : uint256;
  hashMerkleRoot : uint256;
  nTime : Z;
  nBits : Z;
  nNonce : Z
}.

(** [SERIALIZE_METHODS(CBlockHeader, obj)]. *)
Definition serialize_header (h : CBlockHeader) : bytes :=
  le_split 4 (nVersion h) ++ hashPrevBlock h ++ hashMerkleRoot h ++
  le_split 4 (nTime h) ++ le_split 4 (nBits h) ++ le_split 4 (nNonce h).

(** [CBlockHeader::GetHash]: SHA-256 twice. *)
Definition GetHash {SHA : Sha256} (h : CBlockHeader) : uint256 :=
  sha256 (sha256 (serialize_header h)).

(** The fields are within their types. *)
Definition header_ok (h : CBlockHeader) : Prop :=
  0 <= nTime h < 2 ^ 32 /\ 0 <= nBits h < 2 ^ 32.

(** ** The block index *)

Record CBlockIndex := BlockIndex {
  pprev : option uint256;
  pskip : option uint256;
  nHeight : Z;
  nChainWork : base_uint;
  nTimeMax : Z;
  bVersion : Z;
  bMerkleRoot : uint256;
  bTime : Z;
  bBits : Z;
  bNonce : Z
}.

Global Instance byte_countable : Countable Init.Byte.byte.
Proof.
  refine (inj_countable Byte.to_N (fun n => Byte.of_N n) _). intros b. apply Byte.of_to_N.
Defined.

(** [BlockMap]. *)
Abbreviation BlockMap := (gmap uint256 CBlockIndex).

(** The entry a pointer refers to. *)
Definition deref (m : BlockMap) (p : uint256) : res CBlockIndex :=
  match m !! p with Some b => Ok b | None => Throw NullPointer end.

(** [CBlockIndex::GetBlockHeader]. *)
Definition GetBlockHeader (b : CBlockIndex) : CBlockHeader :=
  {| nVersion := bVersion b;
     hashPrevBlock := match pprev b with Some p => p | None => le_split 32 0 end;
     hashMerkleRoot := bMerkleRoot b; nTime := bTime b; nBits := bBits b; nNonce := bNonce b |}.

(** [InvertLowestOne]. *)
Definition InvertLowestOne (n : Z) : Z := Z.land n (n - 1).

(** [GetSkipHeight]. *)
Definition GetSkipHeight (height : Z) : Z :=
  if height <? 2 then 0
  else if negb (Z.land height 1 =? 0)
  then InvertLowestOne (InvertLowestOne (height - 1)) + 1
  else InvertLowestOne height.

(** The loop of [CBlockIndex::GetAncestor].  Every turn lowers [heightWalk]. *)
Fixpoint ancestor_walk (fuel : nat) (m : BlockMap) (pindexWalk : uint256) (heightWalk height : Z)
  : res uint256 :=
  if heightWalk <=? height then Ok pindexWalk
  else match fuel with
  | O => Throw OutOfFuel
  | S fuel =>
    walk ← deref m pindexWalk;
    let heightSkip := GetSkipHeight heightWalk in
    let heightSkipPrev := GetSkipHeight (heightWalk - 1) in
    let follow := (heightSkip =? height) ||
                  ((height <? heightSkip) &&
                   negb ((heightSkipPrev <? heightSkip - 2) && (height <=? heightSkipPrev))) in
    match pskip walk, follow with
    | Some s, true => ancestor_walk fuel m s heightSkip height
    | _, _ => match pprev walk with
              | None => Throw AssertFailed
              | Some p => ancestor_walk fuel m p (heightWalk - 1) height
              end
    end
  end.

(** [CBlockIndex::GetAncestor]. *)
Definition GetAncestor (m : BlockMap) (this : uint256) (height : Z) : res (option uint256) :=
  self ← deref m this;
  if (nHeight self <? height) || (height <? 0) then Ok None
  else w ← ancestor_walk (Z.to_nat (nHeight self)) m this (nHeight self) height; Ok (Some w).

(** [CBlockIndex::BuildSkip]: the new value of [pskip]. *)
Definition BuildSkip (m : BlockMap) (this : CBlockIndex) : res (option uint256) :=
  match pprev this with
  | Some p => GetAncestor m p (GetSkipHeight (nHeight this))
  | None => Ok (pskip this)
  end.

(** [GetBitsProof]: the work that a compact target stands for. *)
Definition GetBitsProof (bits : Z) : res base_uint :=
  let '(bnTarget, fNegative, fOverflow) := SetCompact bits in
  if fNegative || fOverflow || EqualTo bnTarget 0 then Ok (uint_of 0)
  else q ← uint_div (uint_not bnTarget) (uint_add bnTarget (uint_of 1));
       Ok (uint_add q (uint_of 1)).

(** [nMedianTimeSpan]. *)
Definition nMedianTimeSpan : nat := 11.

(** The loop of [GetMedianTimePast]: the last timestamps, the newest first. *)
Fixpoint last_times (n : nat) (m : BlockMap) (pindex : option uint256) : res (list Z) :=
  match n, pindex with
  | S n, Some p => b ← deref m p; l ← last_times n m (pprev b); Ok (bTime b :: l)
  | _, _ => Ok []
  end.

(** The element in the middle of the sorted times. *)
Definition median (l : list Z) : Z := nth (Nat.div (length l) 2) (merge_sort Z.le l) 0.

Definition GetMedianTimePast (m : BlockMap) (this : uint256) : res Z :=
  l ← last_times nMedianTimeSpan m (Some this); Ok (median l).

(** The constructor of [CBlockIndex] from a header. *)
Definition index_of_header (block : CBlockHeader) : CBlockIndex :=
  {| pprev := None; pskip := None; nHeight := 0; nChainWork := uint_zero; nTimeMax := 0;
     bVersion := nVersion block; bMerkleRoot := hashMerkleRoot block; bTime := nTime block;
     bBits := nBits block; bNonce := nNonce block |}.

(** The block manager: the index and [best_header]. *)
Record BlockManager := Manager {
  m_block_index : BlockMap;
  best_header : option uint256
}.

Section AddToBlockIndex.
Context {SHA : Sha256}.

(** [BlockManager::AddToBlockIndex]. *)
Definition AddToBlockIndex (s : BlockManager) (block : CBlockHeader) : res (BlockManager * uint256) :=
  let hash := GetHash block in
  match m_block_index s !! hash with
  | Some _ => Ok (s, hash)
  | None =>
    let new := index_of_header block in
    let m := <[hash := new]> (m_block_index s) in
    new ← match m !! hashPrevBlock block with
          | None => Ok new
          | Some prev =>
            let new := {| pprev := Some (hashPrevBlock block); pskip := None;
                          nHeight := nHeight prev + 1; nChainWork := nChainWork new;
                          nTimeMax := nTimeMax new; bVersion := bVersion new;
                          bMerkleRoot := bMerkleRoot new; bTime := bTime new;
                          bBits := bBits new; bNonce := bNonce new |} in
            skip ← BuildSkip (<[hash := new]> m) new;
            Ok {| pprev := pprev new; pskip := skip; nHeight := nHeight new;
                  nChainWork := nChainWork new; nTimeMax := nTimeMax new;
                  bVersion := bVersion new; bMerkleRoot := bMerkleRoot new;
                  bTime := bTime new; bBits := bBits new; bNonce := bNonce new |}
          end;
    '(timeMax, work) ← match pprev new with
                       | None => Ok (bTime new, uint_of 0)
                       | Some p => prev ← deref m p;
                                   Ok (Z.max (nTimeMax prev) (bTime new), nChainWork prev)
                       end;
    proof ← GetBitsProof (bBits new);
    let new := {| pprev := pprev new; pskip := pskip new; nHeight := nHeight new;
                  nChainWork := uint_add work proof; nTimeMax := timeMax;
                  bVersion := bVersion new; bMerkleRoot := bMerkleRoot new;
                  bTime := bTime new; bBits := bBits new; bNonce := bNonce new |} in
    best ← match best_header s with
           | None => Ok (Some hash)
           | Some b => best ← deref m b;
                       Ok (if uint_lt (nChainWork best) (nChainWork new) then Some hash else Some b)
           end;
    Ok ({| m_block_index := <[hash := new]> m; best_header := best |}, hash)
  end.
End AddToBlockIndex.

(** ** Ancestors by following [pprev] *)

Fixpoint up (m : BlockMap) (n : nat) (h : uint256) : option uint256 :=
  match n with
  | O => Some h
  | S n => match m !! h with
           | Some b => match pprev b with Some p => up m n p | None => None end
           | None => None
           end
  end.

(** What one entry of the index promises. *)
Definition entry_ok (m : BlockMap) (h : uint256) (b : CBlockIndex) : Prop :=
  0 <= bTime b < 2 ^ 32 /\ 0 <= bBits b < 2 ^ 32 /\ uint_wf (nChainWork b) /\
  match pprev b with
  | None => nHeight b = 0 /\ pskip b = None
  | Some p => exists b', m !! p = Some b' /\ 0 <= nHeight b' /\ nHeight b = nHeight b' + 1 /\
                exists s, pskip b = Some s /\
                  up m (Z.to_nat (nHeight b' - GetSkipHeight (nHeight b))) p = Some s
  end.

(** The invariant of the index. *)
Definition index_ok (m : BlockMap) : Prop := map_Forall (entry_ok m) m.

Lemma deref_Some m h b : m !! h = Some b -> deref m h = Ok b.
Proof. unfold deref. by intros ->. Qed.

Lemma deref_mono m m' h b : m ⊆ m' -> deref m h = Ok b -> deref m' h = Ok b.
Proof.
  unfold deref. destruct (m !! h) as [x|] eqn:E; [|done]. intros Hm.
  by rewrite (lookup_weaken _ _ _ _ E Hm).
Qed.

Lemma up_mono m m' n h s : m ⊆ m' -> up m n h = Some s -> up m' n h = Some s.
Proof.
  intros Hm. revert h. induction n as [|n IH]; intros h; cbn [up]; [done|].
  destruct (m !! h) as [b|] eqn:E; [|done]. rewrite (lookup_weaken _ _ _ _ E Hm).
  destruct (pprev b); [apply IH|done].
Qed.

Lemma up_add m n k h : up m (n + k) h = match up m n h with Some x => up m k x | None => None end.
Proof.
  revert h. induction n as [|n IH]; intros h; cbn [up Nat.add]; [done|].
  destruct (m !! h) as [b|]; [|done]. destruct (pprev b); [apply IH|done].
Qed.

Lemma index_height m h b : index_ok m -> m !! h = Some b -> 0 <= nHeight b.
Proof.
  intros Hm Hb. destruct (Hm _ _ Hb) as (_ & _ & _ & H). destruct (pprev b) as [p|].
  - destruct H as (b' & _ & H0 & -> & _). lia.
  - destruct H as [-> _]. done.
Qed.

(** Every height down to 0 has an ancestor. *)
Lemma up_total m n h b : index_ok m -> m !! h = Some b -> Z.of_nat n <= nHeight b ->
  exists h' b', up m n h = Some h' /\ m !! h' = Some b' /\ nHeight b' = nHeight b - Z.of_nat n.
Proof.
  intros Hm. revert h b. induction n as [|n IH]; intros h b Hb Hn.
  { exists h, b. cbn. repeat split; try done; lia. }
  destruct (Hm _ _ Hb) as (_ & _ & _ & H). cbn [up]. rewrite Hb. destruct (pprev b) as [p|].
  - destruct H as (b' & Hb' & _ & E & _). destruct (IH p b' Hb' ltac:(lia)) as (h2 & b2 & U & L & HE).
    exists h2, b2. repeat split; try done; lia.
  - destruct H as [E _]. lia.
Qed.

(** The ancestor of [h] at a height, by following [pprev]. *)
Lemma up_height m n h b x : index_ok m -> m !! h = Some b -> up m n h = Some x ->
  exists bx, m !! x = Some bx /\ nHeight bx = nHeight b - Z.of_nat n.
Proof.
  intros Hm. revert h b. induction n as [|n IH]; intros h b Hb; cbn [up].
  { intros [= <-]. exists b. split; [done|lia]. }
  rewrite Hb. destruct (Hm _ _ Hb) as (_ & _ & _ & H). destruct (pprev b) as [p|]; [|done].
  destruct H as (b' & Hb' & _ & E & _). intros U. destruct (IH p b' Hb' U) as (bx & Hx & Hhx).
  exists bx. split; [done|lia].
Qed.

(** ** The skip list *)

Lemma InvertLowestOne_bounds n : 0 <= n -> 0 <= InvertLowestOne n /\ (0 < n -> InvertLowestOne n < n).
Proof.
  intros Hn. unfold InvertLowestOne. split; [apply Z.land_nonneg; lia|]. intros Hp.
  pose proof (N.land_le_r (Z.to_N n) (Z.to_N (n - 1))) as H.
  rewrite <- (Z2N.id n), <- (Z2N.id (n - 1)) at 1 by lia. rewrite <- N2Z.inj_land. lia.
Qed.

Lemma GetSkipHeight_bounds h : 0 < h -> 0 <= GetSkipHeight h < h.
Proof.
  intros Hh. unfold GetSkipHeight. destruct (Z.ltb_spec h 2); [lia|].
  destruct (negb _); [|pose proof (InvertLowestOne_bounds h); lia].
  destruct (InvertLowestOne_bounds (h - 1)) as [H1 H2]; [lia|].
  destruct (InvertLowestOne_bounds (InvertLowestOne (h - 1)) H1) as [H3 H4].
  destruct (decide (InvertLowestOne (h - 1) = 0)) as [E|]; [|lia].
  rewrite E in *. change (InvertLowestOne 0) with 0. lia.
Qed.

(** The walk over the skip list ends at the ancestor of that height. *)
Lemma ancestor_walk_spec fuel m w b height : index_ok m -> m !! w = Some b ->
  0 <= height <= nHeight b -> nHeight b - height <= Z.of_nat fuel ->
  exists s, ancestor_walk fuel m w (nHeight b) height = Ok s /\
    up m (Z.to_nat (nHeight b - height)) w = Some s.
Proof.
  intros Hm. revert w b. induction fuel as [|fuel IH]; intros w b Hb Hh Hf; cbn [ancestor_walk];
    destruct (Z.leb_spec (nHeight b) height) as [Hle|Hgt]; try lia.
  1, 2: exists w; split; [done|]; by replace (nHeight b - height) with 0 by lia.
  rewrite (deref_Some _ _ _ Hb). rbind. destruct (Hm _ _ Hb) as (_ & _ & _ & H).
  destruct (pprev b) as [p|] eqn:Ep; [|destruct H; lia].
  destruct H as (b' & Hb' & H0 & E & s & -> & Hs).
  assert (up m (Z.to_nat (nHeight b - GetSkipHeight (nHeight b))) w = Some s) as Hup.
  { pose proof (GetSkipHeight_bounds (nHeight b) ltac:(lia)).
    replace (Z.to_nat (nHeight b - GetSkipHeight (nHeight b)))
      with (S (Z.to_nat (nHeight b' - GetSkipHeight (nHeight b)))) by lia.
    cbn [up]. by rewrite Hb, Ep. }
  pose proof (GetSkipHeight_bounds (nHeight b) ltac:(lia)) as Hk.
  match goal with |- context [if ?c then _ else _] => destruct c eqn:Hc end.
  - destruct (up_total m (Z.to_nat (nHeight b - GetSkipHeight (nHeight b))) w b Hm Hb)
      as (h2 & b2 & U & L & HE); [lia|].
    assert (h2 = s) as -> by congruence.
    assert (height <= GetSkipHeight (nHeight b)) as Hle.
    { apply orb_prop in Hc as [Hc|Hc]; zbool; lia. }
    replace (GetSkipHeight (nHeight b)) with (nHeight b2) by lia.
    destruct (IH s b2 L ltac:(lia) ltac:(lia)) as (r & -> & Hr). exists r. split; [done|].
    replace (Z.to_nat (nHeight b - height))
      with (Z.to_nat (nHeight b - GetSkipHeight (nHeight b)) + Z.to_nat (nHeight b2 - height))%nat by lia.
    by rewrite up_add, Hup.
  - replace (nHeight b - 1) with (nHeight b') by lia.
    destruct (IH p b' Hb' ltac:(lia) ltac:(lia)) as (r & -> & Hr). exists r. split; [done|].
    replace (Z.to_nat (nHeight b - height)) with (S (Z.to_nat (nHeight b' - height))) by lia.
    cbn [up]. by rewrite Hb, Ep.
Qed.

Lemma GetAncestor_spec m h b height : index_ok m -> m !! h = Some b ->
  GetAncestor m h height =
  Ok (if (nHeight b <? height) || (height <? 0) then None
      else up m (Z.to_nat (nHeight b - height)) h).
Proof.
  intros Hm Hb. unfold GetAncestor. rewrite (deref_Some _ _ _ Hb). rbind.
  destruct ((nHeight b <? height) || (height <? 0)) eqn:E; [done|].
  apply orb_false_elim in E as [E1 E2]. zbool.
  destruct (ancestor_walk_spec (Z.to_nat (nHeight b)) m h b height) as (s & -> & ->); auto; lia.
Qed.

(** An ancestor within the heights of the chain exists. *)
Lemma GetAncestor_total m h b height : index_ok m -> m !! h = Some b -> 0 <= height <= nHeight b ->
  exists a ba, GetAncestor m h height = Ok (Some a) /\ m !! a = Some ba /\ nHeight ba = height.
Proof.
  intros Hm Hb Hh. rewrite (GetAncestor_spec _ _ _ _ Hm Hb).
  rewrite (proj2 (Z.ltb_ge _ _)), (proj2 (Z.ltb_ge height 0)) by lia. cbn [orb].
  destruct (up_total m (Z.to_nat (nHeight b - height)) h b Hm Hb) as (a & ba & -> & L & E); [lia|].
  exists a, ba. repeat split; try done; lia.
Qed.

(** Entries that are added do not change the ancestors of the others. *)
Lemma ancestor_walk_mono fuel m m' w hw height s : m ⊆ m' ->
  ancestor_walk fuel m w hw height = Ok s -> ancestor_walk fuel m' w hw height = Ok s.
Proof.
  intros Hm. revert w hw. induction fuel as [|fuel IH]; intros w hw; cbn [ancestor_walk]; [done|].
  destruct (hw <=? height); [done|]. unfold deref.
  destruct (m !! w) as [b|] eqn:E; [|done]. rewrite (lookup_weaken _ _ _ _ E Hm). rbind.
  destruct (pskip b); [match goal with |- context [if ?c then _ else _] => destruct c end|];
    try apply IH; destruct (pprev b); try done; apply IH.
Qed.

Lemma GetAncestor_mono m m' h height s : m ⊆ m' ->
  GetAncestor m h height = Ok s -> GetAncestor m' h height = Ok s.
Proof.
  intros Hm. unfold GetAncestor, deref.
  destruct (m !! h) as [b|] eqn:E; [|done]. rewrite (lookup_weaken _ _ _ _ E Hm). rbind.
  destruct (_ || _); [done|].
  destruct (ancestor_walk _ m _ _ _) eqn:W; [|done]. by rewrite (ancestor_walk_mono _ _ _ _ _ _ _ Hm W).
Qed.

(** ** Work *)

(** The target of a compact value, when it is neither negative, nor zero, nor
    beyond 256 bits. *)
Definition target_of (c : Z) : option Z :=
  let v := compact_value c in
  if Z.testbit c 23 || (2 ^ 256 <=? v) || (v =? 0) then None else Some v.

(** The expected number of hashes for it. *)
Definition work_of (c : Z) : Z :=
  match target_of c with Some t => 2 ^ 256 / (t + 1) | None => 0 end.

Lemma compact_value_nonneg c : 0 <= c -> 0 <= compact_value c.
Proof.
  intros Hc. unfold compact_value. pose proof (Z.mod_pos_bound c (2 ^ 23) ltac:(lia)).
  destruct (_ <=? 3) eqn:E; zbool.
  - apply Z.div_pos; [lia|apply Z.pow_pos_nonneg; lia].
  - apply Z.mul_nonneg_nonneg; [lia|apply Z.pow_nonneg; lia].
Qed.

Lemma target_of_Some c t : 0 <= c -> target_of c = Some t ->
  t = compact_value c /\ 0 < t /\ t + 1 < 2 ^ 256 /\ Z.testbit c 23 = false.
Proof.
  intros Hc. unfold target_of. destruct (Z.testbit c 23); [done|]. cbn [orb].
  destruct (Z.leb_spec (2 ^ 256) (compact_value c)) as [|Hlt]; [done|]. cbn [orb].
  destruct (Z.eqb_spec (compact_value c) 0); [done|]. intros [= <-].
  pose proof (compact_value_nonneg c Hc). repeat split; try lia. revert Hlt.
  unfold compact_value. pose proof (Z.mod_pos_bound c (2 ^ 23) ltac:(lia)).
  destruct (_ <=? 3) eqn:E; zbool.
  - assert (0 < 2 ^ (8 * (3 - c / 2 ^ 24))) by (apply Z.pow_pos_nonneg; lia).
    intros _. apply (Z.le_lt_trans _ (2 ^ 23 + 1)); [|lia].
    assert (c mod 2 ^ 23 / 2 ^ (8 * (3 - c / 2 ^ 24)) <= c mod 2 ^ 23); [|lia].
    apply Z.div_le_upper_bound; nia.
  - replace (8 * (c / 2 ^ 24 - 3)) with (Z.succ (8 * (c / 2 ^ 24 - 3) - 1)) by lia.
    rewrite Z.pow_succ_r by lia.
    replace (c mod 2 ^ 23 * (2 * _)) with (2 * (c mod 2 ^ 23 * 2 ^ (8 * (c / 2 ^ 24 - 3) - 1))) by lia.
    lia.
Qed.

Lemma GetBitsProof_spec c : 0 <= c < 2 ^ 32 ->
  exists w, GetBitsProof c = Ok w /\ repr w (work_of c).
Proof.
  intros Hc. unfold GetBitsProof, work_of. destruct (SetCompact_spec c Hc) as (n & -> & Hn).
  rewrite (EqualTo_repr _ _ 0 Hn) by lia.
  pose proof (compact_value_nonneg c ltac:(lia)) as H0. destruct (target_of c) as [t|] eqn:Et.
  - destruct (target_of_Some c t ltac:(lia) Et) as (-> & Ht & Ht1 & Hb).
    rewrite Z.mod_small in Hn |- * by lia. rewrite Hb, andb_false_r.
    rewrite (proj2 (Z.leb_gt _ _)), (proj2 (Z.eqb_neq _ 0)) by lia. cbn [orb].
    set (t := compact_value c) in *.
    pose proof (uint_add_repr _ _ _ _ Hn (uint_of_repr 1 ltac:(lia))) as Ha.
    rewrite Z.mod_small in Ha by lia.
    destruct (uint_div_repr _ _ _ _ (uint_not_repr _ _ Hn) Ha ltac:(lia)) as (q & -> & Hq). rbind.
    eexists. split; [done|].
    replace (2 ^ 256 - 1 - t) with (2 ^ 256 + (-1) * (t + 1)) in Hq by lia.
    rewrite Z.div_add in Hq by lia.
    pose proof (uint_add_repr _ _ _ _ Hq (uint_of_repr 1 ltac:(lia))) as Hr.
    replace (2 ^ 256 / (t + 1) + -1 + 1) with (2 ^ 256 / (t + 1)) in Hr by lia.
    rewrite Z.mod_small in Hr; [done|]. split; [apply Z.div_pos; lia|].
    apply Z.div_lt_upper_bound; lia.
  - exists (uint_of 0). split; [|by apply uint_of_repr]. revert Et. unfold target_of.
    destruct (Z.eqb_spec (compact_value c) 0) as [->|]; [by rewrite !orb_true_r|].
    destruct (Z.testbit c 23); [done|]. cbn [negb andb orb].
    by destruct (2 ^ 256 <=? compact_value c).
Qed.

(** ** Adding a header *)

Definition manager_ok (s : BlockManager) : Prop :=
  index_ok (m_block_index s) /\
  match best_header s with Some h => is_Some (m_block_index s !! h) | None => True end.

Lemma entry_ok_mono m m' h b : m ⊆ m' -> entry_ok m h b -> entry_ok m' h b.
Proof.
  intros Hm (Ht & Hbits & Hw & H). split; [done|]. split; [done|]. split; [done|].
  destruct (pprev b) as [p|]; [|done]. destruct H as (b' & Hb' & H0 & E & s & Hs & U).
  exists b'. split; [by apply (lookup_weaken m m')|]. split; [done|]. split; [done|].
  exists s. split; [done|by apply (up_mono m)].
Qed.

Lemma index_ok_insert m h b : index_ok m -> m !! h = None -> entry_ok (<[h := b]> m) h b ->
  index_ok (<[h := b]> m).
Proof.
  intros Hm Hh Hb. apply map_Forall_insert_2; [done|]. intros h' b' Hb'.
  apply (entry_ok_mono m); [by apply insert_subseteq|by apply Hm].
Qed.

(** The fields of a new entry that come from its header. *)
Definition same_header (block : CBlockHeader) (b : CBlockIndex) : Prop :=
  bVersion b = nVersion block /\ bMerkleRoot b = hashMerkleRoot block /\
  bTime b = nTime block /\ bBits b = nBits block /\ bNonce b = nNonce block.

Section adding.
Context {SHA : Sha256}.

(** A header whose parent is known becomes the child of it. *)
Lemma AddToBlockIndex_child s block prev : manager_ok s -> header_ok block ->
  m_block_index s !! GetHash block = None ->
  m_block_index s !! hashPrevBlock block = Some prev ->
  exists new best, AddToBlockIndex s block =
    Ok (Manager (<[GetHash block := new]> (m_block_index s)) best, GetHash block) /\
    same_header block new /\ pprev new = Some (hashPrevBlock block) /\
    nHeight new = nHeight prev + 1 /\ nTimeMax new = Z.max (nTimeMax prev) (nTime block) /\
    repr (nChainWork new) ((eval (nChainWork prev) + work_of (nBits block)) mod 2 ^ 256) /\
    manager_ok (Manager (<[GetHash block := new]> (m_block_index s)) best) /\
    match best_header s with
    | None => best = Some (GetHash block)
    | Some h => exists bh, m_block_index s !! h = Some bh /\
        best = Some (if eval (nChainWork bh) <? eval (nChainWork new) then GetHash block else h)
    end.
Proof using Type.
  intros [Hm Hbest] Hok Hnew Hprev. unfold AddToBlockIndex. rewrite Hnew. cbv zeta.
  assert (hashPrevBlock block <> GetHash block) as Hne by congruence.
  rewrite lookup_insert_ne, Hprev by done. rewrite insert_insert_eq.
  unfold BuildSkip. cbn [pprev nHeight].
  match goal with |- context [GetAncestor (<[_ := ?e]> _)] => set (e0 := e) end.
  pose proof (index_height _ _ _ Hm Hprev) as H0.
  pose proof (GetSkipHeight_bounds (nHeight prev + 1) ltac:(lia)) as Hk.
  destruct (GetAncestor_total _ _ _ (GetSkipHeight (nHeight prev + 1)) Hm Hprev ltac:(lia))
    as (a & ba & Ea & La & Eh).
  rewrite (GetAncestor_mono _ _ _ _ _ (insert_subseteq (m_block_index s) (GetHash block) e0 Hnew) Ea).
  subst e0. cbn [index_of_header bVersion bMerkleRoot bTime bBits bNonce nChainWork nTimeMax]. rbind.
  cbn [pprev pskip nHeight bVersion bMerkleRoot bTime bBits bNonce].
  rewrite (deref_Some _ (hashPrevBlock block) prev) by (by rewrite lookup_insert_ne). rbind.
  destruct Hok as [Ht Hbits]. destruct (GetBitsProof_spec (nBits block) Hbits) as (w & -> & Hw). rbind.
  destruct (Hm _ _ Hprev) as (_ & _ & Hwp & _).
  pose proof (uint_add_repr _ _ _ _ (conj Hwp eq_refl) Hw) as Hsum.
  assert (forall (o : option uint256),
    (o = best_header s \/ o = Some (GetHash block)) -> forall e,
    index_ok (<[GetHash block := e]> (m_block_index s)) ->
    manager_ok (Manager (<[GetHash block := e]> (m_block_index s)) o)) as Hmgr.
  { intros o Ho e He. split; [done|]. cbn [best_header m_block_index].
    destruct Ho as [->| ->]; [|by rewrite lookup_insert_eq].
    destruct (best_header s) as [h|]; [|done]. by apply lookup_insert_is_Some'; right. }
  match goal with |- context [{| m_block_index := <[_ := ?e]> _ |}] => set (new := e) end.
  assert (index_ok (<[GetHash block := new]> (m_block_index s))) as Hix.
  { apply index_ok_insert; [done..|]. split; [done|]. split; [done|]. split; [apply Hsum|].
    cbn [pprev new]. exists prev. split; [by rewrite lookup_insert_ne|].
    split; [done|]. split; [done|]. exists a. split; [done|].
    apply (up_mono (m_block_index s)); [by apply insert_subseteq|].
    cbn [nHeight new]. rewrite (GetAncestor_spec _ _ _ _ Hm Hprev) in Ea.
    rewrite (proj2 (Z.ltb_ge _ _)), (proj2 (Z.ltb_ge _ 0)) in Ea by lia. cbn [orb] in Ea. congruence. }
  destruct (best_header s) as [h|] eqn:Eb.
  - destruct Hbest as [bh Hbh]. unfold deref.
    assert (h <> GetHash block) as Hne' by congruence.
    rewrite lookup_insert_ne, Hbh by done. rbind. rewrite insert_insert_eq.
    destruct (Hm _ _ Hbh) as (_ & _ & Hwb & _).
    rewrite (uint_lt_repr _ _ _ _ (conj Hwb eq_refl) (conj (proj1 Hsum) eq_refl)).
    do 2 eexists. do 5 (split; [done|]). split; [exact Hsum|]. split.
    { apply Hmgr; [|done]. case_match; auto. }
    exists bh. split; [done|]. cbn [nChainWork new]. by case_match.
  - rbind. rewrite insert_insert_eq. do 2 eexists. do 5 (split; [done|]). split; [exact Hsum|].
    split; [|done]. by apply Hmgr; [right|].
Qed.
End adding.

Section genesis.
Context {SHA : Sha256}.

(** The first header of an empty index: it has no parent. *)
Lemma AddToBlockIndex_genesis block : header_ok block -> hashPrevBlock block <> GetHash block ->
  exists new, AddToBlockIndex (Manager ∅ None) block =
    Ok (Manager {[GetHash block := new]} (Some (GetHash block)), GetHash block) /\
    same_header block new /\ pprev new = None /\ nHeight new = 0 /\ nTimeMax new = nTime block /\
    repr (nChainWork new) (work_of (nBits block)) /\
    manager_ok (Manager {[GetHash block := new]} (Some (GetHash block))).
Proof using Type.
  intros [Ht Hbits] Hne. unfold AddToBlockIndex. cbn [m_block_index best_header].
  rewrite lookup_empty, lookup_insert_ne, lookup_empty by done. rbind.
  cbn [pprev pskip index_of_header bBits bTime]. rbind.
  destruct (GetBitsProof_spec (nBits block) Hbits) as (w & -> & Hw). rbind.
  rewrite insert_insert_eq.
  pose proof (uint_add_repr _ _ _ _ (uint_of_repr 0 ltac:(lia)) Hw) as Hsum.
  pose proof (repr_bounds _ _ Hw). rewrite Z.add_0_l, Z.mod_small in Hsum by lia.
  eexists. do 5 (split; [done|]). split; [exact Hsum|]. split.
  - apply map_Forall_singleton. split; [done|]. split; [done|]. split; [apply Hsum|done].
  - cbn [m_block_index best_header]. by rewrite lookup_singleton_eq.
Qed.
End genesis.

(** ** Median time past *)

Lemma last_times_total n m h b : index_ok m -> m !! h = Some b ->
  exists l, last_times (S n) m (Some h) = Ok (bTime b :: l) /\ last_times n m (pprev b) = Ok l.
Proof.
  intros Hm. revert h b. induction n as [|n IH]; intros h b Hb; cbn [last_times];
    rewrite (deref_Some _ _ _ Hb); rbind.
  { by exists []. }
  destruct (Hm _ _ Hb) as (_ & _ & _ & H). destruct (pprev b) as [p|].
  - destruct H as (b' & Hb' & _). destruct (IH p b' Hb') as (l & E & _).
    cbn [last_times] in E |- *. rewrite E. rbind. eauto.
  - by exists [].
Qed.

Lemma last_times_take n m p l : last_times (S n) m p = Ok l -> last_times n m p = Ok (take n l).
Proof.
  revert p l. induction n as [|n IH]; intros p l.
  { intros _. by destruct p. }
  destruct p as [h|]; cbn [last_times]; [|intros [= <-]; done].
  destruct (deref m h) as [b|]; rbind; [|done].
  destruct (last_times (S n) m (pprev b)) as [l'|] eqn:E; cbn [last_times] in E; rewrite E; rbind; [|done].
  intros [= <-]. rewrite (IH _ _ E). done.
Qed.

Lemma last_times_mono n m m' p l : m ⊆ m' -> last_times n m p = Ok l -> last_times n m' p = Ok l.
Proof.
  intros Hm. revert p l. induction n as [|n IH]; intros p l; [done|].
  destruct p as [h|]; cbn [last_times]; [|done]. unfold deref.
  destruct (m !! h) as [b|] eqn:E; [|done]. rewrite (lookup_weaken _ _ _ _ E Hm). rbind.
  destruct (last_times n m (pprev b)) as [l'|] eqn:E'; [|done]. by rewrite (IH _ _ E').
Qed.

Lemma last_times_length n m p l : last_times n m p = Ok l -> (length l <= n)%nat.
Proof.
  revert p l. induction n as [|n IH]; intros p l; cbn [last_times]; [by intros [= <-]|].
  destruct p as [h|]; [|intros [= <-]; cbn; lia]. destruct (deref m h); rbind; [|done].
  destruct (last_times n m (pprev a)) as [l'|] eqn:E; rbind; [|done].
  intros [= <-]. cbn. specialize (IH _ _ E). lia.
Qed.

Lemma GetMedianTimePast_total m h b : index_ok m -> m !! h = Some b ->
  exists t, GetMedianTimePast m h = Ok t.
Proof.
  intros Hm Hb. unfold GetMedianTimePast, nMedianTimeSpan.
  destruct (last_times_total 10 m h b Hm Hb) as (l & -> & _). rbind. eauto.
Qed.

Lemma GetMedianTimePast_mono m m' h t : m ⊆ m' ->
  GetMedianTimePast m h = Ok t -> GetMedianTimePast m' h = Ok t.
Proof.
  intros Hm. unfold GetMedianTimePast. destruct (last_times _ m _) as [l|] eqn:E; [|done].
  by rewrite (last_times_mono _ _ _ _ _ Hm E).
Qed.

(** The number of elements from [x] on. *)
Definition at_least (x : Z) (l : list Z) : nat := length (filter (fun y => x <= y) l).

Lemma at_least_cons x y l : at_least x (y :: l) = ((if decide (x <= y)%Z then 1 else 0) + at_least x l)%nat.
Proof. unfold at_least. rewrite filter_cons. by case_decide. Qed.

Lemma at_least_le x l : (at_least x l <= length l)%nat.
Proof. apply length_filter. Qed.

Lemma at_least_all x l : Forall (fun y => x <= y) l -> at_least x l = length l.
Proof.
  induction 1 as [|y l Hy _ IH]; [done|]. rewrite at_least_cons, decide_True, IH by done. done.
Qed.

(** In a sorted list the element at [k] is at least [x] when enough elements are. *)
Lemma sorted_at_least x s k : StronglySorted Z.le s -> (k < length s)%nat ->
  x <= nth k s 0 <-> (length s - k <= at_least x s)%nat.
Proof.
  intros Hs. revert k. induction Hs as [|y s Hs IH Hy]; intros k Hk; [cbn in Hk; lia|].
  rewrite at_least_cons. pose proof (at_least_le x s). destruct k as [|k]; cbn [nth length] in *.
  - case_decide as Hd; [|lia]. split; [intros _|lia].
    rewrite (at_least_all x s); [lia|]. eapply Forall_impl; [exact Hy|]. lia.
  - rewrite IH by lia. case_decide as Hd; [|lia]. split; [lia|]. intros Hle.
    rewrite (at_least_all x s); [lia|]. eapply Forall_impl; [exact Hy|]. lia.
Qed.

Lemma median_at_least x l : l <> [] ->
  x <= median l <-> (length l - Nat.div (length l) 2 <= at_least x l)%nat.
Proof.
  intros Hl. unfold median. pose proof (merge_sort_Permutation Z.le l) as Hp.
  assert (at_least x l = at_least x (merge_sort Z.le l)) as ->
    by (unfold at_least; by rewrite Hp).
  rewrite <- (Permutation_length Hp). apply sorted_at_least; [apply StronglySorted_merge_sort; apply _|].
  rewrite (Permutation_length Hp). destruct l; [done|]. apply Nat.div_lt; cbn; lia.
Qed.

(** A new timestamp above the median, in a window of [n + 1], does not lower it. *)
Lemma median_window n t l : l <> [] -> median l < t -> (length l <= S n)%nat ->
  median l <= median (t :: take n l).
Proof.
  intros Hl Ht Hn. apply median_at_least; [done|].
  pose proof (proj1 (median_at_least (median l) l Hl) ltac:(lia)) as Hc.
  rewrite at_least_cons. rewrite decide_True by lia. cbn [length].
  destruct (decide (length l <= n)%nat) as [Hle|Hgt].
  - rewrite take_ge by done. pose proof (Nat.Div0.div_le_mono (length l) (S (length l)) 2 ltac:(lia)). lia.
  - assert (length l = S n) as E by lia. rewrite length_take, E in *.
    replace (S (n `min` S n)) with (S n) by lia.
    assert (at_least (median l) l <= S (at_least (median l) (take n l)))%nat; [|lia].
    rewrite <- (take_drop n l) at 2. unfold at_least. rewrite filter_app, length_app.
    pose proof (length_filter (fun y => median l <= y) (drop n l)). rewrite length_drop in *. lia.
Qed.

Lemma last_times_nonneg n m p l : index_ok m -> last_times n m p = Ok l -> Forall (fun t => 0 <= t) l.
Proof.
  intros Hm. revert p l. induction n as [|n IH]; intros p l; cbn [last_times]; [by intros [= <-]|].
  destruct p as [h|]; [|by intros [= <-]]. unfold deref. destruct (m !! h) as [b|] eqn:E; [|done]. rbind.
  destruct (last_times n m (pprev b)) as [l'|] eqn:E'; rbind; [|done]. intros [= <-].
  constructor; [|by apply (IH (pprev b))]. destruct (Hm _ _ E) as (Ht & _). lia.
Qed.

Lemma median_nonneg m h b t : index_ok m -> m !! h = Some b -> GetMedianTimePast m h = Ok t -> 0 <= t.
Proof.
  intros Hm Hb. unfold GetMedianTimePast, nMedianTimeSpan.
  destruct (last_times_total 10 m h b Hm Hb) as (l & E & _). rewrite E. rbind. intros [= <-].
  apply median_at_least; [done|]. rewrite at_least_all by (by apply (last_times_nonneg _ _ _ _ Hm E)). lia.
Qed.

(** ** Ancestors *)

(** [x] is [h] or an ancestor of it. *)
Definition ancestor_of (m : BlockMap) (x h : uint256) : Prop := exists n, up m n h = Some x.

Lemma ancestor_refl m h : ancestor_of m h h.
Proof. by exists O. Qed.

Lemma ancestor_trans m x y z : ancestor_of m x y -> ancestor_of m y z -> ancestor_of m x z.
Proof. intros [n Hn] [k Hk]. exists (k + n)%nat. by rewrite up_add, Hk. Qed.

Lemma ancestor_height m x h b : index_ok m -> m !! h = Some b -> ancestor_of m x h ->
  exists bx, m !! x = Some bx /\ nHeight bx <= nHeight b /\
    up m (Z.to_nat (nHeight b - nHeight bx)) h = Some x.
Proof.
  intros Hm Hb [n Hn]. destruct (up_height m n h b x Hm Hb Hn) as (bx & Hx & E).
  exists bx. split; [done|]. split; [lia|]. by replace (Z.to_nat _) with n by lia.
Qed.

(** Of two ancestors of an entry the lower is an ancestor of the higher. *)
Lemma ancestors_linear m x y h b bx b_y : index_ok m -> m !! h = Some b ->
  ancestor_of m x h -> ancestor_of m y h -> m !! x = Some bx -> m !! y = Some b_y ->
  nHeight bx <= nHeight b_y -> ancestor_of m x y.
Proof.
  intros Hm Hb Hx Hy Lx Ly Hle.
  destruct (ancestor_height m x h b Hm Hb Hx) as (? & Ex & Hxb & Ux).
  destruct (ancestor_height m y h b Hm Hb Hy) as (? & Ey & Hyb & Uy). simplify_eq.
  exists (Z.to_nat (nHeight b_y - nHeight bx)).
  replace (Z.to_nat (nHeight b - nHeight bx))
    with (Z.to_nat (nHeight b - nHeight b_y) + Z.to_nat (nHeight b_y - nHeight bx))%nat in Ux by lia.
  by rewrite up_add, Uy in Ux.
Qed.

(** An entry is a root, or it has a parent and a skip pointer, which are the
    ancestors at their heights. *)
Lemma links m h b : index_ok m -> m !! h = Some b ->
  (nHeight b = 0 /\ pprev b = None /\ pskip b = None) \/
  (0 < nHeight b /\ exists p bp s bs, pprev b = Some p /\ pskip b = Some s /\
     m !! p = Some bp /\ nHeight bp = nHeight b - 1 /\ ancestor_of m p h /\
     m !! s = Some bs /\ nHeight bs = GetSkipHeight (nHeight b) /\ ancestor_of m s h).
Proof.
  intros Hm Hb. destruct (Hm _ _ Hb) as (_ & _ & _ & H). destruct (pprev b) as [p|] eqn:Ep.
  - destruct H as (b' & Hb' & H0 & E & s & -> & U). right. split; [lia|].
    assert (ancestor_of m p h) as Hp by (exists 1%nat; cbn [up]; by rewrite Hb, Ep).
    pose proof (GetSkipHeight_bounds (nHeight b) ltac:(lia)).
    destruct (up_height m _ p b' s Hm Hb' U) as (bs & Hs & Es). exists p, b', s, bs.
    do 3 (split; [done|]). split; [lia|]. do 2 (split; [done|]). split; [lia|].
    apply (ancestor_trans m s p); [by eexists|done].
  - left. destruct H as [-> ->]. done.
Qed.

Lemma ancestor_unique m x y h b bx b_y : index_ok m -> m !! h = Some b ->
  ancestor_of m x h -> ancestor_of m y h -> m !! x = Some bx -> m !! y = Some b_y ->
  nHeight bx = nHeight b_y -> x = y.
Proof.
  intros Hm Hb Hx Hy Lx Ly He.
  destruct (ancestor_height m x h b Hm Hb Hx) as (? & Ex & Hxb & Ux).
  destruct (ancestor_height m y h b Hm Hb Hy) as (? & Ey & Hyb & Uy). simplify_eq.
  rewrite He in Ux. congruence.
Qed.
