(* ===== verification/Pow.v ===== *)
(** * Proof of work and issuance

    src/src/pow.cpp, the parameters it reads (src/src/consensus/params.h, the
    main network of src/src/kernel/chainparams.cpp), [GetBlockSubsidy]
    (src/src/validation.cpp) and the amounts of src/src/consensus/amount.h.

    The retarget is modelled with the arithmetic it runs on: 256-bit numbers
    that wrap around.  The theorems tell where the result is the one that is
    meant (no intermediate product reaches [2^256]) and what happens beyond,
    which the parameters of the main network allow. *)

From stdpp Require Import gmap.
From S2P Require Import Prelude Uint256 Framing Chain.

(** ** Parameters *)

(** The fields of [Consensus::Params] that the modelled code reads. *)
Record Params := {
  hashGenesisBlock : uint256;
  nSubsidyHalvingInterval : Z;
  BIP34Height : Z;
  BIP65Height : Z;
  BIP66Height : Z;
  powLimit : uint256;
  fPowAllowMinDifficultyBlocks : bool;
  enforce_BIP94 : bool;
  fPowNoRetargeting : bool;
  MinDifficultyActivationHeight : Z;
  StoicAwakeningEndHeight : Z;
  nPowTargetSpacing : Z;
  nPowTargetTimespan : Z
}.

(** [DifficultyAdjustmentInterval]. *)
Definition DifficultyAdjustmentInterval (params : Params) : Z :=
  Z.quot (nPowTargetTimespan params) (nPowTargetSpacing params).

(** A [uint256] from its hexadecimal text. *)
Definition uint256_hex (v : Z) : uint256 := le_split 32 v.

(** [CMainParams]. *)
Definition main_params : Params := {|
  hashGenesisBlock := uint256_hex 0x00000006b054338443f1a5d5534df21eab0d13232028158ae198edbb169f9dad;
  nSubsidyHalvingInterval := 2102400;
  BIP34Height := 1;
  BIP65Height := 1;
  BIP66Height := 1;
  powLimit := uint256_hex 0x007fffff00000000000000000000000000000000000000000000000000000000;
  fPowAllowMinDifficultyBlocks := false;
  enforce_BIP94 := false;
  fPowNoRetargeting := false;
  MinDifficultyActivationHeight := 1;
  StoicAwakeningEndHeight := 150000;
  nPowTargetSpacing := 60;
  nPowTargetTimespan := 2016 * 60
|}.

(** The header of the genesis block of the main network. *)
Definition main_genesis : CBlockHeader :=
  {| nVersion := 1; hashPrevBlock := uint256_hex 0;
     hashMerkleRoot := uint256_hex 0x0a7087d81dfb14868848c7e02da8408fe721540e63f6cab9a67d0dfc37b19b17;
     nTime := 1781164284; nBits := 0x1d7fffff; nNonce := 8892291 |}.

(** ** pow.cpp *)

(** [stoicAwakeningActive] of [GetNextWorkRequired] and of
    [PermittedDifficultyTransition]. *)
Definition stoicAwakeningActive (params : Params) (height : Z) : bool :=
  negb (MinDifficultyActivationHeight params =? -1) &&
  (MinDifficultyActivationHeight params <=? height) &&
  ((StoicAwakeningEndHeight params =? -1) || (height <? StoicAwakeningEndHeight params)).

Definition allowMinDifficulty (params : Params) (height : Z) : bool :=
  fPowAllowMinDifficultyBlocks params || stoicAwakeningActive params height.

(** The loop to the last block that is no minimum-difficulty exception. *)
Fixpoint last_non_special (fuel : nat) (m : BlockMap) (params : Params) (limit : Z) (pindex : uint256)
  : res Z :=
  b ← deref m pindex;
  match pprev b with
  | None => Ok (bBits b)
  | Some p =>
    if negb (Z.rem (nHeight b) (DifficultyAdjustmentInterval params) =? 0) && (bBits b =? limit)
    then match fuel with
         | O => Throw OutOfFuel
         | S fuel => last_non_special fuel m params limit p
         end
    else Ok (bBits b)
  end.

(** [CalculateNextWorkRequired].  The product is of a 256-bit number and the low
    32 bits of the timespan. *)
Definition CalculateNextWorkRequired (m : BlockMap) (pindexLast : uint256) (nFirstBlockTime : Z)
    (params : Params) : res Z :=
  last ← deref m pindexLast;
  if fPowNoRetargeting params then Ok (bBits last)
  else
    let nActualTimespan := bTime last - nFirstBlockTime in
    let nActualTimespan := if nActualTimespan <? Z.quot (nPowTargetTimespan params) 4
                           then Z.quot (nPowTargetTimespan params) 4 else nActualTimespan in
    let nActualTimespan := if nPowTargetTimespan params * 4 <? nActualTimespan
                           then nPowTargetTimespan params * 4 else nActualTimespan in
    let bnPowLimit := UintToArith256 (powLimit params) in
    base ← (if enforce_BIP94 params
            then let nHeightFirst := nHeight last - (DifficultyAdjustmentInterval params - 1) in
                 first ← GetAncestor m pindexLast nHeightFirst;
                 match first with
                 | None => Throw NullPointer
                 | Some f => b ← deref m f; Ok (bBits b)
                 end
            else Ok (bBits last));
    let '(bnNew, _, _) := SetCompact base in
    let bnNew := uint_mul32 bnNew (u32 nActualTimespan) in
    bnNew ← uint_div bnNew (uint_of (nPowTargetTimespan params));
    GetCompact false (if uint_gt bnNew bnPowLimit then bnPowLimit else bnNew).

(** [GetNextWorkRequired], for the time of the new block. *)
Definition GetNextWorkRequired (m : BlockMap) (pindexLast : uint256) (pblock : CBlockHeader)
    (params : Params) : res Z :=
  nProofOfWorkLimit ← GetCompact false (UintToArith256 (powLimit params));
  last ← deref m pindexLast;
  if negb (Z.rem (nHeight last + 1) (DifficultyAdjustmentInterval params) =? 0) then
    if allowMinDifficulty params (nHeight last + 1) then
      if bTime last + nPowTargetSpacing params * 2 <? nTime pblock then Ok nProofOfWorkLimit
      else last_non_special (Z.to_nat (nHeight last)) m params nProofOfWorkLimit pindexLast
    else Ok (bBits last)
  else
    let nHeightFirst := nHeight last - (DifficultyAdjustmentInterval params - 1) in
    if nHeightFirst <? 0 then Throw AssertFailed
    else
      first ← GetAncestor m pindexLast nHeightFirst;
      match first with
      | None => Throw AssertFailed
      | Some f => b ← deref m f; CalculateNextWorkRequired m pindexLast (bTime b) params
      end.

(** One of the two bounds of [PermittedDifficultyTransition]: the old target times
    a timespan, capped, and rounded to the compact format. *)
Definition transition_bound (params : Params) (old_nbits timespan : Z) : res base_uint :=
  let '(t, _, _) := SetCompact old_nbits in
  t ← uint_div (uint_mul32 t (u32 timespan)) (uint_of (nPowTargetTimespan params));
  let pow_limit := UintToArith256 (powLimit params) in
  c ← GetCompact false (if uint_gt t pow_limit then pow_limit else t);
  let '(bound, _, _) := SetCompact c in
  Ok bound.

(** [PermittedDifficultyTransition]. *)
Definition PermittedDifficultyTransition (params : Params) (height old_nbits new_nbits : Z) : res bool :=
  if allowMinDifficulty params height then Ok true
  else if Z.rem height (DifficultyAdjustmentInterval params) =? 0 then
    let smallest_timespan := Z.quot (nPowTargetTimespan params) 4 in
    let largest_timespan := nPowTargetTimespan params * 4 in
    let '(observed_new_target, _, _) := SetCompact new_nbits in
    maximum_new_target ← transition_bound params old_nbits largest_timespan;
    if uint_lt maximum_new_target observed_new_target then Ok false
    else
      minimum_new_target ← transition_bound params old_nbits smallest_timespan;
      if uint_gt minimum_new_target observed_new_target then Ok false else Ok true
  else if negb (old_nbits =? new_nbits) then Ok false
  else Ok true.

(** [DeriveTarget]. *)
Definition DeriveTarget (bits : Z) (pow_limit : uint256) : option base_uint :=
  let '(bnTarget, fNegative, fOverflow) := SetCompact bits in
  if fNegative || EqualTo bnTarget 0 || fOverflow || uint_gt bnTarget (UintToArith256 pow_limit)
  then None else Some bnTarget.

(** [CheckProofOfWorkImpl]. *)
Definition CheckProofOfWorkImpl (hash : uint256) (bits : Z) (params : Params) : bool :=
  match DeriveTarget bits (powLimit params) with
  | None => false
  | Some bnTarget => negb (uint_gt (UintToArith256 hash) bnTarget)
  end.

(** [CheckProofOfWork]; [fuzz] is [EnableFuzzDeterminism()]. *)
Definition CheckProofOfWork (fuzz : bool) (hash : uint256) (bits : Z) (params : Params) : bool :=
  if fuzz then Z.land (Byte.byte.unsigned (nth 31 hash Byte.x00)) 0x80 =? 0
  else CheckProofOfWorkImpl hash bits params.

(** ** Issuance *)

Definition COIN : Z := 100000000.
Definition MAX_MONEY : Z := 21000000 * COIN.

(** [MoneyRange]. *)
Definition MoneyRange (nValue : Z) : bool := (0 <=? nValue) && (nValue <=? MAX_MONEY).

(** [GetBlockSubsidy]. *)
Definition GetBlockSubsidy (height : Z) (params : Params) : Z :=
  let halvings := Z.quot height (nSubsidyHalvingInterval params) in
  if 64 <=? halvings then 0 else Z.shiftr (5 * COIN) halvings.

(** ** What the code relies on *)

(** Parameters for which the arithmetic on timespans stays within its types. *)
Record params_ok (params : Params) : Prop := {
  limit_length : length (powLimit params) = 32%nat;
  spacing_pos : 0 < nPowTargetSpacing params;
  spacing_le : nPowTargetSpacing params <= nPowTargetTimespan params;
  timespan_ge : 4 <= nPowTargetTimespan params;
  timespan_lt : 4 * nPowTargetTimespan params < 2 ^ 32
}.

(** [powLimit] as a number. *)
Definition limit (params : Params) : Z := le_combine (powLimit params).

(** The timespan after the two limits of the adjustment step. *)
Definition clamp (params : Params) (ts : Z) : Z :=
  Z.min (Z.max ts (nPowTargetTimespan params / 4)) (nPowTargetTimespan params * 4).

(** The new target for an old one and a timespan, as it is computed: the product
    wraps around. *)
Definition retarget (params : Params) (base ts : Z) : Z :=
  compact_round (Z.min (limit params)
    ((compact_value base mod 2 ^ 256 * ts) mod 2 ^ 256 / nPowTargetTimespan params)).

(** The one that is meant. *)
Definition ideal_retarget (params : Params) (target ts : Z) : Z :=
  compact_round (Z.min (limit params) (target * ts / nPowTargetTimespan params)).

Lemma main_params_ok : params_ok main_params.
Proof. by constructor. Qed.

(** A compact value in normal form, and its number. *)
Definition compact_for (c v : Z) : Prop :=
  0 <= c < 2 ^ 32 /\ canonical_compact c = true /\ compact_value c = v.

Section retargeting.
Context (params : Params) (Hp : params_ok params).

Lemma limit_repr : repr (UintToArith256 (powLimit params)) (limit params).
Proof using Hp. apply UintToArith256_repr, Hp. Qed.

Lemma capped_compact t v : repr t v ->
  exists c, GetCompact false (if uint_gt t (UintToArith256 (powLimit params))
                              then UintToArith256 (powLimit params) else t) = Ok c /\
    compact_for c (compact_round (Z.min (limit params) v)).
Proof using Hp.
  intros Ht. rewrite (uint_gt_repr _ _ _ _ Ht limit_repr).
  destruct (Z.ltb_spec (limit params) v).
  - rewrite Z.min_l by lia. destruct (GetCompact_range _ _ limit_repr) as (c & E & H'). by exists c.
  - rewrite Z.min_r by lia. destruct (GetCompact_range _ _ Ht) as (c & E & H'). by exists c.
Qed.

(** The multiplication and the division. *)
Lemma scaled_target base ts : 0 <= base < 2 ^ 32 -> 0 <= ts < 2 ^ 32 ->
  exists n neg ov q, SetCompact base = (n, neg, ov) /\
    uint_div (uint_mul32 n (u32 ts)) (uint_of (nPowTargetTimespan params)) = Ok q /\
    repr q ((compact_value base mod 2 ^ 256 * ts) mod 2 ^ 256 / nPowTargetTimespan params).
Proof using Hp.
  intros Hb Hts. destruct (SetCompact_spec base Hb) as (n & E & Hn). do 3 eexists.
  rewrite u32_small by done. destruct Hp.
  pose proof (uint_of_repr (nPowTargetTimespan params) ltac:(lia)) as HT.
  destruct (uint_div_repr _ _ _ _ (uint_mul32_repr _ _ _ Hn Hts) HT) as (q & Eq & Hq); [lia|].
  exists q. by split.
Qed.

Lemma transition_bound_spec old ts : 0 <= old < 2 ^ 32 -> 0 <= ts < 2 ^ 32 ->
  exists b, transition_bound params old ts = Ok b /\ repr b (retarget params old ts).
Proof using Hp.
  intros Hb Hts. destruct (scaled_target old ts Hb Hts) as (n & neg & ov & q & E & Ed & Hq).
  unfold transition_bound. rewrite E, Ed. rbind.
  destruct (capped_compact q _ Hq) as (c & -> & Hc & Hcan & Hv). rbind.
  destruct (decode_canonical c Hc Hcan) as (b & -> & Hb' & _). exists b. split; [done|].
  unfold retarget. by rewrite <- Hv.
Qed.

Lemma quarter_bounds : 0 <= nPowTargetTimespan params / 4 <= nPowTargetTimespan params.
Proof using Hp.
  destruct Hp. split; [apply Z.div_pos; lia|]. apply Z.div_le_upper_bound; lia.
Qed.

Lemma clamp_eq ts :
  (let a := if ts <? Z.quot (nPowTargetTimespan params) 4
            then Z.quot (nPowTargetTimespan params) 4 else ts in
   if nPowTargetTimespan params * 4 <? a then nPowTargetTimespan params * 4 else a) = clamp params ts.
Proof using Hp.
  unfold clamp. pose proof quarter_bounds. destruct Hp.
  rewrite Z.quot_div_nonneg by lia. cbv zeta.
  destruct (Z.ltb_spec ts (nPowTargetTimespan params / 4)); repeat zcase; lia.
Qed.

Lemma clamp_bounds ts :
  nPowTargetTimespan params / 4 <= clamp params ts <= nPowTargetTimespan params * 4 /\
  0 <= clamp params ts < 2 ^ 32.
Proof using Hp.
  unfold clamp. pose proof quarter_bounds. destruct Hp. lia.
Qed.

(** The block whose target is scaled: the last one, or with BIP94 the first one
    of the period. *)
Definition base_bits (m : BlockMap) (h : uint256) (last : CBlockIndex) (base : Z) : Prop :=
  if enforce_BIP94 params
  then exists f bf, GetAncestor m h (nHeight last - (DifficultyAdjustmentInterval params - 1)) = Ok (Some f) /\
                    m !! f = Some bf /\ base = bBits bf
  else base = bBits last.

Lemma CalculateNextWorkRequired_spec m h last first base : m !! h = Some last ->
  fPowNoRetargeting params = false -> base_bits m h last base -> 0 <= base < 2 ^ 32 ->
  exists c, CalculateNextWorkRequired m h first params = Ok c /\
    compact_for c (retarget params base (clamp params (bTime last - first))).
Proof using Hp.
  intros Hl Hno Hbase Hb. unfold CalculateNextWorkRequired. rewrite (deref_Some _ _ _ Hl). rbind.
  rewrite Hno. cbv zeta. pose proof (clamp_eq (bTime last - first)) as Hcl. cbv zeta in Hcl.
  rewrite Hcl. clear Hcl.
  match goal with |- context [mbind _ (if _ then _ else _)] =>
    assert ((if enforce_BIP94 params then
               first0 ← GetAncestor m h (nHeight last - (DifficultyAdjustmentInterval params - 1));
               match first0 with None => Throw NullPointer | Some f => b ← deref m f; Ok (bBits b) end
             else Ok (bBits last)) = Ok base) as ->
  end.
  { unfold base_bits in Hbase. destruct (enforce_BIP94 params); [|by rewrite Hbase].
    destruct Hbase as (f & bf & -> & Hf & ->). rbind. by rewrite (deref_Some _ _ _ Hf). }
  rbind. destruct (clamp_bounds (bTime last - first)) as [_ Hts].
  destruct (scaled_target base _ Hb Hts) as (n & neg & ov & q & E & Ed & Hq).
  rewrite E, Ed. rbind. apply (capped_compact q _ Hq).
Qed.

(** Without a wrap-around the result is the one that is meant. *)
Lemma retarget_ideal base ts : 0 <= base ->
  compact_value base * (4 * nPowTargetTimespan params) < 2 ^ 256 ->
  0 <= ts <= 4 * nPowTargetTimespan params ->
  retarget params base ts = ideal_retarget params (compact_value base) ts.
Proof using Hp.
  intros Hb Hno Hts. pose proof (compact_value_nonneg base Hb). destruct Hp.
  unfold retarget, ideal_retarget. rewrite (Z.mod_small (compact_value base)) by nia.
  rewrite Z.mod_small by nia. done.
Qed.

Lemma ideal_retarget_mono target a b : 0 <= target -> 0 <= a <= b ->
  ideal_retarget params target a <= ideal_retarget params target b.
Proof using Hp.
  intros Ht Hab. destruct Hp. unfold ideal_retarget. apply compact_round_mono.
  pose proof (repr_bounds _ _ limit_repr).
  assert (0 <= target * a / nPowTargetTimespan params) by (apply Z.div_pos; nia).
  assert (target * a / nPowTargetTimespan params <= target * b / nPowTargetTimespan params)
    by (apply Z.div_le_mono; nia).
  lia.
Qed.
End retargeting.

(** ** The next required target *)

Section next_work.
Context (params : Params) (Hp : params_ok params).

Lemma interval_pos : 0 < DifficultyAdjustmentInterval params.
Proof using Hp.
  destruct Hp. unfold DifficultyAdjustmentInterval. rewrite Z.quot_div_nonneg by lia.
  apply Z.div_str_pos. lia.
Qed.

(** A block that ends the search of [last_non_special]. *)
Definition ordinary (lim : Z) (b : CBlockIndex) : Prop :=
  Z.rem (nHeight b) (DifficultyAdjustmentInterval params) = 0 \/ bBits b <> lim.

(** The search ends at the nearest ordinary block. *)
Lemma last_non_special_spec fuel m h b lim : index_ok m -> m !! h = Some b ->
  nHeight b <= Z.of_nat fuel ->
  exists n a ba, last_non_special fuel m params lim h = Ok (bBits ba) /\
    up m n h = Some a /\ m !! a = Some ba /\ ordinary lim ba /\
    forall k c bc, (k < n)%nat -> up m k h = Some c -> m !! c = Some bc -> ~ ordinary lim bc.
Proof using Hp.
  intros Hm. revert h b. induction fuel as [|fuel IH]; intros h b Hb Hf; cbn [last_non_special];
    rewrite (deref_Some _ _ _ Hb); rbind; destruct (Hm _ _ Hb) as (_ & _ & _ & H);
    destruct (pprev b) as [p|] eqn:Ep;
    try (destruct H as [H _]; exists 0%nat, h, b; split; [done|]; split; [done|]; split; [done|];
         split; [left; rewrite H; apply Z.rem_0_l; pose proof interval_pos; lia|]; intros; lia).
  all: destruct H as (b' & Hb' & H0 & E & _).
  all: destruct (Z.eqb_spec (Z.rem (nHeight b) (DifficultyAdjustmentInterval params)) 0) as [Er|Er];
    destruct (Z.eqb_spec (bBits b) lim) as [El|El]; cbn [negb andb];
    try (exists 0%nat, h, b; split; [done|]; split; [done|]; split; [done|];
         split; [unfold ordinary; tauto|]; intros; lia).
  { lia. }
  destruct (IH p b' Hb' ltac:(lia)) as (n & a & ba & E1 & U & La & Ho & Hk).
  exists (S n), a, ba. split; [done|]. split; [cbn [up]; by rewrite Hb, Ep|].
  split; [done|]. split; [done|]. intros [|k] c bc Hlt.
  - cbn [up]. intros [= <-] Hc [Ho'|Ho']; congruence.
  - cbn [up]. rewrite Hb, Ep. apply Hk. lia.
Qed.

(** What [GetNextWorkRequired] returns after the block [h], on each branch. *)
Definition next_work_result (m : BlockMap) (h : uint256) (last : CBlockIndex) (time c : Z) : Prop :=
  if negb (Z.rem (nHeight last + 1) (DifficultyAdjustmentInterval params) =? 0) then
    if allowMinDifficulty params (nHeight last + 1) then
      if bTime last + nPowTargetSpacing params * 2 <? time
      then compact_for c (compact_round (limit params))
      else exists lim n a ba, compact_for lim (compact_round (limit params)) /\
             up m n h = Some a /\ m !! a = Some ba /\ c = bBits ba /\ ordinary lim ba /\
             forall k d bd, (k < n)%nat -> up m k h = Some d -> m !! d = Some bd -> ~ ordinary lim bd
    else c = bBits last
  else exists f bf base,
    up m (Z.to_nat (DifficultyAdjustmentInterval params - 1)) h = Some f /\ m !! f = Some bf /\
    base = (if enforce_BIP94 params then bBits bf else bBits last) /\
    if fPowNoRetargeting params then c = bBits last
    else compact_for c (retarget params base (clamp params (bTime last - bTime bf))).

Lemma limit_compact : exists lim, GetCompact false (UintToArith256 (powLimit params)) = Ok lim /\
  compact_for lim (compact_round (limit params)).
Proof using Hp. apply GetCompact_range. by apply limit_repr. Qed.

Lemma GetNextWorkRequired_spec m h last pblock : index_ok m -> m !! h = Some last ->
  exists c, GetNextWorkRequired m h pblock params = Ok c /\ 0 <= c < 2 ^ 32 /\
    next_work_result m h last (nTime pblock) c.
Proof using Hp.
  intros Hm Hl. unfold GetNextWorkRequired, next_work_result.
  destruct limit_compact as (lim & -> & Hlim). rbind. rewrite (deref_Some _ _ _ Hl). rbind.
  destruct (Hm _ _ Hl) as (_ & Hbl & _ & _).
  pose proof (index_height _ _ _ Hm Hl) as H0. pose proof interval_pos as Hi.
  destruct (Z.eqb_spec (Z.rem (nHeight last + 1) (DifficultyAdjustmentInterval params)) 0) as [Er|Er];
    cbn [negb].
  - apply Z.rem_divide in Er; [|lia].
    apply Z.divide_pos_le in Er as Hle; [|lia].
    rewrite (proj2 (Z.ltb_ge _ 0)) by lia.
    destruct (GetAncestor_total m h last (nHeight last - (DifficultyAdjustmentInterval params - 1)) Hm Hl)
      as (f & bf & Ef & Lf & Hf); [lia|].
    rewrite Ef. rbind. rewrite (deref_Some _ _ _ Lf). rbind.
    destruct (Hm _ _ Lf) as (_ & Hbf & _ & _).
    assert (up m (Z.to_nat (DifficultyAdjustmentInterval params - 1)) h = Some f) as Uf.
    { rewrite (GetAncestor_spec _ _ _ _ Hm Hl) in Ef.
      rewrite (proj2 (Z.ltb_ge _ _)), (proj2 (Z.ltb_ge _ 0)) in Ef by lia. cbn [orb] in Ef.
      replace (nHeight last - (nHeight last - (DifficultyAdjustmentInterval params - 1)))
        with (DifficultyAdjustmentInterval params - 1) in Ef by lia. congruence. }
    destruct (fPowNoRetargeting params) eqn:Hno.
    { exists (bBits last). unfold CalculateNextWorkRequired. rewrite (deref_Some _ _ _ Hl). rbind.
      rewrite Hno. split; [done|]. split; [done|]. eexists _, _, _. repeat split; done. }
    destruct (CalculateNextWorkRequired_spec params Hp m h last (bTime bf)
                (if enforce_BIP94 params then bBits bf else bBits last) Hl Hno) as (c & -> & Hc).
    { unfold base_bits. destruct (enforce_BIP94 params); [by exists f, bf|done]. }
    { by destruct (enforce_BIP94 params). }
    exists c. split; [done|]. split; [apply Hc|]. by exists f, bf, (if enforce_BIP94 params then bBits bf else bBits last).
  - destruct (allowMinDifficulty params (nHeight last + 1)); [|by exists (bBits last)].
    destruct (_ <? nTime pblock); [exists lim; split; [done|]; split; [apply Hlim|done]|].
    destruct (last_non_special_spec (Z.to_nat (nHeight last)) m h last lim Hm Hl ltac:(lia))
      as (n & a & ba & E & U & La & Ho & Hk).
    exists (bBits ba). split; [done|]. destruct (Hm _ _ La) as (_ & Hba & _). split; [done|].
    by exists lim, n, a, ba.
Qed.

(** The result does not depend on entries that are added to the index, nor on
    other fields of the new header than its time. *)
Lemma last_non_special_mono fuel m m' h lim c : m ⊆ m' ->
  last_non_special fuel m params lim h = Ok c -> last_non_special fuel m' params lim h = Ok c.
Proof using Type.
  intros Hm. revert h. induction fuel as [|fuel IH]; intros h; cbn [last_non_special];
    destruct (deref m h) as [b|] eqn:E; try done; rewrite (deref_mono _ _ _ _ Hm E); rbind;
    destruct (pprev b); try done; destruct (_ && _); try done; apply IH.
Qed.

Lemma CalculateNextWorkRequired_mono m m' h first c : m ⊆ m' ->
  CalculateNextWorkRequired m h first params = Ok c ->
  CalculateNextWorkRequired m' h first params = Ok c.
Proof using Type.
  intros Hm. unfold CalculateNextWorkRequired.
  destruct (deref m h) as [last|] eqn:E; [|done]. rewrite (deref_mono _ _ _ _ Hm E). rbind.
  destruct (fPowNoRetargeting params); [done|]. destruct (enforce_BIP94 params); [|done].
  destruct (GetAncestor m h _) as [a|] eqn:Ea; [|done]. rewrite (GetAncestor_mono _ _ _ _ _ Hm Ea). rbind.
  destruct a as [f|]; [|done]. destruct (deref m f) as [bf|] eqn:Ef; [|done].
  by rewrite (deref_mono _ _ _ _ Hm Ef).
Qed.

Lemma GetNextWorkRequired_mono m m' h pblock pblock' c : m ⊆ m' -> nTime pblock = nTime pblock' ->
  GetNextWorkRequired m h pblock params = Ok c -> GetNextWorkRequired m' h pblock' params = Ok c.
Proof using Type.
  intros Hm Ht. unfold GetNextWorkRequired. rewrite Ht.
  destruct (GetCompact false _) as [lim|]; [|done]. rbind.
  destruct (deref m h) as [last|] eqn:E; [|done]. rewrite (deref_mono _ _ _ _ Hm E). rbind.
  destruct (negb _).
  - destruct (allowMinDifficulty _ _); [|done]. destruct (_ <? _); [done|]. by apply last_non_special_mono.
  - destruct (_ <? 0); [done|].
    destruct (GetAncestor m h _) as [a|] eqn:Ea; [|done]. rewrite (GetAncestor_mono _ _ _ _ _ Hm Ea). rbind.
    destruct a as [f|]; [|done]. destruct (deref m f) as [bf|] eqn:Ef; [|done].
    rewrite (deref_mono _ _ _ _ Hm Ef). by apply CalculateNextWorkRequired_mono.
Qed.

Lemma retarget_permitted old ts : 0 <= old < 2 ^ 32 ->
  compact_value old * (4 * nPowTargetTimespan params) < 2 ^ 256 ->
  retarget params old (nPowTargetTimespan params / 4) <= retarget params old (clamp params ts) /\
  retarget params old (clamp params ts) <= retarget params old (nPowTargetTimespan params * 4).
Proof using Hp.
  intros Ho Hno. destruct (clamp_bounds params Hp ts) as [Hc _].
  pose proof (quarter_bounds params Hp) as Hq. pose proof (compact_value_nonneg old ltac:(lia)).
  rewrite !(retarget_ideal params Hp) by lia.
  split; apply (ideal_retarget_mono params Hp); lia.
Qed.

(** The transition at a boundary. *)
Lemma boundary_transition height old c v : Z.rem height (DifficultyAdjustmentInterval params) = 0 ->
  allowMinDifficulty params height = false -> 0 <= old < 2 ^ 32 -> compact_for c v ->
  PermittedDifficultyTransition params height old c =
  Ok ((retarget params old (nPowTargetTimespan params / 4) <=? v) &&
      (v <=? retarget params old (nPowTargetTimespan params * 4))).
Proof using Hp.
  intros Hr Ha Ho (Hc & Hcan & <-). unfold PermittedDifficultyTransition. rewrite Ha, Hr. cbv zeta.
  destruct Hp. rewrite Z.quot_div_nonneg by lia. cbn [Z.eqb].
  destruct (decode_canonical c Hc Hcan) as (n & -> & Hn & _).
  destruct (transition_bound_spec params Hp old (nPowTargetTimespan params * 4) Ho ltac:(lia)) as (mx & -> & Hmx).
  pose proof (quarter_bounds params Hp).
  destruct (transition_bound_spec params Hp old (nPowTargetTimespan params / 4) Ho ltac:(lia)) as (mn & -> & Hmn).
  rbind. rewrite (uint_lt_repr _ _ _ _ Hmx Hn), (uint_gt_repr _ _ _ _ Hmn Hn).
  repeat zcase; cbn [andb]; try done; lia.
Qed.
End next_work.

(** ** Compact values in normal form are unique *)

Lemma compact_for_inj c c' v : compact_for c v -> compact_for c' v -> c = c'.
Proof.
  intros (Hc & Hcan & E) (Hc' & Hcan' & E').
  assert (forall d, 0 <= d -> canonical_compact d = true -> compact_value d = 0 -> d = 0) as Hz.
  { intros d Hd Hdc Ed. destruct (decide (d = 0)) as [|Hne]; [done|].
    destruct (canonical_compact_fields d Hd Hdc Hne) as (_ & _ & Hv & _). lia. }
  destruct (decide (c = 0)) as [->|Hn].
  { symmetry. apply Hz; [lia|done|]. rewrite E', <- E. done. }
  destruct (decide (c' = 0)) as [->|Hn'].
  { apply Hz; [lia|done|]. rewrite E, <- E'. done. }
  destruct (canonical_compact_fields c ltac:(lia) Hcan Hn) as (Es & Em & _).
  destruct (canonical_compact_fields c' ltac:(lia) Hcan' Hn') as (Es' & Em' & _).
  rewrite E in *. rewrite E' in *. pose proof (Z.div_mod c (2 ^ 24)). pose proof (Z.div_mod c' (2 ^ 24)).
  lia.
Qed.

(** ** The main network at its limit *)

Lemma main_limit : limit main_params = 0x7fffff * 2 ^ 224.
Proof. done. Qed.

(** At the limit the product keeps only the low 32 bits of [0x7fffff * ts]. *)
Lemma main_retarget_at_limit ts : 0 <= ts ->
  retarget main_params 0x1f7fffff ts = compact_round ((0x7fffff * ts) mod 2 ^ 32 * 2 ^ 224 / 120960) /\
  0 <= (0x7fffff * ts) mod 2 ^ 32 * 2 ^ 224 / 120960 < 35508 * 2 ^ 224.
Proof.
  intros Hts. pose proof (mod32_bounds (0x7fffff * ts)) as Hx.
  assert (0 <= (0x7fffff * ts) mod 2 ^ 32 * 2 ^ 224 / 120960 < 35508 * 2 ^ 224) as Hb.
  { split; [apply Z.div_pos; lia|]. apply Z.div_lt_upper_bound; lia. }
  split; [|done]. unfold retarget.
  change (compact_value 0x1f7fffff mod 2 ^ 256) with (0x7fffff * 2 ^ 224).
  change (nPowTargetTimespan main_params) with 120960.
  replace (0x7fffff * 2 ^ 224 * ts) with (0x7fffff * ts * 2 ^ 224) by lia.
  change (2 ^ 256) with (2 ^ 32 * 2 ^ 224). rewrite Z.mul_mod_distr_r by lia.
  rewrite main_limit, Z.min_r by lia. done.
Qed.

(** A number that rounds to a value of the format has its size. *)
Lemma compact_round_size v R : 0 < R < 2 ^ 256 -> compact_round v = R -> 0 <= v < 2 ^ 256 ->
  nbits (R + R / (2 ^ 15 - 1)) = nbits R -> csize v = csize R.
Proof.
  intros HR E Hv Hn. pose proof (compact_round_le v) as [Hr _]. pose proof (compact_round_error v Hv) as He.
  rewrite E in *. assert (v <= R + R / (2 ^ 15 - 1)) as Hle.
  { assert (v - R <= R / (2 ^ 15 - 1)); [|lia]. apply Z.div_le_lower_bound; lia. }
  pose proof (nbits_mono R v ltac:(lia)). pose proof (nbits_mono v (R + R / (2 ^ 15 - 1)) ltac:(lia)).
  unfold csize. rewrite !(proj2 (Z.eqb_neq _ 0)) by lia. do 2 f_equal. lia.
Qed.

(** ** Properties *)

(** C7: [GetNextWorkRequired] always returns a target, no assertion of it fails,
    and which one it is on each branch: at a boundary of periods the old target
    scaled by the time between the first and the last block of the period,
    clamped, capped and rounded; elsewhere, while the minimum-difficulty rule is
    on, the limit after a long gap and otherwise the target of the nearest
    ancestor that is a boundary or not at the limit; else the last one. *)
Theorem next_work_required (params : Params) (m : BlockMap) (h : uint256) (last : CBlockIndex)
    (pblock : CBlockHeader) : params_ok params -> index_ok m -> m !! h = Some last ->
  exists c, GetNextWorkRequired m h pblock params = Ok c /\ 0 <= c < 2 ^ 32 /\
    next_work_result params m h last (nTime pblock) c.
Proof. intros Hp. by apply GetNextWorkRequired_spec. Qed.

(** C26: the check that a synchronising node makes on targets accepts every target
    that validation requires, as long as the old target times the longest
    timespan stays below [2^256].  It is for networks that retarget, and from the
    last block of a period: [fPowNoRetargeting] and [enforce_BIP94] are false, as on
    the main network. *)
Theorem next_work_permitted (params : Params) (m : BlockMap) (h : uint256) (last : CBlockIndex)
    (pblock : CBlockHeader) : params_ok params -> index_ok m -> m !! h = Some last ->
  enforce_BIP94 params = false -> fPowNoRetargeting params = false ->
  compact_value (bBits last) * (4 * nPowTargetTimespan params) < 2 ^ 256 ->
  exists c, GetNextWorkRequired m h pblock params = Ok c /\
    PermittedDifficultyTransition params (nHeight last + 1) (bBits last) c = Ok true.
Proof.
  intros Hp Hm Hl H94 Hno Hov.
  destruct (GetNextWorkRequired_spec params Hp m h last pblock Hm Hl) as (c & E & _ & Hc).
  exists c. split; [done|]. destruct (Hm _ _ Hl) as (_ & Hbl & _).
  destruct (allowMinDifficulty params (nHeight last + 1)) eqn:Ha.
  { unfold PermittedDifficultyTransition. by rewrite Ha. }
  unfold next_work_result in Hc. rewrite Ha, H94, Hno in Hc.
  destruct (Z.eqb_spec (Z.rem (nHeight last + 1) (DifficultyAdjustmentInterval params)) 0) as [Er|Er];
    cbn [negb] in Hc.
  - destruct Hc as (f & bf & base & _ & _ & -> & Hc).
    rewrite (boundary_transition params Hp _ _ _ _ Er Ha Hbl Hc).
    destruct (retarget_permitted params Hp (bBits last) (bTime last - bTime bf) Hbl Hov).
    by rewrite !(proj2 (Z.leb_le _ _)) by done.
  - subst c. unfold PermittedDifficultyTransition.
    by rewrite Ha, (proj2 (Z.eqb_neq _ 0) Er), Z.eqb_refl.
Qed.

(** C24: on the main network, when the last block of a period is at the limit, the
    product of the retarget wraps around: whatever the time was, the next target
    is at least 236 times smaller than the limit. *)
Theorem escape_at_boundary (m : BlockMap) (h : uint256) (last : CBlockIndex) (first : Z) :
  m !! h = Some last -> bBits last = 0x1f7fffff ->
  exists c, CalculateNextWorkRequired m h first main_params = Ok c /\
    compact_value c * 236 <= limit main_params.
Proof.
  intros Hl Hb.
  destruct (CalculateNextWorkRequired_spec main_params main_params_ok m h last first (bBits last) Hl)
    as (c & E & _ & _ & Ev); [done|done|rewrite Hb; lia|].
  exists c. split; [done|]. rewrite Ev, Hb.
  destruct (clamp_bounds main_params main_params_ok (bTime last - first)) as [_ Hts].
  destruct (main_retarget_at_limit (clamp main_params (bTime last - first)) ltac:(lia)) as [-> Hv].
  pose proof (compact_round_le ((0x7fffff * clamp main_params (bTime last - first)) mod 2 ^ 32 * 2 ^ 224 / 120960)).
  rewrite main_limit. lia.
Qed.

(** C34: the target 0x1e7c9c07, seen on the main network at height 10080 after a
    block at the limit, is what the code computes for exactly one length of the
    period, 132044 seconds. *)
Theorem target_of_height_10080 (m : BlockMap) (h : uint256) (last : CBlockIndex) (first : Z) :
  m !! h = Some last -> bBits last = 0x1f7fffff ->
  CalculateNextWorkRequired m h first main_params = Ok 0x1e7c9c07 <-> bTime last - first = 132044.
Proof.
  intros Hl Hb.
  destruct (CalculateNextWorkRequired_spec main_params main_params_ok m h last first (bBits last) Hl)
    as (c & -> & Hc); [done|done|rewrite Hb; lia|]. rewrite Hb in Hc. split.
  - intros [= ->]. destruct Hc as (_ & _ & Ev).
    destruct (clamp_bounds main_params main_params_ok (bTime last - first)) as [Hts Hts'].
    assert (clamp main_params (bTime last - first) = 132044 -> bTime last - first = 132044) as Hcl.
    { unfold clamp. change (nPowTargetTimespan main_params) with 120960.
      change (120960 / 4) with 30240. lia. }
    apply Hcl. clear Hcl. change (nPowTargetTimespan main_params) with 120960 in Hts.
    set (ts := clamp main_params (bTime last - first)) in *. clearbody ts.
    destruct (main_retarget_at_limit ts ltac:(lia)) as [Er Hv]. rewrite Er in Ev.
    set (v := (0x7fffff * ts) mod 2 ^ 32 * 2 ^ 224 / 120960) in *.
    change (compact_value 0x1e7c9c07) with (0x7c9c07 * 2 ^ 216) in Ev. symmetry in Ev.
    pose proof (compact_round_size v (0x7c9c07 * 2 ^ 216) ltac:(lia) Ev ltac:(lia) eq_refl) as Es.
    pose proof (compact_round_le v) as Hr. unfold cunit in Hr. rewrite Ev, Es in Hr.
    change (2 ^ (8 * Z.max 0 (csize (0x7c9c07 * 2 ^ 216) - 3))) with (2 ^ 216) in Hr.
    assert (0x7c9c07 * 120960 <= (0x7fffff * ts) mod 2 ^ 32 * 2 ^ 8 < 0x7c9c08 * 120960) as Hx.
    { unfold v in Hr. pose proof (Z.div_mod ((0x7fffff * ts) mod 2 ^ 32 * 2 ^ 224) 120960 ltac:(lia)).
      pose proof (Z.mod_pos_bound ((0x7fffff * ts) mod 2 ^ 32 * 2 ^ 224) 120960 ltac:(lia)). lia. }
    change (120960 / 4) with 30240 in Hts. pose proof (Z.div_mod (0x7fffff * ts) (2 ^ 32) ltac:(lia)) as Hd.
    set (k := 0x7fffff * ts / 2 ^ 32) in *. set (x := (0x7fffff * ts) mod 2 ^ 32) in *. clearbody k x.
    clear - Hts Hx Hd. lia.
  - intros E. rewrite E in Hc. f_equal. apply (compact_for_inj _ _ _ Hc). by vm_compute.
Qed.

(** C25: on the main network, once the minimum-difficulty rule has ended, the
    check of a synchronising node rejects a target that validation requires:
    after a block at the limit, for every period whose length is 1 modulo 512. *)
Theorem required_target_rejected (m : BlockMap) (h : uint256) (last : CBlockIndex) (first : Z) :
  m !! h = Some last -> bBits last = 0x1f7fffff ->
  150000 <= nHeight last + 1 -> Z.rem (nHeight last + 1) 2016 = 0 ->
  30240 <= bTime last - first <= 483840 -> (bTime last - first) mod 512 = 1 ->
  exists c, CalculateNextWorkRequired m h first main_params = Ok c /\
    PermittedDifficultyTransition main_params (nHeight last + 1) (bBits last) c = Ok false.
Proof.
  intros Hl Hb Hh Hr Hts Hmod.
  destruct (CalculateNextWorkRequired_spec main_params main_params_ok m h last first (bBits last) Hl)
    as (c & E & Hc); [done|done|rewrite Hb; lia|]. exists c. split; [done|].
  assert (clamp main_params (bTime last - first) = bTime last - first) as Hcl.
  { unfold clamp. change (nPowTargetTimespan main_params) with 120960.
    change (120960 / 4) with 30240. lia. }
  rewrite Hcl, Hb in Hc. rewrite Hb.
  erewrite (boundary_transition main_params main_params_ok (nHeight last + 1) 0x1f7fffff c);
    [|exact Hr| | |exact Hc].
  - rewrite (proj2 (Z.leb_gt _ _)); [done|].
    destruct (main_retarget_at_limit (bTime last - first) ltac:(lia)) as [-> Hv].
    pose proof (compact_round_le ((0x7fffff * (bTime last - first)) mod 2 ^ 32 * 2 ^ 224 / 120960)) as [Hle _].
    apply (Z.le_lt_trans _ _ _ Hle). change (nPowTargetTimespan main_params / 4) with 30240.
    apply (Z.lt_le_trans _ (70 * 2 ^ 224)); [|by vm_compute].
    assert ((0x7fffff * (bTime last - first)) mod 2 ^ 32 = 2 ^ 23 - (bTime last - first)) as ->.
    { symmetry. apply Z.mod_unique with ((bTime last - first) / 512 - 0); [lia|].
      pose proof (Z.div_mod (bTime last - first) 512 ltac:(lia)). lia. }
    apply Z.div_lt_upper_bound; lia.
  - unfold allowMinDifficulty, stoicAwakeningActive. cbn [main_params fPowAllowMinDifficultyBlocks
      MinDifficultyActivationHeight StoicAwakeningEndHeight orb].
    rewrite (proj2 (Z.ltb_ge _ 150000)) by lia. cbn [Z.eqb orb]. apply andb_false_r.
  - lia.
Qed.

(** ** The proof-of-work check *)

Lemma DeriveTarget_spec bits params : params_ok params -> 0 <= bits < 2 ^ 32 ->
  match DeriveTarget bits (powLimit params) with
  | Some n => exists t, target_of bits = Some t /\ t <= limit params /\ repr n t
  | None => forall t, target_of bits = Some t -> limit params < t
  end.
Proof.
  intros Hp Hb. unfold DeriveTarget. destruct (SetCompact_spec bits Hb) as (n & -> & Hn).
  rewrite (EqualTo_repr _ _ 0 Hn), (uint_gt_repr _ _ _ _ Hn (limit_repr params Hp)) by lia.
  destruct (target_of bits) as [t|] eqn:Et.
  - destruct (target_of_Some bits t ltac:(lia) Et) as (-> & Ht & Ht1 & Hs).
    rewrite Z.mod_small in Hn |- * by lia. rewrite Hs, andb_false_r.
    rewrite (proj2 (Z.eqb_neq _ 0)), (proj2 (Z.leb_gt (2 ^ 256) _)) by lia. cbn [orb].
    destruct (Z.ltb_spec (limit params) (compact_value bits)).
    + intros t [= <-]. done.
    + eexists. split; [done|]. by split.
  - match goal with |- context [if ?c then _ else _] => assert (c = true) as -> end; [|done].
    revert Et. unfold target_of. destruct (Z.eqb_spec (compact_value bits) 0) as [->|]; [done|].
    destruct (Z.testbit bits 23); [done|]. cbn [negb andb orb].
    destruct (2 ^ 256 <=? compact_value bits); [|done]. by rewrite orb_true_r.
Qed.

(** A hash passes when it is at most the target, and the target at most the limit. *)
Lemma CheckProofOfWorkImpl_spec hash bits params : params_ok params -> length hash = 32%nat ->
  0 <= bits < 2 ^ 32 ->
  CheckProofOfWorkImpl hash bits params = true <->
  exists t, target_of bits = Some t /\ t <= limit params /\ le_combine hash <= t.
Proof.
  intros Hp Hl Hb. unfold CheckProofOfWorkImpl. pose proof (DeriveTarget_spec bits params Hp Hb) as H.
  destruct (DeriveTarget bits (powLimit params)) as [n|].
  - destruct H as (t & Et & Ht & Hn). rewrite (uint_gt_repr _ _ _ _ (UintToArith256_repr hash Hl) Hn).
    destruct (Z.ltb_spec t (le_combine hash)); cbn [negb]; split; try done.
    + intros (t' & E & _ & Hle). assert (t' = t) by congruence. lia.
    + intros _. by exists t.
  - split; [done|]. intros (t & Et & Ht & _). specialize (H t Et). lia.
Qed.

(** ** The supply *)

(** The coins of all blocks below a height. *)
Fixpoint issued (params : Params) (n : nat) : Z :=
  match n with
  | O => 0
  | S h => issued params h + GetBlockSubsidy (Z.of_nat h) params
  end.

(** The reward of one block of era [i], and the sum of them over the eras. *)
Definition era_subsidy (i : Z) : Z := if 64 <=? i then 0 else Z.shiftr (5 * COIN) i.

Fixpoint eras (k : nat) : Z :=
  match k with O => 0 | S i => eras i + era_subsidy (Z.of_nat i) end.

Lemma era_subsidy_bounds i : 0 <= i -> 0 <= era_subsidy i <= 5 * COIN.
Proof.
  intros Hi. unfold era_subsidy. destruct (64 <=? i); [unfold COIN; lia|].
  rewrite Z.shiftr_div_pow2 by done. assert (0 < 2 ^ i) by (apply Z.pow_pos_nonneg; lia).
  split; [apply Z.div_pos; unfold COIN; lia|]. apply Z.div_le_upper_bound; unfold COIN; lia.
Qed.

(** After 29 halvings nothing is left. *)
Lemma era_subsidy_ends i : 29 <= i -> era_subsidy i = 0.
Proof.
  intros Hi. unfold era_subsidy. destruct (64 <=? i); [done|].
  rewrite Z.shiftr_div_pow2 by lia. apply Z.div_small. split; [unfold COIN; lia|].
  apply (Z.lt_le_trans _ (2 ^ 29)); [unfold COIN; lia|]. apply Z.pow_le_mono_r; lia.
Qed.

Lemma eras_S k : eras (S k) = eras k + era_subsidy (Z.of_nat k).
Proof. done. Qed.

Lemma eras_le k : eras k <= eras 29 /\ ((29 <= k)%nat -> eras k = eras 29).
Proof.
  assert (forall j, eras (29 + j) = eras 29) as Hc.
  { induction j as [|j IH]; [done|]. rewrite Nat.add_succ_r, eras_S, IH.
    rewrite era_subsidy_ends by lia. lia. }
  assert (forall j i, eras i <= eras (j + i)) as Hm.
  { induction j as [|j IH]; intros i; [done|]. rewrite Nat.add_succ_l, eras_S.
    pose proof (era_subsidy_bounds (Z.of_nat (j + i)) ltac:(lia)). specialize (IH i). lia. }
  split.
  - destruct (decide (k <= 29)%nat).
    + replace 29%nat with (29 - k + k)%nat by lia. apply Hm.
    + replace k with (29 + (k - 29))%nat by lia. by rewrite Hc.
  - intros Hk. replace k with (29 + (k - 29))%nat by lia. apply Hc.
Qed.

(** Whole eras, and the blocks of the last one. *)
Lemma issued_eras params n : 0 < nSubsidyHalvingInterval params ->
  let I := nSubsidyHalvingInterval params in
  issued params n = I * eras (Z.to_nat (Z.of_nat n / I)) +
                    Z.of_nat n mod I * era_subsidy (Z.of_nat n / I).
Proof.
  intros HI I. fold I in HI. induction n as [|n IH].
  { cbn [issued]. rewrite Z.div_0_l, Z.mod_0_l by lia. change (eras (Z.to_nat 0)) with 0. lia. }
  cbn [issued]. rewrite IH. unfold GetBlockSubsidy. fold I. rewrite Z.quot_div_nonneg by lia.
  fold (era_subsidy (Z.of_nat n / I)). rewrite Nat2Z.inj_succ.
  pose proof (Z.div_mod (Z.of_nat n) I ltac:(lia)) as Hd.
  pose proof (Z.mod_pos_bound (Z.of_nat n) I HI) as Hm.
  assert (0 <= Z.of_nat n / I) by (apply Z.div_pos; lia).
  set (q := Z.of_nat n / I) in *. set (r := Z.of_nat n mod I) in *.
  destruct (decide (r + 1 < I)) as [Hlt|Hge].
  - assert (Z.succ (Z.of_nat n) / I = q) as -> by (symmetry; apply Z.div_unique with (r + 1); lia).
    assert (Z.succ (Z.of_nat n) mod I = r + 1) as -> by (symmetry; apply Z.mod_unique with q; lia).
    lia.
  - assert (Z.succ (Z.of_nat n) / I = q + 1) as -> by (symmetry; apply Z.div_unique with 0; lia).
    assert (Z.succ (Z.of_nat n) mod I = 0) as -> by (symmetry; apply Z.mod_unique with (q + 1); lia).
    replace (Z.to_nat (q + 1)) with (S (Z.to_nat q)) by lia. rewrite eras_S, Z2Nat.id by lia.
    replace I with (r + 1) by lia. lia.
Qed.

(** C33: every subsidy is a valid amount; the sum of all of them is bounded, and from
    height 60969600 on it is that bound, 21023999.726688 coins, which is above
    the 21000000 coins of [MAX_MONEY]. *)
Theorem supply (n : nat) :
  MoneyRange (GetBlockSubsidy (Z.of_nat n) main_params) = true /\
  issued main_params n <= 2102399972668800 /\
  (60969600 <= Z.of_nat n -> issued main_params n = 2102399972668800) /\
  MAX_MONEY < 2102399972668800.
Proof.
  change 2102399972668800 with (2102400 * eras 29).
  assert (0 <= Z.of_nat n / 2102400) as Hq by (apply Z.div_pos; lia).
  pose proof (era_subsidy_bounds (Z.of_nat n / 2102400) Hq) as Hs.
  pose proof (issued_eras main_params n ltac:(done)) as E. cbv zeta in E.
  change (nSubsidyHalvingInterval main_params) with 2102400 in E.
  pose proof (Z.mod_pos_bound (Z.of_nat n) 2102400 ltac:(lia)) as Hm. repeat split.
  - unfold GetBlockSubsidy. change (nSubsidyHalvingInterval main_params) with 2102400.
    rewrite Z.quot_div_nonneg by lia. fold (era_subsidy (Z.of_nat n / 2102400)).
    unfold MoneyRange. rewrite !(proj2 (Z.leb_le _ _)); [done|unfold MAX_MONEY, COIN in *; lia|lia].
  - pose proof (proj1 (eras_le (S (Z.to_nat (Z.of_nat n / 2102400))))) as Hle.
    rewrite eras_S, Z2Nat.id in Hle by lia. nia.
  - intros Hn. assert (29 <= Z.of_nat n / 2102400) by (apply Z.div_le_lower_bound; lia).
    rewrite E, era_subsidy_ends, (proj2 (eras_le _)) by lia. lia.
Qed.

(** ** Examples *)

(** An index of one block without a parent. *)
Definition one_block (height time bits : Z) : BlockMap :=
  {[uint256_hex 1 := {| pprev := None; pskip := None; nHeight := height; nChainWork := uint_zero;
                        nTimeMax := time; bVersion := 4; bMerkleRoot := uint256_hex 0;
                        bTime := time; bBits := bits; bNonce := 0 |}]}.

Lemma one_block_ok time bits : 0 <= time < 2 ^ 32 -> 0 <= bits < 2 ^ 32 -> index_ok (one_block 0 time bits).
Proof.
  intros Ht Hb. apply map_Forall_singleton. split; [done|]. split; [done|].
  split; [apply repr_zero|done].
Qed.

(** Every block is a boundary, and there is no exception. *)
Definition every_block_params : Params :=
  {| hashGenesisBlock := uint256_hex 1; nSubsidyHalvingInterval := 150;
     BIP34Height := 1; BIP65Height := 1; BIP66Height := 1; powLimit := powLimit main_params;
     fPowAllowMinDifficultyBlocks := false; enforce_BIP94 := false; fPowNoRetargeting := false;
     MinDifficultyActivationHeight := -1; StoicAwakeningEndHeight := -1;
     nPowTargetSpacing := 60; nPowTargetTimespan := 60 |}.

Lemma next_work_required_witness :
  exists c, GetNextWorkRequired (one_block 0 1781164284 0x1d7fffff) (uint256_hex 1) main_genesis main_params = Ok c.
Proof.
  destruct (next_work_required main_params (one_block 0 1781164284 0x1d7fffff) (uint256_hex 1) _ main_genesis
    main_params_ok (one_block_ok 1781164284 0x1d7fffff ltac:(lia) ltac:(lia)) (lookup_singleton_eq _ _))
    as (c & E & _). by exists c.
Defined.

Lemma next_work_permitted_witness :
  exists c, GetNextWorkRequired (one_block 0 1781164284 0x1d7fffff) (uint256_hex 1) main_genesis every_block_params = Ok c /\
    PermittedDifficultyTransition every_block_params 1 0x1d7fffff c = Ok true.
Proof.
  apply (next_work_permitted every_block_params (one_block 0 1781164284 0x1d7fffff) (uint256_hex 1) _ main_genesis
    ltac:(by constructor) (one_block_ok 1781164284 0x1d7fffff ltac:(lia) ltac:(lia)) (lookup_singleton_eq _ _)
    eq_refl eq_refl). by vm_compute.
Defined.

Lemma escape_at_boundary_witness :
  exists c, CalculateNextWorkRequired (one_block 2015 1781300000 0x1f7fffff) (uint256_hex 1) 1781164284 main_params = Ok c /\
    compact_value c * 236 <= limit main_params.
Proof.
  apply (escape_at_boundary (one_block 2015 1781300000 0x1f7fffff) (uint256_hex 1) _ 1781164284
    (lookup_singleton_eq _ _) eq_refl).
Defined.

Lemma target_of_height_10080_witness :
  CalculateNextWorkRequired (one_block 10079 1781132044 0x1f7fffff) (uint256_hex 1) 1781000000 main_params =
  Ok 0x1e7c9c07.
Proof.
  apply (target_of_height_10080 (one_block 10079 1781132044 0x1f7fffff) (uint256_hex 1) _ 1781000000
    (lookup_singleton_eq _ _) eq_refl). reflexivity.
Defined.

Lemma required_target_rejected_witness :
  exists c, CalculateNextWorkRequired (one_block 151199 1781030721 0x1f7fffff) (uint256_hex 1) 1781000000 main_params = Ok c /\
    PermittedDifficultyTransition main_params 151200 0x1f7fffff c = Ok false.
Proof.
  apply (required_target_rejected (one_block 151199 1781030721 0x1f7fffff) (uint256_hex 1) _ 1781000000
    (lookup_singleton_eq _ _) eq_refl); by vm_compute.
Defined.
