(* ===== verification/Invalidation.v ===== *)
(** * Blocks that turn out to be invalid

    The status [BLOCK_FAILED_VALID] and the best header, from src/src/validation.cpp
    and src/src/rpc/blockchain.cpp: [SetBlockFailureFlags] and
    [ResetBlockFailureFlags], [InvalidChainFound] and [InvalidBlockFound],
    [RecalculateBestHeader], and the part of [ReconsiderBlock] that changes the
    block index.

    A loop over [m_block_index] visits the entries of an unordered map, so the
    operations take the order of the visits, [entries], as an argument; the
    theorems hold for every order.  The tip of the active chain is an argument too.
    Not modelled are [m_best_invalid], which is for warnings and the recovery from
    snapshots, and the candidates for the active chain. *)

From stdpp Require Import gmap.
From S2P Require Import Prelude Uint256 Chain.

(** The part of [ChainstateManager] that is modelled: the block manager with
    [m_best_header], and the entries whose status has [BLOCK_FAILED_VALID]. *)
Record Chainman := MkChainman {
  m_blockman : BlockManager;
  failed : gset uint256
}.

(** ** Operations *)

(** [block.GetAncestor(height) == p]. *)
Definition has_ancestor (m : BlockMap) (p : uint256) (height : Z) (block : uint256) : res bool :=
  a ← GetAncestor m block height;
  Ok (bool_decide (a = Some p)).

(** The loop of [SetBlockFailureFlags]. *)
Fixpoint flag_loop (m : BlockMap) (invalid_block : uint256) (height : Z) (entries : list uint256)
    (flags : gset uint256) : res (gset uint256) :=
  match entries with
  | [] => Ok flags
  | x :: entries =>
    hit ← (if decide (invalid_block = x) then Ok false else has_ancestor m invalid_block height x);
    flag_loop m invalid_block height entries (if (hit : bool) then {[x]} ∪ flags else flags)
  end.

(** [Chainstate::SetBlockFailureFlags]: all descendants fail, the block itself is
    left as it is. *)
Definition SetBlockFailureFlags (entries : list uint256) (s : Chainman) (invalid_block : uint256) : res Chainman :=
  let m := m_block_index (m_blockman s) in
  b ← deref m invalid_block;
  flags ← flag_loop m invalid_block (nHeight b) entries (failed s);
  Ok {| m_blockman := m_blockman s; failed := flags |}.

(** The loop of [ResetBlockFailureFlags]. *)
Fixpoint reset_loop (m : BlockMap) (pindex : uint256) (height : Z) (entries : list uint256)
    (flags : gset uint256) : res (gset uint256) :=
  match entries with
  | [] => Ok flags
  | x :: entries =>
    hit ← (if decide (x ∈ flags)
           then down ← has_ancestor m pindex height x;
                if (down : bool) then Ok true else b ← deref m x; has_ancestor m x (nHeight b) pindex
           else Ok false);
    reset_loop m pindex height entries (if (hit : bool) then flags ∖ {[x]} else flags)
  end.

(** [Chainstate::ResetBlockFailureFlags]: the block, its descendants and its
    ancestors are cleared. *)
Definition ResetBlockFailureFlags (entries : list uint256) (s : Chainman) (pindex : uint256) : res Chainman :=
  let m := m_block_index (m_blockman s) in
  b ← deref m pindex;
  flags ← reset_loop m pindex (nHeight b) entries (failed s);
  Ok {| m_blockman := m_blockman s; failed := flags |}.

(** The loop of [RecalculateBestHeader]; [best] is [m_best_header]. *)
Fixpoint best_loop (m : BlockMap) (flags : gset uint256) (entries : list uint256) (best : option uint256)
    : res (option uint256) :=
  match entries with
  | [] => Ok best
  | x :: entries =>
    if decide (x ∈ flags) then best_loop m flags entries best
    else match best with
    | None => Throw NullPointer
    | Some h =>
      b ← deref m h;
      e ← deref m x;
      best_loop m flags entries (if uint_lt (nChainWork b) (nChainWork e) then Some x else best)
    end
  end.

(** [ChainstateManager::RecalculateBestHeader]. *)
Definition RecalculateBestHeader (entries : list uint256) (s : Chainman) (tip : option uint256) : res Chainman :=
  let m := m_block_index (m_blockman s) in
  best ← best_loop m (failed s) entries tip;
  Ok {| m_blockman := Manager m best; failed := failed s |}.

(** [Chainstate::InvalidChainFound]. *)
Definition InvalidChainFound (entries : list uint256) (s : Chainman) (tip : option uint256) (pindexNew : uint256)
    : res Chainman :=
  s ← SetBlockFailureFlags entries s pindexNew;
  let m := m_block_index (m_blockman s) in
  hit ← match best_header (m_blockman s) with
        | None => Ok false
        | Some best => b ← deref m pindexNew; has_ancestor m pindexNew (nHeight b) best
        end;
  s ← (if (hit : bool) then RecalculateBestHeader entries s tip else Ok s);
  match tip with None => Throw AssertFailed | Some _ => Ok s end.

(** [Chainstate::InvalidBlockFound]; [mutated] is the result [BLOCK_MUTATED]. *)
Definition InvalidBlockFound (entries : list uint256) (s : Chainman) (tip : option uint256) (pindex : uint256)
    (mutated : bool) : res Chainman :=
  if mutated then Ok s
  else InvalidChainFound entries {| m_blockman := m_blockman s; failed := {[pindex]} ∪ failed s |} tip pindex.

(** [ReconsiderBlock] up to the activation of the best chain, or [None] when the
    block is not found. *)
Definition ReconsiderBlock (entries : list uint256) (s : Chainman) (tip : option uint256) (block_hash : uint256)
    : res (option Chainman) :=
  match m_block_index (m_blockman s) !! block_hash with
  | None => Ok None
  | Some _ =>
    s ← ResetBlockFailureFlags entries s block_hash;
    s ← RecalculateBestHeader entries s tip;
    Ok (Some s)
  end.

(** ** What the status promises *)

(** An enumeration of the entries, in any order. *)
Definition enumerates (m : BlockMap) (entries : list uint256) : Prop :=
  forall x, x ∈ entries <-> is_Some (m !! x).

(** The keys in the order of the map. *)
Definition keys (m : BlockMap) : list uint256 := (map_to_list m).*1.

Lemma enumerates_keys m : enumerates m (keys m).
Proof.
  intros x. unfold keys. rewrite list_elem_of_fmap. split.
  - intros ((y & b) & -> & H%elem_of_map_to_list). by eexists.
  - intros [b H]. exists (x, b). split; [done|]. by apply elem_of_map_to_list.
Qed.

(** The best header is not marked as failed, and no entry that is not marked has
    more work. *)
Definition is_best (s : Chainman) : Prop :=
  exists h b, best_header (m_blockman s) = Some h /\ m_block_index (m_blockman s) !! h = Some b /\ (h ∉ failed s) /\
    forall h' b', m_block_index (m_blockman s) !! h' = Some b' -> h' ∉ failed s ->
      eval (nChainWork b') <= eval (nChainWork b).

(** The marks are on entries, and on every child of a marked entry. *)
Record marks_ok (m : BlockMap) (flags : gset uint256) : Prop := {
  marks_known : forall h, h ∈ flags -> is_Some (m !! h);
  marks_closed : forall h b p, m !! h = Some b -> pprev b = Some p -> p ∈ flags -> h ∈ flags
}.

Record status_ok (s : Chainman) : Prop := {
  st_marks : marks_ok (m_block_index (m_blockman s)) (failed s);
  st_best : is_best s
}.

(** ** Lemmas *)

Section status.
Context (m : BlockMap) (Hm : index_ok m).

Lemma has_ancestor_spec p bp x : m !! p = Some bp -> is_Some (m !! x) ->
  exists hit, has_ancestor m p (nHeight bp) x = Ok hit /\ (hit = true <-> ancestor_of m p x).
Proof using Hm.
  intros Hp [bx Hx]. unfold has_ancestor. rewrite (GetAncestor_spec _ _ _ _ Hm Hx). rbind.
  eexists. split; [done|]. rewrite bool_decide_eq_true. pose proof (index_height _ _ _ Hm Hp).
  split.
  - destruct (_ || _); [done|]. intros U. by eexists.
  - intros Ha. destruct (ancestor_height m p x bx Hm Hx Ha) as (b & Hb & Hle & U).
    assert (b = bp) as -> by congruence.
    by rewrite (proj2 (Z.ltb_ge _ _)), (proj2 (Z.ltb_ge _ 0)) by lia.
Qed.

(** An ancestor of an entry is an entry. *)
Lemma ancestor_known x h : ancestor_of m x h -> is_Some (m !! h) -> is_Some (m !! x).
Proof using Hm. intros Ha [b Hb]. destruct (ancestor_height m x h b Hm Hb Ha) as (? & ? & _). by eexists. Qed.

(** Being an ancestor of an entry is being it, or an ancestor of its parent. *)
Lemma ancestor_child h b p x : m !! h = Some b -> pprev b = Some p ->
  ancestor_of m x h <-> x = h \/ ancestor_of m x p.
Proof using Type.
  intros Hb Hp. split.
  - intros [[|n] U]; cbn [up] in U; [left; congruence|]. rewrite Hb, Hp in U. right. by exists n.
  - intros [->|[n U]]; [apply ancestor_refl|]. exists (S n). cbn [up]. by rewrite Hb, Hp.
Qed.

(** Marks reach all descendants. *)
Lemma marks_down flags p x : marks_ok m flags -> p ∈ flags -> ancestor_of m p x -> x ∈ flags.
Proof using Type.
  intros Hf Hp [n U]. revert x U. induction n as [|n IH]; intros x U; cbn [up] in U; [congruence|].
  destruct (m !! x) as [b|] eqn:Hx; [|done]. destruct (pprev b) as [q|] eqn:Hq; [|done].
  apply (marks_closed m flags Hf x b q Hx Hq). by apply IH.
Qed.

Lemma flag_loop_spec p bp entries flags : m !! p = Some bp -> (forall x, x ∈ entries -> is_Some (m !! x)) ->
  exists flags', flag_loop m p (nHeight bp) entries flags = Ok flags' /\
    forall x, x ∈ flags' <-> x ∈ flags \/ x ∈ entries /\ x <> p /\ ancestor_of m p x.
Proof using Hm.
  intros Hp. revert flags. induction entries as [|x l IH]; intros flags Hl; cbn [flag_loop].
  { exists flags. split; [done|]. set_solver. }
  assert (exists hit, (if decide (p = x) then Ok false else has_ancestor m p (nHeight bp) x) = Ok hit /\
            (hit = true <-> x <> p /\ ancestor_of m p x)) as (hit & -> & Hhit).
  { case_decide as Hd; [exists false; split; [done|]; split; [done|]; intros [H _]; congruence|].
    destruct (has_ancestor_spec p bp x Hp ltac:(apply Hl; set_solver)) as (hit & E & H). exists hit. split; [done|].
    rewrite H. split; [|tauto]. intros Ha. split; [congruence|done]. }
  rbind. destruct (IH (if hit then {[x]} ∪ flags else flags)) as (flags' & -> & H); [set_solver|].
  exists flags'. split; [done|]. intros y. rewrite H. destruct hit.
  - destruct (proj1 Hhit eq_refl). set_solver.
  - assert (~ (x <> p /\ ancestor_of m p x)) by (intros Hc; by apply Hhit in Hc). set_solver.
Qed.

Lemma reset_loop_spec p bp entries flags : m !! p = Some bp -> (forall x, x ∈ entries -> is_Some (m !! x)) ->
  exists flags', reset_loop m p (nHeight bp) entries flags = Ok flags' /\
    forall x, x ∈ flags' <-> x ∈ flags /\ ~ (x ∈ entries /\ (ancestor_of m p x \/ ancestor_of m x p)).
Proof using Hm.
  intros Hp. revert flags. induction entries as [|x l IH]; intros flags Hl; cbn [reset_loop].
  { exists flags. split; [done|]. set_solver. }
  assert (exists hit, (if decide (x ∈ flags)
      then down ← has_ancestor m p (nHeight bp) x;
           if (down : bool) then Ok true else b ← deref m x; has_ancestor m x (nHeight b) p
      else Ok false) = Ok hit /\ (hit = true <-> x ∈ flags /\ (ancestor_of m p x \/ ancestor_of m x p)))
    as (hit & -> & Hhit).
  { case_decide; [|exists false; split; [done|]; split; [done|tauto]].
    destruct (Hl x ltac:(set_solver)) as [bx Hx].
    destruct (has_ancestor_spec p bp x Hp ltac:(by eexists)) as (down & -> & Hd). rbind.
    destruct down; [exists true; split; [done|]; tauto|]. rewrite (deref_Some _ _ _ Hx). rbind.
    destruct (has_ancestor_spec x bx p Hx ltac:(by eexists)) as (hit & -> & Hh). exists hit. split; [done|].
    assert (~ ancestor_of m p x) by (intros Hc; by apply Hd in Hc). tauto. }
  rbind. destruct (IH (if hit then flags ∖ {[x]} else flags)) as (flags' & -> & H); [set_solver|].
  exists flags'. split; [done|]. intros y. rewrite H. destruct hit.
  - destruct (proj1 Hhit eq_refl). set_solver.
  - assert (~ (x ∈ flags /\ (ancestor_of m p x \/ ancestor_of m x p))) by (intros Hc; by apply Hhit in Hc). set_solver.
Qed.

Lemma best_loop_spec flags entries h b : m !! h = Some b -> h ∉ flags ->
  (forall x, x ∈ entries -> is_Some (m !! x)) ->
  exists h' b', best_loop m flags entries (Some h) = Ok (Some h') /\ m !! h' = Some b' /\ (h' ∉ flags) /\
    eval (nChainWork b) <= eval (nChainWork b') /\
    forall x e, x ∈ entries -> x ∉ flags -> m !! x = Some e -> eval (nChainWork e) <= eval (nChainWork b').
Proof using Hm.
  revert h b. induction entries as [|x l IH]; intros h b Hb Hh Hl; cbn [best_loop].
  { exists h, b. do 4 (split; [done|]). set_solver. }
  case_decide as Hx.
  { destruct (IH h b Hb Hh ltac:(set_solver)) as (h' & b' & -> & L & Hn & Hle & H).
    exists h', b'. do 4 (split; [done|]). intros y e [->|Hy]%elem_of_cons; [done|by apply H]. }
  destruct (Hl x ltac:(set_solver)) as [e He]. rewrite (deref_Some _ _ _ Hb), (deref_Some _ _ _ He). rbind.
  destruct (Hm _ _ Hb) as (_ & _ & Wb & _). destruct (Hm _ _ He) as (_ & _ & We & _).
  rewrite (uint_lt_repr _ _ (eval (nChainWork b)) (eval (nChainWork e))) by done.
  destruct (Z.ltb_spec (eval (nChainWork b)) (eval (nChainWork e))) as [Hlt|Hge].
  - destruct (IH x e He Hx ltac:(set_solver)) as (h' & b' & -> & L & Hn & Hle & H).
    exists h', b'. do 3 (split; [done|]). split; [lia|].
    intros y ey [->|Hy]%elem_of_cons Hny Ly; [simplify_eq; lia|by apply (H y)].
  - destruct (IH h b Hb Hh ltac:(set_solver)) as (h' & b' & -> & L & Hn & Hle & H).
    exists h', b'. do 3 (split; [done|]). split; [lia|].
    intros y ey [->|Hy]%elem_of_cons Hny Ly; [simplify_eq; lia|by apply (H y)].
Qed.
End status.

(** ** What the operations do *)

Section recalculation.
Context (s : Chainman) (entries : list uint256) (tip : uint256).
Abbreviation m := (m_block_index (m_blockman s)).
Context (Hm : index_ok m) (He : enumerates m entries) (Htip : is_Some (m !! tip)).

Lemma RecalculateBestHeader_spec : marks_ok m (failed s) -> tip ∉ failed s ->
  exists s', RecalculateBestHeader entries s (Some tip) = Ok s' /\
    m_block_index (m_blockman s') = m /\ failed s' = failed s /\ status_ok s'.
Proof using Hm He Htip.
  intros Hf Ht. unfold RecalculateBestHeader. destruct Htip as [bt Lt].
  destruct (best_loop_spec m Hm (failed s) entries tip bt Lt Ht) as (h & b & -> & Lb & Hn & _ & Hall).
  { intros x Hx. by apply He. }
  rbind. eexists. split; [done|]. do 2 (split; [done|]). split; [done|]. exists h, b.
  do 3 (split; [done|]). intros x e Lx Hx. apply (Hall x); [|done..]. apply He. by eexists.
Qed.

End recalculation.

Section invalid_chain.
Context (s : Chainman) (entries : list uint256) (tip : uint256).
Abbreviation m := (m_block_index (m_blockman s)).
Context (Hm : index_ok m) (He : enumerates m entries) (Htip : is_Some (m !! tip)).

(** [p] fails, its descendants may not be marked yet, and the best header may be
    one of them. *)
Lemma InvalidChainFound_spec p : p ∈ failed s ->
  (forall h, h ∈ failed s -> is_Some (m !! h)) ->
  (forall h b q, m !! h = Some b -> pprev b = Some q -> q ∈ failed s -> q <> p -> h ∈ failed s) ->
  (exists h b, best_header (m_blockman s) = Some h /\ m !! h = Some b /\ (h ∈ failed s -> ancestor_of m p h) /\
     forall h' b', m !! h' = Some b' -> h' ∉ failed s -> eval (nChainWork b') <= eval (nChainWork b)) ->
  tip ∉ failed s -> ~ ancestor_of m p tip ->
  exists s', InvalidChainFound entries s (Some tip) p = Ok s' /\ m_block_index (m_blockman s') = m /\
    (forall x, x ∈ failed s' <-> x ∈ failed s \/ is_Some (m !! x) /\ ancestor_of m p x) /\ status_ok s'.
Proof using Hm He Htip.
  intros Hp Hknown Hclosed (h & b & Eb & Lb & Hh & Hall) Ht Hnt. destruct (Hknown p Hp) as [bp Lp].
  unfold InvalidChainFound, SetBlockFailureFlags. rewrite (deref_Some _ _ _ Lp). rbind.
  destruct (flag_loop_spec m Hm p bp entries (failed s) Lp) as (flags & -> & Hflags).
  { intros x Hx. by apply He. }
  rbind. cbn [m_blockman]. rewrite Eb, (deref_Some _ _ _ Lp). rbind.
  assert (forall x, x ∈ flags <-> x ∈ failed s \/ is_Some (m !! x) /\ ancestor_of m p x) as Hx.
  { intros x. rewrite Hflags, (He x). destruct (decide (x = p)) as [->|]; [|tauto]. split; [tauto|]. by left. }
  assert (marks_ok m flags) as Hok.
  { split.
    - intros x [Hx1|[Hx1 _]]%Hx; [by apply Hknown|done].
    - intros y by_ q Ly Hq Hqf. apply Hx. apply Hx in Hqf as [Hqf|[_ Ha]].
      + destruct (decide (q = p)) as [->|Hne]; [|left; by apply (Hclosed y by_ q)]. right.
        split; [by eexists|]. apply (ancestor_child m y by_ p p Ly Hq). right. apply ancestor_refl.
      + right. split; [by eexists|]. apply (ancestor_child m y by_ q p Ly Hq). by right. }
  destruct (has_ancestor_spec m Hm p bp h Lp ltac:(by eexists)) as (hit & -> & Hhit). rbind. destruct hit.
  - destruct (RecalculateBestHeader_spec {| m_blockman := m_blockman s; failed := flags |} entries tip
                Hm He Htip Hok) as (s' & -> & Es & Ef & Hs').
    { by intros [?|[_ ?]]%Hx. }
    rbind. exists s'. rewrite Ef. done.
  - rbind. eexists. split; [done|]. split; [done|]. split; [exact Hx|]. split; [exact Hok|].
    assert (~ ancestor_of m p h) as Hna by (intros Hc; by apply Hhit in Hc).
    exists h, b. split; [done|]. split; [done|]. split; cbn [failed m_blockman].
    + rewrite Hx. intros [?|[_ ?]]; tauto.
    + intros x e Lx Hnx. apply (Hall x e Lx). intros Hc. apply Hnx, Hx. by left.
Qed.

(** Blocks above a failed one are failed already. *)
Lemma InvalidChainFound_again p : status_ok s -> p ∈ failed s -> tip ∉ failed s ->
  exists s', InvalidChainFound entries s (Some tip) p = Ok s' /\ m_block_index (m_blockman s') = m /\ status_ok s'.
Proof using Hm He Htip.
  intros [Hf (h & b & Eb & Lb & Hh & Hall)] Hp Ht.
  destruct (InvalidChainFound_spec p Hp (marks_known _ _ Hf)) as (s' & E & Es & _ & Hs'); [| |done| |by exists s'].
  - intros x bx q Lx Hq Hqf _. by apply (marks_closed _ _ Hf x bx q).
  - exists h, b. do 3 (split; [done|]). done.
  - intros Ha. apply Ht. by apply (marks_down m (failed s) p).
Qed.

End invalid_chain.

Section invalid_block.
Context (s : Chainman) (entries : list uint256) (tip : uint256).
Abbreviation m := (m_block_index (m_blockman s)).
Context (Hm : index_ok m) (He : enumerates m entries) (Htip : is_Some (m !! tip)).

(** The block and its descendants fail, and nothing else. *)
Lemma InvalidBlockFound_spec p mutated : status_ok s -> is_Some (m !! p) -> tip ∉ failed s -> ~ ancestor_of m p tip ->
  exists s', InvalidBlockFound entries s (Some tip) p mutated = Ok s' /\ m_block_index (m_blockman s') = m /\
    (forall x, x ∈ failed s' <-> x ∈ failed s \/ mutated = false /\ is_Some (m !! x) /\ ancestor_of m p x) /\
    status_ok s'.
Proof using Hm He Htip.
  intros Hs Hp Ht Hnt. unfold InvalidBlockFound. destruct mutated.
  { exists s. do 2 (split; [done|]). split; [|done]. intros x. split; [tauto|]. by intros [?|[? _]]. }
  destruct Hs as [Hf (h & b & Eb & Lb & Hh & Hall)].
  destruct (InvalidChainFound_spec {| m_blockman := m_blockman s; failed := {[p]} ∪ failed s |} entries tip
              Hm He Htip p) as (s' & E & Es & Hx & Hs'); cbn [m_blockman failed] in *.
  - set_solver.
  - intros x [->%elem_of_singleton|Hx]%elem_of_union; [done|by apply (marks_known _ _ Hf)].
  - intros x bx q Lx Hq Hqf Hne. apply elem_of_union. right. apply (marks_closed _ _ Hf x bx q Lx Hq). set_solver.
  - exists h, b. do 2 (split; [done|]). split; [|intros x e Lx Hnx; apply (Hall x e Lx); set_solver].
    intros [->%elem_of_singleton|?]%elem_of_union; [apply ancestor_refl|done].
  - intros [->%elem_of_singleton|?]%elem_of_union; [|done]. apply Hnt, ancestor_refl.
  - done.
  - exists s'. do 2 (split; [done|]). split; [|done]. intros x. rewrite Hx, elem_of_union, elem_of_singleton.
    split; [|tauto]. intros [[->|?]|?]; [right|tauto..]. split; [done|]. split; [done|]. apply ancestor_refl.
Qed.

(** The block, its ancestors and its descendants are cleared, and nothing else. *)
Lemma ReconsiderBlock_spec p : status_ok s -> tip ∉ failed s ->
  exists r, ReconsiderBlock entries s (Some tip) p = Ok r /\
    match r with
    | None => m !! p = None
    | Some s' => m_block_index (m_blockman s') = m /\ status_ok s' /\
        forall x, x ∈ failed s' <-> x ∈ failed s /\ ~ ancestor_of m p x /\ ~ ancestor_of m x p
    end.
Proof using Hm He Htip.
  intros [Hf _] Ht. unfold ReconsiderBlock. destruct (m !! p) as [bp|] eqn:Lp; [|by exists None].
  unfold ResetBlockFailureFlags. rewrite (deref_Some _ _ _ Lp). rbind.
  destruct (reset_loop_spec m Hm p bp entries (failed s) Lp) as (flags & -> & Hflags).
  { intros x Hx. by apply He. }
  rbind.
  assert (forall x, x ∈ flags <-> x ∈ failed s /\ ~ ancestor_of m p x /\ ~ ancestor_of m x p) as Hx.
  { intros x. rewrite Hflags, (He x). split; [|tauto]. intros [Hxf Hn].
    pose proof (marks_known _ _ Hf x Hxf). tauto. }
  assert (marks_ok m flags) as Hok.
  { split; [intros x [Hxf _]%Hx; by apply (marks_known _ _ Hf)|].
    intros y b_y q Ly Hq (Hqf & Hn1 & Hn2)%Hx. apply Hx. split; [by apply (marks_closed _ _ Hf y b_y q)|].
    rewrite (ancestor_child m y b_y q p Ly Hq). split.
    - intros [->|?]; [|done]. apply Hn2. apply (ancestor_child m y b_y q q Ly Hq). right. apply ancestor_refl.
    - intros Ha. apply Hn2. apply (ancestor_trans m q y p); [|done].
      apply (ancestor_child m y b_y q q Ly Hq). right. apply ancestor_refl. }
  destruct (RecalculateBestHeader_spec {| m_blockman := m_blockman s; failed := flags |} entries tip
              Hm He Htip Hok) as (s' & -> & Es & Ef & Hs').
  { by intros [? _]%Hx. }
  rbind. exists (Some s'). rewrite Ef. done.
Qed.
End invalid_block.
