(* ===== verification/Headers.v ===== *)
(** * Acceptance of block headers

    [CheckBlockHeader], [ContextualCheckBlockHeader] and
    [ChainstateManager::AcceptBlockHeader] of src/src/validation.cpp, and
    [GetMinimumTime] and [UpdateTime] of src/src/node/miner.cpp.

    The headers that peers send, in any order and with any clock, are the steps of a
    transition system on the block index, in which the marks of failed blocks and the
    best header change at will ([reachable]).  The invariant says what every entry of
    a reachable index satisfies.  In a second system ([maintained]) they change by the
    operations of Invalidation only; there they have an invariant too. *)

From stdpp Require Import gmap.
From S2P Require Import Prelude Uint256 Framing Chain Pow Invalidation.

(** The reasons of [state.Invalid]. *)
Inductive reject :=
  | high_hash
  | bad_diffbits
  | time_too_old
  | time_timewarp_attack
  | time_too_new
  | bad_version
  | duplicate_invalid
  | prev_blk_not_found
  | bad_prevblk
  | too_little_chainwork.

(** consensus/consensus.h and chain.h, in seconds. *)
Definition MAX_TIMEWARP : Z := 60.
Definition MAX_FUTURE_BLOCK_TIME : Z := 2 * 60 * 60.

Section validation.
Context {SHA : Sha256} (params : Params) (fuzz : bool).

(** [CheckBlockHeader]. *)
Definition CheckBlockHeader (block : CBlockHeader) (fCheckPOW : bool) : option reject :=
  if fCheckPOW && negb (CheckProofOfWork fuzz (GetHash block) (nBits block) params)
  then Some high_hash else None.

(** [ContextualCheckBlockHeader]; [now] is the clock in whole seconds. *)
Definition ContextualCheckBlockHeader (m : BlockMap) (now : Z) (block : CBlockHeader)
    (pindexPrev : uint256) : res (option reject) :=
  prev ← deref m pindexPrev;
  let height := nHeight prev + 1 in
  required ← GetNextWorkRequired m pindexPrev block params;
  if negb (nBits block =? required) then Ok (Some bad_diffbits)
  else
    mtp ← GetMedianTimePast m pindexPrev;
    if nTime block <=? mtp then Ok (Some time_too_old)
    else if enforce_BIP94 params && (Z.rem height (DifficultyAdjustmentInterval params) =? 0) &&
            (nTime block <? bTime prev - MAX_TIMEWARP) then Ok (Some time_timewarp_attack)
    else if now + MAX_FUTURE_BLOCK_TIME <? nTime block then Ok (Some time_too_new)
    else if ((nVersion block <? 2) && (BIP34Height params <=? height)) ||
            ((nVersion block <? 3) && (BIP66Height params <=? height)) ||
            ((nVersion block <? 4) && (BIP65Height params <=? height)) then Ok (Some bad_version)
    else Ok None.

(** [ChainstateManager::AcceptBlockHeader]: the state, and the entry or the
    reason of the rejection. *)
Definition AcceptBlockHeader (s : Chainman) (now : Z) (block : CBlockHeader) (min_pow_checked : bool)
    : res (Chainman * (uint256 + reject)) :=
  let hash := GetHash block in
  let m := m_block_index (m_blockman s) in
  let add :=
    if negb min_pow_checked then Ok (s, inr too_little_chainwork)
    else '(bm, pindex) ← AddToBlockIndex (m_blockman s) block;
         Ok ({| m_blockman := bm; failed := failed s |}, inl pindex) in
  if decide (hash = hashGenesisBlock params) then add
  else match m !! hash with
  | Some _ => if decide (hash ∈ failed s) then Ok (s, inr duplicate_invalid) else Ok (s, inl hash)
  | None =>
    match CheckBlockHeader block true with
    | Some r => Ok (s, inr r)
    | None =>
      match m !! hashPrevBlock block with
      | None => Ok (s, inr prev_blk_not_found)
      | Some _ =>
        if decide (hashPrevBlock block ∈ failed s) then Ok (s, inr bad_prevblk)
        else verdict ← ContextualCheckBlockHeader m now block (hashPrevBlock block);
             match verdict with Some r => Ok (s, inr r) | None => add end
      end
    end
  end.

(** [GetMinimumTime] of node/miner.cpp. *)
Definition GetMinimumTime (m : BlockMap) (pindexPrev : uint256) (difficulty_adjustment_interval : Z)
    : res Z :=
  mtp ← GetMedianTimePast m pindexPrev;
  prev ← deref m pindexPrev;
  let min_time := mtp + 1 in
  Ok (if Z.rem (nHeight prev + 1) difficulty_adjustment_interval =? 0
      then Z.max min_time (bTime prev - MAX_TIMEWARP) else min_time).

(** [UpdateTime] of node/miner.cpp: the header and the returned difference. *)
Definition UpdateTime (m : BlockMap) (now : Z) (pblock : CBlockHeader) (pindexPrev : uint256)
    : res (CBlockHeader * Z) :=
  let nOldTime := nTime pblock in
  min_time ← GetMinimumTime m pindexPrev (DifficultyAdjustmentInterval params);
  let nNewTime := Z.max min_time now in
  let pblock := if nOldTime <? nNewTime
                then {| nVersion := nVersion pblock; hashPrevBlock := hashPrevBlock pblock;
                        hashMerkleRoot := hashMerkleRoot pblock; nTime := u32 nNewTime;
                        nBits := nBits pblock; nNonce := nNonce pblock |}
                else pblock in
  prev ← deref m pindexPrev;
  let allow := fPowAllowMinDifficultyBlocks params ||
               (negb (MinDifficultyActivationHeight params =? -1) &&
                (MinDifficultyActivationHeight params <=? nHeight prev + 1)) in
  bits ← (if allow then GetNextWorkRequired m pindexPrev pblock params else Ok (nBits pblock));
  Ok ({| nVersion := nVersion pblock; hashPrevBlock := hashPrevBlock pblock;
         hashMerkleRoot := hashMerkleRoot pblock; nTime := nTime pblock;
         nBits := bits; nNonce := nNonce pblock |}, nNewTime - nOldTime).
End validation.

(** ** The transition system *)

Section reachable.
Context {SHA : Sha256} (params : Params) (genesis : CBlockHeader).

(** A node starts with the genesis block in its index; headers arrive; any entries
    are marked as failed or cleared, and any entry becomes the best header. *)
Inductive reachable : Chainman -> Prop :=
  | reachable_start bm h : AddToBlockIndex (Manager ∅ None) genesis = Ok (bm, h) ->
      reachable (MkChainman bm ∅)
  | reachable_header s now block min_pow_checked s' r : reachable s -> header_ok block ->
      AcceptBlockHeader params false s now block min_pow_checked = Ok (s', r) -> reachable s'
  | reachable_marks s best flags : reachable s -> is_Some (m_block_index (m_blockman s) !! best) ->
      reachable (MkChainman (Manager (m_block_index (m_blockman s)) (Some best)) flags).

(** Headers arrive; a block outside of the active chain, when its data arrives or
    when it is connected, is found to be invalid, and then perhaps the block that was
    to become the tip; a block is reconsidered.  The tip of the active chain is any
    entry that is not marked.  The command [invalidateblock] of an operator is not a
    step (see the file InvalidateBlock). *)
Inductive hstep : Chainman -> Chainman -> Prop :=
  | step_header s now block min_pow_checked s' r :
      header_ok block ->
      AcceptBlockHeader params false s now block min_pow_checked = Ok (s', r) -> hstep s s'
  | step_invalid s entries tip pindex mutated s' :
      enumerates (m_block_index (m_blockman s)) entries ->
      is_Some (m_block_index (m_blockman s) !! tip) -> tip ∉ failed s ->
      is_Some (m_block_index (m_blockman s) !! pindex) ->
      ~ ancestor_of (m_block_index (m_blockman s)) pindex tip ->
      InvalidBlockFound entries s (Some tip) pindex mutated = Ok s' -> hstep s s'
  | step_invalid_chain s entries tip pindex s' :
      enumerates (m_block_index (m_blockman s)) entries ->
      is_Some (m_block_index (m_blockman s) !! tip) -> tip ∉ failed s -> pindex ∈ failed s ->
      InvalidChainFound entries s (Some tip) pindex = Ok s' -> hstep s s'
  | step_reconsider s entries tip hash s' :
      enumerates (m_block_index (m_blockman s)) entries ->
      is_Some (m_block_index (m_blockman s) !! tip) -> tip ∉ failed s ->
      ReconsiderBlock entries s (Some tip) hash = Ok (Some s') -> hstep s s'.

(** The marks and the best header are kept by these operations. *)
Inductive maintained : Chainman -> Prop :=
  | maintained_start bm h : AddToBlockIndex (Manager ∅ None) genesis = Ok (bm, h) ->
      maintained (MkChainman bm ∅)
  | maintained_step s s' : maintained s -> hstep s s' -> maintained s'.

(** ** What an entry of the index promises *)

(** The link between an entry and its parent [p]. *)
Record valid_link (m : BlockMap) (h : uint256) (b : CBlockIndex) (p : uint256) (bp : CBlockIndex) : Prop := {
  link_parent : m !! p = Some bp;
  link_height : nHeight b = nHeight bp + 1;
  link_work : eval (nChainWork b) = (eval (nChainWork bp) + work_of (bBits b)) mod 2 ^ 256;
  link_bits : GetNextWorkRequired m p (GetBlockHeader b) params = Ok (bBits b);
  link_pow : exists t, target_of (bBits b) = Some t /\ t <= limit params /\ le_combine h <= t;
  link_time : exists t, GetMedianTimePast m p = Ok t /\ t < bTime b
}.

Definition valid_entry (m : BlockMap) (h : uint256) (b : CBlockIndex) : Prop :=
  GetHash (GetBlockHeader b) = h /\
  match pprev b with
  | None => h = hashGenesisBlock params /\ eval (nChainWork b) = work_of (bBits b)
  | Some p => exists bp, valid_link m h b p bp
  end.

Record chainman_inv (s : Chainman) : Prop := {
  inv_index : manager_ok (m_blockman s);
  inv_valid : map_Forall (valid_entry (m_block_index (m_blockman s))) (m_block_index (m_blockman s));
  inv_genesis : is_Some (m_block_index (m_blockman s) !! hashGenesisBlock params);
  inv_best : is_Some (best_header (m_blockman s))
}.
End reachable.

Section acceptance.
Context {SHA : Sha256} (params : Params) (Hp : params_ok params).

Lemma valid_link_mono m m' h b p bp : m ⊆ m' -> valid_link params m h b p bp ->
  valid_link params m' h b p bp.
Proof using Type.
  intros Hm [Hpar Hh Hw Hb Hpow (t & Ht & Hlt)]. split; try done.
  - by apply (lookup_weaken m m').
  - by apply (GetNextWorkRequired_mono params m m' _ (GetBlockHeader b)).
  - exists t. split; [by apply (GetMedianTimePast_mono m)|done].
Qed.

Lemma valid_entry_mono m m' h b : m ⊆ m' -> valid_entry params m h b -> valid_entry params m' h b.
Proof using Type.
  intros Hm [Hh H]. split; [done|]. destruct (pprev b) as [p|]; [|done].
  destruct H as [bp H]. exists bp. by apply (valid_link_mono m).
Qed.

Lemma GetHash_length (block : CBlockHeader) : length (GetHash block) = 32%nat.
Proof using Type. apply sha256_length. Qed.

(** The header of a new entry is the header that was accepted. *)
Lemma same_header_block block b : same_header block b -> pprev b = Some (hashPrevBlock block) ->
  GetBlockHeader b = block.
Proof using Type.
  intros (E1 & E2 & E3 & E4 & E5) Hp'. unfold GetBlockHeader. rewrite Hp', E1, E2, E3, E4, E5.
  by destruct block.
Qed.

(** What the contextual checks establish; they never throw. *)
Lemma ContextualCheckBlockHeader_spec m now block prev : index_ok m ->
  m !! hashPrevBlock block = Some prev ->
  exists v, ContextualCheckBlockHeader params m now block (hashPrevBlock block) = Ok v /\
    (v = None ->
     GetNextWorkRequired m (hashPrevBlock block) block params = Ok (nBits block) /\
     (exists t, GetMedianTimePast m (hashPrevBlock block) = Ok t /\ t < nTime block) /\
     nTime block <= now + MAX_FUTURE_BLOCK_TIME).
Proof using Hp.
  intros Hm Hprev. unfold ContextualCheckBlockHeader. rewrite (deref_Some _ _ _ Hprev). rbind.
  destruct (GetNextWorkRequired_spec params Hp m _ prev block Hm Hprev) as (c & -> & _). rbind.
  destruct (Z.eqb_spec (nBits block) c) as [<-|]; cbn [negb]; [|by eexists].
  destruct (GetMedianTimePast_total _ _ _ Hm Hprev) as [t ->]. rbind.
  destruct (Z.leb_spec (nTime block) t); [by eexists|].
  destruct (enforce_BIP94 params && _ && _); [by eexists|].
  destruct (Z.ltb_spec (now + MAX_FUTURE_BLOCK_TIME) (nTime block)); [by eexists|].
  destruct (_ || _ || _); [by eexists|]. exists None. split; [done|]. intros _.
  split; [done|]. split; [by exists t|done].
Qed.

(** A new entry above one that is not marked. *)
Lemma status_ok_insert s h new p best : status_ok s -> m_block_index (m_blockman s) !! h = None ->
  pprev new = Some p -> p ∉ failed s ->
  match best_header (m_blockman s) with
  | None => best = Some h
  | Some b0 => exists b, m_block_index (m_blockman s) !! b0 = Some b /\
      best = Some (if eval (nChainWork b) <? eval (nChainWork new) then h else b0)
  end ->
  status_ok {| m_blockman := Manager (<[h := new]> (m_block_index (m_blockman s))) best; failed := failed s |}.
Proof using Type.
  intros [[Hk Hc] (h0 & bb & E0 & L0 & Hn0 & Hall)] Hh Hpp Hnp Hbest.
  assert (h ∉ failed s) as Hnh by (intros Hx; apply Hk in Hx as [? ?]; congruence).
  split; cbn [m_blockman failed m_block_index].
  - split.
    + intros x Hx. apply lookup_insert_is_Some'. right. by apply Hk.
    + intros x b q [[<- <-]|[_ Lx]]%lookup_insert_Some Hq Hqf; [congruence|by apply (Hc x b q)].
  - unfold is_best. cbn [m_blockman failed m_block_index best_header].
    rewrite E0 in Hbest. destruct Hbest as (b & Lb & ->). assert (bb = b) as -> by congruence.
    destruct (Z.ltb_spec (eval (nChainWork b)) (eval (nChainWork new))).
    + exists h, new. split; [done|]. split; [apply lookup_insert_eq|]. split; [done|].
      intros x bx [[<- <-]|[_ Lx]]%lookup_insert_Some Hx; [done|]. specialize (Hall _ _ Lx Hx). lia.
    + exists h0, b. split; [done|]. split; [rewrite lookup_insert_ne; congruence|]. split; [done|].
      intros x bx [[<- <-]|[_ Lx]]%lookup_insert_Some Hx; [done|]. by apply (Hall x).
Qed.

(** A header that passes the checks is added as a valid entry. *)
Lemma add_valid s now block prev : chainman_inv params s -> header_ok block ->
  m_block_index (m_blockman s) !! GetHash block = None ->
  m_block_index (m_blockman s) !! hashPrevBlock block = Some prev ->
  CheckBlockHeader params false block true = None ->
  ContextualCheckBlockHeader params (m_block_index (m_blockman s)) now block (hashPrevBlock block) = Ok None ->
  exists bm, AddToBlockIndex (m_blockman s) block = Ok (bm, GetHash block) /\
    chainman_inv params {| m_blockman := bm; failed := failed s |} /\
    m_block_index (m_blockman s) ⊆ m_block_index bm /\
    (hashPrevBlock block ∉ failed s -> status_ok s -> status_ok {| m_blockman := bm; failed := failed s |}).
Proof using Hp.
  intros [Hmgr Hval Hgen [h0 Eb]] Hok Hnew Hprev Hpow Hctx.
  destruct (AddToBlockIndex_child _ _ _ Hmgr Hok Hnew Hprev)
    as (new & best & E & Hsame & Hpp & Hh & _ & Hw & Hmgr' & Hb).
  destruct (ContextualCheckBlockHeader_spec (m_block_index (m_blockman s)) now block prev
              (proj1 Hmgr) Hprev) as (v & Ev & Hv).
  rewrite Hctx in Ev. apply Ok_inj in Ev as <-. destruct (Hv eq_refl) as (Hbits & (t & Ht & Hlt) & _).
  pose proof (insert_subseteq (m_block_index (m_blockman s)) (GetHash block) new Hnew) as Hsub.
  pose proof (same_header_block _ _ Hsame Hpp) as Hblk. destruct Hsame as (_ & _ & Etime & Ebits & _).
  eexists. split; [exact E|]. split; [|split; [exact Hsub|]].
  2:{ intros Hnf Hst. by apply (status_ok_insert s _ _ (hashPrevBlock block)). }
  split; cbn [m_blockman m_block_index best_header].
  - exact Hmgr'.
  - apply map_Forall_insert_2.
    + split; [by rewrite Hblk|]. rewrite Hpp. exists prev. split.
      * by apply (lookup_weaken (m_block_index (m_blockman s))).
      * done.
      * rewrite (proj2 Hw), Ebits. done.
      * rewrite Hblk, Ebits. by apply (GetNextWorkRequired_mono params (m_block_index (m_blockman s)) _ _ block).
      * rewrite Ebits. apply (CheckProofOfWorkImpl_spec (GetHash block) (nBits block) params Hp (GetHash_length _)).
        { apply Hok. }
        unfold CheckBlockHeader in Hpow. cbn [CheckProofOfWork andb] in Hpow.
        by destruct (CheckProofOfWorkImpl _ _ _).
      * rewrite Etime. exists t. split; [by apply (GetMedianTimePast_mono (m_block_index (m_blockman s)))|done].
    + intros h' b' Hb'. apply (valid_entry_mono (m_block_index (m_blockman s))); [done|by apply Hval].
  - by apply lookup_insert_is_Some'; right.
  - rewrite Eb in Hb. destruct Hb as (bh & _ & ->). by eexists.
Qed.

(** [AcceptBlockHeader] returns, keeps the invariant, and only adds entries. *)
Lemma AcceptBlockHeader_spec s now block min_pow_checked : chainman_inv params s -> header_ok block ->
  exists s' r, AcceptBlockHeader params false s now block min_pow_checked = Ok (s', r) /\
    chainman_inv params s' /\ m_block_index (m_blockman s) ⊆ m_block_index (m_blockman s') /\
    (status_ok s -> status_ok s').
Proof using Hp.
  intros Hinv Hok. unfold AcceptBlockHeader.
  destruct (decide (GetHash block = hashGenesisBlock params)) as [Hg|Hg].
  { destruct min_pow_checked; cbn [negb]; [|by do 2 eexists].
    unfold AddToBlockIndex. destruct (inv_genesis _ _ Hinv) as [bg Eg]. rewrite Hg, Eg. rbind.
    do 2 eexists. split; [done|]. by destruct s. }
  destruct (m_block_index (m_blockman s) !! GetHash block) eqn:Eh; [case_decide; by do 2 eexists|].
  destruct (CheckBlockHeader params false block true) as [r|] eqn:Ec; [by do 2 eexists|].
  destruct (m_block_index (m_blockman s) !! hashPrevBlock block) as [prev|] eqn:Ep; [|by do 2 eexists].
  case_decide as Hnf; [by do 2 eexists|].
  destruct (ContextualCheckBlockHeader_spec (m_block_index (m_blockman s)) now block prev
              (proj1 (inv_index _ _ Hinv)) Ep) as (v & Ev & _). rewrite Ev. rbind.
  destruct v as [r|]; [by do 2 eexists|]. destruct min_pow_checked; cbn [negb]; [|by do 2 eexists].
  destruct (add_valid s now block prev Hinv Hok Eh Ep Ec Ev) as (bm & -> & Hinv' & Hsub & Hst). rbind.
  do 2 eexists. split; [done|]. split; [done|]. split; [done|by apply Hst].
Qed.
End acceptance.

(** ** Reachable indexes *)

Section properties.
Context {SHA : Sha256} (params : Params) (Hp : params_ok params) (genesis : CBlockHeader).

(** The genesis block of the parameters. *)
Record genesis_ok : Prop := {
  genesis_fields : header_ok genesis;
  genesis_prev : hashPrevBlock genesis = le_split 32 0;
  genesis_hash : GetHash genesis = hashGenesisBlock params;
  genesis_nonzero : GetHash genesis <> le_split 32 0
}.
Context (Hg : genesis_ok).

Lemma start_inv bm h : AddToBlockIndex (Manager ∅ None) genesis = Ok (bm, h) ->
  chainman_inv params (MkChainman bm ∅) /\ status_ok (MkChainman bm ∅).
Proof using Hg.
  destruct Hg as [Hok Hprev Hhash Hnz].
  assert (hashPrevBlock genesis <> GetHash genesis) as Hne by (intros E; apply Hnz; congruence).
  destruct (AddToBlockIndex_genesis genesis Hok Hne)
    as (new & -> & Hsame & Hpp & _ & _ & Hw & Hmgr). intros [= <- <-].
  assert (GetBlockHeader new = genesis) as Hblk.
  { destruct Hsame as (E1 & E2 & E3 & E4 & E5). unfold GetBlockHeader.
    rewrite Hpp, E1, E2, E3, E4, E5, <- Hprev. by destruct genesis. }
  destruct Hsame as (_ & _ & _ & Ebits & _).
  split; [split|]; cbn [m_blockman m_block_index best_header]; [done|..|by eexists|].
  - apply map_Forall_singleton. split; [by rewrite Hblk|]. rewrite Hpp. split; [done|].
    rewrite Ebits. apply Hw.
  - rewrite <- Hhash, lookup_singleton_eq. eauto.
  - split; [split; [by intros x Hx%elem_of_empty|by intros x b p _ _ Hx%elem_of_empty]|]. exists (GetHash genesis), new. split; [done|].
    split; [apply lookup_singleton_eq|]. split; [apply not_elem_of_empty|].
    intros h' b' Lh _. cbn in Lh. by apply lookup_singleton_Some in Lh as [<- <-].
Qed.

Lemma reachable_inv s : reachable params genesis s -> chainman_inv params s.
Proof using Hp Hg.
  induction 1 as [bm h E|s now block mp s' r _ IH Hok E|s best flags _ IH Hbest]; [by apply (start_inv bm h)|..].
  - destruct (AcceptBlockHeader_spec params Hp s now block mp IH Hok) as (s2 & r2 & E2 & Hinv & _).
    assert (s2 = s') as <- by congruence. done.
  - destruct IH as [[Hm _] Hval Hgen _]. split; try done.
Qed.

(** New marks and a new best header on the same entries. *)
Lemma reachable_remarked s s' : reachable params genesis s ->
  m_block_index (m_blockman s') = m_block_index (m_blockman s) -> status_ok s' -> reachable params genesis s'.
Proof using Type.
  intros Hs E Hst. destruct Hst as [_ (h & b & Eb & Lb & _)]. destruct s' as [[m' best] flags]. cbn in *. subst.
  apply reachable_marks; [done|by eexists].
Qed.

Lemma maintained_inv s : maintained params genesis s -> reachable params genesis s /\ status_ok s.
Proof using Hp Hg.
  induction 1 as [bm h E|s s' _ [IH Hst] Hstep].
  { split; [by apply (reachable_start _ _ bm h)|by apply (start_inv bm h)]. }
  pose proof (reachable_inv s IH) as Hinv. pose proof (proj1 (inv_index _ _ Hinv)) as Hm.
  destruct Hstep as [s now block mp s' r Hok E|s entries tip p mutated s' He Ht Htf Hpi Hna E
                    |s entries tip p s' He Ht Htf Hpf E|s entries tip p s' He Ht Htf E].
  - split; [by apply (reachable_header _ _ s now block mp s' r)|].
    destruct (AcceptBlockHeader_spec params Hp s now block mp Hinv Hok) as (s2 & r2 & E2 & _ & _ & Hst').
    assert (s2 = s') as <- by congruence. by apply Hst'.
  - destruct (InvalidBlockFound_spec s entries tip Hm He Ht p mutated Hst Hpi Htf Hna) as (s2 & E2 & Ei & _ & Hst').
    assert (s2 = s') as <- by congruence. split; [by apply (reachable_remarked s)|done].
  - destruct (InvalidChainFound_again s entries tip Hm He Ht p Hst Hpf Htf) as (s2 & E2 & Ei & Hst').
    assert (s2 = s') as <- by congruence. split; [by apply (reachable_remarked s)|done].
  - destruct (ReconsiderBlock_spec s entries tip Hm He Ht p Hst Htf) as (r & Er & Hr). rewrite E in Er.
    injection Er as <-. destruct Hr as (Ei & Hst' & _). split; [by apply (reachable_remarked s)|done].
Qed.

(** The link of an entry of a reachable index to its parent. *)
Lemma reachable_link s h b p : reachable params genesis s ->
  m_block_index (m_blockman s) !! h = Some b -> pprev b = Some p ->
  exists bp, valid_link params (m_block_index (m_blockman s)) h b p bp.
Proof using Hp Hg.
  intros Hs Hb Hpp. destruct (inv_valid _ _ (reachable_inv s Hs) _ _ Hb) as [_ H].
  by rewrite Hpp in H.
Qed.

Lemma reachable_index s : reachable params genesis s -> index_ok (m_block_index (m_blockman s)).
Proof using Hp Hg. intros Hs. apply (inv_index _ _ (reachable_inv s Hs)). Qed.

(** The work of all blocks from an entry down to the genesis block. *)
Fixpoint ancestry_work (n : nat) (m : BlockMap) (h : uint256) : Z :=
  match m !! h with
  | None => 0
  | Some b => work_of (bBits b) +
              match n, pprev b with S n, Some p => ancestry_work n m p | _, _ => 0 end
  end.

Lemma chain_work_sum s n h b : reachable params genesis s ->
  m_block_index (m_blockman s) !! h = Some b -> nHeight b <= Z.of_nat n ->
  eval (nChainWork b) = ancestry_work n (m_block_index (m_blockman s)) h mod 2 ^ 256.
Proof using Hp Hg.
  intros Hs. pose proof (reachable_index s Hs) as Hm. revert h b.
  induction n as [|n IH]; intros h b Hb Hn; cbn [ancestry_work]; rewrite Hb;
    destruct (inv_valid _ _ (reachable_inv s Hs) _ _ Hb) as [_ H];
    destruct (Hm _ _ Hb) as (_ & Hbits & Hwf & Hpar); destruct (pprev b) as [p|].
  - destruct Hpar as (b' & _ & H0 & E & _). lia.
  - destruct H as [_ ->]. rewrite Z.add_0_r. destruct (GetBitsProof_spec _ Hbits) as (w & _ & Hw).
    by rewrite Z.mod_small by apply (repr_bounds _ _ Hw).
  - destruct H as [bp [Hbp Hh Hw _ _ _]]. rewrite Hw, (IH p bp Hbp) by lia.
    rewrite Z.add_mod_idemp_l by lia. f_equal. lia.
  - destruct H as [_ ->]. rewrite Z.add_0_r. destruct (GetBitsProof_spec _ Hbits) as (w & _ & Hw).
    by rewrite Z.mod_small by apply (repr_bounds _ _ Hw).
Qed.

(** The median of a child is not below the one of its parent. *)
Lemma median_link s h b p bp : reachable params genesis s ->
  m_block_index (m_blockman s) !! h = Some b -> pprev b = Some p ->
  valid_link params (m_block_index (m_blockman s)) h b p bp ->
  exists t t', GetMedianTimePast (m_block_index (m_blockman s)) p = Ok t /\
    GetMedianTimePast (m_block_index (m_blockman s)) h = Ok t' /\ t <= t' /\ t < bTime b.
Proof using Hp Hg.
  intros Hs Hb Hpp [Hbp _ _ _ _ (t & Ht & Hlt)]. pose proof (reachable_index s Hs) as Hm.
  exists t. unfold GetMedianTimePast, nMedianTimeSpan in *.
  destruct (last_times_total 10 _ _ _ Hm Hbp) as (l & El & _). rewrite El in Ht.
  revert Ht. rbind. intros [= Ht]. destruct (last_times_total 10 _ _ _ Hm Hb) as (l' & -> & El').
  rewrite Hpp in El'. rewrite (last_times_take _ _ _ _ El) in El'. apply Ok_inj in El' as <-. rbind.
  eexists. split; [rewrite El; rbind; by f_equal|]. split; [done|]. split; [|done]. subst t.
  apply median_window; [done|done|]. apply (last_times_length _ _ _ _ El).
Qed.

(** Outside of boundaries the targets stay, once the exception has ended. *)
Lemma retired_bits s n h b : reachable params genesis s ->
  m_block_index (m_blockman s) !! h = Some b ->
  (forall x, nHeight b - Z.of_nat n < x <= nHeight b ->
     allowMinDifficulty params x = false /\ Z.rem x (DifficultyAdjustmentInterval params) <> 0) ->
  forall a ba, up (m_block_index (m_blockman s)) n h = Some a ->
    m_block_index (m_blockman s) !! a = Some ba -> bBits b = bBits ba.
Proof using Hp Hg.
  intros Hs. pose proof (reachable_index s Hs) as Hm. revert h b.
  induction n as [|n IH]; intros h b Hb Hx a ba U La; cbn [up] in U; [congruence|].
  rewrite Hb in U. destruct (pprev b) as [p|] eqn:Ep; [|done].
  destruct (reachable_link s h b p Hs Hb Ep) as [bp Hlink]. destruct Hlink as [Hbp Hh _ Hbits _ _].
  destruct (GetNextWorkRequired_spec params Hp _ p bp (GetBlockHeader b) Hm Hbp) as (c & Ec & _ & Hc).
  rewrite Hbits in Ec. apply Ok_inj in Ec as <-. unfold next_work_result in Hc.
  destruct (Hx (nHeight b) ltac:(lia)) as [Ha Hr]. rewrite <- Hh, Ha in Hc.
  rewrite (proj2 (Z.eqb_neq _ 0) Hr) in Hc. cbn [negb] in Hc. rewrite Hc.
  apply (IH p bp Hbp) with a; [|done..]. intros x Hxx. apply Hx. lia.
Qed.
End properties.

(** ** Heights and the clock *)

Section clock.
Context {SHA : Sha256} (params : Params) (Hp : params_ok params) (genesis : CBlockHeader)
        (Hg : genesis_ok params genesis) (s : Chainman) (Hs : reachable params genesis s).

Abbreviation m := (m_block_index (m_blockman s)).

(** One step up: the parent, its median, and the time above it. *)
Lemma step_up n x bx y : m !! x = Some bx -> up m (S n) x = Some y ->
  exists p bp t t', pprev bx = Some p /\ m !! p = Some bp /\ up m n p = Some y /\
    GetMedianTimePast m p = Ok t /\ GetMedianTimePast m x = Ok t' /\ t <= t' /\ t < bTime bx.
Proof using Hp Hg Hs.
  intros Hx. cbn [up]. rewrite Hx. destruct (pprev bx) as [p|] eqn:Ep; [|done]. intros U.
  destruct (reachable_link params Hp genesis Hg s x bx p Hs Hx Ep) as [bp Hl].
  destruct (median_link params Hp genesis Hg s x bx p bp Hs Hx Ep Hl) as (t & t' & H).
  exists p, bp, t, t'. split; [done|]. split; [apply (link_parent _ _ _ _ _ _ Hl)|]. done.
Qed.

Lemma median_up n x bx y t t' : m !! x = Some bx -> up m n x = Some y ->
  GetMedianTimePast m y = Ok t -> GetMedianTimePast m x = Ok t' -> t <= t'.
Proof using Hp Hg Hs.
  revert x bx t'. induction n as [|n IH]; intros x bx t' Hx.
  { cbn [up]. intros [= ->] Ht Ht'. rewrite Ht in Ht'. injection Ht'. lia. }
  intros U Ht Ht'. destruct (step_up n x bx y Hx U) as (p & bp & t1 & t2 & _ & Lp & Up & E1 & E2 & Hle & _).
  specialize (IH p bp t1 Lp Up Ht E1). rewrite Ht' in E2. injection E2. lia.
Qed.

(** The last [k] times are above the median of the [k]-th ancestor. *)
Lemma times_up k w x bx y t : m !! x = Some bx -> up m k x = Some y -> GetMedianTimePast m y = Ok t ->
  (k <= w)%nat -> exists l, last_times w m (Some x) = Ok l /\ (k <= at_least (t + 1) l)%nat.
Proof using Hp Hg Hs.
  revert w x bx. induction k as [|k IH]; intros w x bx Hx U Ht Hw.
  { destruct w as [|w]; [exists []; split; [done|cbn; lia]|].
    destruct (last_times_total w m x bx (reachable_index params Hp genesis Hg s Hs) Hx) as (l & -> & _).
    eexists. split; [done|lia]. }
  destruct w as [|w]; [lia|].
  destruct (step_up k x bx y Hx U) as (p & bp & t1 & t2 & Ep & Lp & Up & E1 & _ & _ & Hlt).
  destruct (IH w p bp Lp Up Ht ltac:(lia)) as (l & El & Hl).
  pose proof (median_up k p bp y t t1 Lp Up Ht E1).
  exists (bTime bx :: l). cbn [last_times]. rewrite (deref_Some _ _ _ Hx). rbind. rewrite Ep, El. rbind.
  split; [done|]. rewrite at_least_cons, decide_True by lia. lia.
Qed.

(** Over six blocks the median rises. *)
Lemma median_rises x bx y t t' : m !! x = Some bx -> up m 6 x = Some y ->
  GetMedianTimePast m y = Ok t -> GetMedianTimePast m x = Ok t' -> t + 1 <= t'.
Proof using Hp Hg Hs.
  intros Hx U Ht Ht'. destruct (times_up 6 nMedianTimeSpan x bx y t Hx U Ht) as (l & El & Hl);
    [unfold nMedianTimeSpan; lia|].
  unfold GetMedianTimePast in Ht'. rewrite El in Ht'. revert Ht'. rbind. intros [= <-].
  apply median_at_least; [intros ->; cbn in Hl; lia|].
  pose proof (last_times_length _ _ _ _ El) as Hlen. unfold nMedianTimeSpan in Hlen.
  pose proof (Nat.div_mod_eq (length l) 2). pose proof (Nat.mod_upper_bound (length l) 2). lia.
Qed.

Lemma median_after n x bx y t t' : m !! x = Some bx -> up m n x = Some y ->
  GetMedianTimePast m y = Ok t -> GetMedianTimePast m x = Ok t' -> t + Z.of_nat n / 6 <= t'.
Proof using Hp Hg Hs.
  pose proof (reachable_index params Hp genesis Hg s Hs) as Hm.
  revert x bx t'. induction n as [n IH] using lt_wf_ind. intros x bx t' Hx U Ht Ht'.
  destruct (decide (n < 6)%nat) as [Hlt|Hge].
  { rewrite Z.div_small by lia. pose proof (median_up n x bx y t t' Hx U Ht Ht'). lia. }
  replace n with (6 + (n - 6))%nat in U by lia. rewrite up_add in U.
  destruct (up m 6 x) as [z|] eqn:Uz; [|done].
  destruct (up_height m 6 x bx z Hm Hx Uz) as (bz & Hz & _).
  destruct (GetMedianTimePast_total m z bz Hm Hz) as [tz Htz].
  pose proof (IH (n - 6)%nat ltac:(lia) z bz tz Hz U Ht Htz) as H1.
  pose proof (median_rises x bx z tz t' Hx Uz Htz Ht') as H2.
  replace (Z.of_nat n) with (Z.of_nat (n - 6) + 1 * 6) by lia. rewrite Z.div_add by lia. lia.
Qed.

Lemma chain_length n x bx y t now : m !! x = Some bx -> up m (S n) x = Some y ->
  GetMedianTimePast m y = Ok t -> bTime bx <= now + MAX_FUTURE_BLOCK_TIME ->
  Z.of_nat (S n) <= 6 * (now - t + MAX_FUTURE_BLOCK_TIME).
Proof using Hp Hg Hs.
  intros Hx U Ht Hb.
  destruct (step_up n x bx y Hx U) as (p & bp & t1 & t2 & _ & Lp & Up & E1 & _ & _ & Hlt).
  pose proof (median_after n p bp y t t1 Lp Up Ht E1).
  pose proof (Z.div_mod (Z.of_nat n) 6 ltac:(lia)). pose proof (Z.mod_pos_bound (Z.of_nat n) 6 ltac:(lia)). lia.
Qed.
End clock.

(** ** Properties *)

(** C1: in every reachable index every entry but the genesis block has a parent one
    block lower; its key is the hash of its header; its bits are the ones that
    [GetNextWorkRequired] demands after its parent; its hash is at most its
    target, and the target at most [powLimit]; its time is above the median of
    the eleven blocks before; its work is the work of its parent plus its own.
    If the marks of failed blocks and the best header are kept by the operations for
    headers that arrive, blocks outside of the active chain that are found to be
    invalid, and blocks that are reconsidered, then the children of a marked entry
    are marked, the best header is not marked, and no entry that is not marked has
    more work.  (The command [invalidateblock] is not among these operations.) *)
Theorem accepted_headers {SHA : Sha256} (params : Params) (genesis : CBlockHeader) (s : Chainman) :
  params_ok params -> genesis_ok params genesis -> reachable params genesis s ->
  chainman_inv params s /\ (maintained params genesis s -> status_ok s).
Proof.
  intros Hp Hg Hs. split; [by apply (reachable_inv params Hp genesis Hg)|].
  intros H. apply (maintained_inv params Hp genesis Hg s H).
Qed.

(** C18: when they are kept by these operations, the best header is an entry that is
    not marked as failed, its work is the sum of the work of all blocks from it down
    to the genesis block, modulo [2^256], and no entry that is not marked has more;
    also after the chain of the best header was found to be invalid and after a
    block was reconsidered. *)
Theorem best_header_has_most_work {SHA : Sha256} (params : Params) (genesis : CBlockHeader) (s : Chainman) :
  params_ok params -> genesis_ok params genesis -> maintained params genesis s ->
  let m := m_block_index (m_blockman s) in
  let work h b := ancestry_work (Z.to_nat (nHeight b)) m h mod 2 ^ 256 in
  exists h b, best_header (m_blockman s) = Some h /\ m !! h = Some b /\ (h ∉ failed s) /\
    eval (nChainWork b) = work h b /\
    forall h' b', m !! h' = Some b' -> h' ∉ failed s -> work h' b' <= work h b.
Proof.
  intros Hp Hg Hs m work. destruct (maintained_inv params Hp genesis Hg s Hs) as [Hr [_ (h & b & Eb & Hb & Hn & Hall)]].
  pose proof (reachable_index params Hp genesis Hg s Hr) as Hm.
  assert (forall h b, m !! h = Some b -> eval (nChainWork b) = work h b) as Hw.
  { intros x bx Hx. apply (chain_work_sum params Hp genesis Hg s _ x bx Hr Hx).
    pose proof (index_height _ _ _ Hm Hx). lia. }
  exists h, b. do 3 (split; [done|]). split; [by apply Hw|]. intros h' b' Hb' Hn'.
  rewrite <- (Hw h b Hb), <- (Hw h' b' Hb'). by apply (Hall h').
Qed.

(** C13: the walk over the skip list finds the ancestor that following [pprev] step by
    step finds, for every entry of a reachable index and every height. *)
Theorem skip_list_correct {SHA : Sha256} (params : Params) (genesis : CBlockHeader) (s : Chainman)
    (h : uint256) (b : CBlockIndex) (height : Z) :
  params_ok params -> genesis_ok params genesis -> reachable params genesis s ->
  m_block_index (m_blockman s) !! h = Some b ->
  GetAncestor (m_block_index (m_blockman s)) h height =
  Ok (if (nHeight b <? height) || (height <? 0) then None
      else up (m_block_index (m_blockman s)) (Z.to_nat (nHeight b - height)) h).
Proof. intros Hp Hg Hs. apply GetAncestor_spec. by apply (reachable_index params Hp genesis Hg). Qed.

(** C29: the clock bounds the length of a chain: between an entry and an ancestor of
    it there are at most six blocks for every second from the median time past of
    the ancestor to the latest time that the clock admits. *)
Theorem chain_length_bounded {SHA : Sha256} (params : Params) (genesis : CBlockHeader) (s : Chainman)
    (n : nat) (x y : uint256) (bx : CBlockIndex) (t now : Z) :
  params_ok params -> genesis_ok params genesis -> reachable params genesis s ->
  m_block_index (m_blockman s) !! x = Some bx -> up (m_block_index (m_blockman s)) (S n) x = Some y ->
  GetMedianTimePast (m_block_index (m_blockman s)) y = Ok t -> bTime bx <= now + MAX_FUTURE_BLOCK_TIME ->
  Z.of_nat (S n) <= 6 * (now - t + MAX_FUTURE_BLOCK_TIME).
Proof. intros. by eapply chain_length. Qed.

(** Along every link of a reachable index the median time past does not decrease,
    and the time of a block is above the median of its parent. *)
Theorem median_time_monotone {SHA : Sha256} (params : Params) (genesis : CBlockHeader) (s : Chainman)
    (h p : uint256) (b : CBlockIndex) :
  params_ok params -> genesis_ok params genesis -> reachable params genesis s ->
  m_block_index (m_blockman s) !! h = Some b -> pprev b = Some p ->
  exists t t', GetMedianTimePast (m_block_index (m_blockman s)) p = Ok t /\
    GetMedianTimePast (m_block_index (m_blockman s)) h = Ok t' /\ t <= t' /\ t < bTime b.
Proof.
  intros Hp Hg Hs Hb Hpp. destruct (reachable_link params Hp genesis Hg s h b p Hs Hb Hpp) as [bp Hl].
  by apply (median_link params Hp genesis Hg s h b p bp).
Qed.

(** What makes a header acceptable on top of an index. *)
Definition acceptable {SHA : Sha256} (params : Params) (s : Chainman) (now : Z) (block : CBlockHeader) : Prop :=
  let m := m_block_index (m_blockman s) in
  exists prev t mtp, m !! hashPrevBlock block = Some prev /\ (hashPrevBlock block ∉ failed s) /\
    target_of (nBits block) = Some t /\ t <= limit params /\ le_combine (GetHash block) <= t /\
    GetNextWorkRequired m (hashPrevBlock block) block params = Ok (nBits block) /\
    GetMedianTimePast m (hashPrevBlock block) = Ok mtp /\ mtp < nTime block <= now + MAX_FUTURE_BLOCK_TIME /\
    (enforce_BIP94 params = true -> Z.rem (nHeight prev + 1) (DifficultyAdjustmentInterval params) = 0 ->
       bTime prev - MAX_TIMEWARP <= nTime block) /\
    (BIP34Height params <= nHeight prev + 1 -> 2 <= nVersion block) /\
    (BIP66Height params <= nHeight prev + 1 -> 3 <= nVersion block) /\
    (BIP65Height params <= nHeight prev + 1 -> 4 <= nVersion block).

Section contextual.
Context {SHA : Sha256} (params : Params) (Hp : params_ok params).

(** The contextual checks pass exactly for the conditions of the code. *)
Lemma ContextualCheckBlockHeader_iff m now block prev : index_ok m ->
  m !! hashPrevBlock block = Some prev ->
  ContextualCheckBlockHeader params m now block (hashPrevBlock block) = Ok None <->
  exists mtp, GetNextWorkRequired m (hashPrevBlock block) block params = Ok (nBits block) /\
    GetMedianTimePast m (hashPrevBlock block) = Ok mtp /\ mtp < nTime block <= now + MAX_FUTURE_BLOCK_TIME /\
    (enforce_BIP94 params = true -> Z.rem (nHeight prev + 1) (DifficultyAdjustmentInterval params) = 0 ->
       bTime prev - MAX_TIMEWARP <= nTime block) /\
    (BIP34Height params <= nHeight prev + 1 -> 2 <= nVersion block) /\
    (BIP66Height params <= nHeight prev + 1 -> 3 <= nVersion block) /\
    (BIP65Height params <= nHeight prev + 1 -> 4 <= nVersion block).
Proof using Hp.
  intros Hm Hprev. unfold ContextualCheckBlockHeader. rewrite (deref_Some _ _ _ Hprev). rbind.
  destruct (GetNextWorkRequired_spec params Hp m _ prev block Hm Hprev) as (c & -> & _). rbind.
  destruct (GetMedianTimePast_total _ _ _ Hm Hprev) as [t ->].
  destruct (Z.eqb_spec (nBits block) c) as [<-|Hne]; cbn [negb].
  2:{ split; [done|]. intros (? & E & _). apply Ok_inj in E. congruence. }
  rbind. destruct (Z.leb_spec (nTime block) t).
  { split; [done|]. intros (? & _ & [= <-] & Hlt & _). lia. }
  destruct (enforce_BIP94 params && _ && _) eqn:E94.
  { split; [done|]. intros (? & _ & _ & _ & H94 & _). apply andb_prop in E94 as [E94 E3].
    apply andb_prop in E94 as [E1 E2]. zbool. specialize (H94 E1 E2). lia. }
  destruct (Z.ltb_spec (now + MAX_FUTURE_BLOCK_TIME) (nTime block)).
  { split; [done|]. intros (? & _ & [= <-] & Hlt & _). lia. }
  destruct (_ || _ || _) eqn:Ev.
  - split; [done|]. intros (? & _ & _ & _ & _ & H2 & H3 & H4).
    apply orb_prop in Ev as [Ev|Ev]; [apply orb_prop in Ev as [Ev|Ev]|]; zbool; lia.
  - split; [|done]. intros _. exists t. apply orb_false_elim in Ev as [Ev E4].
    apply orb_false_elim in Ev as [E2 E3]. apply andb_false_iff in E2, E3, E4.
    split; [done|]. split; [done|]. split; [lia|]. split.
    { intros H94 Hr. rewrite H94, (proj2 (Z.eqb_eq _ 0) Hr) in E94. cbn [andb] in E94. zbool. lia. }
    repeat split; intros; destruct E2, E3, E4; zbool; lia.
Qed.
End contextual.

(** C19: [AcceptBlockHeader] decides: in a reachable state it never throws, and a
    header that is new is added exactly when it satisfies all of the rules; a
    header that is rejected changes nothing. *)
Theorem accept_decides {SHA : Sha256} (params : Params) (genesis : CBlockHeader) (s : Chainman)
    (now : Z) (block : CBlockHeader) :
  params_ok params -> genesis_ok params genesis -> reachable params genesis s -> header_ok block ->
  m_block_index (m_blockman s) !! GetHash block = None ->
  exists s' r, AcceptBlockHeader params false s now block true = Ok (s', r) /\
    (acceptable params s now block ->
       r = inl (GetHash block) /\
       exists b, m_block_index (m_blockman s') !! GetHash block = Some b /\ GetBlockHeader b = block) /\
    (~ acceptable params s now block -> s' = s /\ exists why, r = inr why).
Proof.
  intros Hp Hg Hs Hok Hnew. pose proof (reachable_inv params Hp genesis Hg s Hs) as Hinv.
  pose proof (proj1 (inv_index _ _ Hinv)) as Hm. unfold AcceptBlockHeader. rewrite decide_False.
  2:{ intros E. destruct (inv_genesis _ _ Hinv) as [? Hx]. congruence. }
  rewrite Hnew.
  pose proof (CheckProofOfWorkImpl_spec (GetHash block) (nBits block) params Hp (GetHash_length _) (proj2 Hok)) as Hpow.
  destruct (CheckBlockHeader params false block true) as [r|] eqn:Ec.
  { do 2 eexists. split; [done|]. split; [|by eauto]. intros (? & t & ? & _ & _ & H1 & H2 & H3 & _).
    unfold CheckBlockHeader in Ec. cbn [CheckProofOfWork andb] in Ec. rewrite (proj2 Hpow) in Ec; [done|by eauto]. }
  assert (CheckProofOfWorkImpl (GetHash block) (nBits block) params = true) as Epow.
  { unfold CheckBlockHeader in Ec. cbn [CheckProofOfWork andb] in Ec. by destruct (CheckProofOfWorkImpl _ _ _). }
  destruct (m_block_index (m_blockman s) !! hashPrevBlock block) as [prev|] eqn:Ep.
  2:{ do 2 eexists. split; [done|]. split; [|by eauto]. intros (? & ? & ? & E & _). congruence. }
  case_decide as Hf.
  { do 2 eexists. split; [done|]. split; [|by eauto]. by intros (? & ? & ? & _ & Hnf & _). }
  destruct (ContextualCheckBlockHeader_spec params Hp (m_block_index (m_blockman s)) now block prev Hm Ep) as (v & Ev & _).
  pose proof (ContextualCheckBlockHeader_iff params Hp (m_block_index (m_blockman s)) now block prev Hm Ep) as Hiff.
  rewrite Ev in Hiff |- *. rbind. destruct v as [r|]; cbn [negb].
  - do 2 eexists. split; [done|]. split; [|by eauto].
    intros (pr & t & mtp & Epr & _ & _ & _ & _ & Hrest). assert (pr = prev) as -> by congruence.
    assert (Ok (Some r) = Ok None) by (apply Hiff; by exists mtp). done.
  - destruct (add_valid params Hp s now block prev Hinv Hok Hnew Ep Ec Ev) as (bm & Eadd & Hinv' & _).
    destruct (AddToBlockIndex_child _ _ _ (inv_index _ _ Hinv) Hok Hnew Ep)
      as (new & best & Eadd' & Hsame & Hpp & _). rewrite Eadd'. rbind. do 2 eexists. split; [done|]. split.
    + intros _. split; [done|]. exists new. cbn [m_blockman m_block_index].
      rewrite lookup_insert_eq. split; [done|]. by apply same_header_block.
    + intros Hn. exfalso. apply Hn. destruct (proj1 Hpow Epow) as (t & H1 & H2 & H3).
      destruct (proj1 Hiff eq_refl) as (mtp & Hrest). exists prev, t, mtp. by repeat (split; [done|]).
Qed.

(** C35: a block template of the miner stays valid when its time is updated: if its
    bits were the required ones, then after [UpdateTime], with whatever clock,
    the header passes all contextual checks, as long as its time is not too far
    ahead of the clock and its version is current. *)
Theorem update_time_keeps_template {SHA : Sha256} (params : Params) (genesis : CBlockHeader) (s : Chainman)
    (now : Z) (block : CBlockHeader) (prev : CBlockIndex) :
  params_ok params -> genesis_ok params genesis -> reachable params genesis s -> header_ok block ->
  m_block_index (m_blockman s) !! hashPrevBlock block = Some prev -> 4 <= nVersion block -> 0 <= now ->
  GetNextWorkRequired (m_block_index (m_blockman s)) (hashPrevBlock block) block params = Ok (nBits block) ->
  exists block' d, UpdateTime params (m_block_index (m_blockman s)) now block (hashPrevBlock block) = Ok (block', d) /\
    (nTime block + d < 2 ^ 32 -> nTime block <= nTime block' /\
     (nTime block' <= now + MAX_FUTURE_BLOCK_TIME ->
      ContextualCheckBlockHeader params (m_block_index (m_blockman s)) now block' (hashPrevBlock block) = Ok None)).
Proof.
  intros Hp Hg Hs Hok Hprev Hver Hnow Hbits. pose proof (reachable_index params Hp genesis Hg s Hs) as Hm.
  set (m := m_block_index (m_blockman s)) in *. unfold UpdateTime, GetMinimumTime.
  destruct (GetMedianTimePast_total _ _ _ Hm Hprev) as [t Et]. rewrite Et. rbind.
  rewrite (deref_Some _ _ _ Hprev). rbind.
  set (mt := if _ =? 0 then _ else _). assert (t < mt) as Hmt by (unfold mt; case_match; lia).
  assert (Z.rem (nHeight prev + 1) (DifficultyAdjustmentInterval params) = 0 ->
          bTime prev - MAX_TIMEWARP <= mt) as Hwarp.
  { intros Hr. unfold mt. rewrite Hr. cbn [Z.eqb]. lia. }
  clearbody mt. set (b1 := if nTime block <? Z.max mt now then _ else block).
  assert (hashPrevBlock b1 = hashPrevBlock block /\ nVersion b1 = nVersion block /\ nBits b1 = nBits block /\
          (Z.max mt now < 2 ^ 32 -> nTime b1 = Z.max (nTime block) (Z.max mt now))) as (E1 & E2 & E3 & E4).
  { unfold b1. destruct (Z.ltb_spec (nTime block) (Z.max mt now)); cbn; repeat split; try done; intros.
    - rewrite u32_small; lia.
    - lia. }
  clearbody b1.
  assert (exists c, (if fPowAllowMinDifficultyBlocks params ||
                        (negb (MinDifficultyActivationHeight params =? -1) &&
                         (MinDifficultyActivationHeight params <=? nHeight prev + 1))
                     then GetNextWorkRequired m (hashPrevBlock block) b1 params else Ok (nBits b1)) = Ok c /\
                    GetNextWorkRequired m (hashPrevBlock block) b1 params = Ok c) as (c & -> & Ec).
  { destruct (GetNextWorkRequired_spec params Hp m _ prev b1 Hm Hprev) as (c & Ec & _ & Hc).
    destruct (_ || _) eqn:Ea; [by exists c|]. exists (nBits b1). split; [done|]. rewrite E3, <- Hbits.
    unfold GetNextWorkRequired. destruct (limit_compact params Hp) as (lim & -> & _). rbind.
    rewrite (deref_Some _ _ _ Hprev). rbind.
    assert (allowMinDifficulty params (nHeight prev + 1) = false) as ->; [|done].
    apply orb_false_elim in Ea as [Ea1 Ea2]. unfold allowMinDifficulty, stoicAwakeningActive.
    rewrite Ea1. cbn [orb]. by rewrite Ea2. }
  rbind. do 2 eexists. split; [done|]. cbn [nTime]. intros Hlt.
  specialize (E4 ltac:(lia)). split; [lia|]. intros Hfut.
  match goal with |- ContextualCheckBlockHeader _ _ _ ?b _ = _ => set (b2 := b) end.
  assert (hashPrevBlock b2 = hashPrevBlock block) as Ep2 by exact E1. rewrite <- Ep2.
  apply (ContextualCheckBlockHeader_iff params Hp m now b2 prev Hm); rewrite Ep2; [done|].
  exists t. change (nBits b2) with c. change (nVersion b2) with (nVersion b1).
  change (nTime b2) with (nTime b1). rewrite E2.
  split; [by apply (GetNextWorkRequired_mono params m m _ b1)|]. split; [done|]. split; [lia|].
  split; [intros _ Hr; specialize (Hwarp Hr); lia|]. repeat split; intros; lia.
Qed.

(** When the minimum-difficulty rule ends at a height within a period, the target
    of the last block before it stays the target of the rest of the period, also
    when that block was one of the exceptions at the limit. *)
Theorem retirement_freezes_target {SHA : Sha256} (params : Params) (genesis : CBlockHeader) (s : Chainman)
    (h a : uint256) (b ba : CBlockIndex) :
  params_ok params -> genesis_ok params genesis -> reachable params genesis s ->
  fPowAllowMinDifficultyBlocks params = false -> 0 < StoicAwakeningEndHeight params ->
  m_block_index (m_blockman s) !! h = Some b ->
  StoicAwakeningEndHeight params <= nHeight b ->
  nHeight b / DifficultyAdjustmentInterval params =
    (StoicAwakeningEndHeight params - 1) / DifficultyAdjustmentInterval params ->
  GetAncestor (m_block_index (m_blockman s)) h (StoicAwakeningEndHeight params - 1) = Ok (Some a) ->
  m_block_index (m_blockman s) !! a = Some ba ->
  bBits b = bBits ba.
Proof.
  intros Hp Hg Hs Hf He Hb Hle Hper Ha La. pose proof (reachable_index params Hp genesis Hg s Hs) as Hm.
  rewrite (GetAncestor_spec _ _ _ _ Hm Hb) in Ha.
  rewrite (proj2 (Z.ltb_ge _ _)), (proj2 (Z.ltb_ge _ 0)) in Ha by lia. cbn [orb] in Ha. apply Ok_inj in Ha.
  apply (retired_bits params Hp genesis Hg s
           (Z.to_nat (nHeight b - (StoicAwakeningEndHeight params - 1))) h b Hs Hb) with a; [|done|done].
  intros x Hx. rewrite Z2Nat.id in Hx by lia. split.
  - unfold allowMinDifficulty, stoicAwakeningActive. rewrite Hf. cbn [orb].
    rewrite (proj2 (Z.eqb_neq (StoicAwakeningEndHeight params) (-1))), (proj2 (Z.ltb_ge x _)) by lia. apply andb_false_r.
  - intros Hr. pose proof (interval_pos params Hp) as Hi. apply Z.rem_divide in Hr as [k ->]; [|lia].
    assert (k <= nHeight b / DifficultyAdjustmentInterval params) by (apply Z.div_le_lower_bound; lia).
    assert ((StoicAwakeningEndHeight params - 1) / DifficultyAdjustmentInterval params < k)
      by (apply Z.div_lt_upper_bound; lia).
    lia.
Qed.

(** ** Examples

    Blocks on top of the genesis block of the main network, with their nonces. *)

(** Headers one after the other, all of them accepted. *)
Fixpoint accept_all {SHA : Sha256} (params : Params) (s : Chainman) (now : Z) (l : list CBlockHeader)
    : option Chainman :=
  match l with
  | [] => Some s
  | block :: l =>
    match AcceptBlockHeader params false s now block true with
    | Ok (s, inl _) => accept_all params s now l
    | _ => None
    end
  end.

Lemma accept_all_maintained {SHA : Sha256} params genesis s now l s' :
  maintained params genesis s -> Forall header_ok l -> accept_all params s now l = Some s' ->
  maintained params genesis s'.
Proof.
  intros Hs Hl. revert s Hs. induction Hl as [|block l Hb _ IH]; intros s Hs; cbn [accept_all].
  { by intros [= <-]. }
  destruct (AcceptBlockHeader params false s now block true) as [[s2 [?|?]]|] eqn:E; try done.
  apply IH. by apply (maintained_step _ _ s); [|eapply step_header].
Qed.

Definition block_on (prev : Z) (time bits nonce : Z) : CBlockHeader :=
  {| nVersion := 4; hashPrevBlock := uint256_hex prev; hashMerkleRoot := uint256_hex 0;
     nTime := time; nBits := bits; nNonce := nonce |}.

(** Two blocks at the limit, after long gaps, and one at the ordinary target. *)
Definition block1 : CBlockHeader :=
  block_on 0x00000006b054338443f1a5d5534df21eab0d13232028158ae198edbb169f9dad 1781164484 0x1f7fffff 461.
Definition block2 : CBlockHeader :=
  block_on 0x005f5b18ea1d06fe1de9a51dd3db659cd38fec3748a2cba71e583b8fcdc0f66a 1781164684 0x1f7fffff 235.
Definition block3 : CBlockHeader :=
  block_on 0x006a894c33b4871628a6b8c136dbf559c283bd0b1844e4124bc6372692eb69bf 1781164714 0x1d7fffff 15339929.

(** A block at the limit soon after [block1], for a rule that ends at height 2. *)
Definition block2' : CBlockHeader :=
  block_on 0x005f5b18ea1d06fe1de9a51dd3db659cd38fec3748a2cba71e583b8fcdc0f66a 1781164514 0x1f7fffff 462.

Definition retired_params : Params :=
  {| hashGenesisBlock := hashGenesisBlock main_params;
     nSubsidyHalvingInterval := nSubsidyHalvingInterval main_params;
     BIP34Height := 1; BIP65Height := 1; BIP66Height := 1; powLimit := powLimit main_params;
     fPowAllowMinDifficultyBlocks := false; enforce_BIP94 := false; fPowNoRetargeting := false;
     MinDifficultyActivationHeight := 1; StoicAwakeningEndHeight := 2;
     nPowTargetSpacing := 60; nPowTargetTimespan := 120960 |}.

Definition start : Chainman :=
  match AddToBlockIndex (SHA := platform_sha256) (Manager ∅ None) main_genesis with
  | Ok (bm, _) => MkChainman bm ∅
  | Throw _ => MkChainman (Manager ∅ None) ∅
  end.

Definition extend (params : Params) (l : list CBlockHeader) : Chainman :=
  match accept_all (SHA := platform_sha256) params start 1781164714 l with Some s => s | None => start end.

Definition is_some {A} (o : option A) : bool := match o with Some _ => true | None => false end.

Lemma main_genesis_ok : genesis_ok (SHA := platform_sha256) main_params main_genesis.
Proof. split; [split; cbn; lia|done|by vm_compute|by vm_compute]. Qed.

Lemma retired_genesis_ok : genesis_ok (SHA := platform_sha256) retired_params main_genesis.
Proof. split; [split; cbn; lia|done|by vm_compute|by vm_compute]. Qed.

Lemma retired_params_ok : params_ok retired_params.
Proof. by constructor. Qed.

Lemma start_maintained params : maintained (SHA := platform_sha256) params main_genesis start.
Proof.
  destruct main_genesis_ok as [Hok Hprev _ Hnz].
  destruct (AddToBlockIndex_genesis (SHA := platform_sha256) main_genesis Hok) as (new & E & _).
  { intros H. apply Hnz. rewrite <- H. exact Hprev. }
  unfold start. rewrite E. eapply (maintained_start (SHA := platform_sha256)). exact E.
Qed.

Lemma extend_maintained params l : Forall header_ok l ->
  is_some (accept_all (SHA := platform_sha256) params start 1781164714 l) = true ->
  maintained (SHA := platform_sha256) params main_genesis (extend params l).
Proof.
  intros Hl Hs. unfold extend.
  destruct (accept_all params start 1781164714 l) as [s|] eqn:E; [|done].
  apply (accept_all_maintained _ _ start 1781164714 l); [|done|done].
  apply start_maintained.
Qed.

Lemma extend_reachable params l : params_ok params ->
  genesis_ok (SHA := platform_sha256) params main_genesis -> Forall header_ok l ->
  is_some (accept_all (SHA := platform_sha256) params start 1781164714 l) = true ->
  reachable (SHA := platform_sha256) params main_genesis (extend params l).
Proof.
  intros Hp Hg Hl Hs. apply (maintained_inv params Hp main_genesis Hg). by apply extend_maintained.
Qed.

Lemma main_chain_maintained : maintained (SHA := platform_sha256) main_params main_genesis
                                (extend main_params [block1; block2; block3]).
Proof. apply extend_maintained; [repeat constructor; cbn; lia|by vm_compute]. Qed.

Lemma main_chain : reachable (SHA := platform_sha256) main_params main_genesis
                     (extend main_params [block1; block2; block3]).
Proof.
  apply extend_reachable; [apply main_params_ok|apply main_genesis_ok|repeat constructor; cbn; lia|by vm_compute].
Qed.

Lemma retired_chain : reachable (SHA := platform_sha256) retired_params main_genesis
                        (extend retired_params [block1; block2']).
Proof.
  apply extend_reachable; [apply retired_params_ok|apply retired_genesis_ok|repeat constructor; cbn; lia|by vm_compute].
Qed.

(** The entry of a block, with its height and its parent. *)
Definition has_entry (s : Chainman) (block : CBlockHeader) (height : Z) : bool :=
  match m_block_index (m_blockman s) !! GetHash (SHA := platform_sha256) block with
  | Some b => (nHeight b =? height) && bool_decide (pprev b = Some (hashPrevBlock block))
  | None => false
  end.

Lemma has_entry_spec s block height : has_entry s block height = true ->
  exists b, m_block_index (m_blockman s) !! GetHash (SHA := platform_sha256) block = Some b /\
    nHeight b = height /\ pprev b = Some (hashPrevBlock block).
Proof.
  unfold has_entry. destruct (m_block_index (m_blockman s) !! GetHash block) as [b|]; [|done].
  intros H. exists b. apply andb_prop in H as [H1 H2]. zbool. apply bool_decide_eq_true in H2. done.
Qed.

Definition no_entry (s : Chainman) (block : CBlockHeader) : bool :=
  negb (is_some (m_block_index (m_blockman s) !! GetHash (SHA := platform_sha256) block)).

Lemma no_entry_spec s block : no_entry s block = true ->
  m_block_index (m_blockman s) !! GetHash (SHA := platform_sha256) block = None.
Proof. unfold no_entry. by destruct (m_block_index (m_blockman s) !! GetHash block). Qed.

Definition has_time (s : Chainman) (block : CBlockHeader) (t : Z) : bool :=
  match m_block_index (m_blockman s) !! GetHash (SHA := platform_sha256) block with
  | Some b => bTime b =? t
  | None => false
  end.

Lemma has_time_spec s block t : has_time s block t = true ->
  exists b, m_block_index (m_blockman s) !! GetHash (SHA := platform_sha256) block = Some b /\ bTime b = t.
Proof.
  unfold has_time. destruct (m_block_index (m_blockman s) !! GetHash block) as [b|]; [|done].
  intros H. exists b. by zbool.
Qed.


(** The state after a block was found to be invalid. *)
Definition invalidated (s : Chainman) (tip p : uint256) : Chainman :=
  match InvalidBlockFound (keys (m_block_index (m_blockman s))) s (Some tip) p false with
  | Ok s' => s'
  | Throw _ => s
  end.

Lemma invalidated_maintained {SHA : Sha256} params genesis s tip bt p bp :
  params_ok params -> genesis_ok params genesis -> maintained params genesis s ->
  m_block_index (m_blockman s) !! tip = Some bt -> m_block_index (m_blockman s) !! p = Some bp ->
  nHeight bt < nHeight bp -> tip ∉ failed s -> maintained params genesis (invalidated s tip p).
Proof.
  intros Hp Hg Hs Lt Lp Hlt Ht. destruct (maintained_inv params Hp genesis Hg s Hs) as [Hr Hst].
  pose proof (reachable_index params Hp genesis Hg s Hr) as Hm.
  assert (~ ancestor_of (m_block_index (m_blockman s)) p tip) as Hna.
  { intros Ha. destruct (ancestor_height _ _ _ bt Hm Lt Ha) as (b & Lb & Hle & _).
    assert (b = bp) as -> by congruence. lia. }
  destruct (InvalidBlockFound_spec s (keys (m_block_index (m_blockman s))) tip Hm (enumerates_keys _)
    (ex_intro _ bt Lt) p false Hst (ex_intro _ bp Lp) Ht Hna) as (s' & E & _).
  unfold invalidated. rewrite E. apply (maintained_step _ _ s s' Hs).
  apply (step_invalid _ s (keys (m_block_index (m_blockman s))) tip p false s'); try done.
  apply enumerates_keys.
Qed.

Definition unmarked (s : Chainman) (block : CBlockHeader) : bool :=
  negb (bool_decide (GetHash (SHA := platform_sha256) block ∈ failed s)).

Lemma unmarked_spec s block : unmarked s block = true -> GetHash (SHA := platform_sha256) block ∉ failed s.
Proof. unfold unmarked. case_bool_decide; done. Qed.

(** The chain after its second block was found to be invalid. *)
Definition without_block2 : Chainman :=
  invalidated (extend main_params [block1; block2; block3]) (GetHash (SHA := platform_sha256) block1)
    (GetHash (SHA := platform_sha256) block2).

Lemma without_block2_maintained : maintained (SHA := platform_sha256) main_params main_genesis without_block2.
Proof.
  destruct (has_entry_spec (extend main_params [block1; block2; block3]) block1 1 ltac:(by vm_compute))
    as (b1 & L1 & H1 & _).
  destruct (has_entry_spec (extend main_params [block1; block2; block3]) block2 2 ltac:(by vm_compute))
    as (b2 & L2 & H2 & _).
  exact (invalidated_maintained (SHA := platform_sha256) main_params main_genesis
    (extend main_params [block1; block2; block3]) _ b1 _ b2 main_params_ok main_genesis_ok main_chain_maintained L1 L2
    ltac:(rewrite H1, H2; reflexivity)
    (unmarked_spec (extend main_params [block1; block2; block3]) block1 ltac:(by vm_compute))).
Qed.

(** Its descendants are marked too, and the best header is below it. *)
Lemma without_block2_best :
  bool_decide (best_header (m_blockman without_block2) = Some (GetHash (SHA := platform_sha256) block1)) &&
  bool_decide (failed without_block2 =
    {[GetHash (SHA := platform_sha256) block2; GetHash (SHA := platform_sha256) block3]}) = true.
Proof. by vm_compute. Qed.

Lemma accepted_headers_witness :
  chainman_inv (SHA := platform_sha256) main_params without_block2 /\ status_ok without_block2.
Proof.
  destruct (maintained_inv main_params main_params_ok main_genesis main_genesis_ok without_block2
              without_block2_maintained) as [Hr _].
  destruct (accepted_headers (SHA := platform_sha256) main_params main_genesis without_block2
              main_params_ok main_genesis_ok Hr) as [H1 H2].
  exact (conj H1 (H2 without_block2_maintained)).
Defined.

Lemma best_header_has_most_work_witness :
  exists h b, best_header (m_blockman without_block2) = Some h /\
    m_block_index (m_blockman without_block2) !! h = Some b /\ (h ∉ failed without_block2).
Proof.
  destruct (best_header_has_most_work (SHA := platform_sha256) main_params main_genesis
    without_block2 main_params_ok main_genesis_ok without_block2_maintained)
    as (h & b & H1 & H2 & H3 & _). exists h, b. exact (conj H1 (conj H2 H3)).
Defined.

Lemma skip_list_correct_witness : exists b,
  nHeight b = 3 /\
  GetAncestor (m_block_index (m_blockman (extend main_params [block1; block2; block3])))
    (GetHash (SHA := platform_sha256) block3) 1 =
  Ok (up (m_block_index (m_blockman (extend main_params [block1; block2; block3])))
        2 (GetHash (SHA := platform_sha256) block3)).
Proof.
  destruct (has_entry_spec (extend main_params [block1; block2; block3]) block3 3 ltac:(by vm_compute))
    as (b & Hb & Hh & _). exists b. split; [done|].
  rewrite (skip_list_correct (SHA := platform_sha256) main_params main_genesis _ _ b 1
             main_params_ok main_genesis_ok main_chain Hb). rewrite Hh. reflexivity.
Defined.

Lemma median_time_monotone_witness :
  exists t t', GetMedianTimePast (m_block_index (m_blockman (extend main_params [block1; block2; block3])))
                 (hashPrevBlock block3) = Ok t /\
    GetMedianTimePast (m_block_index (m_blockman (extend main_params [block1; block2; block3])))
      (GetHash (SHA := platform_sha256) block3) = Ok t' /\ t <= t'.
Proof.
  destruct (has_entry_spec (extend main_params [block1; block2; block3]) block3 3 ltac:(by vm_compute))
    as (b & Hb & _ & Hpp).
  destruct (median_time_monotone (SHA := platform_sha256) main_params main_genesis _ _ _ b
              main_params_ok main_genesis_ok main_chain Hb Hpp) as (t & t' & H1 & H2 & H3 & _).
  exists t, t'. exact (conj H1 (conj H2 H3)).
Defined.

Lemma accept_decides_witness :
  exists s' r, AcceptBlockHeader (SHA := platform_sha256) main_params false
    (extend main_params [block1; block2]) 1781164714 block3 true = Ok (s', r).
Proof.
  assert (reachable (SHA := platform_sha256) main_params main_genesis (extend main_params [block1; block2])) as Hs.
  { apply extend_reachable; [apply main_params_ok|apply main_genesis_ok|repeat constructor; cbn; lia|by vm_compute]. }
  pose proof (no_entry_spec (extend main_params [block1; block2]) block3 ltac:(by vm_compute)) as E.
  destruct (accept_decides (SHA := platform_sha256) main_params main_genesis _ 1781164714 block3
              main_params_ok main_genesis_ok Hs ltac:(split; cbn; lia) E) as (s' & r & H & _).
  exists s', r. exact H.
Defined.

Lemma update_time_keeps_template_witness :
  exists block' d, UpdateTime main_params (m_block_index (m_blockman (extend main_params [block1; block2])))
    1781164800 block3 (hashPrevBlock block3) = Ok (block', d).
Proof.
  assert (reachable (SHA := platform_sha256) main_params main_genesis (extend main_params [block1; block2])) as Hs.
  { apply extend_reachable; [apply main_params_ok|apply main_genesis_ok|repeat constructor; cbn; lia|by vm_compute]. }
  destruct (has_entry_spec (extend main_params [block1; block2]) block2 2 ltac:(by vm_compute)) as (b & Hb & _).
  assert (GetHash (SHA := platform_sha256) block2 = hashPrevBlock block3) as E by (by vm_compute).
  rewrite E in Hb.
  destruct (update_time_keeps_template (SHA := platform_sha256) main_params main_genesis _ 1781164800 block3 b
              main_params_ok main_genesis_ok Hs ltac:(split; cbn; lia) Hb ltac:(cbn; lia) ltac:(lia)
              ltac:(by vm_compute)) as (block' & d & H & _).
  exists block', d. exact H.
Defined.

Lemma retirement_freezes_target_witness : exists b ba,
  nHeight b = 2 /\ nHeight ba = 1 /\ bBits b = bBits ba.
Proof.
  destruct (has_entry_spec (extend retired_params [block1; block2']) block2' 2 ltac:(by vm_compute))
    as (b & Hb & Hh & _).
  destruct (has_entry_spec (extend retired_params [block1; block2']) block1 1 ltac:(by vm_compute))
    as (ba & Hba & Hha & _).
  exists b, ba. split; [done|]. split; [done|].
  apply (retirement_freezes_target (SHA := platform_sha256) retired_params main_genesis
           (extend retired_params [block1; block2']) (GetHash (SHA := platform_sha256) block2')
           (GetHash (SHA := platform_sha256) block1) b ba
           retired_params_ok retired_genesis_ok retired_chain eq_refl); try assumption.
  - reflexivity.
  - rewrite Hh. reflexivity.
  - rewrite Hh. reflexivity.
  - by vm_compute.
Defined.

Lemma chain_length_bounded_witness : 3 <= 6 * (1781164714 - 1781164284 + MAX_FUTURE_BLOCK_TIME).
Proof.
  destruct (has_time_spec (extend main_params [block1; block2; block3]) block3 1781164714 ltac:(by vm_compute))
    as (b & Hb & Ht).
  refine (chain_length_bounded (SHA := platform_sha256) main_params main_genesis
    (extend main_params [block1; block2; block3]) 2 _ (hashGenesisBlock main_params) b 1781164284 1781164714
    main_params_ok main_genesis_ok main_chain Hb _ _ _).
  - vm_compute. reflexivity.
  - vm_compute. reflexivity.
  - rewrite Ht. unfold MAX_FUTURE_BLOCK_TIME. lia.
Defined.
