(* ===== verification/Ancestry.v ===== *)
(** * Walks over the block index

    The functions of src/src/chain.cpp that follow the skip list of several
    entries at once: [LocatorEntries], from which a peer finds where the chains
    part, [LastCommonAncestor], and [GetBlockProofEquivalentTime]. *)

From stdpp Require Import gmap sorting.
From S2P Require Import Prelude Uint256 Framing Chain Pow Invalidation Headers.

(** ** Operations *)

(** The loop of [LocatorEntries].  Every turn but the last lowers the height. *)
Fixpoint locator_loop (fuel : nat) (m : BlockMap) (index : option uint256) (have : list uint256) (step : Z)
  : res (list uint256) :=
  match index with
  | None => Ok have
  | Some p =>
    match fuel with
    | O => Throw OutOfFuel
    | S fuel =>
      b ← deref m p;
      let have := have ++ [p] in
      if nHeight b =? 0 then Ok have
      else
        let height := Z.max (nHeight b - step) 0 in
        next ← GetAncestor m p height;
        locator_loop fuel m next have (if 10 <? len have then step * 2 else step)
    end
  end.

(** [LocatorEntries]. *)
Definition LocatorEntries (m : BlockMap) (index : option uint256) : res (list uint256) :=
  match index with
  | None => Ok []
  | Some p => b ← deref m p; locator_loop (S (Z.to_nat (nHeight b))) m index [] 1
  end.

(** The inner loop of [LastCommonAncestor]: back until the skip pointers agree. *)
Fixpoint skip_back (fuel : nat) (m : BlockMap) (pa pb : uint256) : res (uint256 * uint256) :=
  a ← deref m pa;
  b ← deref m pb;
  if decide (pskip a = pskip b) then Ok (pa, pb)
  else match fuel, pskip a, pskip b with
  | O, _, _ => Throw OutOfFuel
  | S fuel, Some sa, Some sb => skip_back fuel m sa sb
  | S _, _, _ => Throw NullPointer
  end.

(** The outer loop of [LastCommonAncestor]. *)
Fixpoint common_loop (fuel : nat) (m : BlockMap) (pa pb : option uint256) : res (option uint256) :=
  if decide (pa = pb) then Ok pa
  else match fuel, pa, pb with
  | O, _, _ => Throw OutOfFuel
  | S fuel, Some a, Some b =>
    '(a, b) ← skip_back (S fuel) m a b;
    ba ← deref m a;
    bb ← deref m b;
    common_loop fuel m (pprev ba) (pprev bb)
  | S _, _, _ => Throw NullPointer
  end.

(** [LastCommonAncestor]. *)
Definition LastCommonAncestor (m : BlockMap) (pa pb : uint256) : res (option uint256) :=
  a ← deref m pa;
  b ← deref m pb;
  '(qa, qb) ← (if nHeight b <? nHeight a
               then pa ← GetAncestor m pa (nHeight b); Ok (pa, Some pb)
               else if nHeight a <? nHeight b
               then pb ← GetAncestor m pb (nHeight a); Ok (Some pa, pb)
               else Ok (Some pa, Some pb));
  common_loop (S (Z.to_nat (Z.min (nHeight a) (nHeight b)))) m qa qb.

(** [CChain]: the pointers of [vChain] by height. *)
Definition CChain : Type := list (option uint256).

(** [CChain::operator[]]. *)
Definition chain_at (c : CChain) (height : Z) : option uint256 :=
  if (height <? 0) || (len c <=? height) then None else mjoin (c !! Z.to_nat height).

(** [CChain::Tip] and [CChain::Height]. *)
Definition Tip (c : CChain) : option uint256 := mjoin (last c).
Definition Height (c : CChain) : Z := len c - 1.

(** [CChain::Contains]. *)
Definition Contains (m : BlockMap) (c : CChain) (index : uint256) : res bool :=
  b ← deref m index;
  Ok (bool_decide (chain_at c (nHeight b) = Some index)).

(** The loop of [CChain::SetTip]: it stops where the chain already agrees. *)
Fixpoint set_tip_loop (fuel : nat) (m : BlockMap) (c : CChain) (pindex : option uint256) : res CChain :=
  match pindex with
  | None => Ok c
  | Some p =>
    b ← deref m p;
    if decide (c !! Z.to_nat (nHeight b) = Some (Some p)) then Ok c
    else match fuel with
         | O => Throw OutOfFuel
         | S fuel => set_tip_loop fuel m (<[Z.to_nat (nHeight b) := Some p]> c) (pprev b)
         end
  end.

(** [CChain::SetTip]. *)
Definition SetTip (m : BlockMap) (c : CChain) (block : uint256) : res CChain :=
  b ← deref m block;
  let size := S (Z.to_nat (nHeight b)) in
  set_tip_loop size m (resize size None c) (Some block).

(** The loop of [CChain::FindFork]. *)
Fixpoint fork_loop (fuel : nat) (m : BlockMap) (c : CChain) (pindex : option uint256) : res (option uint256) :=
  match pindex with
  | None => Ok None
  | Some p =>
    here ← Contains m c p;
    if (here : bool) then Ok (Some p)
    else match fuel with
         | O => Throw OutOfFuel
         | S fuel => b ← deref m p; fork_loop fuel m c (pprev b)
         end
  end.

(** [CChain::FindFork]. *)
Definition FindFork (m : BlockMap) (c : CChain) (index : uint256) : res (option uint256) :=
  b ← deref m index;
  pindex ← (if Height c <? nHeight b then GetAncestor m index (Height c) else Ok (Some index));
  fork_loop (S (Z.to_nat (nHeight b))) m c pindex.

(** [GetBlockProofEquivalentTime]. *)
Definition GetBlockProofEquivalentTime (to from tip : CBlockIndex) (params : Params) : res Z :=
  let '(r, sign) :=
    if uint_gt (nChainWork to) (nChainWork from)
    then (uint_sub (nChainWork to) (nChainWork from), 1)
    else (uint_sub (nChainWork from) (nChainWork to), -1) in
  proof ← GetBitsProof (bBits tip);
  r ← uint_div (uint_mul r (uint_of (nPowTargetSpacing params))) proof;
  if 63 <? uint_bits r then Ok (sign * (2 ^ 63 - 1)) else Ok (sign * GetLow64 r).

(** ** The last common ancestor *)

Definition common_ancestor (m : BlockMap) (x a b : uint256) : Prop := ancestor_of m x a /\ ancestor_of m x b.

(** Where two chains differ at a height, all they share is below it. *)
Lemma common_below m a b ba bb sa sb bsa bsb y : index_ok m -> m !! a = Some ba -> m !! b = Some bb ->
  ancestor_of m sa a -> ancestor_of m sb b -> m !! sa = Some bsa -> m !! sb = Some bsb ->
  nHeight bsa = nHeight bsb -> sa <> sb -> common_ancestor m y a b -> common_ancestor m y sa sb.
Proof.
  intros Hm Ha Hb Hsa Hsb La Lb He Hne [Hya Hyb].
  destruct (ancestor_height m y a ba Hm Ha Hya) as (b_y & Ly & _ & _).
  destruct (decide (nHeight b_y <= nHeight bsa)) as [Hle|Hgt].
  - split; [by apply (ancestors_linear m y sa a ba b_y bsa)|].
    by apply (ancestors_linear m y sb b bb b_y bsb); try done; lia.
  - exfalso. apply Hne. apply (ancestor_unique m sa sb y b_y bsa bsb); try done.
    + by apply (ancestors_linear m sa y a ba bsa b_y); try done; lia.
    + by apply (ancestors_linear m sb y b bb bsb b_y); try done; lia.
Qed.

Lemma common_lower m y a b ba bb : index_ok m -> m !! a = Some ba -> m !! b = Some bb ->
  nHeight ba = nHeight bb -> a <> b -> common_ancestor m y a b ->
  exists b_y, m !! y = Some b_y /\ nHeight b_y < nHeight ba.
Proof.
  intros Hm Ha Hb He Hne [Y1 Y2].
  destruct (ancestor_height m y a ba Hm Ha Y1) as (b_y & Ly & Hle & U1).
  exists b_y. split; [done|]. destruct (decide (nHeight b_y = nHeight ba)) as [E|]; [|lia].
  exfalso. apply Hne. rewrite <- (ancestor_unique m y a a ba b_y ba) by auto using ancestor_refl.
  apply (ancestor_unique m y b b bb b_y bb); auto using ancestor_refl; lia.
Qed.

Lemma skip_back_spec fuel m pa pb a b : index_ok m -> m !! pa = Some a -> m !! pb = Some b ->
  nHeight a = nHeight b -> nHeight a <= Z.of_nat fuel -> pa <> pb ->
  exists qa qb ba bb, skip_back fuel m pa pb = Ok (qa, qb) /\ qa <> qb /\
    m !! qa = Some ba /\ m !! qb = Some bb /\ nHeight ba = nHeight bb /\ nHeight ba <= nHeight a /\
    ancestor_of m qa pa /\ ancestor_of m qb pb /\
    forall y, common_ancestor m y pa pb -> common_ancestor m y qa qb.
Proof.
  intros Hm. revert pa pb a b. induction fuel as [|fuel IH]; intros pa pb a b Ha Hb He Hf Hne;
    cbn [skip_back]; rewrite (deref_Some _ _ _ Ha), (deref_Some _ _ _ Hb); rbind;
    (destruct (decide (pskip a = pskip b)) as [Es|Es];
      [exists pa, pb, a, b; do 6 (split; [done || lia|]); auto using ancestor_refl|]);
    pose proof (index_height _ _ _ Hm Ha) as H0;
    destruct (links m pa a Hm Ha) as [(? & _ & Ea)|(? & _ & _ & sa & bsa & _ & Ea & _ & _ & _ & Lsa & Hsa & Asa)];
    destruct (links m pb b Hm Hb) as [(? & _ & Eb)|(? & _ & _ & sb & bsb & _ & Eb & _ & _ & _ & Lsb & Hsb & Asb)];
    try congruence; try lia.
  rewrite Ea, Eb. assert (sa <> sb) as Hns by congruence.
  pose proof (GetSkipHeight_bounds (nHeight a) ltac:(lia)) as Hk. rewrite <- He in Hsb.
  destruct (IH sa sb bsa bsb Lsa Lsb ltac:(lia) ltac:(lia) Hns)
    as (qa & qb & ba & bb & E & Hn & Lqa & Lqb & Hh & Hle & Aa & Ab & Hc).
  exists qa, qb, ba, bb. split; [done|]. split; [done|]. do 3 (split; [done|]). split; [lia|].
  split; [by apply (ancestor_trans m qa sa)|]. split; [by apply (ancestor_trans m qb sb)|].
  intros y Hy. apply Hc. apply (common_below m pa pb a b sa sb bsa bsb); try done; lia.
Qed.

Lemma common_loop_spec fuel m pa pb a b : index_ok m -> m !! pa = Some a -> m !! pb = Some b ->
  nHeight a = nHeight b -> nHeight a < Z.of_nat fuel ->
  exists r, common_loop fuel m (Some pa) (Some pb) = Ok r /\
    (forall x, r = Some x -> common_ancestor m x pa pb) /\
    (forall y, common_ancestor m y pa pb -> exists x, r = Some x /\ ancestor_of m y x).
Proof.
  intros Hm. revert pa pb a b. induction fuel as [|fuel IH]; intros pa pb a b Ha Hb He Hf;
    pose proof (index_height _ _ _ Hm Ha) as H0; [lia|]. cbn [common_loop].
  destruct (decide (Some pa = Some pb)) as [[= ->]|Hne].
  { exists (Some pb). split; [done|]. split; [intros x [= <-]; split; apply ancestor_refl|].
    intros y [Hy _]. eauto. }
  destruct (skip_back_spec (S fuel) m pa pb a b Hm Ha Hb He ltac:(lia) ltac:(congruence))
    as (qa & qb & ba & bb & E & Hn & Lqa & Lqb & Hh & Hle & Aa & Ab & Hc).
  rewrite E. rbind. rewrite (deref_Some _ _ _ Lqa), (deref_Some _ _ _ Lqb). rbind.
  pose proof (index_height _ _ _ Hm Lqa) as H0q.
  destruct (links m qa ba Hm Lqa) as [(Z0 & -> & _)|(? & p1 & bp1 & _ & _ & -> & _ & Lp1 & Hp1 & Ap1 & _)];
  destruct (links m qb bb Hm Lqb) as [(? & -> & _)|(? & p2 & bp2 & _ & _ & -> & _ & Lp2 & Hp2 & Ap2 & _)];
    try lia.
  - exists None. split; [by destruct fuel|]. split; [done|]. intros y Hy. exfalso.
    destruct (common_lower m y qa qb ba bb Hm Lqa Lqb Hh Hn (Hc y Hy)) as (b_y & Ly & Hlt).
    pose proof (index_height _ _ _ Hm Ly). lia.
  - destruct (IH p1 p2 bp1 bp2 Lp1 Lp2 ltac:(lia) ltac:(lia)) as (r & -> & Hr1 & Hr2).
    exists r. split; [done|]. split.
    + intros x Hx. destruct (Hr1 x Hx) as [X1 X2].
      split; [apply (ancestor_trans m x p1)|apply (ancestor_trans m x p2)]; try done;
        [apply (ancestor_trans m p1 qa)|apply (ancestor_trans m p2 qb)]; done.
    + intros y Hy. apply Hr2.
      destruct (common_lower m y qa qb ba bb Hm Lqa Lqb Hh Hn (Hc y Hy)) as (b_y & Ly & Hlt).
      destruct (Hc y Hy) as [Y1 Y2].
      split; [by apply (ancestors_linear m y p1 qa ba b_y bp1); try done; lia|].
      by apply (ancestors_linear m y p2 qb bb b_y bp2); try done; lia.
Qed.

(** Going back to a height of the chain. *)
Lemma rewind m p b height : index_ok m -> m !! p = Some b -> 0 <= height <= nHeight b ->
  exists q bq, GetAncestor m p height = Ok (Some q) /\ m !! q = Some bq /\ nHeight bq = height /\
    ancestor_of m q p.
Proof.
  intros Hm Hb Hh. rewrite (GetAncestor_spec _ _ _ _ Hm Hb).
  rewrite (proj2 (Z.ltb_ge _ _)), (proj2 (Z.ltb_ge height 0)) by lia. cbn [orb].
  destruct (up_total m (Z.to_nat (nHeight b - height)) p b Hm Hb) as (q & bq & U & L & E); [lia|].
  exists q, bq. rewrite U. split; [done|]. split; [done|]. split; [lia|by eexists].
Qed.

(** ** Locators *)

(** Ancestors of falling height down to a root. *)
Inductive descends (m : BlockMap) : list uint256 -> Prop :=
  | descends_root h b : m !! h = Some b -> nHeight b = 0 -> descends m [h]
  | descends_step h b h' b' l : m !! h = Some b -> m !! h' = Some b' -> ancestor_of m h' h ->
      nHeight b' < nHeight b -> descends m (h' :: l) -> descends m (h :: h' :: l).

Lemma locator_loop_spec fuel m p b have step k : index_ok m -> m !! p = Some b -> 1 <= step ->
  (len have <= 10 -> step = 1) -> nHeight b < Z.of_nat fuel -> nHeight b <= step * (2 ^ Z.of_nat k - 1) ->
  exists l, locator_loop fuel m (Some p) have step = Ok (have ++ p :: l) /\ descends m (p :: l) /\
    len (p :: l) <= Z.max (10 - len have) 0 + Z.of_nat k + 1 /\
    forall i, len have + Z.of_nat i <= 11 -> Z.of_nat i <= nHeight b -> (p :: l) !! i = up m i p.
Proof.
  intros Hm. revert p b have step k. induction fuel as [|fuel IH]; intros p b have step k Hb H1 Hs Hf Hk;
    pose proof (index_height _ _ _ Hm Hb) as H0; [lia|]. cbn [locator_loop].
  rewrite (deref_Some _ _ _ Hb). rbind. destruct (Z.eqb_spec (nHeight b) 0) as [E|E].
  { exists []. split; [done|]. split; [by apply (descends_root m p b)|].
    split; [unfold len; cbn; lia|]. intros i _ Hi. by replace i with O by lia. }
  pose proof (GetAncestor_spec m p b (Z.max (nHeight b - step) 0) Hm Hb) as G.
  rewrite (proj2 (Z.ltb_ge _ _)), (proj2 (Z.ltb_ge _ 0)) in G by lia. cbn [orb] in G.
  destruct (up_total m (Z.to_nat (nHeight b - Z.max (nHeight b - step) 0)) p b Hm Hb)
    as (q & bq & U & Lq & Hq); [lia|]. rewrite U in G. rewrite G. rbind.
  assert (len (have ++ [p]) = len have + 1) as Hl by (unfold len; rewrite length_app; cbn; lia).
  assert (0 <= len have) as Hl0 by (unfold len; lia). rewrite Hl.
  destruct k as [|k]; [change (2 ^ Z.of_nat 0) with 1 in Hk; lia|].
  rewrite Nat2Z.inj_succ, Z.pow_succ_r in Hk by lia.
  assert (0 < 2 ^ Z.of_nat k) as Hpow by (apply Z.pow_pos_nonneg; lia).
  assert (exists l, locator_loop fuel m (Some q) (have ++ [p]) (if 10 <? len have + 1 then step * 2 else step) =
      Ok ((have ++ [p]) ++ q :: l) /\ descends m (q :: l) /\
      len (q :: l) <= Z.max (10 - len have) 0 + Z.of_nat (S k) /\
      forall i, len have + 1 + Z.of_nat i <= 11 -> Z.of_nat i <= nHeight bq -> (q :: l) !! i = up m i q)
    as (l & El & D & Ll & Hc).
  { destruct (Z.ltb_spec 10 (len have + 1)) as [Hlt|Hge].
    - destruct (IH q bq (have ++ [p]) (step * 2) k Lq) as (l & El & D & Ll & Hc); try lia.
      { destruct (Z.max_spec (nHeight b - step) 0); nia. }
      rewrite Hl in Ll, Hc. exists l. split; [done|]. split; [done|]. split; [lia|done].
    - destruct (IH q bq (have ++ [p]) step (S k) Lq) as (l & El & D & Ll & Hc); try lia.
      { rewrite Nat2Z.inj_succ, Z.pow_succ_r by lia. nia. }
      rewrite Hl in Ll, Hc. exists l. split; [done|]. split; [done|]. split; [lia|done]. }
  rewrite El. exists (q :: l). split; [by rewrite <- app_assoc|].
  split; [apply (descends_step m p b q bq); try done; [by eexists|lia]|].
  split; [unfold len in *; cbn [length] in *; lia|].
  intros [|i] Hi Hib; [done|]. rewrite (Hs ltac:(lia)) in *.
  replace (Z.to_nat (nHeight b - Z.max (nHeight b - 1) 0)) with 1%nat in U by lia.
  change (S i) with (1 + i)%nat. rewrite up_add, U. apply Hc; lia.
Qed.

(** ** The active chain *)

(** A chain of pointers that agree with [pprev]. *)
Definition chain_ok (m : BlockMap) (c : CChain) : Prop :=
  forall i p, c !! i = Some p -> exists x b, p = Some x /\ m !! x = Some b /\ nHeight b = Z.of_nat i /\
    (i <> O -> c !! (i - 1)%nat = Some (pprev b)).

(** Below an entry of a chain are its ancestors. *)
Lemma chain_ok_below m c i x n : chain_ok m c -> c !! i = Some (Some x) -> (n <= i)%nat ->
  c !! (i - n)%nat = Some (up m n x).
Proof.
  intros Hc. revert i x. induction n as [|n IH]; intros i x Hi Hn; [by rewrite Nat.sub_0_r|].
  destruct (Hc i _ Hi) as (x' & b & [= <-] & Hb & Hh & Hp). specialize (Hp ltac:(lia)).
  cbn [up]. rewrite Hb. destruct (Hc _ _ Hp) as (y & b' & Ey & _). rewrite Ey in Hp |- *.
  replace (i - S n)%nat with (i - 1 - n)%nat by lia. apply IH; [done|lia].
Qed.

(** All ancestors of [x], by their heights. *)
Definition ancestry (m : BlockMap) (x : uint256) (b : CBlockIndex) (c : CChain) : Prop :=
  length c = S (Z.to_nat (nHeight b)) /\
  forall i, (i <= Z.to_nat (nHeight b))%nat -> c !! i = Some (up m (Z.to_nat (nHeight b) - i) x).

Lemma ancestry_chain_ok m x b c : index_ok m -> m !! x = Some b -> ancestry m x b c -> chain_ok m c.
Proof.
  intros Hm Hb [Hlen Hc] i p Hi. pose proof (index_height _ _ _ Hm Hb) as H0.
  assert (i < length c)%nat as Hi' by (by apply lookup_lt_is_Some_1; eexists).
  rewrite Hc in Hi by lia. injection Hi as <-.
  destruct (up_total m (Z.to_nat (nHeight b) - i) x b Hm Hb) as (y & b_y & U & Ly & Hy); [lia|].
  exists y, b_y. rewrite U. split; [done|]. split; [done|]. split; [lia|]. intros Hne. rewrite Hc by lia.
  replace (Z.to_nat (nHeight b) - (i - 1))%nat with (Z.to_nat (nHeight b) - i + 1)%nat by lia.
  rewrite up_add, U. cbn [up]. rewrite Ly. by destruct (pprev b_y).
Qed.

(** Below the pointer of the loop are entries of the old chain or null pointers, above
    it the ancestors of the new tip. *)
Lemma set_tip_loop_spec fuel m c0 c x b p bp : index_ok m -> chain_ok m c0 -> m !! x = Some b ->
  m !! p = Some bp -> ancestor_of m p x -> length c = S (Z.to_nat (nHeight b)) ->
  (forall i, (Z.to_nat (nHeight bp) < i <= Z.to_nat (nHeight b))%nat ->
     c !! i = Some (up m (Z.to_nat (nHeight b) - i) x)) ->
  (forall i y, (i <= Z.to_nat (nHeight bp))%nat -> c !! i = Some (Some y) -> c0 !! i = Some (Some y)) ->
  (forall i, (i <= Z.to_nat (nHeight bp))%nat -> is_Some (c0 !! i) -> c !! i = c0 !! i) ->
  nHeight bp < Z.of_nat fuel ->
  exists c', set_tip_loop fuel m c (Some p) = Ok c' /\ ancestry m x b c'.
Proof.
  intros Hm Hc0 Hx. revert c p bp. induction fuel as [|fuel IH]; intros c p bp Hp Ha Hlen Hup Hlow Hold Hf;
    pose proof (index_height _ _ _ Hm Hp) as H0; [lia|]. cbn [set_tip_loop].
  rewrite (deref_Some _ _ _ Hp). rbind.
  destruct (ancestor_height m p x b Hm Hx Ha) as (? & ? & Hle & U). simplify_eq.
  replace (Z.to_nat (nHeight b - nHeight bp)) with (Z.to_nat (nHeight b) - Z.to_nat (nHeight bp))%nat in U by lia.
  case_decide as Hd.
  - exists c. split; [done|]. split; [done|]. intros i Hi.
    destruct (decide (Z.to_nat (nHeight bp) < i)%nat) as [Hlt|Hge]; [apply Hup; lia|].
    pose proof (Hlow _ _ (le_n _) Hd) as Hd0.
    pose proof (chain_ok_below m c0 _ p (Z.to_nat (nHeight bp) - i) Hc0 Hd0 ltac:(lia)) as Hi0.
    replace (Z.to_nat (nHeight bp) - (Z.to_nat (nHeight bp) - i))%nat with i in Hi0 by lia.
    rewrite Hold, Hi0 by (lia || eauto). f_equal.
    replace (Z.to_nat (nHeight b) - i)%nat
      with (Z.to_nat (nHeight b) - Z.to_nat (nHeight bp) + (Z.to_nat (nHeight bp) - i))%nat by lia.
    by rewrite up_add, U.
  - set (c1 := <[Z.to_nat (nHeight bp) := Some p]> c).
    assert (forall i, (Z.to_nat (nHeight bp) <= i <= Z.to_nat (nHeight b))%nat ->
      c1 !! i = Some (up m (Z.to_nat (nHeight b) - i) x)) as Hup1.
    { intros i Hi. unfold c1. destruct (decide (i = Z.to_nat (nHeight bp))) as [->|Hne].
      - rewrite list_lookup_insert_eq by lia. by rewrite U.
      - rewrite list_lookup_insert_ne by done. apply Hup. lia. }
    destruct (links m p bp Hm Hp) as [(Hz & -> & _)|(Hpos & q & bq & _ & _ & -> & _ & Lq & Hq & Aq & _)].
    + exists c1. split; [by destruct fuel|]. split; [unfold c1; by rewrite length_insert|].
      intros i Hi. apply Hup1. lia.
    + apply (IH c1 q bq); try done; try lia.
      * by apply (ancestor_trans m q p).
      * unfold c1. by rewrite length_insert.
      * intros i Hi. apply Hup1. lia.
      * intros i y Hi. unfold c1. rewrite list_lookup_insert_ne by lia. apply Hlow. lia.
      * intros i Hi Hs. unfold c1. rewrite list_lookup_insert_ne by lia. apply Hold; [lia|done].
Qed.

Lemma SetTip_spec m c x b : index_ok m -> chain_ok m c -> m !! x = Some b ->
  exists c', SetTip m c x = Ok c' /\ ancestry m x b c'.
Proof.
  intros Hm Hc Hx. unfold SetTip. rewrite (deref_Some _ _ _ Hx). rbind. pose proof (index_height _ _ _ Hm Hx).
  apply (set_tip_loop_spec _ m c _ x b x b); try done; try lia.
  - apply ancestor_refl.
  - apply length_resize.
  - intros i y Hi Hy. destruct (decide (i < length c)%nat) as [Hlt|Hge].
    + by rewrite lookup_resize in Hy by lia.
    + by rewrite lookup_resize_new in Hy by lia.
  - intros i Hi Hs. apply lookup_lt_is_Some in Hs. by rewrite lookup_resize by lia.
Qed.

(** What the queries see of it. *)
Lemma ancestry_at m x b c i : m !! x = Some b -> ancestry m x b c -> 0 <= i <= nHeight b ->
  chain_at c i = up m (Z.to_nat (nHeight b - i)) x.
Proof.
  intros Hb [Hlen Hc] Hi. unfold chain_at, len. rewrite Hlen.
  rewrite (proj2 (Z.ltb_ge _ _)), (proj2 (Z.leb_gt _ _)) by lia. cbn [orb]. rewrite Hc by lia. cbn.
  f_equal. lia.
Qed.

Lemma ancestry_contains m x b c y b_y : index_ok m -> m !! x = Some b -> ancestry m x b c -> m !! y = Some b_y ->
  Contains m c y = Ok (bool_decide (nHeight b_y <= nHeight b /\ up m (Z.to_nat (nHeight b - nHeight b_y)) x = Some y)).
Proof.
  intros Hm Hb Hc Hy. unfold Contains. rewrite (deref_Some _ _ _ Hy). rbind. f_equal.
  pose proof (index_height _ _ _ Hm Hy). pose proof (index_height _ _ _ Hm Hb). apply bool_decide_ext.
  destruct (decide (nHeight b_y <= nHeight b)) as [Hle|Hgt].
  - rewrite (ancestry_at m x b c) by (done || lia). tauto.
  - split; [|lia]. unfold chain_at, len. rewrite (proj1 Hc).
    rewrite (proj2 (Z.leb_le _ _)), orb_true_r by lia. done.
Qed.

(** Membership in the chain is being an ancestor of its tip. *)
Lemma contains_ancestor m x b c y b_y : index_ok m -> m !! x = Some b -> ancestry m x b c -> m !! y = Some b_y ->
  exists here, Contains m c y = Ok here /\ (here = true <-> ancestor_of m y x).
Proof.
  intros Hm Hb Hc Hy. rewrite (ancestry_contains m x b c y b_y) by done. eexists. split; [done|].
  rewrite bool_decide_eq_true. split; [intros [_ U]; by eexists|].
  intros Ha. destruct (ancestor_height m y x b Hm Hb Ha) as (? & ? & Hle & U). by simplify_eq.
Qed.

Lemma fork_loop_spec fuel m x b c p bp : index_ok m -> m !! x = Some b -> ancestry m x b c -> m !! p = Some bp ->
  nHeight bp < Z.of_nat fuel ->
  exists r, fork_loop fuel m c (Some p) = Ok r /\
    (forall y, r = Some y -> common_ancestor m y p x) /\
    (forall y, common_ancestor m y p x -> exists z, r = Some z /\ ancestor_of m y z).
Proof.
  intros Hm Hb Hc. revert p bp. induction fuel as [|fuel IH]; intros p bp Hp Hf;
    pose proof (index_height _ _ _ Hm Hp) as H0; [lia|]. cbn [fork_loop].
  destruct (contains_ancestor m x b c p bp Hm Hb Hc Hp) as (here & -> & Hh). rbind. destruct here.
  { exists (Some p). split; [done|]. pose proof (proj1 Hh eq_refl) as Ha.
    split; [intros y [= <-]; split; [apply ancestor_refl|done]|]. intros y [Hy _]. eauto. }
  assert (~ ancestor_of m p x) as Hna by (intros Ha; by apply Hh in Ha).
  rewrite (deref_Some _ _ _ Hp). rbind.
  destruct (links m p bp Hm Hp) as [(Hz & -> & _)|(Hpos & q & bq & _ & _ & -> & _ & Lq & Hq & Aq & _)].
  - exists None. split; [by destruct fuel|]. split; [done|]. intros y [Hy1 Hy2]. exfalso. apply Hna.
    destruct (ancestor_height m y p bp Hm Hp Hy1) as (b_y & Ly & Hle & _).
    pose proof (index_height _ _ _ Hm Ly).
    rewrite <- (ancestor_unique m y p p bp b_y bp) by (auto using ancestor_refl; lia). done.
  - destruct (IH q bq Lq ltac:(lia)) as (r & -> & Hr1 & Hr2). exists r. split; [done|]. split.
    + intros y Hy. destruct (Hr1 y Hy) as [Y1 Y2]. split; [by apply (ancestor_trans m y q)|done].
    + intros y [Y1 Y2]. apply Hr2. split; [|done].
      destruct (ancestor_height m y p bp Hm Hp Y1) as (b_y & Ly & Hle & _).
      apply (ancestors_linear m y q p bp b_y bq); try done.
      destruct (decide (nHeight b_y = nHeight bp)) as [E|]; [|lia]. exfalso. apply Hna.
      by rewrite <- (ancestor_unique m y p p bp b_y bp) by auto using ancestor_refl.
Qed.

Lemma FindFork_spec m c t bt x bx : index_ok m -> m !! t = Some bt -> ancestry m t bt c -> m !! x = Some bx ->
  exists r, FindFork m c x = Ok r /\
    (forall y, r = Some y -> common_ancestor m y x t) /\
    (forall y, common_ancestor m y x t -> exists z, r = Some z /\ ancestor_of m y z).
Proof.
  intros Hm Ht Ha Hx. pose proof (index_height _ _ _ Hm Ht) as H0. pose proof (index_height _ _ _ Hm Hx) as H0x.
  assert (Height c = nHeight bt) as Hh by (unfold Height, len; rewrite (proj1 Ha); lia).
  unfold FindFork. rewrite (deref_Some _ _ _ Hx), Hh. rbind.
  destruct (Z.ltb_spec (nHeight bt) (nHeight bx)) as [Hlt|Hge].
  - destruct (rewind m x bx (nHeight bt) Hm Hx ltac:(lia)) as (q & bq & -> & Lq & Hq & Aq). rbind.
    destruct (fork_loop_spec (S (Z.to_nat (nHeight bx))) m t bt c q bq Hm Ht Ha Lq ltac:(lia))
      as (r & -> & Hr1 & Hr2). exists r. split; [done|]. split.
    + intros y Hy. destruct (Hr1 y Hy) as [Y1 Y2]. split; [by apply (ancestor_trans m y q)|done].
    + intros y [Y1 Y2]. apply Hr2. split; [|done].
      destruct (ancestor_height m y t bt Hm Ht Y2) as (b_y & Ly & Hle & _).
      apply (ancestors_linear m y q x bx b_y bq); try done; lia.
  - rbind. apply (fork_loop_spec _ m t bt c x bx); try done; lia.
Qed.

(** ** Properties *)

(** C14: the function that jumps along the skip pointers of two entries finds
    their last common ancestor: a common ancestor of which every other common
    ancestor is an ancestor, or a null pointer when there is none.  It always
    returns. *)
Theorem last_common_ancestor (m : BlockMap) (pa pb : uint256) (a b : CBlockIndex) :
  index_ok m -> m !! pa = Some a -> m !! pb = Some b ->
  exists r, LastCommonAncestor m pa pb = Ok r /\
    (forall x, r = Some x -> common_ancestor m x pa pb) /\
    (forall y, common_ancestor m y pa pb -> exists x, r = Some x /\ ancestor_of m y x).
Proof.
  intros Hm Ha Hb. unfold LastCommonAncestor.
  rewrite (deref_Some _ _ _ Ha), (deref_Some _ _ _ Hb). rbind.
  pose proof (index_height _ _ _ Hm Ha) as H0a. pose proof (index_height _ _ _ Hm Hb) as H0b.
  destruct (Z.ltb_spec (nHeight b) (nHeight a)) as [Hlt|Hge];
    [|destruct (Z.ltb_spec (nHeight a) (nHeight b)) as [Hlt|Hge']].
  - destruct (rewind m pa a (nHeight b) Hm Ha ltac:(lia)) as (q & bq & -> & Lq & Hq & Aq). rbind.
    destruct (common_loop_spec (S (Z.to_nat (Z.min (nHeight a) (nHeight b)))) m q pb bq b Hm Lq Hb
      ltac:(lia) ltac:(lia)) as (r & -> & Hr1 & Hr2).
    exists r. split; [done|]. split.
    + intros x Hx. destruct (Hr1 x Hx) as [X1 X2]. split; [by apply (ancestor_trans m x q)|done].
    + intros y [Y1 Y2]. apply Hr2. split; [|done].
      destruct (ancestor_height m y pb b Hm Hb Y2) as (b_y & Ly & Hle & _).
      apply (ancestors_linear m y q pa a b_y bq); try done; lia.
  - destruct (rewind m pb b (nHeight a) Hm Hb ltac:(lia)) as (q & bq & -> & Lq & Hq & Aq). rbind.
    destruct (common_loop_spec (S (Z.to_nat (Z.min (nHeight a) (nHeight b)))) m pa q a bq Hm Ha Lq
      ltac:(lia) ltac:(lia)) as (r & -> & Hr1 & Hr2).
    exists r. split; [done|]. split.
    + intros x Hx. destruct (Hr1 x Hx) as [X1 X2]. split; [done|by apply (ancestor_trans m x q)].
    + intros y [Y1 Y2]. apply Hr2. split; [done|].
      destruct (ancestor_height m y pa a Hm Ha Y1) as (b_y & Ly & Hle & _).
      apply (ancestors_linear m y q pb b b_y bq); try done; lia.
  - rbind. apply (common_loop_spec _ m pa pb a b); try done; lia.
Qed.

(** C40: [LocatorEntries] always returns.  The locator of an entry begins with the
    entry and its eleven nearest ancestors, goes on with ancestors of falling height, ends at the root, and
    has at most twelve entries more than the logarithm of the height. *)
Theorem locator_entries (m : BlockMap) (p : uint256) (b : CBlockIndex) :
  index_ok m -> m !! p = Some b ->
  exists l, LocatorEntries m (Some p) = Ok (p :: l) /\ descends m (p :: l) /\
    len (p :: l) <= 12 + Z.log2 (nHeight b) /\
    forall i, (i <= 11)%nat -> Z.of_nat i <= nHeight b -> (p :: l) !! i = up m i p.
Proof.
  intros Hm Hb. unfold LocatorEntries. rewrite (deref_Some _ _ _ Hb). rbind.
  pose proof (index_height _ _ _ Hm Hb) as H0. pose proof (Z.log2_nonneg (nHeight b)) as Hlog.
  destruct (locator_loop_spec (S (Z.to_nat (nHeight b))) m p b [] 1 (S (Z.to_nat (Z.log2 (nHeight b)))) Hm Hb)
    as (l & -> & D & Hl & Hc); try lia.
  { rewrite Nat2Z.inj_succ, Z2Nat.id by lia. destruct (decide (nHeight b = 0)) as [->|]; [done|].
    pose proof (Z.log2_spec (nHeight b) ltac:(lia)). lia. }
  exists l. split; [done|]. split; [done|]. change (len (@nil uint256)) with 0 in *.
  split; [lia|]. intros i Hi. apply Hc. lia.
Qed.

(** C15: setting the tip of the active chain, which stops rewriting where the old and
    the new chain agree, leaves exactly the ancestors of the new tip, by their
    heights; the fork that [FindFork] finds in it is the last common ancestor of
    the tip and the entry, and both always return. *)
Theorem active_chain (m : BlockMap) (c : CChain) (t x : uint256) (bt bx : CBlockIndex) :
  index_ok m -> chain_ok m c -> m !! t = Some bt -> m !! x = Some bx ->
  exists c' r, SetTip m c t = Ok c' /\ chain_ok m c' /\ Tip c' = Some t /\ Height c' = nHeight bt /\
    (forall height, chain_at c' height =
       if (height <? 0) || (nHeight bt <? height) then None
       else up m (Z.to_nat (nHeight bt - height)) t) /\
    FindFork m c' x = Ok r /\
    (forall y, r = Some y -> common_ancestor m y x t) /\
    (forall y, common_ancestor m y x t -> exists z, r = Some z /\ ancestor_of m y z).
Proof.
  intros Hm Hc Ht Hx. destruct (SetTip_spec m c t bt Hm Hc Ht) as (c' & E & Ha).
  pose proof (index_height _ _ _ Hm Ht) as H0. pose proof (index_height _ _ _ Hm Hx) as H0x.
  assert (Height c' = nHeight bt) as Hh by (unfold Height, len; rewrite (proj1 Ha); lia).
  destruct (FindFork_spec m c' t bt x bx Hm Ht Ha Hx) as (r & Er & Hr).
  exists c', r. split; [done|]. split; [by apply (ancestry_chain_ok m t bt)|].
  split; [|split; [done|split; [|done]]].
  - unfold Tip. rewrite last_lookup, (proj1 Ha). cbn [Nat.pred]. rewrite (proj2 Ha) by lia.
    by rewrite Nat.sub_diag.
  - intros h. destruct (Z.ltb_spec h 0); [unfold chain_at; by rewrite (proj2 (Z.ltb_lt _ _))|].
    destruct (Z.ltb_spec (nHeight bt) h); cbn [orb]; [|by apply ancestry_at].
    unfold chain_at, len. rewrite (proj1 Ha), (proj2 (Z.leb_le _ _)), orb_true_r by lia. done.
Qed.

(** The difference of work of two entries in seconds, at the rate of the work of
    a third one; a difference beyond 63 bits is capped. *)
Lemma equivalent_time (to from tip : CBlockIndex) (params : Params) :
  uint_wf (nChainWork to) -> uint_wf (nChainWork from) -> 0 <= bBits tip < 2 ^ 32 ->
  0 <= nPowTargetSpacing params < 2 ^ 64 ->
  GetBlockProofEquivalentTime to from tip params =
  let wt := eval (nChainWork to) in
  let wf := eval (nChainWork from) in
  let d := (Z.abs (wt - wf) * nPowTargetSpacing params) mod 2 ^ 256 / work_of (bBits tip) in
  if work_of (bBits tip) =? 0 then Throw UintError
  else Ok ((if wf <? wt then 1 else -1) * Z.min d (2 ^ 63 - 1)).
Proof.
  intros Ht Hf Hb Hs. unfold GetBlockProofEquivalentTime. cbv zeta.
  pose proof (conj Ht eq_refl : repr _ (eval (nChainWork to))) as Rt.
  pose proof (conj Hf eq_refl : repr _ (eval (nChainWork from))) as Rf.
  set (wt := eval (nChainWork to)) in *. set (wf := eval (nChainWork from)) in *.
  pose proof (repr_bounds _ _ Rt) as Bt. pose proof (repr_bounds _ _ Rf) as Bf.
  rewrite (uint_gt_repr _ _ _ _ Rt Rf).
  assert (exists r, (if wf <? wt then (uint_sub (nChainWork to) (nChainWork from), 1)
    else (uint_sub (nChainWork from) (nChainWork to), -1)) = (r, if wf <? wt then 1 else -1) /\
    repr r (Z.abs (wt - wf))) as (r & -> & Hr).
  { destruct (Z.ltb_spec wf wt); eexists; (split; [done|]).
    - pose proof (uint_sub_repr _ _ _ _ Rt Rf) as H'. rewrite Z.mod_small in H' by lia.
      by rewrite Z.abs_eq by lia.
    - pose proof (uint_sub_repr _ _ _ _ Rf Rt) as H'. rewrite Z.mod_small in H' by lia.
      by replace (Z.abs (wt - wf)) with (wf - wt) by lia. }
  destruct (GetBitsProof_spec _ Hb) as (w & -> & Hw). rbind.
  pose proof (uint_mul_repr _ _ _ _ Hr (uint_of_repr _ Hs)) as Hm. pose proof (repr_bounds _ _ Hw) as Bw.
  destruct (Z.eqb_spec (work_of (bBits tip)) 0) as [E|E].
  { rewrite E in Hw. by rewrite (uint_div_zero _ _ Hw). }
  destruct (uint_div_repr _ _ _ _ Hm Hw ltac:(lia)) as (q & -> & Hq). rbind.
  rewrite (uint_bits_repr _ _ Hq), (GetLow64_repr _ _ Hq). pose proof (repr_bounds _ _ Hq) as Bq.
  set (d := _ / work_of _) in *. pose proof (nbits_le_iff d 63 ltac:(lia) ltac:(lia)) as Hn.
  destruct (Z.ltb_spec 63 (nbits d)).
  - by rewrite Z.min_r by lia.
  - by rewrite Z.min_l, Z.mod_small by lia.
Qed.

(** ** Examples *)

(** Two children of the same block. *)
Definition forked : BlockMap := m_block_index (m_blockman (extend retired_params [block1; block2; block2'])).

Lemma forked_ok : index_ok forked.
Proof.
  refine (proj1 (inv_index (SHA := platform_sha256) retired_params _
    (reachable_inv (SHA := platform_sha256) retired_params retired_params_ok main_genesis retired_genesis_ok _ _))).
  apply extend_reachable; [apply retired_params_ok|apply retired_genesis_ok|repeat constructor; cbn; lia|by vm_compute].
Qed.

Lemma last_common_ancestor_witness :
  exists r, LastCommonAncestor forked (GetHash (SHA := platform_sha256) block2)
                                      (GetHash (SHA := platform_sha256) block2') = Ok r.
Proof.
  destruct (has_entry_spec (extend retired_params [block1; block2; block2']) block2 2 ltac:(by vm_compute))
    as (a & Ha & _).
  destruct (has_entry_spec (extend retired_params [block1; block2; block2']) block2' 2 ltac:(by vm_compute))
    as (b & Hb & _).
  destruct (last_common_ancestor forked (GetHash (SHA := platform_sha256) block2)
    (GetHash (SHA := platform_sha256) block2') a b forked_ok Ha Hb) as (r & E & _).
  exact (ex_intro _ r E).
Defined.

Lemma forked_at_block1 :
  LastCommonAncestor forked (GetHash (SHA := platform_sha256) block2)
    (GetHash (SHA := platform_sha256) block2') = Ok (Some (GetHash (SHA := platform_sha256) block1)).
Proof. by vm_compute. Qed.

Lemma locator_entries_witness :
  exists l, LocatorEntries forked (Some (GetHash (SHA := platform_sha256) block2)) =
            Ok (GetHash (SHA := platform_sha256) block2 :: l).
Proof.
  destruct (has_entry_spec (extend retired_params [block1; block2; block2']) block2 2 ltac:(by vm_compute))
    as (a & Ha & _).
  destruct (locator_entries forked (GetHash (SHA := platform_sha256) block2) a forked_ok Ha) as (l & E & _).
  exact (ex_intro _ l E).
Defined.

Lemma active_chain_witness :
  exists c r, SetTip forked [] (GetHash (SHA := platform_sha256) block2) = Ok c /\
    FindFork forked c (GetHash (SHA := platform_sha256) block2') = Ok r.
Proof.
  destruct (has_entry_spec (extend retired_params [block1; block2; block2']) block2 2 ltac:(by vm_compute))
    as (a & Ha & _).
  destruct (has_entry_spec (extend retired_params [block1; block2; block2']) block2' 2 ltac:(by vm_compute))
    as (b & Hb & _).
  destruct (active_chain forked [] (GetHash (SHA := platform_sha256) block2)
    (GetHash (SHA := platform_sha256) block2') a b forked_ok ltac:(intros [|i] p Hi; discriminate Hi) Ha Hb)
    as (c & r & E1 & _ & _ & _ & _ & E2 & _).
  exact (ex_intro _ c (ex_intro _ r (conj E1 E2))).
Defined.
