(* ===== verification/InvalidateBlock.v ===== *)
(** * The command invalidateblock

    [Chainstate::InvalidateBlock] of src/src/validation.cpp disconnects the active
    chain block by block down to the invalidated block.  It releases the lock of the
    chain state between two blocks, and it looks for a new best header only among
    the headers it collected before the first one.

    A turn stays within the reachable states of Headers ([invalidate_turn_reachable]),
    so that what is shown of the entries holds.  But the command is not among the
    operations of [maintained]: a header that arrives between two blocks can be left
    out, so that the best header has less work than an entry that is valid.
    [invalidate_forgets_header] is such a run.

    Not modelled are the coins and the mempool of the disconnected blocks, the
    candidates for the active chain, and interrupted runs. *)

From stdpp Require Import gmap.
From S2P Require Import Prelude Uint256 Framing Chain Pow Invalidation Headers Ancestry.

(** ** Operations *)

Section invalidate.
(** How [CBlockIndexWorkComparator] orders entries of the same work, by sequence
    number and address. *)
Context (later : uint256 -> uint256 -> bool).

(** [CBlockIndexWorkComparator]. *)
Definition work_less (m : BlockMap) (pa pb : uint256) : res bool :=
  a ← deref m pa;
  b ← deref m pb;
  if uint_gt (nChainWork a) (nChainWork b) then Ok false
  else if uint_lt (nChainWork a) (nChainWork b) then Ok true
  else Ok (later pa pb).

(** [std::multimap::insert] with the work as key: behind the entries of the same
    work. *)
Fixpoint multimap_insert (m : BlockMap) (work : base_uint) (x : uint256) (l : list uint256) : res (list uint256) :=
  match l with
  | [] => Ok [x]
  | y :: l' =>
    b ← deref m y;
    if uint_gt (nChainWork b) work then Ok (x :: l)
    else l' ← multimap_insert m work x l'; Ok (y :: l')
  end.

(** [highpow_outofchain_headers]: the headers outside of the active chain that are
    not marked and not worse than the parent of the invalidated block. *)
Fixpoint outofchain_headers (m : BlockMap) (flags : gset uint256) (c : CChain) (parent : uint256)
    (entries : list uint256) (found : list uint256) : res (list uint256) :=
  match entries with
  | [] => Ok found
  | x :: entries =>
    here ← Contains m c x;
    take ← (if (here : bool) then Ok false
            else less ← work_less m x parent; Ok (negb less && negb (bool_decide (x ∈ flags))));
    found ← (if (take : bool) then b ← deref m x; multimap_insert m (nChainWork b) x found else Ok found);
    outofchain_headers m flags c parent entries found
  end.

(** The loop over the collected headers, from those with the work of the new tip
    on: the headers that stay collected, the marks, and the best header. *)
Fixpoint candidate_loop (m : BlockMap) (disconnected_tip : uint256) (height : Z) (tip_work : base_uint)
    (best_header_needs_update : bool) (headers : list uint256) (flags : gset uint256) (best : uint256)
    : res (list uint256 * gset uint256 * uint256) :=
  match headers with
  | [] => Ok ([], flags, best)
  | x :: headers =>
    candidate ← deref m x;
    if uint_lt (nChainWork candidate) tip_work then
      '(kept, flags, best) ← candidate_loop m disconnected_tip height tip_work best_header_needs_update headers flags best;
      Ok (x :: kept, flags, best)
    else
      hit ← has_ancestor m disconnected_tip height x;
      if (hit : bool) then
        candidate_loop m disconnected_tip height tip_work best_header_needs_update headers ({[x]} ∪ flags) best
      else
        b ← deref m best;
        let best := if best_header_needs_update && uint_lt (nChainWork b) (nChainWork candidate) then x else best in
        '(kept, flags, best) ← candidate_loop m disconnected_tip height tip_work best_header_needs_update headers flags best;
        Ok (x :: kept, flags, best)
  end.

(** One turn of the loop of [InvalidateBlock], under the lock: the tip is
    disconnected and marked. *)
Definition invalidate_turn (s : Chainman) (c : CChain) (headers : list uint256)
    : res (Chainman * CChain * list uint256 * uint256) :=
  let m := m_block_index (m_blockman s) in
  match Tip c, best_header (m_blockman s) with
  | Some disconnected_tip, Some best =>
    d ← deref m disconnected_tip;
    match pprev d with
    | None => Throw NullPointer
    | Some new_tip =>
      c ← SetTip m c new_tip;
      n ← deref m new_tip;
      best_header_needs_update ← has_ancestor m disconnected_tip (nHeight d) best;
      '(headers, flags, best) ← candidate_loop m disconnected_tip (nHeight d) (nChainWork n) best_header_needs_update
         headers ({[disconnected_tip]} ∪ failed s) (if (best_header_needs_update : bool) then new_tip else best);
      Ok ({| m_blockman := Manager m (Some best); failed := flags |}, c, headers, disconnected_tip)
    end
  | _, _ => Throw NullPointer
  end.

(** The end of [InvalidateBlock], when [pindex] was in the active chain: the last
    block that was disconnected and what is above it. *)
Definition invalidate_end (entries : list uint256) (s : Chainman) (c : CChain) (to_mark_failed : uint256)
    : res (option Chainman) :=
  here ← Contains (m_block_index (m_blockman s)) c to_mark_failed;
  if (here : bool) then Ok None
  else s ← InvalidChainFound entries s (Tip c) to_mark_failed; Ok (Some s).
End invalidate.

(** ** A turn and the entries *)

Lemma candidate_loop_known m d height work update headers : forall flags best kept flags' best',
  is_Some (m !! best) -> candidate_loop m d height work update headers flags best = Ok (kept, flags', best') ->
  is_Some (m !! best').
Proof.
  induction headers as [|x headers IH]; intros flags best kept flags' best' Hb; cbn [candidate_loop].
  { by intros [= <- <- <-]. }
  destruct (deref m x) as [candidate|] eqn:Ex; rbind; [|done]. unfold deref in Ex.
  destruct (uint_lt _ work).
  { destruct (candidate_loop _ _ _ _ _ _ _ _) as [[[k f] b]|] eqn:E; rbind; [|done]. intros [= <- <- <-]. by eapply IH. }
  destruct (has_ancestor _ _ _ _) as [[]|]; rbind; [by apply IH| |done].
  destruct Hb as [bb Eb]. rewrite (deref_Some _ _ _ Eb). rbind.
  destruct (candidate_loop _ _ _ _ _ _ _ _) as [[[k f] b]|] eqn:E; rbind; [|done]. intros [= <- <- <-].
  eapply IH; [|exact E]. destruct (update && _); [|by eexists]. by destruct (m !! x).
Qed.

Lemma invalidate_turn_reachable {SHA : Sha256} params genesis s c headers s' c' headers' d :
  params_ok params -> genesis_ok params genesis -> reachable params genesis s ->
  invalidate_turn s c headers = Ok (s', c', headers', d) -> reachable params genesis s'.
Proof.
  intros Hp Hg Hs. pose proof (proj2 (inv_index _ _ (reachable_inv params Hp genesis Hg s Hs))) as Hbest.
  unfold invalidate_turn. destruct (Tip c) as [t|]; [|done]. destruct (best_header (m_blockman s)) as [best|]; [|done].
  destruct (deref _ t) as [bt|]; rbind; [|done].
  destruct (pprev bt) as [new_tip|]; [|done]. destruct (SetTip _ _ _); rbind; [|done].
  destruct (deref _ new_tip) as [n|] eqn:En; rbind; [|done].
  destruct (has_ancestor _ _ _ _) as [update|]; rbind; [|done].
  destruct (candidate_loop _ _ _ _ _ _ _ _) as [[[k f] b]|] eqn:E; rbind; [|done]. intros [= <- <- <- <-].
  apply reachable_marks; [done|]. eapply candidate_loop_known; [|exact E]. destruct update; [|done].
  unfold deref in En. by destruct (m_block_index (m_blockman s) !! new_tip).
Qed.

(** ** A header between two turns *)

(** A block at the height of [block1]. *)
Definition block1' : CBlockHeader :=
  block_on 0x00000006b054338443f1a5d5534df21eab0d13232028158ae198edbb169f9dad 1781164494 0x1f7fffff 772.

(** The active chain is [block1] and [block2], and [block1] is invalidated; after
    [block2] is disconnected the header of [block1'] is accepted, if [arrives]. *)
Definition invalidate_block1 (arrives : bool) : res (option Chainman) :=
  let s := extend main_params [block1; block2] in
  let m := m_block_index (m_blockman s) in
  c ← SetTip m [] (GetHash (SHA := platform_sha256) block2);
  headers ← outofchain_headers (fun _ _ => false) m (failed s) c (hashPrevBlock block1) (keys m) [];
  '(s, c, headers, _) ← invalidate_turn s c headers;
  '(s, _) ← (if arrives then AcceptBlockHeader (SHA := platform_sha256) main_params false s 1781164714 block1' true
             else Ok (s, inr too_little_chainwork));
  '(s, c, headers, to_mark_failed) ← invalidate_turn s c headers;
  invalidate_end (keys (m_block_index (m_blockman s))) s c to_mark_failed.

(** The work of an entry. *)
Definition work_at (s : Chainman) (h : uint256) : Z :=
  match m_block_index (m_blockman s) !! h with Some b => eval (nChainWork b) | None => 0 end.

(** A header that is accepted while a block is invalidated has more work than the
    best header, and is not marked as failed. *)
Theorem invalidate_forgets_header :
  match invalidate_block1 true with
  | Ok (Some s) =>
    has_entry s block1' 1 && unmarked s block1' &&
    match best_header (m_blockman s) with
    | Some h => work_at s h <? work_at s (GetHash (SHA := platform_sha256) block1')
    | None => false
    end = true
  | _ => False
  end.
Proof. by vm_compute. Qed.

(** Without it the blocks above the genesis block are marked, and that block is the
    best header. *)
Lemma invalidate_without_header :
  match invalidate_block1 false with
  | Ok (Some s) =>
    bool_decide (best_header (m_blockman s) = Some (hashPrevBlock block1)) &&
    negb (unmarked s block1) && negb (unmarked s block2) = true
  | _ => False
  end.
Proof. by vm_compute. Qed.
