(* ===== verification/HeadersSync.v ===== *)
(** * Synchronisation of headers with a peer of unknown work

    src/src/headerssync.h and headerssync.cpp, and the checks of
    src/src/net_processing.cpp before it.

    The headers of a peer are downloaded twice.  In the first phase (PRESYNC) the
    node keeps only the work and one bit for some of the headers; once the work is
    enough, it downloads them again (REDOWNLOAD), compares the bits, and releases
    headers to validation that have enough others on top of them.

    Of a [HeadersSyncState] the constant members are a [SyncConst], and the others
    a [HeadersSyncState]; the reference [m_chain_start] is the key of the entry
    with the entry.  The salted hasher is any function. *)

From stdpp Require Import gmap.
From S2P Require Import Prelude Uint256 Framing Chain Pow Invalidation Headers Ancestry.

(** ** Data *)

(** [HeadersSyncParams] of kernel/chainparams.h. *)
Record HeadersSyncParams := MkHeadersSyncParams {
  commitment_period : Z;
  redownload_buffer_size : Z
}.

Record CompressedHeader := Compressed {
  cVersion : Z;
  cMerkleRoot : uint256;
  cTime : Z;
  cBits : Z;
  cNonce : Z
}.

(** The constructor of [CompressedHeader]. *)
Definition compress (header : CBlockHeader) : CompressedHeader :=
  {| cVersion := nVersion header; cMerkleRoot := hashMerkleRoot header; cTime := nTime header;
     cBits := nBits header; cNonce := nNonce header |}.

(** [CompressedHeader::GetFullHeader]. *)
Definition GetFullHeader (c : CompressedHeader) (hash_prev_block : uint256) : CBlockHeader :=
  {| nVersion := cVersion c; hashPrevBlock := hash_prev_block; hashMerkleRoot := cMerkleRoot c;
     nTime := cTime c; nBits := cBits c; nNonce := cNonce c |}.

Inductive State := PRESYNC | REDOWNLOAD | FINAL.

Global Instance State_eq_dec : EqDecision State.
Proof. solve_decision. Defined.

(** The constant members. *)
Record SyncConst := MkSyncConst {
  m_commit_offset : Z;
  m_consensus_params : Params;
  m_params : HeadersSyncParams;
  m_chain_start : uint256;
  chain_start : CBlockIndex;
  m_minimum_required_work : base_uint;
  m_hasher : uint256 -> Z;
  m_max_commitments : Z
}.

(** The other members. *)
Record HeadersSyncState := MkSync {
  m_download_state : State;
  m_current_chain_work : base_uint;
  m_header_commitments : list bool;
  m_last_header_received : CBlockHeader;
  m_current_height : Z;
  m_redownloaded_headers : list CompressedHeader;
  m_redownload_buffer_last_height : Z;
  m_redownload_buffer_last_hash : uint256;
  m_redownload_buffer_first_prev_hash : uint256;
  m_redownload_chain_work : base_uint;
  m_process_all_remaining_headers : bool
}.

Record ProcessingResult := MkResult {
  pow_validated_headers : list CBlockHeader;
  success : bool;
  request_more : bool
}.

(** [uint256::SetNull] and [CBlockHeader::SetNull]. *)
Definition null256 : uint256 := le_split 32 0.
Definition null_header : CBlockHeader := Header 0 null256 null256 0 0 0.

(** ** Operations *)

(** The constructor: the constant members; [offset] and [hasher] are random. *)
Definition NewSyncConst (consensus : Params) (params : HeadersSyncParams) (m : BlockMap) (start : uint256)
    (minimum_required_work : base_uint) (offset : Z) (hasher : uint256 -> Z) (now : Z) : res SyncConst :=
  if negb (0 <? commitment_period params) then Throw AssertFailed
  else
    entry ← deref m start;
    mtp ← GetMedianTimePast m start;
    let max_seconds_since_start := now - mtp + MAX_FUTURE_BLOCK_TIME in
    Ok {| m_commit_offset := offset; m_consensus_params := consensus; m_params := params;
          m_chain_start := start; chain_start := entry;
          m_minimum_required_work := minimum_required_work; m_hasher := hasher;
          m_max_commitments := u64 (6 * max_seconds_since_start) / commitment_period params |}.

(** The constructor: the other members. *)
Definition NewSync (K : SyncConst) : HeadersSyncState :=
  {| m_download_state := PRESYNC;
     m_current_chain_work := nChainWork (chain_start K);
     m_header_commitments := [];
     m_last_header_received := GetBlockHeader (chain_start K);
     m_current_height := nHeight (chain_start K);
     m_redownloaded_headers := [];
     m_redownload_buffer_last_height := 0;
     m_redownload_buffer_last_hash := null256;
     m_redownload_buffer_first_prev_hash := null256;
     m_redownload_chain_work := uint_zero;
     m_process_all_remaining_headers := false |}.

(** [Finalize]. *)
Definition Finalize (s : HeadersSyncState) : HeadersSyncState :=
  {| m_download_state := FINAL;
     m_current_chain_work := m_current_chain_work s;
     m_header_commitments := [];
     m_last_header_received := null_header;
     m_current_height := 0;
     m_redownloaded_headers := [];
     m_redownload_buffer_last_height := m_redownload_buffer_last_height s;
     m_redownload_buffer_last_hash := null256;
     m_redownload_buffer_first_prev_hash := null256;
     m_redownload_chain_work := m_redownload_chain_work s;
     m_process_all_remaining_headers := false |}.

(** [next_height % m_params.commitment_period == m_commit_offset]. *)
Definition commits (K : SyncConst) (height : Z) : bool :=
  u64 height mod commitment_period (m_params K) =? m_commit_offset K.

Section sync.
Context {SHA : Sha256} (K : SyncConst).

(** [m_hasher(header.GetHash()) & 1]. *)
Definition commitment_bit (header : CBlockHeader) : bool :=
  negb (Z.land (m_hasher K (GetHash header)) 1 =? 0).

(** [ValidateAndProcessSingleHeader]. *)
Definition ValidateAndProcessSingleHeader (s : HeadersSyncState) (current : CBlockHeader)
    : res (HeadersSyncState * bool) :=
  if negb (bool_decide (m_download_state s = PRESYNC)) then Ok (s, false)
  else
    let next_height := m_current_height s + 1 in
    permitted ← PermittedDifficultyTransition (m_consensus_params K) next_height
                  (nBits (m_last_header_received s)) (nBits current);
    if negb permitted then Ok (s, false)
    else
      let here := commits K next_height in
      let s := {| m_download_state := m_download_state s;
                  m_current_chain_work := m_current_chain_work s;
                  m_header_commitments := if here then m_header_commitments s ++ [commitment_bit current]
                                          else m_header_commitments s;
                  m_last_header_received := m_last_header_received s;
                  m_current_height := m_current_height s;
                  m_redownloaded_headers := m_redownloaded_headers s;
                  m_redownload_buffer_last_height := m_redownload_buffer_last_height s;
                  m_redownload_buffer_last_hash := m_redownload_buffer_last_hash s;
                  m_redownload_buffer_first_prev_hash := m_redownload_buffer_first_prev_hash s;
                  m_redownload_chain_work := m_redownload_chain_work s;
                  m_process_all_remaining_headers := m_process_all_remaining_headers s |} in
      if here && (m_max_commitments K <? len (m_header_commitments s)) then Ok (s, false)
      else
        proof ← GetBitsProof (nBits current);
        Ok ({| m_download_state := m_download_state s;
               m_current_chain_work := uint_add (m_current_chain_work s) proof;
               m_header_commitments := m_header_commitments s;
               m_last_header_received := current;
               m_current_height := next_height;
               m_redownloaded_headers := m_redownloaded_headers s;
               m_redownload_buffer_last_height := m_redownload_buffer_last_height s;
               m_redownload_buffer_last_hash := m_redownload_buffer_last_hash s;
               m_redownload_buffer_first_prev_hash := m_redownload_buffer_first_prev_hash s;
               m_redownload_chain_work := m_redownload_chain_work s;
               m_process_all_remaining_headers := m_process_all_remaining_headers s |}, true).

(** A loop over headers that stops at the first failure. *)
Fixpoint each_header (f : HeadersSyncState -> CBlockHeader -> res (HeadersSyncState * bool))
    (s : HeadersSyncState) (headers : list CBlockHeader) : res (HeadersSyncState * bool) :=
  match headers with
  | [] => Ok (s, true)
  | hdr :: headers => '(s, ok) ← f s hdr; if (ok : bool) then each_header f s headers else Ok (s, false)
  end.

(** [ValidateAndStoreHeadersCommitments]. *)
Definition ValidateAndStoreHeadersCommitments (s : HeadersSyncState) (headers : list CBlockHeader)
    : res (HeadersSyncState * bool) :=
  match headers with
  | [] => Ok (s, true)
  | first :: _ =>
    if negb (bool_decide (m_download_state s = PRESYNC)) then Ok (s, false)
    else if negb (bool_decide (hashPrevBlock first = GetHash (m_last_header_received s))) then Ok (s, false)
    else
      '(s, ok) ← each_header ValidateAndProcessSingleHeader s headers;
      if negb (ok : bool) then Ok (s, false)
      else if uint_ge (m_current_chain_work s) (m_minimum_required_work K)
      then Ok ({| m_download_state := REDOWNLOAD;
                  m_current_chain_work := m_current_chain_work s;
                  m_header_commitments := m_header_commitments s;
                  m_last_header_received := m_last_header_received s;
                  m_current_height := m_current_height s;
                  m_redownloaded_headers := [];
                  m_redownload_buffer_last_height := nHeight (chain_start K);
                  m_redownload_buffer_last_hash := m_chain_start K;
                  m_redownload_buffer_first_prev_hash := m_chain_start K;
                  m_redownload_chain_work := nChainWork (chain_start K);
                  m_process_all_remaining_headers := m_process_all_remaining_headers s |}, true)
      else Ok (s, true)
  end.

(** [ValidateAndStoreRedownloadedHeader]. *)
Definition ValidateAndStoreRedownloadedHeader (s : HeadersSyncState) (header : CBlockHeader)
    : res (HeadersSyncState * bool) :=
  if negb (bool_decide (m_download_state s = REDOWNLOAD)) then Ok (s, false)
  else
    let next_height := m_redownload_buffer_last_height s + 1 in
    if negb (bool_decide (hashPrevBlock header = m_redownload_buffer_last_hash s)) then Ok (s, false)
    else
      let previous_nBits := match last (m_redownloaded_headers s) with
                            | Some c => cBits c
                            | None => bBits (chain_start K)
                            end in
      permitted ← PermittedDifficultyTransition (m_consensus_params K) next_height previous_nBits (nBits header);
      if negb permitted then Ok (s, false)
      else
        proof ← GetBitsProof (nBits header);
        let work := uint_add (m_redownload_chain_work s) proof in
        let all := uint_ge work (m_minimum_required_work K) || m_process_all_remaining_headers s in
        let '(commitments, ok) :=
          if negb all && commits K next_height
          then match m_header_commitments s with
               | [] => ([], false)
               | expected :: rest => (rest, Bool.eqb (commitment_bit header) expected)
               end
          else (m_header_commitments s, true) in
        Ok ({| m_download_state := m_download_state s;
               m_current_chain_work := m_current_chain_work s;
               m_header_commitments := commitments;
               m_last_header_received := m_last_header_received s;
               m_current_height := m_current_height s;
               m_redownloaded_headers := if (ok : bool) then m_redownloaded_headers s ++ [compress header]
                                         else m_redownloaded_headers s;
               m_redownload_buffer_last_height := if ok then next_height else m_redownload_buffer_last_height s;
               m_redownload_buffer_last_hash := if ok then GetHash header else m_redownload_buffer_last_hash s;
               m_redownload_buffer_first_prev_hash := m_redownload_buffer_first_prev_hash s;
               m_redownload_chain_work := work;
               m_process_all_remaining_headers := all |}, ok).

(** The loop of [PopHeadersReadyForAcceptance]: what it returns, and the buffer and
    [m_redownload_buffer_first_prev_hash] after it. *)
Fixpoint pop_loop (all : bool) (buffer : list CompressedHeader) (first_prev_hash : uint256)
    : list CBlockHeader * list CompressedHeader * uint256 :=
  match buffer with
  | [] => ([], [], first_prev_hash)
  | front :: rest =>
    if (redownload_buffer_size (m_params K) <? len buffer) || ((0 <? len buffer) && all)
    then let full := GetFullHeader front first_prev_hash in
         let '(ret, buffer, hash) := pop_loop all rest (GetHash full) in
         (full :: ret, buffer, hash)
    else ([], buffer, first_prev_hash)
  end.

(** [PopHeadersReadyForAcceptance]. *)
Definition PopHeadersReadyForAcceptance (s : HeadersSyncState) : HeadersSyncState * list CBlockHeader :=
  if negb (bool_decide (m_download_state s = REDOWNLOAD)) then (s, [])
  else
    let '(ret, buffer, hash) := pop_loop (m_process_all_remaining_headers s) (m_redownloaded_headers s)
                                  (m_redownload_buffer_first_prev_hash s) in
    ({| m_download_state := m_download_state s;
        m_current_chain_work := m_current_chain_work s;
        m_header_commitments := m_header_commitments s;
        m_last_header_received := m_last_header_received s;
        m_current_height := m_current_height s;
        m_redownloaded_headers := buffer;
        m_redownload_buffer_last_height := m_redownload_buffer_last_height s;
        m_redownload_buffer_last_hash := m_redownload_buffer_last_hash s;
        m_redownload_buffer_first_prev_hash := hash;
        m_redownload_chain_work := m_redownload_chain_work s;
        m_process_all_remaining_headers := m_process_all_remaining_headers s |}, ret).

(** [ProcessNextHeaders]. *)
Definition ProcessNextHeaders (s : HeadersSyncState) (received_headers : list CBlockHeader)
    (full_headers_message : bool) : res (HeadersSyncState * ProcessingResult) :=
  match received_headers, m_download_state s with
  | [], _ | _, FINAL => Ok (s, MkResult [] false false)
  | _, PRESYNC =>
    '(s, ok) ← ValidateAndStoreHeadersCommitments s received_headers;
    let more := (ok : bool) && (full_headers_message || bool_decide (m_download_state s = REDOWNLOAD)) in
    Ok (if ok && more then s else Finalize s, MkResult [] ok more)
  | _, REDOWNLOAD =>
    '(s, ok) ← each_header ValidateAndStoreRedownloadedHeader s received_headers;
    if negb (ok : bool) then Ok (Finalize s, MkResult [] false false)
    else
      let '(s, ret) := PopHeadersReadyForAcceptance s in
      let complete := bool_decide (m_redownloaded_headers s = []) && m_process_all_remaining_headers s in
      let more := negb complete && full_headers_message in
      Ok (if more then s else Finalize s, MkResult ret true more)
  end.

(** [NextHeadersRequestLocator]. *)
Definition NextHeadersRequestLocator (m : BlockMap) (s : HeadersSyncState) : res (list uint256) :=
  match m_download_state s with
  | FINAL => Ok []
  | state =>
    chain_start_locator ← LocatorEntries m (Some (m_chain_start K));
    Ok ((if bool_decide (state = PRESYNC) then [GetHash (m_last_header_received s)] else []) ++
        (if bool_decide (state = REDOWNLOAD) then [m_redownload_buffer_last_hash s] else []) ++
        chain_start_locator)
  end.
End sync.

(** [CheckHeadersAreContinuous] of net_processing.cpp, from [hashLastBlock] on. *)
Fixpoint continuous_from {SHA : Sha256} (hashLastBlock : uint256) (headers : list CBlockHeader) : bool :=
  match headers with
  | [] => true
  | header :: headers =>
    if negb (bool_decide (hashLastBlock = null256)) && negb (bool_decide (hashPrevBlock header = hashLastBlock))
    then false else continuous_from (GetHash header) headers
  end.

Definition CheckHeadersAreContinuous {SHA : Sha256} (headers : list CBlockHeader) : bool :=
  continuous_from null256 headers.

(** [HasValidProofOfWork] of validation.cpp. *)
Definition HasValidProofOfWork {SHA : Sha256} (headers : list CBlockHeader) (params : Params) (fuzz : bool) : bool :=
  forallb (fun header => CheckProofOfWork fuzz (GetHash header) (nBits header) params) headers.

(** [CheckHeadersPoW] of net_processing.cpp. *)
Definition CheckHeadersPoW {SHA : Sha256} (headers : list CBlockHeader) (params : Params) (fuzz : bool) : bool :=
  HasValidProofOfWork headers params fuzz && CheckHeadersAreContinuous headers.

(** ** Chains of headers *)

Section chains.
Context {SHA : Sha256}.

(** Each header names the hash of the one before it. *)
Fixpoint linked (prev : uint256) (l : list CBlockHeader) : Prop :=
  match l with [] => True | h :: l => hashPrevBlock h = prev /\ linked (GetHash h) l end.

(** The hash and the target of the last header. *)
Definition tip (prev : uint256) (l : list CBlockHeader) : uint256 :=
  match last l with Some h => GetHash h | None => prev end.

Definition tip_bits (bits : Z) (l : list CBlockHeader) : Z :=
  match last l with Some h => nBits h | None => bits end.

(** The work of a chain, modulo [2^256] as the code adds it up. *)
Fixpoint work_after (w : Z) (l : list CBlockHeader) : Z :=
  match l with [] => w | h :: l => work_after ((w + work_of (nBits h)) mod 2 ^ 256) l end.

(** Some header brings the work to the threshold. *)
Fixpoint reaches (least w : Z) (l : list CBlockHeader) : bool :=
  match l with
  | [] => false
  | h :: l => let w := (w + work_of (nBits h)) mod 2 ^ 256 in (least <=? w) || reaches least w l
  end.

(** The headers before the one that does. *)
Fixpoint before (least w : Z) (l : list CBlockHeader) : list CBlockHeader :=
  match l with
  | [] => []
  | h :: l => let w := (w + work_of (nBits h)) mod 2 ^ 256 in
              if least <=? w then [] else h :: before least w l
  end.

(** The bits at the heights of the commitments. *)
Fixpoint bits_of (K : SyncConst) (height : Z) (l : list CBlockHeader) : list bool :=
  match l with
  | [] => []
  | h :: l => (if commits K (height + 1) then [commitment_bit K h] else []) ++ bits_of K (height + 1) l
  end.

(** Every change of the target is permitted. *)
Fixpoint permitted (params : Params) (height bits : Z) (l : list CBlockHeader) : Prop :=
  match l with
  | [] => True
  | h :: l => PermittedDifficultyTransition params (height + 1) bits (nBits h) = Ok true /\
              permitted params (height + 1) (nBits h) l
  end.

Lemma tip_snoc prev l h : tip prev (l ++ [h]) = GetHash h.
Proof. unfold tip. by rewrite last_snoc. Qed.

Lemma tip_bits_snoc bits l h : tip_bits bits (l ++ [h]) = nBits h.
Proof. unfold tip_bits. by rewrite last_snoc. Qed.

Lemma tip_app prev l l' : tip prev (l ++ l') = tip (tip prev l) l'.
Proof. unfold tip. rewrite last_app. by destruct (last l'). Qed.

Lemma linked_app prev l l' : linked prev (l ++ l') <-> linked prev l /\ linked (tip prev l) l'.
Proof.
  revert prev. induction l as [|h l IH]; intros prev; [by cbn; intuition|].
  cbn [app linked]. rewrite IH. replace (tip prev (h :: l)) with (tip (GetHash h) l); [tauto|].
  unfold tip. rewrite last_cons. by destruct (last l).
Qed.

Lemma work_after_app w l l' : work_after w (l ++ l') = work_after (work_after w l) l'.
Proof. revert w. induction l as [|h l IH]; intros w; cbn; auto. Qed.

Lemma bits_of_app K height l l' :
  bits_of K height (l ++ l') = bits_of K height l ++ bits_of K (height + len l) l'.
Proof.
  revert height. induction l as [|h l IH]; intros height.
  - cbn. by replace (height + len (@nil CBlockHeader)) with height by (unfold len; cbn; lia).
  - cbn [app bits_of]. rewrite IH, <- app_assoc. do 3 f_equal. unfold len. cbn [length]. lia.
Qed.

Lemma permitted_app params height bits l l' : permitted params height bits (l ++ l') <->
  permitted params height bits l /\ permitted params (height + len l) (tip_bits bits l) l'.
Proof.
  revert height bits. induction l as [|h l IH]; intros height bits.
  - cbn. replace (height + len (@nil CBlockHeader)) with height by (unfold len; cbn; lia). tauto.
  - cbn [app permitted]. rewrite IH.
    replace (height + 1 + len l) with (height + len (h :: l)) by (unfold len; cbn [length]; lia).
    replace (tip_bits bits (h :: l)) with (tip_bits (nBits h) l); [tauto|].
    unfold tip_bits. rewrite last_cons. by destruct (last l).
Qed.

Lemma reaches_snoc least w l h :
  reaches least w (l ++ [h]) = reaches least w l || (least <=? work_after w (l ++ [h])).
Proof.
  revert w. induction l as [|x l IH]; intros w; cbn [app reaches work_after].
  - by rewrite orb_false_r.
  - by rewrite IH, orb_assoc.
Qed.

Lemma before_snoc least w l h : before least w (l ++ [h]) =
  if reaches least w l then before least w l
  else if least <=? work_after w (l ++ [h]) then l else l ++ [h].
Proof.
  revert w. induction l as [|x l IH]; intros w; cbn [app reaches before work_after].
  - by case_match.
  - destruct (least <=? _); [done|]. cbn [orb]. rewrite IH. by repeat case_match.
Qed.

Lemma before_below least w l : reaches least w l = false -> before least w l = l.
Proof.
  revert w. induction l as [|x l IH]; intros w; cbn [reaches before]; [done|].
  destruct (least <=? _); [done|]. cbn [orb]. intros H. by rewrite IH.
Qed.

Lemma before_prefix least w l : exists l', l = before least w l ++ l'.
Proof.
  revert w. induction l as [|x l IH]; intros w; cbn [before]; [by exists []|].
  case_match; [by exists (x :: l)|]. destruct (IH ((w + work_of (nBits x)) mod 2 ^ 256)) as [l' E].
  exists l'. cbn. by f_equal.
Qed.

Lemma before_app least w l l' : exists l2, before least w (l ++ l') = before least w l ++ l2.
Proof.
  revert w. induction l as [|x l IH]; intros w; cbn [app before]; [by eexists|].
  case_match; [by exists []|]. destruct (IH ((w + work_of (nBits x)) mod 2 ^ 256)) as [l2 E].
  exists l2. cbn. by f_equal.
Qed.

(** The check of the caller, up to headers whose hash is zero. *)
Lemma continuous_linked l : CheckHeadersAreContinuous l = true ->
  Forall (fun h => GetHash h <> null256) l ->
  match l with [] => True | h :: l => linked (GetHash h) l end.
Proof.
  unfold CheckHeadersAreContinuous.
  assert (forall prev l, prev <> null256 -> continuous_from prev l = true ->
    Forall (fun h => GetHash h <> null256) l -> linked prev l) as H.
  { clear l. intros prev l. revert prev. induction l as [|h l IH]; intros prev Hp; cbn [continuous_from linked]; [done|].
    rewrite bool_decide_eq_false_2 by done. cbn [negb andb].
    case_bool_decide; cbn [negb]; [|done]. intros Hc Hf. inversion Hf. auto. }
  destruct l as [|h l]; [done|]. cbn [continuous_from]. rewrite bool_decide_eq_true_2 by done. cbn [negb andb].
  intros Hc Hf. inversion Hf. auto.
Qed.
End chains.

(** The check of a change of target never fails. *)
Lemma permitted_total params height old new : params_ok params -> 0 <= old < 2 ^ 32 -> 0 <= new < 2 ^ 32 ->
  exists b, PermittedDifficultyTransition params height old new = Ok b.
Proof.
  intros Hp Ho Hn. unfold PermittedDifficultyTransition. destruct (allowMinDifficulty _ _); [eauto|].
  destruct (_ =? 0); [|case_match; eauto]. destruct (SetCompact new) as [[t ?] ?].
  pose proof (quarter_bounds params Hp). destruct Hp as [] eqn:E. rewrite Z.quot_div_nonneg by lia. cbv zeta.
  destruct (transition_bound_spec params Hp old (nPowTargetTimespan params * 4) Ho ltac:(lia)) as (mx & -> & _).
  destruct (transition_bound_spec params Hp old (nPowTargetTimespan params / 4) Ho ltac:(lia)) as (mn & -> & _).
  rbind. repeat case_match; eauto.
Qed.

(** ** The invariant *)

(** What the constructor relies on: the entry has the hash it is found by, and the
    numbers are within their types. *)
Record const_ok {SHA : Sha256} (K : SyncConst) : Prop := {
  k_params : params_ok (m_consensus_params K);
  k_hash : GetHash (GetBlockHeader (chain_start K)) = m_chain_start K;
  k_bits : 0 <= bBits (chain_start K) < 2 ^ 32;
  k_work : uint_wf (nChainWork (chain_start K));
  k_least : uint_wf (m_minimum_required_work K);
  k_max : 0 <= m_max_commitments K;
  k_buffer : 0 < redownload_buffer_size (m_params K)
}.

Section invariant.
Context {SHA : Sha256} (K : SyncConst) (HK : const_ok K).

Definition start_work : Z := eval (nChainWork (chain_start K)).
Definition least_work : Z := eval (m_minimum_required_work K).

(** The fields of a header are within their types, and its hash meets its target. *)
Definition checked (h : CBlockHeader) : Prop :=
  header_ok h /\ CheckProofOfWork false (GetHash h) (nBits h) (m_consensus_params K) = true.

(** A chain of headers on top of the start. *)
Record on_start (l : list CBlockHeader) : Prop := {
  on_linked : linked (m_chain_start K) l;
  on_ok : Forall checked l;
  on_permitted : permitted (m_consensus_params K) (nHeight (chain_start K)) (bBits (chain_start K)) l
}.

Definition work_to (l : list CBlockHeader) : Z := work_after start_work l.
Definition commitments_to (l : list CBlockHeader) : list bool := bits_of K (nHeight (chain_start K)) l.

(** In the first phase [P] has been received. *)
Record presync (P : list CBlockHeader) (s : HeadersSyncState) : Prop := {
  pre_state : m_download_state s = PRESYNC;
  pre_chain : on_start P;
  pre_height : m_current_height s = nHeight (chain_start K) + len P;
  pre_hash : GetHash (m_last_header_received s) = tip (m_chain_start K) P;
  pre_bits : nBits (m_last_header_received s) = tip_bits (bBits (chain_start K)) P;
  pre_work : repr (m_current_chain_work s) (work_to P);
  pre_commitments : m_header_commitments s = commitments_to P;
  pre_max : len (commitments_to P) <= m_max_commitments K;
  pre_all : m_process_all_remaining_headers s = false;
  pre_buffer : m_redownloaded_headers s = []
}.

(** In the second phase [R] has been received, of which [n] headers were released. *)
Record redownload (P R : list CBlockHeader) (n : nat) (s : HeadersSyncState) : Prop := {
  re_state : m_download_state s = REDOWNLOAD;
  re_first : on_start P /\ least_work <= work_to P /\ len (commitments_to P) <= m_max_commitments K;
  re_chain : on_start R;
  re_height : m_redownload_buffer_last_height s = nHeight (chain_start K) + len R;
  re_hash : m_redownload_buffer_last_hash s = tip (m_chain_start K) R;
  re_work : repr (m_redownload_chain_work s) (work_to R);
  re_released : (n <= length R)%nat;
  re_buffer : m_redownloaded_headers s = map compress (drop n R);
  re_prev : m_redownload_buffer_first_prev_hash s = tip (m_chain_start K) (take n R);
  re_last : n = O \/ (n < length R)%nat;
  re_all : m_process_all_remaining_headers s = reaches least_work start_work R;
  re_commitments : commitments_to P = commitments_to (before least_work start_work R) ++ m_header_commitments s
}.

Lemma tip_bits_ok l : Forall checked l -> 0 <= tip_bits (bBits (chain_start K)) l < 2 ^ 32.
Proof using HK.
  intros Hl. unfold tip_bits. destruct (last l) as [h|] eqn:E; [|apply (k_bits K HK)].
  apply last_Some in E as [l' ->]. apply Forall_app in Hl as [_ Hl]. inversion Hl as [|? ? [[_ Hb] _]]; done.
Qed.

Lemma NewSync_presync : presync [] (NewSync K).
Proof using HK.
  destruct HK. split; cbn; try done; unfold len; cbn; lia.
Qed.

Lemma on_start_snoc l h : on_start l -> checked h -> hashPrevBlock h = tip (m_chain_start K) l ->
  PermittedDifficultyTransition (m_consensus_params K) (nHeight (chain_start K) + len l + 1)
    (tip_bits (bBits (chain_start K)) l) (nBits h) = Ok true -> on_start (l ++ [h]).
Proof using Type.
  intros [L O P] Ho Hh Hp. split.
  - apply linked_app. by repeat split.
  - apply Forall_app. auto.
  - apply permitted_app. by repeat split.
Qed.

Lemma commitments_snoc l h : commitments_to (l ++ [h]) =
  commitments_to l ++ (if commits K (nHeight (chain_start K) + len l + 1) then [commitment_bit K h] else []).
Proof using Type. unfold commitments_to. rewrite bits_of_app. cbn [bits_of]. by rewrite app_nil_r. Qed.

Lemma work_snoc l h proof w : repr w (work_to l) -> repr proof (work_of (nBits h)) ->
  repr (uint_add w proof) (work_to (l ++ [h])).
Proof using Type.
  intros Hw Hp. unfold work_to. rewrite work_after_app. by apply uint_add_repr.
Qed.

(** One header of the first phase. *)
Lemma single_header P s h : presync P s -> checked h -> hashPrevBlock h = tip (m_chain_start K) P ->
  exists s' ok, ValidateAndProcessSingleHeader K s h = Ok (s', ok) /\
    (ok = true -> presync (P ++ [h]) s') /\
    (on_start (P ++ [h]) -> len (commitments_to (P ++ [h])) <= m_max_commitments K -> ok = true).
Proof using HK.
  intros Hs Hh Hlink. destruct Hs. unfold ValidateAndProcessSingleHeader.
  rewrite bool_decide_eq_true_2 by done. cbn [negb]. rewrite pre_height0, pre_bits0, pre_commitments0.
  destruct (permitted_total (m_consensus_params K) (nHeight (chain_start K) + len P + 1)
    (tip_bits (bBits (chain_start K)) P) (nBits h) (k_params K HK)) as [p Ep];
    [apply tip_bits_ok, pre_chain0|apply (proj1 Hh)|]. rewrite Ep. rbind.
  assert (on_start (P ++ [h]) -> p = true) as Hperm.
  { intros [_ _ Hp]. apply permitted_app in Hp as [_ [Hp _]]. congruence. }
  destruct p; cbn [negb]; [|exists s, false; split; [done|]; split; [done|];
    intros Ho _; by apply Hperm in Ho].
  cbn [m_header_commitments].
  set (here := commits K _). set (cs := if here then _ else _).
  assert (cs = commitments_to (P ++ [h])) as Ecs.
  { unfold cs. rewrite commitments_snoc. fold here. destruct here; by rewrite ?app_nil_r. }
  assert (here && (m_max_commitments K <? len cs) = (m_max_commitments K <? len cs)) as ->.
  { unfold cs. destruct here; [done|]. cbn [andb]. symmetry. apply Z.ltb_ge. lia. }
  rewrite Ecs. destruct (Z.ltb_spec (m_max_commitments K) (len (commitments_to (P ++ [h])))) as [Hgt|Hle].
  { eexists _, false. split; [done|]. split; [done|]. intros; lia. }
  destruct (GetBitsProof_spec (nBits h) (proj2 (proj1 Hh))) as (w & -> & Hw). rbind.
  eexists _, true. split; [done|]. split; [|done]. intros _.
  split; cbn; try done.
  - by apply on_start_snoc.
  - rewrite len_snoc. lia.
  - by rewrite tip_snoc.
  - by rewrite tip_bits_snoc.
  - by apply work_snoc.
Qed.

(** A loop over linked headers preserves what each turn preserves. *)
Lemma presync_each hs P s : presync P s -> Forall checked hs -> linked (tip (m_chain_start K) P) hs ->
  exists s' ok, each_header (ValidateAndProcessSingleHeader K) s hs = Ok (s', ok) /\
    (ok = true -> presync (P ++ hs) s') /\
    (on_start (P ++ hs) -> len (commitments_to (P ++ hs)) <= m_max_commitments K -> ok = true).
Proof using HK.
  revert P s. induction hs as [|h hs IH]; intros P s Hs Ho Hl; cbn [each_header].
  { exists s, true. rewrite app_nil_r. auto. }
  inversion Ho as [|? ? Hh Hhs]; subst. destruct Hl as [Hlink Hl].
  destruct (single_header P s h Hs Hh Hlink) as (s1 & ok & -> & H1 & H2). rbind.
  assert (on_start (P ++ h :: hs) -> len (commitments_to (P ++ h :: hs)) <= m_max_commitments K -> ok = true) as H3.
  { rewrite cons_middle, app_assoc. intros [A B C] Hm. apply H2.
    - apply linked_app in A as [A _]. apply Forall_app in B as [B _]. by apply permitted_app in C as [C _]; split.
    - revert Hm. unfold commitments_to. rewrite bits_of_app. unfold len. rewrite length_app. lia. }
  destruct ok; [|by exists s1, false].
  assert (linked (tip (m_chain_start K) (P ++ [h])) hs) as Hl' by (by rewrite tip_snoc).
  destruct (IH (P ++ [h]) s1 (H1 eq_refl) Hhs Hl') as (s2 & ok & -> & H4 & H5).
  rewrite <- app_assoc in H4, H5. exists s2, ok. auto.
Qed.

(** The target before the next header is that of the last one received. *)
Lemma previous_bits R n : (n <= length R)%nat -> n = O \/ (n < length R)%nat ->
  match last (map compress (drop n R)) with Some c => cBits c | None => bBits (chain_start K) end =
  tip_bits (bBits (chain_start K)) R.
Proof using Type.
  intros Hn Hlast. unfold tip_bits. rewrite <- (take_drop n R) at 2. rewrite last_app.
  change (map compress (drop n R)) with (compress <$> drop n R). rewrite fmap_last.
  destruct (last (drop n R)) as [h|] eqn:E; [done|]. apply last_None in E.
  apply (f_equal length) in E. rewrite length_drop in E. cbn in E. destruct Hlast as [->|]; [done|lia].
Qed.

(** The commitments that are checked up to the next header. *)
Lemma before_commitments R h : commitments_to (before least_work start_work (R ++ [h])) =
  commitments_to (before least_work start_work R) ++
  (if negb (reaches least_work start_work (R ++ [h])) && commits K (nHeight (chain_start K) + len R + 1)
   then [commitment_bit K h] else []).
Proof using Type.
  rewrite before_snoc, reaches_snoc. fold (work_to (R ++ [h])).
  destruct (reaches least_work start_work R) eqn:Er; cbn [orb negb andb]; [by rewrite app_nil_r|].
  rewrite (before_below _ _ _ Er).
  destruct (least_work <=? work_to (R ++ [h])); cbn [negb andb]; [by rewrite app_nil_r|apply commitments_snoc].
Qed.

(** One header of the second phase. *)
Lemma store_header P R n s h : redownload P R n s -> checked h ->
  exists s' ok, ValidateAndStoreRedownloadedHeader K s h = Ok (s', ok) /\
    (ok = true -> redownload P (R ++ [h]) n s') /\
    (on_start (R ++ [h]) -> (exists l, commitments_to P =
        commitments_to (before least_work start_work (R ++ [h])) ++ l) -> ok = true).
Proof using HK.
  intros Hs Hh. destruct Hs. unfold ValidateAndStoreRedownloadedHeader.
  rewrite bool_decide_eq_true_2 by done. cbn [negb].
  rewrite re_height0, re_hash0, re_buffer0, previous_bits, re_all0 by done.
  assert (on_start (R ++ [h]) -> hashPrevBlock h = tip (m_chain_start K) R /\
    PermittedDifficultyTransition (m_consensus_params K) (nHeight (chain_start K) + len R + 1)
      (tip_bits (bBits (chain_start K)) R) (nBits h) = Ok true) as Hon.
  { intros [L _ Hp]. apply linked_app in L as [_ [L _]]. by apply permitted_app in Hp as [_ [Hp _]]. }
  case_bool_decide as Hlink; cbn [negb];
    [|exists s, false; split; [done|]; split; [done|]; intros Ho; by destruct (Hon Ho)].
  destruct (permitted_total (m_consensus_params K) (nHeight (chain_start K) + len R + 1)
    (tip_bits (bBits (chain_start K)) R) (nBits h) (k_params K HK)) as [p Ep];
    [apply tip_bits_ok, re_chain0|apply (proj1 Hh)|]. rewrite Ep. rbind.
  destruct p; cbn [negb];
    [|exists s, false; split; [done|]; split; [done|]; intros Ho; destruct (Hon Ho); congruence].
  destruct (GetBitsProof_spec (nBits h) (proj2 (proj1 Hh))) as (w & -> & Hw). rbind.
  pose proof (work_snoc R h w _ re_work0 Hw) as Hwork.
  rewrite (uint_ge_repr _ _ _ _ Hwork (conj (k_least K HK) eq_refl)). fold least_work.
  rewrite (orb_comm (least_work <=? _)). fold (work_to (R ++ [h])) in *.
  assert (reaches least_work start_work R || (least_work <=? work_to (R ++ [h])) =
          reaches least_work start_work (R ++ [h])) as -> by (by rewrite reaches_snoc).
  set (here := commits K _). set (cs := m_header_commitments s) in *.
  pose proof (before_commitments R h) as Eb. fold here in Eb.
  match goal with |- context [let '(_, _) := ?e in _] =>
    assert (exists cs' ok, e = (cs', ok) /\
      (ok = true -> commitments_to P = commitments_to (before least_work start_work (R ++ [h])) ++ cs') /\
      ((exists l, commitments_to P = commitments_to (before least_work start_work (R ++ [h])) ++ l) -> ok = true))
      as (cs' & ok & -> & Hcs & Hok) end.
  { rewrite Eb, re_commitments0. destruct (negb _ && here).
    - destruct cs as [|e cs']; eexists _, _; (split; [done|]); split; [done| | |].
      + intros [l El]. rewrite <- app_assoc in El. by apply app_inv_head in El.
      + intros ->%Bool.eqb_prop. by rewrite <- app_assoc.
      + intros [l El]. rewrite <- app_assoc in El. apply app_inv_head in El.
        injection El as -> _. apply Bool.eqb_reflx.
    - eexists _, _. split; [done|]. rewrite app_nil_r. done. }
  eexists _, ok. split; [done|]. split; [|by intros _]. intros ->. specialize (Hcs eq_refl).
  split; cbn; try done.
  - by apply on_start_snoc.
  - rewrite len_snoc. lia.
  - by rewrite tip_snoc.
  - rewrite length_app. lia.
  - rewrite drop_app_le by done. by rewrite map_app.
  - by rewrite take_app_le.
  - rewrite length_app. cbn. lia.
Qed.

Lemma store_each hs P R n s : redownload P R n s -> Forall checked hs ->
  exists s' ok, each_header (ValidateAndStoreRedownloadedHeader K) s hs = Ok (s', ok) /\
    (ok = true -> redownload P (R ++ hs) n s') /\
    (on_start (R ++ hs) -> (exists l, commitments_to P =
        commitments_to (before least_work start_work (R ++ hs)) ++ l) -> ok = true).
Proof using HK.
  revert R s. induction hs as [|h hs IH]; intros R s Hs Ho; cbn [each_header].
  { exists s, true. rewrite app_nil_r. auto. }
  inversion Ho as [|? ? Hh Hhs]; subst.
  destruct (store_header P R n s h Hs Hh) as (s1 & ok & -> & H1 & H2). rbind.
  assert (on_start (R ++ h :: hs) -> (exists l, commitments_to P =
        commitments_to (before least_work start_work (R ++ h :: hs)) ++ l) -> ok = true) as H3.
  { rewrite cons_middle, app_assoc. intros [A B C] [l El]. apply H2.
    - apply linked_app in A as [A _]. apply Forall_app in B as [B _]. by apply permitted_app in C as [C _]; split.
    - destruct (before_app least_work start_work (R ++ [h]) hs) as [l' E'].
      rewrite El, E'. unfold commitments_to. rewrite bits_of_app, <- app_assoc. eauto. }
  destruct ok; [|by exists s1, false].
  destruct (IH (R ++ [h]) s1 (H1 eq_refl) Hhs) as (s2 & ok & -> & H4 & H5).
  rewrite <- app_assoc in H4, H5. exists s2, ok. auto.
Qed.

(** ** Releasing headers *)

Definition buffer_size : nat := Z.to_nat (redownload_buffer_size (m_params K)).

(** A compressed header and the hash before it give the header back. *)
Lemma full_compress h : GetFullHeader (compress h) (hashPrevBlock h) = h.
Proof using Type. by destruct h. Qed.

Lemma pop_loop_spec all l prev : linked prev l ->
  let k := if (all : bool) then length l else (length l - buffer_size)%nat in
  pop_loop K all (map compress l) prev = (take k l, map compress (drop k l), tip prev (take k l)).
Proof using HK.
  pose proof (k_buffer K HK) as Hbuf. revert prev.
  induction l as [|h l IH]; intros prev Hl; [by destruct all|]. destruct Hl as [<- Hl]. cbn [map pop_loop].
  cbv zeta in *. specialize (IH _ Hl). unfold len. cbn [length]. rewrite length_map.
  destruct all.
  - rewrite andb_true_r, (proj2 (Z.ltb_lt 0 _)), orb_true_r by lia. rewrite full_compress, IH.
    cbn [take drop]. f_equal. by rewrite (tip_app _ [h] (take (length l) l) : tip _ (h :: _) = _).
  - rewrite andb_false_r, orb_false_r. destruct (Z.ltb_spec (redownload_buffer_size (m_params K)) (Z.of_nat (S (length l)))).
    + replace (S (length l) - buffer_size)%nat with (S (length l - buffer_size)) by (unfold buffer_size; lia).
      rewrite full_compress, IH. cbn [take drop]. f_equal.
      by rewrite (tip_app _ [h] (take _ l) : tip _ (h :: _) = _).
    + replace (S (length l) - buffer_size)%nat with O by (unfold buffer_size; lia). done.
Qed.

(** ** A run of the synchronisation *)

(** What [ProcessNextHeaders] may assume of a message. *)
Definition message_ok (hs : list CBlockHeader) : Prop :=
  Forall checked hs /\ match hs with [] => True | h :: hs => linked (GetHash h) hs end.

(** What has been released, [D], of the second chain [R] after the first chain [P]. *)
Record outcome (P R D : list CBlockHeader) : Prop := {
  out_first : on_start P;
  out_second : on_start R;
  out_work : R <> [] -> least_work <= work_to P;
  out_commitments : exists l, commitments_to P = commitments_to (before least_work start_work R) ++ l;
  out_released : D = if reaches least_work start_work R then R else take (length R - buffer_size) R
}.

Definition sync_inv (P R D : list CBlockHeader) (s : HeadersSyncState) : Prop :=
  outcome P R D /\
  match m_download_state s with
  | PRESYNC => presync P s /\ R = []
  | REDOWNLOAD => redownload P R (length R - buffer_size) s /\ reaches least_work start_work R = false
  | FINAL => m_header_commitments s = [] /\ m_redownloaded_headers s = []
  end.

Lemma outcome_start P : on_start P -> outcome P [] [].
Proof using Type. intros HP. split; try done. by exists (commitments_to P). Qed.

Lemma redownload_outcome P R n s : redownload P R n s -> reaches least_work start_work R = true ->
  outcome P R R.
Proof using Type.
  intros [] Hr. destruct re_first0 as (H1 & H2 & _). split; try done; [eauto|by rewrite Hr].
Qed.

(** A message of the second phase after its headers were stored. *)
Lemma pop_headers P R n s : redownload P R n s -> (n <= length R - buffer_size)%nat ->
  (n = O \/ n + buffer_size <= length R)%nat ->
  exists s', PopHeadersReadyForAcceptance K s =
    (s', drop n (if reaches least_work start_work R then R else take (length R - buffer_size) R)) /\
    m_process_all_remaining_headers s' = reaches least_work start_work R /\
    (if reaches least_work start_work R then m_redownloaded_headers s' = []
     else redownload P R (length R - buffer_size) s').
Proof using HK.
  intros Hs Hn Hn0. destruct Hs. unfold PopHeadersReadyForAcceptance.
  rewrite bool_decide_eq_true_2 by done. cbn [negb]. rewrite re_all0, re_buffer0, re_prev0.
  pose proof (on_linked _ re_chain0) as HL. rewrite <- (take_drop n R) in HL. apply linked_app in HL as [_ HL].
  pose proof (pop_loop_spec (reaches least_work start_work R) _ _ HL) as ->. cbv zeta. rewrite length_drop.
  destruct (reaches least_work start_work R) eqn:Er.
  - rewrite (take_ge (drop n R)), (drop_ge (drop n R)) by (rewrite length_drop; lia).
    by eexists.
  - assert (length R - n - buffer_size = length R - buffer_size - n)%nat as Ek by lia. rewrite Ek.
    eexists. split; [by rewrite skipn_firstn_comm|]. split; [done|]. pose proof (k_buffer K HK).
    split; cbn; try done; try lia.
    + rewrite drop_drop. do 2 f_equal. lia.
    + rewrite <- tip_app. f_equal. rewrite <- (take_drop n (take (length R - buffer_size) R)) at 1.
      rewrite take_take, skipn_firstn_comm. by rewrite Nat.min_l by lia.
    + destruct (length R - buffer_size)%nat eqn:E; [by left|right]. unfold buffer_size in *. lia.
Qed.

Lemma on_start_link P h hs : on_start (P ++ h :: hs) -> hashPrevBlock h = tip (m_chain_start K) P.
Proof using Type. intros [L _ _]. by apply linked_app in L as [_ [L _]]. Qed.

Lemma final_inv P R D s : outcome P R D -> sync_inv P R D (Finalize s).
Proof using Type. by split. Qed.

(** A message of the first phase. *)
Lemma presync_message P s hs full : presync P s -> hs <> [] -> message_ok hs ->
  exists s' r P', ProcessNextHeaders K s hs full = Ok (s', r) /\ pow_validated_headers r = [] /\
    sync_inv P' [] [] s' /\
    (on_start (P ++ hs) -> len (commitments_to (P ++ hs)) <= m_max_commitments K ->
     full = true \/ least_work <= work_to (P ++ hs) ->
     if least_work <=? work_to (P ++ hs) then redownload (P ++ hs) [] O s' else presync (P ++ hs) s').
Proof using HK.
  intros Hs Hne [Ho Hl]. destruct hs as [|h hs]; [done|]. unfold ProcessNextHeaders.
  rewrite (pre_state _ _ Hs). unfold ValidateAndStoreHeadersCommitments.
  rewrite (pre_state _ _ Hs), (pre_hash _ _ Hs), bool_decide_eq_true_2 by done. cbn [negb].
  assert (forall s', sync_inv P [] [] (Finalize s')) as Hf by (intros; apply final_inv, outcome_start, Hs).
  case_bool_decide as Hlink; cbn [negb]; rbind; cbn [andb].
  2:{ eexists _, _, P. split; [done|]. split; [done|]. split; [apply Hf|].
      intros Hon. by apply on_start_link in Hon. }
  destruct (presync_each (h :: hs) P s Hs Ho (conj Hlink Hl)) as (s1 & ok & -> & H1 & H2). rbind.
  destruct ok; cbn [negb]; rbind; cbn [andb].
  2:{ eexists _, _, P. split; [done|]. split; [done|]. split; [apply Hf|].
      intros Hon Hmax _. by specialize (H2 Hon Hmax). }
  specialize (H1 eq_refl). pose proof H1 as [].
  rewrite (uint_ge_repr _ _ _ _ pre_work0 (conj (k_least K HK) eq_refl)). fold least_work.
  destruct (Z.leb_spec least_work (work_to (P ++ h :: hs))) as [Hge|Hlt]; rbind.
  - cbn [m_download_state]. rewrite (bool_decide_eq_true_2 (REDOWNLOAD = REDOWNLOAD)), orb_true_r by done.
    eexists _, _, (P ++ h :: hs). split; [done|]. split; [done|].
    match goal with |- sync_inv _ _ _ ?x /\ _ => assert (redownload (P ++ h :: hs) [] O x) as Hre end.
    { split; cbn; try done; [unfold len; cbn; lia|split; [apply (k_work K HK)|done]|by left]. }
    split; [|done]. split; [by apply outcome_start|]. cbn [m_download_state]. done.
  - rewrite pre_state0, (bool_decide_eq_false_2 (PRESYNC = REDOWNLOAD)), orb_false_r by done.
    eexists _, _, (P ++ h :: hs). split; [done|]. split; [done|]. destruct full.
    + split; [|done]. split; [by apply outcome_start|]. cbn [andb orb]. by rewrite pre_state0.
    + split; [by apply final_inv, outcome_start|]. intros _ _ [|]; [done|lia].
Qed.

(** A message of the second phase. *)
Lemma redownload_message P R s hs full : redownload P R (length R - buffer_size) s ->
  hs <> [] -> Forall checked hs -> reaches least_work start_work R = false ->
  exists s' r R', ProcessNextHeaders K s hs full = Ok (s', r) /\
    sync_inv P R' (take (length R - buffer_size) R ++ pow_validated_headers r) s' /\
    (on_start (R ++ hs) ->
     (exists l, commitments_to P = commitments_to (before least_work start_work (R ++ hs)) ++ l) ->
     R' = R ++ hs /\
     if reaches least_work start_work (R ++ hs) then m_download_state s' = FINAL
     else full = true -> redownload P (R ++ hs) (length (R ++ hs) - buffer_size) s').
Proof using HK.
  intros Hs Hne Ho Hr. destruct hs as [|h hs]; [done|]. unfold ProcessNextHeaders.
  rewrite (re_state _ _ _ _ Hs).
  assert (outcome P R (take (length R - buffer_size) R)) as Hout.
  { destruct Hs as [? (? & ? & _)]. split; try done; [eauto|by rewrite Hr]. }
  destruct (store_each (h :: hs) P R _ s Hs Ho) as (s1 & ok & -> & H1 & H2). rbind.
  destruct ok; cbn [negb].
  2:{ eexists _, _, R. split; [done|]. cbn [pow_validated_headers]. rewrite app_nil_r.
      split; [by apply final_inv|]. intros Hon Hc. by specialize (H2 Hon Hc). }
  specialize (H1 eq_refl). set (R' := R ++ h :: hs) in *.
  assert (length R < length R')%nat as HR by (unfold R'; rewrite length_app; cbn; lia).
  destruct (pop_headers P R' (length R - buffer_size) s1 H1) as (s2 & -> & Hall & Hs2); [lia|lia|].
  assert (take (length R - buffer_size) R = take (length R - buffer_size)
    (if reaches least_work start_work R' then R' else take (length R' - buffer_size) R')) as E1.
  { assert (take (length R - buffer_size) R' = take (length R - buffer_size) R) as E2.
    { unfold R'. by rewrite take_app_le by lia. }
    case_match; [done|]. by rewrite take_take, Nat.min_l by lia. }
  rewrite E1, Hall. destruct (reaches least_work start_work R') eqn:Er.
  - rewrite Hs2, bool_decide_eq_true_2 by done. cbn [negb andb]. eexists _, _, R'. split; [done|].
    cbn [pow_validated_headers]. rewrite take_drop.
    split; [by apply final_inv, (redownload_outcome P R' (length R - buffer_size) s1)|done].
  - rewrite andb_false_r. cbn [negb andb]. eexists _, _, R'. split; [done|].
    cbn [pow_validated_headers]. rewrite take_drop.
    assert (outcome P R' (take (length R' - buffer_size) R')) as Hout'.
    { destruct Hs2 as [? (? & ? & _)]. split; try done; [eauto|by rewrite Er]. }
    destruct full; [|split; [by apply final_inv|done]].
    split; [|done]. split; [done|]. by rewrite (re_state _ _ _ _ Hs2).
Qed.

(** Any message keeps the invariant. *)
Lemma message_inv P R D s hs full : sync_inv P R D s -> message_ok hs ->
  exists s' r P' R', ProcessNextHeaders K s hs full = Ok (s', r) /\
    sync_inv P' R' (D ++ pow_validated_headers r) s'.
Proof using HK.
  intros [Hout Hs] Hm. destruct (decide (hs = [])) as [->|Hne].
  { exists s, (MkResult [] false false), P, R. split; [done|]. cbn. by rewrite app_nil_r. }
  destruct (m_download_state s) eqn:Es.
  - destruct Hs as [Hs ->]. destruct (presync_message P s hs full Hs Hne Hm) as (s' & r & P' & E & Er & Hi & _).
    exists s', r, P', []. split; [done|]. rewrite Er, app_nil_r, (out_released _ _ _ Hout). by cbn.
  - destruct Hs as [Hs Hr]. destruct (redownload_message P R s hs full Hs Hne (proj1 Hm) Hr)
      as (s' & r & R' & E & Hi & _).
    exists s', r, P, R'. split; [done|]. by rewrite (out_released _ _ _ Hout), Hr.
  - exists s, (MkResult [] false false), P, R. unfold ProcessNextHeaders. rewrite Es.
    split; [by destruct hs|]. cbn. rewrite app_nil_r. split; [done|]. by rewrite Es.
Qed.

(** The messages of a peer, in the order they are processed. *)
Fixpoint run (s : HeadersSyncState) (msgs : list (list CBlockHeader * bool))
    : res (HeadersSyncState * list CBlockHeader) :=
  match msgs with
  | [] => Ok (s, [])
  | (hs, full) :: msgs =>
    '(s, r) ← ProcessNextHeaders K s hs full;
    '(s, out) ← run s msgs;
    Ok (s, pow_validated_headers r ++ out)
  end.

Lemma run_inv msgs P R D s : sync_inv P R D s -> Forall (fun m => message_ok (fst m)) msgs ->
  exists s' out P' R', run s msgs = Ok (s', out) /\ sync_inv P' R' (D ++ out) s'.
Proof using HK.
  revert P R D s. induction msgs as [|[hs full] msgs IH]; intros P R D s Hs Hm; cbn [run].
  { exists s, [], P, R. by rewrite app_nil_r. }
  inversion Hm as [|? ? Hh Hms]; subst.
  destruct (message_inv P R D s hs full Hs Hh) as (s1 & r & P1 & R1 & -> & H1). rbind.
  destruct (IH P1 R1 _ s1 H1 Hms) as (s2 & out & P2 & R2 & -> & H2). rbind.
  exists s2, (pow_validated_headers r ++ out), P2, R2. by rewrite app_assoc.
Qed.

Lemma start_inv_sync : sync_inv [] [] [] (NewSync K).
Proof using HK. split; [by apply outcome_start|]. split; [apply NewSync_presync|done]. Qed.

Lemma run_app s s1 msgs msgs' out : run s msgs = Ok (s1, out) ->
  run s (msgs ++ msgs') = '(s2, out') ← run s1 msgs'; Ok (s2, out ++ out').
Proof using Type.
  revert s out. induction msgs as [|[hs full] msgs IH]; intros s out; cbn [run app].
  { intros [= -> <-]. destruct (run s1 msgs') as [[? ?]|]; done. }
  destruct (ProcessNextHeaders K s hs full) as [[s' r]|]; [|done]. rbind.
  destruct (run s' msgs) as [[s2 o]|] eqn:E; [|done]. rbind. intros [= -> <-].
  rewrite (IH s' o E). destruct (run s1 msgs') as [[? ?]|]; rbind; [|done]. by rewrite app_assoc.
Qed.

(** ** A peer that serves the same chain twice *)

Fixpoint total (l : list CBlockHeader) : Z :=
  match l with [] => 0 | h :: l => work_of (nBits h) + total l end.

Lemma work_of_nonneg c : 0 <= c -> 0 <= work_of c.
Proof using Type.
  intros Hc. unfold work_of. destruct (target_of c) as [t|] eqn:E; [|done].
  destruct (target_of_Some c t Hc E) as (_ & Ht & _). apply Z.div_pos; lia.
Qed.

Lemma total_app l l' : total (l ++ l') = total l + total l'.
Proof using Type. induction l as [|h l IH]; cbn [app total]; lia. Qed.

Lemma total_nonneg l : Forall checked l -> 0 <= total l.
Proof using Type.
  induction 1 as [|h l [[_ Hb] _] _ IH]; cbn [total]; [lia|]. pose proof (work_of_nonneg (nBits h)). lia.
Qed.

Lemma work_after_total w l : Forall checked l -> 0 <= w -> w + total l < 2 ^ 256 -> work_after w l = w + total l.
Proof using Type.
  intros Hl. revert w. induction Hl as [|h l [[_ Hb] _] Hl IH]; intros w Hw Hlt; cbn [work_after total] in *; [lia|].
  pose proof (work_of_nonneg (nBits h)). pose proof (total_nonneg l Hl).
  rewrite Z.mod_small by lia. rewrite IH by lia. lia.
Qed.

(** Without overflow the threshold is reached when the whole work reaches it. *)
Lemma reaches_total least w l : Forall checked l -> 0 <= w -> w + total l < 2 ^ 256 -> w < least ->
  reaches least w l = (least <=? w + total l).
Proof using Type.
  intros Hl. revert w. induction Hl as [|h l [[_ Hb] _] Hl IH]; intros w Hw Hlt Hw'; cbn [reaches total] in *.
  { symmetry. apply Z.leb_gt. lia. }
  pose proof (work_of_nonneg (nBits h)). pose proof (total_nonneg l Hl). rewrite Z.mod_small by lia.
  destruct (Z.leb_spec least (w + work_of (nBits h))); cbn [orb].
  - symmetry. apply Z.leb_le. lia.
  - rewrite IH by lia. f_equal. lia.
Qed.

Lemma on_start_prefix l l' : on_start (l ++ l') -> on_start l.
Proof using Type.
  intros [A B C]. apply linked_app in A as [A _]. apply Forall_app in B as [B _].
  by apply permitted_app in C as [C _]; split.
Qed.

Lemma on_start_message l l' : on_start (l ++ l') -> message_ok l'.
Proof using Type.
  intros [A B _]. apply linked_app in A as [_ A]. apply Forall_app in B as [_ B].
  split; [done|]. destruct l'; [done|apply A].
Qed.

Lemma commitments_prefix l l' : exists c, commitments_to (l ++ l') = commitments_to l ++ c.
Proof using Type. unfold commitments_to. rewrite bits_of_app. eauto. Qed.

Lemma commitments_before l : exists c,
  commitments_to l = commitments_to (before least_work start_work l) ++ c.
Proof using Type.
  destruct (before_prefix least_work start_work l) as [l' E].
  destruct (commitments_prefix (before least_work start_work l) l') as [c Ec]. exists c.
  by rewrite <- E in Ec.
Qed.

Lemma work_to_total l : on_start l -> start_work + total l < 2 ^ 256 -> work_to l = start_work + total l.
Proof using HK.
  intros [_ Hl _] Hlt. apply work_after_total; [done| |done].
  pose proof (uint_wf_bounds _ (k_work K HK)). unfold start_work. lia.
Qed.

Lemma not_reached l : on_start l -> start_work + total l < 2 ^ 256 -> start_work + total l < least_work ->
  reaches least_work start_work l = false.
Proof using HK.
  intros [_ Hl _] Hlt Hle. pose proof (uint_wf_bounds _ (k_work K HK)). unfold start_work in *.
  pose proof (total_nonneg l Hl). rewrite reaches_total by (done || lia). apply Z.leb_gt. lia.
Qed.

Definition full_messages (Bs : list (list CBlockHeader)) : list (list CBlockHeader * bool) :=
  map (fun b => (b, true)) Bs.

Lemma presync_batches Bs P s : presync P s -> Forall (fun b => b <> []) Bs -> on_start (P ++ concat Bs) ->
  len (commitments_to (P ++ concat Bs)) <= m_max_commitments K ->
  start_work + total (P ++ concat Bs) < 2 ^ 256 -> start_work + total (P ++ concat Bs) < least_work ->
  exists s', run s (full_messages Bs) = Ok (s', []) /\ presync (P ++ concat Bs) s'.
Proof using HK.
  revert P s. induction Bs as [|b Bs IH]; intros P s Hs Hne Hon Hmax Hov Hlow; cbn [concat] in *.
  { exists s. rewrite app_nil_r. done. }
  inversion Hne as [|? ? Hb HBs]; subst. rewrite app_assoc in *.
  pose proof (on_start_prefix _ _ Hon) as Hon1. pose proof (on_start_message _ _ Hon1) as Hmsg.
  assert (0 <= total (concat Bs)) as Ht.
  { apply total_nonneg. by destruct (on_start_message _ _ Hon). }
  rewrite total_app in Hov, Hlow.
  destruct (presync_message P s b true Hs Hb Hmsg) as (s1 & r & P' & E & Er & _ & Hc).
  rewrite (proj2 (Z.leb_gt _ _)) in Hc by (rewrite work_to_total by (done || lia); lia).
  assert (presync (P ++ b) s1) as Hs1.
  { apply Hc; [done| |by left]. destruct (commitments_prefix (P ++ b) (concat Bs)) as [c Ec].
    rewrite Ec in Hmax. unfold len in *. rewrite length_app in Hmax. lia. }
  destruct (IH (P ++ b) s1 Hs1 HBs Hon Hmax) as (s2 & E2 & Hs2); [rewrite total_app; lia..|].
  exists s2. cbn [full_messages map run]. rewrite E. rbind. fold (full_messages Bs). rewrite E2. rbind.
  by rewrite Er.
Qed.

Lemma redownload_batches Bs P R E s : redownload P R (length R - buffer_size) s ->
  Forall (fun b => b <> []) Bs -> on_start (R ++ concat Bs) -> P = (R ++ concat Bs) ++ E ->
  start_work + total (R ++ concat Bs) < 2 ^ 256 -> start_work + total (R ++ concat Bs) < least_work ->
  exists s' out, run s (full_messages Bs) = Ok (s', out) /\
    take (length R - buffer_size) R ++ out = take (length (R ++ concat Bs) - buffer_size) (R ++ concat Bs) /\
    redownload P (R ++ concat Bs) (length (R ++ concat Bs) - buffer_size) s'.
Proof using HK.
  revert R s. induction Bs as [|b Bs IH]; intros R s Hs Hne Hon HP Hov Hlow; cbn [concat] in *.
  { exists s, []. rewrite !app_nil_r. done. }
  inversion Hne as [|? ? Hb HBs]; subst P. rewrite app_assoc in *.
  pose proof (on_start_prefix _ _ Hon) as Hon1. pose proof (on_start_message _ _ Hon1) as Hmsg.
  assert (0 <= total (concat Bs) /\ 0 <= total b) as [Ht Htb].
  { split; apply total_nonneg; [by destruct (on_start_message _ _ Hon)|by destruct Hmsg]. }
  rewrite total_app in Hov, Hlow.
  assert (reaches least_work start_work R = false) as Hr.
  { rewrite total_app in Hov, Hlow. apply not_reached; [by apply (on_start_prefix R b)|lia..]. }
  assert (reaches least_work start_work (R ++ b) = false) as Hr1 by (apply not_reached; [done|lia..]).
  destruct (redownload_message _ R s b true Hs Hb (proj1 Hmsg) Hr) as (s1 & r & R' & Er & [Hout _] & Hc).
  destruct Hc as [-> Hc]; [done|rewrite (before_below _ _ _ Hr1), <- app_assoc; apply commitments_prefix|].
  rewrite Hr1 in Hc. apply out_released in Hout. rewrite Hr1 in Hout.
  destruct (IH (R ++ b) s1 (Hc eq_refl) HBs Hon eq_refl) as (s2 & out & E2 & Eo & Hs2);
    [rewrite total_app; lia..|].
  exists s2, (pow_validated_headers r ++ out). cbn [full_messages map run]. rewrite Er. rbind.
  fold (full_messages Bs). rewrite E2. rbind. split; [done|]. rewrite app_assoc, Hout. done.
Qed.

Lemma serves_twice Bs B f f' : Forall (fun b => b <> []) Bs -> B <> [] -> on_start (concat Bs ++ B) ->
  len (commitments_to (concat Bs ++ B)) <= m_max_commitments K ->
  start_work + total (concat Bs) < least_work <= start_work + total (concat Bs ++ B) ->
  start_work + total (concat Bs ++ B) < 2 ^ 256 ->
  exists s, run (NewSync K) ((full_messages Bs ++ [(B, f)]) ++ full_messages Bs ++ [(B, f')]) =
    Ok (s, concat Bs ++ B) /\ m_download_state s = FINAL.
Proof using HK.
  intros Hne HB Hon Hmax Hleast Hov.
  pose proof (on_start_prefix _ _ Hon) as Hon1. pose proof (on_start_message _ _ Hon) as Hmsg.
  assert (0 <= total B) as Ht by (apply total_nonneg; apply Hmsg). rewrite total_app in *.
  assert (work_to (concat Bs ++ B) = start_work + total (concat Bs) + total B) as Ew.
  { rewrite work_to_total by (done || (rewrite total_app; lia)). rewrite total_app. lia. }
  destruct (presync_batches Bs [] (NewSync K) (NewSync_presync) Hne Hon1) as (s1 & E1 & H1); [|cbn [app]; lia..|].
  { destruct (commitments_prefix (concat Bs) B) as [c Ec]. rewrite Ec in Hmax.
    unfold len in *. rewrite length_app in Hmax. cbn [app]. lia. }
  cbn [app] in H1.
  destruct (presync_message (concat Bs) s1 B f H1 HB Hmsg) as (s2 & r2 & P' & E2 & Er2 & _ & H2).
  rewrite Ew, (proj2 (Z.leb_le _ _)) in H2 by lia. specialize (H2 Hon Hmax ltac:(right; lia)).
  destruct (redownload_batches Bs (concat Bs ++ B) [] B s2 H2 Hne Hon1 eq_refl) as (s3 & out & E3 & Eo & H3);
    [cbn [app]; lia..|]. rewrite take_nil in Eo. cbn [app] in Eo, H3.
  assert (reaches least_work start_work (concat Bs) = false) as Hr by (apply not_reached; [done|lia..]).
  destruct (redownload_message _ _ s3 B f' H3 HB (proj1 Hmsg) Hr) as (s4 & r4 & R4 & E4 & [Hout _] & H4).
  destruct H4 as [-> Hfin]; [done|apply commitments_before|].
  assert (reaches least_work start_work (concat Bs ++ B) = true) as Hr4.
  { pose proof (uint_wf_bounds _ (k_work K HK)). pose proof (total_nonneg _ (on_ok _ Hon1)).
    rewrite reaches_total; [rewrite total_app; apply Z.leb_le; lia|apply Hon|..];
      rewrite ?total_app; unfold start_work in *; lia. }
  rewrite Hr4 in Hfin. apply out_released in Hout. rewrite Hr4, <- Eo in Hout.
  exists s4. split; [|done].
  rewrite (run_app _ s2 _ _ []).
  2:{ rewrite (run_app _ s1 _ _ [] E1). cbn [run]. rewrite E2. rbind. by rewrite Er2. }
  rewrite (run_app _ s3 _ _ _ E3). cbn [run]. rewrite E4. rbind. rewrite app_nil_r. cbn [app]. by rewrite Hout.
Qed.
End invariant.

(** ** Starting a synchronisation *)

(** A synchronisation that starts at an entry of the index. *)
Lemma NewSyncConst_ok {SHA : Sha256} params (Hp : params_ok params) genesis (Hg : genesis_ok params genesis) s
    sync start least offset hasher now : reachable params genesis s ->
  is_Some (m_block_index (m_blockman s) !! start) -> uint_wf least ->
  0 < commitment_period sync -> 0 < redownload_buffer_size sync ->
  exists K t, NewSyncConst params sync (m_block_index (m_blockman s)) start least offset hasher now = Ok K /\
    const_ok K /\ m_params K = sync /\ m_chain_start K = start /\ m_commit_offset K = offset /\
    m_block_index (m_blockman s) !! start = Some (chain_start K) /\
    GetMedianTimePast (m_block_index (m_blockman s)) start = Ok t /\ 0 <= t /\
    m_max_commitments K = u64 (6 * (now - t + MAX_FUTURE_BLOCK_TIME)) / commitment_period sync.
Proof.
  intros Hs [b Hb] Hl Hc Hbuf. pose proof (reachable_index params Hp genesis Hg s Hs) as Hm.
  unfold NewSyncConst. rewrite (proj2 (Z.ltb_lt _ _)) by done. cbn [negb].
  rewrite (deref_Some _ _ _ Hb). rbind.
  destruct (GetMedianTimePast_total _ _ _ Hm Hb) as [t Ht]. rewrite Ht. rbind.
  eexists _, t. split; [done|]. destruct (Hm _ _ Hb) as (Htime & Hbits & Hwork & _).
  destruct (inv_valid _ _ (reachable_inv params Hp genesis Hg s Hs) _ _ Hb) as [Hhash _].
  split; [|do 5 (split; [done|])].
  - split; cbn; try done. apply Z.div_pos; [unfold u64; apply Z.mod_pos_bound; lia|lia].
  - split; [|done]. by apply (median_nonneg (m_block_index (m_blockman s)) start b).
Qed.

(** ** The number of commitments *)

Lemma div_step x p : 0 < p -> (x + 1) / p = x / p + (if (x + 1) mod p =? 0 then 1 else 0).
Proof.
  intros Hp. pose proof (Z.div_mod x p ltac:(lia)). pose proof (Z.div_mod (x + 1) p ltac:(lia)).
  pose proof (Z.mod_pos_bound x p Hp). pose proof (Z.mod_pos_bound (x + 1) p Hp).
  destruct (Z.eqb_spec ((x + 1) mod p) 0); nia.
Qed.

Lemma div_diff a n p : 0 < p -> 0 <= n -> (a + n) / p - a / p <= n / p + 1.
Proof.
  intros Hp Hn. pose proof (Z.div_mod a p ltac:(lia)). pose proof (Z.div_mod n p ltac:(lia)).
  pose proof (Z.mod_pos_bound a p Hp). pose proof (Z.mod_pos_bound n p Hp).
  assert ((a + n) / p < a / p + n / p + 2); [|lia]. apply Z.div_lt_upper_bound; nia.
Qed.

Lemma commits_step K h : 0 < commitment_period (m_params K) ->
  0 <= m_commit_offset K < commitment_period (m_params K) -> 0 <= h < 2 ^ 64 ->
  commits K h = ((h - m_commit_offset K) mod commitment_period (m_params K) =? 0).
Proof.
  intros Hp Ho Hh. unfold commits. rewrite u64_small by done.
  set (p := commitment_period (m_params K)) in *. set (o := m_commit_offset K) in *.
  apply eq_bool_prop_intro. rewrite !Is_true_true, !Z.eqb_eq.
  pose proof (Z.div_mod h p ltac:(lia)) as Hd. split.
  - intros E. replace (h - o) with (h / p * p) by lia. apply Z.mod_mul. lia.
  - intros E. apply Z.mod_divide in E as [k Ek]; [|lia].
    replace h with (o + k * p) by lia. rewrite Z.mod_add by lia. apply Z.mod_small. lia.
Qed.

(** The commitments of consecutive headers, counted by divisions. *)
Lemma bits_count {SHA : Sha256} K l h : 0 < commitment_period (m_params K) ->
  0 <= m_commit_offset K < commitment_period (m_params K) -> 0 <= h -> h + len l < 2 ^ 64 ->
  len (bits_of K h l) = (h + len l - m_commit_offset K) / commitment_period (m_params K) -
                        (h - m_commit_offset K) / commitment_period (m_params K).
Proof.
  intros Hp Ho. revert h. induction l as [|x l IH]; intros h Hh Hl.
  { cbn. change (len (@nil CBlockHeader)) with 0. change (len (@nil bool)) with 0. by rewrite Z.add_0_r, Z.sub_diag. }
  assert (len (x :: l) = 1 + len l) as E by (unfold len; cbn [length]; lia). rewrite E in *.
  assert (0 <= len l) by (unfold len; lia).
  cbn [bits_of]. rewrite len_app.
  rewrite (IH (h + 1)), (commits_step K (h + 1)) by lia.
  replace (h + 1 - m_commit_offset K) with (h - m_commit_offset K + 1) by lia. rewrite (div_step (h - _)) by lia.
  replace (h + 1 + len l) with (h + (1 + len l)) by lia.
  generalize ((h + (1 + len l) - m_commit_offset K) / commitment_period (m_params K)).
  generalize ((h - m_commit_offset K) / commitment_period (m_params K)). intros d d'.
  case_match; unfold len; cbn [length]; lia.
Qed.

(** ** Properties *)

(** What the caller has checked of the headers of a message.  The check of
    continuity does not see a header whose hash is zero. *)
Definition received_ok {SHA : Sha256} (params : Params) (hs : list CBlockHeader) : Prop :=
  CheckHeadersPoW hs params false = true /\ Forall header_ok hs /\ Forall (fun h => GetHash h <> null256) hs.

Lemma received_message_ok {SHA : Sha256} K hs : received_ok (m_consensus_params K) hs -> message_ok K hs.
Proof.
  intros (Hc & Ho & Hn). unfold CheckHeadersPoW in Hc. apply andb_prop in Hc as [Hw Hc].
  split; [|by apply continuous_linked]. unfold HasValidProofOfWork in Hw.
  rewrite forallb_forall in Hw. apply Forall_forall. rewrite Forall_forall in Ho.
  intros h Hh. split; [by apply Ho|]. apply Hw. by apply list_elem_of_In.
Qed.

Lemma received_messages {SHA : Sha256} K (msgs : list (list CBlockHeader * bool)) :
  Forall (fun m => received_ok (m_consensus_params K) (fst m)) msgs ->
  Forall (fun m => message_ok K (fst m)) msgs.
Proof. intros H. eapply Forall_impl; [exact H|]. intros m. apply received_message_ok. Qed.

(** C4: whatever a peer sends, the synchronisation never fails, and the headers it
    releases to validation are backed.  They are the first headers of a chain [R]
    on top of the starting entry, byte for byte.  Unless [R] has the required work
    itself, the last [redownload_buffer_size] headers of it are held back; and the
    commitments of [R] are those of a chain [P] that has the required work.  Every
    header of both chains meets its target, and every target is permitted. *)
Theorem sync_releases_backed {SHA : Sha256} (K : SyncConst) (msgs : list (list CBlockHeader * bool)) :
  const_ok K -> Forall (fun m => received_ok (m_consensus_params K) (fst m)) msgs ->
  exists s D P R, run K (NewSync K) msgs = Ok (s, D) /\ outcome K P R D.
Proof.
  intros HK Hm. destruct (run_inv K HK msgs [] [] [] (NewSync K) (start_inv_sync K HK))
    as (s & D & P & R & E & Hout & _); [by apply received_messages|]. by exists s, D, P, R.
Qed.

(** C30: between messages a synchronisation holds at most [m_max_commitments] bits
    and [redownload_buffer_size] headers. *)
Theorem sync_memory_bounded {SHA : Sha256} (K : SyncConst) (msgs : list (list CBlockHeader * bool))
    (s : HeadersSyncState) (D : list CBlockHeader) :
  const_ok K -> Forall (fun m => received_ok (m_consensus_params K) (fst m)) msgs ->
  run K (NewSync K) msgs = Ok (s, D) ->
  len (m_header_commitments s) <= m_max_commitments K /\
  len (m_redownloaded_headers s) <= redownload_buffer_size (m_params K).
Proof.
  intros HK Hm E. destruct (run_inv K HK msgs [] [] [] (NewSync K) (start_inv_sync K HK))
    as (s' & D' & P & R & E' & _ & Hs); [by apply received_messages|].
  rewrite E in E'. injection E' as <- <-. pose proof (k_max K HK) as Hmax. pose proof (k_buffer K HK) as Hbuf.
  destruct (m_download_state s).
  - destruct Hs as [[] ->]. rewrite pre_commitments0, pre_buffer0, len_nil. split; [done|lia].
  - destruct Hs as [[] _]. destruct re_first0 as (_ & _ & Hc). rewrite re_commitments0, len_app in Hc.
    pose proof (len_nonneg (commitments_to K (before (least_work K) (start_work K) R))).
    split; [lia|]. rewrite re_buffer0. unfold len. rewrite length_map, length_drop.
    unfold buffer_size. lia.
  - destruct Hs as [-> ->]. split; rewrite len_nil; lia.
Qed.


(** The bound on the number of commitments leaves room for every chain that
    validation can have accepted by now, up to one commitment: a chain of [n] blocks
    on top of the start, whose last time the clock admits, has at most one
    commitment more than [m_max_commitments]. *)
Theorem valid_chain_commitments {SHA : Sha256} (params : Params) (genesis : CBlockHeader) (s : Chainman)
    (sync : HeadersSyncParams) (start x : uint256) (bx : CBlockIndex) (least : base_uint)
    (offset now : Z) (hasher : uint256 -> Z) (K : SyncConst) (n : nat) (l : list CBlockHeader) :
  params_ok params -> genesis_ok params genesis -> reachable params genesis s -> uint_wf least ->
  0 <= offset < commitment_period sync -> 0 < redownload_buffer_size sync -> now < 2 ^ 60 ->
  NewSyncConst params sync (m_block_index (m_blockman s)) start least offset hasher now = Ok K ->
  m_block_index (m_blockman s) !! x = Some bx -> nHeight bx < 2 ^ 31 ->
  up (m_block_index (m_blockman s)) (S n) x = Some start -> bTime bx <= now + MAX_FUTURE_BLOCK_TIME ->
  length l = S n -> len (commitments_to K l) <= m_max_commitments K + 1.
Proof.
  intros Hp Hg Hs Hl Ho Hbuf Hnow E Hx Hh U Ht Hn.
  pose proof (reachable_index params Hp genesis Hg s Hs) as Hm.
  destruct (up_height _ _ _ _ _ Hm Hx U) as (b & Hb & Eh).
  destruct (NewSyncConst_ok params Hp genesis Hg s sync start least offset hasher now Hs)
    as (K' & t & E' & HK & Ep & Es & Eo & Hst & Emt & Ht0 & Emax); [eauto|done|lia|done|].
  rewrite E in E'. injection E' as <-. rewrite Hb in Hst. injection Hst as Hst.
  pose proof (chain_length params Hp genesis Hg s Hs n x bx start t now Hx U Emt Ht) as Hlen.
  unfold MAX_FUTURE_BLOCK_TIME in Hlen, Emax |- *. rewrite Emax, u64_small by lia.
  pose proof (index_height _ _ _ Hm Hb). unfold commitments_to.
  assert (len l = Z.of_nat (S n)) as El by (unfold len; by rewrite Hn).
  rewrite bits_count; rewrite ?Ep, ?Eo, <- ?Hst, ?El; try lia.
  set (p := commitment_period sync) in *. set (S' := 6 * _) in *. set (h := nHeight b) in *.
  pose proof (Z.div_le_mono (Z.of_nat (S n)) S' p ltac:(lia) ltac:(lia)).
  pose proof (div_diff (h - offset) (Z.of_nat (S n)) p ltac:(lia) ltac:(lia)) as Hd.
  replace (h - offset + Z.of_nat (S n)) with (h + Z.of_nat (S n) - offset) in Hd by lia. lia.
Qed.

(** ** Examples *)

(** A synchronisation from the genesis block, with a commitment for every second
    header and two headers held back. *)
Definition example_sync : SyncConst :=
  {| m_commit_offset := 1; m_consensus_params := main_params; m_params := MkHeadersSyncParams 2 2;
     m_chain_start := hashGenesisBlock main_params; chain_start := index_of_header main_genesis;
     m_minimum_required_work := uint_of 1000000; m_hasher := le_combine; m_max_commitments := 10 |}.

Lemma example_ok : const_ok (SHA := platform_sha256) example_sync.
Proof.
  split; [apply main_params_ok|by vm_compute|cbn; lia|apply repr_zero|by apply uint_of_repr|cbn; lia..].
Qed.

Lemma example_chain : on_start (SHA := platform_sha256) example_sync [block1; block2; block3].
Proof.
  split.
  - repeat split; by vm_compute.
  - repeat constructor; try (cbn; lia); by vm_compute.
  - repeat split; by vm_compute.
Qed.

Lemma example_received b : b ∈ [block1; block2; block3] -> received_ok (SHA := platform_sha256) main_params [b].
Proof.
  intros Hb. repeat (apply elem_of_cons in Hb as [->|Hb]); [..|by apply elem_of_nil in Hb].
  all: repeat split; repeat constructor; try (cbn; lia); by vm_compute.
Qed.


Definition example_messages : list (list CBlockHeader * bool) :=
  [([block1], true); ([block2], true); ([block3], true); ([block1], true); ([block2], true); ([block3], false)].

Lemma example_messages_ok :
  Forall (fun m => received_ok (SHA := platform_sha256) (m_consensus_params example_sync) (fst m)) example_messages.
Proof. repeat (constructor; [apply example_received; set_solver|]). constructor. Qed.

Lemma sync_releases_backed_witness :
  exists s D P R, run (SHA := platform_sha256) example_sync (NewSync example_sync) example_messages = Ok (s, D) /\
    outcome (SHA := platform_sha256) example_sync P R D.
Proof.
  exact (sync_releases_backed (SHA := platform_sha256) example_sync example_messages example_ok example_messages_ok).
Defined.

(** The state after the first five of the messages, with two headers held back. *)
Definition example_state : HeadersSyncState :=
  match run (SHA := platform_sha256) example_sync (NewSync example_sync) (take 5 example_messages) with
  | Ok (s, _) => s
  | Throw _ => NewSync example_sync
  end.

Lemma sync_memory_bounded_witness :
  len (m_header_commitments example_state) <= 10 /\ len (m_redownloaded_headers example_state) <= 2.
Proof.
  refine (sync_memory_bounded (SHA := platform_sha256) example_sync (take 5 example_messages) example_state []
    example_ok _ _).
  - apply Forall_take. exact example_messages_ok.
  - vm_compute. reflexivity.
Defined.

Lemma valid_chain_commitments_witness :
  exists K, NewSyncConst main_params (MkHeadersSyncParams 2 2)
      (m_block_index (m_blockman (extend main_params [block1; block2; block3]))) (hashGenesisBlock main_params)
      (uint_of 1000000) 1 le_combine 1781164714 = Ok K /\
    len (commitments_to (SHA := platform_sha256) K [block1; block2; block3]) <= m_max_commitments K + 1.
Proof.
  destruct (has_entry_spec (extend main_params [block1; block2; block3]) block3 3 ltac:(by vm_compute))
    as (b & Hb & Hh & _).
  destruct (has_time_spec (extend main_params [block1; block2; block3]) block3 1781164714 ltac:(by vm_compute))
    as (b' & Hb' & Ht).
  assert (b' = b) as -> by congruence.
  pose proof (inv_genesis (SHA := platform_sha256) main_params _
    (reachable_inv (SHA := platform_sha256) main_params main_params_ok main_genesis main_genesis_ok _ main_chain)) as Hg.
  destruct (NewSyncConst_ok (SHA := platform_sha256) main_params main_params_ok main_genesis main_genesis_ok
    (extend main_params [block1; block2; block3]) (MkHeadersSyncParams 2 2) (hashGenesisBlock main_params)
    (uint_of 1000000) 1 le_combine 1781164714 main_chain Hg (proj1 (uint_of_repr 1000000 ltac:(lia)))
    ltac:(cbn; lia) ltac:(cbn; lia)) as (K & t & E & _).
  exists K. split; [exact E|].
  refine (valid_chain_commitments (SHA := platform_sha256) main_params main_genesis
    (extend main_params [block1; block2; block3]) (MkHeadersSyncParams 2 2) (hashGenesisBlock main_params) _ b
    (uint_of 1000000) 1 1781164714 le_combine K 2 [block1; block2; block3] main_params_ok main_genesis_ok
    main_chain (proj1 (uint_of_repr 1000000 ltac:(lia))) _ _ _ E Hb _ _ _ eq_refl).
  - cbn. lia.
  - cbn. lia.
  - lia.
  - rewrite Hh. lia.
  - vm_compute. reflexivity.
  - rewrite Ht. unfold MAX_FUTURE_BLOCK_TIME. lia.
Defined.
