(* ===== verification/HeadersMessages.v ===== *)
(** * Headers messages

    [PeerManagerImpl::ProcessHeadersMessage] of src/src/net_processing.cpp with the
    functions it calls, and [ProcessNewBlockHeaders] of src/src/validation.cpp: the
    way of a header from a peer into the block index, or into a synchronisation
    with that peer.

    Left out are the statistics of synchronisations (m_headers_presync_stats), what
    is logged, the record of the blocks that a peer is known to have, and, after
    the headers were accepted and more were requested, the choice of blocks to
    download. *)

From stdpp Require Import gmap.
From S2P Require Import Prelude Uint256 Framing Chain Pow Invalidation Headers Ancestry HeadersSync.

(** ** Data *)

(** [HEADERS_RESPONSE_TIME], in seconds. *)
Definition HEADERS_RESPONSE_TIME : Z := 4 * 60.

(** The options the handler reads. *)
Record NodeOptions := MkNodeOptions {
  consensus : Params;
  headers_sync : HeadersSyncParams;
  MinimumChainWork : base_uint;
  max_headers_result : Z
}.

(** The members of the class Peer the handler changes. *)
Record PeerState := MkPeer {
  m_headers_sync : option (SyncConst * HeadersSyncState);
  m_last_getheaders_timestamp : Z
}.

(** The chain state, and the active chain. *)
Record NodeState := MkNode {
  m_chainman : Chainman;
  ActiveChain : CChain
}.

(** What the outside contributes to a message: the clock, the random numbers of a
    new synchronisation, and whether the peer is exempt from the checks. *)
Record Input := MkInput {
  now : Z;
  commit_offset : Z;
  salted_hasher : uint256 -> Z;
  NoBan : bool
}.

(** The effects of a message: the chain state, the peer, the locators of requests
    that were sent, and whether the peer misbehaved or sent an invalid header. *)
Record Effects := MkEffects {
  e_chainman : Chainman;
  e_peer : PeerState;
  e_sent : list (list uint256);
  e_misbehaving : bool;
  e_invalid : option reject
}.

Definition index_of (node : NodeState) : BlockMap := m_block_index (m_blockman (m_chainman node)).

Section messages.
Context {SHA : Sha256} (opts : NodeOptions).

(** ** Operations *)

(** [GetAntiDoSWorkThreshold]. *)
Definition GetAntiDoSWorkThreshold (node : NodeState) : res base_uint :=
  near_chaintip_work ←
    match Tip (ActiveChain node) with
    | None => Ok (uint_of 0)
    | Some t =>
      tip ← deref (index_of node) t;
      proof ← GetBitsProof (bBits tip);
      let buffer := uint_mul (uint_of 144) proof in
      Ok (uint_sub (nChainWork tip) (if uint_lt (nChainWork tip) buffer then nChainWork tip else buffer))
    end;
  Ok (if uint_lt near_chaintip_work (MinimumChainWork opts) then MinimumChainWork opts else near_chaintip_work).

(** [CalculateClaimedHeadersWork] of validation.cpp. *)
Fixpoint claimed_work (total_work : base_uint) (headers : list CBlockHeader) : res base_uint :=
  match headers with
  | [] => Ok total_work
  | header :: headers => proof ← GetBitsProof (nBits header); claimed_work (uint_add total_work proof) headers
  end.

Definition CalculateClaimedHeadersWork (headers : list CBlockHeader) : res base_uint :=
  claimed_work (uint_of 0) headers.

(** [IsAncestorOfBestHeaderOrTip]. *)
Definition IsAncestorOfBestHeaderOrTip (node : NodeState) (header : option uint256) : res bool :=
  match header with
  | None => Ok false
  | Some h =>
    b ← deref (index_of node) h;
    ancestor ← match best_header (m_blockman (m_chainman node)) with
               | None => Ok None
               | Some best => GetAncestor (index_of node) best (nHeight b)
               end;
    if bool_decide (ancestor = Some h) then Ok true else Contains (index_of node) (ActiveChain node) h
  end.

(** [MaybeSendGetHeaders]: the peer and what is sent. *)
Definition MaybeSendGetHeaders (current_time : Z) (peer : PeerState) (locator : list uint256)
    : PeerState * list (list uint256) :=
  if HEADERS_RESPONSE_TIME <? current_time - m_last_getheaders_timestamp peer
  then (MkPeer (m_headers_sync peer) current_time, [locator])
  else (peer, []).

(** [IsContinuationOfLowWorkHeadersSync]: the peer, the headers, what is sent, and
    the result. *)
Definition IsContinuationOfLowWorkHeadersSync (node : NodeState) (i : Input) (peer : PeerState) (headers : list CBlockHeader)
    : res (PeerState * list CBlockHeader * list (list uint256) * bool) :=
  match m_headers_sync peer with
  | None => Ok (peer, headers, [], false)
  | Some (K, s) =>
    '(s, result) ← ProcessNextHeaders K s headers (len headers =? max_headers_result opts);
    let peer := MkPeer (Some (K, s)) (if success result then 0 else m_last_getheaders_timestamp peer) in
    '(peer, sent) ←
      (if request_more result
       then locator ← NextHeadersRequestLocator K (index_of node) s;
            if bool_decide (locator = []) then Ok (peer, [])
            else Ok (MaybeSendGetHeaders (now i) peer locator)
       else Ok (peer, []));
    let peer := if bool_decide (m_download_state s = FINAL)
                then MkPeer None (m_last_getheaders_timestamp peer) else peer in
    Ok (peer, if success result then pow_validated_headers result else headers, sent, success result)
  end.

(** [TryLowWorkHeadersSync]: the peer, what is sent, and the result. *)
Definition TryLowWorkHeadersSync (node : NodeState) (i : Input) (peer : PeerState) (chain_start_header : uint256)
    (headers : list CBlockHeader) : res (PeerState * list (list uint256) * bool) :=
  start ← deref (index_of node) chain_start_header;
  claimed ← CalculateClaimedHeadersWork headers;
  let total_work := uint_add (nChainWork start) claimed in
  minimum_chain_work ← GetAntiDoSWorkThreshold node;
  if uint_lt total_work minimum_chain_work then
    if len headers =? max_headers_result opts then
      K ← NewSyncConst (consensus opts) (headers_sync opts) (index_of node) chain_start_header
            minimum_chain_work (commit_offset i) (salted_hasher i) (now i);
      let peer := MkPeer (Some (K, NewSync K)) (m_last_getheaders_timestamp peer) in
      '(peer, _, sent, _) ← IsContinuationOfLowWorkHeadersSync node i peer headers;
      Ok (peer, sent, true)
    else Ok (peer, [], true)
  else Ok (peer, [], false).

(** The loop of [ProcessNewBlockHeaders]: the state, the last entry, and the reason
    of a rejection. *)
Fixpoint ProcessNewBlockHeaders (s : Chainman) (time : Z) (headers : list CBlockHeader) (min_pow_checked : bool)
    (pindex : option uint256) : res (Chainman * option uint256 * option reject) :=
  match headers with
  | [] => Ok (s, pindex, None)
  | header :: headers =>
    '(s, r) ← AcceptBlockHeader (consensus opts) false s time header min_pow_checked;
    match r with
    | inr why => Ok (s, pindex, Some why)
    | inl entry => ProcessNewBlockHeaders s time headers min_pow_checked (Some entry)
    end
  end.

(** The part of [ProcessHeadersMessage] after the headers were found to be worth
    processing; [full] and [have_headers_sync] are about the message as received. *)
Definition accept_headers (node : NodeState) (i : Input) (peer : PeerState) (headers : list CBlockHeader)
    (sent : list (list uint256)) (full have_headers_sync : bool) : res Effects :=
  '(s, pindexLast, invalid) ← ProcessNewBlockHeaders (m_chainman node) (now i) headers true None;
  match invalid with
  | Some why => Ok (MkEffects s peer sent false (Some why))
  | None =>
    match pindexLast with
    | None => Throw AssertFailed
    | Some lst =>
      if full && negb have_headers_sync
      then locator ← LocatorEntries (m_block_index (m_blockman s)) (Some lst);
           let '(peer, more) := MaybeSendGetHeaders (now i) peer locator in
           Ok (MkEffects s peer (sent ++ more) false None)
      else Ok (MkEffects s peer sent false None)
    end
  end.

(** [ProcessHeadersMessage]. *)
Definition ProcessHeadersMessage (node : NodeState) (i : Input) (peer : PeerState) (headers : list CBlockHeader)
    : res Effects :=
  let s := m_chainman node in
  let full := len headers =? max_headers_result opts in
  match headers with
  | [] => Ok (MkEffects s (MkPeer None 0) [] false None)
  | _ =>
    if negb (CheckHeadersPoW headers (consensus opts) false) then Ok (MkEffects s peer [] true None)
    else
      '(peer, headers, sent, already_validated_work) ← IsContinuationOfLowWorkHeadersSync node i peer headers;
      match headers with
      | [] => Ok (MkEffects s peer sent false None)
      | first :: _ =>
        let have_headers_sync := bool_decide (is_Some (m_headers_sync peer)) in
        match index_of node !! hashPrevBlock first with
        | None =>
          locator ← LocatorEntries (index_of node) (best_header (m_blockman s));
          let '(peer, more) := MaybeSendGetHeaders (now i) peer locator in
          Ok (MkEffects s peer (sent ++ more) false None)
        | Some _ =>
          let peer := MkPeer (m_headers_sync peer) 0 in
          let last_received_header :=
            match last headers with
            | Some h => match index_of node !! GetHash h with Some _ => Some (GetHash h) | None => None end
            | None => None
            end in
          known ← (if (already_validated_work : bool) then Ok true
                   else IsAncestorOfBestHeaderOrTip node last_received_header);
          if (known : bool) || NoBan i
          then accept_headers node i peer headers sent full have_headers_sync
          else
            '(peer, more, low_work) ← TryLowWorkHeadersSync node i peer (hashPrevBlock first) headers;
            if (low_work : bool) then Ok (MkEffects s peer (sent ++ more) false None)
            else accept_headers node i peer headers (sent ++ more) full have_headers_sync
        end
      end
  end.
End messages.

(** ** Adding headers to the index *)

(** The first computation of a bind that returns. *)
Ltac res_case :=
  match goal with |- mbind _ ?a = Ok _ -> _ => destruct a; rbind; [|done] end;
  try match goal with |- (let '(_, _) := ?x in _) = _ -> _ => destruct x end.

Lemma AddToBlockIndex_keys {SHA : Sha256} s block s' h : AddToBlockIndex s block = Ok (s', h) ->
  is_Some (m_block_index s' !! h) /\
  forall k, k <> GetHash block -> m_block_index s' !! k = m_block_index s !! k.
Proof.
  unfold AddToBlockIndex. destruct (m_block_index s !! GetHash block) as [b|] eqn:E.
  { intros [= <- <-]. split; [by rewrite E|done]. }
  cbv zeta. do 4 res_case. intros [= <- <-].
  cbn [m_block_index]. rewrite lookup_insert_eq. split; [done|]. intros k Hk.
  by rewrite !lookup_insert_ne by done.
Qed.

Section safety.
Context {SHA : Sha256} (opts : NodeOptions) (Hp : params_ok (consensus opts)) (genesis : CBlockHeader)
        (Hg : genesis_ok (consensus opts) genesis).

Abbreviation params := (consensus opts).
Abbreviation index s := (m_block_index (m_blockman s)).

(** What one header does to the index. *)
Lemma accept_keys s time block s' r : AcceptBlockHeader params false s time block true = Ok (s', r) ->
  (forall e, r = inl e -> is_Some (index s' !! e)) /\
  forall k, k <> GetHash block -> index s' !! k = index s !! k.
Proof using Type.
  unfold AcceptBlockHeader. cbv zeta. cbn [negb].
  assert (forall s' (r : uint256 + reject), ('(bm, pindex) ← AddToBlockIndex (m_blockman s) block;
    Ok ({| m_blockman := bm; failed := failed s |}, inl pindex)) = Ok (s', r) ->
    (forall e : uint256, r = inl e -> is_Some (index s' !! e)) /\
    forall k, k <> GetHash block -> index s' !! k = index s !! k) as Hadd.
  { clear s' r. intros s' r. destruct (AddToBlockIndex (m_blockman s) block) as [[bm h]|] eqn:E; [|done]. rbind.
    intros [= <- <-]. apply AddToBlockIndex_keys in E as [H1 H2]. cbn [m_blockman].
    split; [|done]. by intros e [= <-]. }
  case_decide; [apply Hadd|]. destruct (index s !! GetHash block) eqn:E.
  { case_decide; intros [= <- <-]; (split; [|done]); intros e [= <-]. by rewrite E. }
  destruct (CheckBlockHeader _ _ _ _); [by intros [= <- <-]|].
  destruct (index s !! hashPrevBlock block); [|by intros [= <- <-]].
  case_decide; [by intros [= <- <-]|]. res_case. case_match; [by intros [= <- <-]|apply Hadd].
Qed.

Lemma accept_one s time block : reachable params genesis s -> header_ok block ->
  exists s' r, AcceptBlockHeader params false s time block true = Ok (s', r) /\
    reachable params genesis s' /\ index s ⊆ index s' /\
    (forall e, r = inl e -> is_Some (index s' !! e)) /\
    forall k, k <> GetHash block -> index s' !! k = index s !! k.
Proof using Hp Hg.
  intros Hs Hb. pose proof (reachable_inv params Hp genesis Hg s Hs) as Hinv.
  destruct (AcceptBlockHeader_spec params Hp s time block true Hinv Hb) as (s' & r & E & _ & Hsub & _).
  exists s', r. split; [done|]. split; [by apply (reachable_header params genesis s time block true s' r)|].
  split; [done|]. by apply (accept_keys s time block).
Qed.

(** What a list of headers does to it: all new entries are from the list. *)
Lemma process_new headers s time p : reachable params genesis s -> Forall header_ok headers ->
  (forall e, p = Some e -> is_Some (index s !! e)) ->
  exists s' p' why, ProcessNewBlockHeaders opts s time headers true p = Ok (s', p', why) /\
    reachable params genesis s' /\ index s ⊆ index s' /\
    (forall e, p' = Some e -> is_Some (index s' !! e)) /\
    (why = None -> headers <> [] \/ is_Some p -> is_Some p') /\
    forall k, index s !! k = None -> is_Some (index s' !! k) -> exists h, h ∈ headers /\ k = GetHash h.
Proof using Hp Hg.
  revert s p. induction headers as [|h headers IH]; intros s p Hs Hok Hpi; cbn [ProcessNewBlockHeaders].
  { exists s, p, None. do 4 (split; [done|]). split; [by intros _ [?|?]|]. intros k -> [? ?]. done. }
  inversion Hok as [|? ? Hh Hhs]; subst.
  destruct (accept_one s time h Hs Hh) as (s1 & r & -> & Hs1 & Hsub & He & Hk). rbind. destruct r as [e|why].
  - destruct (IH s1 (Some e) Hs1 Hhs) as (s2 & p2 & why & E & Hs2 & Hsub2 & Hp2 & Hsome & Hk2).
    { intros ? [= <-]. by apply He. }
    exists s2, p2, why. split; [done|]. split; [done|]. split; [by etrans|]. split; [done|].
    split; [intros Hw _; apply Hsome; [done|right; done]|]. intros k Hn Hi.
    destruct (decide (k = GetHash h)) as [->|Hne]; [exists h; split; [apply elem_of_cons; by left|done]|].
    destruct (Hk2 k) as (x & Hx & ->); [by rewrite Hk|done|]. exists x. split; [apply elem_of_cons; by right|done].
  - exists s1, p, (Some why). split; [done|]. split; [done|]. split; [done|]. split.
    { intros e Ee. destruct (Hpi e Ee) as [b Hb]. exists b. by apply (lookup_weaken (index s)). }
    split; [done|]. intros k Hn Hi. exists h. split; [apply elem_of_cons; by left|].
    destruct (decide (k = GetHash h)) as [|Hne]; [done|]. rewrite Hk, Hn in Hi by done. by destruct Hi.
Qed.

(** ** The invariant *)

(** What the options promise. *)
Record options_ok : Prop := {
  o_work : uint_wf (MinimumChainWork opts);
  o_period : 0 < commitment_period (headers_sync opts);
  o_buffer : 0 < redownload_buffer_size (headers_sync opts)
}.

Record node_ok (node : NodeState) : Prop := {
  n_reachable : reachable params genesis (m_chainman node);
  n_active : chain_ok (index_of node) (ActiveChain node)
}.

(** The synchronisation with a peer, and the history of it. *)
Record sync_ok (m : BlockMap) (K : SyncConst) (P R D : list CBlockHeader) (s : HeadersSyncState) : Prop := {
  s_const : const_ok K;
  s_params : m_consensus_params K = params;
  s_start : m !! m_chain_start K = Some (chain_start K);
  s_least : eval (MinimumChainWork opts) <= least_work K;
  s_inv : sync_inv K P R D s
}.

Definition peer_ok (m : BlockMap) (peer : PeerState) : Prop :=
  match m_headers_sync peer with
  | None => True
  | Some (K, s) => exists P R D, sync_ok m K P R D s
  end.

Lemma peer_ok_mono m m' peer : m ⊆ m' -> peer_ok m peer -> peer_ok m' peer.
Proof using Type.
  intros Hm. unfold peer_ok. destruct (m_headers_sync peer) as [[K s]|]; [|done].
  intros (P & R & D & []). exists P, R, D. split; try done. by apply (lookup_weaken m).
Qed.

Lemma node_index node : node_ok node -> index_ok (index_of node).
Proof using Hp Hg. intros Hn. apply (reachable_index params Hp genesis Hg), Hn. Qed.

Lemma locator_total m h : index_ok m -> is_Some (m !! h) -> exists l, LocatorEntries m (Some h) = Ok (h :: l).
Proof using Type.
  intros Hm [b Hb]. unfold LocatorEntries. rewrite (deref_Some _ _ _ Hb). rbind.
  pose proof (index_height _ _ _ Hm Hb). pose proof (Z.log2_nonneg (nHeight b)).
  destruct (locator_loop_spec (S (Z.to_nat (nHeight b))) m h b [] 1 (S (Z.to_nat (Z.log2 (nHeight b)))) Hm Hb)
    as (l & -> & _); try lia; [|by exists l].
  rewrite Nat2Z.inj_succ, Z2Nat.id by lia. destruct (decide (nHeight b = 0)) as [->|]; [done|].
  pose proof (Z.log2_spec (nHeight b) ltac:(lia)). lia.
Qed.

Lemma threshold_spec node : options_ok -> node_ok node ->
  exists w, GetAntiDoSWorkThreshold opts node = Ok w /\ uint_wf w /\ eval (MinimumChainWork opts) <= eval w.
Proof using Hp Hg.
  intros Ho Hn. pose proof (node_index node Hn) as Hm. unfold GetAntiDoSWorkThreshold.
  pose proof (conj (o_work Ho) eq_refl : repr _ _) as Hmin.
  assert (forall near, uint_wf near -> exists w, (Ok (if uint_lt near (MinimumChainWork opts)
    then MinimumChainWork opts else near) : res base_uint) = Ok w /\ uint_wf w /\
    eval (MinimumChainWork opts) <= eval w) as Hfin.
  { intros near Hnear. rewrite (uint_lt_repr _ _ _ _ (conj Hnear eq_refl) Hmin).
    destruct (Z.ltb_spec (eval near) (eval (MinimumChainWork opts))); eexists; (split; [done|]).
    - split; [apply (o_work Ho)|lia].
    - split; [done|lia]. }
  destruct (Tip (ActiveChain node)) as [t|] eqn:Et; rbind; [|apply Hfin, (uint_of_repr 0); lia].
  assert (exists b, index_of node !! t = Some b) as [b Hb].
  { unfold Tip in Et. destruct (last (ActiveChain node)) as [q|] eqn:El; [|done]. cbn in Et. subst q.
    rewrite last_lookup in El. destruct (n_active node Hn _ _ El) as (x & b & [= <-] & Hb & _). eauto. }
  rewrite (deref_Some _ _ _ Hb). rbind. destruct (Hm _ _ Hb) as (_ & Hbits & Hw & _).
  destruct (GetBitsProof_spec _ Hbits) as (proof & -> & Hproof). rbind. apply Hfin.
  pose proof (uint_mul_repr _ _ _ _ (uint_of_repr 144 ltac:(lia)) Hproof) as Hbuf.
  pose proof (conj Hw eq_refl : repr _ _) as Hrw.
  case_match; [apply (uint_sub_repr _ _ _ _ Hrw Hrw)|apply (uint_sub_repr _ _ _ _ Hrw Hbuf)].
Qed.

Lemma claimed_spec headers w v : Forall header_ok headers -> repr w v ->
  exists w', claimed_work w headers = Ok w' /\ repr w' ((v + total headers) mod 2 ^ 256).
Proof using Type.
  intros Hok. revert w v. induction Hok as [|h l Hh _ IH]; intros w v Hw; cbn [claimed_work total].
  { exists w. split; [done|]. rewrite Z.add_0_r, Z.mod_small by apply (repr_bounds _ _ Hw). done. }
  destruct (GetBitsProof_spec _ (proj2 Hh)) as (proof & -> & Hproof). rbind.
  destruct (IH _ _ (uint_add_repr _ _ _ _ Hw Hproof)) as (w' & -> & Hw'). exists w'. split; [done|].
  rewrite Z.add_mod_idemp_l in Hw' by lia. by replace (v + (work_of (nBits h) + total l))
    with (v + work_of (nBits h) + total l) by lia.
Qed.

(** ** Why headers are accepted *)

Lemma outcome_header_ok K P R D : outcome K P R D -> Forall header_ok D.
Proof using Type.
  intros []. assert (Forall header_ok R) as HR.
  { eapply Forall_impl; [apply (on_ok _ _ out_second)|]. by intros h [Hh _]. }
  rewrite out_released. case_match; [done|by apply Forall_take].
Qed.

(** The headers [hs] are released by the synchronisation with the peer: they end
    what it has released of a chain that is backed by the required work. *)
Definition released (peer : PeerState) (hs : list CBlockHeader) : Prop :=
  exists K s P R D, m_headers_sync peer = Some (K, s) /\ outcome K P R (D ++ hs) /\
    eval (MinimumChainWork opts) <= least_work K.

Lemma request_total node K P R D s : node_ok node -> sync_ok (index_of node) K P R D s ->
  exists l, NextHeadersRequestLocator K (index_of node) s = Ok l.
Proof using Hp Hg.
  intros Hn Hs. unfold NextHeadersRequestLocator.
  destruct (locator_total (index_of node) (m_chain_start K) (node_index node Hn)) as [l E];
    [rewrite (s_start _ _ _ _ _ _ Hs); eauto|].
  destruct (m_download_state s); rewrite ?E; rbind; eauto.
Qed.

Lemma continuation_spec node i peer headers : node_ok node -> peer_ok (index_of node) peer ->
  received_ok params headers ->
  exists peer' hs sent ok, IsContinuationOfLowWorkHeadersSync opts node i peer headers = Ok (peer', hs, sent, ok) /\
    peer_ok (index_of node) peer' /\ Forall header_ok hs /\
    (ok = false -> hs = headers) /\ (ok = true -> released peer hs).
Proof using Hp Hg.
  intros Hn Hpeer Hr. pose proof Hr as (_ & Hok & _). unfold IsContinuationOfLowWorkHeadersSync, peer_ok in *.
  destruct (m_headers_sync peer) as [[K s]|] eqn:Es.
  2:{ exists peer, headers, [], false. rewrite Es. by repeat split. }
  destruct Hpeer as (P & R & D & Hs). pose proof Hs as [HK Hpar Hst Hle Hinv].
  rewrite <- Hpar in Hr. destruct (message_inv K HK P R D s headers (len headers =? max_headers_result opts) Hinv
    (received_message_ok K headers Hr)) as (s' & r & P' & R' & -> & Hinv'). rbind.
  assert (sync_ok (index_of node) K P' R' (D ++ pow_validated_headers r) s') as Hs' by (by split).
  destruct (request_total node K _ _ _ s' Hn Hs') as [l El].
  set (peer1 := MkPeer (Some (K, s')) _).
  assert (exists peer2 sent, (if request_more r
       then locator ← NextHeadersRequestLocator K (index_of node) s';
            if bool_decide (locator = []) then Ok (peer1, [])
            else Ok (MaybeSendGetHeaders (now i) peer1 locator)
       else Ok (peer1, [])) = Ok (peer2, sent) /\ m_headers_sync peer2 = Some (K, s')) as (peer2 & sent & -> & E2).
  { destruct (request_more r); [rewrite El; rbind; unfold MaybeSendGetHeaders|by eexists _, _].
    repeat case_match; by eexists _, _. }
  rbind. eexists _, _, _, _. split; [done|]. split.
  { case_bool_decide; cbn [m_headers_sync]; [done|]. rewrite E2. eauto. }
  split; [|split].
  - destruct (success r); [|done]. pose proof (outcome_header_ok K P' R' _ (proj1 Hinv')) as H'.
    by apply Forall_app in H' as [_ H'].
  - intros ->. done.
  - intros ->. exists K, s, P', R', D. split; [done|]. split; [apply Hinv'|done].
Qed.

(** A message that does not start a synchronisation has the required work. *)
Lemma try_low_work_spec node i peer start b headers : options_ok -> node_ok node -> peer_ok (index_of node) peer ->
  received_ok params headers -> index_of node !! start = Some b ->
  exists peer' sent low, TryLowWorkHeadersSync opts node i peer start headers = Ok (peer', sent, low) /\
    peer_ok (index_of node) peer' /\
    (low = false -> eval (MinimumChainWork opts) <= (eval (nChainWork b) + total headers) mod 2 ^ 256).
Proof using Hp Hg.
  intros Ho Hn Hpeer Hr Hb. pose proof Hr as (_ & Hok & _). pose proof (node_index node Hn) as Hm.
  unfold TryLowWorkHeadersSync, CalculateClaimedHeadersWork. rewrite (deref_Some _ _ _ Hb). rbind.
  destruct (claimed_spec headers (uint_of 0) 0 Hok (uint_of_repr 0 ltac:(lia))) as (w & -> & Hw). rbind.
  destruct (Hm _ _ Hb) as (_ & _ & Hwork & _).
  pose proof (uint_add_repr _ _ _ _ (conj Hwork eq_refl) Hw) as Htot. rewrite Z.add_mod_idemp_r, Z.add_0_l in Htot by lia.
  destruct (threshold_spec node Ho Hn) as (t & -> & Ht & Hmin). rbind.
  rewrite (uint_lt_repr _ _ _ _ Htot (conj Ht eq_refl)).
  destruct (Z.ltb_spec ((eval (nChainWork b) + total headers) mod 2 ^ 256) (eval t)) as [Hlt|Hge].
  2:{ exists peer, [], false. split; [done|]. split; [done|]. intros _. by etrans. }
  destruct (len headers =? max_headers_result opts); [|by exists peer, [], true].
  destruct (NewSyncConst_ok params Hp genesis Hg (m_chainman node) (headers_sync opts) start t (commit_offset i)
    (salted_hasher i) (now i) (n_reachable node Hn)) as (K & mt & E & HK & _ & Es & _ & Hst & _);
    [eauto|done|apply (o_period Ho)|apply (o_buffer Ho)|].
  unfold index_of in *. rewrite E. rbind.
  assert (m_consensus_params K = params /\ m_minimum_required_work K = t) as [Epar Et].
  { unfold NewSyncConst in E. revert E. case_match; [done|]. do 2 res_case. by intros [= <-]. }
  assert (peer_ok (index_of node) (MkPeer (Some (K, NewSync K)) (m_last_getheaders_timestamp peer))) as Hp1.
  { exists [], [], []. split; try done; [by rewrite Es|unfold least_work; by rewrite Et|by apply start_inv_sync]. }
  destruct (continuation_spec node i _ headers Hn Hp1 Hr) as (peer' & hs & sent & ok & -> & Hp2 & _). rbind.
  by exists peer', sent, true.
Qed.

Lemma known_total node h : node_ok node -> is_Some (index_of node !! h) ->
  exists known, IsAncestorOfBestHeaderOrTip node (Some h) = Ok known.
Proof using Hp Hg.
  intros Hn [b Hb]. pose proof (node_index node Hn) as Hm. unfold IsAncestorOfBestHeaderOrTip.
  rewrite (deref_Some _ _ _ Hb). rbind.
  pose proof (proj2 (inv_index _ _ (reachable_inv params Hp genesis Hg _ (n_reachable node Hn)))) as Hbest.
  unfold Contains. rewrite (deref_Some _ _ _ Hb). unfold index_of in *.
  destruct (best_header (m_blockman (m_chainman node))) as [best|]; [|rbind; case_match; eauto].
  destruct Hbest as [bb Hbb]. rewrite (GetAncestor_spec _ _ _ _ Hm Hbb). rbind. case_match; eauto.
Qed.

(** The ways of the headers [hs] into the index when [headers] are received: the peer
    is exempt; they are released by a synchronisation; the last of them is known as
    an ancestor of the best header or of the tip; or their chain claims the work. *)
Inductive admitted (node : NodeState) (i : Input) (peer : PeerState) (headers hs : list CBlockHeader) : Prop :=
  | by_permission : NoBan i = true -> admitted node i peer headers hs
  | by_release : released peer hs -> admitted node i peer headers hs
  | by_knowledge h : hs = headers -> last headers = Some h -> is_Some (index_of node !! GetHash h) ->
      IsAncestorOfBestHeaderOrTip node (Some (GetHash h)) = Ok true -> admitted node i peer headers hs
  | by_work first rest b : hs = headers -> headers = first :: rest ->
      index_of node !! hashPrevBlock first = Some b ->
      eval (MinimumChainWork opts) <= (eval (nChainWork b) + total headers) mod 2 ^ 256 ->
      admitted node i peer headers hs.

(** What a message may do. *)
Record effects_ok (node : NodeState) (i : Input) (peer : PeerState) (headers : list CBlockHeader) (e : Effects) : Prop := {
  ef_reachable : reachable params genesis (e_chainman e);
  ef_grows : index_of node ⊆ index (e_chainman e);
  ef_peer : peer_ok (index (e_chainman e)) (e_peer e);
  ef_new : forall k, index_of node !! k = None -> is_Some (index (e_chainman e) !! k) ->
    exists hs h, admitted node i peer headers hs /\ h ∈ hs /\ k = GetHash h
}.

Lemma nothing_added node i peer headers peer' sent bad why : node_ok node -> peer_ok (index_of node) peer' ->
  effects_ok node i peer headers (MkEffects (m_chainman node) peer' sent bad why).
Proof using Type.
  intros Hn Hpeer. split; cbn; try done; [apply Hn|]. intros k Hk [? Hi]. unfold index_of in Hk. congruence.
Qed.

Lemma getheaders_peer_ok m time peer l peer' sent : peer_ok m peer ->
  MaybeSendGetHeaders time peer l = (peer', sent) -> peer_ok m peer'.
Proof using Type. unfold MaybeSendGetHeaders. intros Hpeer. by case_match; intros [= <- <-]. Qed.

Lemma accept_headers_spec node i peer0 peer headers hs sent full have : node_ok node ->
  peer_ok (index_of node) peer -> hs <> [] -> Forall header_ok hs -> admitted node i peer0 headers hs ->
  exists e, accept_headers opts node i peer hs sent full have = Ok e /\ effects_ok node i peer0 headers e.
Proof using Hp Hg.
  intros Hn Hpeer Hne Hok Ha. unfold accept_headers.
  destruct (process_new hs (m_chainman node) (now i) None (n_reachable node Hn) Hok) as
    (s & p & why & -> & Hs & Hsub & He & Hsome & Hk); [done|]. rbind.
  assert (forall peer' sent why, peer_ok (index s) peer' ->
    effects_ok node i peer0 headers (MkEffects s peer' sent false why)) as Hfin.
  { intros peer' sent' why' Hp'. split; cbn; try done. intros k Hn' Hi.
    destruct (Hk k Hn' Hi) as (h & Hh & ->). by exists hs, h. }
  pose proof (peer_ok_mono _ _ peer Hsub Hpeer) as Hpeer'.
  destruct why as [w|]; [eexists; split; [done|by apply Hfin]|].
  destruct (Hsome eq_refl ltac:(by left)) as [e ->].
  case_match; [|eexists; split; [done|by apply Hfin]].
  destruct (locator_total (index s) e (reachable_index params Hp genesis Hg s Hs) (He e eq_refl)) as [l ->]. rbind.
  destruct (MaybeSendGetHeaders (now i) peer (e :: l)) as [peer' more] eqn:Em.
  eexists. split; [done|]. apply Hfin. by apply (getheaders_peer_ok _ _ _ _ _ _ Hpeer' Em).
Qed.

Lemma message_safe node i peer headers : options_ok -> node_ok node -> peer_ok (index_of node) peer ->
  Forall header_ok headers -> Forall (fun h => GetHash h <> null256) headers ->
  exists e, ProcessHeadersMessage opts node i peer headers = Ok e /\ effects_ok node i peer headers e.
Proof using Hp Hg.
  intros Ho Hn Hpeer Hok Hnull. unfold ProcessHeadersMessage. destruct headers as [|x l] eqn:Eh.
  { eexists. split; [done|]. by apply nothing_added. }
  rewrite <- Eh in *. destruct (CheckHeadersPoW headers params false) eqn:Ec; cbn [negb];
    [|eexists; split; [done|by apply nothing_added]].
  assert (received_ok params headers) as Hr by (by repeat split).
  destruct (continuation_spec node i peer headers Hn Hpeer Hr) as (peer1 & hs & sent & ok & -> & Hp1 & Hhs & Hf & Ht).
  rbind. destruct hs as [|first rest] eqn:Ehs; [eexists; split; [done|by apply nothing_added]|].
  rewrite <- Ehs in *. assert (hs <> []) as Hne by (by rewrite Ehs).
  destruct (index_of node !! hashPrevBlock first) as [b|] eqn:Hb.
  2:{ pose proof (reachable_inv params Hp genesis Hg _ (n_reachable node Hn)) as Hinv.
      destruct (inv_best _ _ Hinv) as [bh Ebh]. pose proof (proj2 (inv_index _ _ Hinv)) as Hbb. rewrite Ebh in Hbb |- *.
      destruct (locator_total (index_of node) bh (node_index node Hn) Hbb) as [loc ->]. rbind.
      destruct (MaybeSendGetHeaders (now i) peer1 (bh :: loc)) as [peer2 more] eqn:Em.
      eexists. split; [done|]. apply nothing_added; [done|]. by apply (getheaders_peer_ok _ _ _ _ _ _ Hp1 Em). }
  assert (peer_ok (index_of node) (MkPeer (m_headers_sync peer1) 0)) as Hp2 by exact Hp1.
  destruct ok; rbind; cbn [orb].
  { apply (accept_headers_spec node i peer _ headers hs); try done. by apply by_release, Ht. }
  specialize (Hf eq_refl). rewrite Hf in *.
  destruct (last headers) as [h|] eqn:El; [|apply last_None in El; congruence].
  assert (exists known, IsAncestorOfBestHeaderOrTip node
    (match index_of node !! GetHash h with Some _ => Some (GetHash h) | None => None end) = Ok known /\
    (known = true -> admitted node i peer headers headers)) as (known & -> & Hknown).
  { destruct (index_of node !! GetHash h) as [bh|] eqn:Eb; [|by exists false].
    destruct (known_total node (GetHash h) Hn ltac:(by eexists)) as [known Ek]. exists known. split; [done|].
    intros ->. by apply (by_knowledge node i peer headers headers h). }
  rbind. destruct (known || NoBan i) eqn:Ek.
  { apply (accept_headers_spec node i peer _ headers headers); try done.
    apply orb_prop in Ek as [->|Ek]; [by apply Hknown|by apply by_permission]. }
  destruct (try_low_work_spec node i _ (hashPrevBlock first) b headers Ho Hn Hp2 Hr Hb)
    as (peer3 & more & low & -> & Hp3 & Hlow). rbind.
  destruct low; [eexists; split; [done|by apply nothing_added]|].
  apply (accept_headers_spec node i peer _ headers headers); try done.
  apply (by_work node i peer headers headers first rest b); try done. by apply Hlow.
Qed.
End safety.

(** ** A node with its peers *)

Section network.
Context {SHA : Sha256} (opts : NodeOptions) (genesis : CBlockHeader).

Record PeerNetwork := MkNetwork {
  nt_node : NodeState;
  nt_peers : gmap Z PeerState
}.

(** Peers come and go and send headers; the tip of the active chain moves to an entry
    of the index; any entries are marked as failed or cleared, and any entry becomes
    the best header. *)
Inductive nstep : PeerNetwork -> PeerNetwork -> Prop :=
  | net_headers net id peer i headers e :
      nt_peers net !! id = Some peer ->
      Forall header_ok headers -> Forall (fun h => GetHash h <> null256) headers ->
      ProcessHeadersMessage opts (nt_node net) i peer headers = Ok e ->
      nstep net {| nt_node := MkNode (e_chainman e) (ActiveChain (nt_node net));
                   nt_peers := <[id := e_peer e]> (nt_peers net) |}
  | net_connect net id :
      nstep net {| nt_node := nt_node net; nt_peers := <[id := MkPeer None 0]> (nt_peers net) |}
  | net_disconnect net id :
      nstep net {| nt_node := nt_node net; nt_peers := delete id (nt_peers net) |}
  | net_tip net t c :
      is_Some (index_of (nt_node net) !! t) ->
      SetTip (index_of (nt_node net)) (ActiveChain (nt_node net)) t = Ok c ->
      nstep net {| nt_node := MkNode (m_chainman (nt_node net)) c; nt_peers := nt_peers net |}
  | net_marks net best flags :
      is_Some (index_of (nt_node net) !! best) ->
      nstep net {| nt_node := MkNode (MkChainman (Manager (index_of (nt_node net)) (Some best)) flags)
                                     (ActiveChain (nt_node net));
                   nt_peers := nt_peers net |}.

(** A node starts with the genesis block, without a tip and without peers. *)
Inductive running : PeerNetwork -> Prop :=
  | running_start bm h : AddToBlockIndex (Manager ∅ None) genesis = Ok (bm, h) ->
      running (MkNetwork (MkNode (MkChainman bm ∅) []) ∅)
  | running_step net net' : running net -> nstep net net' -> running net'.

Record network_ok (net : PeerNetwork) : Prop := {
  nw_node : node_ok opts genesis (nt_node net);
  nw_peers : map_Forall (fun _ => peer_ok opts (index_of (nt_node net))) (nt_peers net)
}.

Lemma chain_ok_mono m m' c : m ⊆ m' -> chain_ok m c -> chain_ok m' c.
Proof using Type.
  intros Hm Hc i p Hi. destruct (Hc i p Hi) as (x & b & Hx & Hb & H). exists x, b.
  split; [done|]. split; [by apply (lookup_weaken m)|done].
Qed.

Lemma running_ok net : params_ok (consensus opts) -> genesis_ok (consensus opts) genesis -> options_ok opts ->
  running net -> network_ok net.
Proof using Type.
  intros Hp Hg Ho. induction 1 as [bm h E|net net' _ IH Hstep].
  { split; [|apply map_Forall_empty]. split; [by apply (reachable_start _ genesis bm h)|].
    intros i p Hi. by destruct i. }
  destruct IH as [Hn Hpeers]. destruct Hstep as [net id peer i headers e Hpeer Hok Hnull E|net id|net id|net t c [b Hb] E|net best flags Hbest].
  - destruct (message_safe opts Hp genesis Hg (nt_node net) i peer headers Ho Hn (Hpeers _ _ Hpeer) Hok Hnull)
      as (e' & E' & He). rewrite E in E'. injection E' as <-. destruct He. split; cbn.
    + split; [done|]. cbn. by apply (chain_ok_mono (index_of (nt_node net))), Hn.
    + apply map_Forall_insert_2; [done|]. intros k q Hq. by apply (peer_ok_mono opts _ _ q ef_grows0), (Hpeers k).
  - split; [done|]. cbn. by apply map_Forall_insert_2.
  - split; [done|]. cbn. by apply map_Forall_delete.
  - destruct (SetTip_spec _ _ t b (node_index opts Hp genesis Hg _ Hn) (n_active _ _ _ Hn) Hb) as (c' & E' & Ha).
    rewrite E in E'. injection E' as <-. split; [|done]. split; [apply Hn|].
    apply (ancestry_chain_ok _ t b c (node_index opts Hp genesis Hg _ Hn) Hb Ha).
  - split; [|done]. split; [|apply Hn]. apply reachable_marks; [apply Hn|done].
Qed.
End network.

(** ** Properties *)

(** C3: in every state of a node with any number of peers, whatever entries are
    marked as failed and whichever is the best header, a headers message is
    processed without a failing assertion or a null pointer, the index only grows
    by valid entries, the synchronisation with the peer keeps its invariant, and a
    header that is new in the index was admitted: the peer is exempt from the
    checks, or the header was released by a synchronisation that is backed by at
    least the minimum chain work, or the chain of the message claims that work, or
    the end of the message was known already. *)
Theorem headers_need_work {SHA : Sha256} (opts : NodeOptions) (genesis : CBlockHeader) (net : PeerNetwork)
    (id : Z) (peer : PeerState) (i : Input) (headers : list CBlockHeader) :
  params_ok (consensus opts) -> genesis_ok (consensus opts) genesis -> options_ok opts ->
  running opts genesis net -> nt_peers net !! id = Some peer ->
  Forall header_ok headers -> Forall (fun h => GetHash h <> null256) headers ->
  exists e, ProcessHeadersMessage opts (nt_node net) i peer headers = Ok e /\
    effects_ok opts genesis (nt_node net) i peer headers e.
Proof.
  intros Hp Hg Ho Hrun Hpeer Hok Hnull. destruct (running_ok opts genesis net Hp Hg Ho Hrun) as [Hn Hps].
  apply message_safe; try done. by apply (Hps id).
Qed.

(** ** Examples *)

(** The node of the main network, with a peer that announces a block. *)
Definition main_options : NodeOptions :=
  {| consensus := main_params; headers_sync := MkHeadersSyncParams 100 2500;
     MinimumChainWork := uint_zero; max_headers_result := 2000 |}.

Lemma main_options_ok : options_ok main_options.
Proof. split; [apply repr_zero|cbn; lia..]. Qed.

Definition main_network : PeerNetwork :=
  MkNetwork (MkNode start []) {[7 := MkPeer None 0]}.

Lemma main_network_running : running (SHA := platform_sha256) main_options main_genesis main_network.
Proof.
  destruct main_genesis_ok as [Hok Hprev _ Hnz].
  destruct (AddToBlockIndex_genesis (SHA := platform_sha256) main_genesis Hok) as (new & E & _).
  { intros H. apply Hnz. rewrite <- H. exact Hprev. }
  apply (running_step (SHA := platform_sha256) main_options main_genesis (MkNetwork (MkNode start []) ∅)).
  - unfold start. rewrite E. eapply (running_start (SHA := platform_sha256)). exact E.
  - apply (net_connect (SHA := platform_sha256) main_options (MkNetwork (MkNode start []) ∅) 7).
Qed.

Lemma headers_need_work_witness :
  exists e, ProcessHeadersMessage (SHA := platform_sha256) main_options (nt_node main_network)
              (MkInput 1781164714 0 le_combine false) (MkPeer None 0) [block1; block2] = Ok e.
Proof.
  destruct (headers_need_work (SHA := platform_sha256) main_options main_genesis main_network 7 (MkPeer None 0)
    (MkInput 1781164714 0 le_combine false) [block1; block2] main_params_ok main_genesis_ok main_options_ok
    main_network_running (lookup_singleton_eq _ _)) as (e & E & _).
  - repeat constructor; cbn; lia.
  - repeat constructor; by vm_compute.
  - exact (ex_intro _ e E).
Defined.

(** Both blocks enter the index, and the last one is the best header. *)
Lemma announced_blocks :
  match ProcessHeadersMessage (SHA := platform_sha256) main_options (nt_node main_network)
          (MkInput 1781164714 0 le_combine false) (MkPeer None 0) [block1; block2] with
  | Ok e => has_entry (e_chainman e) block1 1 && has_entry (e_chainman e) block2 2 &&
            bool_decide (best_header (m_blockman (e_chainman e)) = Some (GetHash (SHA := platform_sha256) block2))
  | Throw _ => false
  end = true.
Proof. by vm_compute. Qed.
